(* ===== verification/_CoqProject ===== *)
-Q . S2P
Prelude.v
CxxString.v
Double.v
Containers.v
Value.v
Store.v
HashMap.v
Shard.v
Router.v
Topology.v
Engine.v
Raft.v
Command.v
Exec.v
Ranges.v
Wire.v
StringCommands.v
ListCommands.v
SetCommands.v
HashCommands.v
ZSetCommands.v
Spec.v
Rdb.v
RdbProofs.v
RdbSafety.v
Startup.v
Registry.v
Replies.v
StorageTheorems.v
CommandTheorems.v
Safety.v
DatabaseRefinement.v
RespParser.v
UringStub.v
IoContext.v
Listener.v
Connection.v
Worker.v
Handlers.v
DatabaseTheorems.v
CoreInvariant.v
System.v
Sockets.v
Linearization.v
Runs.v
Accounting.v
RequestTheorems.v
ClientTheorems.v
ServerTheorems.v
ResourceTheorems.v
Tests.v
