(* ===== verification/Prelude.v ===== *)
(** * QuineDB

    A model of QuineDB, an in-memory key-value server with one worker thread per
    core, and the theorems that make it correct.  File and function names are
    those of the repository's [src/] and [include/] directories.

    ** The program

    [main.cpp] reads the port, builds a [Topology] with one [Shard] and one
    inbox per core, loads the dump file, fills the command registry, and starts
    the workers.  A worker owns an [IoContext] (an io_uring event loop), registers
    the descriptor that wakes it, waits for the other workers, opens a listening
    socket, and runs the loop: it accepts connections, reads bytes, parses RESP
    commands, and executes them.  The [Router] gives every key one owning core.  A
    command for a key of another core becomes a message in that core's inbox and a
    write to its wake-up descriptor; the owner executes it in its notification
    handler and sends the reply back the same way.

    ** How it is modelled

    Pure code is a function.  Code with effects is a state-passing computation
    ([comp], below) whose outcome is a value, an exception or undefined behaviour.
    Undefined behaviour is an outcome, so that theorems have to exclude it.
    Machine integers are [Z] with their wrap-around or overflow written out; a
    [double] is its 64-bit pattern; [std::map] and [std::set] are sorted lists,
    [std::unordered_map] is a finite map.

    - [Prelude], [CxxString], [Double], [Containers]: outcomes, integers, what the
      sources use of [std::string] ([stoi], [stol], [to_string]), [std::stod] and
      the printing of doubles, ordered containers.
    - [Value], [Store], [HashMap], [Shard], [Engine] (src/storage): the stored
      values, the interface [StoreLaws] that a shard needs of its store, the
      open-addressing table that provides it, lazy expiry, and the unused
      [StorageEngine].
    - [Router], [Topology] (src/core): FNV-1a and the ring; shards, inboxes
      and wake-up descriptors, an eventfd or a pipe ([WakeKind]).  [World] is what
      all cores share, with the clock, as an arbitrary sequence of readings, and the
      files.
    - [Command], [Exec], [Ranges], [StringCommands], [ListCommands],
      [SetCommands], [HashCommands], [ZSetCommands], [Registry] (src/commands): the
      26 commands, each a definition [XCommand_execute] and a refinement lemma
      against a pure specification of the value at its key.
    - [Rdb], [RdbProofs], [RdbSafety] (src/persistence): the dump format, saving
      and loading.
    - [Startup], [Listener], [Raft]: configuration and [main], the listening
      socket, the consensus skeleton.
    - [RespParser], [Connection] (src/network), [UringStub], [IoContext],
      [Worker]: parser, connections, ring, event loop and notification handler.
    - [Handlers], [CoreInvariant], [System], [Runs]: what the handlers preserve,
      the workers as a transition system whose steps are single handlers in every
      interleaving, and its runs from start-up.
    - [Sockets], [Accounting]: the descriptors the objects of the server own, with
      the kernel's table of open ones, which the steps open and the destructors
      close; and the commands and replies of a connection, in its queue or under way
      between cores.
    - [Wire], [Spec]: the specification.  [Wire] has the replies of the protocol as
      data, their bytes and a client's reader; [Spec] is the abstract database, keys
      with contents (strings, lists, finite sets and maps) and deadlines, and what
      each of the 25 commands on a key replies and writes.
    - [DatabaseRefinement], [Linearization]: the commands implement the abstract
      database, one by one and under every interleaving of the cores.
    - [Replies], [Safety], [StorageTheorems], [CommandTheorems],
      [DatabaseTheorems], [RequestTheorems], [ClientTheorems], [ServerTheorems],
      [ResourceTheorems]: the properties.
    - [Tests]: the repository's unit tests and the sessions of its integration tests,
      evaluated on the definitions above.

    ** What is shown

    Storage ([StorageTheorems]): the hash map, the shard and the sorted set answer
    every sequence of calls as a finite map, a map of values with a map of expiry
    times, and a finite map with an enumeration in order of score, infinities
    included; probing ends; a table from
    which keys were deleted does not get its room back; routing is by successor on
    the ring and moves keys only to a new shard.

    The database ([DatabaseTheorems], [ClientTheorems],
    [ResourceTheorems.linearizable]): every command on the owner of its key
    replies the bytes and leaves the contents the abstract database says, or finds
    the table full; so does a client's command from its bytes to the queue of its
    connection, on the owner and, for a name in upper case, through another core,
    whatever happens between its steps; and the server is
    linearizable: along every run from start-up what the cores did is a history of
    the abstract database, one command after the other, and the replies each
    connection gets are those its commands have in that history.
    Replies can be told apart on the wire unless a command name contains a line
    break, and only SET and DEL change the type of a key.

    Commands ([CommandTheorems]): the reply and the effect of every command on the
    owner of its key, on lists, finite sets and finite maps; wrong types and
    missing keys; where [ZADD] is not atomic and [EXPIRE] overflows.

    Persistence ([RdbProofs], [ServerTheorems.startup_safe]): loading what was
    saved gives the same database on any number of cores when no key has an
    expiry; a saved expiry is read as the length of a string, past the end of a
    file shorter than that; any file at all leaves the database well formed.

    Protocol ([RespParser]): the parser always returns, accepts exactly the
    commands of the wire format, inverts the encoding, and can be resumed where a
    buffer was used up.

    Requests ([RequestTheorems]): every command on a key replies, or leaves one request with
    the owner of its key, and replies leave in the order they were queued.  Three
    theorems show where this fails: a size line split over two reads is lost, a
    forwarded name keeps its case, the reply to a forwarded command is overtaken.
    (That a pipelined command is dropped shows in [client_command], where nothing
    depends on the bytes after the command.)

    The server ([ServerTheorems]): an invariant of all reachable states; every
    request in a ring asks the kernel for what its operation means; no lost wake-up,
    and mail that can be delivered while the descriptors in the ring are open; the
    start-up barrier; no core is stuck, but for the cases that [progress] names (a
    core whose context could not be made keeps the barrier closed, a closed
    descriptor makes [select] fail); a ring that neither loses nor invents requests; and the event loop as the code
    composes it is a run of the transition system.

    Resources ([ResourceTheorems]): along every run from start-up as many commands
    were read from each connection as it has replies written, queued and under way; each
    descriptor of the server has one owner and none leaks while no core has ended
    ([closes_once] says when the first part holds after that).
    Three theorems show what a single client can do to the others: leave while a
    reply is being written, so that the write stays behind with a descriptor that
    may become another client's, or that stops the core as long as it is closed; or
    send a negative size, which ends the core and strands all its clients.

    ** Bounds and fuel

    The probing loop has the table's capacity as fuel, the parser two units per
    byte and one, the loops of the dump loader the length of the file; each is
    proved enough ([probe_terminates], [parse_loop_enough], [load_loop_fuel]).  The
    waiting loop of the ring runs over the rounds the operating system plays and is
    not over when they end.
    Connection identifiers are taken not to wrap around at [2 ^ 32].

    ** Arguments of the model

    [StdHash] is [std::hash], [FileSystem] says which files can be opened for
    writing, [getenv] and [hardware_concurrency] are the platform's; the answers
    of the operating system to [select], to the calls made for ready requests and
    to those of the listening socket are arguments; so are the bytes a read
    delivers.  Nothing is assumed of them but, with the table of descriptors, what
    POSIX says of them: a call that opens one returns a number that is not open
    ([tstep]), and [select] fails when asked for one that is not open ([polls]).

    ** Not modelled

    The real liburing (a library outside the repository; the ring here is the
    in-tree stand-in); descriptors of [FD_SETSIZE] and above, which its [select] loop
    does not check for; exhaustion of memory and failing writes to the dump file;
    other threads in the middle of a handler, which is one step, and with it the data
    race of [SAVE] with writes on other cores; other threads between the two [close]
    calls of a context's destructor, which are one step here, so that statements
    about open descriptors name [closes_once]; a wake-up written to the descriptor of
    a core that has ended, after the kernel gave the number to a socket; the socket
    that a failed set-up of the listener leaves open; the width of the [int] counters
    of [SADD], [SREM], [HSET], [HDEL], [ZADD] and [ZREM], which count arguments of one
    command; console output; the contents of
    [read_buffer_], which is reserved but never resized ([resize_buffer] has no
    caller), beyond the bytes a read delivers; accessors that return a member; the
    benchmark, build and deployment files. *)
From Stdlib Require Import ZArith Ascii Lia.
From Stdlib Require String.
From stdpp Require Import prelude gmap strings list_numbers.

(** ** C++ outcomes

    A C++ call returns, throws, or has undefined behaviour.  [catch (...)]
    intercepts a throw; nothing intercepts undefined behaviour. *)

(** The exceptions the sources throw or let the standard library throw. *)
Inductive exn :=
  | runtime_error (what : string)
  | system_error (what : string)
  | out_of_range (what : string)
  | invalid_argument (what : string)
  | length_error (what : string).

#[export] Instance exn_eq_dec : EqDecision exn.
Proof. solve_decision. Defined.

Inductive outcome (A : Type) :=
  | Ok (a : A)
  | Throw (e : exn)
  | Undefined.
Arguments Ok {A} a.
Arguments Throw {A} e.
Arguments Undefined {A}.

#[export] Instance outcome_eq_dec {A} `{EqDecision A} : EqDecision (outcome A).
Proof. solve_decision. Defined.
#[export] Instance Ok_inj {A} : Inj (=) (=) (@Ok A).
Proof. by intros a b [= ->]. Qed.

(** A computation over a state [S]: explicit state passing.  The state reached
    before a throw is kept, as in C++. *)
Definition comp (S A : Type) : Type := S → outcome A * S.

#[export] Instance comp_ret {S} : MRet (comp S) := λ A a s, (Ok a, s).
#[export] Instance comp_bind {S} : MBind (comp S) := λ A B f m s,
  match m s with
  | (Ok a, s') => f a s'
  | (Throw e, s') => (Throw e, s')
  | (Undefined, s') => (Undefined, s')
  end.

Definition throw {S A} (e : exn) : comp S A := λ s, (Throw e, s).
Definition undefined {S A} : comp S A := λ s, (Undefined, s).
Definition gets {S A} (f : S → A) : comp S A := λ s, (Ok (f s), s).
Definition modify {S} (f : S → S) : comp S unit := λ s, (Ok tt, f s).

(** [try { m } catch (...) { h }]. *)
Definition try_catch {S A} (m h : comp S A) : comp S A := λ s,
  match m s with
  | (Throw _, s') => h s'
  | r => r
  end.

(** Lift a pure fallible result. *)
Definition lift {S A} (o : outcome A) : comp S A := λ s, (o, s).

(** A counted loop over the elements of a vector, threading an accumulator. *)
Fixpoint foldM {S A B} (f : B → A → comp S B) (acc : B) (l : list A) : comp S B :=
  match l with
  | [] => mret acc
  | x :: l' => acc' ← f acc x; foldM f acc' l'
  end.

(** ** Monad laws and stepping lemmas *)
Section comp_laws.
Context {S : Type}.

Lemma bind_ok {A B} (m : comp S A) (f : A → comp S B) s a s' :
  m s = (Ok a, s') → (m ≫= f) s = f a s'.
Proof. intros H. unfold mbind, comp_bind. by rewrite H. Qed.

Lemma bind_throw {A B} (m : comp S A) (f : A → comp S B) s e s' :
  m s = (Throw e, s') → (m ≫= f) s = (Throw e, s').
Proof. intros H. unfold mbind, comp_bind. by rewrite H. Qed.

Lemma bind_ret_l {A B} (a : A) (f : A → comp S B) s : (mret a ≫= f) s = f a s.
Proof. done. Qed.

Lemma bind_gets {A B} (g : S → A) (f : A → comp S B) s :
  (gets g ≫= f) s = f (g s) s.
Proof. done. Qed.

Lemma bind_run {A B} (m : comp S A) (k : A → comp S B) s :
  (m ≫= k) s =
    match m s with
    | (Ok a, s') => k a s'
    | (Throw e, s') => (Throw e, s')
    | (Undefined, s') => (Undefined, s')
    end.
Proof. done. Qed.

Lemma bind_assoc {A B C} (m : comp S A) (f : A → comp S B) (g : B → comp S C) s :
  ((m ≫= f) ≫= g) s = (m ≫= (λ a, f a ≫= g)) s.
Proof. unfold mbind, comp_bind. by destruct (m s) as [[]?]. Qed.

Lemma bind_ext {A B} (m : comp S A) (f g : A → comp S B) s :
  (∀ a s', f a s' = g a s') → (m ≫= f) s = (m ≫= g) s.
Proof. intros H. unfold mbind, comp_bind. by destruct (m s) as [[]?]. Qed.

(** [m] is [m'] wherever [m] is defined. *)
Definition agrees {A} (m m' : comp S A) : Prop := ∀ s, (m s).1 = Undefined ∨ m s = m' s.

Lemma agrees_refl {A} (m : comp S A) : agrees m m.
Proof. intros s. by right. Qed.

Lemma agrees_bind {A B} (m m' : comp S A) (f f' : A → comp S B) :
  agrees m m' → (∀ a, agrees (f a) (f' a)) → agrees (m ≫= f) (m' ≫= f').
Proof.
  intros Hm Hf s. unfold mbind, comp_bind. destruct (Hm s) as [Hu|<-].
  - destruct (m s) as [[a|e|] s']; by left.
  - destruct (m s) as [[a|e|] s']; [apply Hf|by right..].
Qed.

Lemma agrees_try {A} (m m' h : comp S A) :
  agrees m m' → agrees (try_catch m h) (try_catch m' h).
Proof.
  intros Hm s. unfold try_catch. destruct (Hm s) as [Hu|<-]; [|by right].
  destruct (m s) as [[a|e|] s']; by left.
Qed.

(** Inversion: a computation that returned ran its first part to a return. *)
Lemma bind_inv_ok {A B} (m : comp S A) (f : A → comp S B) s b s'' :
  (m ≫= f) s = (Ok b, s'') →
  ∃ a s', m s = (Ok a, s') ∧ f a s' = (Ok b, s'').
Proof.
  unfold mbind, comp_bind. destruct (m s) as [[a|e|] s'] eqn:E; naive_solver.
Qed.

End comp_laws.

(** ** Lists of pairs *)

(** The elements of a list of pairs, in order. *)
Definition flatten {A} (ps : list (A * A)) : list A := ps ≫= λ p, [p.1; p.2].

Lemma flatten_cons {A} (a b : A) ps : flatten ((a, b) :: ps) = a :: b :: flatten ps.
Proof. done. Qed.

Lemma flatten_length {A} (ps : list (A * A)) : length (flatten ps) = 2 * length ps.
Proof. induction ps as [|[a b] ps IH]; [done|]. rewrite flatten_cons. simpl. lia. Qed.

(** ** Strings and bytes *)

(** Raw byte buffers: sockets, files, [std::vector<char>]. *)
Abbreviation bytes := (list ascii).

Definition cr : ascii := "013"%char.
Definition lf : ascii := "010"%char.
Definition crlf : string := String cr (String lf EmptyString).

Fixpoint bytes_of_string (s : string) : bytes :=
  match s with
  | EmptyString => []
  | String c s' => c :: bytes_of_string s'
  end.

Fixpoint string_of_bytes (b : bytes) : string :=
  match b with
  | [] => EmptyString
  | c :: b' => String c (string_of_bytes b')
  end.

Lemma string_of_bytes_of_string s : string_of_bytes (bytes_of_string s) = s.
Proof. induction s; simpl; congruence. Qed.

Lemma bytes_of_string_of_bytes b : bytes_of_string (string_of_bytes b) = b.
Proof. induction b; simpl; congruence. Qed.

Lemma bytes_of_string_app s t :
  bytes_of_string (s +:+ t) = bytes_of_string s ++ bytes_of_string t.
Proof. induction s as [|c s IH]; [done|]. simpl. by rewrite <- IH. Qed.

Lemma string_of_bytes_app b c :
  string_of_bytes (b ++ c) = string_of_bytes b +:+ string_of_bytes c.
Proof. induction b as [|x b IH]; [done|]. simpl. by rewrite IH. Qed.

Lemma length_bytes_of_string s : length (bytes_of_string s) = String.length s.
Proof. induction s; simpl; congruence. Qed.

Lemma length_string_of_bytes b : String.length (string_of_bytes b) = length b.
Proof. induction b; simpl; congruence. Qed.

#[export] Instance bytes_of_string_inj : Inj (=) (=) bytes_of_string.
Proof.
  intros s t H. by rewrite <- (string_of_bytes_of_string s), H, string_of_bytes_of_string.
Qed.

Lemma string_app_assoc s t u : (s +:+ t) +:+ u = s +:+ (t +:+ u).
Proof. induction s as [|c s IH]; [done|]. by apply (f_equal (String c)) in IH. Qed.

(** [c] as an unsigned byte, and back. *)
Definition byte_val (c : ascii) : Z := Z.of_N (N_of_ascii c).
Definition byte_of (z : Z) : ascii := ascii_of_N (Z.to_N (z mod 256)).

Lemma byte_val_range c : (0 ≤ byte_val c < 256)%Z.
Proof. unfold byte_val. pose proof (N_ascii_bounded c). lia. Qed.

Lemma byte_of_val c : byte_of (byte_val c) = c.
Proof.
  unfold byte_of. rewrite Z.mod_small by apply byte_val_range.
  unfold byte_val. by rewrite N2Z.id, ascii_N_embedding.
Qed.

Lemma byte_val_of z : byte_val (byte_of z) = (z mod 256)%Z.
Proof.
  unfold byte_val, byte_of. pose proof (Z.mod_pos_bound z 256 ltac:(lia)).
  rewrite N_ascii_embedding by lia. lia.
Qed.

(** ** Machine integers *)

Definition wrap_u (w z : Z) : Z := z mod 2 ^ w.
Definition uint8 := wrap_u 8.
Definition uint16 := wrap_u 16.
Definition uint32 := wrap_u 32.
Definition uint64 := wrap_u 64.

Definition int_min : Z := - 2 ^ 31.
Definition int_max : Z := 2 ^ 31 - 1.
Definition long_min : Z := - 2 ^ 63.
Definition long_max : Z := 2 ^ 63 - 1.

Lemma wrap_u_range w z : (0 ≤ w → 0 ≤ wrap_u w z < 2 ^ w)%Z.
Proof. intros. apply Z.mod_pos_bound. lia. Qed.

Lemma wrap_u_small w z : (0 ≤ z < 2 ^ w)%Z → wrap_u w z = z.
Proof. apply Z.mod_small. Qed.

Create HintDb quine.
Create Rewrite HintDb quine_len.
#[export] Hint Resolve byte_val_range : quine.
#[export] Hint Rewrite @length_app @length_take @length_drop
  length_bytes_of_string length_string_of_bytes : quine_len.

(** ** Tactics *)

(** Step through a [comp] program whose first call is known to return. *)
Ltac mstep :=
  first
    [ rewrite bind_ret_l | rewrite bind_gets
    | erewrite bind_ok by eassumption
    | erewrite bind_throw by eassumption ].

(** Split the first [match]/[if] of the goal, keeping the equation. *)
Ltac case_goal :=
  match goal with
  | |- context [match ?x with _ => _ end] => destruct x eqn:?
  end.

(** Invert every returning [bind] in the context. *)
Ltac minv :=
  repeat match goal with
  | H : (_ ≫= _) _ = (Ok _, _) |- _ =>
      apply bind_inv_ok in H as (? & ? & ? & ?)
  | H : mret _ _ = (Ok _, _) |- _ => injection H as; subst
  | H : throw _ _ = (Ok _, _) |- _ => discriminate H
  | H : undefined _ = (Ok _, _) |- _ => discriminate H
  end.
