(* ===== verification/CxxString.v ===== *)
(** * The C++ string library functions the sources call

    [std::to_string] on integers, [std::stoi]/[std::stol] (through [strtol],
    base 10), [toupper] in the "C" locale, where it is defined, and [std::string]'s
    ordering.
    The round trip [stoi (to_string z) = z] is what lets a reply or a request
    header that the program prints be read back. *)
From S2P Require Import Prelude.
From Stdlib Require Import ZArith Ascii Lia.
From Stdlib Require String.
From stdpp Require Import prelude gmap strings list_numbers.
Local Open Scope Z_scope.

(** ** Character classes *)

Definition is_space (c : ascii) : bool :=
  let n := byte_val c in (n =? 32) || ((9 <=? n) && (n <=? 13)).
Definition is_digit (c : ascii) : bool :=
  let n := byte_val c in (48 <=? n) && (n <=? 57).
Definition digit_val (c : ascii) : Z := byte_val c - 48.
Definition digit_char (d : Z) : ascii := byte_of (48 + d).

(** ** [std::to_string] on integers *)

Fixpoint dec_digits (fuel : nat) (n : Z) (acc : bytes) : bytes :=
  match fuel with
  | O => acc
  | S f =>
      let acc' := digit_char (n mod 10) :: acc in
      if n <? 10 then acc' else dec_digits f (n / 10) acc'
  end.

(** One decimal digit per bit is always enough fuel. *)
Definition dec_fuel (n : Z) : nat := S (Z.to_nat (Z.log2 n)).

Definition to_bytes (z : Z) : bytes :=
  if z <? 0 then "-"%char :: dec_digits (dec_fuel (- z)) (- z) []
  else dec_digits (dec_fuel z) z [].

Definition to_string (z : Z) : string := string_of_bytes (to_bytes z).

(** ** [std::stoi], [std::stol] *)

Fixpoint skip_space (s : bytes) : bytes :=
  match s with
  | c :: s' => if is_space c then skip_space s' else s
  | [] => []
  end.

Fixpoint take_digits (acc : Z) (s : bytes) : Z :=
  match s with
  | c :: s' => if is_digit c then take_digits (10 * acc + digit_val c) s' else acc
  | [] => acc
  end.

(** The mathematical value [strtol] reads, [None] when no conversion can be
    performed. *)
Definition strtol (s : bytes) : option Z :=
  let s := skip_space s in
  let '(neg, s) :=
    match s with
    | c :: s' =>
        if bool_decide (c = "-"%char) then (true, s')
        else if bool_decide (c = "+"%char) then (false, s') else (false, s)
    | [] => (false, s)
    end in
  match s with
  | c :: _ =>
      if is_digit c
      then Some (if neg then - take_digits 0 s else take_digits 0 s) else None
  | [] => None
  end.

Definition sto (fn : string) (lo hi : Z) (s : string) : outcome Z :=
  match strtol (bytes_of_string s) with
  | None => Throw (invalid_argument fn)
  | Some v => if (lo <=? v) && (v <=? hi) then Ok v else Throw (out_of_range fn)
  end.

Definition stoi : string → outcome Z := sto "stoi" int_min int_max.
Definition stol : string → outcome Z := sto "stol" long_min long_max.

(** ** [toupper] in the "C" locale *)

Definition toupper (c : ascii) : ascii :=
  let n := byte_val c in
  if (97 <=? n) && (n <=? 122) then byte_of (n - 32) else c.

Fixpoint to_upper (s : string) : string :=
  match s with
  | EmptyString => EmptyString
  | String c s' => String (toupper c) (to_upper s')
  end.

(** The sources pass [char]s, which are signed: [toupper] is defined on the bytes
    below 128 and on [EOF], that is 255, which it returns. *)
Definition toupper_defined (c : ascii) : bool := (byte_val c <? 128) || (byte_val c =? 255).
Fixpoint plain (s : string) : bool :=
  match s with
  | EmptyString => true
  | String c s' => toupper_defined c && plain s'
  end.

(** [toupper] on every character of a string, by a loop or by [std::transform]. *)
Definition transform_upper {S} (s : string) : comp S string :=
  if plain s then mret (to_upper s) else undefined.

(** ** Facts about digits *)

Lemma digit_char_val d : 0 ≤ d < 10 → byte_val (digit_char d) = 48 + d.
Proof. intros. unfold digit_char. rewrite byte_val_of. apply Z.mod_small. lia. Qed.

Lemma digit_char_digit d : 0 ≤ d < 10 → is_digit (digit_char d) = true.
Proof. intros. unfold is_digit. rewrite digit_char_val by done. lia. Qed.

Lemma digit_val_char d : 0 ≤ d < 10 → digit_val (digit_char d) = d.
Proof. intros. unfold digit_val. rewrite digit_char_val by done. lia. Qed.

Lemma digit_not_space c : is_digit c = true → is_space c = false.
Proof. unfold is_digit, is_space. lia. Qed.

Lemma digit_neq c d : is_digit c = true → is_digit d = false → c ≠ d.
Proof. congruence. Qed.

Lemma mod10_range n : 0 ≤ n mod 10 < 10.
Proof. apply Z.mod_pos_bound. lia. Qed.
#[export] Hint Resolve mod10_range digit_char_digit digit_not_space : quine.

Lemma dec_fuel_enough n : 0 ≤ n → n < 2 ^ Z.of_nat (dec_fuel n).
Proof.
  intros. unfold dec_fuel.
  rewrite Nat2Z.inj_succ, Z2Nat.id by apply Z.log2_nonneg.
  destruct (decide (n = 0)) as [->|]; [done|].
  apply Z.log2_spec. lia.
Qed.

Lemma dec_digits_app fuel n acc : dec_digits fuel n acc = dec_digits fuel n [] ++ acc.
Proof.
  revert n acc. induction fuel as [|f IH]; intros; [done|]. simpl.
  case_match; [done|]. rewrite IH, (IH _ [_]), <- app_assoc. done.
Qed.

Lemma dec_digits_Forall fuel n acc :
  Forall (λ c, is_digit c = true) acc →
  Forall (λ c, is_digit c = true) (dec_digits fuel n acc).
Proof.
  revert n acc. induction fuel as [|f IH]; intros n acc H; [done|]. simpl.
  assert (is_digit (digit_char (n mod 10)) = true) by auto with quine.
  case_match; [|apply IH]; by constructor.
Qed.

Lemma dec_digits_nonempty fuel n acc : dec_digits (S fuel) n acc ≠ [].
Proof.
  assert (∀ f m a, dec_digits f m a = [] → a = []) as Hg.
  { intros f. induction f as [|f IH]; intros m a; simpl; [done|].
    case_match; [done|]. intros ?%IH. done. }
  simpl. case_match; [done|]. intros ?%Hg. done.
Qed.

Lemma take_digits_dec fuel n t :
  0 ≤ n < 2 ^ Z.of_nat fuel →
  take_digits 0 (dec_digits fuel n t) = take_digits n t.
Proof.
  revert n t. induction fuel as [|f IH]; intros n t Hn.
  { simpl in Hn. replace n with 0 by lia. done. }
  rewrite Nat2Z.inj_succ, Z.pow_succ_r in Hn by lia. simpl.
  assert (∀ a, take_digits a (digit_char (n mod 10) :: t) =
               take_digits (10 * a + n mod 10) t) as Hstep.
  { intros a. simpl. by rewrite digit_char_digit, digit_val_char by auto with quine. }
  destruct (Z.ltb_spec n 10).
  - rewrite Hstep. f_equal. rewrite Z.mod_small by lia. lia.
  - rewrite IH, Hstep; [f_equal; pose proof (Z.div_mod n 10); lia|].
    split; [apply Z.div_pos; lia|]. apply Z.div_lt_upper_bound; lia.
Qed.

(** What [to_bytes] prints: an optional minus sign, then digits only. *)
Lemma to_bytes_chars z :
  Forall (λ c, is_digit c = true ∨ c = "-"%char) (to_bytes z).
Proof.
  unfold to_bytes.
  assert (∀ f n, Forall (λ c, is_digit c = true ∨ c = "-"%char) (dec_digits f n [])).
  { intros f n. pose proof (dec_digits_Forall f n [] (Forall_nil_2 _)) as H.
    eapply Forall_impl; [exact H|]. naive_solver. }
  case_match; [constructor|]; auto.
Qed.

Lemma to_bytes_no_cr z : cr ∉ to_bytes z.
Proof.
  intros Hc. pose proof (to_bytes_chars z) as Hf. rewrite Forall_forall in Hf.
  by destruct (Hf _ Hc).
Qed.

(** ** [strtol] reads back what [std::to_string] prints, whatever non-digit
    follows *)

Lemma strtol_digits fuel n t :
  0 ≤ n < 2 ^ Z.of_nat (S fuel) →
  (∀ c t', t = c :: t' → is_digit c = false) →
  (∃ c r, dec_digits (S fuel) n t = c :: r ∧ is_digit c = true) ∧
  take_digits 0 (dec_digits (S fuel) n t) = n.
Proof.
  intros Hn Ht. split.
  - rewrite dec_digits_app.
    pose proof (dec_digits_nonempty fuel n []) as Hne.
    pose proof (dec_digits_Forall (S fuel) n [] ltac:(constructor)) as Hall.
    destruct (dec_digits (S fuel) n []) as [|c r]; [done|].
    inversion_clear Hall. simpl. eauto.
  - rewrite take_digits_dec by done. destruct t as [|c t']; [done|].
    simpl. by rewrite (Ht c t').
Qed.

#[local] Arguments dec_fuel : simpl never.
#[local] Arguments dec_digits : simpl never.
Lemma strtol_to_bytes z t :
  (∀ c t', t = c :: t' → is_digit c = false) → strtol (to_bytes z ++ t) = Some z.
Proof.
  intros Ht. unfold to_bytes. case_match eqn:Hz.
  - destruct (strtol_digits (Z.to_nat (Z.log2 (- z))) (- z) t) as [(c & r & E & Hc) Hv];
      [pose proof (dec_fuel_enough (- z)); unfold dec_fuel in *; lia|done|].
    fold (dec_fuel (- z)) in E, Hv. rewrite dec_digits_app in E, Hv.
    simpl. unfold strtol. simpl. rewrite E in Hv |- *. rewrite Hc, Hv. f_equal. lia.
  - destruct (strtol_digits (Z.to_nat (Z.log2 z)) z t) as [(c & r & E & Hc) Hv];
      [pose proof (dec_fuel_enough z); unfold dec_fuel in *; lia|done|].
    fold (dec_fuel z) in E, Hv. rewrite dec_digits_app in E, Hv.
    unfold strtol. rewrite E in Hv |- *. simpl skip_space.
    rewrite digit_not_space by done.
    rewrite !bool_decide_eq_false_2 by (by apply digit_neq).
    by rewrite Hc, Hv.
Qed.

Lemma stoi_to_string z : int_min ≤ z ≤ int_max → stoi (to_string z) = Ok z.
Proof.
  intros. unfold stoi, sto, to_string. rewrite bytes_of_string_of_bytes.
  rewrite <- (app_nil_r (to_bytes z)), strtol_to_bytes by done.
  by rewrite (proj2 (Z.leb_le _ _)), (proj2 (Z.leb_le _ _)) by lia.
Qed.

Lemma stol_to_string z : long_min ≤ z ≤ long_max → stol (to_string z) = Ok z.
Proof.
  intros. unfold stol, sto, to_string. rewrite bytes_of_string_of_bytes.
  rewrite <- (app_nil_r (to_bytes z)), strtol_to_bytes by done.
  by rewrite (proj2 (Z.leb_le _ _)), (proj2 (Z.leb_le _ _)) by lia.
Qed.

(** A successful [stoi] is within the width of [int]. *)
Lemma sto_range fn lo hi s v : sto fn lo hi s = Ok v → lo ≤ v ≤ hi.
Proof. unfold sto. repeat case_match; try done. intros [= <-]. lia. Qed.

Lemma to_string_inj z1 z2 : to_string z1 = to_string z2 → z1 = z2.
Proof.
  intros H%(f_equal bytes_of_string).
  unfold to_string in H. rewrite !bytes_of_string_of_bytes in H.
  apply (f_equal (λ b, strtol (b ++ []))) in H.
  rewrite !strtol_to_bytes in H by done. congruence.
Qed.

(** ** [toupper] *)

Lemma toupper_idem c : toupper (toupper c) = toupper c.
Proof. by destruct c as [[] [] [] [] [] [] [] []]; vm_compute. Qed.

Lemma to_upper_idem s : to_upper (to_upper s) = to_upper s.
Proof. induction s as [|c s IH]; simpl; [done|]. by rewrite toupper_idem, IH. Qed.

Lemma plain_upper s : plain (to_upper s) = plain s.
Proof.
  induction s as [|c s IH]; simpl; [done|]. rewrite IH. f_equal.
  by destruct c as [[] [] [] [] [] [] [] []]; vm_compute.
Qed.

Lemma transform_plain {S} s : plain s = true → transform_upper (S := S) s = mret (to_upper s).
Proof. unfold transform_upper. by intros ->. Qed.

(** ** [std::string::operator<]: lexicographic on unsigned bytes *)

Fixpoint string_ltb (s t : string) : bool :=
  match s, t with
  | _, EmptyString => false
  | EmptyString, String _ _ => true
  | String a s', String b t' =>
      if byte_val a <? byte_val b then true
      else if byte_val b <? byte_val a then false
      else string_ltb s' t'
  end.

Lemma byte_val_inj a b : byte_val a = byte_val b → a = b.
Proof. intros H. by rewrite <- (byte_of_val a), H, byte_of_val. Qed.

Lemma string_ltb_irrefl s : string_ltb s s = false.
Proof. induction s as [|c s IH]; simpl; [done|]. by rewrite Z.ltb_irrefl. Qed.

Lemma string_ltb_trans s t u :
  string_ltb s t = true → string_ltb t u = true → string_ltb s u = true.
Proof.
  revert t u. induction s as [|a s IH]; intros [|b t] [|c u]; simpl; try done.
  destruct (Z.ltb_spec (byte_val a) (byte_val b)), (Z.ltb_spec (byte_val b) (byte_val a)),
    (Z.ltb_spec (byte_val b) (byte_val c)), (Z.ltb_spec (byte_val c) (byte_val b)),
    (Z.ltb_spec (byte_val a) (byte_val c)), (Z.ltb_spec (byte_val c) (byte_val a));
    try done; try lia. apply IH.
Qed.

Lemma string_ltb_total s t :
  string_ltb s t = false → string_ltb t s = false → s = t.
Proof.
  revert t. induction s as [|a s IH]; intros [|b t]; simpl; try done.
  destruct (Z.ltb_spec (byte_val a) (byte_val b)), (Z.ltb_spec (byte_val b) (byte_val a));
    try done.
  intros. f_equal; [apply byte_val_inj; lia|auto].
Qed.

Lemma stoi_defined s : stoi s ≠ Undefined.
Proof. unfold stoi, sto. repeat case_match; done. Qed.

Lemma stol_defined s : stol s ≠ Undefined.
Proof. unfold stol, sto. repeat case_match; done. Qed.
