(* ===== verification/Double.v ===== *)
(** * IEEE 754 binary64 scores

    A [double] is its 64-bit pattern (a [Z] in [0, 2^64)), which is what the
    snapshot file stores.  Comparison is sign-magnitude comparison of the
    patterns, proved equal to comparison of the values they denote; [std::stod]
    and [std::to_string(double)] are exact-rational definitions of [strtod]'s
    correct rounding and of [printf("%f")]. *)
From S2P Require Import Prelude CxxString.
From Stdlib Require Import ZArith Ascii Lia.
From Stdlib Require String.
From stdpp Require Import prelude gmap strings list_numbers.
Local Open Scope Z_scope.

Abbreviation double := Z.

(** ** Fields *)

Definition d_sign (b : double) : bool := 2 ^ 63 <=? b.
Definition d_mag (b : double) : Z := b mod 2 ^ 63.
Definition d_expo (b : double) : Z := d_mag b / 2 ^ 52.
Definition d_mant (b : double) : Z := b mod 2 ^ 52.

Definition is_nan (b : double) : bool := (d_expo b =? 2047) && negb (d_mant b =? 0).
Definition is_inf (b : double) : bool := (d_expo b =? 2047) && (d_mant b =? 0).
Definition is_finite (b : double) : bool := d_expo b <? 2047.

(** ** Comparison: [a < b], [a == b] on doubles (false on NaN) *)

Definition d_key (b : double) : Z := if d_sign b then - d_mag b else d_mag b.

Definition dlt (a b : double) : bool :=
  negb (is_nan a) && negb (is_nan b) && (d_key a <? d_key b).
Definition deq (a b : double) : bool :=
  negb (is_nan a) && negb (is_nan b) && (d_key a =? d_key b).

(** ** The value of a finite pattern, in units of [2^-1074] *)

Definition d_signif (b : double) : Z :=
  if d_expo b =? 0 then d_mant b else d_mant b + 2 ^ 52.
Definition d_shift (b : double) : Z := Z.max (d_expo b) 1 - 1.
Definition d_abs (b : double) : Z := d_signif b * 2 ^ d_shift b.
Definition d_val (b : double) : Z := if d_sign b then - d_abs b else d_abs b.

(** ** Rounding a positive rational to the nearest double, ties to even *)

(** [p / q] rounded to an integer, ties to even. *)
Definition rhe (p q : Z) : Z :=
  let n := p / q in
  let r := 2 * (p mod q) in
  if r <? q then n
  else if q <? r then n + 1
  else if Z.even n then n else n + 1.

(** [(p / q) / 2^e] as a fraction. *)
Definition scale_num (p e : Z) : Z := if e <? 0 then p * 2 ^ (- e) else p.
Definition scale_den (q e : Z) : Z := if e <? 0 then q else q * 2 ^ e.

(** The exponent [e] with [2^52 <= (p/q)/2^e < 2^53]. *)
Definition round_exp (p q : Z) : Z :=
  let e := Z.log2 p - Z.log2 q - 53 in
  if 2 ^ 53 <=? scale_num p e / scale_den q e then e + 1 else e.

Inductive rounded :=
  | Rounded (mag : Z)     (* magnitude bits *)
  | RangeError.           (* [errno = ERANGE] *)

Definition round_pos (p q : Z) : rounded :=
  if p =? 0 then Rounded 0 else
  let e0 := round_exp p q in
  let e := Z.max e0 (-1074) in
  let n := rhe (scale_num p e) (scale_den q e) in
  let mag := (e + 1074) * 2 ^ 52 + n in
  let inexact := negb (n * scale_den q e =? scale_num p e) in
  let tiny := (e0 <? -1074) &&
    negb ((e0 =? -1075) && (rhe (scale_num p e0) (scale_den q e0) =? 2 ^ 53)) in
  if 2047 * 2 ^ 52 <=? mag then RangeError
  else if tiny && inexact then RangeError
  else Rounded mag.

Definition with_sign (neg : bool) (mag : Z) : double := if neg then 2 ^ 63 + mag else mag.

(** ** [std::stod] *)

Definition dec_val (c : ascii) : option Z := if is_digit c then Some (digit_val c) else None.
Definition hex_val (c : ascii) : option Z :=
  let n := byte_val (toupper c) in
  if is_digit c then Some (digit_val c)
  else if (65 <=? n) && (n <=? 70) then Some (n - 55) else None.

(** A run of digits: its value in base [b] from [acc], how many, and the rest. *)
Fixpoint digits_run (val : ascii → option Z) (b acc : Z) (k : nat) (s : bytes)
  : Z * nat * bytes :=
  match s with
  | c :: s' =>
      match val c with
      | Some d => digits_run val b (b * acc + d) (S k) s'
      | None => (acc, k, s)
      end
  | [] => (acc, k, s)
  end.

(** [[+-]digits] after an exponent letter, [None] when no digit follows. *)
Definition exponent_part (s : bytes) : option Z :=
  let '(neg, s) :=
    match s with
    | c :: s' =>
        if bool_decide (c = "-"%char) then (true, s')
        else if bool_decide (c = "+"%char) then (false, s') else (false, s)
    | [] => (false, s)
    end in
  let '(v, k, _) := digits_run dec_val 10 0 0 s in
  if (k =? 0)%nat then None else Some (if neg then - v else v).

(** The digits, optional fraction and optional exponent of a number in base
    [b]: [Some (p, q)] for the value [p / q]. *)
Definition number_part (val : ascii → option Z) (b eb : Z) (eletter : ascii)
    (s : bytes) : option (Z * Z) :=
  let '(v, k, s) := digits_run val b 0 0 s in
  let '(v, k', f, s) :=
    match s with
    | c :: s' =>
        if bool_decide (c = "."%char)
        then let '(v', k', s'') := digits_run val b v 0 s' in (v', (k + k')%nat, k', s'')
        else (v, k, 0%nat, s)
    | [] => (v, k, 0%nat, s)
    end in
  if (k' =? 0)%nat then None else
  let x :=
    match s with
    | c :: s' =>
        if bool_decide (toupper c = eletter) then default 0 (exponent_part s') else 0
    | [] => 0
    end in
  let q := b ^ Z.of_nat f in
  Some (if x <? 0 then (v, q * eb ^ (- x)) else (v * eb ^ x, q)).

Definition has_prefix_ci (p : string) (s : bytes) : bool :=
  bool_decide (take (String.length p) (toupper <$> s) = bytes_of_string p).

Definition double_inf : Z := 2047 * 2 ^ 52.
Definition double_nan : Z := 2047 * 2 ^ 52 + 2 ^ 51.

Definition stod_bytes (s : bytes) : outcome double :=
  let s := skip_space s in
  let '(neg, s) :=
    match s with
    | c :: s' =>
        if bool_decide (c = "-"%char) then (true, s')
        else if bool_decide (c = "+"%char) then (false, s') else (false, s)
    | [] => (false, s)
    end in
  if has_prefix_ci "INF" s then Ok (with_sign neg double_inf)
  else if has_prefix_ci "NAN" s then Ok (with_sign neg double_nan)
  else
    let num :=
      match (if has_prefix_ci "0X" s
             then number_part hex_val 16 2 "P" (drop 2 s) else None) with
      | Some r => Some r
      | None => number_part dec_val 10 10 "E" s
      end in
    match num with
    | None => Throw (invalid_argument "stod")
    | Some (p, q) =>
        match round_pos p q with
        | RangeError => Throw (out_of_range "stod")
        | Rounded mag => Ok (with_sign neg mag)
        end
    end.

Definition stod (s : string) : outcome double := stod_bytes (bytes_of_string s).

Lemma stod_defined s : stod s ≠ Undefined.
Proof. unfold stod, stod_bytes. repeat case_match; done. Qed.

(** ** [std::to_string(double)], i.e. [printf("%f")] *)

(** The magnitude in millionths, rounded ties to even. *)
Definition micros (b : double) : Z :=
  let e := d_shift b - 1074 in
  if e <? 0 then rhe (d_signif b * 10 ^ 6) (2 ^ (- e))
  else d_signif b * 2 ^ e * 10 ^ 6.

Fixpoint pad_digits (k : nat) (n : Z) (acc : bytes) : bytes :=
  match k with
  | O => acc
  | S k' => pad_digits k' (n / 10) (digit_char (n mod 10) :: acc)
  end.

Definition double_to_bytes (b : double) : bytes :=
  let sgn := if d_sign b then ["-"%char] else [] in
  if is_nan b then sgn ++ bytes_of_string "nan"
  else if is_inf b then sgn ++ bytes_of_string "inf"
  else sgn ++ to_bytes (micros b / 10 ^ 6) ++ ["."%char]
           ++ pad_digits 6 (micros b mod 10 ^ 6) [].

Definition double_to_string (b : double) : string := string_of_bytes (double_to_bytes b).

(** ** Smoke tests against known patterns *)

Example stod_1_5 : stod "1.5" = Ok 0x3ff8000000000000.
Proof. by vm_compute. Qed.
Example stod_tenth : stod " -0.1xyz" = Ok 0xbfb999999999999a.
Proof. by vm_compute. Qed.
Example stod_max : stod "1.7976931348623157e308" = Ok 0x7fefffffffffffff.
Proof. by vm_compute. Qed.
Example stod_overflow : stod "1e309" = Throw (out_of_range "stod").
Proof. by vm_compute. Qed.
Example stod_hex : stod "0x1.8p1" = Ok 0x4008000000000000.
Proof. by vm_compute. Qed.
Example stod_nan : stod "nan" = Ok double_nan.
Proof. by vm_compute. Qed.
Example stod_bad : stod "abc" = Throw (invalid_argument "stod").
Proof. by vm_compute. Qed.
Example print_tenth : double_to_string 0xbfb999999999999a = "-0.100000".
Proof. by vm_compute. Qed.
Example print_1e22 : double_to_string 0x4480f0cf064dd592 = "10000000000000000000000.000000".
Proof. by vm_compute. Qed.

(** ** Comparing patterns is comparing values *)

Definition mag_abs (m : Z) : Z :=
  (if m / 2 ^ 52 =? 0 then m mod 2 ^ 52 else m mod 2 ^ 52 + 2 ^ 52)
    * 2 ^ (Z.max (m / 2 ^ 52) 1 - 1).

Lemma d_mant_mag b : d_mant b = d_mag b mod 2 ^ 52.
Proof.
  unfold d_mant, d_mag. change (2 ^ 63) with (2 ^ 52 * 2 ^ 11).
  rewrite Z.rem_mul_r by done. rewrite Z.mul_comm, Z_mod_plus_full.
  by rewrite Z.mod_mod.
Qed.

Lemma d_abs_mag b : d_abs b = mag_abs (d_mag b).
Proof. unfold d_abs, d_signif, d_shift, d_expo, mag_abs. by rewrite d_mant_mag. Qed.

Lemma mag_abs_mono m1 m2 : 0 ≤ m1 < m2 → mag_abs m1 < mag_abs m2.
Proof.
  intros Hm. unfold mag_abs.
  pose proof (Z.div_mod m1 (2 ^ 52) ltac:(lia)) as E1.
  pose proof (Z.div_mod m2 (2 ^ 52) ltac:(lia)) as E2.
  pose proof (Z.mod_pos_bound m1 (2 ^ 52) ltac:(lia)) as R1.
  pose proof (Z.mod_pos_bound m2 (2 ^ 52) ltac:(lia)) as R2.
  assert (0 ≤ m1 / 2 ^ 52) by (apply Z.div_pos; lia).
  assert (m1 / 2 ^ 52 ≤ m2 / 2 ^ 52) by (apply Z.div_le_mono; lia).
  set (e1 := m1 / 2 ^ 52) in *. set (e2 := m2 / 2 ^ 52) in *.
  set (r1 := m1 mod 2 ^ 52) in *. set (r2 := m2 mod 2 ^ 52) in *.
  destruct (decide (e1 = e2)) as [Ee|Hne].
  - rewrite Ee in *. apply Z.mul_lt_mono_pos_r; [lia|]. case_match; lia.
  - rewrite (proj2 (Z.eqb_neq e2 0)) by lia.
    replace (Z.max e2 1 - 1) with ((Z.max e1 1 - 1) + (e2 - Z.max e1 1)) by lia.
    rewrite Z.pow_add_r by lia.
    assert (1 ≤ 2 ^ (e2 - Z.max e1 1)) by (apply Z.lt_pred_le, Z.pow_pos_nonneg; lia).
    assert (0 < 2 ^ (Z.max e1 1 - 1)) by lia.
    destruct (Z.eqb_spec e1 0); [nia|].
    assert (2 ^ (e2 - Z.max e1 1) = 2 * 2 ^ (e2 - Z.max e1 1 - 1)) as ->.
    { rewrite <- Z.pow_succ_r by lia. f_equal. lia. }
    assert (1 ≤ 2 ^ (e2 - Z.max e1 1 - 1)) by (apply Z.lt_pred_le, Z.pow_pos_nonneg; lia).
    nia.
Qed.

Lemma mag_abs_nonneg m : 0 ≤ m → 0 ≤ mag_abs m.
Proof.
  intros. destruct (decide (m = 0)) as [->|]; [done|].
  pose proof (mag_abs_mono 0 m). change (mag_abs 0) with 0 in *. lia.
Qed.

Lemma d_mag_range b : 0 ≤ d_mag b < 2 ^ 63.
Proof. apply Z.mod_pos_bound. lia. Qed.

(** The order of patterns is the order of the values they denote. *)
Lemma d_key_val a b : d_key a < d_key b ↔ d_val a < d_val b.
Proof.
  assert (∀ x y, d_key x < d_key y → d_val x < d_val y) as Hlt.
  { intros x y. unfold d_key, d_val. rewrite !d_abs_mag.
    pose proof (d_mag_range x). pose proof (d_mag_range y).
    pose proof (mag_abs_nonneg (d_mag x)). pose proof (mag_abs_nonneg (d_mag y)).
    pose proof (mag_abs_mono (d_mag x) (d_mag y)).
    pose proof (mag_abs_mono (d_mag y) (d_mag x)).
    pose proof (mag_abs_mono 0 (d_mag x)). pose proof (mag_abs_mono 0 (d_mag y)).
    change (mag_abs 0) with 0 in *.
    destruct (d_sign x), (d_sign y); lia. }
  assert (∀ x y, d_key x = d_key y → d_val x = d_val y) as Heq.
  { intros x y. unfold d_key, d_val. rewrite !d_abs_mag.
    pose proof (d_mag_range x). pose proof (d_mag_range y).
    destruct (d_sign x), (d_sign y); intros E.
    - by replace (d_mag y) with (d_mag x) by lia.
    - assert (d_mag x = 0) as -> by lia. by assert (d_mag y = 0) as -> by lia.
    - assert (d_mag x = 0) as -> by lia. by assert (d_mag y = 0) as -> by lia.
    - by rewrite E. }
  split; [apply Hlt|]. intros Hv.
  destruct (Z.lt_trichotomy (d_key a) (d_key b)) as [?|[?%Heq|?%Hlt]]; [done|lia|lia].
Qed.

(** ** Order and equality of numbers, infinities included *)

Definition neg_inf (b : double) : bool := is_inf b && d_sign b.
Definition pos_inf (b : double) : bool := is_inf b && negb (d_sign b).

(** [a] is the smaller number: minus infinity is below everything else, everything
    else is below plus infinity, finite numbers are compared by value. *)
Definition below (a b : double) : Prop :=
  (neg_inf a = true ∧ neg_inf b = false) ∨ (pos_inf a = false ∧ pos_inf b = true) ∨
  (is_finite a = true ∧ is_finite b = true ∧ d_val a < d_val b).

(** The same number; the two zeros are one. *)
Definition same_number (a b : double) : Prop :=
  (neg_inf a = true ∧ neg_inf b = true) ∨ (pos_inf a = true ∧ pos_inf b = true) ∨
  (is_finite a = true ∧ is_finite b = true ∧ d_val a = d_val b).

(** A pattern that is no NaN is finite, and of smaller magnitude than infinity, or
    infinite. *)
Lemma number_cases b :
  is_nan b = false →
  (is_finite b = true ∧ is_inf b = false ∧ d_mag b < double_inf) ∨
  (is_finite b = false ∧ is_inf b = true ∧ d_mag b = double_inf).
Proof.
  unfold is_nan, is_finite, is_inf, double_inf, d_expo. intros Hn.
  assert (d_mant b = d_mag b mod 2 ^ 52) as Hm.
  { unfold d_mant, d_mag. change (2 ^ 63) with (2 ^ 52 * 2 ^ 11). rewrite Z.rem_mul_r by lia.
    rewrite Z.mul_comm, Z_mod_plus_full, Z.mod_mod by lia. done. }
  rewrite Hm in *. pose proof (d_mag_range b) as Hr.
  pose proof (Z.div_mod (d_mag b) (2 ^ 52) ltac:(lia)) as Hd.
  pose proof (Z.mod_pos_bound (d_mag b) (2 ^ 52) ltac:(lia)) as Hb.
  assert (d_mag b / 2 ^ 52 < 2048) by (apply Z.div_lt_upper_bound; lia).
  destruct (Z.ltb_spec (d_mag b / 2 ^ 52) 2047); [left|right]; split_and!; lia.
Qed.

Lemma key_below a b :
  is_nan a = false → is_nan b = false → d_key a < d_key b → below a b.
Proof.
  intros Ha Hb Hk. pose proof (proj1 (d_key_val a b) Hk) as Hv.
  pose proof (d_mag_range a). pose proof (d_mag_range b). revert Hk.
  unfold below, neg_inf, pos_inf, d_key.
  destruct (number_cases a Ha) as [(-> & -> & ?)|(-> & -> & ?)],
    (number_cases b Hb) as [(-> & -> & ?)|(-> & -> & ?)]; destruct (d_sign a), (d_sign b); simpl; lia || auto.
Qed.

Lemma key_same a b :
  is_nan a = false → is_nan b = false → d_key a = d_key b → same_number a b.
Proof.
  intros Ha Hb Hk. assert (d_val a = d_val b) as Hv.
  { pose proof (d_key_val a b). pose proof (d_key_val b a). lia. }
  pose proof (d_mag_range a). pose proof (d_mag_range b). revert Hk.
  unfold same_number, neg_inf, pos_inf, d_key.
  destruct (number_cases a Ha) as [(-> & -> & ?)|(-> & -> & ?)],
    (number_cases b Hb) as [(-> & -> & ?)|(-> & -> & ?)]; destruct (d_sign a), (d_sign b); simpl;
    unfold double_inf in *; lia || auto 6.
Qed.

Lemma finite_not_nan b : is_finite b = true → is_nan b = false.
Proof. unfold is_finite, is_nan. lia. Qed.

Lemma dlt_value a b :
  is_finite a = true → is_finite b = true → dlt a b = (d_val a <? d_val b).
Proof.
  intros Ha%finite_not_nan Hb%finite_not_nan. unfold dlt. rewrite Ha, Hb. simpl.
  pose proof (d_key_val a b).
  destruct (Z.ltb_spec (d_key a) (d_key b)), (Z.ltb_spec (d_val a) (d_val b)); lia.
Qed.

(** ** [operator<] on doubles without NaN is a strict weak order *)

Lemma dlt_irrefl a : dlt a a = false.
Proof. unfold dlt. rewrite Z.ltb_irrefl. apply andb_false_r. Qed.

Lemma dlt_spec a b :
  is_nan a = false → is_nan b = false → dlt a b = (d_key a <? d_key b).
Proof. intros Ha Hb. unfold dlt. by rewrite Ha, Hb. Qed.

Lemma deq_spec a b :
  is_nan a = false → is_nan b = false → deq a b = (d_key a =? d_key b).
Proof. intros Ha Hb. unfold deq. by rewrite Ha, Hb. Qed.
