(* ===== verification/Containers.v ===== *)
(** * [std::set], [std::map]: ordered containers

    An ordered container is the list of its elements in iteration order.  The
    operations are those the sources call ([insert], [erase], [find] and
    assignment through [operator[]]), written for an arbitrary [Compare] and
    locating elements by [!(a < b) && !(b < a)], as the standard specifies.
    The laws are proved for comparators that compare a key drawn from a totally
    ordered type, which covers [Set], [Hash] and [ZSet]'s tree. *)
From S2P Require Import Prelude CxxString.
From Stdlib Require Import ZArith Lia Sorted.
From stdpp Require Import prelude gmap strings list_numbers.

Section operations.
Context {A : Type} (lt : A → A → bool).

(** [c.insert(x)]: the container and whether the insertion took place. *)
Fixpoint oinsert (x : A) (l : list A) : list A * bool :=
  match l with
  | [] => ([x], true)
  | y :: l' =>
      if lt x y then (x :: y :: l', true)
      else if lt y x then let '(r, b) := oinsert x l' in (y :: r, b)
      else (y :: l', false)
  end.

(** [c.erase(x)]: the container and whether an element was removed. *)
Fixpoint oerase (x : A) (l : list A) : list A * bool :=
  match l with
  | [] => ([], false)
  | y :: l' =>
      if lt x y then (y :: l', false)
      else if lt y x then let '(r, b) := oerase x l' in (y :: r, b)
      else (l', true)
  end.

(** [c.find(x)]: the element equivalent to [x]. *)
Fixpoint ofind (x : A) (l : list A) : option A :=
  match l with
  | [] => None
  | y :: l' =>
      if lt x y then None
      else if lt y x then ofind x l'
      else Some y
  end.

(** Assignment through [operator[]]: overwrite the equivalent element, or
    insert one. *)
Fixpoint oassign (x : A) (l : list A) : list A :=
  match l with
  | [] => [x]
  | y :: l' =>
      if lt x y then x :: y :: l'
      else if lt y x then y :: oassign x l'
      else x :: l'
  end.

(** The container invariant: strictly increasing iteration order. *)
Definition osorted (l : list A) : Prop := StronglySorted (λ a b, lt a b = true) l.

End operations.

(** ** Laws *)

(** A strict total order given by a boolean test. *)
Class TotalLess {K : Type} (kltb : K → K → bool) : Prop := {
  less_irrefl k : kltb k k = false;
  less_trans k1 k2 k3 : kltb k1 k2 = true → kltb k2 k3 = true → kltb k1 k3 = true;
  less_total k1 k2 : kltb k1 k2 = false → kltb k2 k1 = false → k1 = k2
}.

#[export] Instance string_total : TotalLess string_ltb := {|
  less_irrefl := string_ltb_irrefl;
  less_trans := string_ltb_trans;
  less_total := string_ltb_total
|}.

Section laws.
Context {A K : Type} (key : A → K) (kltb : K → K → bool) `{!TotalLess kltb}.
Let lt (a b : A) : bool := kltb (key a) (key b).
Implicit Types (x y z : A) (l : list A).

Lemma less_asym k1 k2 : kltb k1 k2 = true → kltb k2 k1 = false.
Proof.
  intros H. destruct (kltb k2 k1) eqn:E; [|done].
  pose proof (less_trans _ _ _ H E). by rewrite less_irrefl in *.
Qed.

Lemma less_neq k1 k2 : kltb k1 k2 = true → k1 ≠ k2.
Proof. intros H ->. by rewrite less_irrefl in H. Qed.

(** The three-way split every operation makes at a node. *)
Lemma less_cases x y :
  (lt x y = true ∧ key x ≠ key y) ∨
  (lt x y = false ∧ lt y x = true ∧ key x ≠ key y) ∨
  (lt x y = false ∧ lt y x = false ∧ key x = key y).
Proof.
  unfold lt. destruct (kltb (key x) (key y)) eqn:E1.
  { left. split; [done|]. by apply less_neq. }
  destruct (kltb (key y) (key x)) eqn:E2.
  - right; left. split_and!; [done..|]. apply less_neq in E2. congruence.
  - right; right. split_and!; [done..|]. by apply less_total.
Qed.

Lemma osorted_cons x l :
  osorted lt (x :: l) ↔ osorted lt l ∧ ∀ y, y ∈ l → lt x y = true.
Proof.
  unfold osorted. split.
  - inversion_clear 1 as [|?? Hs Hf]. split; [done|]. by apply Forall_forall.
  - intros [??]. constructor; [done|]. by apply Forall_forall.
Qed.

Lemma osorted_above x y l : osorted lt (y :: l) → lt x y = true → ∀ z, z ∈ y :: l → lt x z = true.
Proof.
  intros [_ Hy]%osorted_cons Hxy z [->|Hz]%elem_of_cons; [done|].
  unfold lt in *. eauto using less_trans.
Qed.

Lemma above_not_key x l : (∀ z, z ∈ l → lt x z = true) → ∀ z, z ∈ l → key z ≠ key x.
Proof. intros H z Hz E. specialize (H z Hz). unfold lt in H. by rewrite E, less_irrefl in H. Qed.

(** *** [insert] *)

Lemma oinsert_spec x l :
  osorted lt l →
  osorted lt (oinsert lt x l).1 ∧
  (∀ z, z ∈ (oinsert lt x l).1 ↔ z ∈ l ∨ (z = x ∧ ∀ y, y ∈ l → key y ≠ key x)) ∧
  ((oinsert lt x l).2 = true ↔ ∀ y, y ∈ l → key y ≠ key x).
Proof.
  induction l as [|y l IH]; intros Hs; simpl.
  { split_and!; [|set_solver|set_solver]. apply osorted_cons. split; [constructor|set_solver]. }
  destruct (less_cases x y) as [[E1 Hne]|[(E1 & E2 & Hne)|(E1 & E2 & Heq)]]; rewrite E1.
  - pose proof (osorted_above x y l Hs E1) as Hab.
    pose proof (above_not_key _ _ Hab). split_and!.
    + apply osorted_cons. done.
    + intros z; simpl. rewrite !elem_of_cons. set_solver.
    + simpl. naive_solver.
  - rewrite E2. destruct (oinsert lt x l) as [r b] eqn:Er. simpl.
    apply osorted_cons in Hs as [Hs Hy]. destruct (IH Hs) as (Hs' & Hm & Hb); simpl in *.
    split_and!.
    + apply osorted_cons. split; [done|]. intros z [?|[-> _]]%Hm; auto.
    + intros z. rewrite !elem_of_cons, Hm. set_solver.
    + rewrite Hb. set_solver.
  - rewrite E2. simpl. split_and!; [done| |split; [done|]].
    + intros z. split; [by left|]. intros [?|[-> Hn]]; [done|].
      by destruct (Hn y ltac:(set_solver)).
    + intros Hn. by destruct (Hn y ltac:(set_solver)).
Qed.

Lemma oinsert_length x l :
  length (oinsert lt x l).1 = (length l + if (oinsert lt x l).2 then 1 else 0)%nat.
Proof.
  induction l as [|y l IH]; simpl; [done|].
  destruct (lt x y); [simpl; lia|]. destruct (lt y x); [|simpl; lia].
  destruct (oinsert lt x l). simpl in *. lia.
Qed.

(** Inserting above everything appends: this is how a snapshot is reloaded. *)
Lemma oinsert_last x l : (∀ y, y ∈ l → lt y x = true) → oinsert lt x l = (l ++ [x], true).
Proof.
  induction l as [|y l IH]; intros H; simpl; [done|].
  assert (lt y x = true) as Hyx by set_solver.
  assert (lt x y = false) as -> by (unfold lt in *; by apply less_asym).
  rewrite Hyx, IH by set_solver. done.
Qed.

(** *** [erase] *)

Lemma oerase_spec x l :
  osorted lt l →
  osorted lt (oerase lt x l).1 ∧
  (∀ z, z ∈ (oerase lt x l).1 ↔ z ∈ l ∧ key z ≠ key x) ∧
  ((oerase lt x l).2 = true ↔ ∃ y, y ∈ l ∧ key y = key x).
Proof.
  induction l as [|y l IH]; intros Hs; simpl.
  { split_and!; [done|set_solver|set_solver]. }
  destruct (less_cases x y) as [[E1 Hne]|[(E1 & E2 & Hne)|(E1 & E2 & Heq)]]; rewrite E1.
  - pose proof (above_not_key _ _ (osorted_above x y l Hs E1)) as Hk.
    split_and!; [done|naive_solver|naive_solver].
  - rewrite E2. destruct (oerase lt x l) as [r b] eqn:Er. simpl.
    apply osorted_cons in Hs as [Hs Hy]. destruct (IH Hs) as (Hs' & Hm & Hb); simpl in *.
    split_and!.
    + apply osorted_cons. split; [done|]. intros z [??]%Hm; auto.
    + intros z. rewrite !elem_of_cons, Hm. set_solver.
    + rewrite Hb. set_solver.
  - rewrite E2. apply osorted_cons in Hs as [Hs Hy]. split_and!; [done| |].
    + intros z. simpl. rewrite elem_of_cons. split; [|set_solver].
      intros Hz. split; [by right|]. specialize (Hy z Hz). unfold lt in Hy.
      apply less_neq in Hy. congruence.
    + simpl. split; [|done]. intros _. exists y. set_solver.
Qed.

Lemma oerase_length x l :
  length l = (length (oerase lt x l).1 + if (oerase lt x l).2 then 1 else 0)%nat.
Proof.
  induction l as [|y l IH]; simpl; [done|].
  destruct (lt x y); [simpl; lia|]. destruct (lt y x); [|simpl; lia].
  destruct (oerase lt x l). simpl in *. lia.
Qed.

(** *** [find] *)

Lemma ofind_spec x l y :
  osorted lt l → ofind lt x l = Some y ↔ y ∈ l ∧ key y = key x.
Proof.
  induction l as [|z l IH]; intros Hs; simpl; [set_solver|].
  destruct (less_cases x z) as [[E1 Hne]|[(E1 & E2 & Hne)|(E1 & E2 & Heq)]]; rewrite E1.
  - pose proof (above_not_key _ _ (osorted_above x z l Hs E1)) as Hk. naive_solver.
  - rewrite E2. apply osorted_cons in Hs as [Hs Hz]. rewrite IH, elem_of_cons by done.
    naive_solver.
  - rewrite E2. apply osorted_cons in Hs as [Hs Hz]. split; [intros [= ->]; set_solver|].
    intros [[->|Hy]%elem_of_cons Hk]; [done|]. specialize (Hz y Hy). unfold lt in Hz.
    apply less_neq in Hz. congruence.
Qed.

Lemma ofind_None x l :
  osorted lt l → ofind lt x l = None ↔ ∀ y, y ∈ l → key y ≠ key x.
Proof.
  intros Hs. rewrite eq_None_not_Some. split.
  - intros Hn y Hy Hk. apply Hn. exists y. by apply ofind_spec.
  - intros Hn [y [Hy Hk]%ofind_spec]; [by eapply Hn|done].
Qed.

(** *** Assignment *)

Lemma oassign_spec x l :
  osorted lt l →
  osorted lt (oassign lt x l) ∧
  (∀ z, z ∈ oassign lt x l ↔ z = x ∨ (z ∈ l ∧ key z ≠ key x)).
Proof.
  induction l as [|y l IH]; intros Hs; simpl.
  { split; [|set_solver]. apply osorted_cons. split; [constructor|set_solver]. }
  destruct (less_cases x y) as [[E1 Hne]|[(E1 & E2 & Hne)|(E1 & E2 & Heq)]]; rewrite E1.
  - pose proof (osorted_above x y l Hs E1) as Hab.
    pose proof (above_not_key _ _ Hab). split; [by apply osorted_cons|].
    intros z. rewrite elem_of_cons. naive_solver.
  - rewrite E2. apply osorted_cons in Hs as [Hs Hy]. destruct (IH Hs) as (Hs' & Hm).
    split.
    + apply osorted_cons. split; [done|]. intros z [->|[??]]%Hm; auto.
    + intros z. rewrite !elem_of_cons, Hm. set_solver.
  - rewrite E2. apply osorted_cons in Hs as [Hs Hy]. unfold lt in *. split.
    + apply osorted_cons. split; [done|]. intros z Hz. unfold lt. rewrite Heq. by apply Hy.
    + intros z. rewrite !elem_of_cons. split; [|set_solver].
      intros [->|Hz]; [by left|right]. split; [by right|].
      specialize (Hy z Hz). apply less_neq in Hy. congruence.
Qed.

Lemma oassign_length x l :
  length (oassign lt x l) = (length l + match ofind lt x l with Some _ => 0 | None => 1 end)%nat.
Proof. induction l as [|y l IH]; simpl; [done|]. repeat case_match; simpl; lia. Qed.

Lemma oassign_last x l : (∀ y, y ∈ l → lt y x = true) → oassign lt x l = l ++ [x].
Proof.
  induction l as [|y l IH]; intros H; simpl; [done|].
  assert (lt y x = true) as Hyx by set_solver.
  assert (lt x y = false) as -> by (unfold lt in *; by apply less_asym).
  rewrite Hyx, IH by set_solver. done.
Qed.

(** *** Canonicity: a sorted container is determined by its elements *)

Lemma osorted_ext l1 l2 :
  osorted lt l1 → osorted lt l2 → (∀ z, z ∈ l1 ↔ z ∈ l2) → l1 = l2.
Proof.
  revert l2. induction l1 as [|x l1 IH]; intros [|y l2] H1 H2 Hm; [done|set_solver|set_solver|].
  apply osorted_cons in H1 as [H1 Hx]. apply osorted_cons in H2 as [H2 Hy].
  assert (x = y) as ->.
  { assert (x ∈ y :: l2) as [->|Hxl2]%elem_of_cons by (apply Hm; set_solver); [done|].
    assert (y ∈ x :: l1) as [->|Hyl1]%elem_of_cons by (apply Hm; set_solver); [done|].
    pose proof (Hx _ Hyl1) as E1. pose proof (Hy _ Hxl2) as E2. unfold lt in *.
    by rewrite (less_asym _ _ E1) in E2. }
  f_equal. apply IH; [done..|]. intros z. specialize (Hm z). rewrite !elem_of_cons in Hm.
  assert (y ∉ l1) by (intros E%Hx; unfold lt in E; by rewrite less_irrefl in E).
  assert (y ∉ l2) by (intros E%Hy; unfold lt in E; by rewrite less_irrefl in E).
  set_solver.
Qed.

Lemma osorted_key_NoDup l : osorted lt l → NoDup (key <$> l).
Proof.
  induction l as [|x l IH]; intros Hs; simpl; [constructor|].
  apply osorted_cons in Hs as [Hs Hx]. constructor; [|auto].
  intros (y & E & Hy)%list_elem_of_fmap. specialize (Hx y Hy). unfold lt in Hx.
  by rewrite E, less_irrefl in Hx.
Qed.

Lemma osorted_app_last l x :
  osorted lt (l ++ [x]) → osorted lt l ∧ ∀ y, y ∈ l → lt y x = true.
Proof.
  induction l as [|y l IH]; simpl; [intros _; split; [constructor|set_solver]|].
  intros [Hs Hy]%osorted_cons. destruct (IH Hs). split; [apply osorted_cons; set_solver|].
  intros z [->|?]%elem_of_cons; set_solver.
Qed.

Lemma osorted_app_mid l1 x l2 :
  osorted lt (l1 ++ x :: l2) → ∀ y, y ∈ l1 → lt y x = true.
Proof.
  induction l1 as [|z l1 IH]; simpl; [set_solver|].
  intros [Hs Hz]%osorted_cons y [->|Hy]%elem_of_cons; [apply Hz; set_solver|by apply IH].
Qed.

End laws.

(** Comparators that agree on the elements at hand behave alike. *)
Section ext.
Context {A : Type} (lt1 lt2 : A → A → bool).
Implicit Types (x y : A) (l : list A).

Lemma oinsert_ext x l :
  (∀ y, y ∈ l → lt1 x y = lt2 x y ∧ lt1 y x = lt2 y x) → oinsert lt1 x l = oinsert lt2 x l.
Proof.
  induction l as [|y l IH]; intros H; simpl; [done|].
  destruct (H y) as [-> ->]; [set_solver|]. by rewrite IH by set_solver.
Qed.

Lemma oerase_ext x l :
  (∀ y, y ∈ l → lt1 x y = lt2 x y ∧ lt1 y x = lt2 y x) → oerase lt1 x l = oerase lt2 x l.
Proof.
  induction l as [|y l IH]; intros H; simpl; [done|].
  destruct (H y) as [-> ->]; [set_solver|]. by rewrite IH by set_solver.
Qed.
End ext.
