(* ===== verification/Value.v ===== *)
(** * Stored values (src/storage/value.hpp)

    The polymorphic [Value] of a key and the sorted-set structure [ZSet], which
    keeps the same association twice: an ordered tree of (score, member) and a
    dictionary member -> score. *)
From S2P Require Import Prelude CxxString Double Containers.
From Stdlib Require Import ZArith Lia.
From stdpp Require Import prelude gmap strings list_numbers.

(** [struct ZSetEntry] and its [operator<]. *)
Record ZSetEntry := mkEntry { score : double; member : string }.

Definition entry_ltb (a b : ZSetEntry) : bool :=
  if negb (deq (score a) (score b)) then dlt (score a) (score b)
  else string_ltb (member a) (member b).

(** [struct ZSet]. *)
Record ZSet := mkZSet { tree : list ZSetEntry; dict : gmap string double }.

Definition zset_empty : ZSet := mkZSet [] ∅.

(** [ZSet::insert].  A NaN score makes [operator<] no strict weak ordering, and
    [std::set] gives no meaning to such a comparator: undefined behaviour. *)
Definition zset_insert (z : ZSet) (e : ZSetEntry) : outcome ZSet :=
  if is_nan (score e) then Undefined else
  let t :=
    match dict z !! member e with
    | Some old => (oerase entry_ltb (mkEntry old (member e)) (tree z)).1
    | None => tree z
    end in
  Ok (mkZSet (oinsert entry_ltb e t).1 (<[member e := score e]> (dict z))).

(** [ZSet::erase]. *)
Definition zset_erase (z : ZSet) (m : string) : ZSet * bool :=
  match dict z !! m with
  | Some old =>
      (mkZSet (oerase entry_ltb (mkEntry old m) (tree z)).1 (delete m (dict z)), true)
  | None => (z, false)
  end.

(** [ZSet::size]. *)
Definition zset_size (z : ZSet) : nat := length (tree z).

(** [Set = std::set<std::string>], [Hash = std::map<std::string, std::string>]. *)
Definition set_insert (x : string) (s : list string) : list string * bool :=
  oinsert string_ltb x s.
Definition set_erase (x : string) (s : list string) : list string * bool :=
  oerase string_ltb x s.

Definition hash_ltb (a b : string * string) : bool := string_ltb a.1 b.1.
Definition hash_find (f : string) (h : list (string * string)) : option string :=
  snd <$> ofind hash_ltb (f, EmptyString) h.
Definition hash_assign (f v : string) (h : list (string * string)) : list (string * string) :=
  oassign hash_ltb (f, v) h.
Definition hash_erase (f : string) (h : list (string * string))
  : list (string * string) * bool := oerase hash_ltb (f, EmptyString) h.

(** [using Value = std::variant<monostate, String, List, Set, Hash, ZSet>]. *)
Inductive Value :=
  | Monostate
  | VString (s : string)
  | VList (l : list string)
  | VSet (s : list string)
  | VHash (h : list (string * string))
  | VZSet (z : ZSet).

(** [enum class ValueType] and [get_type]. *)
Inductive ValueType := NONE | STRING | LIST | SET | HASH | ZSET.

Definition get_type (v : Value) : ValueType :=
  match v with
  | VString _ => STRING
  | VList _ => LIST
  | VSet _ => SET
  | VHash _ => HASH
  | VZSet _ => ZSET
  | Monostate => NONE
  end.

#[export] Instance entry_eq_dec : EqDecision ZSetEntry.
Proof. solve_decision. Defined.
#[export] Instance zset_eq_dec : EqDecision ZSet.
Proof. solve_decision. Defined.
#[export] Instance value_eq_dec : EqDecision Value.
Proof. solve_decision. Defined.
#[export] Instance value_type_eq_dec : EqDecision ValueType.
Proof. solve_decision. Defined.
#[export] Instance value_inhabited : Inhabited Value := populate Monostate.

(** ** The order of a sorted set *)

Definition pair_ltb (a b : Z * string) : bool :=
  if (a.1 =? b.1)%Z then string_ltb a.2 b.2 else (a.1 <? b.1)%Z.

#[export] Instance pair_total : TotalLess pair_ltb.
Proof.
  unfold pair_ltb. split.
  - intros [z s]; simpl. rewrite Z.eqb_refl. apply less_irrefl.
  - intros [z1 s1] [z2 s2] [z3 s3]; simpl.
    destruct (Z.eqb_spec z1 z2), (Z.eqb_spec z2 z3), (Z.eqb_spec z1 z3);
      intros; try lia. by eapply less_trans.
  - intros [z1 s1] [z2 s2]; simpl.
    destruct (Z.eqb_spec z1 z2), (Z.eqb_spec z2 z1); intros; try lia.
    subst. f_equal. by apply less_total.
Qed.

Definition entry_key (e : ZSetEntry) : Z * string := (d_key (score e), member e).
Definition entry_klt (a b : ZSetEntry) : bool := pair_ltb (entry_key a) (entry_key b).

Lemma entry_ltb_klt a b :
  is_nan (score a) = false → is_nan (score b) = false → entry_ltb a b = entry_klt a b.
Proof.
  intros Ha Hb. unfold entry_ltb, entry_klt, pair_ltb. simpl.
  rewrite deq_spec, dlt_spec by done.
  by destruct (d_key (score a) =? d_key (score b))%Z.
Qed.

(** ** Well-formed sorted sets: the tree and the dictionary agree *)

Record zset_wf (z : ZSet) : Prop := {
  zw_sorted : osorted entry_klt (tree z);
  zw_number : ∀ e, e ∈ tree z → is_nan (score e) = false;
  zw_agree : ∀ m s, dict z !! m = Some s ↔ mkEntry s m ∈ tree z
}.

Lemma zset_empty_wf : zset_wf zset_empty.
Proof. split; simpl; [constructor|set_solver|]. intros. rewrite lookup_empty. set_solver. Qed.

Section zset.
Context (z : ZSet) (Hwf : zset_wf z).

(** The tree is sorted by [operator<] itself. *)
Lemma zset_tree_sorted : osorted entry_ltb (tree z).
Proof using Hwf.
  pose proof (zw_number z Hwf) as Hn. pose proof (zw_sorted z Hwf) as Hs. revert Hn.
  unfold osorted in *. induction Hs as [|e t Ht IH He]; intros Hn; constructor.
  - apply IH. intros x Hx. apply Hn. set_solver.
  - rewrite Forall_forall in He |- *. intros x Hx.
    rewrite entry_ltb_klt by (apply Hn; set_solver). by apply He.
Qed.

Lemma tree_insert_klt e t :
  is_nan (score e) = false → (∀ x, x ∈ t → is_nan (score x) = false) →
  oinsert entry_ltb e t = oinsert entry_klt e t.
Proof. intros. apply oinsert_ext. intros. rewrite !entry_ltb_klt by auto. done. Qed.

Lemma tree_erase_klt e :
  e ∈ tree z → oerase entry_ltb e (tree z) = oerase entry_klt e (tree z).
Proof.
  intros He. apply oerase_ext. intros y Hy.
  pose proof (zw_number z Hwf). rewrite !entry_ltb_klt by auto. done.
Qed.

(** A member occurs once in the tree. *)
Lemma tree_member_unique e1 e2 :
  e1 ∈ tree z → e2 ∈ tree z → member e1 = member e2 → e1 = e2.
Proof.
  destruct e1 as [s1 m1], e2 as [s2 m2]; simpl. intros H1 H2 ->.
  apply (zw_agree z Hwf) in H1. apply (zw_agree z Hwf) in H2. congruence.
Qed.

Lemma tree_erase_elem e x :
  e ∈ tree z →
  x ∈ (oerase entry_ltb e (tree z)).1 ↔ x ∈ tree z ∧ member x ≠ member e.
Proof.
  intros He. rewrite tree_erase_klt by done.
  destruct (oerase_spec entry_key pair_ltb e (tree z) (zw_sorted z Hwf)) as (_ & Hm & _).
  fold entry_klt in Hm. rewrite Hm. split; intros [Hx Hk]; (split; [done|]).
  - intros Heq. by rewrite (tree_member_unique x e Hx He Heq) in Hk.
  - intros [= _ Heq]. done.
Qed.

Lemma tree_erase_sorted e :
  e ∈ tree z → osorted entry_klt (oerase entry_ltb e (tree z)).1.
Proof.
  intros He. rewrite tree_erase_klt by done.
  by apply (oerase_spec entry_key pair_ltb e (tree z) (zw_sorted z Hwf)).
Qed.

(** The tree without the entries of member [m], as both operations compute it. *)
Definition tree_without (m : string) : list ZSetEntry :=
  match dict z !! m with
  | Some old => (oerase entry_ltb (mkEntry old m) (tree z)).1
  | None => tree z
  end.

Lemma tree_without_spec m :
  osorted entry_klt (tree_without m) ∧
  ∀ x, x ∈ tree_without m ↔ x ∈ tree z ∧ member x ≠ m.
Proof.
  unfold tree_without. destruct (dict z !! m) as [old|] eqn:E.
  - apply (zw_agree z Hwf) in E. split; [by apply tree_erase_sorted|].
    intros. by rewrite tree_erase_elem.
  - split; [apply Hwf|]. intros x. split; [|naive_solver]. intros Hx. split; [done|].
    intros <-. destruct x as [s m]. apply (zw_agree z Hwf) in Hx. simpl in E. congruence.
Qed.

(** [insert] keeps the two views in agreement and gives the member its score. *)
Lemma zset_insert_spec e :
  is_nan (score e) = false →
  ∃ z', zset_insert z e = Ok z' ∧ zset_wf z' ∧
    dict z' = <[member e := score e]> (dict z) ∧
    ∀ x, x ∈ tree z' ↔ x = e ∨ (x ∈ tree z ∧ member x ≠ member e).
Proof.
  intros Hn. unfold zset_insert. rewrite Hn. eexists; split; [done|].
  fold (tree_without (member e)). destruct (tree_without_spec (member e)) as [Hs Hm].
  rewrite tree_insert_klt;
    [|done|intros x [Hx _]%Hm; by apply (zw_number z Hwf)].
  destruct (oinsert_spec entry_key pair_ltb e (tree_without (member e)) Hs)
    as (Hs' & Hm' & _). fold entry_klt in Hs', Hm'.
  assert (∀ x, x ∈ (oinsert entry_klt e (tree_without (member e))).1 ↔
               x = e ∨ (x ∈ tree z ∧ member x ≠ member e)) as Helem.
  { intros x. rewrite Hm', Hm. split; [naive_solver|]. intros [->|?]; [right|by left].
    split; [done|]. intros y [_ Hy]%Hm [= _ ?]. done. }
  split_and!; [|done|done]. split; simpl; [done| |].
  - intros x [->|[Hx _]]%Helem; [done|by apply (zw_number z Hwf)].
  - intros m s. rewrite Helem. destruct (decide (m = member e)) as [->|Hne].
    + rewrite lookup_insert_eq. destruct e; simpl. naive_solver.
    + rewrite lookup_insert_ne by done. rewrite (zw_agree z Hwf).
      destruct e; simpl in *; naive_solver.
Qed.

(** [erase] removes the member from both views, and says whether it was there. *)
Lemma zset_erase_spec m :
  zset_wf (zset_erase z m).1 ∧
  dict (zset_erase z m).1 = delete m (dict z) ∧
  (zset_erase z m).2 = bool_decide (is_Some (dict z !! m)) ∧
  ∀ x, x ∈ tree (zset_erase z m).1 ↔ x ∈ tree z ∧ member x ≠ m.
Proof.
  destruct (tree_without_spec m) as [Hs Hm]. unfold zset_erase.
  unfold tree_without in Hs, Hm. destruct (dict z !! m) as [old|] eqn:E; simpl.
  - split_and!; [|done|done|done]. split; simpl; [done| |].
    + intros x [Hx _]%Hm. by apply (zw_number z Hwf).
    + intros m' s. rewrite Hm. destruct (decide (m' = m)) as [->|Hne].
      * rewrite lookup_delete_eq. naive_solver.
      * rewrite lookup_delete_ne by done. rewrite (zw_agree z Hwf). naive_solver.
  - rewrite delete_id by done. done.
Qed.

(** The dictionary and the tree have the same number of members. *)
Lemma zset_size_dict : zset_size z = size (dict z).
Proof.
  unfold zset_size. rewrite <- (length_fmap (λ e, (member e, score e)) (tree z)).
  rewrite <- length_map_to_list. apply Permutation_length, NoDup_Permutation.
  - eapply NoDup_fmap_2; [intros [] []; simpl; congruence|].
    apply (NoDup_fmap_1 entry_key). by apply (osorted_key_NoDup entry_key pair_ltb), Hwf.
  - apply NoDup_map_to_list.
  - intros [m s]. rewrite elem_of_map_to_list, (zw_agree z Hwf), list_elem_of_fmap.
    split; [intros ([s' m'] & [= -> ->] & ?); done|]. intros. by exists (mkEntry s m).
Qed.

End zset.

(** ** Well-formed values: the container invariants *)

Definition value_wf (v : Value) : Prop :=
  match v with
  | Monostate | VString _ | VList _ => True
  | VSet s => osorted string_ltb s
  | VHash h => osorted hash_ltb h
  | VZSet z => zset_wf z
  end.
