(* ===== verification/Store.v ===== *)
(** * What a key-value store promises to a shard

    [Shard] (src/storage/shard.cpp) uses its [HashMap] only through [put],
    [get], [del], [for_each] and writes through the pointers [get] returns.
    The laws below are all its theorems need; [HashMap] discharges them. *)
From S2P Require Import Prelude Double Value.
From stdpp Require Import prelude gmap strings list_numbers.

Class Store (M : Type) := {
  s_put : M → string → Value → outcome (M * bool);
  s_get : M → string → option nat;
  s_del : M → string → M * bool;
  s_items : M → list (string * Value);
  s_deref : M → nat → Value;
  s_assign : M → nat → Value → M
}.

Class StoreLaws (M : Type) `{Store M} := {
  s_wf : M → Prop;
  s_view : M → gmap string Value;
  s_full : M → Prop;

  (* reading *)
  s_get_view m k : s_wf m → s_view m !! k = s_deref m <$> s_get m k;
  s_items_view m : s_wf m → list_to_map (s_items m) = s_view m;
  s_items_NoDup m : s_wf m → NoDup (s_items m).*1;

  (* inserting or updating: fails only for a new key in a full store *)
  s_put_view m k v : s_wf m →
    match s_put m k v with
    | Ok (m', b) => s_wf m' ∧ s_view m' = <[k := v]> (s_view m) ∧
        b = bool_decide (s_view m !! k = None)
    | Throw e => e = runtime_error "HashMap is full" ∧ s_full m ∧ s_view m !! k = None
    | Undefined => False
    end;

  (* writing through a pointer *)
  s_assign_view m k p v : s_wf m → s_get m k = Some p →
    s_wf (s_assign m p v) ∧ s_view (s_assign m p v) = <[k := v]> (s_view m);
  s_assign_get m k p v k' : s_wf m → s_get m k = Some p →
    s_get (s_assign m p v) k' = s_get m k';

  (* deleting *)
  s_del_view m k : s_wf m →
    s_wf (s_del m k).1 ∧ s_view (s_del m k).1 = delete k (s_view m) ∧
    (s_del m k).2 = bool_decide (is_Some (s_view m !! k))
}.
