(* ===== verification/HashMap.v ===== *)
(** * The open-addressing hash map (src/storage/hash_map.hpp)

    Linear probing over a fixed vector of entries, with tombstones ([deleted])
    that are skipped by every probe and never reused.  [std::hash] is a
    parameter: any function of the key will do.  A [Value*] into the vector is
    the index of its entry: the vector never grows, so the pointer stays valid. *)
From S2P Require Import Prelude CxxString Double Containers Value Store.
From Stdlib Require Import ZArith Lia.
From stdpp Require Import prelude gmap strings list_numbers.

(** [std::hash<std::string_view>], whose result is implementation defined. *)
Class StdHash := std_hash : string → N.

(** [struct HashMap::Entry]. *)
Record Entry := mkE {
  e_key : string;
  e_value : Value;
  occupied : bool;
  deleted : bool
}.
Definition empty_entry : Entry := mkE EmptyString Monostate false false.
#[export] Instance entry_inhabited : Inhabited Entry := populate empty_entry.

Record HashMap := mkMap {
  entries : list Entry;
  capacity : nat;
  map_size : Z
}.

(** The constructor [HashMap(capacity)]. *)
Definition new_map (cap : nat) : HashMap := mkMap (replicate cap empty_entry) cap 0.

Section operations.
Context `{StdHash}.

Definition hash (m : HashMap) (k : string) : nat :=
  N.to_nat (std_hash k mod N.of_nat (capacity m)).

(** The probing loop that [put], [get] and [del] share. *)
Inductive probe_result :=
  | Found (idx : nat)      (* a live entry with the key *)
  | Free (idx : nat)       (* the loop stopped at an unoccupied entry *)
  | Wrapped                (* [idx == start_idx] again *)
  | OutOfFuel.

Fixpoint probe (m : HashMap) (k : string) (start_idx fuel idx : nat) : probe_result :=
  match fuel with
  | O => OutOfFuel
  | S fuel' =>
      let e := entries m !!! idx in
      if occupied e then
        if negb (deleted e) && bool_decide (e_key e = k) then Found idx
        else
          let idx' := (idx + 1) mod capacity m in
          if idx' =? start_idx then Wrapped else probe m k start_idx fuel' idx'
      else Free idx
  end.

(** The loop visits each entry at most once: the capacity is enough fuel. *)
Definition find_slot (m : HashMap) (k : string) : probe_result :=
  probe m k (hash m k) (capacity m) (hash m k).

(** [HashMap::put]: [true] when inserted, [false] when updated. *)
Definition put (m : HashMap) (k : string) (v : Value) : outcome (HashMap * bool) :=
  match find_slot m k with
  | Found i =>
      let e := entries m !!! i in
      Ok (mkMap (<[i := mkE (e_key e) v (occupied e) (deleted e)]> (entries m))
                (capacity m) (map_size m), false)
  | Free i =>
      Ok (mkMap (<[i := mkE k v true false]> (entries m))
                (capacity m) (uint64 (map_size m + 1)), true)
  | Wrapped => Throw (runtime_error "HashMap is full")
  | OutOfFuel => Undefined
  end.

(** [HashMap::get]: a pointer to the value, or [nullptr]. *)
Definition get (m : HashMap) (k : string) : option nat :=
  match find_slot m k with Found i => Some i | _ => None end.

(** [HashMap::del]. *)
Definition del (m : HashMap) (k : string) : HashMap * bool :=
  match find_slot m k with
  | Found i =>
      let e := entries m !!! i in
      (mkMap (<[i := mkE (e_key e) Monostate (occupied e) true]> (entries m))
             (capacity m) (uint64 (map_size m - 1)), true)
  | _ => (m, false)
  end.

(** [HashMap::for_each]: the calls made to the callback, in order. *)
Definition live (e : Entry) : bool := occupied e && negb (deleted e).

Definition for_each (m : HashMap) : list (string * Value) :=
  omap (λ e, if live e then Some (e_key e, e_value e) else None) (entries m).

(** Reading and writing through a [Value*]. *)
Definition deref (m : HashMap) (p : nat) : Value := e_value (entries m !!! p).
Definition assign (m : HashMap) (p : nat) (v : Value) : HashMap :=
  let e := entries m !!! p in
  mkMap (<[p := mkE (e_key e) v (occupied e) (deleted e)]> (entries m))
        (capacity m) (map_size m).

End operations.

(** ** The probe sequence *)

Section probing.
Context `{StdHash}.
Implicit Types (m : HashMap) (k : string).

Definition slot m (start j : nat) : nat := (start + j) mod capacity m.

Lemma slot_lt m start j : 0 < capacity m → slot m start j < capacity m.
Proof. intros. apply Nat.mod_upper_bound. lia. Qed.

Lemma slot_0 m start : start < capacity m → slot m start 0 = start.
Proof. intros. unfold slot. rewrite Nat.add_0_r. by apply Nat.mod_small. Qed.

Lemma slot_succ m start j :
  0 < capacity m → (slot m start j + 1) mod capacity m = slot m start (S j).
Proof.
  intros. unfold slot. rewrite Nat.Div0.add_mod_idemp_l. f_equal. lia.
Qed.

(** The loop is back at its start exactly after [capacity] steps. *)
Lemma slot_wrap m start j :
  start < capacity m → j < capacity m →
  slot m start (S j) = start ↔ S j = capacity m.
Proof.
  intros Hs Hj. unfold slot. split.
  - intros E. destruct (decide (start + S j < capacity m)).
    + rewrite Nat.mod_small in E; lia.
    + replace (start + S j) with (start + S j - capacity m + 1 * capacity m) in E by lia.
      rewrite Nat.Div0.mod_add in E. rewrite Nat.mod_small in E; lia.
  - intros ->. replace (start + capacity m) with (start + 1 * capacity m) by lia.
    rewrite Nat.Div0.mod_add. by apply Nat.mod_small.
Qed.

Lemma hash_lt m k : 0 < capacity m → hash m k < capacity m.
Proof.
  intros. unfold hash. pose proof (N.mod_upper_bound (std_hash k) (N.of_nat (capacity m))). lia.
Qed.

(** An entry every probe for [k] steps over. *)
Definition skipped (k : string) (e : Entry) : Prop :=
  occupied e = true ∧ (deleted e = true ∨ e_key e ≠ k).

(** What the loop found, in terms of the probe sequence. *)
Definition probe_post m k start (r : probe_result) : Prop :=
  match r with
  | Found i => ∃ j, j < capacity m ∧ i = slot m start j ∧
      live (entries m !!! i) = true ∧ e_key (entries m !!! i) = k ∧
      ∀ j', j' < j → skipped k (entries m !!! slot m start j')
  | Free i => ∃ j, j < capacity m ∧ i = slot m start j ∧
      occupied (entries m !!! i) = false ∧
      ∀ j', j' < j → skipped k (entries m !!! slot m start j')
  | Wrapped => ∀ j, j < capacity m → skipped k (entries m !!! slot m start j)
  | OutOfFuel => False
  end.

Lemma probe_spec m k start fuel j :
  start < capacity m → j < capacity m → fuel = capacity m - j →
  (∀ j', j' < j → skipped k (entries m !!! slot m start j')) →
  probe_post m k start (probe m k start fuel (slot m start j)).
Proof.
  intros Hs. revert j. induction fuel as [|fuel IH]; intros j Hj Hf Hskip; [lia|].
  cbn [probe]. set (e := entries m !!! slot m start j) in *.
  destruct (occupied e) eqn:Ho; [|by exists j].
  destruct (negb (deleted e) && bool_decide (e_key e = k)) eqn:Hm.
  { apply andb_true_iff in Hm as [Hd Hk%bool_decide_eq_true_1].
    exists j. unfold live. fold e. by rewrite Ho, Hd. }
  assert (∀ j', j' < S j → skipped k (entries m !!! slot m start j')) as Hskip'.
  { intros j' Hj'. destruct (decide (j' = j)) as [->|]; [|apply Hskip; lia].
    fold e. split; [done|].
    destruct (deleted e); simpl in Hm; [by left|right].
    by apply bool_decide_eq_false_1 in Hm. }
  rewrite slot_succ by lia. destruct (Nat.eqb_spec (slot m start (S j)) start) as [E|E].
  - apply slot_wrap in E; [|done..]. intros j' ?. apply Hskip'. lia.
  - assert (S j ≠ capacity m) by (intros ?; by apply E, slot_wrap).
    apply IH; [lia..|done].
Qed.

Lemma find_slot_spec m k :
  0 < capacity m → probe_post m k (hash m k) (find_slot m k).
Proof.
  intros. pose proof (hash_lt m k ltac:(lia)). unfold find_slot.
  pose proof (probe_spec m k (hash m k) (capacity m) 0) as Hp. rewrite slot_0 in Hp by done.
  apply Hp; [done|lia..].
Qed.

End probing.

(** ** The representation invariant *)

(** Entry [i] is live and holds [v] for [k]. *)
Definition live_at (m : HashMap) (i : nat) (k : string) (v : Value) : Prop :=
  ∃ e, entries m !! i = Some e ∧ live e = true ∧ e_key e = k ∧ e_value e = v.

Section invariant.
Context `{StdHash}.

Record hm_wf (m : HashMap) : Prop := {
  hw_cap : 0 < capacity m;
  hw_length : length (entries m) = capacity m;
  (* every slot between the home of a live key and its entry is occupied *)
  hw_reach i k v : live_at m i k v →
    ∃ j, j < capacity m ∧ i = slot m (hash m k) j ∧
      ∀ j', j' < j → occupied (entries m !!! slot m (hash m k) j') = true;
  (* a key is live at one slot only *)
  hw_unique i1 i2 k v1 v2 : live_at m i1 k v1 → live_at m i2 k v2 → i1 = i2;
  hw_size : map_size m = uint64 (Z.of_nat (length (for_each m)))
}.

(** The finite map the structure represents. *)
Definition view (m : HashMap) : gmap string Value := list_to_map (for_each m).

Implicit Types (m : HashMap) (k : string) (v : Value).

Lemma lookup_total_entry m i e : entries m !! i = Some e → entries m !!! i = e.
Proof. apply list_lookup_total_correct. Qed.

Lemma lookup_entry m i : i < length (entries m) → entries m !! i = Some (entries m !!! i).
Proof. apply list_lookup_lookup_total_lt. Qed.

Lemma live_at_total m i k :
  i < length (entries m) → live (entries m !!! i) = true → e_key (entries m !!! i) = k →
  live_at m i k (deref m i).
Proof. intros Hi Hl Hk. exists (entries m !!! i). by rewrite lookup_entry. Qed.

Lemma live_at_inv m i k v :
  live_at m i k v →
  i < length (entries m) ∧ live (entries m !!! i) = true ∧
  e_key (entries m !!! i) = k ∧ deref m i = v.
Proof.
  intros (e & He & Hl & Hk & Hv). pose proof (lookup_total_entry _ _ _ He) as Et.
  unfold deref. rewrite Et. split_and!; [by eapply lookup_lt_Some|done..].
Qed.

(** *** [for_each] enumerates the live entries, each key once *)

Lemma for_each_elem m k v : (k, v) ∈ for_each m ↔ ∃ i, live_at m i k v.
Proof.
  unfold for_each. rewrite list_elem_of_omap. split.
  - intros (e & [i Hi]%list_elem_of_lookup & He). exists i, e.
    destruct (live e) eqn:Hl; naive_solver.
  - intros (i & e & He & Hl & Hk & Hv). exists e.
    split; [by eapply list_elem_of_lookup_2|]. rewrite Hl. congruence.
Qed.

Lemma omap_keys_NoDup (l : list Entry) :
  (∀ i1 i2 e1 e2, l !! i1 = Some e1 → l !! i2 = Some e2 →
     live e1 = true → live e2 = true → e_key e1 = e_key e2 → i1 = i2) →
  NoDup (omap (λ e, if live e then Some (e_key e, e_value e) else None) l).*1.
Proof.
  induction l as [|e l IH]; intros Hu; simpl; [constructor|].
  assert (NoDup (omap (λ e, if live e then Some (e_key e, e_value e) else None) l).*1).
  { apply IH. intros i1 i2 e1 e2 ?????. by injection (Hu (S i1) (S i2) e1 e2). }
  destruct (live e) eqn:Hl; [|done]. simpl. constructor; [|done].
  intros ([k v] & Hk & (e' & [i Hi]%list_elem_of_lookup & He)%list_elem_of_omap)%list_elem_of_fmap.
  destruct (live e') eqn:Hl'; [|done]. injection He as <- <-. simpl in Hk.
  by pose proof (Hu 0 (S i) e e' eq_refl Hi Hl Hl' Hk).
Qed.

Lemma for_each_NoDup m : hm_wf m → NoDup (for_each m).*1.
Proof.
  intros Hwf. apply omap_keys_NoDup. intros i1 i2 e1 e2 H1 H2 L1 L2 Hk.
  eapply (hw_unique m Hwf i1 i2 (e_key e1)); [by exists e1|exists e2; split_and!; done].
Qed.

Lemma view_lookup m k v : hm_wf m → view m !! k = Some v ↔ ∃ i, live_at m i k v.
Proof.
  intros Hwf. unfold view. rewrite <- elem_of_list_to_map by by apply for_each_NoDup.
  apply for_each_elem.
Qed.

Lemma view_None m k : hm_wf m → view m !! k = None ↔ ∀ i v, ¬ live_at m i k v.
Proof.
  intros Hwf. rewrite eq_None_not_Some. split.
  - intros Hn i v Hl. apply Hn. exists v. apply view_lookup; eauto.
  - intros Hn [v [i Hl]%view_lookup]; [by eapply Hn|done].
Qed.

(** *** A live key is found where it is; an absent one is not found *)

Lemma find_slot_live m i k v : hm_wf m → live_at m i k v → find_slot m k = Found i.
Proof.
  intros Hwf Hl. destruct (hw_reach m Hwf _ _ _ Hl) as (j & Hj & -> & Hocc).
  destruct (live_at_inv _ _ _ _ Hl) as (Hlt & Hlive & Hkey & _).
  unfold live in Hlive. apply andb_true_iff in Hlive as [Ho Hd%negb_true_iff].
  pose proof (find_slot_spec m k (hw_cap m Hwf)) as Hp.
  destruct (find_slot m k) as [i|i| |]; simpl in Hp.
  - destruct Hp as (j0 & Hj0 & -> & Hl0 & Hk0 & _). f_equal.
    eapply (hw_unique m Hwf _ _ k); [|exact Hl]. eapply live_at_total; try done.
    rewrite (hw_length m Hwf). apply slot_lt, Hwf.
  - destruct Hp as (j0 & Hj0 & -> & Ho0 & Hskip). exfalso.
    destruct (decide (j0 < j)); [rewrite Hocc in Ho0; done|].
    destruct (decide (j = j0)) as [->|]; [congruence|].
    destruct (Hskip j ltac:(lia)) as [_ [?|?]]; congruence.
  - destruct (Hp j Hj) as [_ [?|?]]; congruence.
  - done.
Qed.

Lemma find_slot_found m i k :
  hm_wf m → find_slot m k = Found i → live_at m i k (deref m i).
Proof.
  intros Hwf E. pose proof (find_slot_spec m k (hw_cap m Hwf)) as Hp.
  rewrite E in Hp. destruct Hp as (j & Hj & -> & Hl & Hk & _).
  apply live_at_total; [|done..]. rewrite (hw_length m Hwf). apply slot_lt, Hwf.
Qed.

Lemma get_live m p k : hm_wf m → get m k = Some p ↔ live_at m p k (deref m p).
Proof.
  intros Hwf. unfold get. split.
  - destruct (find_slot m k) as [i|i| |] eqn:E; try done. intros [= <-].
    by apply find_slot_found.
  - intros Hl. by rewrite (find_slot_live m p k _ Hwf Hl).
Qed.

(** [get] reads the represented map. *)
Lemma get_view m k : hm_wf m → view m !! k = deref m <$> get m k.
Proof.
  intros Hwf. destruct (get m k) as [p|] eqn:E; simpl.
  - apply view_lookup; [done|]. exists p. by apply get_live.
  - apply view_None; [done|]. intros i v Hl.
    destruct (live_at_inv _ _ _ _ Hl) as (_ & _ & _ & <-).
    apply get_live in Hl; [|done]. congruence.
Qed.

(** *** Overwriting one entry *)

Definition set_entry (m : HashMap) (i : nat) (e : Entry) (sz : Z) : HashMap :=
  mkMap (<[i := e]> (entries m)) (capacity m) sz.

Lemma live_at_set m i e sz j k v :
  i < length (entries m) →
  live_at (set_entry m i e sz) j k v ↔
  (j = i ∧ live e = true ∧ e_key e = k ∧ e_value e = v) ∨ (j ≠ i ∧ live_at m j k v).
Proof.
  intros Hi. unfold live_at, set_entry; simpl. destruct (decide (j = i)) as [->|Hne].
  - rewrite list_lookup_insert_eq by done. naive_solver.
  - rewrite list_lookup_insert_ne by done. naive_solver.
Qed.

Lemma occupied_set m i e sz j :
  occupied e = true → occupied (entries m !!! j) = true →
  occupied (entries (set_entry m i e sz) !!! j) = true.
Proof.
  intros He Hj. unfold set_entry; simpl. destruct (decide (j = i)) as [->|Hne].
  - destruct (decide (i < length (entries m))).
    + by rewrite list_lookup_total_insert_eq.
    + by rewrite list_insert_ge by lia.
  - by rewrite list_lookup_total_insert_ne.
Qed.

Lemma for_each_set_length m i e sz :
  i < length (entries m) →
  (length (for_each (set_entry m i e sz)) + (if live (entries m !!! i) then 1 else 0)
   = length (for_each m) + (if live e then 1 else 0))%nat.
Proof.
  intros Hi. unfold for_each, set_entry; simpl.
  pose proof (lookup_entry m i Hi) as Hl.
  rewrite insert_take_drop by done.
  rewrite <- (take_drop_middle (entries m) i (entries m !!! i) Hl) at 4.
  rewrite !omap_app, !length_app. simpl.
  destruct (live (entries m !!! i)), (live e); simpl; lia.
Qed.

(** The conditions under which the invariant survives. *)
Lemma set_entry_wf m i e sz :
  hm_wf m → i < capacity m → occupied e = true →
  (live e = true → ∃ j, j < capacity m ∧ i = slot m (hash m (e_key e)) j ∧
     ∀ j', j' < j → occupied (entries m !!! slot m (hash m (e_key e)) j') = true) →
  (live e = true → ∀ j v, live_at m j (e_key e) v → j = i) →
  sz = uint64 (Z.of_nat (length (for_each (set_entry m i e sz)))) →
  hm_wf (set_entry m i e sz).
Proof.
  intros Hwf Hi Ho Hreach Huniq Hsz.
  assert (i < length (entries m)) as Hi' by by rewrite (hw_length m Hwf).
  split; simpl; [apply Hwf|rewrite length_insert; apply Hwf| | |done].
  - intros i0 k v Hl. apply live_at_set in Hl as [(-> & Hle & <- & _)|[_ Hl]]; [| |done].
    + destruct (Hreach Hle) as (j & ? & ? & Hocc). exists j. split_and!; [done..|].
      intros. by apply (occupied_set m i e sz); [|apply Hocc].
    + destruct (hw_reach m Hwf _ _ _ Hl) as (j & ? & ? & Hocc). exists j.
      split_and!; [done..|]. intros. by apply (occupied_set m i e sz); [|apply Hocc].
  - intros i1 i2 k v1 v2 H1 H2.
    apply live_at_set in H1 as [(-> & L1 & K1 & _)|[N1 H1]]; [| |done];
    apply live_at_set in H2 as [(-> & L2 & K2 & _)|[N2 H2]]; try done.
    + subst k. by rewrite (Huniq L1 _ _ H2).
    + subst k. by rewrite (Huniq L2 _ _ H1).
    + by eapply (hw_unique m Hwf).
Qed.

Lemma uint64_add a b : uint64 (uint64 a + b) = uint64 (a + b).
Proof. unfold uint64, wrap_u. apply Zplus_mod_idemp_l. Qed.

(** *** [put] *)

(** All slots occupied: no insertion of a new key can succeed. *)
Definition full (m : HashMap) : Prop :=
  ∀ i, i < capacity m → occupied (entries m !!! i) = true.

(** Every slot is on the probe sequence of every key. *)
Lemma slot_surj m start i :
  start < capacity m → i < capacity m → ∃ j, j < capacity m ∧ i = slot m start j.
Proof.
  intros Hs Hi. unfold slot. destruct (decide (start ≤ i)).
  - exists (i - start). split; [lia|]. rewrite Nat.mod_small; lia.
  - exists (i + capacity m - start). split; [lia|].
    replace (start + (i + capacity m - start)) with (i + 1 * capacity m) by lia.
    rewrite Nat.Div0.mod_add, Nat.mod_small; lia.
Qed.

Lemma assign_set m p v :
  assign m p v = set_entry m p
    (mkE (e_key (entries m !!! p)) v (occupied (entries m !!! p)) (deleted (entries m !!! p)))
    (map_size m).
Proof. done. Qed.

(** Writing through a pointer [get] returned updates the map at that key. *)
Lemma map_assign_spec m p k v :
  hm_wf m → get m k = Some p →
  hm_wf (assign m p v) ∧ view (assign m p v) = <[k := v]> (view m) ∧
  ∀ k', get (assign m p v) k' = get m k'.
Proof.
  intros Hwf Hg. apply get_live in Hg as Hl; [|done].
  destruct (live_at_inv _ _ _ _ Hl) as (Hi & Hlive & Hk & _).
  rewrite assign_set. set (e := mkE _ _ _ _).
  assert (live e = true) as Hle by done.
  assert (hm_wf (set_entry m p e (map_size m))) as Hwf'.
  { apply set_entry_wf; [done|by rewrite <- (hw_length m Hwf)| | | |].
    - unfold live in Hlive. simpl. by destruct (occupied (entries m !!! p)).
    - intros _. simpl. rewrite Hk. by apply (hw_reach m Hwf _ _ _ Hl).
    - intros _ j v' Hj. simpl in Hj. rewrite Hk in Hj. by eapply (hw_unique m Hwf).
    - rewrite (hw_size m Hwf) at 1. do 2 f_equal.
      pose proof (for_each_set_length m p e (map_size m) Hi) as Hlen.
      rewrite Hle, Hlive in Hlen. lia. }
  assert (∀ j k' v', live_at (set_entry m p e (map_size m)) j k' v' ↔
    (j = p ∧ k' = k ∧ v' = v) ∨ (k' ≠ k ∧ live_at m j k' v')) as Hla.
  { intros j k' v'. rewrite live_at_set by done. simpl. rewrite Hk. split.
    - intros [(-> & _ & <- & <-)|[Hne Hj]]; [by left|right]. split; [|done].
      intros ->. by destruct (Hne (hw_unique m Hwf _ _ _ _ _ Hj Hl)).
    - intros [(-> & -> & ->)|[Hne Hj]]; [by left|right]. split; [|done].
      intros ->. destruct (live_at_inv _ _ _ _ Hj) as (_ & _ & E & _). congruence. }
  split_and!; [done| |].
  - apply map_eq. intros k'. apply option_eq. intros v'. rewrite view_lookup by done.
    setoid_rewrite Hla. destruct (decide (k' = k)) as [->|Hne].
    + rewrite lookup_insert_eq. naive_solver.
    + rewrite lookup_insert_ne, view_lookup by done. naive_solver.
  - intros k'. apply option_eq. intros p'. rewrite !get_live by done. rewrite Hla.
    unfold deref. simpl. destruct (decide (p' = p)) as [->|Hne].
    + rewrite list_lookup_total_insert_eq by done. simpl. split.
      * intros [(_ & -> & _)|[? Hj]]; [done|].
        destruct (live_at_inv _ _ _ _ Hj) as (_ & _ & E & _). congruence.
      * intros Hj. left. destruct (live_at_inv _ _ _ _ Hj) as (_ & _ & E & _).
        split_and!; congruence.
    + rewrite list_lookup_total_insert_ne by done. split; [naive_solver|].
      intros Hj. right. split; [|done]. intros ->.
      by destruct (Hne (hw_unique m Hwf _ _ _ _ _ Hj Hl)).
Qed.

(** A slot the probe for [k] stopped at can hold the new key. *)
Lemma put_free_wf m i k v :
  hm_wf m → find_slot m k = Free i →
  let m' := set_entry m i (mkE k v true false) (uint64 (map_size m + 1)) in
  i < capacity m ∧ live (entries m !!! i) = false ∧ (∀ j v', ¬ live_at m j k v') ∧ hm_wf m'.
Proof.
  intros Hwf E m'. pose proof (find_slot_spec m k (hw_cap m Hwf)) as Hp.
  rewrite E in Hp. destruct Hp as (j & Hj & -> & Ho & Hskip).
  assert (slot m (hash m k) j < capacity m) as Hi by apply slot_lt, Hwf.
  assert (live (entries m !!! slot m (hash m k) j) = false) as Hnl
    by (unfold live; by rewrite Ho).
  assert (∀ j' v', ¬ live_at m j' k v') as Habs.
  { intros j' v' Hl. rewrite (find_slot_live m j' k v' Hwf Hl) in E. done. }
  split_and!; [done..|]. apply set_entry_wf; [done|done|done| | |].
  - intros _. exists j. split_and!; [done..|]. simpl. intros j' Hj'. by apply Hskip.
  - intros _ j' v' Hl. by destruct (Habs j' v').
  - pose proof (for_each_set_length m (slot m (hash m k) j) (mkE k v true false)
      (uint64 (map_size m + 1))) as Hlen.
    rewrite Hnl in Hlen. simpl in Hlen.
    rewrite (hw_size m Hwf), uint64_add at 1. f_equal.
    rewrite (hw_length m Hwf) in Hlen. specialize (Hlen Hi). lia.
Qed.

Lemma put_free_view m i k v :
  hm_wf m → find_slot m k = Free i →
  view (set_entry m i (mkE k v true false) (uint64 (map_size m + 1))) = <[k := v]> (view m).
Proof.
  intros Hwf E. destruct (put_free_wf m i k v Hwf E) as (Hi & Hnl & Habs & Hwf').
  assert (i < length (entries m)) by by rewrite (hw_length m Hwf).
  apply map_eq. intros k'. apply option_eq. intros v'. rewrite view_lookup by done.
  setoid_rewrite live_at_set; [|done]. simpl. destruct (decide (k' = k)) as [->|Hne].
  - rewrite lookup_insert_eq. naive_solver.
  - rewrite lookup_insert_ne, view_lookup by done. split; [naive_solver|].
    intros [j Hj]. exists j. right. split; [|done]. intros ->.
    destruct (live_at_inv _ _ _ _ Hj) as (_ & ? & _). congruence.
Qed.

Lemma put_found m i k v :
  find_slot m k = Found i → put m k v = Ok (assign m i v, false).
Proof. intros E. unfold put, assign. by rewrite E. Qed.

Lemma put_spec m k v :
  hm_wf m →
  match put m k v with
  | Ok (m', b) => hm_wf m' ∧ view m' = <[k := v]> (view m) ∧
      b = bool_decide (view m !! k = None)
  | Throw e => e = runtime_error "HashMap is full" ∧ full m ∧ view m !! k = None
  | Undefined => False
  end.
Proof.
  intros Hwf. destruct (find_slot m k) as [i|i| |] eqn:E.
  - rewrite (put_found m i k v E).
    assert (get m k = Some i) as Hg by (unfold get; by rewrite E).
    destruct (map_assign_spec m i k v Hwf Hg) as (? & ? & _). split_and!; [done..|].
    rewrite (get_view m k Hwf), Hg. done.
  - unfold put. rewrite E. destruct (put_free_wf m i k v Hwf E) as (_ & _ & Habs & Hwf').
    split_and!; [done|by apply put_free_view|].
    rewrite bool_decide_eq_true_2; [done|]. by apply view_None.
  - unfold put. rewrite E. pose proof (find_slot_spec m k (hw_cap m Hwf)) as Hp.
    rewrite E in Hp. simpl in Hp. split_and!; [done| |].
    + intros i Hi. destruct (slot_surj m (hash m k) i) as (j & Hj & ->);
        [apply hash_lt, Hwf|done|]. by apply Hp.
    + apply view_None; [done|]. intros i v' Hl.
      by rewrite (find_slot_live m i k v' Hwf Hl) in E.
  - pose proof (find_slot_spec m k (hw_cap m Hwf)) as Hp. by rewrite E in Hp.
Qed.

(** A new key cannot be stored once every slot has been occupied, however many
    of the entries are tombstones. *)
Lemma put_full_throws m k v :
  0 < capacity m → full m → (∀ i, i < capacity m → e_key (entries m !!! i) = k →
    deleted (entries m !!! i) = true) →
  put m k v = Throw (runtime_error "HashMap is full").
Proof.
  intros Hc Hf Hd. unfold put. pose proof (find_slot_spec m k Hc) as Hp.
  pose proof (λ j, slot_lt m (hash m k) j Hc) as Hlt.
  destruct (find_slot m k) as [i|i| |]; simpl in Hp; [| |done|done].
  - destruct Hp as (j & Hj & -> & Hl & Hk & _). unfold live in Hl.
    rewrite (Hd _ (Hlt j) Hk) in Hl. by rewrite andb_false_r in Hl.
  - destruct Hp as (j & Hj & -> & Ho & _). by rewrite (Hf _ (Hlt j)) in Ho.
Qed.

(** *** [del] *)

Lemma map_del_spec m k :
  hm_wf m →
  hm_wf (del m k).1 ∧ view (del m k).1 = delete k (view m) ∧
  (del m k).2 = bool_decide (is_Some (view m !! k)).
Proof.
  intros Hwf. pose proof (get_view m k Hwf) as Hv. unfold del, get in *.
  destruct (find_slot m k) as [i|i| |] eqn:E; simpl in Hv;
    [|rewrite Hv, delete_id by done; by split_and!..].
  pose proof (find_slot_found m i k Hwf E) as Hl.
  destruct (live_at_inv _ _ _ _ Hl) as (Hi & Hlive & Hk & _). cbn [fst snd].
  fold (set_entry m i (mkE (e_key (entries m !!! i)) Monostate (occupied (entries m !!! i)) true)
          (uint64 (map_size m - 1))).
  set (e := mkE _ _ _ _). assert (live e = false) as Hle by apply andb_false_r.
  assert (hm_wf (set_entry m i e (uint64 (map_size m - 1)))) as Hwf'.
  { apply set_entry_wf; [done|by rewrite <- (hw_length m Hwf)| |congruence|congruence|].
    - unfold live in Hlive. simpl. by destruct (occupied (entries m !!! i)).
    - pose proof (for_each_set_length m i e (uint64 (map_size m - 1)) Hi) as Hlen.
      rewrite Hle, Hlive in Hlen.
      assert (uint64 (map_size m - 1) = uint64 (Z.of_nat (length (for_each m)) + -1)) as Hs
        by (rewrite (hw_size m Hwf); apply uint64_add).
      rewrite Hs at 1. f_equal. lia. }
  split_and!; [done| |rewrite Hv; done].
  apply map_eq. intros k'. apply option_eq. intros v'. rewrite view_lookup by done.
  setoid_rewrite live_at_set; [|done]. destruct (decide (k' = k)) as [->|Hne].
  - rewrite lookup_delete_eq. split; [|done]. intros (j & [(_ & ? & _)|[Hj Hj']]); [congruence|].
    by destruct (Hj (hw_unique m Hwf _ _ _ _ _ Hj' Hl)).
  - rewrite lookup_delete_ne, view_lookup by done. split; [naive_solver congruence|].
    intros [j Hj]. exists j. right. split; [|done]. intros ->.
    destruct (live_at_inv _ _ _ _ Hj) as (_ & _ & ? & _). congruence.
Qed.

(** *** The empty map *)

Lemma new_map_not_live cap i k v : ¬ live_at (new_map cap) i k v.
Proof. intros (e & [-> _]%lookup_replicate & He & _). done. Qed.

Lemma new_map_items cap : for_each (new_map cap) = [].
Proof. unfold for_each, new_map; simpl. by induction cap. Qed.

Lemma new_map_wf cap : 0 < cap → hm_wf (new_map cap).
Proof.
  intros. split; simpl; [done|by rewrite length_replicate| | |by rewrite new_map_items].
  - intros ??? []%new_map_not_live.
  - intros ????? []%new_map_not_live.
Qed.

Lemma new_map_view cap : view (new_map cap) = ∅.
Proof. unfold view. by rewrite new_map_items. Qed.

(** *** Maps from which nothing was deleted *)

Definition pristine (m : HashMap) : Prop := Forall (λ e, deleted e = false) (entries m).

Lemma new_map_pristine cap : pristine (new_map cap).
Proof. unfold pristine, new_map; simpl. by apply Forall_replicate. Qed.

Lemma put_pristine m k v m' b :
  pristine m → put m k v = Ok (m', b) → pristine m' ∧ capacity m' = capacity m.
Proof.
  intros Hp. unfold put. destruct (find_slot m k) as [i|i| |]; [| |done..].
  - intros [= <- <-]. split; [|done]. unfold pristine. simpl.
    destruct (decide (i < length (entries m))) as [Hi|Hi].
    + apply Forall_insert; [done|]. simpl.
      apply (proj1 (Forall_lookup _ _) Hp i). by apply lookup_entry.
    + by rewrite list_insert_ge by lia.
  - intros [= <- <-]. split; [|done]. by apply Forall_insert.
Qed.

(** Such a map is full only when it holds as many keys as it has slots. *)
Lemma pristine_full m : hm_wf m → pristine m → full m → size (view m) = capacity m.
Proof.
  intros Hwf Hp Hf. unfold view. rewrite map_size_list_to_map by by apply for_each_NoDup.
  rewrite <- (hw_length m Hwf). unfold for_each.
  assert (Forall (λ e, live e = true) (entries m)) as Hl.
  { apply Forall_lookup. intros i e Hi. unfold live.
    rewrite (proj1 (Forall_lookup _ _) Hp i e Hi), andb_true_r.
    rewrite <- (lookup_total_entry m i e Hi). apply Hf.
    rewrite <- (hw_length m Hwf). by eapply lookup_lt_Some. }
  clear -Hl. induction Hl as [|e l He _ IH]; simpl; [done|]. rewrite He. simpl. by f_equal.
Qed.

(** ** [HashMap] is a store *)

#[global] Instance hash_map_store : Store HashMap := {|
  s_put := put; s_get := get; s_del := del;
  s_items := for_each; s_deref := deref; s_assign := assign
|}.

#[global] Instance hash_map_laws : StoreLaws HashMap.
Proof.
  refine {| s_wf := hm_wf; s_view := view; s_full := full |}.
  - intros. by apply get_view.
  - done.
  - intros. by apply for_each_NoDup.
  - intros. by apply put_spec.
  - intros m k p v Hwf Hg. destruct (map_assign_spec m p k v Hwf Hg) as (? & ? & _). by split.
  - intros m k p v k' Hwf Hg. destruct (map_assign_spec m p k v Hwf Hg) as (_ & _ & Hk). apply Hk.
  - intros. by apply map_del_spec.
Defined.

End invariant.
