(* ===== verification/Shard.v ===== *)
(** * Shards (src/storage/shard.hpp, shard.cpp) and the storage engine
      (src/storage/engine.hpp)

    A shard is a store and a table of absolute expiry times; expiry is lazy: a
    key past its time is removed by the [get] that meets it.  A shard is
    specified as one finite map from keys to a value and an optional expiry.
    Every reading of [system_clock::now()] is an argument. *)
From S2P Require Import Prelude Double Value Store.
From Stdlib Require Import ZArith Lia.
From stdpp Require Import prelude gmap strings list_numbers.

Record Shard (M : Type) := mkShard {
  data_store : M;
  expires : gmap string Z
}.
Arguments mkShard {M} _ _.
Arguments data_store {M} _.
Arguments expires {M} _.

Section operations.
Context {M : Type} `{Store M}.
Implicit Types (sh : Shard M) (k : string) (v : Value).

(** [Shard::set]: the expiry is cleared only if [put] returned. *)
Definition set sh k v : outcome (Shard M) :=
  match s_put (data_store sh) k v with
  | Ok (m, _) => Ok (mkShard m (delete k (expires sh)))
  | Throw e => Throw e
  | Undefined => Undefined
  end.

(** [Shard::get] (non-const): lazy expiry, then a pointer or [nullptr]. *)
Definition get (now : Z) sh k : Shard M * option nat :=
  match expires sh !! k with
  | Some t =>
      if (t <? now)%Z then
        (mkShard (s_del (data_store sh) k).1 (delete k (expires sh)), None)
      else (sh, s_get (data_store sh) k)
  | None => (sh, s_get (data_store sh) k)
  end.

(** [Shard::get] (const): an expired key is hidden, not removed. *)
Definition get_const (now : Z) sh k : option nat :=
  match expires sh !! k with
  | Some t => if (t <? now)%Z then None else s_get (data_store sh) k
  | None => s_get (data_store sh) k
  end.

(** [Shard::del]. *)
Definition del sh k : Shard M * bool :=
  let '(m, b) := s_del (data_store sh) k in (mkShard m (delete k (expires sh)), b).

(** [Shard::set_expiry], [Shard::get_expiry]. *)
Definition set_expiry sh k (ms : Z) : Shard M :=
  mkShard (data_store sh) (<[k := ms]> (expires sh)).

Definition get_expiry sh k : Z :=
  match expires sh !! k with Some t => t | None => -1 end.

(** [Shard::for_each]. *)
Definition for_each sh : list (string * Value) := s_items (data_store sh).

(** Access through the [Value*] that [get] returned. *)
Definition deref sh (p : nat) : Value := s_deref (data_store sh) p.
Definition assign sh (p : nat) v : Shard M :=
  mkShard (s_assign (data_store sh) p v) (expires sh).

End operations.

(** ** The abstract database *)

Abbreviation db := (gmap string (Value * option Z)).

(** Past its expiry at time [now] ([now > expiry], strictly). *)
Definition is_expired (now : Z) (e : Value * option Z) : bool :=
  match e.2 with Some t => (t <? now)%Z | None => false end.

(** Lazy expiry of one key. *)
Definition purge (now : Z) (k : string) (d : db) : db :=
  match d !! k with
  | Some e => if is_expired now e then delete k d else d
  | None => d
  end.

(** The value a reader sees at time [now]. *)
Definition visible (now : Z) (k : string) (d : db) : option Value :=
  match d !! k with
  | Some e => if is_expired now e then None else Some e.1
  | None => None
  end.

Lemma visible_purge now k d : fst <$> purge now k d !! k = visible now k d.
Proof.
  unfold purge, visible. destruct (d !! k) as [e|] eqn:E; [|by rewrite E].
  destruct (is_expired now e); [by rewrite lookup_delete_eq|by rewrite E].
Qed.

Lemma purge_other now k k' d : k ≠ k' → purge now k d !! k' = d !! k'.
Proof.
  intros. unfold purge. repeat case_match; try done. by rewrite lookup_delete_ne.
Qed.

Lemma purge_live now k d v : visible now k d = Some v → purge now k d = d.
Proof. unfold purge, visible. by repeat case_match. Qed.

(** ** Shards refine the abstract database *)

Section spec.
Context {M : Type} `{StoreLaws M}.
Implicit Types (sh : Shard M) (k : string) (v : Value).

Definition shard_db sh : db :=
  map_imap (λ k v, Some (v, expires sh !! k)) (s_view (data_store sh)).

Record shard_wf sh : Prop := {
  sw_store : s_wf (data_store sh);
  sw_values k v : s_view (data_store sh) !! k = Some v → value_wf v;
  (* no expiry without a key *)
  sw_expires k : is_Some (expires sh !! k) → is_Some (s_view (data_store sh) !! k)
}.

Lemma shard_db_lookup sh k :
  shard_db sh !! k = (λ v, (v, expires sh !! k)) <$> s_view (data_store sh) !! k.
Proof. unfold shard_db. rewrite map_lookup_imap. by destruct (s_view _ !! k). Qed.

(** Two shards with the same map and expiries are the same database. *)
Lemma shard_db_ext sh (d : db) :
  (∀ k, (λ v, (v, expires sh !! k)) <$> s_view (data_store sh) !! k = d !! k) →
  shard_db sh = d.
Proof. intros E. apply map_eq. intros k. by rewrite shard_db_lookup, E. Qed.

Lemma sget_db sh k :
  shard_wf sh → deref sh <$> s_get (data_store sh) k = fst <$> shard_db sh !! k.
Proof.
  intros Hwf. rewrite shard_db_lookup, <- option_fmap_compose.
  rewrite (s_get_view _ _ (sw_store _ Hwf)). by destruct (s_get _ k).
Qed.

Lemma del_spec sh k :
  shard_wf sh →
  shard_wf (del sh k).1 ∧ shard_db (del sh k).1 = delete k (shard_db sh) ∧
  (del sh k).2 = bool_decide (is_Some (shard_db sh !! k)).
Proof.
  intros Hwf. unfold del. destruct (s_del_view _ k (sw_store _ Hwf)) as (Hw & Hv & Hb).
  destruct (s_del (data_store sh) k) as [m b]. simpl in *. split_and!.
  - split; simpl; [done| |].
    + intros k' v. rewrite Hv, lookup_delete_Some. intros [_ ?]. by eapply sw_values.
    + intros k'. rewrite Hv. destruct (decide (k = k')) as [->|Hne].
      * rewrite lookup_delete_eq. by intros [].
      * rewrite !lookup_delete_ne by done. by apply sw_expires.
  - apply shard_db_ext. intros k'. simpl. rewrite Hv.
    destruct (decide (k = k')) as [->|Hne]; [by rewrite !lookup_delete_eq|].
    by rewrite !lookup_delete_ne, shard_db_lookup by done.
  - rewrite Hb. apply bool_decide_ext. rewrite shard_db_lookup. by rewrite fmap_is_Some.
Qed.

(** [get] purges the key and returns a pointer to exactly the visible value. *)
Lemma get_spec now sh k :
  shard_wf sh →
  let r := get now sh k in
  shard_wf r.1 ∧ shard_db r.1 = purge now k (shard_db sh) ∧
  r.2 = s_get (data_store r.1) k ∧ deref r.1 <$> r.2 = visible now k (shard_db sh).
Proof.
  intros Hwf. simpl. rewrite <- visible_purge.
  assert (∀ sh', shard_wf sh' → shard_db sh' = purge now k (shard_db sh) →
    deref sh' <$> s_get (data_store sh') k = fst <$> purge now k (shard_db sh) !! k) as Hptr.
  { intros sh' Hwf' <-. by apply sget_db. }
  unfold get. destruct (expires sh !! k) as [t|] eqn:Ee.
  - destruct (sw_expires _ Hwf k) as [v Hv]; [eauto|].
    assert (shard_db sh !! k = Some (v, Some t)) as Hdb
      by (by rewrite shard_db_lookup, Hv, <- Ee).
    destruct (t <? now)%Z eqn:Et; simpl.
    + destruct (del_spec sh k Hwf) as (Hw & Hd & _). unfold del in Hw, Hd.
      destruct (s_del_view _ k (sw_store _ Hwf)) as (_ & Hv' & _).
      destruct (s_del (data_store sh) k) as [m b]. simpl in *.
      assert (shard_db {| data_store := m; expires := delete k (expires sh) |} =
              purge now k (shard_db sh)) as Hp.
      { rewrite Hd. unfold purge. rewrite Hdb. unfold is_expired; simpl. by rewrite Et. }
      assert (s_get m k = None) as Hg.
      { pose proof (s_get_view _ k (sw_store _ Hw)) as E. simpl in E.
        rewrite Hv', lookup_delete_eq in E. by destruct (s_get m k). }
      split_and!; [done|done|done|]. rewrite <- Hp, <- sget_db by done. simpl. by rewrite Hg.
    + assert (shard_db sh = purge now k (shard_db sh)) as Hp.
      { unfold purge. rewrite Hdb. unfold is_expired; simpl. by rewrite Et. }
      split_and!; auto.
  - simpl. assert (shard_db sh = purge now k (shard_db sh)) as Hp.
    { unfold purge. rewrite shard_db_lookup, Ee. by destruct (s_view _ !! k). }
    split_and!; auto.
Qed.

(** [set] stores the value without expiry, or throws when the store is full. *)
Lemma set_spec sh k v :
  shard_wf sh → value_wf v →
  match set sh k v with
  | Ok sh' => shard_wf sh' ∧ shard_db sh' = <[k := (v, None)]> (shard_db sh)
  | Throw e => e = runtime_error "HashMap is full" ∧ s_full (data_store sh) ∧
      shard_db sh !! k = None
  | Undefined => False
  end.
Proof.
  intros Hwf Hv. unfold set. pose proof (s_put_view _ k v (sw_store _ Hwf)) as Hp.
  destruct (s_put (data_store sh) k v) as [[m b]|e|].
  - destruct Hp as (Hw & Hvw & _). split; [split; simpl; [done| |]|].
    + intros k' v'. rewrite Hvw, lookup_insert_Some.
      intros [[_ <-]|[_ ?]]; [done|by eapply sw_values].
    + intros k'. rewrite Hvw. destruct (decide (k = k')) as [->|Hne].
      * by rewrite lookup_delete_eq, lookup_insert_eq.
      * rewrite lookup_delete_ne, lookup_insert_ne by done. by apply sw_expires.
    + apply shard_db_ext. intros k'. simpl. rewrite Hvw.
      destruct (decide (k = k')) as [->|Hne].
      * by rewrite !lookup_insert_eq, lookup_delete_eq.
      * by rewrite !lookup_insert_ne, lookup_delete_ne, shard_db_lookup by done.
  - destruct Hp as (? & ? & E). split_and!; [done..|]. by rewrite shard_db_lookup, E.
  - done.
Qed.

(** Writing through the pointer keeps the expiry. *)
Lemma assign_spec sh k p v :
  shard_wf sh → value_wf v → s_get (data_store sh) k = Some p →
  shard_wf (assign sh p v) ∧
  shard_db (assign sh p v) = <[k := (v, expires sh !! k)]> (shard_db sh) ∧
  s_get (data_store (assign sh p v)) k = Some p ∧ deref (assign sh p v) p = v.
Proof.
  intros Hwf Hvw Hg. destruct (s_assign_view _ k p v (sw_store _ Hwf) Hg) as [Hw Hv].
  assert (shard_wf (assign sh p v)) as Hwf'.
  { split; simpl; [done| |].
    - intros k' v'. rewrite Hv, lookup_insert_Some.
      intros [[_ <-]|[_ ?]]; [done|by eapply sw_values].
    - intros k'. rewrite Hv. intros Hx. destruct (decide (k = k')) as [->|Hne].
      + by rewrite lookup_insert_eq.
      + rewrite lookup_insert_ne by done. by apply sw_expires. }
  assert (shard_db (assign sh p v) = <[k := (v, expires sh !! k)]> (shard_db sh)) as Hd.
  { apply shard_db_ext. intros k'. simpl. rewrite Hv.
    destruct (decide (k = k')) as [->|Hne]; [by rewrite !lookup_insert_eq|].
    by rewrite !lookup_insert_ne, shard_db_lookup by done. }
  assert (s_get (data_store (assign sh p v)) k = Some p) as Hg'.
  { simpl. by rewrite (s_assign_get _ k p v k (sw_store _ Hwf) Hg). }
  split_and!; [done..|]. pose proof (sget_db _ k Hwf') as E.
  rewrite Hg', Hd, lookup_insert_eq in E. by injection E.
Qed.

Lemma set_expiry_spec sh k t :
  shard_wf sh → is_Some (shard_db sh !! k) →
  shard_wf (set_expiry sh k t) ∧
  shard_db (set_expiry sh k t) = alter (λ e, (e.1, Some t)) k (shard_db sh).
Proof.
  intros Hwf Hk. assert (is_Some (s_view (data_store sh) !! k)) as Hk'.
  { rewrite shard_db_lookup in Hk. by apply fmap_is_Some in Hk. }
  split.
  - split; simpl; [apply Hwf|apply Hwf|]. intros k'.
    destruct (decide (k = k')) as [->|Hne]; [done|].
    rewrite lookup_insert_ne by done. apply Hwf.
  - apply shard_db_ext. intros k'. simpl. destruct (decide (k = k')) as [->|Hne].
    + rewrite lookup_insert_eq, lookup_alter_eq, shard_db_lookup.
      by destruct (s_view _ !! k').
    + by rewrite lookup_insert_ne, lookup_alter_ne, shard_db_lookup by done.
Qed.

Lemma get_expiry_spec sh k :
  shard_wf sh → get_expiry sh k = default (-1)%Z (shard_db sh !! k ≫= snd).
Proof.
  intros Hwf. unfold get_expiry. rewrite shard_db_lookup.
  destruct (s_view (data_store sh) !! k) as [v|] eqn:Ev; simpl; [by destruct (expires sh !! k)|].
  destruct (expires sh !! k) eqn:Ex; [|done].
  destruct (sw_expires _ Hwf k); [eauto|congruence].
Qed.

(** [for_each] enumerates the database, expired entries included. *)
Lemma for_each_spec sh :
  shard_wf sh → NoDup (for_each sh).*1 ∧
  ∀ k v, (k, v) ∈ for_each sh ↔ fst <$> shard_db sh !! k = Some v.
Proof.
  intros Hwf. split; [by apply s_items_NoDup, Hwf|]. intros k v. unfold for_each.
  rewrite elem_of_list_to_map by (by apply s_items_NoDup, Hwf).
  rewrite (s_items_view _ (sw_store _ Hwf)), shard_db_lookup.
  by destruct (s_view _ !! k).
Qed.

(** Stored values satisfy their container invariants. *)
Lemma shard_db_values sh k e : shard_wf sh → shard_db sh !! k = Some e → value_wf e.1.
Proof.
  intros Hwf. rewrite shard_db_lookup. destruct (s_view _ !! k) as [v|] eqn:E; [|done].
  intros [= <-]. by eapply sw_values.
Qed.

End spec.
