(* ===== verification/Router.v ===== *)
(** * Key-to-shard routing (src/core/router.hpp, router.cpp)

    A consistent-hashing ring: each shard owns 100 points of the 32-bit circle,
    a key belongs to the shard of the first point at or after its hash, wrapping
    around.  The ring is [std::map<uint32_t, size_t>]. *)
From S2P Require Import Prelude CxxString Containers.
From Stdlib Require Import ZArith Ascii Lia.
From stdpp Require Import prelude gmap strings list_numbers.
Local Open Scope Z_scope.

(** [hash_key]: 32-bit FNV-1a. *)
Definition hash_step (h : Z) (c : ascii) : Z := uint32 (Z.lxor h (byte_val c) * 16777619).
Definition hash_key (k : string) : Z := fold_left hash_step (bytes_of_string k) 2166136261.

(** [Router::crc16]: the fallback hash.  [(uint16_t)c] sign-extends a [char]. *)
Definition char_signed (c : ascii) : Z :=
  if byte_val c <? 128 then byte_val c else byte_val c - 256.

Definition crc_bit (crc : Z) : Z :=
  if Z.testbit crc 15 then uint16 (Z.lxor (Z.shiftl crc 1) 0x1021)
  else uint16 (Z.shiftl crc 1).

Definition crc_byte (crc : Z) (c : ascii) : Z :=
  Nat.iter 8 crc_bit (uint16 (Z.lxor crc (Z.shiftl (uint16 (char_signed c)) 8))).

Definition crc16 (k : string) : Z := fold_left crc_byte (bytes_of_string k) 0.

(** The ring and its [operator[]] assignment, [lower_bound] and [begin]. *)
Abbreviation ring := (list (Z * nat)).

Definition point_ltb (a b : Z * nat) : bool := a.1 <? b.1.

Fixpoint lower_bound (h : Z) (r : ring) : option (Z * nat) :=
  match r with
  | [] => None
  | p :: r' => if p.1 <? h then lower_bound h r' else Some p
  end.

Definition VIRTUAL_NODES_PER_SHARD : nat := 100.

Definition virtual_node_key (shard_id v : nat) : string :=
  "SHARD-" +:+ to_string (Z.of_nat shard_id) +:+ "-VN-" +:+ to_string (Z.of_nat v).

(** The inner and outer loops of [Router::initialize_ring]. *)
Definition add_virtual_node (shard_id : nat) (r : ring) (v : nat) : ring :=
  oassign point_ltb (hash_key (virtual_node_key shard_id v), shard_id) r.

Definition add_shard (r : ring) (shard_id : nat) : ring :=
  fold_left (add_virtual_node shard_id) (seq 0 VIRTUAL_NODES_PER_SHARD) r.

Record Router := mkRouter { ring_ : ring; num_shards_ : nat }.

(** [Router::initialize_ring] (the ring is left alone for zero shards). *)
Definition initialize_ring (r : ring) (num_shards : nat) : ring :=
  if (num_shards =? 0)%nat then r else fold_left add_shard (seq 0 num_shards) [].

Definition new_router (num_shards : nat) : Router :=
  mkRouter (initialize_ring [] num_shards) num_shards.

(** [Router::get_shard_id]. *)
Definition get_shard_id (r : Router) (k : string) : nat :=
  if (num_shards_ r =? 0)%nat then 0%nat else
  match ring_ r with
  | [] => (Z.to_nat (crc16 k) mod num_shards_ r)%nat
  | first :: _ =>
      match lower_bound (hash_key k) (ring_ r) with
      | Some p => p.2
      | None => first.2
      end
  end.

(** ** Known hash values *)

Example fnv_empty : hash_key "" = 0x811c9dc5.
Proof. by vm_compute. Qed.
Example fnv_foobar : hash_key "foobar" = 0xbf9cf968.
Proof. by vm_compute. Qed.
Example crc_check_value : crc16 "123456789" = 0x31c3.
Proof. by vm_compute. Qed.

Lemma hash_key_range k : 0 ≤ hash_key k < 2 ^ 32.
Proof.
  unfold hash_key. generalize (bytes_of_string k). intros l.
  destruct l as [|c l] using rev_ind; [done|].
  rewrite fold_left_app. simpl. apply wrap_u_range. lia.
Qed.

(** ** The ring *)

#[export] Instance Z_total : TotalLess Z.ltb.
Proof. split; intros; lia. Qed.

(** Successor lookup on the circle. *)
Definition ring_lookup (r : ring) (h : Z) : option nat :=
  match lower_bound h r with
  | Some p => Some p.2
  | None => snd <$> head r
  end.

Lemma get_shard_id_lookup r k :
  num_shards_ r ≠ 0%nat → ring_ r ≠ [] →
  ring_lookup (ring_ r) (hash_key k) = Some (get_shard_id r k).
Proof.
  intros Hn Hr. unfold get_shard_id, ring_lookup.
  rewrite (proj2 (Nat.eqb_neq _ _) Hn). destruct (ring_ r) as [|p r']; [done|].
  by destruct (lower_bound _ _).
Qed.

Lemma lower_bound_elem h r p : lower_bound h r = Some p → p ∈ r ∧ h ≤ p.1.
Proof.
  induction r as [|q r IH]; simpl; [done|]. destruct (Z.ltb_spec q.1 h).
  - intros [??]%IH. split; [set_solver|done].
  - intros [= ->]. split; [set_solver|done].
Qed.

(** In a sorted ring the point found is the first at or after the hash. *)
Lemma lower_bound_least h (r : ring) p q :
  osorted point_ltb r → lower_bound h r = Some p → q ∈ r → h ≤ q.1 → p.1 ≤ q.1.
Proof.
  induction r as [|x r IH]; simpl; [done|].
  intros [Hs Hx]%(osorted_cons fst Z.ltb). destruct (Z.ltb_spec x.1 h).
  - intros Hp [->|Hq]%elem_of_cons ?; [lia|by apply IH].
  - intros [= <-] [->|Hq%Hx]%elem_of_cons _; lia.
Qed.

Lemma lower_bound_none h (r : ring) q : lower_bound h r = None → q ∈ r → q.1 < h.
Proof.
  induction r as [|x r IH]; simpl; [set_solver|]. destruct (Z.ltb_spec x.1 h); [|done].
  intros ? [->|?]%elem_of_cons; [done|by apply IH].
Qed.

Lemma ring_lookup_elem r h s : ring_lookup r h = Some s → ∃ p, p ∈ r ∧ p.2 = s.
Proof.
  unfold ring_lookup. destruct (lower_bound h r) as [p|] eqn:E.
  - intros [= <-]. apply lower_bound_elem in E as [? _]. eauto.
  - destruct r as [|p r]; [done|]. intros [= <-]. exists p. set_solver.
Qed.

(** *** Adding a point takes keys only for itself *)

Lemma lower_bound_assign h x r :
  lower_bound h (oassign point_ltb x r) = Some x ∨
  lower_bound h (oassign point_ltb x r) = lower_bound h r.
Proof.
  induction r as [|y r IH]; simpl; [case_match; auto|].
  destruct (point_ltb x y) eqn:E1; simpl; [destruct (x.1 <? h); auto|].
  destruct (point_ltb y x) eqn:E2; simpl; [destruct (y.1 <? h); auto|].
  unfold point_ltb in *. replace (y.1 <? h) with (x.1 <? h) by lia.
  destruct (x.1 <? h); auto.
Qed.

Lemma head_assign x r :
  head (oassign point_ltb x r) = Some x ∨ head (oassign point_ltb x r) = head r.
Proof. destruct r as [|y r]; simpl; [auto|]. repeat case_match; simpl; auto. Qed.

Lemma ring_lookup_assign x r h :
  ring_lookup (oassign point_ltb x r) h = Some x.2 ∨
  ring_lookup (oassign point_ltb x r) h = ring_lookup r h.
Proof.
  unfold ring_lookup. destruct (lower_bound_assign h x r) as [->| ->]; [by left|].
  destruct (lower_bound h r); [by right|].
  destruct (head_assign x r) as [->| ->]; [by left|by right].
Qed.

Lemma ring_lookup_add_shard r s h :
  ring_lookup (add_shard r s) h = Some s ∨ ring_lookup (add_shard r s) h = ring_lookup r h.
Proof.
  unfold add_shard. generalize (seq 0 VIRTUAL_NODES_PER_SHARD). intros l.
  revert r. induction l as [|v l IH]; intros r; simpl; [by right|].
  destruct (IH (add_virtual_node s r v)) as [->| ->]; [by left|]. apply ring_lookup_assign.
Qed.

(** *** The points of the ring belong to existing shards *)

Lemma oassign_nonempty (x : Z * nat) (r : ring) : oassign point_ltb x r ≠ [].
Proof. destruct r; simpl; repeat case_match; done. Qed.

Lemma add_shard_nonempty r s : add_shard r s ≠ [].
Proof.
  unfold add_shard, VIRTUAL_NODES_PER_SHARD. rewrite seq_S, fold_left_app.
  apply oassign_nonempty.
Qed.

Lemma oassign_elem (x p : Z * nat) (r : ring) : p ∈ oassign point_ltb x r → p = x ∨ p ∈ r.
Proof. induction r as [|y r IH]; simpl; [set_solver|]. repeat case_match; set_solver. Qed.

Lemma add_shard_elem r s p : p ∈ add_shard r s → p.2 = s ∨ p ∈ r.
Proof.
  unfold add_shard. generalize (seq 0 VIRTUAL_NODES_PER_SHARD). intros l.
  revert r. induction l as [|v l IH]; intros r; simpl; [by right|].
  intros [?|[->|?]%oassign_elem]%IH; auto.
Qed.

Lemma add_shard_sorted r s : osorted point_ltb r → osorted point_ltb (add_shard r s).
Proof.
  unfold add_shard. generalize (seq 0 VIRTUAL_NODES_PER_SHARD). intros l.
  revert r. induction l as [|v l IH]; intros r Hr; simpl; [done|].
  apply IH. by apply (oassign_spec fst Z.ltb).
Qed.

Lemma init_ring_S n : initialize_ring [] (S n) = add_shard (initialize_ring [] n) n.
Proof.
  unfold initialize_ring. rewrite seq_S, fold_left_app. by destruct n.
Qed.

Lemma init_ring_nonempty n : (0 < n)%nat → initialize_ring [] n ≠ [].
Proof. destruct n; [lia|]. intros _. rewrite init_ring_S. apply add_shard_nonempty. Qed.

Lemma init_ring_elem n p : p ∈ initialize_ring [] n → (p.2 < n)%nat.
Proof.
  induction n as [|n IH]; [set_solver|]. rewrite init_ring_S.
  intros [->|?%IH]%add_shard_elem; lia.
Qed.

Lemma init_ring_sorted n : osorted point_ltb (initialize_ring [] n).
Proof.
  induction n as [|n IH]; [constructor|]. rewrite init_ring_S. by apply add_shard_sorted.
Qed.

Lemma new_router_lookup n k :
  (0 < n)%nat →
  ring_lookup (initialize_ring [] n) (hash_key k) = Some (get_shard_id (new_router n) k).
Proof.
  intros Hn. apply (get_shard_id_lookup (new_router n)); simpl; [lia|].
  by apply init_ring_nonempty.
Qed.

(** The owner of a key is one of the shards. *)
Lemma get_shard_id_lt n k : (0 < n)%nat → (get_shard_id (new_router n) k < n)%nat.
Proof.
  intros Hn. pose proof (new_router_lookup n k Hn) as (p & Hp & <-)%ring_lookup_elem.
  by apply init_ring_elem.
Qed.
#[export] Hint Resolve get_shard_id_lt : quine.
