(* ===== verification/Topology.v ===== *)
(** * Channels, messages and the topology
      (src/core/itc_channel.hpp, message.hpp, topology.hpp)

    The topology is the state all cores share: the router, one shard, one inbox
    and one wake-up descriptor per core.  Channel operations hold the channel's
    mutex, so each is one atomic step.  [World] adds what the program reads of
    its environment: the clock (an arbitrary sequence of readings), the event
    descriptors and the file system. *)
From S2P Require Import Prelude CxxString Double Containers Value Store HashMap Shard Router.
From Stdlib Require Import ZArith Lia.
From stdpp Require Import prelude gmap strings list_numbers.

(** ** [ItcChannel<T>] *)

Record ItcChannel (T : Type) := mkChannel { queue_ : list T }.
Arguments mkChannel {T} _.
Arguments queue_ {T} _.

Section channel.
Context {T : Type}.
Implicit Types (c : ItcChannel T).

Definition ch_push c (x : T) : ItcChannel T := mkChannel (queue_ c ++ [x]).

Definition ch_try_pop c : ItcChannel T * option T :=
  match queue_ c with
  | [] => (c, None)
  | x :: q => (mkChannel q, Some x)
  end.

(** [consume_all] swaps the queue out under the lock; the batch it then hands
    to the handler is returned. *)
Definition ch_take_all c : ItcChannel T * list T := (mkChannel [], queue_ c).

Definition ch_empty c : bool := match queue_ c with [] => true | _ => false end.
End channel.

(** ** [Message] *)

Inductive MessageType := REQUEST | RESPONSE.

(** [success] is left uninitialised in requests, and never read. *)
Record Message := mkMsg {
  msg_type : MessageType;
  origin_core_id : nat;
  msg_conn_id : Z;
  msg_key : string;
  msg_args : list string;
  payload : string;
  success : option bool
}.

(** ** [Topology] *)

Record Topology := mkTopo {
  router_ : Router;
  num_cores_ : nat;
  shards_ : list (Shard HashMap);
  channels_ : list (ItcChannel Message);
  notify_fds_ : list Z;
  registered_count_ : nat
}.

(** [Shard::Shard() : data_store_(10000)]. *)
Definition shard_capacity : nat := N.to_nat 10000.
Lemma shard_capacity_pos : 0 < shard_capacity.
Proof. unfold shard_capacity. lia. Qed.
Lemma shard_capacity_eq : Z.of_nat shard_capacity = 10000%Z.
Proof. unfold shard_capacity. lia. Qed.
#[global] Opaque shard_capacity.
Definition new_shard : Shard HashMap := mkShard (new_map shard_capacity) ∅.

Definition new_topology (num_cores : nat) : Topology :=
  mkTopo (new_router num_cores) num_cores
    (replicate num_cores new_shard) (replicate num_cores (mkChannel []))
    (replicate num_cores (-1)%Z) 0.

Definition set_shards (t : Topology) (s : list (Shard HashMap)) : Topology :=
  mkTopo (router_ t) (num_cores_ t) s (channels_ t) (notify_fds_ t) (registered_count_ t).
Definition set_channels (t : Topology) (c : list (ItcChannel Message)) : Topology :=
  mkTopo (router_ t) (num_cores_ t) (shards_ t) c (notify_fds_ t) (registered_count_ t).

(** [register_notify_fd]. *)
Definition register_notify_fd (t : Topology) (core_id : nat) (fd : Z) : outcome Topology :=
  if length (notify_fds_ t) <=? core_id then Throw (out_of_range "Invalid core_id")
  else Ok (mkTopo (router_ t) (num_cores_ t) (shards_ t) (channels_ t)
             (<[core_id := fd]> (notify_fds_ t)) (S (registered_count_ t))).

(** The exit condition of [wait_for_all_cores]. *)
Definition all_registered (t : Topology) : bool := num_cores_ t <=? registered_count_ t.

(** [is_local], [get_target_core]. *)
Definition get_target_core (t : Topology) (k : string) : nat := get_shard_id (router_ t) k.
Definition is_local (t : Topology) (core_id : nat) (k : string) : bool :=
  get_shard_id (router_ t) k =? core_id.

(** ** The world a handler runs in *)

(** How one core wakes another: through the counter of an [eventfd] (Linux), or
    through a pipe with room for [capacity] messages of eight bytes. *)
Inductive WakeKind := EventFd | PipePair (capacity : Z).

(** What can wait in a wake-up descriptor, and what is left after one read of
    eight bytes. *)
Definition wake_limit (k : WakeKind) : Z :=
  match k with EventFd => 2 ^ 64 - 2 | PipePair capacity => capacity end.
Definition wake_read (k : WakeKind) (n : Z) : Z :=
  match k with EventFd => 0 | PipePair _ => n - 1 end.

Record World := mkWorld {
  topo : Topology;
  clock : nat → Z;             (* readings of [system_clock::now()], in order *)
  ticks : nat;                 (* how many have been made *)
  eventfds : gmap Z Z;         (* what waits in the open wake-up descriptors *)
  files : gmap string bytes;   (* the file system *)
  wakes : WakeKind             (* of the platform *)
}.

Definition set_topo (w : World) (t : Topology) : World :=
  mkWorld t (clock w) (ticks w) (eventfds w) (files w) (wakes w).
Definition set_eventfds (w : World) (e : gmap Z Z) : World :=
  mkWorld (topo w) (clock w) (ticks w) e (files w) (wakes w).
Definition set_files (w : World) (f : gmap string bytes) : World :=
  mkWorld (topo w) (clock w) (ticks w) (eventfds w) f (wakes w).

Abbreviation prog := (comp World).

(** [system_clock::now()] in milliseconds. *)
Definition now : prog Z := λ w,
  (Ok (clock w (ticks w)),
   mkWorld (topo w) (clock w) (S (ticks w)) (eventfds w) (files w) (wakes w)).

(** [Topology::get_shard] and the store back through the pointer. *)
Definition get_shard (core_id : nat) : prog (Shard HashMap) := λ w,
  match shards_ (topo w) !! core_id with
  | Some sh => (Ok sh, w)
  | None => (Throw (out_of_range "Invalid core_id"), w)
  end.
Definition put_shard (core_id : nat) (sh : Shard HashMap) : prog unit :=
  modify (λ w, set_topo w (set_shards (topo w) (<[core_id := sh]> (shards_ (topo w))))).

(** [Topology::get_channel(id)->push(msg)]. *)
Definition push_channel (core_id : nat) (m : Message) : prog unit := λ w,
  match channels_ (topo w) !! core_id with
  | Some c => (Ok tt,
      set_topo w (set_channels (topo w) (<[core_id := ch_push c m]> (channels_ (topo w)))))
  | None => (Throw (out_of_range "Invalid core_id"), w)
  end.

(** [write(fd, &u, 8)] with [u = 1] on an [eventfd], or on the write end of a
    pipe: the counter is increased, or the message is added, or the call fails
    (closed descriptor, [EAGAIN] when full), which the callers ignore.  The number of
    a core that has ended stays in the topology; if the kernel has given it to a
    socket since, the eight bytes go there, which is not modelled. *)
Definition wake_write (fd : Z) (w : World) : World :=
  match eventfds w !! fd with
  | Some n => if (n + 1 <=? wake_limit (wakes w))%Z
              then set_eventfds w (<[fd := (n + 1)%Z]> (eventfds w)) else w
  | None => w
  end.

(** [Topology::notify_core]. *)
Definition notify_core (core_id : nat) : prog unit := modify (λ w,
  match notify_fds_ (topo w) !! core_id with
  | Some fd => if (0 <=? fd)%Z then wake_write fd w else w
  | None => w
  end).

(** ** Shard operations through the topology *)

Section shard_access.
Context `{StdHash}.

(** [shard->get(key)]: [Some p] is a non-null [Value*].  A reading of the clock is
    taken whether or not the key has an expiry; one that is not used is not
    observable. *)
Definition shard_get (core_id : nat) (k : string) : prog (option nat) :=
  sh ← get_shard core_id;
  t ← now;
  let '(sh', p) := Shard.get t sh k in
  put_shard core_id sh';; mret p.

Definition shard_set (core_id : nat) (k : string) (v : Value) : prog unit :=
  sh ← get_shard core_id;
  sh' ← lift (Shard.set sh k v);
  put_shard core_id sh'.

Definition shard_del (core_id : nat) (k : string) : prog bool :=
  sh ← get_shard core_id;
  let '(sh', b) := Shard.del sh k in
  put_shard core_id sh';; mret b.

Definition shard_set_expiry (core_id : nat) (k : string) (ms : Z) : prog unit :=
  sh ← get_shard core_id;
  put_shard core_id (Shard.set_expiry sh k ms).

Definition shard_get_expiry (core_id : nat) (k : string) : prog Z :=
  sh ← get_shard core_id; mret (Shard.get_expiry sh k).

(** [*val] and [*val = v] through a [Value*]; dereferencing [nullptr] is
    undefined. *)
Definition load (core_id : nat) (p : option nat) : prog Value :=
  match p with
  | None => undefined
  | Some p => sh ← get_shard core_id; mret (Shard.deref sh p)
  end.

Definition store (core_id : nat) (p : option nat) (v : Value) : prog unit :=
  match p with
  | None => undefined
  | Some p => sh ← get_shard core_id; put_shard core_id (Shard.assign sh p v)
  end.

(** [std::get_if<T>(val)]: the pointer, when non-null and of type [T]. *)
Definition get_if (ty : ValueType) (core_id : nat) (p : option nat) : prog (option nat) :=
  match p with
  | None => mret None
  | Some _ => v ← load core_id p; mret (if decide (get_type v = ty) then p else None)
  end.

End shard_access.

(** ** Facts about channels *)

Lemma ch_push_take {T} (c : ItcChannel T) x : (ch_take_all (ch_push c x)).2 = (ch_take_all c).2 ++ [x].
Proof. done. Qed.

(** ** The invariant of the topology *)

Section invariant.
Context `{StdHash}.

(** Shapes agree with the number of cores, the router is the one built for
    them, shards are well formed, and every key lives on its owner. *)
Record topo_wf (t : Topology) : Prop := {
  tw_cores : 0 < num_cores_ t;
  tw_router : router_ t = new_router (num_cores_ t);
  tw_shards : length (shards_ t) = num_cores_ t;
  tw_channels : length (channels_ t) = num_cores_ t;
  tw_fds : length (notify_fds_ t) = num_cores_ t;
  tw_shard_wf i sh : shards_ t !! i = Some sh → shard_wf sh;
  tw_placed i sh k : shards_ t !! i = Some sh → is_Some (shard_db sh !! k) →
    get_target_core t k = i
}.

Lemma target_core_lt t k : topo_wf t → get_target_core t k < num_cores_ t.
Proof.
  intros Hwf. unfold get_target_core. rewrite (tw_router t Hwf). apply get_shard_id_lt, Hwf.
Qed.

Lemma is_local_spec t c k : is_local t c k = true ↔ get_target_core t k = c.
Proof. unfold is_local, get_target_core. by rewrite Nat.eqb_eq. Qed.

(** The whole database: a key is looked up in the shard that owns it. *)
Definition topo_db (t : Topology) (k : string) : option (Value * option Z) :=
  shards_ t !! get_target_core t k ≫= λ sh, shard_db sh !! k.

Lemma new_shard_wf : shard_wf new_shard ∧ shard_db new_shard = ∅.
Proof.
  split.
  - split; simpl; [apply new_map_wf, shard_capacity_pos| |].
    + intros k v. rewrite new_map_view, lookup_empty. done.
    + intros k. rewrite lookup_empty. by intros [].
  - apply shard_db_ext. intros k. cbn [new_shard data_store s_view hash_map_laws].
    by rewrite new_map_view, !lookup_empty.
Qed.

Lemma new_topology_wf n : 0 < n → topo_wf (new_topology n).
Proof.
  intros Hn. destruct new_shard_wf as [Hwf Hdb].
  split; [done|done|apply length_replicate|apply length_replicate|apply length_replicate| |].
  - by intros i sh [-> _]%lookup_replicate.
  - intros i sh k [-> _]%lookup_replicate. rewrite Hdb, lookup_empty. by intros [].
Qed.

(** Replacing the shard of a core by one whose keys that core owns. *)
Lemma set_shard_wf t c sh :
  topo_wf t → shard_wf sh →
  (∀ k, is_Some (shard_db sh !! k) → get_target_core t k = c) →
  topo_wf (set_shards t (<[c := sh]> (shards_ t))).
Proof.
  intros Hwf Hsh Hk. split; simpl; try apply Hwf.
  - rewrite length_insert. apply Hwf.
  - intros i sh' [(-> & <- & _)|[_ ?]]%list_lookup_insert_Some; [done|by eapply tw_shard_wf].
  - intros i sh' k [(-> & <- & _)|[_ ?]]%list_lookup_insert_Some; [by apply Hk|].
    by eapply (tw_placed t Hwf).
Qed.

Lemma set_channels_wf t c :
  topo_wf t → length c = num_cores_ t → topo_wf (set_channels t c).
Proof. intros Hwf Hc. split; simpl; try apply Hwf; done. Qed.

Lemma topo_db_set_same t c sh k :
  topo_wf t → get_target_core t k = c →
  topo_db (set_shards t (<[c := sh]> (shards_ t))) k = shard_db sh !! k.
Proof.
  intros Hwf Hc. unfold topo_db. change (get_target_core (set_shards _ _) k) with
    (get_target_core t k). simpl. rewrite Hc, list_lookup_insert_eq; [done|].
  rewrite (tw_shards t Hwf), <- Hc. by apply target_core_lt.
Qed.

Lemma topo_db_set_other t c sh k :
  get_target_core t k ≠ c →
  topo_db (set_shards t (<[c := sh]> (shards_ t))) k = topo_db t k.
Proof.
  intros Hc. unfold topo_db. change (get_target_core (set_shards _ _) k) with
    (get_target_core t k). simpl. by rewrite list_lookup_insert_ne.
Qed.

End invariant.

(** ** A concrete server, for the examples *)

Definition demo_hash : StdHash := λ s, N.of_nat (String.length s).
Definition demo_world (cores : nat) : World :=
  mkWorld (new_topology cores) (λ n, Z.of_nat n) 0 ∅ ∅ EventFd.
