(* ===== verification/Engine.v ===== *)
(** * The storage engine (src/storage/engine.hpp)

    A vector of shards indexed by [std::hash] modulo their number.  The server
    itself routes with [Topology] and its ring; the engine is the container of
    the storage library. *)
From S2P Require Import Prelude Double Value Store HashMap Shard Router Topology.
From Stdlib Require Import ZArith Lia.
From stdpp Require Import prelude gmap strings list_numbers.

Record StorageEngine := mkEngine {
  engine_num_shards : nat;
  engine_shards : list (Shard HashMap)
}.

(** The constructor. *)
Definition new_engine (num_shards : nat) : StorageEngine :=
  mkEngine num_shards (replicate num_shards new_shard).

(** [get_shard_by_id]: [operator[]] past the end is undefined. *)
Definition engine_shard_by_id (e : StorageEngine) (id : nat) : outcome (Shard HashMap) :=
  match engine_shards e !! id with Some sh => Ok sh | None => Undefined end.

Section engine.
Context `{StdHash}.

(** [get_shard]: with no shards the modulo divides by zero. *)
Definition engine_get_shard (e : StorageEngine) (key : string) : outcome (Shard HashMap) :=
  if engine_num_shards e =? 0 then Undefined
  else engine_shard_by_id e (N.to_nat (std_hash key mod N.of_nat (engine_num_shards e))).

(** A write through the reference [get_shard(key)] returned. *)
Definition engine_put (e : StorageEngine) (key : string) (sh : Shard HashMap) : StorageEngine :=
  mkEngine (engine_num_shards e)
    (<[N.to_nat (std_hash key mod N.of_nat (engine_num_shards e)) := sh]> (engine_shards e)).

(** There is a shard, the shapes agree, and the shards are well formed. *)
Record engine_wf (e : StorageEngine) : Prop := {
  ew_pos : 0 < engine_num_shards e;
  ew_length : length (engine_shards e) = engine_num_shards e;
  ew_shards i sh : engine_shards e !! i = Some sh → shard_wf sh
}.

Lemma new_engine_wf n : 0 < n → engine_wf (new_engine n).
Proof.
  intros Hn. split; [done|apply length_replicate|]. intros i sh [-> _]%lookup_replicate.
  apply new_shard_wf.
Qed.

Lemma engine_index_lt e key :
  engine_wf e →
  N.to_nat (std_hash key mod N.of_nat (engine_num_shards e)) < length (engine_shards e).
Proof.
  intros [Hp Hl _]. rewrite Hl.
  pose proof (N.mod_upper_bound (std_hash key) (N.of_nat (engine_num_shards e))). lia.
Qed.

(** [get_shard] is defined on every key and is one of the shards. *)
Lemma engine_get_shard_ok e key :
  engine_wf e → ∃ sh, engine_get_shard e key = Ok sh ∧ shard_wf sh.
Proof.
  intros Hwf. pose proof (engine_index_lt e key Hwf) as Hi.
  unfold engine_get_shard, engine_shard_by_id. rewrite (proj2 (Nat.eqb_neq _ _)) by (destruct Hwf; lia).
  destruct (lookup_lt_is_Some_2 _ _ Hi) as [sh Hsh]. rewrite Hsh. exists sh.
  split; [done|]. by eapply ew_shards.
Qed.

(** What was written through the reference for a key is what the next
    [get_shard] of that key sees. *)
Lemma engine_put_get e key sh :
  engine_wf e → shard_wf sh →
  engine_wf (engine_put e key sh) ∧ engine_get_shard (engine_put e key sh) key = Ok sh.
Proof.
  intros Hwf Hsh. pose proof (engine_index_lt e key Hwf) as Hi. destruct Hwf as [Hp Hl Hs]. split.
  - split; simpl; [done|by rewrite length_insert|].
    intros i sh' [(_ & <- & _)|[_ ?]]%list_lookup_insert_Some; [done|by eapply Hs].
  - unfold engine_get_shard, engine_shard_by_id. simpl.
    rewrite (proj2 (Nat.eqb_neq _ _)) by lia. by rewrite list_lookup_insert_eq.
Qed.
End engine.
