(* ===== verification/Raft.v ===== *)
(** * The consensus skeleton (src/consensus/consensus.hpp, raft.hpp)

    [ConsensusModule] is an interface; [RaftConsensus] implements it as a
    single-node skeleton: no log, no messages, and [replicate] succeeds exactly
    on a leader. *)
From S2P Require Import Prelude.
From Stdlib Require Import Lia.
From stdpp Require Import prelude strings.

(** [class ConsensusModule]: its virtual methods, on a state. *)
Class ConsensusModule (M : Type) := {
  cm_start : M → M;
  cm_stop : M → M;
  cm_replicate : M → string → bool * M;
  cm_is_leader : M → bool
}.

Inductive RaftState := FOLLOWER | CANDIDATE | LEADER.
#[export] Instance RaftState_eq_dec : EqDecision RaftState.
Proof. solve_decision. Defined.

Record RaftConsensus := mkRaft { node_id : nat; raft_state : RaftState; running : bool }.

Definition new_raft (id : nat) : RaftConsensus := mkRaft id FOLLOWER false.
Definition raft_start (r : RaftConsensus) : RaftConsensus := mkRaft (node_id r) (raft_state r) true.
Definition raft_stop (r : RaftConsensus) : RaftConsensus := mkRaft (node_id r) (raft_state r) false.
Definition raft_replicate (r : RaftConsensus) (command : string) : bool * RaftConsensus :=
  if decide (raft_state r = LEADER) then (true, r) else (false, r).
Definition raft_is_leader (r : RaftConsensus) : bool := bool_decide (raft_state r = LEADER).
Definition become_leader (r : RaftConsensus) : RaftConsensus := mkRaft (node_id r) LEADER (running r).
Definition become_follower (r : RaftConsensus) : RaftConsensus := mkRaft (node_id r) FOLLOWER (running r).

#[export] Instance raft_module : ConsensusModule RaftConsensus := {
  cm_start := raft_start; cm_stop := raft_stop;
  cm_replicate := raft_replicate; cm_is_leader := raft_is_leader
}.

(** What a caller of the interface relies on: a command is committed only on the
    leader, and starting or stopping does not change who leads. *)
Class ConsensusLaws (M : Type) `{ConsensusModule M} := {
  cl_replicate m c : (cm_replicate m c).1 = cm_is_leader m;
  cl_replicate_leader m c : cm_is_leader (cm_replicate m c).2 = cm_is_leader m;
  cl_start m : cm_is_leader (cm_start m) = cm_is_leader m;
  cl_stop m : cm_is_leader (cm_stop m) = cm_is_leader m
}.

#[export] Instance raft_laws : ConsensusLaws RaftConsensus.
Proof.
  split; simpl; try done; intros m c; unfold raft_replicate, raft_is_leader;
    destruct (decide (raft_state m = LEADER)) as [E|E]; simpl; try done.
  - by rewrite bool_decide_eq_true_2.
  - by rewrite bool_decide_eq_false_2.
Qed.

(** One call on a module. *)
Inductive raft_call := CallStart | CallStop | CallReplicate (c : string) | CallLeader | CallFollower.

Definition raft_step (r : RaftConsensus) (c : raft_call) : RaftConsensus :=
  match c with
  | CallStart => raft_start r
  | CallStop => raft_stop r
  | CallReplicate c => (raft_replicate r c).2
  | CallLeader => become_leader r
  | CallFollower => become_follower r
  end.

(** Leadership is decided by the last [become_leader] or [become_follower]; the
    [CANDIDATE] state is never entered. *)
Lemma raft_no_candidate id calls : raft_state (foldl raft_step (new_raft id) calls) ≠ CANDIDATE.
Proof.
  assert (∀ r, raft_state r ≠ CANDIDATE → raft_state (foldl raft_step r calls) ≠ CANDIDATE) as Hs.
  { induction calls as [|c calls IH]; intros r Hr; simpl; [done|]. apply IH.
    destruct c; simpl; try done. unfold raft_replicate. by case_decide. }
  by apply Hs.
Qed.
