(* ===== verification/Command.v ===== *)
(** * What the commands share (src/core/command.hpp and the helpers repeated in
      src/commands/*.hpp)

    RESP replies, forwarding to the owner of a key, typed access to the value a
    key holds, and the [int] arithmetic of the range commands. *)
From S2P Require Import Prelude CxxString Double Containers Value Store HashMap Shard Router Topology.
From Stdlib Require Import ZArith Ascii Lia.
From Stdlib Require String.
From stdpp Require Import prelude gmap strings list_numbers.

(** [class Command]: its name and [execute(topology, core_id, conn_id, args)]. *)
Record Command := mkCommand {
  cmd_name : string;
  cmd_execute : nat → Z → list string → prog string
}.

(** ** Replies *)

Definition str_size (s : string) : Z := Z.of_nat (String.length s).
Lemma str_size_nonneg s : (0 ≤ str_size s)%Z.
Proof. unfold str_size. lia. Qed.

(** ["$" + std::to_string(s.size()) + "\r\n" + s + "\r\n"] *)
Definition bulk (s : string) : string :=
  "$" +:+ to_string (str_size s) +:+ crlf +:+ s +:+ crlf.
(** [":" + std::to_string(z) + "\r\n"] *)
Definition integer (z : Z) : string := ":" +:+ to_string z +:+ crlf.
(** ["*" + std::to_string(n) + "\r\n"] *)
Definition array_header (n : Z) : string := "*" +:+ to_string n +:+ crlf.

Definition ok_reply : string := "+OK" +:+ crlf.
Definition nil_reply : string := "$-1" +:+ crlf.
Definition empty_array : string := "*0" +:+ crlf.
Definition err_args (cmd : string) : string :=
  "-ERR wrong number of arguments for '" +:+ cmd +:+ "'" +:+ crlf.
Definition err_wrongtype : string :=
  "-ERR WRONGTYPE Operation against a key holding the wrong kind of value" +:+ crlf.
Definition err_not_integer : string :=
  "-ERR value is not an integer or out of range" +:+ crlf.
Definition err_not_float : string := "-ERR value is not a valid float" +:+ crlf.

(** ** Forwarding: the [forward_request] method, also inlined in some commands *)

Definition forward_request (core_id : nat) (conn_id : Z) (args : list string) : prog string :=
  t ← gets topo;
  let target_core := get_target_core t (args !!! 1) in
  push_channel target_core
    (mkMsg REQUEST core_id conn_id (args !!! 1) args EmptyString None);;
  notify_core target_core;;
  mret EmptyString.

(** [if (topology.is_local(core_id, args[1])) { body } else { forward }] *)
Definition if_local (core_id : nat) (conn_id : Z) (args : list string)
    (body : prog string) : prog string :=
  t ← gets topo;
  if is_local t core_id (args !!! 1) then body else forward_request core_id conn_id args.

(** ** Typed access: dereferencing a [List*], [Set*], [Hash*], [ZSet*] *)

Section typed.
Context `{StdHash} (core_id : nat) (p : option nat).

Definition load_list : prog (list string) :=
  v ← load core_id p; match v with VList l => mret l | _ => undefined end.
Definition load_set : prog (list string) :=
  v ← load core_id p; match v with VSet s => mret s | _ => undefined end.
Definition load_hash : prog (list (string * string)) :=
  v ← load core_id p; match v with VHash h => mret h | _ => undefined end.
Definition load_zset : prog ZSet :=
  v ← load core_id p; match v with VZSet z => mret z | _ => undefined end.
End typed.

(** The opening of the commands that create a missing key ([LPUSH], [RPUSH],
    [SADD], [HSET], [ZADD]): a typed pointer to the value at the key, created as
    [fresh] when the key is absent; [body] is not reached on a wrong type. *)
Definition find_or_create `{StdHash} (core_id : nat) (key : string) (ty : ValueType)
    (fresh : Value) (body : option nat → prog string) : prog string :=
  val ← shard_get core_id key;
  match val with
  | None =>
      shard_set core_id key fresh;;
      val ← shard_get core_id key;
      ptr ← get_if ty core_id val;
      body ptr
  | Some _ =>
      ptr ← get_if ty core_id val;
      match ptr with
      | None => mret err_wrongtype
      | Some _ => body ptr
      end
  end.

(** The opening of the commands that leave a missing key alone. *)
Definition find_existing `{StdHash} (core_id : nat) (key : string) (ty : ValueType)
    (missing : string) (body : option nat → prog string) : prog string :=
  val ← shard_get core_id key;
  match val with
  | None => mret missing
  | Some _ =>
      ptr ← get_if ty core_id val;
      match ptr with
      | None => mret err_wrongtype
      | Some _ => body ptr
      end
  end.

(** ** Signed arithmetic: overflow is undefined behaviour *)

Definition int_arith {S} (z : Z) : comp S Z :=
  if ((int_min <=? z) && (z <=? int_max))%Z then mret z else undefined.
Definition long_arith {S} (z : Z) : comp S Z :=
  if ((long_min <=? z) && (z <=? long_max))%Z then mret z else undefined.
(** [static_cast<int>(n)] of a [size_t]. *)
Definition to_int (z : Z) : Z := ((z + 2 ^ 31) mod 2 ^ 32 - 2 ^ 31)%Z.

(** The index normalisation of [LRANGE] and [ZRANGE]; [None] when the reply is
    the empty array. *)
Definition range_bounds {S} (start stop size : Z) : comp S (option (Z * Z)) :=
  start ← (if (start <? 0)%Z then int_arith (size + start) else mret start);
  stop ← (if (stop <? 0)%Z then int_arith (size + stop) else mret stop);
  let start := if (start <? 0)%Z then 0%Z else start in
  let stop := if (stop <? 0)%Z then 0%Z else stop in
  if (size <=? start)%Z then mret None else
  let stop := if (size <=? stop)%Z then (size - 1)%Z else stop in
  if (stop <? start)%Z then mret None else mret (Some (start, stop)).
