(* ===== verification/Exec.v ===== *)
(** * Running commands on the core that owns the key

    The bridge between the command bodies and the abstract database: running
    states are the initial world with one shard replaced and the clock advanced
    ([at_shard]); [refines] says that a command behaves as a function of the
    value visible at its key. *)
From S2P Require Import Prelude CxxString Double Containers Value Store HashMap Shard Router Topology Command.
From Stdlib Require Import ZArith Lia.
From stdpp Require Import prelude gmap strings list_numbers.

(** The world [w] after core [c]'s shard became [sh] and the clock was read [n]
    times. *)
Definition at_shard (w : World) (c : nat) (sh : Shard HashMap) (n : nat) : World :=
  mkWorld (set_shards (topo w) (<[c := sh]> (shards_ (topo w))))
    (clock w) (ticks w + n) (eventfds w) (files w) (wakes w).

(** What a command does to its key: nothing beyond lazy expiry, or a write that
    keeps the expiry of a live key. *)
Inductive action := Keep | Write (v : Value).

Definition apply_action (t : Z) (k : string) (a : action) (d : db) : db :=
  match a with
  | Keep => purge t k d
  | Write v => <[k := (v, purge t k d !! k ≫= snd)]> (purge t k d)
  end.

Section running.
Context `{StdHash} (w : World) (c : nat).
Hypothesis Hc : c < length (shards_ (topo w)).
Implicit Types (sh : Shard HashMap) (k : string) (v : Value) (n p : nat).

Lemma at_shard_lookup sh n : shards_ (topo (at_shard w c sh n)) !! c = Some sh.
Proof. simpl. by apply list_lookup_insert_eq. Qed.

Lemma at_shard_put sh sh' n :
  put_shard c sh' (at_shard w c sh n) = (Ok tt, at_shard w c sh' n).
Proof.
  unfold put_shard, modify, at_shard, set_topo, set_shards; simpl.
  by rewrite list_insert_insert_eq.
Qed.

Lemma at_shard_id sh : shards_ (topo w) !! c = Some sh → at_shard w c sh 0 = w.
Proof.
  intros E. unfold at_shard, set_shards. rewrite list_insert_id by done.
  rewrite Nat.add_0_r. by destruct w as [[] ? ? ? ?].
Qed.

Lemma run_get_shard sh n : get_shard c (at_shard w c sh n) = (Ok sh, at_shard w c sh n).
Proof. unfold get_shard. by rewrite at_shard_lookup. Qed.

Lemma run_now sh n :
  now (at_shard w c sh n) = (Ok (clock w (ticks w + n)), at_shard w c sh (S n)).
Proof. unfold now, at_shard; simpl. by rewrite Nat.add_succ_r. Qed.

Lemma run_shard_get sh n k :
  shard_get c k (at_shard w c sh n) =
  (Ok (Shard.get (clock w (ticks w + n)) sh k).2,
   at_shard w c (Shard.get (clock w (ticks w + n)) sh k).1 (S n)).
Proof.
  unfold shard_get. erewrite bind_ok by apply run_get_shard.
  erewrite bind_ok by apply run_now.
  destruct (Shard.get _ sh k) as [sh' p]. simpl.
  erewrite bind_ok by apply at_shard_put. done.
Qed.

Lemma run_shard_set sh n k v :
  shard_set c k v (at_shard w c sh n) =
  match Shard.set sh k v with
  | Ok sh' => (Ok tt, at_shard w c sh' n)
  | Throw e => (Throw e, at_shard w c sh n)
  | Undefined => (Undefined, at_shard w c sh n)
  end.
Proof.
  unfold shard_set. erewrite bind_ok by apply run_get_shard.
  unfold mbind, comp_bind, lift. destruct (Shard.set sh k v); [|done..]. apply at_shard_put.
Qed.

Lemma run_shard_del sh n k :
  shard_del c k (at_shard w c sh n) =
  (Ok (Shard.del sh k).2, at_shard w c (Shard.del sh k).1 n).
Proof.
  unfold shard_del. erewrite bind_ok by apply run_get_shard.
  destruct (Shard.del sh k) as [sh' b]. simpl. erewrite bind_ok by apply at_shard_put. done.
Qed.

Lemma run_set_expiry sh n k t :
  shard_set_expiry c k t (at_shard w c sh n) =
  (Ok tt, at_shard w c (Shard.set_expiry sh k t) n).
Proof.
  unfold shard_set_expiry. erewrite bind_ok by apply run_get_shard. apply at_shard_put.
Qed.

Lemma run_get_expiry sh n k :
  shard_get_expiry c k (at_shard w c sh n) = (Ok (Shard.get_expiry sh k), at_shard w c sh n).
Proof. unfold shard_get_expiry. by erewrite bind_ok by apply run_get_shard. Qed.

Lemma run_load sh n p :
  load c (Some p) (at_shard w c sh n) = (Ok (Shard.deref sh p), at_shard w c sh n).
Proof. unfold load. by erewrite bind_ok by apply run_get_shard. Qed.

Lemma run_store sh n p v :
  store c (Some p) v (at_shard w c sh n) = (Ok tt, at_shard w c (Shard.assign sh p v) n).
Proof. unfold store. erewrite bind_ok by apply run_get_shard. apply at_shard_put. Qed.

Lemma run_get_if ty sh n p :
  get_if ty c (Some p) (at_shard w c sh n) =
  (Ok (if decide (get_type (Shard.deref sh p) = ty) then Some p else None), at_shard w c sh n).
Proof. unfold get_if. by erewrite bind_ok by apply run_load. Qed.

(** ** A pointer to the value of a key *)

(** [p] points to the value [v] of [k] in [sh], a shard that is the database [d]
    with [k] bound to [v] and expiry [x]. *)
Record points (d : db) (x : option Z) (k : string) (p : nat) (v : Value) sh : Prop := {
  pt_wf : shard_wf sh;
  pt_get : s_get (data_store sh) k = Some p;
  pt_val : Shard.deref sh p = v;
  pt_exp : expires sh !! k = x;
  pt_db : shard_db sh = <[k := (v, x)]> d
}.

Lemma points_store d x k p v v' sh :
  points d x k p v sh → value_wf v' → points d x k p v' (Shard.assign sh p v').
Proof.
  intros [Hwf Hg Hv Hx Hd] Hv'.
  destruct (Shard.assign_spec sh k p v' Hwf Hv' Hg) as (? & Hdb & ? & ?).
  split; [done..|]. rewrite Hdb, Hd, Hx. by rewrite insert_insert_eq.
Qed.

Lemma points_value_wf d x k p v sh : points d x k p v sh → value_wf v.
Proof.
  intros [Hwf Hg Hv Hx Hd].
  apply (shard_db_values sh k (v, x) Hwf). by rewrite Hd, lookup_insert_eq.
Qed.

(** A loop that reads and rewrites the value through the pointer computes the
    fold of the pure step [f]. *)
Lemma run_fold {A B} (g : B → A → prog B) (f : B → A → Value → Value * B)
    (I : Value → Prop) d x k p (l : list A) :
  (∀ b a v sh n, I v → points d x k p v sh →
     g b a (at_shard w c sh n) =
       (Ok (f b a v).2, at_shard w c (Shard.assign sh p (f b a v).1) n) ∧
     value_wf (f b a v).1 ∧ I (f b a v).1) →
  ∀ b v sh n, I v → points d x k p v sh →
  let r := fold_left (λ r a, f r.2 a r.1) l (v, b) in
  ∃ sh', foldM g b l (at_shard w c sh n) = (Ok r.2, at_shard w c sh' n) ∧
    points d x k p r.1 sh' ∧ I r.1.
Proof.
  intros Hg. induction l as [|a l IH]; intros b v sh n HI Hp; simpl; [eauto|].
  destruct (Hg b a v sh n HI Hp) as (E & Hwf & HI').
  erewrite bind_ok by apply E.
  destruct (IH (f b a v).2 (f b a v).1 (Shard.assign sh p (f b a v).1) n HI') as (sh' & E' & Hp');
    [by eapply points_store|].
  exists sh'. rewrite E'. destruct (f b a v); simpl in *. done.
Qed.

(** ** The two openings *)

Lemma shard_get_visible t sh k v :
  shard_wf sh → visible t k (shard_db sh) = Some v →
  ∃ p x, Shard.get t sh k = (sh, Some p) ∧ shard_db sh !! k = Some (v, x) ∧
    points (shard_db sh) x k p v sh.
Proof.
  intros Hwf Hv. pose proof (Shard.get_spec t sh k Hwf) as (_ & _ & Hp & Hd).
  assert ((Shard.get t sh k).1 = sh) as E1.
  { unfold visible in Hv. rewrite shard_db_lookup in Hv. unfold Shard.get.
    destruct (expires sh !! k) as [e|], (s_view (data_store sh) !! k); try done.
    simpl in Hv. unfold is_expired in Hv; simpl in Hv. by destruct (e <? t)%Z. }
  rewrite E1 in *. rewrite Hv in Hd.
  destruct (Shard.get t sh k) as [sh' [p|]]; simpl in *; subst sh'; [|done].
  injection Hd as Hd. unfold visible in Hv.
  destruct (shard_db sh !! k) as [[v' x]|] eqn:E; [|done].
  destruct (is_expired t (v', x)); [done|]. injection Hv as Hv; simpl in Hv; subst v'.
  exists p, x. split_and!; [done..|]. split; [done|done|done| |by rewrite insert_id].
  rewrite shard_db_lookup in E. destruct (s_view _ !! k); [|done]. by injection E.
Qed.

Lemma shard_get_hidden t sh k :
  shard_wf sh → visible t k (shard_db sh) = None →
  ∃ sh', Shard.get t sh k = (sh', None) ∧ shard_wf sh' ∧
    shard_db sh' = purge t k (shard_db sh).
Proof.
  intros Hwf Hv. pose proof (Shard.get_spec t sh k Hwf) as (Hw & Hdb & Hp & Hd).
  destruct (Shard.get t sh k) as [sh' p]; simpl in *. exists sh'.
  rewrite Hv in Hd. destruct p; [done|]. done.
Qed.

Section openings.
Context (sh : Shard HashMap) (n : nat) (k : string) (ty : ValueType).
Hypothesis Hwf : shard_wf sh.
Let t := clock w (ticks w + n).

Lemma run_find_existing_none missing body :
  visible t k (shard_db sh) = None →
  ∃ sh', find_existing c k ty missing body (at_shard w c sh n) =
      (Ok missing, at_shard w c sh' (S n)) ∧
    shard_wf sh' ∧ shard_db sh' = purge t k (shard_db sh).
Proof.
  intros Hv. destruct (shard_get_hidden t sh k Hwf Hv) as (sh' & E & ? & ?).
  exists sh'. split_and!; [|done..]. unfold find_existing.
  erewrite bind_ok by apply run_shard_get. fold t. by rewrite E.
Qed.

Lemma run_find_existing_wrong missing body v :
  visible t k (shard_db sh) = Some v → get_type v ≠ ty →
  find_existing c k ty missing body (at_shard w c sh n) =
    (Ok err_wrongtype, at_shard w c sh (S n)).
Proof.
  intros Hv Hty. destruct (shard_get_visible t sh k v Hwf Hv) as (p & x & E & _ & Hp).
  unfold find_existing. erewrite bind_ok by apply run_shard_get. fold t. rewrite E. simpl.
  erewrite bind_ok by apply run_get_if. rewrite (pt_val _ _ _ _ _ _ Hp).
  by rewrite decide_False.
Qed.

Lemma run_find_existing missing body v :
  visible t k (shard_db sh) = Some v → get_type v = ty →
  ∃ p x, find_existing c k ty missing body (at_shard w c sh n) =
      body (Some p) (at_shard w c sh (S n)) ∧
    shard_db sh !! k = Some (v, x) ∧ points (shard_db sh) x k p v sh.
Proof.
  intros Hv Hty. destruct (shard_get_visible t sh k v Hwf Hv) as (p & x & E & ? & Hp).
  exists p, x. split_and!; [|done..].
  unfold find_existing. erewrite bind_ok by apply run_shard_get. fold t. rewrite E. simpl.
  erewrite bind_ok by apply run_get_if. rewrite (pt_val _ _ _ _ _ _ Hp).
  by rewrite decide_True.
Qed.

Lemma run_find_or_create_wrong fresh body v :
  visible t k (shard_db sh) = Some v → get_type v ≠ ty →
  find_or_create c k ty fresh body (at_shard w c sh n) =
    (Ok err_wrongtype, at_shard w c sh (S n)).
Proof.
  intros Hv Hty. destruct (shard_get_visible t sh k v Hwf Hv) as (p & x & E & _ & Hp).
  unfold find_or_create. erewrite bind_ok by apply run_shard_get. fold t. rewrite E. simpl.
  erewrite bind_ok by apply run_get_if. rewrite (pt_val _ _ _ _ _ _ Hp).
  by rewrite decide_False.
Qed.

Lemma run_find_or_create_some fresh body v :
  visible t k (shard_db sh) = Some v → get_type v = ty →
  ∃ p x, find_or_create c k ty fresh body (at_shard w c sh n) =
      body (Some p) (at_shard w c sh (S n)) ∧
    shard_db sh !! k = Some (v, x) ∧ points (shard_db sh) x k p v sh.
Proof.
  intros Hv Hty. destruct (shard_get_visible t sh k v Hwf Hv) as (p & x & E & ? & Hp).
  exists p, x. split_and!; [|done..].
  unfold find_or_create. erewrite bind_ok by apply run_shard_get. fold t. rewrite E. simpl.
  erewrite bind_ok by apply run_get_if. rewrite (pt_val _ _ _ _ _ _ Hp).
  by rewrite decide_True.
Qed.

(** A missing key is created, and the second [get] always finds it: whatever
    the clock reads, the pointer handed to [body] is not null. *)
Lemma run_find_or_create_none fresh body :
  visible t k (shard_db sh) = None → value_wf fresh → get_type fresh = ty →
  (∃ sh' p, find_or_create c k ty fresh body (at_shard w c sh n) =
      body (Some p) (at_shard w c sh' (S (S n))) ∧
    points (purge t k (shard_db sh)) None k p fresh sh') ∨
  (∃ sh', find_or_create c k ty fresh body (at_shard w c sh n) =
      (Throw (runtime_error "HashMap is full"), at_shard w c sh' (S n)) ∧
    shard_wf sh' ∧ shard_db sh' = purge t k (shard_db sh) ∧ full (data_store sh')).
Proof.
  intros Hv Hf Hty. destruct (shard_get_hidden t sh k Hwf Hv) as (sh1 & E1 & Hw1 & Hd1).
  unfold find_or_create. erewrite bind_ok by apply run_shard_get. fold t. rewrite E1. simpl.
  pose proof (Shard.set_spec sh1 k fresh Hw1 Hf) as Hset.
  pose proof (run_shard_set sh1 (S n) k fresh) as Hrun.
  destruct (Shard.set sh1 k fresh) as [sh2|e|]; [left|right|done].
  - destruct Hset as [Hw2 Hd2]. erewrite bind_ok by apply Hrun.
    set (t2 := clock w (ticks w + S n)).
    assert (visible t2 k (shard_db sh2) = Some fresh) as Hv2.
    { unfold visible. rewrite Hd2, lookup_insert_eq. done. }
    destruct (shard_get_visible t2 sh2 k fresh Hw2 Hv2) as (p & x & E2 & Hx & Hp).
    rewrite Hd2, lookup_insert_eq in Hx. injection Hx as <-.
    exists sh2, p. split.
    + erewrite bind_ok by apply run_shard_get. fold t2. rewrite E2. simpl.
      erewrite bind_ok by apply run_get_if. rewrite (pt_val _ _ _ _ _ _ Hp).
      by rewrite decide_True.
    + destruct Hp as [? ? ? ? Hdb]. split; [done..|]. by rewrite Hd2, Hd1.
  - destruct Hset as (-> & Hfull & _). erewrite bind_throw by apply Hrun.
    exists sh1. done.
Qed.

End openings.
End running.

(** ** Refinement of a function of the visible value *)

(** Run on the owner's shard at the time the clock shows, [e] replies and
    updates the database as [spec] says of the visible value; or, only when the
    key has no visible value and is to be written, it throws because no slot is
    left. *)
Definition refines_when `{StdHash} (P : option Value → Prop) (e : prog string)
    (spec : option Value → string * action) (w : World) (c : nat) (k : string) : Prop :=
  ∀ sh, shards_ (topo w) !! c = Some sh → shard_wf sh →
  let t := clock w (ticks w) in
  let o := visible t k (shard_db sh) in
  P o →
  ∃ sh' n, shard_wf sh' ∧
  ((e w = (Ok (spec o).1, at_shard w c sh' n) ∧
    shard_db sh' = apply_action t k (spec o).2 (shard_db sh)) ∨
   (e w = (Throw (runtime_error "HashMap is full"), at_shard w c sh' n) ∧
    o = None ∧ (spec o).2 ≠ Keep ∧ full (data_store sh') ∧
    shard_db sh' = purge t k (shard_db sh))).

(** The same with no condition on the visible value. *)
Definition refines `{StdHash} := refines_when (λ _, True).

(** Specification by type: [f] on a value of type [ty]. *)
Definition on_type (ty : ValueType) (missing : string * action)
    (f : Value → string * action) (o : option Value) : string * action :=
  match o with
  | None => missing
  | Some v => if decide (get_type v = ty) then f v else (err_wrongtype, Keep)
  end.

(** Commands that answer [missing] for an absent key, and commands that create
    it as [fresh]. *)
Definition result (v : Value) (a : action) : Value :=
  match a with Keep => v | Write v' => v' end.

Definition existing (ty : ValueType) (missing : string)
    (f : Value → string * action) : option Value → string * action :=
  on_type ty (missing, Keep) f.

Definition creating (ty : ValueType) (fresh : Value)
    (f : Value → string * action) : option Value → string * action :=
  on_type ty ((f fresh).1, Write (result fresh (f fresh).2)) f.

Section refinement.
Context `{StdHash} (w : World) (c : nat) (k : string).

(** What a body must do with a pointer to a value of the right type. *)
Definition body_spec (P : option Value → Prop) (ty : ValueType)
    (body : option nat → prog string) (f : Value → string * action) : Prop :=
  ∀ v d x p sh n, c < length (shards_ (topo w)) → P (Some v) → get_type v = ty →
  points d x k p v sh →
  ∃ sh', body (Some p) (at_shard w c sh n) = (Ok (f v).1, at_shard w c sh' n) ∧
    points d x k p (result v (f v).2) sh'.

Lemma apply_action_live t v x a d :
  visible t k d = Some v → d !! k = Some (v, x) →
  <[k := (result v a, x)]> d = apply_action t k a d.
Proof.
  intros Hv Hd. unfold apply_action. rewrite (purge_live t k d v Hv).
  destruct a; simpl; [by rewrite insert_id|by rewrite Hd].
Qed.

Lemma purge_hidden t d : visible t k d = None → purge t k d !! k = None.
Proof.
  intros Hv. rewrite <- visible_purge in Hv. by destruct (purge t k d !! k).
Qed.

Lemma refines_find_existing P ty missing body f :
  body_spec P ty body f →
  refines_when P (find_existing c k ty missing body) (existing ty missing f) w c k.
Proof.
  intros Hb sh Hsh Hwf t o HP. pose proof (lookup_lt_Some _ _ _ Hsh) as Hc.
  replace (find_existing c k ty missing body w)
    with (find_existing c k ty missing body (at_shard w c sh 0))
    by (by rewrite (at_shard_id w c Hc sh Hsh)).
  assert (t = clock w (ticks w + 0)) as Ht by (unfold t; by rewrite Nat.add_0_r).
  destruct o as [v|] eqn:Ho; unfold o in *; simpl.
  - destruct (decide (get_type v = ty)) as [Hty|Hty].
    + rewrite Ht in Ho. destruct (run_find_existing w c Hc sh 0 k ty Hwf missing body v Ho Hty)
        as (p & x & E & Hx & Hp).
      destruct (Hb v _ _ _ _ 1 Hc HP Hty Hp) as (sh' & E' & Hp').
      exists sh', 1. split; [apply Hp'|left]. split; [by rewrite E|].
      rewrite (pt_db _ _ _ _ _ _ Hp'). by apply apply_action_live; [rewrite Ht|].
    + rewrite Ht in Ho. exists sh, 1. split; [done|left]. split.
      * by rewrite (run_find_existing_wrong w c Hc sh 0 k ty Hwf missing body v Ho Hty).
      * simpl. by rewrite Ht, (purge_live _ _ _ _ Ho).
  - rewrite Ht in Ho |- *.
    destruct (run_find_existing_none w c Hc sh 0 k ty Hwf missing body Ho) as (sh' & E & ? & ?).
    exists sh', 1. split; [done|left]. by rewrite E.
Qed.

Lemma refines_find_or_create P ty fresh body f :
  body_spec P ty body f → value_wf fresh → get_type fresh = ty → P (Some fresh) →
  refines_when P (find_or_create c k ty fresh body) (creating ty fresh f) w c k.
Proof.
  intros Hb Hf Hfty HPf sh Hsh Hwf t o HP. pose proof (lookup_lt_Some _ _ _ Hsh) as Hc.
  replace (find_or_create c k ty fresh body w)
    with (find_or_create c k ty fresh body (at_shard w c sh 0))
    by (by rewrite (at_shard_id w c Hc sh Hsh)).
  assert (t = clock w (ticks w + 0)) as Ht by (unfold t; by rewrite Nat.add_0_r).
  destruct o as [v|] eqn:Ho; unfold o in *; rewrite Ht in Ho; simpl.
  - destruct (decide (get_type v = ty)) as [Hty|Hty].
    + destruct (run_find_or_create_some w c Hc sh 0 k ty Hwf fresh body v Ho Hty)
        as (p & x & E & Hx & Hp).
      destruct (Hb v _ _ _ _ 1 Hc HP Hty Hp) as (sh' & E' & Hp').
      exists sh', 1. split; [apply Hp'|left]. split; [by rewrite E|].
      rewrite (pt_db _ _ _ _ _ _ Hp'). by apply apply_action_live; [rewrite Ht|].
    + exists sh, 1. split; [done|left]. split.
      * by rewrite (run_find_or_create_wrong w c Hc sh 0 k ty Hwf fresh body v Ho Hty).
      * simpl. by rewrite Ht, (purge_live _ _ _ _ Ho).
  - rewrite Ht.
    destruct (run_find_or_create_none w c Hc sh 0 k ty Hwf fresh body Ho Hf Hfty)
      as [(sh1 & p & E & Hp)|(sh1 & E & ? & ? & ?)].
    + destruct (Hb fresh _ _ _ _ 2 Hc HPf Hfty Hp) as (sh' & E' & Hp').
      exists sh', 2. split; [apply Hp'|left]. split; [by rewrite E|].
      rewrite (pt_db _ _ _ _ _ _ Hp'). simpl. by rewrite purge_hidden.
    + exists sh1, 1. split; [done|right]. by rewrite E.
Qed.

(** A command whose key is local runs its body. *)
Lemma if_local_owner conn_id args body :
  get_target_core (topo w) (args !!! 1) = c → if_local c conn_id args body w = body w.
Proof.
  intros Hk. unfold if_local. rewrite bind_gets.
  by rewrite (proj2 (is_local_spec _ _ _) Hk).
Qed.

Lemma refines_if_local P conn_id args body spec :
  get_target_core (topo w) (args !!! 1) = c →
  refines_when P body spec w c k →
  refines_when P (if_local c conn_id args body) spec w c k.
Proof.
  intros Hk Hr sh Hsh Hwf t o. rewrite (if_local_owner conn_id args body Hk).
  by apply Hr.
Qed.

(** Reading through a typed pointer. *)
Section typed_loads.
Context (Hc : c < length (shards_ (topo w))) (d : db) (x : option Z) (p : nat).

Lemma run_load_list l sh n :
  points d x k p (VList l) sh →
  load_list c (Some p) (at_shard w c sh n) = (Ok l, at_shard w c sh n).
Proof.
  intros Hp. unfold load_list. erewrite bind_ok by by apply run_load.
  by rewrite (pt_val _ _ _ _ _ _ Hp).
Qed.
Lemma run_load_set s sh n :
  points d x k p (VSet s) sh →
  load_set c (Some p) (at_shard w c sh n) = (Ok s, at_shard w c sh n).
Proof.
  intros Hp. unfold load_set. erewrite bind_ok by by apply run_load.
  by rewrite (pt_val _ _ _ _ _ _ Hp).
Qed.
Lemma run_load_hash h sh n :
  points d x k p (VHash h) sh →
  load_hash c (Some p) (at_shard w c sh n) = (Ok h, at_shard w c sh n).
Proof.
  intros Hp. unfold load_hash. erewrite bind_ok by by apply run_load.
  by rewrite (pt_val _ _ _ _ _ _ Hp).
Qed.
Lemma run_load_zset z sh n :
  points d x k p (VZSet z) sh →
  load_zset c (Some p) (at_shard w c sh n) = (Ok z, at_shard w c sh n).
Proof.
  intros Hp. unfold load_zset. erewrite bind_ok by by apply run_load.
  by rewrite (pt_val _ _ _ _ _ _ Hp).
Qed.
End typed_loads.

(** A value of a given type is built by its constructor. *)
Lemma type_list v : get_type v = LIST → ∃ l, v = VList l.
Proof. destruct v; naive_solver. Qed.
Lemma type_set v : get_type v = SET → ∃ s, v = VSet s.
Proof. destruct v; naive_solver. Qed.
Lemma type_hash v : get_type v = HASH → ∃ h, v = VHash h.
Proof. destruct v; naive_solver. Qed.
Lemma type_zset v : get_type v = ZSET → ∃ z, v = VZSet z.
Proof. destruct v; naive_solver. Qed.

End refinement.
