(* ===== verification/Ranges.v ===== *)
(** * Index ranges: the reading of [LRANGE] and [ZRANGE] as slices

    The two commands normalise their indices with the same code; the slice they
    mean is defined here and [range_bounds_ok] relates the two. *)
From S2P Require Import Prelude CxxString Value Command.
From Stdlib Require Import ZArith Lia.
From stdpp Require Import prelude strings list_numbers.

(** An array reply of bulk strings. *)
Definition array_reply (xs : list string) : string :=
  fold_left (λ resp x, resp +:+ bulk x) xs (array_header (Z.of_nat (length xs))).

(** A possibly negative index counted from the end, clamped at zero. *)
Definition norm_index (n i : Z) : Z := if (i <? 0)%Z then Z.max 0 (n + i) else i.

(** The elements from index [i] to index [j], both included. *)
Definition slice {A} (l : list A) (i j : Z) : list A :=
  let n := Z.of_nat (length l) in
  let start := norm_index n i in
  let stop := Z.min (n - 1) (norm_index n j) in
  take (Z.to_nat (stop - start + 1)) (drop (Z.to_nat start) l).

(** ** Range arithmetic *)

Section ranges.
Context {S : Type} (s : S).

Lemma to_int_small z : (0 ≤ z ≤ int_max)%Z → to_int z = z.
Proof. intros. unfold to_int, int_max in *. rewrite Z.mod_small; lia. Qed.

Lemma int_arith_ok z : (int_min ≤ z ≤ int_max)%Z → int_arith z s = (Ok z, s).
Proof.
  intros. unfold int_arith.
  by rewrite (proj2 (Z.leb_le _ _)), (proj2 (Z.leb_le _ _)) by lia.
Qed.

(** Within [int], the normalisation never overflows and gives the bounds of the
    slice, or nothing when the slice is empty. *)
Lemma range_bounds_ok (i j n : Z) :
  (int_min ≤ i ≤ int_max)%Z → (int_min ≤ j ≤ int_max)%Z → (0 ≤ n ≤ int_max)%Z →
  let start := norm_index n i in
  let stop := Z.min (n - 1) (norm_index n j) in
  range_bounds i j n s =
    (Ok (if (start <=? stop)%Z then Some (start, stop) else None), s).
Proof.
  intros Hi Hj Hn start stop. unfold range_bounds.
  assert (∀ z, (int_min ≤ z ≤ int_max)%Z →
    (if (z <? 0)%Z then int_arith (n + z) else mret z) s =
    (Ok (if (z <? 0)%Z then n + z else z)%Z, s)) as Hnorm.
  { intros z Hz. destruct (Z.ltb_spec z 0); [|done]. apply int_arith_ok.
    unfold int_min, int_max in *. lia. }
  erewrite bind_ok by by apply Hnorm. erewrite bind_ok by by apply Hnorm.
  assert (∀ z, (if (if (z <? 0)%Z then n + z else z) <? 0 then 0
                else (if z <? 0 then n + z else z))%Z = norm_index n z) as Hidx.
  { intros z. unfold norm_index. destruct (Z.ltb_spec z 0);
      [destruct (Z.ltb_spec (n + z) 0)|destruct (Z.ltb_spec z 0)]; lia. }
  rewrite !Hidx. fold start.
  assert (0 ≤ start)%Z by (unfold start, norm_index; case_match; lia).
  destruct (Z.leb_spec n start).
  { rewrite (proj2 (Z.leb_gt start stop)) by lia. done. }
  replace (if (n <=? norm_index n j)%Z then (n - 1)%Z else norm_index n j) with stop
    by (unfold stop; destruct (Z.leb_spec n (norm_index n j)); lia).
  destruct (Z.ltb_spec stop start), (Z.leb_spec start stop); try lia; done.
Qed.
End ranges.

Lemma slice_empty {A} (l : list A) i j :
  (Z.min (Z.of_nat (length l) - 1) (norm_index (Z.of_nat (length l)) j)
   < norm_index (Z.of_nat (length l)) i)%Z → slice l i j = [].
Proof.
  intros. unfold slice. match goal with |- take ?n _ = _ => replace n with 0 by lia end. done.
Qed.

Lemma take_drop_length {A} (l : list A) (start stop : Z) :
  (0 ≤ start ≤ stop)%Z → (stop < Z.of_nat (length l))%Z →
  Z.of_nat (length (take (Z.to_nat (stop - start + 1)) (drop (Z.to_nat start) l)))
  = (stop - start + 1)%Z.
Proof. intros. rewrite length_take, length_drop. lia. Qed.

