(* ===== verification/Wire.v ===== *)
(** * Replies as values, and how a client reads them

    [resp] is the type of the replies of the protocol, [render] their bytes.
    [read_reply] reads one reply off a stream, as a client has to: a line, then
    what the line announces.  [render_read] is the round trip: the replies are
    self-delimiting, so that a client finds the next reply behind each one. *)
From S2P Require Import Prelude CxxString Command Ranges.
From Stdlib Require Import ZArith Ascii Lia.
From stdpp Require Import prelude strings list_numbers.

(** The arrays of this server hold bulk strings only. *)
Inductive resp :=
  | RSimple (s : string)
  | RError (s : string)
  | RInt (z : Z)
  | RNil
  | RBulk (s : string)
  | RArray (l : list string).

#[export] Instance resp_eq_dec : EqDecision resp.
Proof. solve_decision. Defined.

Definition render (r : resp) : string :=
  match r with
  | RSimple s => "+" +:+ s +:+ crlf
  | RError s => "-" +:+ s +:+ crlf
  | RInt z => integer z
  | RNil => nil_reply
  | RBulk s => bulk s
  | RArray l => array_reply l
  end.

(** A line of text must not contain the byte that ends it. *)
Definition resp_wf (r : resp) : bool :=
  match r with
  | RSimple s | RError s => bool_decide (cr ∉ bytes_of_string s)
  | _ => true
  end.

(** ** Reading *)

(** The bytes before the first CR LF and those after it. *)
Fixpoint read_line (b : bytes) : option (bytes * bytes) :=
  match b with
  | [] => None
  | c :: rest =>
      match rest with
      | d :: rest' =>
          if bool_decide (c = cr) && bool_decide (d = lf) then Some ([], rest')
          else prod_map (cons c) id <$> read_line rest
      | [] => None
      end
  end.

(** [n] bytes and the CR LF behind them. *)
Definition read_bulk (n : nat) (b : bytes) : option (string * bytes) :=
  if length b <? n + 2 then None else
  if bool_decide (take 2 (drop n b) = [cr; lf])
  then Some (string_of_bytes (take n b), drop (n + 2) b) else None.

Fixpoint read_bulks (n : nat) (b : bytes) : option (list string * bytes) :=
  match n with
  | O => Some ([], b)
  | S n =>
      '(line, b) ← read_line b;
      match line with
      | "$"%char :: num =>
          len ← strtol num;
          if (len <? 0)%Z then None else
          '(s, b) ← read_bulk (Z.to_nat len) b;
          '(l, b) ← read_bulks n b;
          Some (s :: l, b)
      | _ => None
      end
  end.

Definition read_reply (b : bytes) : option (resp * bytes) :=
  '(line, b) ← read_line b;
  match line with
  | "+"%char :: s => Some (RSimple (string_of_bytes s), b)
  | "-"%char :: s => Some (RError (string_of_bytes s), b)
  | ":"%char :: num => z ← strtol num; Some (RInt z, b)
  | "$"%char :: num =>
      len ← strtol num;
      if (len =? -1)%Z then Some (RNil, b) else
      if (len <? 0)%Z then None else
      '(s, b) ← read_bulk (Z.to_nat len) b; Some (RBulk s, b)
  | "*"%char :: num =>
      len ← strtol num;
      if (len <? 0)%Z then None else
      '(l, b) ← read_bulks (Z.to_nat len) b; Some (RArray l, b)
  | _ => None
  end.

(** ** The round trip *)

Lemma read_line_cons c d b :
  read_line (c :: d :: b) =
  if bool_decide (c = cr) && bool_decide (d = lf) then Some ([], b)
  else prod_map (cons c) id <$> read_line (d :: b).
Proof. done. Qed.

Lemma read_line_spec line rest :
  cr ∉ line → read_line (line ++ cr :: lf :: rest) = Some (line, rest).
Proof.
  induction line as [|c line IH]; intros Hc; [done|].
  apply not_elem_of_cons in Hc as [Hne Hc]. specialize (IH Hc). rewrite <- app_comm_cons.
  destruct (line ++ cr :: lf :: rest) as [|d r] eqn:E; [by destruct line|].
  rewrite read_line_cons, bool_decide_eq_false_2 by congruence. cbn [andb]. by rewrite IH.
Qed.

Lemma read_bulk_spec s rest :
  read_bulk (String.length s) (bytes_of_string s ++ cr :: lf :: rest) = Some (s, rest).
Proof.
  unfold read_bulk. rewrite <- length_bytes_of_string, length_app. simpl.
  rewrite (proj2 (Nat.ltb_ge _ _)) by lia. rewrite drop_app_length. cbn [take].
  rewrite bool_decide_eq_true_2 by done. rewrite take_app_length, string_of_bytes_of_string.
  by rewrite <- drop_drop, drop_app_length.
Qed.

(** The bytes of what the replies are made of. *)
Lemma header_bytes c z :
  bytes_of_string (String c EmptyString +:+ to_string z +:+ crlf) = c :: to_bytes z ++ [cr; lf].
Proof.
  rewrite !bytes_of_string_app. unfold to_string. by rewrite bytes_of_string_of_bytes.
Qed.

Lemma bulk_bytes s :
  bytes_of_string (bulk s) =
  ("$"%char :: to_bytes (str_size s) ++ [cr; lf]) ++ bytes_of_string s ++ [cr; lf].
Proof.
  unfold bulk, to_string. simpl. rewrite !bytes_of_string_app, bytes_of_string_of_bytes.
  by rewrite <- app_assoc.
Qed.

Definition bulks (l : list string) : bytes := concat (map (λ s, bytes_of_string (bulk s)) l).

Lemma array_bytes l :
  bytes_of_string (array_reply l) =
  ("*"%char :: to_bytes (Z.of_nat (length l)) ++ [cr; lf]) ++ bulks l.
Proof.
  unfold array_reply. rewrite <- (header_bytes "*"). unfold array_header.
  generalize ("*" +:+ to_string (Z.of_nat (length l)) +:+ crlf).
  induction l as [|x l IH]; intros h; simpl; [by rewrite app_nil_r|].
  by rewrite IH, bytes_of_string_app, <- app_assoc.
Qed.

Lemma read_header c z rest :
  c ≠ cr → read_line ((c :: to_bytes z ++ [cr; lf]) ++ rest) = Some (c :: to_bytes z, rest).
Proof.
  intros Hc. rewrite <- app_comm_cons, <- app_assoc. apply (read_line_spec (c :: to_bytes z)).
  apply not_elem_of_cons. split; [done|apply to_bytes_no_cr].
Qed.

Lemma strtol_number z : strtol (to_bytes z) = Some z.
Proof. rewrite <- (app_nil_r (to_bytes z)). by apply strtol_to_bytes. Qed.

Lemma str_size_nat s : Z.to_nat (str_size s) = String.length s.
Proof. unfold str_size. lia. Qed.
Lemma read_bulks_spec l rest :
  read_bulks (length l) (bulks l ++ rest) = Some (l, rest).
Proof.
  induction l as [|s l IH]; cbn [length read_bulks]; [done|].
  change (bulks (s :: l)) with (bytes_of_string (bulk s) ++ bulks l). rewrite bulk_bytes, <- !app_assoc, read_header by done. cbn [mbind option_bind].
  rewrite strtol_number. cbn [mbind option_bind].
  rewrite (proj2 (Z.ltb_ge _ _)) by apply str_size_nonneg.
  rewrite str_size_nat. cbn [app]. rewrite read_bulk_spec. cbn [mbind option_bind]. by rewrite IH.
Qed.

Lemma text_line c s rest :
  c ≠ cr → cr ∉ bytes_of_string s →
  read_line (bytes_of_string (String c EmptyString +:+ s +:+ crlf) ++ rest) = Some (c :: bytes_of_string s, rest).
Proof.
  intros Hc Hs. change (String c EmptyString +:+ s +:+ crlf) with (String c (s +:+ crlf)).
  cbn [bytes_of_string app]. rewrite bytes_of_string_app, <- app_assoc.
  apply (read_line_spec (c :: bytes_of_string s)). by apply not_elem_of_cons.
Qed.

(** What a reply renders to is read back, and the rest of the stream is left. *)
Lemma render_read r rest :
  resp_wf r = true → read_reply (bytes_of_string (render r) ++ rest) = Some (r, rest).
Proof.
  unfold read_reply. destruct r as [s|s|z| |s|l]; cbn [render resp_wf]; intros Hwf.
  - apply bool_decide_eq_true in Hwf. rewrite (text_line "+") by done. cbn [mbind option_bind].
    by rewrite string_of_bytes_of_string.
  - apply bool_decide_eq_true in Hwf. rewrite (text_line "-") by done. cbn [mbind option_bind].
    by rewrite string_of_bytes_of_string.
  - unfold integer. rewrite (header_bytes ":"), read_header by done. cbn [mbind option_bind].
    by rewrite strtol_number.
  - done.
  - rewrite bulk_bytes, <- app_assoc, read_header by done. cbn [mbind option_bind].
    rewrite strtol_number. cbn [mbind option_bind]. pose proof (str_size_nonneg s).
    rewrite (proj2 (Z.eqb_neq _ _)), (proj2 (Z.ltb_ge _ _)) by lia.
    rewrite str_size_nat, <- app_assoc. simpl. by rewrite read_bulk_spec.
  - rewrite array_bytes, <- app_assoc, read_header by done. cbn [mbind option_bind].
    rewrite strtol_number. cbn [mbind option_bind].
    rewrite (proj2 (Z.ltb_ge _ _)) by lia. rewrite Nat2Z.id. by rewrite read_bulks_spec.
Qed.

(** Different replies have different bytes. *)
Lemma render_inj r1 r2 :
  resp_wf r1 = true → resp_wf r2 = true → render r1 = render r2 → r1 = r2.
Proof.
  intros H1%(λ H, render_read _ [] H) H2%(λ H, render_read _ [] H) E.
  rewrite E in H1. congruence.
Qed.

(** The empty string is no reply: it stands for a forwarded command. *)
Lemma render_nonempty r : render r ≠ EmptyString.
Proof.
  destruct r as [s|s|z| |s|l]; try done. intros E%(f_equal bytes_of_string).
  cbn [render] in E. by rewrite array_bytes in E.
Qed.
