(* ===== verification/StringCommands.v ===== *)
(** * SET, GET, DEL (src/commands/string_commands.hpp) and EXPIRE, TTL
      (src/commands/generic_commands.hpp) *)
From S2P Require Import Prelude CxxString Double Containers Value Store HashMap Shard Router Topology Command Exec.
From Stdlib Require Import ZArith Lia.
From stdpp Require Import prelude gmap strings list_numbers.

Section commands.
Context `{StdHash}.

Definition SetCommand_execute (core_id : nat) (conn_id : Z) (args : list string) : prog string :=
  if negb (length args =? 3) then mret (err_args "set") else
  if_local core_id conn_id args (
    shard_set core_id (args !!! 1) (VString (args !!! 2));;
    mret ok_reply).

Definition GetCommand_execute (core_id : nat) (conn_id : Z) (args : list string) : prog string :=
  if negb (length args =? 2) then mret (err_args "get") else
  if_local core_id conn_id args (
    val ← shard_get core_id (args !!! 1);
    match val with
    | Some _ =>
        v ← load core_id val;
        match v with
        | VString str_val => mret (bulk str_val)
        | _ => mret err_wrongtype
        end
    | None => mret nil_reply
    end).

Definition DelCommand_execute (core_id : nat) (conn_id : Z) (args : list string) : prog string :=
  if negb (length args =? 2) then mret (err_args "del") else
  if_local core_id conn_id args (
    deleted ← shard_del core_id (args !!! 1);
    mret (integer (if deleted : bool then 1 else 0)%Z)).

(** [EXPIRE key seconds]: the argument is parsed before the key is routed. *)
Definition ExpireCommand_execute (core_id : nat) (conn_id : Z) (args : list string) : prog string :=
  if negb (length args =? 3) then mret (err_args "expire") else
  let key := args !!! 1 in
  match stol (args !!! 2) with
  | Throw _ => mret err_not_integer
  | Undefined => undefined
  | Ok seconds =>
      if_local core_id conn_id args (
        val ← shard_get core_id key;
        match val with
        | None => mret (integer 0)
        | Some _ =>
            t ← now;
            ms ← long_arith (seconds * 1000)%Z;
            expiry ← long_arith (t + ms)%Z;
            shard_set_expiry core_id key expiry;;
            mret (integer 1)
        end)
  end.

Definition TtlCommand_execute (core_id : nat) (conn_id : Z) (args : list string) : prog string :=
  if negb (length args =? 2) then mret (err_args "ttl") else
  let key := args !!! 1 in
  if_local core_id conn_id args (
    val ← shard_get core_id key;
    match val with
    | None => mret (integer (-2))
    | Some _ =>
        expiry ← shard_get_expiry core_id key;
        if (expiry =? -1)%Z then mret (integer (-1)) else
        t ← now;
        diff ← long_arith (expiry - t)%Z;
        if (diff <? 0)%Z then mret (integer (-2))
        else mret (integer (Z.quot diff 1000))
    end).

Definition SetCommand : Command := mkCommand "SET" SetCommand_execute.
Definition GetCommand : Command := mkCommand "GET" GetCommand_execute.
Definition DelCommand : Command := mkCommand "DEL" DelCommand_execute.
Definition ExpireCommand : Command := mkCommand "EXPIRE" ExpireCommand_execute.
Definition TtlCommand : Command := mkCommand "TTL" TtlCommand_execute.

End commands.

(** ** What the commands do to the owner's database *)

Definition get_fn (o : option Value) : string * action :=
  (match o with
   | None => nil_reply
   | Some (VString s) => bulk s
   | Some _ => err_wrongtype
   end, Keep).

Lemma long_arith_ok {S} z (s : S) : (long_min ≤ z ≤ long_max)%Z → long_arith z s = (Ok z, s).
Proof.
  intros. unfold long_arith. by rewrite (proj2 (Z.leb_le _ _)), (proj2 (Z.leb_le _ _)) by lia.
Qed.

(** The expiry [EXPIRE] stores, [None] when [long long] arithmetic overflows. *)
Definition expire_at (t seconds : Z) : option Z :=
  let ok z := ((long_min <=? z) && (z <=? long_max))%Z in
  if ok (seconds * 1000)%Z && ok (t + seconds * 1000)%Z then Some (t + seconds * 1000)%Z
  else None.

Lemma expire_at_value t seconds e :
  expire_at t seconds = Some e → e = (t + seconds * 1000)%Z.
Proof. unfold expire_at. destruct (andb _ _); [by intros [= <-]|done]. Qed.

Lemma expire_at_run {S} t seconds e (k : Z → comp S string) (s : S) :
  expire_at t seconds = Some e →
  (ms ← long_arith (seconds * 1000)%Z; expiry ← long_arith (t + ms)%Z; k expiry) s = k e s.
Proof.
  unfold expire_at. intros E. case_match eqn:Eb; [|done]. injection E as <-.
  apply andb_true_iff in Eb as [E1 E2]. unfold long_arith. rewrite E1.
  rewrite bind_ret_l, E2. by rewrite bind_ret_l.
Qed.

Lemma expire_at_none {S} t seconds (k : Z → comp S string) (s : S) :
  expire_at t seconds = None →
  ((ms ← long_arith (seconds * 1000)%Z; expiry ← long_arith (t + ms)%Z; k expiry) s).1 = Undefined.
Proof.
  unfold expire_at, long_arith. intros E.
  destruct ((long_min <=? seconds * 1000) && (seconds * 1000 <=? long_max))%Z; [|done].
  rewrite bind_ret_l.
  destruct ((long_min <=? t + seconds * 1000) && (t + seconds * 1000 <=? long_max))%Z; done.
Qed.

(** What [TTL] answers at time [t] for a live key with expiry [x]. *)
Definition ttl_reply (t : Z) (x : option Z) : string :=
  let expiry := default (-1)%Z x in
  if (expiry =? -1)%Z then integer (-1)
  else if (expiry - t <? 0)%Z then integer (-2)
  else integer (Z.quot (expiry - t) 1000).

(** Where the time left of a key is a [long long]: not needed of an expired key,
    nor of a key without a deadline. *)
Definition ttl_range (t0 t1 : Z) (e : option (Value * option Z)) : Prop :=
  match e with
  | Some (v, Some d) =>
      is_expired t0 (v, Some d) = true ∨ d = (-1)%Z ∨ (long_min ≤ d - t1 ≤ long_max)%Z
  | _ => True
  end.
#[export] Instance ttl_range_dec t0 t1 e : Decision (ttl_range t0 t1 e).
Proof. unfold ttl_range. destruct e as [[v [d|]]|]; apply _. Defined.

Lemma ttl_range_not t0 t1 e :
  ¬ ttl_range t0 t1 e →
  ∃ v d, e = Some (v, Some d) ∧ is_expired t0 (v, Some d) = false ∧ d ≠ (-1)%Z ∧
    ¬ (long_min ≤ d - t1 ≤ long_max)%Z.
Proof.
  destruct e as [[v [d|]]|]; simpl; [|tauto..]. intros Hr. exists v, d.
  destruct (is_expired t0 (v, Some d)) eqn:E; [unfold is_expired in E; naive_solver|].
  split_and!; naive_solver.
Qed.

Section behaviour.
Context `{StdHash} (w : World) (c : nat) (conn_id : Z) (args : list string).
Hypothesis Hk : get_target_core (topo w) (args !!! 1) = c.
Let k := args !!! 1.
Context (sh : Shard HashMap) (Hsh : shards_ (topo w) !! c = Some sh) (Hwf : shard_wf sh).
Let t0 := clock w (ticks w).
Let t1 := clock w (S (ticks w)).

Lemma owner_range : c < length (shards_ (topo w)).
Proof using Hsh. by eapply lookup_lt_Some. Qed.

Lemma at_owner {A} (e : prog A) : e w = e (at_shard w c sh 0).
Proof using Hsh. by rewrite (at_shard_id w c owner_range sh Hsh). Qed.

Lemma clock_0 : clock w (ticks w + 0) = t0.
Proof. by rewrite Nat.add_0_r. Qed.
Lemma clock_1 : clock w (ticks w + 1) = t1.
Proof. by rewrite Nat.add_1_r. Qed.

Lemma set_runs :
  length args = 3 →
  (∃ sh', SetCommand_execute c conn_id args w = (Ok ok_reply, at_shard w c sh' 0) ∧
     shard_wf sh' ∧ shard_db sh' = <[k := (VString (args !!! 2), None)]> (shard_db sh)) ∨
  (SetCommand_execute c conn_id args w = (Throw (runtime_error "HashMap is full"), w) ∧
     full (data_store sh) ∧ shard_db sh !! k = None).
Proof using Hk Hsh Hwf.
  intros Hn. unfold SetCommand_execute. rewrite Hn. simpl. rewrite if_local_owner by done.
  pose proof (set_spec sh k (VString (args !!! 2)) Hwf I) as Hs.
  pose proof (run_shard_set w c owner_range sh 0 k (VString (args !!! 2))) as Hr.
  rewrite <- at_owner in Hr. fold k.
  destruct (Shard.set sh k (VString (args !!! 2))) as [sh'|e|]; [| |done].
  - left. exists sh'. split; [|done]. by erewrite bind_ok by exact Hr.
  - right. destruct Hs as (-> & ? & ?). split; [|done]. erewrite bind_throw by exact Hr.
    by rewrite (at_shard_id w c owner_range sh Hsh).
Qed.

Lemma get_runs :
  length args = 2 → refines (GetCommand_execute c conn_id args) get_fn w c k.
Proof using Hk.
  clear sh Hsh Hwf. intros Hn. unfold GetCommand_execute. rewrite Hn. simpl.
  apply refines_if_local; [done|].
  intros sh Hsh Hwf t o _. pose proof (lookup_lt_Some _ _ _ Hsh) as Hc.
  match goal with |- context [?e w] =>
    replace (e w) with (e (at_shard w c sh 0)) by (by rewrite (at_shard_id w c Hc sh Hsh)) end.
  assert (clock w (ticks w + 0) = t) as Ht by (unfold t; by rewrite Nat.add_0_r).
  destruct o as [v|] eqn:Ho; unfold o in Ho.
  - destruct (shard_get_visible t sh k v Hwf Ho) as (p & x & E & Hx & Hp).
    exists sh, 1. split; [done|left]. split.
    + erewrite bind_ok by (apply (run_shard_get w c Hc)). rewrite Ht.
      fold k. rewrite E. simpl. erewrite bind_ok by by apply run_load.
      rewrite (pt_val _ _ _ _ _ _ Hp). by destruct v.
    + pose proof (Shard.get_spec t sh k Hwf) as (_ & Hdb & _). by rewrite E in Hdb.
  - destruct (shard_get_hidden t sh k Hwf Ho) as (sh' & E & Hwf' & Hdb).
    exists sh', 1. split; [done|left]. split; [|done].
    erewrite bind_ok by (apply (run_shard_get w c Hc)). rewrite Ht. fold k. by rewrite E.
Qed.

(** [DEL] removes the key; it counts a key whose expiry has passed but that no
    access has purged yet. *)
Lemma del_runs :
  length args = 2 →
  ∃ sh', DelCommand_execute c conn_id args w =
      (Ok (integer (if bool_decide (is_Some (shard_db sh !! k)) then 1 else 0)%Z),
       at_shard w c sh' 0) ∧
    shard_wf sh' ∧ shard_db sh' = delete k (shard_db sh).
Proof using Hk Hsh Hwf.
  intros Hn. unfold DelCommand_execute. rewrite Hn. simpl. rewrite if_local_owner by done.
  rewrite at_owner. erewrite bind_ok by (apply (run_shard_del w c owner_range)). fold k.
  destruct (del_spec sh k Hwf) as (? & ? & ->). eauto.
Qed.

Lemma expire_runs seconds :
  length args = 3 → stol (args !!! 2) = Ok seconds →
  (is_Some (visible t0 k (shard_db sh)) → is_Some (expire_at t1 seconds)) →
  ∃ sh' n, shard_wf sh' ∧
    ExpireCommand_execute c conn_id args w =
      (Ok (integer (match visible t0 k (shard_db sh) with Some _ => 1 | None => 0 end)%Z),
       at_shard w c sh' n) ∧
    shard_db sh' = alter (λ v, (v.1, Some (t1 + seconds * 1000)%Z)) k (purge t0 k (shard_db sh)).
Proof using Hk Hsh Hwf.
  intros Hn Hs He. unfold ExpireCommand_execute. rewrite Hn, Hs. simpl.
  rewrite if_local_owner by done. rewrite at_owner.
  erewrite bind_ok by (apply (run_shard_get w c owner_range)). rewrite clock_0. fold k.
  destruct (visible t0 k (shard_db sh)) as [v|] eqn:Hv.
  - destruct (shard_get_visible t0 sh k v Hwf Hv) as (p & x & E & Hx & Hp). rewrite E. simpl.
    erewrite bind_ok by by apply run_now. rewrite clock_1.
    destruct (He ltac:(eauto)) as [e Ee]. rewrite (expire_at_run t1 seconds e) by done.
    rewrite <- (expire_at_value _ _ _ Ee).
    destruct (set_expiry_spec sh k e Hwf ltac:(eauto)) as [Hwf' Hdb].
    exists (set_expiry sh k e), 2. split; [done|]. split.
    + by erewrite bind_ok by (apply (run_set_expiry w c owner_range)).
    + rewrite Hdb. pose proof (Shard.get_spec t0 sh k Hwf) as (_ & Hg & _).
      rewrite E in Hg. simpl in Hg. by rewrite <- Hg.
  - destruct (shard_get_hidden t0 sh k Hwf Hv) as (sh' & E & Hwf' & Hdb). rewrite E. simpl.
    exists sh', 1. split_and!; [done|done|]. rewrite Hdb. apply purge_hidden in Hv.
    apply map_eq. intros k'. destruct (decide (k = k')) as [<-|].
    + by rewrite lookup_alter_eq, Hv.
    + by rewrite lookup_alter_ne.
Qed.

Lemma expire_bad_integer e :
  length args = 3 → stol (args !!! 2) = Throw e →
  ExpireCommand_execute c conn_id args w = (Ok err_not_integer, w).
Proof. intros Hn Hs. unfold ExpireCommand_execute. by rewrite Hn, Hs. Qed.

Lemma ttl_runs :
  length args = 2 →
  ttl_range t0 t1 (shard_db sh !! k) →
  ∃ sh' n, shard_wf sh' ∧
    TtlCommand_execute c conn_id args w =
      (Ok (match visible t0 k (shard_db sh) with
           | Some _ => ttl_reply t1 (shard_db sh !! k ≫= snd)
           | None => integer (-2)
           end), at_shard w c sh' n) ∧
    shard_db sh' = purge t0 k (shard_db sh).
Proof using Hk Hsh Hwf.
  intros Hn Hrange. unfold TtlCommand_execute. rewrite Hn. simpl.
  rewrite if_local_owner by done. rewrite at_owner.
  erewrite bind_ok by (apply (run_shard_get w c owner_range)). rewrite clock_0. fold k.
  destruct (visible t0 k (shard_db sh)) as [v|] eqn:Hv.
  - destruct (shard_get_visible t0 sh k v Hwf Hv) as (p & x & E & Hx & Hp).
    pose proof (Shard.get_spec t0 sh k Hwf) as (_ & Hg & _). rewrite E in *. simpl in Hg.
    cbn [fst snd]. erewrite bind_ok by (apply (run_get_expiry w c owner_range)).
    rewrite get_expiry_spec, Hx by done. unfold ttl_reply. simpl.
    destruct (Z.eqb_spec (default (-1)%Z x) (-1)) as [_|Hne].
    { exists sh, 1. done. }
    destruct x as [e|]; [|done]. simpl in *. rewrite Hx in Hrange.
    assert (is_expired t0 (v, Some e) = false) as Hexp.
    { unfold visible in Hv. rewrite Hx in Hv. by destruct (is_expired _ _). }
    destruct Hrange as [Hrange|[?|Hrange]]; [unfold is_expired in *; simpl in *; congruence|done|].
    erewrite bind_ok by by apply run_now. rewrite clock_1.
    erewrite bind_ok by by apply long_arith_ok.
    exists sh, 2. split_and!; [done| |done]. by case_match.
  - destruct (shard_get_hidden t0 sh k Hwf Hv) as (sh' & E & Hwf' & Hdb). rewrite E. simpl.
    by exists sh', 1.
Qed.

End behaviour.
