(* ===== verification/ListCommands.v ===== *)
(** * LPUSH, LPOP, LRANGE, RPUSH, RPOP, LLEN (src/commands/list_commands.hpp) *)
From S2P Require Import Prelude CxxString Double Containers Value Store HashMap Shard Router Topology Command Exec Ranges.
From Stdlib Require Import ZArith Lia.
From stdpp Require Import prelude gmap strings list_numbers.

Section commands.
Context `{StdHash}.

Definition LPushCommand_execute (core_id : nat) (conn_id : Z) (args : list string) : prog string :=
  if length args <? 3 then mret (err_args "lpush") else
  if_local core_id conn_id args (
    find_or_create core_id (args !!! 1) LIST (VList []) (λ list_ptr,
      foldM (λ _ x, l ← load_list core_id list_ptr; store core_id list_ptr (VList (x :: l)))
        tt (drop 2 args);;
      l ← load_list core_id list_ptr;
      mret (integer (Z.of_nat (length l))))).

Definition LPopCommand_execute (core_id : nat) (conn_id : Z) (args : list string) : prog string :=
  if negb (length args =? 2) then mret (err_args "lpop") else
  if_local core_id conn_id args (
    find_existing core_id (args !!! 1) LIST nil_reply (λ list_ptr,
      l ← load_list core_id list_ptr;
      match l with
      | [] => mret nil_reply
      | element :: l' => store core_id list_ptr (VList l');; mret (bulk element)
      end)).

(** The loop [for (int i = start; i <= stop; ++i)] over the elements of the list. *)
Definition lrange_loop (l : list string) (start stop : Z) (resp : string) : prog string :=
  foldM (λ resp i,
    match l !! Z.to_nat i with
    | Some elem => mret (resp +:+ bulk elem)
    | None => undefined
    end) resp (seqZ start (stop - start + 1)).

Definition LRangeCommand_execute (core_id : nat) (conn_id : Z) (args : list string) : prog string :=
  if negb (length args =? 4) then mret (err_args "lrange") else
  if_local core_id conn_id args (
    find_existing core_id (args !!! 1) LIST empty_array (λ list_ptr,
      try_catch (
        start ← lift (stoi (args !!! 2));
        stop ← lift (stoi (args !!! 3));
        l ← load_list core_id list_ptr;
        b ← range_bounds start stop (to_int (Z.of_nat (length l)));
        match b with
        | None => mret empty_array
        | Some (start, stop) =>
            n ← int_arith (stop - start + 1);
            lrange_loop l start stop (array_header n)
        end)
      (mret err_not_integer))).

Definition RPushCommand_execute (core_id : nat) (conn_id : Z) (args : list string) : prog string :=
  if length args <? 3 then mret (err_args "rpush") else
  if_local core_id conn_id args (
    find_or_create core_id (args !!! 1) LIST (VList []) (λ list_ptr,
      foldM (λ _ x, l ← load_list core_id list_ptr; store core_id list_ptr (VList (l ++ [x])))
        tt (drop 2 args);;
      l ← load_list core_id list_ptr;
      mret (integer (Z.of_nat (length l))))).

Definition RPopCommand_execute (core_id : nat) (conn_id : Z) (args : list string) : prog string :=
  if negb (length args =? 2) then mret (err_args "rpop") else
  if_local core_id conn_id args (
    find_existing core_id (args !!! 1) LIST nil_reply (λ list_ptr,
      l ← load_list core_id list_ptr;
      match last l with
      | None => mret nil_reply
      | Some element => store core_id list_ptr (VList (removelast l));; mret (bulk element)
      end)).

Definition LLenCommand_execute (core_id : nat) (conn_id : Z) (args : list string) : prog string :=
  if negb (length args =? 2) then mret (err_args "llen") else
  if_local core_id conn_id args (
    find_existing core_id (args !!! 1) LIST (integer 0) (λ list_ptr,
      l ← load_list core_id list_ptr;
      mret (integer (Z.of_nat (length l))))).

Definition LPushCommand : Command := mkCommand "LPUSH" LPushCommand_execute.
Definition LPopCommand : Command := mkCommand "LPOP" LPopCommand_execute.
Definition LRangeCommand : Command := mkCommand "LRANGE" LRangeCommand_execute.
Definition RPushCommand : Command := mkCommand "RPUSH" RPushCommand_execute.
Definition RPopCommand : Command := mkCommand "RPOP" RPopCommand_execute.
Definition LLenCommand : Command := mkCommand "LLEN" LLenCommand_execute.

End commands.

(** ** What the commands compute, as functions of the list at the key *)

(** [LPUSH] leaves the arguments in front, last one first. *)
Definition lpush_fn (xs : list string) (v : Value) : string * action :=
  match v with
  | VList l => (integer (Z.of_nat (length xs + length l)), Write (VList (reverse xs ++ l)))
  | _ => (err_wrongtype, Keep)
  end.

Definition rpush_fn (xs : list string) (v : Value) : string * action :=
  match v with
  | VList l => (integer (Z.of_nat (length l + length xs)), Write (VList (l ++ xs)))
  | _ => (err_wrongtype, Keep)
  end.

Definition lpop_fn (v : Value) : string * action :=
  match v with
  | VList (x :: l) => (bulk x, Write (VList l))
  | VList [] => (nil_reply, Keep)
  | _ => (err_wrongtype, Keep)
  end.

Definition rpop_fn (v : Value) : string * action :=
  match v with
  | VList l =>
      match last l with
      | Some x => (bulk x, Write (VList (removelast l)))
      | None => (nil_reply, Keep)
      end
  | _ => (err_wrongtype, Keep)
  end.

Definition llen_fn (v : Value) : string * action :=
  match v with
  | VList l => (integer (Z.of_nat (length l)), Keep)
  | _ => (err_wrongtype, Keep)
  end.

Definition lrange_fn (a b : string) (v : Value) : string * action :=
  match v, stoi a, stoi b with
  | VList l, Ok i, Ok j => (array_reply (slice l i j), Keep)
  | VList _, _, _ => (err_not_integer, Keep)
  | _, _, _ => (err_wrongtype, Keep)
  end.

(** The index loop reads consecutive elements, all in range. *)
Lemma lrange_loop_ok l (start stop : Z) resp (w : World) :
  (0 ≤ start)%Z → (stop < Z.of_nat (length l))%Z →
  lrange_loop l start stop resp w =
  (Ok (fold_left (λ resp x, resp +:+ bulk x)
         (take (Z.to_nat (stop - start + 1)) (drop (Z.to_nat start) l)) resp), w).
Proof.
  intros Hs Hl. unfold lrange_loop.
  remember (Z.to_nat (stop - start + 1)) as m eqn:Em.
  revert start resp Hs Em. induction m as [|m IH]; intros start resp Hs Em.
  { rewrite seqZ_nil by lia. done. }
  rewrite seqZ_cons by lia. simpl.
  destruct (l !! Z.to_nat start) as [e|] eqn:El;
    [|apply lookup_ge_None in El; lia].
  rewrite bind_ret_l. erewrite drop_S by exact El. simpl.
  replace (Z.pred (stop - start + 1)) with (stop - Z.succ start + 1)%Z by lia.
  rewrite IH by lia. by replace (Z.to_nat (Z.succ start)) with (S (Z.to_nat start)) by lia.
Qed.

(** ** The commands refine these functions *)

Section refinement.
Context `{StdHash} (w : World) (c : nat) (conn_id : Z) (args : list string).
Hypothesis Hk : get_target_core (topo w) (args !!! 1) = c.
Let k := args !!! 1.

Lemma lpush_refines :
  3 ≤ length args →
  refines (LPushCommand_execute c conn_id args)
    (creating LIST (VList []) (lpush_fn (drop 2 args))) w c k.
Proof using Hk.
  intros Hn. unfold LPushCommand_execute. rewrite (proj2 (Nat.ltb_ge _ _)) by done.
  apply refines_if_local; [done|]. apply refines_find_or_create; [|done..].
  intros v d x p sh n Hc _ [l ->]%type_list Hp. simpl.
  destruct (run_fold w c
    (λ _ x, l ← load_list c (Some p); store c (Some p) (VList (x :: l)))
    (λ b y v, match v with VList l => (VList (y :: l), b) | _ => (v, b) end)
    (λ v, ∃ l, v = VList l) d x k p (drop 2 args)) with (b := tt) (v := VList l) (sh := sh)
    (n := n) as (sh' & E & Hp' & _); [|eauto|done|].
  { intros [] y v sh' n' [l' ->] Hp'. simpl. split_and!; [|done|eauto].
    erewrite bind_ok by by eapply run_load_list. by apply run_store. }
  assert (∀ xs l, fold_left (λ r y, match r.1 with VList l => (VList (y :: l), r.2)
    | _ => (r.1, r.2) end) xs (VList l, tt) = (VList (reverse xs ++ l), tt)) as Hf.
  { intros xs. induction xs as [|y xs IH]; intros l'; simpl; [done|].
    rewrite IH, reverse_cons, <- app_assoc. done. }
  rewrite Hf in E, Hp'. erewrite bind_ok by exact E. exists sh'. split; [|done].
  erewrite bind_ok by by eapply run_load_list.
  by rewrite length_app, length_reverse.
Qed.

Lemma rpush_refines :
  3 ≤ length args →
  refines (RPushCommand_execute c conn_id args)
    (creating LIST (VList []) (rpush_fn (drop 2 args))) w c k.
Proof using Hk.
  intros Hn. unfold RPushCommand_execute. rewrite (proj2 (Nat.ltb_ge _ _)) by done.
  apply refines_if_local; [done|]. apply refines_find_or_create; [|done..].
  intros v d x p sh n Hc _ [l ->]%type_list Hp. simpl.
  destruct (run_fold w c
    (λ _ x, l ← load_list c (Some p); store c (Some p) (VList (l ++ [x])))
    (λ b y v, match v with VList l => (VList (l ++ [y]), b) | _ => (v, b) end)
    (λ v, ∃ l, v = VList l) d x k p (drop 2 args)) with (b := tt) (v := VList l) (sh := sh)
    (n := n) as (sh' & E & Hp' & _); [|eauto|done|].
  { intros [] y v sh' n' [l' ->] Hp'. simpl. split_and!; [|done|eauto].
    erewrite bind_ok by by eapply run_load_list. by apply run_store. }
  assert (∀ xs l, fold_left (λ r y, match r.1 with VList l => (VList (l ++ [y]), r.2)
    | _ => (r.1, r.2) end) xs (VList l, tt) = (VList (l ++ xs), tt)) as Hf.
  { intros xs. induction xs as [|y xs IH]; intros l'; simpl; [by rewrite app_nil_r|].
    rewrite IH, <- app_assoc. done. }
  rewrite Hf in E, Hp'. erewrite bind_ok by exact E. exists sh'. split; [|done].
  erewrite bind_ok by by eapply run_load_list. by rewrite length_app.
Qed.

Lemma lpop_refines :
  length args = 2 →
  refines (LPopCommand_execute c conn_id args) (existing LIST nil_reply lpop_fn) w c k.
Proof using Hk.
  intros Hn. unfold LPopCommand_execute. rewrite Hn. simpl.
  apply refines_if_local; [done|]. apply refines_find_existing.
  intros v d x p sh n Hc _ [l ->]%type_list Hp.
  erewrite bind_ok by by eapply run_load_list. destruct l as [|y l]; simpl; [eauto|].
  erewrite bind_ok by by apply run_store. eexists. split; [done|].
  by eapply points_store.
Qed.

Lemma rpop_refines :
  length args = 2 →
  refines (RPopCommand_execute c conn_id args) (existing LIST nil_reply rpop_fn) w c k.
Proof using Hk.
  intros Hn. unfold RPopCommand_execute. rewrite Hn. simpl.
  apply refines_if_local; [done|]. apply refines_find_existing.
  intros v d x p sh n Hc _ [l ->]%type_list Hp.
  erewrite bind_ok by by eapply run_load_list. simpl.
  destruct (last l) as [y|]; simpl; [|eauto].
  erewrite bind_ok by by apply run_store. eexists. split; [done|].
  by eapply points_store.
Qed.

Lemma llen_refines :
  length args = 2 →
  refines (LLenCommand_execute c conn_id args) (existing LIST (integer 0) llen_fn) w c k.
Proof using Hk.
  intros Hn. unfold LLenCommand_execute. rewrite Hn. simpl.
  apply refines_if_local; [done|]. apply refines_find_existing.
  intros v d x p sh n Hc _ [l ->]%type_list Hp.
  erewrite bind_ok by by eapply run_load_list. simpl. eauto.
Qed.

(** [LRANGE] needs the list to be countable by an [int]. *)
Definition list_fits (o : option Value) : Prop :=
  ∀ l, o = Some (VList l) → (Z.of_nat (length l) ≤ int_max)%Z.

Lemma lrange_refines :
  length args = 4 →
  refines_when list_fits (LRangeCommand_execute c conn_id args)
    (existing LIST empty_array (lrange_fn (args !!! 2) (args !!! 3))) w c k.
Proof using Hk.
  intros Hn. unfold LRangeCommand_execute. rewrite Hn. simpl.
  apply refines_if_local; [done|]. apply refines_find_existing.
  intros v d x p sh n Hc Hfit [l ->]%type_list Hp. specialize (Hfit l eq_refl).
  unfold try_catch, lrange_fn. exists sh.
  destruct (stoi (args !!! 2)) as [i|e|] eqn:Ei; [| |by apply stoi_defined in Ei].
  2:{ split; [done|]. by destruct (stoi (args !!! 3)). }
  destruct (stoi (args !!! 3)) as [j|e|] eqn:Ej; [|done|by apply stoi_defined in Ej].
  apply sto_range in Ei, Ej. simpl.
  erewrite (bind_ok (lift (Ok i))) by done. erewrite (bind_ok (lift (Ok j))) by done.
  erewrite bind_ok by by eapply run_load_list.
  rewrite to_int_small by lia.
  erewrite bind_ok by (apply range_bounds_ok; [done|done|lia]).
  set (start := norm_index _ i). set (stop := Z.min _ (norm_index _ j)).
  destruct (Z.leb_spec start stop) as [Hle|Hlt].
  - assert (0 ≤ start)%Z by (unfold start, norm_index; case_match; lia).
    assert (stop < Z.of_nat (length l))%Z by (unfold stop; lia).
    erewrite bind_ok by (apply int_arith_ok; unfold int_min, int_max in *; lia).
    rewrite lrange_loop_ok by lia. split; [|done]. unfold array_reply, slice.
    fold start stop. by rewrite take_drop_length by lia.
  - by rewrite (slice_empty l i j).
Qed.

End refinement.
