(* ===== verification/SetCommands.v ===== *)
(** * SADD, SMEMBERS, SREM, SCARD (src/commands/set_commands.hpp) *)
From S2P Require Import Prelude CxxString Double Containers Value Store HashMap Shard Router Topology Command Exec.
From Stdlib Require Import ZArith Lia.
From stdpp Require Import prelude gmap strings list_numbers.

Section commands.
Context `{StdHash}.

Definition SAddCommand_execute (core_id : nat) (conn_id : Z) (args : list string) : prog string :=
  if length args <? 3 then mret (err_args "sadd") else
  if_local core_id conn_id args (
    find_or_create core_id (args !!! 1) SET (VSet []) (λ set_ptr,
      added ← foldM (λ added x,
        s ← load_set core_id set_ptr;
        let '(s', inserted) := set_insert x s in
        store core_id set_ptr (VSet s');;
        mret (if inserted : bool then added + 1 else added)%Z) 0%Z (drop 2 args);
      mret (integer added))).

Definition SMembersCommand_execute (core_id : nat) (conn_id : Z) (args : list string) : prog string :=
  if negb (length args =? 2) then mret (err_args "smembers") else
  if_local core_id conn_id args (
    find_existing core_id (args !!! 1) SET empty_array (λ set_ptr,
      s ← load_set core_id set_ptr;
      mret (fold_left (λ resp member, resp +:+ bulk member) s
              (array_header (Z.of_nat (length s)))))).

Definition SRemCommand_execute (core_id : nat) (conn_id : Z) (args : list string) : prog string :=
  if length args <? 3 then mret (err_args "srem") else
  if_local core_id conn_id args (
    find_existing core_id (args !!! 1) SET (integer 0) (λ set_ptr,
      removed ← foldM (λ removed x,
        s ← load_set core_id set_ptr;
        let '(s', erased) := set_erase x s in
        store core_id set_ptr (VSet s');;
        mret (if erased : bool then removed + 1 else removed)%Z) 0%Z (drop 2 args);
      mret (integer removed))).

Definition SCardCommand_execute (core_id : nat) (conn_id : Z) (args : list string) : prog string :=
  if negb (length args =? 2) then mret (err_args "scard") else
  if_local core_id conn_id args (
    find_existing core_id (args !!! 1) SET (integer 0) (λ set_ptr,
      s ← load_set core_id set_ptr;
      mret (integer (Z.of_nat (length s))))).

Definition SAddCommand : Command := mkCommand "SADD" SAddCommand_execute.
Definition SMembersCommand : Command := mkCommand "SMEMBERS" SMembersCommand_execute.
Definition SRemCommand : Command := mkCommand "SREM" SRemCommand_execute.
Definition SCardCommand : Command := mkCommand "SCARD" SCardCommand_execute.

End commands.

(** ** Sets of members *)

Definition members (s : list string) : gset string := list_to_set s.

Definition insert_all (xs s : list string) : list string :=
  fold_left (λ s x, (set_insert x s).1) xs s.
Definition erase_all (xs s : list string) : list string :=
  fold_left (λ s x, (set_erase x s).1) xs s.

Lemma osorted_size s : osorted string_ltb s → size (members s) = length s.
Proof.
  intros Hs. apply size_list_to_set.
  pose proof (osorted_key_NoDup (λ x, x) string_ltb s Hs) as Hn.
  by rewrite list_fmap_id in Hn.
Qed.

Lemma set_insert_members x s :
  osorted string_ltb s →
  osorted string_ltb (set_insert x s).1 ∧ members (set_insert x s).1 = {[x]} ∪ members s.
Proof.
  intros Hs. destruct (oinsert_spec (λ x, x) string_ltb x s Hs) as (Hs' & Hm & _).
  split; [done|]. apply set_eq. intros z. unfold members, set_insert.
  rewrite elem_of_union, elem_of_singleton, !elem_of_list_to_set, Hm.
  destruct (decide (x ∈ s)); set_solver.
Qed.

Lemma set_erase_members x s :
  osorted string_ltb s →
  osorted string_ltb (set_erase x s).1 ∧ members (set_erase x s).1 = members s ∖ {[x]}.
Proof.
  intros Hs. destruct (oerase_spec (λ x, x) string_ltb x s Hs) as (Hs' & Hm & _).
  split; [done|]. apply set_eq. intros z. unfold members, set_erase.
  rewrite elem_of_difference, elem_of_singleton, !elem_of_list_to_set, Hm. done.
Qed.

Lemma erase_all_nil xs : erase_all xs [] = [].
Proof. by induction xs. Qed.

Lemma insert_all_members xs s :
  osorted string_ltb s →
  osorted string_ltb (insert_all xs s) ∧ members (insert_all xs s) = members s ∪ list_to_set xs.
Proof.
  revert s. induction xs as [|x xs IH]; intros s Hs; simpl; [split; [done|set_solver]|].
  destruct (set_insert_members x s Hs) as [Hs' Hm]. destruct (IH _ Hs') as [? ->].
  split; [done|]. rewrite Hm. set_solver.
Qed.

Lemma erase_all_members xs s :
  osorted string_ltb s →
  osorted string_ltb (erase_all xs s) ∧ members (erase_all xs s) = members s ∖ list_to_set xs.
Proof.
  revert s. induction xs as [|x xs IH]; intros s Hs; simpl; [split; [done|set_solver]|].
  destruct (set_erase_members x s Hs) as [Hs' Hm]. destruct (IH _ Hs') as [? ->].
  split; [done|]. rewrite Hm. set_solver.
Qed.

(** ** What the commands compute, as functions of the set at the key *)

Definition sadd_fn (xs : list string) (v : Value) : string * action :=
  match v with
  | VSet s => (integer (Z.of_nat (length (insert_all xs s)) - Z.of_nat (length s)),
               Write (VSet (insert_all xs s)))
  | _ => (err_wrongtype, Keep)
  end.

Definition srem_fn (xs : list string) (v : Value) : string * action :=
  match v with
  | VSet s => (integer (Z.of_nat (length s) - Z.of_nat (length (erase_all xs s))),
               Write (VSet (erase_all xs s)))
  | _ => (err_wrongtype, Keep)
  end.

Definition smembers_fn (v : Value) : string * action :=
  match v with
  | VSet s => (fold_left (λ resp x, resp +:+ bulk x) s (array_header (Z.of_nat (length s))), Keep)
  | _ => (err_wrongtype, Keep)
  end.

Definition scard_fn (v : Value) : string * action :=
  match v with
  | VSet s => (integer (Z.of_nat (length s)), Keep)
  | _ => (err_wrongtype, Keep)
  end.

(** The counting loops, one step of them at a time. *)
Definition sadd_step (n : Z) (y : string) (v : Value) : Value * Z :=
  match v with
  | VSet s => (VSet (set_insert y s).1, if (set_insert y s).2 then n + 1 else n)%Z
  | v => (v, n)
  end.

Definition srem_step (n : Z) (y : string) (v : Value) : Value * Z :=
  match v with
  | VSet s => (VSet (set_erase y s).1, if (set_erase y s).2 then n + 1 else n)%Z
  | v => (v, n)
  end.

Lemma sadd_count xs s n :
  fold_left (λ r y, sadd_step r.2 y r.1) xs (VSet s, n) =
  (VSet (insert_all xs s), n + (Z.of_nat (length (insert_all xs s)) - Z.of_nat (length s)))%Z.
Proof.
  revert s n. induction xs as [|x xs IH]; intros s n; simpl; [f_equal; lia|].
  rewrite IH. f_equal.
  assert (length (set_insert x s).1 = (length s + if (set_insert x s).2 then 1 else 0)%nat)
    as Hl by apply (oinsert_length (λ x, x) string_ltb x s).
  destruct (set_insert x s) as [s' []]; simpl in *; lia.
Qed.

Lemma srem_count xs s n :
  fold_left (λ r y, srem_step r.2 y r.1) xs (VSet s, n) =
  (VSet (erase_all xs s), n + (Z.of_nat (length s) - Z.of_nat (length (erase_all xs s))))%Z.
Proof.
  revert s n. induction xs as [|x xs IH]; intros s n; simpl; [f_equal; lia|].
  rewrite IH. f_equal.
  assert (length s = (length (set_erase x s).1 + if (set_erase x s).2 then 1 else 0)%nat)
    as Hl by apply (oerase_length (λ x, x) string_ltb x s).
  destruct (set_erase x s) as [s' []]; simpl in *; lia.
Qed.

(** ** The commands refine these functions *)

Section refinement.
Context `{StdHash} (w : World) (c : nat) (conn_id : Z) (args : list string).
Hypothesis Hk : get_target_core (topo w) (args !!! 1) = c.
Let k := args !!! 1.

Lemma sadd_refines :
  3 ≤ length args →
  refines (SAddCommand_execute c conn_id args)
    (creating SET (VSet []) (sadd_fn (drop 2 args))) w c k.
Proof using Hk.
  intros Hn. unfold SAddCommand_execute. rewrite (proj2 (Nat.ltb_ge _ _)) by done.
  apply refines_if_local; [done|]. apply refines_find_or_create; [|by constructor|done..].
  intros v d x p sh n Hc _ [s ->]%type_set Hp.
  pose proof (points_value_wf _ _ _ _ _ _ Hp) as Hs; simpl in Hs.
  cbv beta. match goal with |- context [foldM ?g _ _] => destruct (run_fold w c g sadd_step
    (λ v, ∃ s, v = VSet s ∧ osorted string_ltb s) d x k p (drop 2 args))
    with (b := 0%Z) (v := VSet s) (sh := sh) (n := n) as (sh' & E & Hp' & _) end;
    [|eauto|done|].
  2:{ rewrite sadd_count in E, Hp'. erewrite bind_ok by exact E. by exists sh'. }
  intros b y v sh' n' (s' & -> & Hs') Hp'. destruct (set_insert_members y s' Hs') as [Hi _].
  split_and!; [|done|eauto]. erewrite bind_ok by by eapply run_load_set.
  unfold sadd_step. destruct (set_insert y s') as [s'' i]. cbn [fst snd].
  by erewrite bind_ok by by apply run_store.
Qed.

Lemma srem_refines :
  3 ≤ length args →
  refines (SRemCommand_execute c conn_id args)
    (existing SET (integer 0) (srem_fn (drop 2 args))) w c k.
Proof using Hk.
  intros Hn. unfold SRemCommand_execute. rewrite (proj2 (Nat.ltb_ge _ _)) by done.
  apply refines_if_local; [done|]. apply refines_find_existing.
  intros v d x p sh n Hc _ [s ->]%type_set Hp.
  pose proof (points_value_wf _ _ _ _ _ _ Hp) as Hs; simpl in Hs.
  cbv beta. match goal with |- context [foldM ?g _ _] => destruct (run_fold w c g srem_step
    (λ v, ∃ s, v = VSet s ∧ osorted string_ltb s) d x k p (drop 2 args))
    with (b := 0%Z) (v := VSet s) (sh := sh) (n := n) as (sh' & E & Hp' & _) end;
    [|eauto|done|].
  2:{ rewrite srem_count in E, Hp'. erewrite bind_ok by exact E. by exists sh'. }
  intros b y v sh' n' (s' & -> & Hs') Hp'. destruct (set_erase_members y s' Hs') as [Hi _].
  split_and!; [|done|eauto]. erewrite bind_ok by by eapply run_load_set.
  unfold srem_step. destruct (set_erase y s') as [s'' i]. cbn [fst snd].
  by erewrite bind_ok by by apply run_store.
Qed.

Lemma smembers_refines :
  length args = 2 →
  refines (SMembersCommand_execute c conn_id args) (existing SET empty_array smembers_fn) w c k.
Proof using Hk.
  intros Hn. unfold SMembersCommand_execute. rewrite Hn. simpl.
  apply refines_if_local; [done|]. apply refines_find_existing.
  intros v d x p sh n Hc _ [s ->]%type_set Hp.
  erewrite bind_ok by by eapply run_load_set. simpl. eauto.
Qed.

Lemma scard_refines :
  length args = 2 →
  refines (SCardCommand_execute c conn_id args) (existing SET (integer 0) scard_fn) w c k.
Proof using Hk.
  intros Hn. unfold SCardCommand_execute. rewrite Hn. simpl.
  apply refines_if_local; [done|]. apply refines_find_existing.
  intros v d x p sh n Hc _ [s ->]%type_set Hp.
  erewrite bind_ok by by eapply run_load_set. simpl. eauto.
Qed.

End refinement.
