(* ===== verification/HashCommands.v ===== *)
(** * HSET, HGET, HGETALL, HDEL, HLEN (src/commands/hash_commands.hpp) *)
From S2P Require Import Prelude CxxString Double Containers Value Store HashMap Shard Router Topology Command Exec Ranges.
From Stdlib Require Import ZArith Lia.
From stdpp Require Import prelude gmap strings list_numbers.

Section commands.
Context `{StdHash}.

(** The loop [for (size_t i = 2; i < args.size(); i += 2)]: a field without a
    value would be read past the end of [args]. *)
Fixpoint hset_loop (core_id : nat) (hash_ptr : option nat) (pairs : list string)
    (created_fields : Z) : prog Z :=
  match pairs with
  | [] => mret created_fields
  | [_] => undefined
  | field :: value :: rest =>
      h ← load_hash core_id hash_ptr;
      store core_id hash_ptr (VHash (hash_assign field value h));;
      hset_loop core_id hash_ptr rest
        (match hash_find field h with
         | None => created_fields + 1
         | Some _ => created_fields
         end)%Z
  end.

Definition HSetCommand_execute (core_id : nat) (conn_id : Z) (args : list string) : prog string :=
  if (length args <? 4) || negb (length args mod 2 =? 0) then mret (err_args "hset") else
  if_local core_id conn_id args (
    find_or_create core_id (args !!! 1) HASH (VHash []) (λ hash_ptr,
      created_fields ← hset_loop core_id hash_ptr (drop 2 args) 0;
      mret (integer created_fields))).

Definition HGetCommand_execute (core_id : nat) (conn_id : Z) (args : list string) : prog string :=
  if negb (length args =? 3) then mret (err_args "hget") else
  if_local core_id conn_id args (
    find_existing core_id (args !!! 1) HASH nil_reply (λ hash_ptr,
      h ← load_hash core_id hash_ptr;
      mret (match hash_find (args !!! 2) h with
            | None => nil_reply
            | Some value => bulk value
            end))).

Definition HGetAllCommand_execute (core_id : nat) (conn_id : Z) (args : list string) : prog string :=
  if negb (length args =? 2) then mret (err_args "hgetall") else
  if_local core_id conn_id args (
    find_existing core_id (args !!! 1) HASH empty_array (λ hash_ptr,
      h ← load_hash core_id hash_ptr;
      mret (fold_left (λ resp pair, (resp +:+ bulk pair.1) +:+ bulk pair.2) h
              (array_header (uint64 (Z.of_nat (length h) * 2)))))).

Definition HDelCommand_execute (core_id : nat) (conn_id : Z) (args : list string) : prog string :=
  if length args <? 3 then mret (err_args "hdel") else
  if_local core_id conn_id args (
    find_existing core_id (args !!! 1) HASH (integer 0) (λ hash_ptr,
      removed ← foldM (λ removed x,
        h ← load_hash core_id hash_ptr;
        let '(h', erased) := hash_erase x h in
        store core_id hash_ptr (VHash h');;
        mret (if erased : bool then removed + 1 else removed)%Z) 0%Z (drop 2 args);
      mret (integer removed))).

Definition HLenCommand_execute (core_id : nat) (conn_id : Z) (args : list string) : prog string :=
  if negb (length args =? 2) then mret (err_args "hlen") else
  if_local core_id conn_id args (
    find_existing core_id (args !!! 1) HASH (integer 0) (λ hash_ptr,
      h ← load_hash core_id hash_ptr;
      mret (integer (Z.of_nat (length h))))).

Definition HSetCommand : Command := mkCommand "HSET" HSetCommand_execute.
Definition HGetCommand : Command := mkCommand "HGET" HGetCommand_execute.
Definition HGetAllCommand : Command := mkCommand "HGETALL" HGetAllCommand_execute.
Definition HDelCommand : Command := mkCommand "HDEL" HDelCommand_execute.
Definition HLenCommand : Command := mkCommand "HLEN" HLenCommand_execute.

End commands.

(** ** Field tables *)

Definition table (h : list (string * string)) : gmap string string := list_to_map h.

(** The pairs of an [HSET], in order, and the table after them. *)
Fixpoint pairs_of (l : list string) : list (string * string) :=
  match l with
  | f :: x :: rest => (f, x) :: pairs_of rest
  | _ => []
  end.

Lemma pairs_of_flatten ps : pairs_of (flatten ps) = ps.
Proof. induction ps as [|[f x] ps IH]; [done|]. rewrite flatten_cons. simpl. by rewrite IH. Qed.

Definition assign_all (ps h : list (string * string)) : list (string * string) :=
  fold_left (λ h p, hash_assign p.1 p.2 h) ps h.
Definition remove_all (fs : list string) (h : list (string * string)) : list (string * string) :=
  fold_left (λ h f, (hash_erase f h).1) fs h.

Lemma remove_all_nil fs : remove_all fs [] = [].
Proof. by induction fs. Qed.

Lemma table_NoDup h : osorted hash_ltb h → NoDup h.*1.
Proof. apply (osorted_key_NoDup fst string_ltb). Qed.

Lemma table_lookup h f x :
  osorted hash_ltb h → table h !! f = Some x ↔ (f, x) ∈ h.
Proof. intros Hs. symmetry. by apply elem_of_list_to_map, table_NoDup. Qed.

Lemma hash_find_table f h : osorted hash_ltb h → hash_find f h = table h !! f.
Proof.
  intros Hs. apply option_eq. intros x. rewrite table_lookup by done.
  unfold hash_find. destruct (ofind hash_ltb (f, EmptyString) h) as [[f' x']|] eqn:E; simpl.
  - apply (ofind_spec fst string_ltb) in E as [Hin E]; [|done]. simpl in E; subst f'.
    split; [by intros [= ->]|]. intros Hx. f_equal.
    apply table_lookup in Hin, Hx; [|done..]. congruence.
  - split; [done|]. intros Hx. eapply (ofind_None fst string_ltb) in E; [|done..].
    by destruct E.
Qed.

Lemma table_size h : osorted hash_ltb h → size (table h) = length h.
Proof. intros Hs. by apply map_size_list_to_map, table_NoDup. Qed.

Lemma hash_assign_table f x h :
  osorted hash_ltb h →
  osorted hash_ltb (hash_assign f x h) ∧ table (hash_assign f x h) = <[f := x]> (table h).
Proof.
  intros Hs. destruct (oassign_spec fst string_ltb (f, x) h Hs) as [Hs' Hm].
  split; [done|]. apply map_eq. intros g. apply option_eq. intros y.
  rewrite table_lookup by done. unfold hash_assign. rewrite Hm. simpl.
  destruct (decide (g = f)) as [->|]; simplify_map_eq.
  - naive_solver.
  - rewrite table_lookup by done. naive_solver.
Qed.

Lemma hash_erase_table f h :
  osorted hash_ltb h →
  osorted hash_ltb (hash_erase f h).1 ∧ table (hash_erase f h).1 = delete f (table h).
Proof.
  intros Hs. destruct (oerase_spec fst string_ltb (f, EmptyString) h Hs) as (Hs' & Hm & _).
  split; [done|]. apply map_eq. intros g. apply option_eq. intros y.
  rewrite table_lookup by done. unfold hash_erase. rewrite Hm. simpl.
  destruct (decide (g = f)) as [->|]; simplify_map_eq.
  - naive_solver.
  - rewrite table_lookup by done. naive_solver.
Qed.

(** After an [HSET] a field holds the last value given for it; after an [HDEL]
    the named fields are gone. *)
Lemma assign_all_table ps h :
  osorted hash_ltb h →
  osorted hash_ltb (assign_all ps h) ∧
  table (assign_all ps h) = list_to_map (reverse ps) ∪ table h.
Proof.
  revert h. induction ps as [|[f x] ps IH]; intros h Hs; simpl.
  { split; [done|]. by rewrite (left_id_L ∅ (∪)). }
  destruct (hash_assign_table f x h Hs) as [Hs' Ht]. destruct (IH _ Hs') as [? ->].
  split; [done|]. rewrite Ht, reverse_cons, list_to_map_app. simpl.
  rewrite <- (assoc_L (∪)). f_equal. by rewrite <- insert_union_l, (left_id_L ∅ (∪)).
Qed.

Lemma remove_all_table fs h :
  osorted hash_ltb h →
  osorted hash_ltb (remove_all fs h) ∧
  ∀ g, table (remove_all fs h) !! g = if decide (g ∈ fs) then None else table h !! g.
Proof.
  revert h. induction fs as [|f fs IH]; intros h Hs; simpl; [done|].
  destruct (hash_erase_table f h Hs) as [Hs' Ht]. destruct (IH _ Hs') as [? Hl].
  split; [done|]. intros g. rewrite Hl, Ht.
  destruct (decide (g = f)) as [->|]; simplify_map_eq.
  - repeat case_decide; set_solver.
  - repeat case_decide; set_solver.
Qed.

(** ** What the commands compute, as functions of the hash at the key *)

Definition hset_fn (ps : list (string * string)) (v : Value) : string * action :=
  match v with
  | VHash h => (integer (Z.of_nat (length (assign_all ps h)) - Z.of_nat (length h)),
                Write (VHash (assign_all ps h)))
  | _ => (err_wrongtype, Keep)
  end.

Definition hget_fn (f : string) (v : Value) : string * action :=
  match v with
  | VHash h => (match hash_find f h with None => nil_reply | Some x => bulk x end, Keep)
  | _ => (err_wrongtype, Keep)
  end.

Definition hgetall_fn (v : Value) : string * action :=
  match v with
  | VHash h => (fold_left (λ resp p, (resp +:+ bulk p.1) +:+ bulk p.2) h
                  (array_header (uint64 (Z.of_nat (length h) * 2))), Keep)
  | _ => (err_wrongtype, Keep)
  end.

Definition hdel_fn (fs : list string) (v : Value) : string * action :=
  match v with
  | VHash h => (integer (Z.of_nat (length h) - Z.of_nat (length (remove_all fs h))),
                Write (VHash (remove_all fs h)))
  | _ => (err_wrongtype, Keep)
  end.

Definition hlen_fn (v : Value) : string * action :=
  match v with
  | VHash h => (integer (Z.of_nat (length h)), Keep)
  | _ => (err_wrongtype, Keep)
  end.

(** [HGETALL] replies the array of fields and values, unless twice their number
    leaves [size_t]. *)
Lemma hgetall_array h :
  (Z.of_nat (length h) * 2 < 2 ^ 64)%Z → (hgetall_fn (VHash h)).1 = array_reply (flatten h).
Proof.
  intros Hlen. cbn [hgetall_fn fst]. unfold array_reply. rewrite flatten_length.
  replace (uint64 (Z.of_nat (length h) * 2)) with (Z.of_nat (2 * length h)).
  2:{ unfold uint64, wrap_u. rewrite Z.mod_small; lia. }
  generalize (array_header (Z.of_nat (2 * length h))). clear.
  induction h as [|[g y] h IH]; intros r; [done|]. rewrite flatten_cons. apply IH.
Qed.

(** The counting loop of [HDEL]. *)
Definition hdel_step (n : Z) (y : string) (v : Value) : Value * Z :=
  match v with
  | VHash h => (VHash (hash_erase y h).1, if (hash_erase y h).2 then n + 1 else n)%Z
  | v => (v, n)
  end.

Lemma hdel_count xs h n :
  fold_left (λ r y, hdel_step r.2 y r.1) xs (VHash h, n) =
  (VHash (remove_all xs h), n + (Z.of_nat (length h) - Z.of_nat (length (remove_all xs h))))%Z.
Proof.
  revert h n. induction xs as [|x xs IH]; intros h n; simpl; [f_equal; lia|].
  rewrite IH. f_equal.
  assert (length h = (length (hash_erase x h).1 + if (hash_erase x h).2 then 1 else 0)%nat)
    as Hl by apply (oerase_length fst string_ltb (x, EmptyString) h).
  destruct (hash_erase x h) as [h' []]; simpl in *; lia.
Qed.

Lemma hash_assign_length f x h :
  length (hash_assign f x h) =
    (length h + match hash_find f h with None => 1 | Some _ => 0 end)%nat.
Proof.
  unfold hash_assign, hash_find.
  etransitivity; [apply (oassign_length fst string_ltb (f, x) h)|].
  assert (∀ y, ofind hash_ltb (f, y) h = ofind hash_ltb (f, EmptyString) h) as Ho.
  { intros y. induction h as [|z h IH]; simpl; [done|]. by rewrite IH. }
  change (λ a b : string * string, string_ltb a.1 b.1) with hash_ltb.
  rewrite Ho. by destruct (ofind hash_ltb _ h).
Qed.

(** ** The commands refine these functions *)

Section refinement.
Context `{StdHash} (w : World) (c : nat) (conn_id : Z) (args : list string).
Hypothesis Hk : get_target_core (topo w) (args !!! 1) = c.
Let k := args !!! 1.

Lemma hset_loop_ok d x p n ps :
  c < length (shards_ (topo w)) → Nat.Even (length ps) →
  ∀ h sh a, points d x k p (VHash h) sh →
  ∃ sh', hset_loop c (Some p) ps a (at_shard w c sh n) =
      (Ok (a + (Z.of_nat (length (assign_all (pairs_of ps) h)) - Z.of_nat (length h)))%Z,
       at_shard w c sh' n) ∧
    points d x k p (VHash (assign_all (pairs_of ps) h)) sh'.
Proof.
  intros Hc. induction ps as [ps IH] using (induction_ltof1 _ length); unfold ltof in IH.
  intros [m Hm] h sh a Hp. destruct ps as [|f [|y ps]]; simpl in Hm.
  - exists sh. simpl. split; [|done]. by rewrite Z.sub_diag, Z.add_0_r.
  - lia.
  - cbn [hset_loop]. erewrite bind_ok by by eapply run_load_hash.
    erewrite bind_ok by by apply run_store.
    pose proof (points_value_wf _ _ _ _ _ _ Hp) as Hs.
    destruct (hash_assign_table f y h Hs) as [Hs' _].
    destruct (IH ps ltac:(simpl; lia) ltac:(exists (m - 1); lia) (hash_assign f y h)
      (Shard.assign sh p (VHash (hash_assign f y h)))
      (match hash_find f h with None => a + 1 | Some _ => a end)%Z) as (sh' & E & Hp');
      [by eapply points_store|].
    exists sh'. split; [|done]. rewrite E. simpl. f_equal. f_equal.
    rewrite hash_assign_length. destruct (hash_find f h); lia.
Qed.

Lemma hset_refines :
  4 ≤ length args → Nat.even (length args) = true →
  refines (HSetCommand_execute c conn_id args)
    (creating HASH (VHash []) (hset_fn (pairs_of (drop 2 args)))) w c k.
Proof using Hk.
  intros Hn [m He]%Nat.even_spec. unfold HSetCommand_execute.
  rewrite (proj2 (Nat.ltb_ge _ _)) by done.
  replace (length args mod 2) with 0 by (rewrite He; symmetry; by rewrite Nat.mul_comm, Nat.Div0.mod_mul).
  simpl. apply refines_if_local; [done|]. apply refines_find_or_create; [|by constructor|done..].
  intros v d x p sh n Hc _ [h ->]%type_hash Hp.
  destruct (hset_loop_ok d x p n (drop 2 args) Hc ltac:(exists (m - 1); rewrite length_drop; lia)
    h sh 0%Z Hp) as (sh' & E & Hp').
  erewrite bind_ok by exact E. by exists sh'.
Qed.

Lemma hget_refines :
  length args = 3 →
  refines (HGetCommand_execute c conn_id args)
    (existing HASH nil_reply (hget_fn (args !!! 2))) w c k.
Proof using Hk.
  intros Hn. unfold HGetCommand_execute. rewrite Hn. simpl.
  apply refines_if_local; [done|]. apply refines_find_existing.
  intros v d x p sh n Hc _ [h ->]%type_hash Hp.
  erewrite bind_ok by by eapply run_load_hash. simpl. eauto.
Qed.

Lemma hgetall_refines :
  length args = 2 →
  refines (HGetAllCommand_execute c conn_id args) (existing HASH empty_array hgetall_fn) w c k.
Proof using Hk.
  intros Hn. unfold HGetAllCommand_execute. rewrite Hn. simpl.
  apply refines_if_local; [done|]. apply refines_find_existing.
  intros v d x p sh n Hc _ [h ->]%type_hash Hp.
  erewrite bind_ok by by eapply run_load_hash. simpl. eauto.
Qed.

Lemma hdel_refines :
  3 ≤ length args →
  refines (HDelCommand_execute c conn_id args)
    (existing HASH (integer 0) (hdel_fn (drop 2 args))) w c k.
Proof using Hk.
  intros Hn. unfold HDelCommand_execute. rewrite (proj2 (Nat.ltb_ge _ _)) by done.
  apply refines_if_local; [done|]. apply refines_find_existing.
  intros v d x p sh n Hc _ [h ->]%type_hash Hp.
  pose proof (points_value_wf _ _ _ _ _ _ Hp) as Hs; simpl in Hs.
  cbv beta. match goal with |- context [foldM ?g _ _] => destruct (run_fold w c g hdel_step
    (λ v, ∃ h, v = VHash h ∧ osorted hash_ltb h) d x k p (drop 2 args))
    with (b := 0%Z) (v := VHash h) (sh := sh) (n := n) as (sh' & E & Hp' & _) end;
    [|eauto|done|].
  2:{ rewrite hdel_count in E, Hp'. erewrite bind_ok by exact E. by exists sh'. }
  intros b y v sh' n' (h' & -> & Hs') Hp'. destruct (hash_erase_table y h' Hs') as [Hi _].
  split_and!; [|done|by eexists]. erewrite bind_ok by by eapply run_load_hash.
  unfold hdel_step. destruct (hash_erase y h') as [h'' i]. cbn [fst snd].
  by erewrite bind_ok by by apply run_store.
Qed.

Lemma hlen_refines :
  length args = 2 →
  refines (HLenCommand_execute c conn_id args) (existing HASH (integer 0) hlen_fn) w c k.
Proof using Hk.
  intros Hn. unfold HLenCommand_execute. rewrite Hn. simpl.
  apply refines_if_local; [done|]. apply refines_find_existing.
  intros v d x p sh n Hc _ [h ->]%type_hash Hp.
  erewrite bind_ok by by eapply run_load_hash. simpl. eauto.
Qed.

End refinement.
