(* ===== verification/ZSetCommands.v ===== *)
(** * ZADD, ZRANGE, ZREM, ZCARD, ZSCORE (src/commands/zset_commands.hpp) *)
From S2P Require Import Prelude CxxString Double Containers Value Store HashMap Shard Router Topology Command Exec Ranges.
From Stdlib Require Import ZArith Ascii Lia.
From stdpp Require Import prelude gmap strings list_numbers.

(** The score as [ZRANGE] and [ZSCORE] print it: [std::to_string] without its
    trailing zeros, then without a trailing point. *)
Fixpoint drop_zeros (s : bytes) : bytes :=
  match s with
  | c :: s' => if bool_decide (c = "0"%char) then drop_zeros s' else s
  | [] => []
  end.

Definition drop_point (s : bytes) : bytes :=
  match s with
  | c :: s' => if bool_decide (c = "."%char) then s' else s
  | [] => []
  end.

Definition format_score (d : double) : string :=
  string_of_bytes (reverse (drop_point (drop_zeros (reverse (double_to_bytes d))))).

Section commands.
Context `{StdHash}.

(** The loop of [ZADD]; a score that does not parse ends it with an error, the
    pairs before it having been stored. *)
Fixpoint zadd_loop (core_id : nat) (zset_ptr : option nat) (pairs : list string)
    (added : Z) : prog string :=
  match pairs with
  | [] => mret (integer added)
  | [s] => match stod s with Throw _ => mret err_not_float | _ => undefined end
  | s :: m :: rest =>
      match stod s with
      | Throw _ => mret err_not_float
      | Undefined => undefined
      | Ok sc =>
          z ← load_zset core_id zset_ptr;
          match dict z !! m with
          | Some old =>
              (if negb (deq old sc) then
                 z' ← lift (zset_insert z (mkEntry sc m));
                 store core_id zset_ptr (VZSet z')
               else mret tt);;
              zadd_loop core_id zset_ptr rest added
          | None =>
              z' ← lift (zset_insert z (mkEntry sc m));
              store core_id zset_ptr (VZSet z');;
              zadd_loop core_id zset_ptr rest (added + 1)%Z
          end
      end
  end.

Definition ZAddCommand_execute (core_id : nat) (conn_id : Z) (args : list string) : prog string :=
  if (length args <? 4) || negb (length args mod 2 =? 0) then mret (err_args "zadd") else
  if_local core_id conn_id args (
    find_or_create core_id (args !!! 1) ZSET (VZSet zset_empty) (λ zset_ptr,
      zadd_loop core_id zset_ptr (drop 2 args) 0)).

(** The loop of [ZRANGE]: an iterator is what is left of the tree, and
    dereferencing [end()] is undefined. *)
Fixpoint zrange_loop (it : list ZSetEntry) (n : nat) (withscores : bool) (resp : string)
  : prog string :=
  match n with
  | O => mret resp
  | S n' =>
      match it with
      | [] => undefined
      | e :: it' =>
          let resp := resp +:+ bulk (member e) in
          let resp := if withscores then resp +:+ bulk (format_score (score e)) else resp in
          zrange_loop it' n' withscores resp
      end
  end.

(** [WITHSCORES], looked at once the range is known not to be empty. *)
Definition zrange_option (args : list string) : prog bool :=
  if 4 <? length args then
    opt ← transform_upper (args !!! 4);
    mret (bool_decide (opt = "WITHSCORES"))
  else mret false.

Definition ZRangeCommand_execute (core_id : nat) (conn_id : Z) (args : list string) : prog string :=
  if length args <? 4 then mret (err_args "zrange") else
  if_local core_id conn_id args (
    find_existing core_id (args !!! 1) ZSET empty_array (λ zset_ptr,
      try_catch (
        start ← lift (stoi (args !!! 2));
        stop ← lift (stoi (args !!! 3));
        z ← load_zset core_id zset_ptr;
        b ← range_bounds start stop (to_int (Z.of_nat (zset_size z)));
        match b with
        | None => mret empty_array
        | Some (start, stop) =>
            withscores ← zrange_option args;
            count ← int_arith (stop - start + 1);
            n ← int_arith (count * (if withscores then 2 else 1))%Z;
            zrange_loop (drop (Z.to_nat start) (tree z)) (Z.to_nat count) withscores
              (array_header n)
        end)
      (mret err_not_integer))).

Definition ZRemCommand_execute (core_id : nat) (conn_id : Z) (args : list string) : prog string :=
  if length args <? 3 then mret (err_args "zrem") else
  if_local core_id conn_id args (
    find_existing core_id (args !!! 1) ZSET (integer 0) (λ zset_ptr,
      removed ← foldM (λ removed x,
        z ← load_zset core_id zset_ptr;
        let '(z', erased) := zset_erase z x in
        store core_id zset_ptr (VZSet z');;
        mret (if erased : bool then removed + 1 else removed)%Z) 0%Z (drop 2 args);
      mret (integer removed))).

Definition ZCardCommand_execute (core_id : nat) (conn_id : Z) (args : list string) : prog string :=
  if negb (length args =? 2) then mret (err_args "zcard") else
  if_local core_id conn_id args (
    find_existing core_id (args !!! 1) ZSET (integer 0) (λ zset_ptr,
      z ← load_zset core_id zset_ptr;
      mret (integer (Z.of_nat (zset_size z))))).

Definition ZScoreCommand_execute (core_id : nat) (conn_id : Z) (args : list string) : prog string :=
  if negb (length args =? 3) then mret (err_args "zscore") else
  if_local core_id conn_id args (
    find_existing core_id (args !!! 1) ZSET nil_reply (λ zset_ptr,
      z ← load_zset core_id zset_ptr;
      mret (match dict z !! (args !!! 2) with
            | None => nil_reply
            | Some sc => bulk (format_score sc)
            end))).

Definition ZAddCommand : Command := mkCommand "ZADD" ZAddCommand_execute.
Definition ZRangeCommand : Command := mkCommand "ZRANGE" ZRangeCommand_execute.
Definition ZRemCommand : Command := mkCommand "ZREM" ZRemCommand_execute.
Definition ZCardCommand : Command := mkCommand "ZCARD" ZCardCommand_execute.
Definition ZScoreCommand : Command := mkCommand "ZSCORE" ZScoreCommand_execute.

End commands.

(** ** What the commands compute, as functions of the sorted set at the key *)

(** The pairs of a [ZADD] before the first score that does not parse, and
    whether every score parses. *)
Fixpoint zadd_prefix (l : list string) : list ZSetEntry :=
  match l with
  | s :: m :: rest =>
      match stod s with Ok sc => mkEntry sc m :: zadd_prefix rest | _ => [] end
  | _ => []
  end.

Fixpoint zadd_parses (l : list string) : bool :=
  match l with
  | s :: m :: rest => match stod s with Ok _ => zadd_parses rest | _ => false end
  | _ => true
  end.

(** A member with an equal score keeps the score it has (so [0.0] and [-0.0]
    do not replace each other); any other score is stored. *)
Definition zadd_one (z : ZSet) (e : ZSetEntry) : ZSet :=
  if match dict z !! member e with Some old => deq old (score e) | None => false end then z
  else match zset_insert z e with Ok z' => z' | _ => z end.
Definition zadd_all (z : ZSet) (es : list ZSetEntry) : ZSet := fold_left zadd_one es z.

Definition zadd_fn (l : list string) (v : Value) : string * action :=
  match v with
  | VZSet z =>
      let z' := zadd_all z (zadd_prefix l) in
      (if zadd_parses l then integer (Z.of_nat (zset_size z') - Z.of_nat (zset_size z))
       else err_not_float, Write (VZSet z'))
  | _ => (err_wrongtype, Keep)
  end.

Definition zrem_all (z : ZSet) (ms : list string) : ZSet :=
  fold_left (λ z m, (zset_erase z m).1) ms z.

Definition zrem_fn (ms : list string) (v : Value) : string * action :=
  match v with
  | VZSet z => (integer (Z.of_nat (zset_size z) - Z.of_nat (zset_size (zrem_all z ms))),
                Write (VZSet (zrem_all z ms)))
  | _ => (err_wrongtype, Keep)
  end.

Definition zcard_fn (v : Value) : string * action :=
  match v with
  | VZSet z => (integer (Z.of_nat (zset_size z)), Keep)
  | _ => (err_wrongtype, Keep)
  end.

Definition zscore_fn (m : string) (v : Value) : string * action :=
  match v with
  | VZSet z => (match dict z !! m with None => nil_reply | Some sc => bulk (format_score sc) end,
                Keep)
  | _ => (err_wrongtype, Keep)
  end.

(** One element of a [ZRANGE] reply. *)
Definition zrange_item (withscores : bool) (e : ZSetEntry) : string :=
  if withscores then bulk (member e) +:+ bulk (format_score (score e)) else bulk (member e).

Definition zrange_reply (withscores : bool) (es : list ZSetEntry) : string :=
  fold_left (λ resp e, resp +:+ zrange_item withscores e) es
    (array_header (Z.of_nat (length es) * (if withscores then 2 else 1))).

Definition zrange_fn (a b : string) (withscores : bool) (v : Value) : string * action :=
  match v, stoi a, stoi b with
  | VZSet z, Ok i, Ok j => (zrange_reply withscores (slice (tree z) i j), Keep)
  | VZSet _, _, _ => (err_not_integer, Keep)
  | _, _, _ => (err_wrongtype, Keep)
  end.

(** ** Their effect on the scores *)

Lemma zadd_one_spec z e :
  zset_wf z → is_nan (score e) = false →
  zset_wf (zadd_one z e) ∧
  dict (zadd_one z e) =
    (if match dict z !! member e with Some old => deq old (score e) | None => false end
     then dict z else <[member e := score e]> (dict z)).
Proof.
  intros Hwf Hn. unfold zadd_one. case_match; [done|].
  by destruct (zset_insert_spec z Hwf e Hn) as (z' & -> & ? & ? & _).
Qed.

Lemma zadd_one_size z e :
  zset_wf z → is_nan (score e) = false →
  zset_size (zadd_one z e) =
    (zset_size z + match dict z !! member e with Some _ => 0 | None => 1 end)%nat.
Proof.
  intros Hwf Hn. destruct (zadd_one_spec z e Hwf Hn) as [Hwf' Hd].
  rewrite !zset_size_dict, Hd by done. destruct (dict z !! member e) eqn:E.
  - case_match; [lia|]. rewrite map_size_insert_Some by by eexists. lia.
  - rewrite map_size_insert_None by done. lia.
Qed.

Lemma zadd_all_wf es z :
  zset_wf z → Forall (λ e, is_nan (score e) = false) es → zset_wf (zadd_all z es).
Proof.
  revert z. induction es as [|e es IH]; intros z Hwf Hn; [done|].
  apply Forall_cons in Hn as [He Hn]. simpl. apply IH; [|done].
  by destruct (zadd_one_spec z e Hwf He).
Qed.

(** Scores up to numeric equality ([0.0] and [-0.0] are one). *)
Definition score_keys (z : ZSet) : gmap string Z := d_key <$> dict z.

Lemma zadd_one_keys z e :
  zset_wf z → is_nan (score e) = false →
  score_keys (zadd_one z e) = <[member e := d_key (score e)]> (score_keys z).
Proof.
  intros Hwf Hn. destruct (zadd_one_spec z e Hwf Hn) as [_ Hd]. unfold score_keys. rewrite Hd.
  destruct (dict z !! member e) as [old|] eqn:E; [|by rewrite fmap_insert].
  destruct (deq old (score e)) eqn:Eq; [|by rewrite fmap_insert].
  assert (is_nan old = false) as Ho.
  { apply (zw_number z Hwf (mkEntry old (member e))). by apply (zw_agree z Hwf). }
  rewrite deq_spec in Eq by done. apply Z.eqb_eq in Eq.
  rewrite <- Eq, <- fmap_insert, insert_id; done.
Qed.

Lemma zadd_all_keys es z :
  zset_wf z → Forall (λ e, is_nan (score e) = false) es →
  score_keys (zadd_all z es) =
    list_to_map (reverse ((λ e, (member e, d_key (score e))) <$> es)) ∪ score_keys z.
Proof.
  revert z. induction es as [|e es IH]; intros z Hwf Hn.
  { simpl. by rewrite (left_id_L ∅ (∪)). }
  apply Forall_cons in Hn as [He Hn]. cbn [zadd_all fold_left fmap list_fmap].
  change (fold_left zadd_one es (zadd_one z e)) with (zadd_all (zadd_one z e) es).
  rewrite IH by (try done; by apply zadd_one_spec). rewrite zadd_one_keys by done.
  rewrite reverse_cons, list_to_map_app. simpl.
  rewrite <- (assoc_L (∪)). f_equal. by rewrite insert_union_singleton_l.
Qed.

(** The entries a sequence of pairs that parse stands for. *)
Definition parses_as (p : string * string) (e : ZSetEntry) : Prop :=
  stod p.1 = Ok (score e) ∧ p.2 = member e ∧ is_nan (score e) = false.

Lemma zadd_prefix_flatten ps es rest :
  Forall2 parses_as ps es →
  zadd_prefix (flatten ps ++ rest) = es ++ zadd_prefix rest ∧
  zadd_parses (flatten ps ++ rest) = zadd_parses rest ∧
  Forall (λ e, is_nan (score e) = false) es.
Proof.
  induction 1 as [|[s m] [sc m'] ps es (Hs & Hm & Hn) _ (IH1 & IH2 & IH3)]; [done|].
  rewrite flatten_cons. simpl in *. subst m'. rewrite Hs, IH1, IH2. split_and!; [done|done|by constructor].
Qed.

Lemma zrem_all_nil ms : zrem_all zset_empty ms = zset_empty.
Proof. induction ms as [|m ms IH]; [done|]. cbn [zrem_all fold_left]. unfold zset_erase. simpl.
  by rewrite lookup_empty.
Qed.

Lemma zrem_all_spec ms z :
  zset_wf z →
  zset_wf (zrem_all z ms) ∧
  ∀ m, dict (zrem_all z ms) !! m = if decide (m ∈ ms) then None else dict z !! m.
Proof.
  revert z. induction ms as [|m' ms IH]; intros z Hwf; simpl; [done|].
  destruct (zset_erase_spec z Hwf m') as (Hwf' & Hd & _ & _).
  destruct (IH _ Hwf') as [? Hl]. split; [done|]. intros m. rewrite Hl, Hd.
  destruct (decide (m = m')) as [->|]; simplify_map_eq; repeat case_decide; set_solver.
Qed.

Definition zrem_step (n : Z) (y : string) (v : Value) : Value * Z :=
  match v with
  | VZSet z => (VZSet (zset_erase z y).1, if (zset_erase z y).2 then n + 1 else n)%Z
  | v => (v, n)
  end.

Lemma zrem_count ms z n :
  zset_wf z →
  fold_left (λ r y, zrem_step r.2 y r.1) ms (VZSet z, n) =
  (VZSet (zrem_all z ms), n + (Z.of_nat (zset_size z) - Z.of_nat (zset_size (zrem_all z ms))))%Z.
Proof.
  revert z n. induction ms as [|m ms IH]; intros z n Hwf; simpl; [f_equal; lia|].
  destruct (zset_erase_spec z Hwf m) as (Hwf' & Hd & Hb & _). rewrite IH by done. f_equal.
  assert (zset_size z = (zset_size (zset_erase z m).1 + if (zset_erase z m).2 then 1 else 0)%nat)
    as Hl.
  { rewrite !zset_size_dict, Hd, Hb by done. case_bool_decide as Hm.
    - rewrite map_size_delete_Some by done. destruct Hm as [s Hm].
      destruct (size (dict z)) eqn:Es; [|lia].
      apply map_size_empty_inv in Es. by rewrite Es, lookup_empty in Hm.
    - apply eq_None_not_Some in Hm. rewrite delete_id by done. lia. }
  destruct (zset_erase z m) as [z' []]; simpl in *; lia.
Qed.

(** ** The commands refine these functions *)

Lemma zrange_loop_ok es n ws resp (w : World) :
  n ≤ length es →
  zrange_loop es n ws resp w =
    (Ok (fold_left (λ resp e, resp +:+ zrange_item ws e) (take n es) resp), w).
Proof.
  revert n resp. induction es as [|e es IH]; intros [|n] resp Hn; simpl in *; try done; [lia|].
  rewrite IH by lia. unfold zrange_item. destruct ws; [|done].
  by rewrite string_app_assoc.
Qed.

Section refinement.
Context `{StdHash} (w : World) (c : nat) (conn_id : Z) (args : list string).
Hypothesis Hk : get_target_core (topo w) (args !!! 1) = c.
Let k := args !!! 1.

Lemma zadd_loop_cons d x p n s y l sc :
  c < length (shards_ (topo w)) → stod s = Ok sc → is_nan sc = false →
  ∀ z sh a, points d x k p (VZSet z) sh →
  ∃ sh1, points d x k p (VZSet (zadd_one z (mkEntry sc y))) sh1 ∧
    zadd_loop c (Some p) (s :: y :: l) a (at_shard w c sh n) =
    zadd_loop c (Some p) l (match dict z !! y with Some _ => a | None => a + 1 end)%Z
      (at_shard w c sh1 n).
Proof.
  intros Hc Es Hsc z sh a Hp. cbn [zadd_loop]. rewrite Es.
  pose proof (points_value_wf _ _ _ _ _ _ Hp) as Hwf; simpl in Hwf.
  destruct (zset_insert_spec z Hwf (mkEntry sc y) Hsc) as (z' & Ez & Hwf' & _).
  erewrite bind_ok by by eapply run_load_zset.
  unfold zadd_one. cbn [member score]. rewrite Ez.
  destruct (dict z !! y) as [old|]; [destruct (deq old sc)|].
  - by exists sh.
  - eexists. split; [by eapply points_store|].
    cbn [negb]. erewrite bind_ok; [done|]. erewrite bind_ok by done. by apply run_store.
  - eexists. split; [by eapply points_store|].
    erewrite bind_ok by done. by erewrite bind_ok by by apply run_store.
Qed.

Lemma zadd_loop_ok d x p n l :
  c < length (shards_ (topo w)) → Nat.Even (length l) →
  Forall (λ e, is_nan (score e) = false) (zadd_prefix l) →
  ∀ z sh a, points d x k p (VZSet z) sh →
  ∃ sh', zadd_loop c (Some p) l a (at_shard w c sh n) =
      (Ok (if zadd_parses l
           then integer (a + (Z.of_nat (zset_size (zadd_all z (zadd_prefix l))) -
                              Z.of_nat (zset_size z)))
           else err_not_float), at_shard w c sh' n) ∧
    points d x k p (VZSet (zadd_all z (zadd_prefix l))) sh'.
Proof.
  intros Hc. induction l as [l IH] using (induction_ltof1 _ length); unfold ltof in IH.
  intros [m Hm] Hnan z sh a Hp. destruct l as [|s [|y l]]; simpl in Hm; [|lia|].
  { exists sh. simpl. by rewrite Z.sub_diag, Z.add_0_r. }
  cbn [zadd_loop zadd_prefix zadd_parses] in *.
  destruct (stod s) as [sc|e|] eqn:Es; [|by exists sh|by apply stod_defined in Es].
  apply Forall_cons in Hnan as [Hsc Hnan]. simpl in Hsc.
  pose proof (points_value_wf _ _ _ _ _ _ Hp) as Hwf; simpl in Hwf.
  pose proof (zadd_one_size z (mkEntry sc y) Hwf Hsc) as Hsz.
  destruct (zadd_loop_cons d x p n s y l sc Hc Es Hsc z sh a Hp) as (sh1 & Hp1 & Hrun).
  cbn [zadd_loop] in Hrun. rewrite Es in Hrun. rewrite Hrun.
  destruct (IH l ltac:(simpl; lia) ltac:(exists (m - 1); lia) Hnan _ _
    (match dict z !! y with Some _ => a | None => a + 1 end)%Z Hp1) as (sh' & E & Hp').
  exists sh'. split; [|done]. rewrite E. f_equal. f_equal. destruct (zadd_parses l); [|done].
  f_equal. simpl in *. rewrite Hsz. destruct (dict z !! y); lia.
Qed.

Lemma zadd_refines :
  4 ≤ length args → Nat.even (length args) = true →
  Forall (λ e, is_nan (score e) = false) (zadd_prefix (drop 2 args)) →
  refines (ZAddCommand_execute c conn_id args)
    (creating ZSET (VZSet zset_empty) (zadd_fn (drop 2 args))) w c k.
Proof using Hk.
  intros Hn [m He]%Nat.even_spec Hnan. unfold ZAddCommand_execute.
  rewrite (proj2 (Nat.ltb_ge _ _)) by done.
  replace (length args mod 2) with 0 by (rewrite He; symmetry; by rewrite Nat.mul_comm, Nat.Div0.mod_mul).
  simpl. apply refines_if_local; [done|].
  apply refines_find_or_create; [|apply zset_empty_wf|done..].
  intros v d x p sh n Hc _ [z ->]%type_zset Hp.
  destruct (zadd_loop_ok d x p n (drop 2 args) Hc ltac:(exists (m - 1); rewrite length_drop; lia)
    Hnan z sh 0%Z Hp) as (sh' & E & Hp').
  exists sh'. rewrite E. done.
Qed.

Lemma zrem_refines :
  3 ≤ length args →
  refines (ZRemCommand_execute c conn_id args)
    (existing ZSET (integer 0) (zrem_fn (drop 2 args))) w c k.
Proof using Hk.
  intros Hn. unfold ZRemCommand_execute. rewrite (proj2 (Nat.ltb_ge _ _)) by done.
  apply refines_if_local; [done|]. apply refines_find_existing.
  intros v d x p sh n Hc _ [z ->]%type_zset Hp.
  pose proof (points_value_wf _ _ _ _ _ _ Hp) as Hs; simpl in Hs.
  cbv beta. match goal with |- context [foldM ?g _ _] => destruct (run_fold w c g zrem_step
    (λ v, ∃ z, v = VZSet z ∧ zset_wf z) d x k p (drop 2 args))
    with (b := 0%Z) (v := VZSet z) (sh := sh) (n := n) as (sh' & E & Hp' & _) end;
    [|eauto|done|].
  2:{ rewrite zrem_count in E, Hp' by done. erewrite bind_ok by exact E. by exists sh'. }
  intros b y v sh' n' (z' & -> & Hs') Hp'. destruct (zset_erase_spec z' Hs' y) as [Hi _].
  split_and!; [|done|by eexists]. erewrite bind_ok by by eapply run_load_zset.
  unfold zrem_step. destruct (zset_erase z' y) as [z'' i]. cbn [fst snd].
  by erewrite bind_ok by by apply run_store.
Qed.

Lemma zcard_refines :
  length args = 2 →
  refines (ZCardCommand_execute c conn_id args) (existing ZSET (integer 0) zcard_fn) w c k.
Proof using Hk.
  intros Hn. unfold ZCardCommand_execute. rewrite Hn. simpl.
  apply refines_if_local; [done|]. apply refines_find_existing.
  intros v d x p sh n Hc _ [z ->]%type_zset Hp.
  erewrite bind_ok by by eapply run_load_zset. simpl. eauto.
Qed.

Lemma zscore_refines :
  length args = 3 →
  refines (ZScoreCommand_execute c conn_id args)
    (existing ZSET nil_reply (zscore_fn (args !!! 2))) w c k.
Proof using Hk.
  intros Hn. unfold ZScoreCommand_execute. rewrite Hn. simpl.
  apply refines_if_local; [done|]. apply refines_find_existing.
  intros v d x p sh n Hc _ [z ->]%type_zset Hp.
  erewrite bind_ok by by eapply run_load_zset. simpl. eauto.
Qed.

(** [ZRANGE] counts twice the number of entries in an [int]. *)
Definition zset_fits (o : option Value) : Prop :=
  ∀ z, o = Some (VZSet z) → (2 * Z.of_nat (zset_size z) ≤ int_max)%Z.

Definition withscores (args : list string) : bool :=
  (4 <? length args) && bool_decide (to_upper (args !!! 4) = "WITHSCORES").

(** The option, if there is one, is within what [toupper] is defined on. *)
Definition option_plain (args : list string) : bool :=
  negb (4 <? length args) || plain (args !!! 4).

Lemma zrange_option_plain :
  option_plain args = true → zrange_option args = mret (withscores args).
Proof.
  unfold option_plain, zrange_option, withscores. destruct (4 <? length args); [|done].
  simpl. intros Hp. by rewrite transform_plain.
Qed.

Lemma zrange_option_undefined :
  option_plain args = false → zrange_option args = undefined ∧ withscores args = false.
Proof.
  unfold option_plain, zrange_option, withscores. destruct (4 <? length args); [|done].
  simpl. intros Hp. unfold transform_upper. rewrite Hp. split; [done|].
  apply bool_decide_eq_false_2. intros Hw. rewrite <- plain_upper, Hw in Hp. done.
Qed.

(** An option [toupper] is not defined on is undefined once it is looked at; when
    it is not, the command does what it does without it. *)
Lemma zrange_ignored :
  4 ≤ length args → option_plain args = false →
  let r := ZRangeCommand_execute c conn_id args w in
  r.1 = Undefined ∨ r = ZRangeCommand_execute c conn_id (take 4 args) w.
Proof using Hk.
  intros Hn [Ho _]%zrange_option_undefined r. unfold r, ZRangeCommand_execute.
  rewrite length_take, Nat.min_l, (proj2 (Nat.ltb_ge _ _)) by done. simpl.
  rewrite !if_local_owner by (rewrite ?lookup_total_take by lia; done).
  rewrite !lookup_total_take by lia. revert w r Hk. intros w0 _ _. revert w0.
  apply agrees_bind; [apply agrees_refl|]. intros [q|]; [|apply agrees_refl].
  apply agrees_bind; [apply agrees_refl|]. intros [p|]; [|apply agrees_refl].
  apply agrees_try. do 3 (apply agrees_bind; [apply agrees_refl|intros ?]).
  apply agrees_bind; [apply agrees_refl|]. intros [[i j]|]; [|apply agrees_refl].
  rewrite Ho. intros s. by left.
Qed.

Lemma zrange_refines :
  4 ≤ length args → option_plain args = true →
  refines_when zset_fits (ZRangeCommand_execute c conn_id args)
    (existing ZSET empty_array (zrange_fn (args !!! 2) (args !!! 3) (withscores args))) w c k.
Proof using Hk.
  intros Hn Ho. unfold ZRangeCommand_execute. rewrite (proj2 (Nat.ltb_ge _ _)) by done.
  rewrite (zrange_option_plain Ho). apply refines_if_local; [done|]. apply refines_find_existing.
  intros v d x p sh n Hc Hfit [z ->]%type_zset Hp. specialize (Hfit z eq_refl).
  unfold try_catch, zrange_fn, zset_size in *. exists sh.
  destruct (stoi (args !!! 2)) as [i|e|] eqn:Ei; [| |by apply stoi_defined in Ei].
  2:{ split; [done|]. by destruct (stoi (args !!! 3)). }
  destruct (stoi (args !!! 3)) as [j|e|] eqn:Ej; [|done|by apply stoi_defined in Ej].
  apply sto_range in Ei, Ej. simpl.
  erewrite (bind_ok (lift (Ok i))) by done. erewrite (bind_ok (lift (Ok j))) by done.
  erewrite bind_ok by by eapply run_load_zset.
  rewrite to_int_small by lia.
  erewrite bind_ok by (apply range_bounds_ok; [done|done|lia]).
  set (start := norm_index _ i). set (stop := Z.min _ (norm_index _ j)).
  destruct (Z.leb_spec start stop) as [Hle|Hlt].
  - assert (0 ≤ start)%Z by (unfold start, norm_index; case_match; lia).
    assert (stop < Z.of_nat (length (tree z)))%Z by (unfold stop; lia).
    rewrite bind_ret_l. erewrite bind_ok by (apply int_arith_ok; unfold int_min, int_max in *; lia).
    erewrite bind_ok by (apply int_arith_ok; unfold int_min, int_max in *; case_match; lia).
    rewrite zrange_loop_ok by (rewrite length_drop; lia).
    split; [|done]. unfold zrange_reply, slice.
    fold start stop. by rewrite take_drop_length by lia.
  - by rewrite (slice_empty (tree z) i j).
Qed.

End refinement.
