(* ===== verification/Spec.v ===== *)
(** * The database the server promises: an abstract specification

    A key holds a [content] (a string, a list, a finite set, a finite map from
    fields to values, or a finite map from members to scores) and perhaps a
    deadline.  A command is specified by one [Spec]: the number of arguments it
    takes and its effect, a function of the two clock readings, its arguments and
    what the key holds, to a reply and what the key holds afterwards.  Nothing
    here mentions tables, slots, sorted containers, pointers or cores;
    [DatabaseRefinement] shows that the commands of the server implement it. *)
From S2P Require Import Prelude CxxString Double Containers Value Shard Command Ranges Wire HashCommands ZSetCommands.
From Stdlib Require Import ZArith Lia.
From stdpp Require Import prelude gmap strings list_numbers sorting.

(** ** Contents *)

Inductive content :=
  | CNone
  | CString (s : string)
  | CList (l : list string)
  | CSet (X : gset string)
  | CHash (M : gmap string string)
  | CZSet (M : gmap string double).

#[export] Instance content_eq_dec : EqDecision content.
Proof. solve_decision. Defined.

(** What a key holds: a content and perhaps a deadline. *)
Abbreviation centry := (content * option Z)%type.

(** What the rest of the world sees of it at time [t]. *)
Definition live (t : Z) (e : option centry) : option centry :=
  e ≫= λ e, match e.2 with
            | Some d => if (d <? t)%Z then None else Some e
            | None => Some e
            end.

Definition as_list (c : content) : option (list string) :=
  match c with CList l => Some l | _ => None end.
Definition as_set (c : content) : option (gset string) :=
  match c with CSet X => Some X | _ => None end.
Definition as_hash (c : content) : option (gmap string string) :=
  match c with CHash M => Some M | _ => None end.
Definition as_zset (c : content) : option (gmap string double) :=
  match c with CZSet M => Some M | _ => None end.

(** ** Listing a set or a map in order *)

Section sorting.
Context {A K : Type} (key : A → K) (kltb : K → K → bool).

Definition sort_le (x y : A) : Prop := kltb (key y) (key x) = false.
#[export] Instance sort_le_dec : RelDecision sort_le.
Proof. intros x y. unfold sort_le. apply _. Defined.

Definition sort_by (l : list A) : list A := merge_sort sort_le l.
End sorting.

Definition set_list (X : gset string) : list string := sort_by (λ x, x) string_ltb (elements X).
Definition hash_list (M : gmap string string) : list (string * string) :=
  sort_by fst string_ltb (map_to_list M).
(** By score, then by member. *)
Definition zset_list (M : gmap string double) : list (string * double) :=
  sort_by (λ p, (d_key p.2, p.1)) pair_ltb (map_to_list M).

(** ** Replies *)

Definition wrong_args (cmd : string) : resp :=
  RError ("ERR wrong number of arguments for '" +:+ cmd +:+ "'").
Definition wrong_kind : resp :=
  RError "ERR WRONGTYPE Operation against a key holding the wrong kind of value".
Definition not_integer : resp := RError "ERR value is not an integer or out of range".
Definition not_float : resp := RError "ERR value is not a valid float".
Definition count (n : nat) : resp := RInt (Z.of_nat n).
Definition maybe_bulk (o : option string) : resp :=
  match o with Some s => RBulk s | None => RNil end.

(** ** Effects on the content of a live key

    [None] for the new content: it stays as it is. *)

Abbreviation effect := (option content → resp * option content).

(** A command for one kind of content: [missing] is its reply for an absent
    key. *)
Definition reading {A} (as_kind : content → option A) (missing : resp) (f : A → resp) : effect :=
  λ o, match o with
       | None => (missing, None)
       | Some c => match as_kind c with Some a => (f a, None) | None => (wrong_kind, None) end
       end.

Definition updating {A} (as_kind : content → option A) (mk : A → content) (missing : resp)
    (f : A → resp * A) : effect :=
  λ o, match o with
       | None => (missing, None)
       | Some c =>
           match as_kind c with
           | Some a => ((f a).1, Some (mk (f a).2))
           | None => (wrong_kind, None)
           end
       end.

(** An absent key is taken to hold [fresh]. *)
Definition making {A} (as_kind : content → option A) (mk : A → content) (fresh : A)
    (f : A → resp * A) : effect :=
  λ o, match o with
       | None => ((f fresh).1, Some (mk (f fresh).2))
       | Some c => updating as_kind mk RNil f (Some c)
       end.

Definition e_get : effect := λ o,
  (match o with
   | None => RNil
   | Some (CString s) => RBulk s
   | Some _ => wrong_kind
   end, None).

Definition e_lpush (xs : list string) : effect :=
  making as_list CList [] (λ l, (count (length xs + length l), reverse xs ++ l)).
Definition e_rpush (xs : list string) : effect :=
  making as_list CList [] (λ l, (count (length l + length xs), l ++ xs)).
Definition e_lpop : effect :=
  updating as_list CList RNil (λ l, (maybe_bulk (head l), tail l)).
Definition e_rpop : effect :=
  updating as_list CList RNil (λ l, (maybe_bulk (last l), removelast l)).
Definition e_llen : effect := reading as_list (RInt 0) (λ l, count (length l)).
Definition e_lrange (a b : string) : effect :=
  reading as_list (RArray []) (λ l,
    match stoi a, stoi b with
    | Ok i, Ok j => RArray (slice l i j)
    | _, _ => not_integer
    end).

Definition e_sadd (xs : list string) : effect :=
  making as_set CSet ∅ (λ X, (count (size (list_to_set xs ∖ X)), X ∪ list_to_set xs)).
Definition e_srem (xs : list string) : effect :=
  updating as_set CSet (RInt 0) (λ X, (count (size (X ∩ list_to_set xs)), X ∖ list_to_set xs)).
Definition e_smembers : effect := reading as_set (RArray []) (λ X, RArray (set_list X)).
Definition e_scard : effect := reading as_set (RInt 0) (λ X, count (size X)).

Definition without {V} (M : gmap string V) (ks : list string) : gmap string V :=
  filter (λ p, p.1 ∉ ks) M.

Definition e_hset (ps : list (string * string)) : effect :=
  making as_hash CHash ∅ (λ M,
    let M' := list_to_map (reverse ps) ∪ M in (count (size M' - size M), M')).
Definition e_hget (f : string) : effect := reading as_hash RNil (λ M, maybe_bulk (M !! f)).
Definition e_hgetall : effect := reading as_hash (RArray []) (λ M, RArray (flatten (hash_list M))).
Definition e_hdel (fs : list string) : effect :=
  updating as_hash CHash (RInt 0) (λ M, (count (size M - size (without M fs)), without M fs)).
Definition e_hlen : effect := reading as_hash (RInt 0) (λ M, count (size M)).

(** A member keeps its score when the new one is numerically equal. *)
Definition put_score (M : gmap string double) (e : ZSetEntry) : gmap string double :=
  if match M !! member e with Some old => deq old (score e) | None => false end then M
  else <[member e := score e]> M.

(** The pairs before a score that does not parse are stored all the same. *)
Definition e_zadd (l : list string) : effect :=
  making as_zset CZSet ∅ (λ M,
    let M' := fold_left put_score (zadd_prefix l) M in
    (if zadd_parses l then count (size M' - size M) else not_float, M')).
Definition e_zrem (ms : list string) : effect :=
  updating as_zset CZSet (RInt 0) (λ M, (count (size M - size (without M ms)), without M ms)).
Definition e_zcard : effect := reading as_zset (RInt 0) (λ M, count (size M)).
Definition e_zscore (m : string) : effect :=
  reading as_zset RNil (λ M, maybe_bulk (format_score <$> M !! m)).

(** A member, with its score behind it on request. *)
Definition zset_item (scores : bool) (p : string * double) : list string :=
  if scores then [p.1; format_score p.2] else [p.1].
Definition e_zrange (a b : string) (scores : bool) : effect :=
  reading as_zset (RArray []) (λ M,
    match stoi a, stoi b with
    | Ok i, Ok j => RArray (slice (zset_list M) i j ≫= zset_item scores)
    | _, _ => not_integer
    end).

(** ** Commands *)

(** [sp_effect t t' args e]: [t] is the time of the first clock reading, which
    decides whether the key is live, [t'] of the second. *)
Record Spec := mkSpec {
  sp_name : string;
  sp_lower : string;               (* as the argument error spells it *)
  sp_arity : nat → bool;
  sp_effect : Z → Z → list string → option centry → resp * option centry
}.

(** The effect on an entry: an expired one is dropped first, a write keeps the
    deadline. *)
Definition on_live (f : list string → effect) (t t' : Z) (args : list string) (e : option centry)
    : resp * option centry :=
  let o := live t e in
  let '(r, c) := f args (fst <$> o) in
  (r, match c with Some c => Some (c, o ≫= snd) | None => o end).

Definition s_set (t t' : Z) (args : list string) (e : option centry) : resp * option centry :=
  (RSimple "OK", Some (CString (args !!! 2), None)).

(** An expired key that nothing has dropped yet counts. *)
Definition s_del (t t' : Z) (args : list string) (e : option centry) : resp * option centry :=
  (RInt (match e with Some _ => 1 | None => 0 end), None).

Definition s_expire (t t' : Z) (args : list string) (e : option centry) : resp * option centry :=
  match stol (args !!! 2) with
  | Ok seconds =>
      match live t e with
      | Some (c, _) => (RInt 1, Some (c, Some (t' + seconds * 1000)%Z))
      | None => (RInt 0, None)
      end
  | _ => (not_integer, e)
  end.

Definition ttl_left (t' : Z) (d : option Z) : Z :=
  let d := default (-1)%Z d in
  if (d =? -1)%Z then -1 else if (d - t' <? 0)%Z then -2 else Z.quot (d - t') 1000.

Definition s_ttl (t t' : Z) (args : list string) (e : option centry) : resp * option centry :=
  (RInt (match live t e with Some (_, d) => ttl_left t' d | None => -2 end), live t e).

Definition exact (n m : nat) : bool := m =? n.
Definition least (n m : nat) : bool := n <=? m.
Definition pairs (m : nat) : bool := (4 <=? m) && (m mod 2 =? 0).

Definition specs : list Spec :=
  [ mkSpec "SET" "set" (exact 3) s_set;
    mkSpec "GET" "get" (exact 2) (on_live (λ _, e_get));
    mkSpec "DEL" "del" (exact 2) s_del;
    mkSpec "LPUSH" "lpush" (least 3) (on_live (λ args, e_lpush (drop 2 args)));
    mkSpec "LPOP" "lpop" (exact 2) (on_live (λ _, e_lpop));
    mkSpec "LRANGE" "lrange" (exact 4) (on_live (λ args, e_lrange (args !!! 2) (args !!! 3)));
    mkSpec "RPUSH" "rpush" (least 3) (on_live (λ args, e_rpush (drop 2 args)));
    mkSpec "RPOP" "rpop" (exact 2) (on_live (λ _, e_rpop));
    mkSpec "LLEN" "llen" (exact 2) (on_live (λ _, e_llen));
    mkSpec "SADD" "sadd" (least 3) (on_live (λ args, e_sadd (drop 2 args)));
    mkSpec "SMEMBERS" "smembers" (exact 2) (on_live (λ _, e_smembers));
    mkSpec "SCARD" "scard" (exact 2) (on_live (λ _, e_scard));
    mkSpec "SREM" "srem" (least 3) (on_live (λ args, e_srem (drop 2 args)));
    mkSpec "HSET" "hset" pairs (on_live (λ args, e_hset (pairs_of (drop 2 args))));
    mkSpec "HGET" "hget" (exact 3) (on_live (λ args, e_hget (args !!! 2)));
    mkSpec "HGETALL" "hgetall" (exact 2) (on_live (λ _, e_hgetall));
    mkSpec "HDEL" "hdel" (least 3) (on_live (λ args, e_hdel (drop 2 args)));
    mkSpec "HLEN" "hlen" (exact 2) (on_live (λ _, e_hlen));
    mkSpec "ZADD" "zadd" pairs (on_live (λ args, e_zadd (drop 2 args)));
    mkSpec "ZRANGE" "zrange" (least 4)
      (on_live (λ args, e_zrange (args !!! 2) (args !!! 3) (withscores args)));
    mkSpec "ZREM" "zrem" (least 3) (on_live (λ args, e_zrem (drop 2 args)));
    mkSpec "ZCARD" "zcard" (exact 2) (on_live (λ _, e_zcard));
    mkSpec "ZSCORE" "zscore" (exact 3) (on_live (λ args, e_zscore (args !!! 2)));
    mkSpec "EXPIRE" "expire" (exact 3) s_expire;
    mkSpec "TTL" "ttl" (exact 2) s_ttl ].

(** One command on one key. *)
Definition sp_run (sp : Spec) (t t' : Z) (args : list string) (e : option centry)
    : resp * option centry :=
  if sp_arity sp (length args) then sp_effect sp t t' args e else (wrong_args (sp_lower sp), e).

Definition find_spec (name : string) : option Spec :=
  snd <$> list_find (λ sp, sp_name sp = name) specs.

(** Where the server's integer types can count the elements of the reply. *)
Definition range_ok (name : string) (o : option content) : Prop :=
  match o with
  | Some (CList l) => name = "LRANGE" → (Z.of_nat (length l) ≤ int_max)%Z
  | Some (CZSet M) => name = "ZRANGE" → (2 * Z.of_nat (size M) ≤ int_max)%Z
  | Some (CHash M) => name = "HGETALL" → (Z.of_nat (size M) * 2 < 2 ^ 64)%Z
  | _ => True
  end.
