(* ===== verification/Rdb.v ===== *)
(** * Snapshots (src/persistence/rdb.hpp, rdb_manager.hpp) and SAVE
      (src/commands/admin_commands.hpp)

    A file is its bytes.  Integers and doubles are written as the machine holds
    them, little endian.  Writing never fails half way (the code does not look
    at the stream after opening it); whether a file can be opened for writing is
    a parameter.  An [ifstream] is the bytes left and whether it is still good;
    a variable that a failed read leaves uninitialised makes the run undefined
    when it is used. *)
From S2P Require Import Prelude CxxString Double Containers Value Store HashMap Shard Router Topology Command.
From Stdlib Require Import ZArith Ascii Lia.
From stdpp Require Import prelude gmap strings list_numbers.

(** Whether [std::ofstream(filename)] opens. *)
Class FileSystem := can_write : string → bool.

Definition RDB_MAGIC : bytes := bytes_of_string "QUINEDB".
Definition RDB_VERSION : Z := 1.

Inductive RdbType := T_STRING | T_LIST | T_SET | T_HASH | T_ZSET | EXPIRE_MS | END_OF_FILE.

Definition rdb_code (t : RdbType) : Z :=
  match t with
  | T_STRING => 0 | T_LIST => 1 | T_SET => 2 | T_HASH => 3 | T_ZSET => 4
  | EXPIRE_MS => 252 | END_OF_FILE => 255
  end.

(** [static_cast<RdbType>(type_byte)]; [None] for a value outside the enumeration. *)
Definition rdb_type (b : Z) : option RdbType :=
  if (b =? 0)%Z then Some T_STRING else if (b =? 1)%Z then Some T_LIST
  else if (b =? 2)%Z then Some T_SET else if (b =? 3)%Z then Some T_HASH
  else if (b =? 4)%Z then Some T_ZSET else if (b =? 252)%Z then Some EXPIRE_MS
  else if (b =? 255)%Z then Some END_OF_FILE else None.

(** ** Little-endian integers *)

Fixpoint le_bytes (n : nat) (z : Z) : bytes :=
  match n with
  | O => []
  | S n' => byte_of z :: le_bytes n' (z / 256)
  end.

Fixpoint le_val (b : bytes) : Z :=
  match b with
  | [] => 0
  | c :: b' => byte_val c + 256 * le_val b'
  end.

(** The [long long] with these 64 bits. *)
Definition int64 (z : Z) : Z := ((z + 2 ^ 63) mod 2 ^ 64 - 2 ^ 63)%Z.

(** ** Writing *)

Definition type_byte (t : RdbType) : bytes := le_bytes 1 (rdb_code t).

Definition write_string (s : string) : bytes :=
  let len := uint32 (str_size s) in
  le_bytes 4 len ++ take (Z.to_nat len) (bytes_of_string s).

Definition write_count {A} (l : list A) : bytes := le_bytes 4 (uint32 (Z.of_nat (length l))).

Definition write_entry (key : string) (val : Value) : bytes :=
  match val with
  | VString s => type_byte T_STRING ++ write_string key ++ write_string s
  | VList l => type_byte T_LIST ++ write_string key ++ write_count l ++ (l ≫= write_string)
  | VSet s => type_byte T_SET ++ write_string key ++ write_count s ++ (s ≫= write_string)
  | VHash h => type_byte T_HASH ++ write_string key ++ write_count h ++
      (h ≫= λ p, write_string p.1 ++ write_string p.2)
  | VZSet z => type_byte T_ZSET ++ write_string key ++ write_count (tree z) ++
      (tree z ≫= λ e, le_bytes 8 (score e) ++ write_string (member e))
  | Monostate => []
  end.

Section writing.
Context `{StdHash} `{FileSystem}.

(** What the callback of [for_each] writes for one key. *)
Definition write_key (sh : Shard HashMap) (kv : string * Value) : bytes :=
  let expiry := Shard.get_expiry sh kv.1 in
  (if negb (expiry =? -1)%Z then type_byte EXPIRE_MS ++ le_bytes 8 expiry else []) ++
  write_entry kv.1 kv.2.

Definition write_shard (sh : Shard HashMap) : bytes := Shard.for_each sh ≫= write_key sh.

Definition rdb_header : bytes := RDB_MAGIC ++ le_bytes 4 RDB_VERSION.

(** [ofs.write]. *)
Definition ofs_write (filename : string) (b : bytes) : prog unit :=
  modify (λ w, set_files w (alter (λ c, c ++ b) filename (files w))).

Definition save (filename : string) : prog bool :=
  if negb (can_write filename) then mret false else
  modify (λ w, set_files w (<[filename := []]> (files w)));;
  ofs_write filename rdb_header;;
  t ← gets topo;
  foldM (λ _ i, sh ← get_shard i; ofs_write filename (write_shard sh)) tt (seq 0 (num_cores_ t));;
  ofs_write filename (type_byte END_OF_FILE);;
  mret true.

Definition SaveCommand_execute (core_id : nat) (conn_id : Z) (args : list string) : prog string :=
  saved ← save "data/dump.rdb";
  mret (if saved : bool then ok_reply else "-ERR failed to save" +:+ crlf).

Definition SaveCommand : Command := mkCommand "SAVE" SaveCommand_execute.

End writing.

(** ** Reading *)

Record ifstream := mkIfs { unread : bytes; good : bool }.

(** [ifs.read(buf, n)]: the bytes stored and whether the stream is still good. *)
Definition read_raw (n : Z) : comp ifstream (bytes * bool) := λ s,
  if negb (good s) then (Ok ([], false), s)
  else if (n <=? Z.of_nat (length (unread s)))%Z
  then (Ok (take (Z.to_nat n) (unread s), true), mkIfs (drop (Z.to_nat n) (unread s)) true)
  else (Ok (unread s, false), mkIfs [] false).

(** A read of [n] bytes into an uninitialised integer that is used afterwards. *)
Definition read_int (n : Z) : comp ifstream Z :=
  r ← read_raw n;
  if (r.2 : bool) then mret (le_val r.1) else undefined.

(** [std::string s(len, '\0'); ifs.read(s.data(), len)]. *)
Definition read_string : comp ifstream string :=
  len ← read_int 4;
  r ← read_raw len;
  mret (string_of_bytes (r.1 ++ replicate (Z.to_nat (len - Z.of_nat (length r.1))) "000"%char)).

(** [for (uint32_t i = 0; i < count; ++i)]: a step reads at least four bytes or
    is undefined, so the bytes left bound the number of steps. *)
Fixpoint read_loop {A} (step : A → comp ifstream A) (fuel : nat) (count : Z) (a : A)
  : comp ifstream A :=
  if (count <=? 0)%Z then mret a else
  match fuel with
  | O => undefined
  | S fuel => a' ← step a; read_loop step fuel (count - 1) a'
  end.

Definition read_many {A} (step : A → comp ifstream A) (a : A) : comp ifstream A :=
  count ← read_int 4;
  n ← gets (λ s, length (unread s));
  read_loop step (S n) count a.

Definition read_list : comp ifstream (list string) :=
  read_many (λ l, x ← read_string; mret (l ++ [x])) [].
Definition read_set : comp ifstream (list string) :=
  read_many (λ s, x ← read_string; mret (set_insert x s).1) [].
Definition read_hash : comp ifstream (list (string * string)) :=
  read_many (λ h, field ← read_string; val ← read_string; mret (hash_assign field val h)) [].
Definition read_zset : comp ifstream ZSet :=
  read_many (λ z, score ← read_int 8; member ← read_string;
                  lift (zset_insert z (mkEntry score member))) zset_empty.

(** The two [switch]es on the value type; [None] is [return false]. *)
Definition read_value (t : option RdbType) : comp ifstream (option Value) :=
  match t with
  | Some T_STRING => s ← read_string; mret (Some (VString s))
  | Some T_LIST => l ← read_list; mret (Some (VList l))
  | Some T_SET => s ← read_set; mret (Some (VSet s))
  | Some T_HASH => h ← read_hash; mret (Some (VHash h))
  | Some T_ZSET => z ← read_zset; mret (Some (VZSet z))
  | _ => mret None
  end.

(** One turn of the loop after its type byte: the key to set, its value, and
    the expiry of an [EXPIRE_MS] entry.  When the stream fails at the expiry or
    at the second type byte, the key's length is read uninitialised. *)
Definition read_entry (tb : Z) : comp ifstream (option (string * Value * option Z)) :=
  key ← read_string;
  match rdb_type tb with
  | Some EXPIRE_MS =>
      expiry ← read_int 8;
      tb ← read_int 1;
      key ← read_string;
      val ← read_value (rdb_type tb);
      mret ((λ v, (key, v, Some (int64 expiry))) <$> val)
  | t =>
      val ← read_value t;
      mret ((λ v, (key, v, None)) <$> val)
  end.

Section reading.
Context `{StdHash}.

(** [while (ifs.peek() != EOF)]; every turn takes the type byte. *)
Fixpoint load_loop (fuel : nat) (s : ifstream) : prog bool :=
  match fuel with
  | O => undefined
  | S fuel =>
      if negb (good s) then mret true else
      match unread s with
      | [] => mret true
      | b :: rest =>
          if (byte_val b =? rdb_code END_OF_FILE)%Z then mret true else
          match read_entry (byte_val b) (mkIfs rest true) with
          | (Ok None, _) => mret false
          | (Ok (Some (key, val, expiry)), s') =>
              t ← gets topo;
              let target_core := get_target_core t key in
              shard_set target_core key val;;
              match expiry with
              | Some e => shard_set_expiry target_core key e
              | None => mret tt
              end;;
              load_loop fuel s'
          | (Throw e, _) => throw e
          | (Undefined, _) => undefined
          end
      end
  end.

Definition load_data (data : bytes) : prog bool :=
  if negb (bool_decide (take 7 data = RDB_MAGIC)) then mret false else
  match read_int 4 (mkIfs (drop 7 data) true) with
  | (Ok version, s) =>
      if negb (version =? RDB_VERSION)%Z then mret false
      else load_loop (S (length (unread s))) s
  | _ => undefined
  end.

Definition load_file (filename : string) : prog bool :=
  f ← gets files;
  match f !! filename with
  | None => mret false
  | Some data => load_data data
  end.

End reading.
