(* ===== verification/RdbProofs.v ===== *)
(** * Snapshots: what is written is read back

    Reading is the inverse of writing for every value within the format's limits
    (strings and counts below 2^32); loading a saved database that has no
    expiries restores it, whatever the number of cores.  Entries with an expiry
    are not read back: the reader expects a key where the writer put the
    timestamp. *)
From S2P Require Import Prelude CxxString Double Containers Value Store HashMap Shard Router Topology Command Exec Rdb.
From Stdlib Require Import ZArith Ascii Lia.
From stdpp Require Import prelude gmap strings list_numbers.

(** ** Little-endian integers *)

Lemma length_le_bytes n z : length (le_bytes n z) = n.
Proof. revert z. induction n; intros z; simpl; auto. Qed.

Lemma le_val_bytes n z : le_val (le_bytes n z) = (z mod 256 ^ Z.of_nat n)%Z.
Proof.
  revert z. induction n as [|n IH]; intros z; cbn [le_bytes le_val].
  { by rewrite Z.mod_1_r. }
  rewrite IH, byte_val_of, Nat2Z.inj_succ, Z.pow_succ_r by lia.
  rewrite (Z.rem_mul_r z 256) by lia. done.
Qed.

#[local] Arguments le_bytes : simpl never.

(** ** Readers *)

(** [rd] takes the bytes [b] from the stream and returns [x]. *)
Definition reads {A} (rd : comp ifstream A) (b : bytes) (x : A) : Prop :=
  ∀ rest, rd (mkIfs (b ++ rest) true) = (Ok x, mkIfs rest true).

Section readers.
Context {A B : Type}.

Lemma reads_bind (m : comp ifstream A) (k : A → comp ifstream B) b1 b2 x y :
  reads m b1 x → reads (k x) b2 y → reads (m ≫= k) (b1 ++ b2) y.
Proof. intros Hm Hk rest. rewrite <- app_assoc. erewrite bind_ok by apply Hm. apply Hk. Qed.

Lemma reads_map (m : comp ifstream A) (f : A → B) b x :
  reads m b x → reads (y ← m; mret (f y)) b (f x).
Proof. intros Hm rest. by erewrite bind_ok by apply Hm. Qed.
End readers.

Lemma read_raw_ok b rest :
  read_raw (Z.of_nat (length b)) (mkIfs (b ++ rest) true) = (Ok (b, true), mkIfs rest true).
Proof.
  unfold read_raw. simpl. rewrite (proj2 (Z.leb_le _ _)) by (rewrite length_app; lia).
  by rewrite Nat2Z.id, take_app_length, drop_app_length.
Qed.

Lemma reads_int n b : Z.of_nat (length b) = n → reads (read_int n) b (le_val b).
Proof.
  intros <- rest. unfold read_int. by erewrite bind_ok by apply read_raw_ok.
Qed.

Lemma reads_le n z : (0 ≤ z < 256 ^ Z.of_nat n)%Z → reads (read_int (Z.of_nat n)) (le_bytes n z) z.
Proof.
  intros Hz. pose proof (reads_int (Z.of_nat n) (le_bytes n z)) as Hr.
  rewrite length_le_bytes, le_val_bytes, Z.mod_small in Hr by done. by apply Hr.
Qed.

(** Sizes the format can hold. *)
Definition str_fits (s : string) : Prop := (str_size s < 2 ^ 32)%Z.
Definition count_fits {A} (l : list A) : Prop := (Z.of_nat (length l) < 2 ^ 32)%Z.

Lemma write_string_fits s :
  str_fits s → write_string s = le_bytes 4 (str_size s) ++ bytes_of_string s.
Proof.
  intros Hs. pose proof (str_size_nonneg s). unfold write_string, uint32.
  rewrite wrap_u_small by (unfold str_fits in Hs; lia). f_equal.
  unfold str_size. by rewrite Nat2Z.id, <- length_bytes_of_string, firstn_all.
Qed.

Lemma reads_string s : str_fits s → reads read_string (write_string s) s.
Proof.
  intros Hs rest. rewrite write_string_fits, <- app_assoc by done. unfold read_string.
  erewrite bind_ok by (apply (reads_le 4); pose proof (str_size_nonneg s); unfold str_fits in Hs; lia).
  unfold str_size. rewrite <- length_bytes_of_string. erewrite bind_ok by apply read_raw_ok.
  simpl. rewrite Z.sub_diag. simpl. by rewrite app_nil_r, string_of_bytes_of_string.
Qed.

Lemma write_string_length s : 4 ≤ length (write_string s).
Proof. unfold write_string. rewrite length_app, length_le_bytes. lia. Qed.

#[local] Opaque write_string.

(** *** Counted loops *)

(** Element by element, [step] reads what [w] writes and takes [a] to [a']. *)
Inductive steps {A B} (step : A → comp ifstream A) (w : B → bytes) : A → list B → A → Prop :=
  | steps_nil a : steps step w a [] a
  | steps_cons a x a1 l a' :
      reads (step a) (w x) a1 → steps step w a1 l a' → steps step w a (x :: l) a'.

Lemma reads_loop {A B} (step : A → comp ifstream A) (w : B → bytes) a l a' :
  steps step w a l a' → ∀ fuel, length l ≤ fuel →
  reads (read_loop step fuel (Z.of_nat (length l)) a) (l ≫= w) a'.
Proof.
  induction 1 as [a|a x a1 l a' Hr _ IH]; intros fuel Hf.
  { intros rest. by destruct fuel. }
  destruct fuel as [|fuel]; [simpl in Hf; lia|]. cbn [read_loop length].
  rewrite (proj2 (Z.leb_gt _ _)) by lia. cbn [mbind list_bind]. eapply reads_bind; [done|].
  replace (Z.of_nat (S (length l)) - 1)%Z with (Z.of_nat (length l)) by lia.
  apply IH. simpl in Hf. lia.
Qed.

Lemma concat_length {B} (w : B → bytes) l :
  (∀ x, 1 ≤ length (w x)) → length l ≤ length (l ≫= w).
Proof.
  intros Hw. induction l as [|x l IH]; [done|].
  rewrite bind_cons, length_app. cbn [length]. specialize (Hw x). lia.
Qed.

Lemma reads_many {A B} (step : A → comp ifstream A) (w : B → bytes) a l a' :
  (∀ x, 1 ≤ length (w x)) → count_fits l → steps step w a l a' →
  reads (read_many step a) (write_count l ++ (l ≫= w)) a'.
Proof.
  intros Hw Hc Hs. unfold count_fits in Hc. unfold write_count, uint32.
  rewrite wrap_u_small by lia. unfold read_many.
  eapply reads_bind; [apply (reads_le 4); lia|]. intros rest. rewrite bind_gets.
  cbn [unread]. apply reads_loop; [done|]. rewrite length_app. pose proof (concat_length w l Hw). lia.
Qed.

(** *** The containers *)

Lemma steps_list l : Forall str_fits l → ∀ acc,
  steps (λ l, x ← read_string; mret (l ++ [x])) write_string acc l (acc ++ l).
Proof.
  induction 1 as [|x l Hx _ IH]; intros acc; [rewrite app_nil_r; constructor|].
  econstructor; [by apply (reads_map _ (λ x, acc ++ [x])), reads_string|].
  specialize (IH (acc ++ [x])). by rewrite <- app_assoc in IH.
Qed.

Lemma steps_set l : Forall str_fits l → ∀ acc, osorted string_ltb (acc ++ l) →
  steps (λ s, x ← read_string; mret (set_insert x s).1) write_string acc l (acc ++ l).
Proof.
  induction 1 as [|x l Hx _ IH]; intros acc Hs; [rewrite app_nil_r; constructor|].
  econstructor; [by apply (reads_map _ (λ x, (set_insert x acc).1)), reads_string|].
  assert (set_insert x acc = (acc ++ [x], true)) as ->
    by apply (oinsert_last (λ x, x) string_ltb), (osorted_app_mid (λ x, x) string_ltb acc x l Hs).
  simpl. specialize (IH (acc ++ [x])). rewrite <- app_assoc in IH. by apply IH.
Qed.

Lemma steps_hash l : Forall (λ p, str_fits p.1 ∧ str_fits p.2) l → ∀ acc,
  osorted hash_ltb (acc ++ l) →
  steps (λ h, field ← read_string; val ← read_string; mret (hash_assign field val h))
    (λ p, write_string p.1 ++ write_string p.2) acc l (acc ++ l).
Proof.
  induction 1 as [|[f x] l [Hf Hx] _ IH]; intros acc Hs; [rewrite app_nil_r; constructor|].
  econstructor.
  - eapply reads_bind; [by apply reads_string|].
    by apply (reads_map _ (λ x, hash_assign f x acc)), reads_string.
  - cbn [fst snd]. assert (hash_assign f x acc = acc ++ [(f, x)]) as ->
      by apply (oassign_last fst string_ltb), (osorted_app_mid fst string_ltb acc (f, x) l Hs).
    simpl. specialize (IH (acc ++ [(f, x)])). rewrite <- app_assoc in IH. by apply IH.
Qed.

(** A sorted set is determined by its entries. *)
Lemma zset_ext z1 z2 :
  zset_wf z1 → zset_wf z2 → (∀ e, e ∈ tree z1 ↔ e ∈ tree z2) → z1 = z2.
Proof.
  intros H1 H2 He. destruct z1 as [t1 d1], z2 as [t2 d2]. simpl in *. f_equal.
  - eapply (osorted_ext entry_key pair_ltb); [apply H1|apply H2|done].
  - apply map_eq. intros m. apply option_eq. intros s.
    rewrite (zw_agree _ H1 m s), (zw_agree _ H2 m s). apply He.
Qed.

Lemma steps_zset es : ∀ acc,
  Forall (λ e, str_fits (member e) ∧ (0 ≤ score e < 2 ^ 64)%Z ∧ is_nan (score e) = false) es →
  NoDup (member <$> es) → zset_wf acc →
  (∀ e, e ∈ tree acc → member e ∉ member <$> es) →
  ∃ z, steps (λ z, score ← read_int 8; member ← read_string;
                   lift (zset_insert z (mkEntry score member)))
         (λ e, le_bytes 8 (score e) ++ write_string (member e)) acc es z ∧
    zset_wf z ∧ ∀ e, e ∈ tree z ↔ e ∈ tree acc ∨ e ∈ es.
Proof.
  induction es as [|e es IH]; intros acc Hf Hn Hwf Hd.
  { exists acc. split; [constructor|]. set_solver. }
  apply Forall_cons in Hf as [(Hm & Hs & Hnan) Hf]. apply NoDup_cons in Hn as [Hne Hn].
  destruct (zset_insert_spec acc Hwf e Hnan) as (z1 & E & Hwf1 & _ & Ht).
  destruct (IH z1 Hf Hn Hwf1) as (z & Hz & Hwfz & Hel).
  { intros e' [->|[He' _]]%Ht; [done|]. specialize (Hd _ He'). set_solver. }
  exists z. split_and!; [|done|].
  - econstructor; [|done]. eapply reads_bind; [by apply (reads_le 8)|].
    intros rest. erewrite bind_ok by by apply reads_string. destruct e. simpl in *.
    unfold lift. by rewrite E.
  - intros e'. rewrite Hel, Ht, elem_of_cons. split; [tauto|].
    intros [He'|[->|?]]; [|tauto..]. left; right. split; [done|].
    intros Heq. apply (Hd _ He'). rewrite Heq. set_solver.
Qed.

(** ** Values *)

(** Values the format can hold. *)
Definition value_fits (v : Value) : Prop :=
  match v with
  | Monostate => False
  | VString s => str_fits s
  | VList l | VSet l => count_fits l ∧ Forall str_fits l
  | VHash h => count_fits h ∧ Forall (λ p, str_fits p.1 ∧ str_fits p.2) h
  | VZSet z => count_fits (tree z) ∧
      Forall (λ e, str_fits (member e) ∧ (0 ≤ score e < 2 ^ 64)%Z) (tree z)
  end.

Definition value_code (v : Value) : RdbType :=
  match v with
  | Monostate | VString _ => T_STRING
  | VList _ => T_LIST
  | VSet _ => T_SET
  | VHash _ => T_HASH
  | VZSet _ => T_ZSET
  end.

(** The bytes of a value, after the type and the key. *)
Definition write_value (v : Value) : bytes :=
  match v with
  | Monostate => []
  | VString s => write_string s
  | VList l | VSet l => write_count l ++ (l ≫= write_string)
  | VHash h => write_count h ++ (h ≫= λ p, write_string p.1 ++ write_string p.2)
  | VZSet z => write_count (tree z) ++
      (tree z ≫= λ e, le_bytes 8 (score e) ++ write_string (member e))
  end.

Lemma write_entry_value k v :
  value_fits v → write_entry k v = type_byte (value_code v) ++ write_string k ++ write_value v.
Proof. by destruct v. Qed.

Lemma tree_members_NoDup z : zset_wf z → NoDup (member <$> tree z).
Proof.
  intros Hwf. apply NoDup_fmap_2_strong; [intros; by eapply tree_member_unique|].
  apply (NoDup_fmap_1 entry_key). apply (osorted_key_NoDup entry_key pair_ltb), Hwf.
Qed.

Lemma reads_value v :
  value_wf v → value_fits v → reads (read_value (Some (value_code v))) (write_value v) (Some v).
Proof.
  intros Hwf Hf. destruct v as [|s|l|l|h|z]; simpl in *; [done|..].
  - by apply (reads_map _ (λ s, Some (VString s))), reads_string.
  - destruct Hf. apply (reads_map _ (λ l, Some (VList l))), reads_many; [|done|].
    + intros x. pose proof (write_string_length x). lia.
    + by apply (steps_list l ltac:(done) []).
  - destruct Hf. apply (reads_map _ (λ l, Some (VSet l))), reads_many; [|done|].
    + intros x. pose proof (write_string_length x). lia.
    + by apply (steps_set l ltac:(done) []).
  - destruct Hf. apply (reads_map _ (λ l, Some (VHash l))),
      (reads_many _ (λ p, write_string p.1 ++ write_string p.2)); [|done|].
    + intros x. cbv beta. rewrite length_app. pose proof (write_string_length x.1). lia.
    + by apply (steps_hash h ltac:(done) []).
  - destruct Hf as [Hc Hf]. apply (reads_map _ (λ z, Some (VZSet z))),
      (reads_many _ (λ e, le_bytes 8 (score e) ++ write_string (member e))); [|done|].
    + intros x. cbv beta. rewrite length_app, length_le_bytes. lia.
    + destruct (steps_zset (tree z) zset_empty) as (z' & Hz' & Hwf' & Hel).
      * apply Forall_forall. intros e He. pose proof (proj1 (Forall_forall _ _) Hf e He) as [??].
        split; [done|split; [done|by apply (zw_number z Hwf)]].
      * by apply tree_members_NoDup.
      * apply zset_empty_wf.
      * simpl. set_solver.
      * replace z with z' at 2; [done|]. apply zset_ext; [done..|].
        intros e. rewrite Hel. simpl. set_solver.
Qed.

Lemma code_type v : rdb_type (rdb_code (value_code v)) = Some (value_code v).
Proof. by destruct v. Qed.

Lemma reads_entry k v :
  value_wf v → value_fits v → str_fits k →
  reads (read_entry (rdb_code (value_code v))) (write_string k ++ write_value v)
    (Some (k, v, None)).
Proof.
  intros Hwf Hf Hk. eapply reads_bind; [by apply reads_string|]. rewrite code_type.
  pose proof (reads_value v Hwf Hf) as Hv.
  destruct (value_code v) eqn:E; try (by destruct v);
    intros rest; by erewrite bind_ok by apply Hv.
Qed.

(** ** The loading loop *)

Section loading.
Context `{StdHash}.

(** Storing the keys one after the other, each on the core that owns it. *)
Definition store_item (kv : string * Value) : prog unit :=
  t ← gets topo; shard_set (get_target_core t kv.1) kv.1 kv.2.
Definition store_items (items : list (string * Value)) : prog unit :=
  foldM (λ _ kv, store_item kv) tt items.

Definition item_fits (kv : string * Value) : Prop :=
  str_fits kv.1 ∧ value_wf kv.2 ∧ value_fits kv.2.

Lemma write_entry_cons k v :
  value_fits v → ∃ b, write_entry k v = b :: write_string k ++ write_value v ∧
    byte_val b = rdb_code (value_code v).
Proof.
  intros Hf. rewrite write_entry_value by done. unfold type_byte. cbn [le_bytes].
  eexists. split; [done|]. rewrite byte_val_of. by destruct v.
Qed.

Lemma load_loop_items items rest : Forall item_fits items → ∀ fuel w,
  length items < fuel →
  load_loop fuel (mkIfs ((items ≫= λ kv, write_entry kv.1 kv.2) ++
                          type_byte END_OF_FILE ++ rest) true) w =
  (store_items items;; mret true) w.
Proof.
  induction 1 as [|[k v] items (Hk & Hwf & Hf) _ IH]; intros fuel w Hl;
    (destruct fuel as [|fuel]; [simpl in Hl; lia|]); [done|].
  rewrite bind_cons, <- app_assoc. simpl in *.
  destruct (write_entry_cons k v Hf) as (b & -> & Hb). simpl. rewrite Hb.
  replace (rdb_code (value_code v) =? 255)%Z with false by (by destruct v).
  rewrite (reads_entry k v Hwf Hf Hk).
  unfold store_items. cbn [foldM]. rewrite bind_assoc.
  change (store_item (k, v)) with (t ← gets topo; shard_set (get_target_core t k) k v).
  rewrite bind_assoc. apply bind_ext. intros t w1. apply bind_ext. intros [] w2.
  rewrite bind_ret_l. apply IH. simpl in Hl. lia.
Qed.

(** *** The effect on the database *)

(** Shards from which nothing was deleted yet, of the constructor's capacity. *)
Definition fresh_shards (t : Topology) : Prop :=
  ∀ c sh, shards_ t !! c = Some sh →
    pristine (data_store sh) ∧ capacity (data_store sh) = shard_capacity.

Lemma new_topology_fresh n : fresh_shards (new_topology n).
Proof.
  intros c sh [-> _]%lookup_replicate. split; [apply new_map_pristine|done].
Qed.

Lemma shard_db_size (sh : Shard HashMap) : size (shard_db sh) = size (s_view (data_store sh)).
Proof.
  rewrite <- !size_dom. f_equal. apply set_eq. intros k.
  rewrite !elem_of_dom, shard_db_lookup. by rewrite fmap_is_Some.
Qed.

(** With a slot to spare, [Shard::set] succeeds. *)
Lemma set_with_room sh k v :
  shard_wf sh → value_wf v → pristine (data_store sh) →
  size (shard_db sh) < capacity (data_store sh) →
  ∃ sh', Shard.set sh k v = Ok sh' ∧ shard_wf sh' ∧
    shard_db sh' = <[k := (v, None)]> (shard_db sh) ∧
    pristine (data_store sh') ∧ capacity (data_store sh') = capacity (data_store sh).
Proof.
  intros Hwf Hv Hp Hroom. pose proof (set_spec sh k v Hwf Hv) as Hs.
  unfold Shard.set in *. simpl in *.
  destruct (put (data_store sh) k v) as [[m b]|e|] eqn:E; [| |done].
  - destruct Hs as [Hwf' Hdb]. destruct (put_pristine _ _ _ _ _ Hp E). eauto 10.
  - exfalso. destruct Hs as (_ & Hf & _). rewrite shard_db_size in Hroom.
    pose proof (pristine_full _ (sw_store _ Hwf) Hp Hf) as Hsz. simpl in *. lia.
Qed.

Definition on_core (t : Topology) (c : nat) (items : list (string * Value)) : nat :=
  length (filter (λ kv, get_target_core t kv.1 = c) items).

Lemma store_item_ok w k v :
  topo_wf (topo w) → fresh_shards (topo w) → value_wf v →
  (∀ sh, shards_ (topo w) !! get_target_core (topo w) k = Some sh →
    size (shard_db sh) < shard_capacity) →
  ∃ sh sh', let c := get_target_core (topo w) k in
    let t' := set_shards (topo w) (<[c := sh']> (shards_ (topo w))) in
    shards_ (topo w) !! c = Some sh ∧ store_item (k, v) w = (Ok tt, set_topo w t') ∧
    topo_wf t' ∧ fresh_shards t' ∧ shard_db sh' = <[k := (v, None)]> (shard_db sh).
Proof.
  intros Hwf Hfr Hv Hroom. set (c := get_target_core (topo w) k).
  destruct (lookup_lt_is_Some_2 (shards_ (topo w)) c) as [sh Hsh].
  { rewrite (tw_shards _ Hwf). by apply target_core_lt. }
  destruct (Hfr c sh Hsh) as [Hp Hcap].
  destruct (set_with_room sh k v (tw_shard_wf _ Hwf _ _ Hsh) Hv Hp) as (sh' & E & Hw' & Hdb & Hp' & Hc').
  { rewrite Hcap. by apply Hroom. }
  exists sh, sh'. split_and!; [done| | | |done].
  - unfold store_item. rewrite bind_gets. simpl. fold c. unfold shard_set.
    erewrite bind_ok by (unfold get_shard; by rewrite Hsh).
    rewrite E. by erewrite bind_ok by done.
  - apply set_shard_wf; [done..|]. intros k'. rewrite Hdb.
    destruct (decide (k' = k)) as [->|]; [done|]. rewrite lookup_insert_ne by done.
    by apply (tw_placed _ Hwf).
  - intros c' s [(-> & <- & _)|[_ ?]]%list_lookup_insert_Some; [|by eapply Hfr].
    split; [done|]. by rewrite Hc'.
Qed.

Lemma store_items_ok items : Forall (λ kv, value_wf kv.2) items → ∀ w,
  topo_wf (topo w) → fresh_shards (topo w) →
  (∀ c sh, shards_ (topo w) !! c = Some sh →
    size (shard_db sh) + on_core (topo w) c items ≤ shard_capacity) →
  ∃ w', store_items items w = (Ok tt, w') ∧ topo_wf (topo w') ∧
    ∀ k, topo_db (topo w') k =
      match list_to_map (M := gmap string Value) (reverse items) !! k with
      | Some v => Some (v, None)
      | None => topo_db (topo w) k
      end.
Proof.
  induction 1 as [|[k v] items Hv _ IH]; intros w Hwf Hfr Hroom; [by exists w|].
  simpl in Hv. set (c := get_target_core (topo w) k).
  destruct (store_item_ok w k v Hwf Hfr Hv) as (sh & sh' & Hsh & E & Hwf' & Hfr' & Hdb).
  { intros sh Hsh. specialize (Hroom _ _ Hsh). unfold on_core in Hroom.
    rewrite filter_cons_True in Hroom by done. simpl in Hroom. lia. }
  fold c in Hsh, E, Hwf', Hfr'. set (t' := set_shards (topo w) (<[c:=sh']> (shards_ (topo w)))) in *.
  destruct (IH (set_topo w t') Hwf' Hfr') as (w' & E' & Hw' & Hk').
  { intros c' s Hs. simpl in Hs. change (on_core (topo (set_topo w t')) c' items)
      with (on_core (topo w) c' items).
    apply list_lookup_insert_Some in Hs as [(Hcc & <- & _)|[Hne Hs]].
    - subst c'. specialize (Hroom _ _ Hsh). unfold on_core in Hroom |- *.
      rewrite filter_cons_True in Hroom by done. simpl in Hroom. rewrite Hdb.
      assert (size (<[k:=(v, None)]> (shard_db sh)) ≤ S (size (shard_db sh)));
        [|lia]. rewrite map_size_insert. destruct (_ !! k); simpl; lia.
    - specialize (Hroom _ _ Hs). unfold on_core in Hroom |- *.
      rewrite filter_cons_False in Hroom by exact Hne. exact Hroom. }
  exists w'. split_and!; [|done|].
  - unfold store_items. cbn [foldM]. by erewrite bind_ok by exact E.
  - intros k'. rewrite Hk', reverse_cons, list_to_map_app. simpl.
    rewrite lookup_union. destruct (list_to_map (reverse items) !! k') as [v'|]; simpl.
    { by rewrite union_Some_l. }
    rewrite (left_id_L None _). destruct (decide (k' = k)) as [->|Hne].
    + rewrite lookup_insert_eq. unfold t'. rewrite (topo_db_set_same (topo w) c sh' k Hwf eq_refl).
      by rewrite Hdb, lookup_insert_eq.
    + rewrite lookup_insert_ne, lookup_empty by done. simpl.
      destruct (decide (get_target_core (topo w) k' = c)) as [Hc|Hc].
      * unfold t'. rewrite (topo_db_set_same (topo w) c sh' k' Hwf Hc), Hdb.
        rewrite lookup_insert_ne by done. unfold topo_db. by rewrite Hc, Hsh.
      * unfold t'. by apply topo_db_set_other.
Qed.

Lemma new_shard_size : size (shard_db new_shard) = 0.
Proof. destruct new_shard_wf as [_ ->]. apply map_size_empty. Qed.

Lemma on_core_le t c l : on_core t c l ≤ length l.
Proof. apply length_filter. Qed.

(** ** The saved file *)

Context `{FileSystem}.

Definition saved_bytes (t : Topology) : bytes :=
  rdb_header ++ (shards_ t ≫= write_shard) ++ type_byte END_OF_FILE.

Lemma ofs_write_ok f b w c :
  files w !! f = Some c →
  ofs_write f b w = (Ok tt, set_files w (<[f := c ++ b]> (files w))).
Proof.
  intros Hc. unfold ofs_write, modify. do 3 f_equal. apply map_eq. intros g.
  destruct (decide (f = g)) as [<-|]; [by rewrite lookup_alter_eq, lookup_insert_eq, Hc|].
  by rewrite lookup_alter_ne, lookup_insert_ne.
Qed.

Lemma save_shards_ok f l : ∀ pre w c,
  shards_ (topo w) = pre ++ l → files w !! f = Some c →
  foldM (λ _ i, sh ← get_shard i; ofs_write f (write_shard sh)) tt
    (seq (length pre) (length l)) w =
  (Ok tt, set_files w (<[f := c ++ (l ≫= write_shard)]> (files w))).
Proof.
  induction l as [|sh l IH]; intros pre w c Hs Hc.
  { simpl. rewrite app_nil_r, insert_id by done. by destruct w. }
  cbn [length seq foldM].
  erewrite bind_ok; cycle 1.
  { erewrite bind_ok by (unfold get_shard; rewrite Hs, list_lookup_middle; done).
    by apply ofs_write_ok. }
  replace (S (length pre)) with (length (pre ++ [sh])) by (rewrite length_app; simpl; lia).
  erewrite (IH (pre ++ [sh])); cycle 1.
  { simpl. by rewrite <- app_assoc. }
  { simpl. by rewrite lookup_insert_eq. }
  rewrite bind_cons, (app_assoc c). unfold set_files; simpl.
  by rewrite insert_insert_eq.
Qed.

Lemma save_ok f w :
  can_write f = true → topo_wf (topo w) →
  save f w = (Ok true, set_files w (<[f := saved_bytes (topo w)]> (files w))).
Proof.
  intros Hf Hwf. unfold save. rewrite Hf. simpl.
  erewrite bind_ok by done.
  erewrite bind_ok by (apply ofs_write_ok; simpl; by rewrite lookup_insert_eq).
  rewrite bind_gets. simpl. rewrite <- (tw_shards _ Hwf).
  erewrite bind_ok.
  2:{ apply (save_shards_ok f _ []); [done|]. simpl. by rewrite lookup_insert_eq. }
  erewrite bind_ok by (apply ofs_write_ok; simpl; by rewrite lookup_insert_eq).
  unfold set_files, saved_bytes; simpl. by rewrite !insert_insert_eq.
Qed.

(** *** The keys of a database without expiries *)

Definition items (t : Topology) : list (string * Value) := shards_ t ≫= Shard.for_each.

Definition no_expiry (t : Topology) : Prop :=
  ∀ k v x, topo_db t k = Some (v, x) → x = None.

Lemma shard_item t i sh k v :
  topo_wf t → no_expiry t → shards_ t !! i = Some sh →
  (k, v) ∈ Shard.for_each sh ↔ get_target_core t k = i ∧ topo_db t k = Some (v, None).
Proof.
  intros Hwf Hx Hsh. destruct (for_each_spec sh (tw_shard_wf _ Hwf _ _ Hsh)) as [_ Hfe].
  rewrite Hfe. unfold topo_db. split.
  - intros Hk. destruct (shard_db sh !! k) as [[v' x]|] eqn:E; [|done]. injection Hk as ->.
    assert (get_target_core t k = i) as Hi by (eapply (tw_placed _ Hwf); [done|eauto]).
    rewrite Hi, Hsh. simpl. split; [done|]. rewrite E. do 2 f_equal.
    apply (Hx k v). unfold topo_db. rewrite Hi, Hsh. done.
  - intros [-> Hk]. rewrite Hsh in Hk. simpl in Hk. by rewrite Hk.
Qed.

Lemma items_elem t k v :
  topo_wf t → no_expiry t → (k, v) ∈ items t ↔ topo_db t k = Some (v, None).
Proof.
  intros Hwf Hx. unfold items. rewrite list_elem_of_bind. split.
  - intros (sh & Hkv & [i Hi]%list_elem_of_lookup). apply (shard_item t i sh) in Hkv; [|done..].
    by destruct Hkv.
  - intros Hk. destruct (lookup_lt_is_Some_2 (shards_ t) (get_target_core t k)) as [sh Hsh].
    { rewrite (tw_shards _ Hwf). by apply target_core_lt. }
    exists sh. split; [|by eapply list_elem_of_lookup_2]. by eapply shard_item.
Qed.

Lemma bind_keys_NoDup {A} (f : A → list (string * Value)) (l : list A) :
  (∀ x, x ∈ l → NoDup (f x).*1) →
  (∀ i j x y k, l !! i = Some x → l !! j = Some y → k ∈ (f x).*1 → k ∈ (f y).*1 → i = j) →
  NoDup (l ≫= f).*1.
Proof.
  induction l as [|x l IH]; intros Hn Hd; [constructor|].
  rewrite bind_cons, fmap_app. apply NoDup_app. split_and!.
  - apply Hn. set_solver.
  - intros k Hk ([k' v] & -> & (y & Hy & [j Hj]%list_elem_of_lookup)%list_elem_of_bind)%list_elem_of_fmap.
    by pose proof (Hd 0 (S j) x y k' eq_refl Hj Hk (list_elem_of_fmap_2 fst _ _ Hy)).
  - apply IH; [intros; apply Hn; set_solver|]. intros i j x' y k Hi Hj Hx Hy.
    by injection (Hd (S i) (S j) x' y k Hi Hj Hx Hy).
Qed.

Lemma items_NoDup t : topo_wf t → NoDup (items t).*1.
Proof.
  intros Hwf. apply bind_keys_NoDup.
  - intros sh [i Hi]%list_elem_of_lookup. by apply for_each_spec, (tw_shard_wf _ Hwf i).
  - intros i j x y k Hi Hj Hx Hy.
    assert (∀ i x, shards_ t !! i = Some x → k ∈ (Shard.for_each x).*1 →
      get_target_core t k = i) as Hp.
    { intros i' x' Hi' ([k' v] & -> & Hkv)%list_elem_of_fmap.
      apply (tw_placed _ Hwf i' x'); [done|].
      destruct (for_each_spec x' (tw_shard_wf _ Hwf _ _ Hi')) as [_ Hfe].
      apply Hfe, fmap_Some in Hkv as (? & Hkv & _). by eexists. }
    by rewrite <- (Hp i x), (Hp j y).
Qed.

Lemma bind_bind_ext {A B C} (l : list A) (f : A → list B) (g : A → B → list C) (h : B → list C) :
  (∀ x y, x ∈ l → y ∈ f x → g x y = h y) →
  (l ≫= λ x, f x ≫= g x) = ((l ≫= f) ≫= h).
Proof.
  induction l as [|x l IH]; intros E; [done|].
  rewrite !bind_cons, bind_app, IH by set_solver. f_equal.
  apply Forall_bind_ext, Forall_forall. set_solver.
Qed.

Lemma write_shards_items t :
  topo_wf t → no_expiry t →
  (shards_ t ≫= write_shard) = (items t ≫= λ kv, write_entry kv.1 kv.2).
Proof.
  intros Hwf Hx. apply bind_bind_ext.
  intros sh [k v] [i Hi]%list_elem_of_lookup Hkv. unfold write_key. simpl.
  apply (shard_item t i sh) in Hkv as [Hk Hdb]; [|done..].
  rewrite get_expiry_spec by by eapply (tw_shard_wf _ Hwf).
  unfold topo_db in Hdb. rewrite Hk, Hi in Hdb. simpl in Hdb. by rewrite Hdb.
Qed.

(** Everything in the database is within the format's limits. *)
Definition db_fits (t : Topology) : Prop :=
  ∀ k v x, topo_db t k = Some (v, x) → str_fits k ∧ value_fits v.

Lemma items_fit t : topo_wf t → no_expiry t → db_fits t → Forall item_fits (items t).
Proof.
  intros Hwf Hx Hf. apply Forall_forall. intros [k v] Hkv.
  apply items_elem in Hkv; [|done..]. destruct (Hf k v None Hkv). split_and!; [done| |done].
  unfold topo_db in Hkv. destruct (shards_ t !! get_target_core t k) as [sh|] eqn:Hsh; [|done].
  by apply (shard_db_values sh k (v, None) (tw_shard_wf _ Hwf _ _ Hsh)).
Qed.

Lemma load_data_saved t w :
  topo_wf t → no_expiry t → db_fits t →
  load_data (saved_bytes t) w = (store_items (items t);; mret true) w.
Proof.
  intros Hwf Hx Hf. unfold load_data, saved_bytes. rewrite write_shards_items by done.
  set (b := _ ≫= _). rewrite bool_decide_eq_true_2 by done. cbn [negb].
  change (drop 7 (rdb_header ++ b ++ type_byte END_OF_FILE))
    with (le_bytes 4 RDB_VERSION ++ b ++ type_byte END_OF_FILE).
  rewrite (reads_le 4 RDB_VERSION) by (unfold RDB_VERSION; lia). cbn [unread Z.eqb negb].
  pose proof (load_loop_items (items t) [] (items_fit t Hwf Hx Hf)) as E.
  rewrite app_nil_r in E. apply E. rewrite length_app. unfold b.
  assert (length (items t) ≤ length (items t ≫= λ kv, write_entry kv.1 kv.2)); [|lia].
  pose proof (items_fit t Hwf Hx Hf) as Hi. clear -Hi.
  induction Hi as [|[k v] l (_ & _ & Hv) _ IH]; [done|].
  rewrite bind_cons, length_app. destruct (write_entry_cons k v Hv) as (b & E & _). simpl in *.
  rewrite E. simpl. lia.
Qed.

(** C13. Snapshot round trip: [SAVE], while no other core writes, on a server
    without expiries and with a file it can open for writing, writes a file from
    which a new server, of any number of cores, loads exactly the same database, with
    every key on the core that owns it, provided keys and values are within the
    format's 32-bit sizes and no core of the new server gets more keys than the
    10000 slots of its table. *)
Theorem save_load w f n :
  can_write f = true → topo_wf (topo w) → no_expiry (topo w) → db_fits (topo w) → 0 < n →
  (∀ c, on_core (new_topology n) c (items (topo w)) ≤ shard_capacity) →
  ∃ w1 w2, save f w = (Ok true, w1) ∧ topo w1 = topo w ∧
    load_file f (set_topo w1 (new_topology n)) = (Ok true, w2) ∧
    topo_wf (topo w2) ∧ ∀ k, topo_db (topo w2) k = topo_db (topo w) k.
Proof.
  intros Hc Hwf Hx Hf Hn Hroom. eexists _.
  set (w1 := set_files w (<[f:=saved_bytes (topo w)]> (files w))).
  destruct (store_items_ok (items (topo w))) with (w := set_topo w1 (new_topology n))
    as (w2 & E & Hwf2 & Hk).
  - eapply Forall_impl; [by apply items_fit|]. by intros ? (_ & ? & _).
  - by apply new_topology_wf.
  - apply new_topology_fresh.
  - intros c sh [-> _]%lookup_replicate. rewrite new_shard_size. apply Hroom.
  - exists w2. split_and!; [by apply save_ok|done| |done|].
    + unfold load_file. rewrite bind_gets. simpl. rewrite lookup_insert_eq.
      rewrite load_data_saved by done. by erewrite bind_ok by exact E.
    + intros k. rewrite Hk. clear Hk.
      destruct (list_to_map (reverse (items (topo w))) !! k) as [v|] eqn:Ev.
      * apply elem_of_list_to_map in Ev;
          [|rewrite fmap_reverse, reverse_Permutation; by apply items_NoDup].
        rewrite reverse_Permutation in Ev. symmetry. by apply items_elem.
      * apply not_elem_of_list_to_map in Ev. rewrite fmap_reverse, reverse_Permutation in Ev.
        assert (topo_db (topo w) k = None) as ->.
        { destruct (topo_db (topo w) k) as [[v x]|] eqn:Ek; [|done]. exfalso. apply Ev.
          pose proof (Hx k v x Ek) as ->. apply items_elem in Ek; [|done..].
          by apply (list_elem_of_fmap_2 fst _ _ Ek). }
        unfold topo_db. simpl. destruct (replicate n new_shard !! _) as [sh|] eqn:Es; [|done].
        apply lookup_replicate in Es as [-> _]. simpl. destruct new_shard_wf as [_ ->].
        by rewrite lookup_empty.
Qed.

(** ** Expiries *)

Lemma le_bytes_app a b z : le_bytes (a + b) z = le_bytes a z ++ le_bytes b (z / 256 ^ Z.of_nat a).
Proof.
  revert z. induction a as [|a IH]; intros z.
  { unfold le_bytes at 2. simpl. by rewrite Z.div_1_r. }
  change (le_bytes (S a + b) z) with (byte_of z :: le_bytes (a + b) (z / 256)).
  change (le_bytes (S a) z) with (byte_of z :: le_bytes a (z / 256)).
  rewrite IH, Nat2Z.inj_succ, Z.pow_succ_r, Z.div_div by lia. done.
Qed.

Lemma le_bytes_mod n z : le_bytes n (z mod 256 ^ Z.of_nat n) = le_bytes n z.
Proof.
  revert z. induction n as [|n IH]; intros z; [done|].
  rewrite Nat2Z.inj_succ, Z.pow_succ_r, Z.rem_mul_r by lia.
  assert (∀ x, le_bytes (S n) x = byte_of x :: le_bytes n (x / 256)) as Hs by done.
  rewrite !Hs. rewrite <- (IH (z / 256)%Z). f_equal.
  - unfold byte_of. do 2 f_equal. rewrite Z.mul_comm, Z.mod_add, Z.mod_mod by lia. done.
  - f_equal. rewrite Z.mul_comm, Z.div_add by lia.
    rewrite Z.div_small by (apply Z.mod_pos_bound; lia). done.
Qed.

(** A string that announces more bytes than there are uses up the stream. *)
Lemma read_string_short len rest :
  (Z.of_nat (length rest) < len < 2 ^ 32)%Z →
  ∃ s, read_string (mkIfs (le_bytes 4 len ++ rest) true) = (Ok s, mkIfs [] false).
Proof.
  intros Hl. unfold read_string. erewrite bind_ok by (apply (reads_le 4); lia).
  assert (read_raw len (mkIfs rest true) = (Ok (rest, false), mkIfs [] false)) as E.
  { unfold read_raw. cbn [good negb unread]. by rewrite (proj2 (Z.leb_gt _ _)) by lia. }
  erewrite bind_ok by exact E. by eexists.
Qed.

(** C38. A key with an expiry is not read back: after the [EXPIRE_MS] opcode the
    loader reads a string where [save] wrote the timestamp, so that a file
    shorter than the low half of the timestamp is read past its end and the
    length of the next string is an uninitialised variable. *)
Theorem load_expiry_undefined (sh : Shard HashMap) k v e rest w :
  expires sh !! k = Some e → e ≠ (-1)%Z →
  (Z.of_nat (4 + length (write_entry k v ++ rest)) < e mod 2 ^ 32)%Z →
  load_data (rdb_header ++ write_key sh (k, v) ++ rest) w = (Undefined, w).
Proof.
  intros He Hne Hlen. unfold load_data. rewrite bool_decide_eq_true_2 by done. cbn [negb].
  change (drop 7 (rdb_header ++ write_key sh (k, v) ++ rest))
    with (le_bytes 4 RDB_VERSION ++ write_key sh (k, v) ++ rest).
  rewrite (reads_le 4 RDB_VERSION) by (unfold RDB_VERSION; lia). cbn [unread Z.eqb negb].
  unfold write_key, get_expiry. cbn [fst snd]. rewrite He, (proj2 (Z.eqb_neq _ _) Hne).
  cbn [negb]. rewrite <- !app_assoc. set (tail := write_entry k v ++ rest) in *.
  change (type_byte EXPIRE_MS ++ le_bytes 8 e ++ tail)
    with (byte_of 252 :: le_bytes 8 e ++ tail). cbn [load_loop good negb unread].
  rewrite byte_val_of. change (252 mod 256 =? rdb_code END_OF_FILE)%Z with false. cbv iota.
  rewrite (le_bytes_app 4 4 e : le_bytes 8 e = _), <- app_assoc.
  rewrite <- (le_bytes_mod 4 e : _ = le_bytes 4 e).
  change (256 ^ Z.of_nat 4)%Z with (2 ^ 32)%Z.
  unfold read_entry.
  destruct (read_string_short (e mod 2 ^ 32) (le_bytes 4 (e / 2 ^ 32) ++ tail)) as [s Es].
  { rewrite length_app, length_le_bytes. split; [lia|]. apply Z.mod_pos_bound. lia. }
  erewrite bind_ok by exact Es. done.
Qed.

End loading.

(** ** Examples *)

#[local] Existing Instance demo_hash.
#[local] Instance demo_fs : FileSystem := λ _, true.

Definition demo_items : list (string * Value) :=
  [("k", VString "v"); ("colours", VSet ["blue"; "red"])].
Definition demo_stored : World := (store_items demo_items (demo_world 2)).2.

Lemma demo_stored_db :
  topo_wf (topo demo_stored) ∧
  ∀ k, topo_db (topo demo_stored) k =
    match list_to_map (M := gmap string Value) (reverse demo_items) !! k with
    | Some v => Some (v, None)
    | None => topo_db (new_topology 2) k
    end.
Proof.
  pose proof shard_capacity_eq as Hcap.
  destruct (store_items_ok demo_items) with (w := demo_world 2) as (w' & E & Hwf & Hk).
  - repeat constructor; intros ?; set_solver.
  - apply new_topology_wf. lia.
  - apply new_topology_fresh.
  - intros c sh [-> _]%lookup_replicate. rewrite new_shard_size.
    pose proof (on_core_le (topo (demo_world 2)) c demo_items) as Hc.
    change (length demo_items) with 2 in Hc. lia.
  - unfold demo_stored. rewrite E. exact (conj Hwf Hk).
Qed.

Lemma new_topology_db n k : topo_db (new_topology n) k = None.
Proof.
  unfold topo_db. simpl. destruct (replicate n new_shard !! _) as [sh|] eqn:Es; [|done].
  apply lookup_replicate in Es as [-> _]. simpl. destruct new_shard_wf as [_ ->].
  by rewrite lookup_empty.
Qed.

Lemma save_load_witness :
  ∃ w1 w2, save "data/dump.rdb" demo_stored = (Ok true, w1) ∧ topo w1 = topo demo_stored ∧
    load_file "data/dump.rdb" (set_topo w1 (new_topology 3)) = (Ok true, w2) ∧
    topo_wf (topo w2) ∧ ∀ k, topo_db (topo w2) k = topo_db (topo demo_stored) k.
Proof.
  destruct demo_stored_db as [Hwf Hdb].
  assert (∀ k v x, topo_db (topo demo_stored) k = Some (v, x) →
    x = None ∧ (k, v) ∈ demo_items) as Hin.
  { intros k v x. rewrite Hdb, new_topology_db.
    destruct (_ !! k) as [v'|] eqn:E; [|done]. intros [= -> <-]. split; [done|].
    apply elem_of_list_to_map_2 in E. rewrite reverse_Permutation in E. exact E. }
  apply (save_load demo_stored "data/dump.rdb" 3); [exact eq_refl|exact Hwf| | |lia|].
  - intros k v x Hk. exact (proj1 (Hin k v x Hk)).
  - intros k v x Hk. destruct (Hin k v x Hk) as [_ He]. clear -He.
    repeat (apply elem_of_cons in He as [He|He]; [injection He as -> ->; clear;
      repeat (split || constructor); by vm_compute|]). by apply elem_of_nil in He.
  - intros c. pose proof shard_capacity_eq.
    pose proof (on_core_le (new_topology 3) c (items (topo demo_stored))).
    assert (length (items (topo demo_stored)) = 2) by by vm_compute. lia.
Defined.

Lemma load_expiry_undefined_witness :
  let sh := mkShard (new_map 4) {[ "k" := 1700000000000%Z ]} in
  load_data (rdb_header ++ write_key sh ("k", VString "v") ++ type_byte END_OF_FILE)
    (demo_world 1) = (Undefined, demo_world 1).
Proof.
  apply (load_expiry_undefined (mkShard (new_map 4) {[ "k" := 1700000000000%Z ]})
           "k" (VString "v") 1700000000000 (type_byte END_OF_FILE) (demo_world 1));
    [done|done|by vm_compute].
Defined.
