(* ===== verification/RdbSafety.v ===== *)
(** * Loading any file

    Whatever bytes the dump file holds, [RdbManager::load] keeps the database
    well formed: what it stores is well formed and goes to the core that owns the
    key.  A truncated file can make the C++ read uninitialised memory
    ([Undefined]); the fuel of the loops is never the reason. *)
From S2P Require Import Prelude CxxString Double Containers Value Store HashMap Shard Router Topology Command SetCommands HashCommands Rdb.
From Stdlib Require Import ZArith Ascii Lia.
From stdpp Require Import prelude gmap strings list_numbers.

(** ** What the readers return *)

(** [m] returns values in [P], does not throw, and what it takes from the stream
    is at least [n] bytes. *)
Definition reader {A} (n : nat) (P : A → Prop) (m : comp ifstream A) : Prop :=
  ∀ s, match m s with
       | (Ok a, s') => P a ∧ length (unread s') + n ≤ length (unread s)
       | (Throw _, _) => False
       | (Undefined, _) => True
       end.

Create HintDb reader.

Lemma reader_ret {A} (P : A → Prop) a : P a → reader 0 P (mret a).
Proof. intros Ha s. split; [done|lia]. Qed.

Lemma reader_undefined {A} n (P : A → Prop) : reader n P undefined.
Proof. done. Qed.

Lemma reader_bind {A B} n n' (P : A → Prop) (Q : B → Prop) m k :
  reader n P m → (∀ a, P a → reader n' Q (k a)) → reader (n + n') Q (m ≫= k).
Proof.
  intros Hm Hk s. specialize (Hm s). unfold mbind, comp_bind.
  destruct (m s) as [[a|e|] s']; [|done..]. destruct Hm as [Ha Hl].
  specialize (Hk a Ha s'). destruct (k a s') as [[b|e|] s'']; [|done..].
  destruct Hk as [Hb Hl']. split; [done|lia].
Qed.

Lemma reader_weaken {A} n n' (P Q : A → Prop) m :
  reader n P m → n' ≤ n → (∀ a, P a → Q a) → reader n' Q m.
Proof.
  intros Hm Hn HPQ s. specialize (Hm s). destruct (m s) as [[a|e|] s']; [|done..].
  destruct Hm as [Ha Hl]. split; [by apply HPQ|lia].
Qed.

Lemma reader_raw n : reader 0 (λ _, True) (read_raw n).
Proof.
  intros s. unfold read_raw. destruct (good s); simpl; [|split; [done|lia]].
  destruct (n <=? Z.of_nat (length (unread s)))%Z; (split; [done|]); simpl; [rewrite length_drop|]; lia.
Qed.

Lemma reader_int n : (0 ≤ n)%Z → reader (Z.to_nat n) (λ _, True) (read_int n).
Proof.
  intros Hn s. unfold read_int, read_raw, mbind, comp_bind.
  destruct (good s); simpl; [|done]. destruct (Z.leb_spec n (Z.of_nat (length (unread s)))); simpl; [|done].
  split; [done|]. rewrite length_drop. lia.
Qed.

Lemma reader_string : reader 4 (λ _, True) read_string.
Proof.
  unfold read_string. apply (reader_bind 4 0 (λ _, True)); [by apply reader_int|].
  intros len _. apply (reader_bind 0 0 (λ _, True)); [apply reader_raw|].
  intros r _. by apply reader_ret.
Qed.

Lemma reader_loop {A} n (P : A → Prop) (step : A → comp ifstream A) fuel :
  (∀ a, P a → reader n P (step a)) → ∀ count a, P a → reader 0 P (read_loop step fuel count a).
Proof.
  intros Hstep. induction fuel as [|fuel IH]; intros count a Ha; simpl;
    (case_match; [by apply reader_ret|]); [apply reader_undefined|].
  apply (reader_weaken (n + 0) 0 P P); [|lia|done].
  apply (reader_bind n 0 P); [by apply Hstep|]. intros a' Ha'. by apply IH.
Qed.

Lemma reader_many {A} n (P : A → Prop) (step : A → comp ifstream A) a :
  (∀ a, P a → reader n P (step a)) → P a → reader 0 P (read_many step a).
Proof.
  intros Hstep Ha. unfold read_many. eapply (reader_weaken (4 + 0) 0 P P); [|lia|done].
  apply (reader_bind 4 0 (λ _, True)); [by apply reader_int|]. intros count _ s.
  rewrite bind_gets. by apply (reader_loop n P).
Qed.

Lemma reader_value t : reader 0 (λ o, ∀ v, o = Some v → value_wf v) (read_value t).
Proof.
  assert (∀ A (P : A → Prop) (c : A → Value) (m : comp ifstream A),
    reader 0 P m → (∀ a, P a → value_wf (c a)) →
    reader 0 (λ o, ∀ v, o = Some v → value_wf v) (a ← m; mret (Some (c a)))) as Hwrap.
  { intros A P c m Hm Hc. apply (reader_bind 0 0 P); [done|]. intros a Ha.
    apply reader_ret. intros v [= <-]. by apply Hc. }
  destruct t as [[]|]; simpl; try (apply reader_ret; done).
  - apply (Hwrap _ (λ _, True) VString); [|done].
    eapply reader_weaken; [apply reader_string|lia|done].
  - apply (Hwrap _ (λ _, True) VList); [|done]. apply (reader_many 4); [|done]. intros l _.
    apply (reader_bind 4 0 (λ _, True)); [apply reader_string|]. intros x _. by apply reader_ret.
  - apply (Hwrap _ (osorted string_ltb) VSet); [|done].
    apply (reader_many 4); [|constructor]. intros l Hl.
    apply (reader_bind 4 0 (λ _, True)); [apply reader_string|]. intros x _.
    apply reader_ret. by apply set_insert_members.
  - apply (Hwrap _ (osorted hash_ltb) VHash); [|done].
    apply (reader_many 8); [|constructor]. intros h Hh.
    apply (reader_bind 4 4 (λ _, True)); [apply reader_string|]. intros f _.
    apply (reader_bind 4 0 (λ _, True)); [apply reader_string|]. intros x _.
    apply reader_ret. by apply hash_assign_table.
  - apply (Hwrap _ zset_wf VZSet); [|done].
    apply (reader_many 12); [|apply zset_empty_wf]. intros z Hz.
    apply (reader_bind 8 4 (λ _, True)); [by apply reader_int|]. intros sc _.
    apply (reader_bind 4 0 (λ _, True)); [apply reader_string|]. intros m _ s. unfold lift.
    destruct (is_nan sc) eqn:En; [unfold zset_insert; simpl; by rewrite En|].
    destruct (zset_insert_spec z Hz (mkEntry sc m) En) as (z' & -> & Hz' & _).
    split; [done|lia].
Qed.

Definition entry_wf (o : option (string * Value * option Z)) : Prop :=
  ∀ k v e, o = Some (k, v, e) → value_wf v.

Lemma reader_entry tb : reader 4 entry_wf (read_entry tb).
Proof.
  assert (∀ key e t, reader 0 entry_wf
    (val ← read_value t; mret ((λ v, (key, v, e)) <$> val))) as Hval.
  { intros key e t. eapply (reader_bind 0 0); [apply reader_value|]. intros o Ho.
    apply reader_ret. intros k v e' E. destruct o as [v'|]; simplify_eq/=. by apply Ho. }
  unfold read_entry. apply (reader_bind 4 0 (λ _, True)); [apply reader_string|]. intros key _.
  destruct (rdb_type tb) as [[]|]; try apply Hval.
  apply (reader_weaken (8 + (1 + (4 + 0))) 0 entry_wf entry_wf); [|lia|done].
  apply (reader_bind 8 _ (λ _, True)); [by apply reader_int|]. intros e _.
  apply (reader_bind 1 _ (λ _, True)); [by apply reader_int|]. intros tb' _.
  apply (reader_bind 4 _ (λ _, True)); [apply reader_string|]. intros key' _. apply Hval.
Qed.

(** ** Enough fuel *)

(** A step that takes something: any fuel above the bytes left will do. *)
Lemma read_loop_fuel {A} n (P : A → Prop) (step : A → comp ifstream A) :
  0 < n → (∀ a, P a → reader n P (step a)) → ∀ f1 f2 count a s, P a →
  length (unread s) < f1 → length (unread s) < f2 →
  read_loop step f1 count a s = read_loop step f2 count a s.
Proof.
  intros Hn Hstep. induction f1 as [|f1 IH]; intros [|f2] count a s Ha H1 H2; simpl; try lia.
  case_match; [done|]. unfold mbind, comp_bind. pose proof (Hstep a Ha s) as Hs.
  destruct (step a s) as [[a'|e|] s']; [|done..]. destruct Hs as [Ha' Hl].
  apply IH; [done|lia..].
Qed.

Section loading.
Context `{StdHash}.

Lemma load_loop_fuel : ∀ f1 f2 s w,
  length (unread s) < f1 → length (unread s) < f2 → load_loop f1 s w = load_loop f2 s w.
Proof.
  induction f1 as [|f1 IH]; intros [|f2] s w H1 H2; simpl; try lia.
  case_match; [done|]. destruct (unread s) as [|b rest] eqn:Eu; [done|].
  case_match; [done|]. pose proof (reader_entry (byte_val b) (mkIfs rest true)) as He.
  destruct (read_entry (byte_val b) (mkIfs rest true)) as [[[[[k v] e]|]|ex|] s']; try done.
  destruct He as [_ Hl]. simpl in *. apply bind_ext. intros t w1. apply bind_ext. intros [] w2.
  apply bind_ext. intros [] w3. apply IH; lia.
Qed.

(** ** The database stays well formed *)

(** Only the shards changed. *)
Definition only_shards (w w' : World) : Prop :=
  ∃ ss, w' = set_topo w (set_shards (topo w) ss).

#[export] Instance only_shards_preorder : PreOrder only_shards.
Proof.
  split.
  - intros w. exists (shards_ (topo w)). by destruct w as [[] ? ? ? ?].
  - intros w1 w2 w3 [s1 ->] [s2 ->]. by exists s2.
Qed.

(** Storing a key on its owner, with or without an expiry. *)
Lemma store_entry_ok w k v (e : option Z) :
  topo_wf (topo w) → value_wf v →
  let c := get_target_core (topo w) k in
  let r := (shard_set c k v;;
    match e with Some t => shard_set_expiry c k t | None => mret tt end) w in
  topo_wf (topo r.2) ∧ only_shards w r.2 ∧
  (r.1 = Ok tt ∨ r.1 = Throw (runtime_error "HashMap is full")).
Proof.
  intros Hwf Hv c.
  destruct (lookup_lt_is_Some_2 (shards_ (topo w)) c) as [sh Hsh].
  { rewrite (tw_shards _ Hwf). by apply target_core_lt. }
  assert (c < length (shards_ (topo w))) as Hlt by by eapply lookup_lt_Some.
  pose proof (set_spec sh k v (tw_shard_wf _ Hwf _ _ Hsh) Hv) as Hset.
  assert (∀ sh', shard_wf sh' → (∀ k', is_Some (shard_db sh' !! k') → k' = k ∨ is_Some (shard_db sh !! k')) →
    topo_wf (set_shards (topo w) (<[c := sh']> (shards_ (topo w))))) as Hput.
  { intros sh' Hsw Hd. apply set_shard_wf; [done..|]. intros k' [->|Hk']%Hd; [done|].
    by eapply (tw_placed _ Hwf). }
  unfold shard_set, mbind, comp_bind, get_shard, lift. rewrite Hsh.
  destruct (set sh k v) as [sh1|ex|]; [| |done].
  - destruct Hset as [Hw1 Hd1].
    assert (∀ k', is_Some (shard_db sh1 !! k') → k' = k ∨ is_Some (shard_db sh !! k')) as Hk1.
    { intros k'. rewrite Hd1, lookup_insert_is_Some'. naive_solver. }
    destruct e as [t|]; simpl.
    + unfold shard_set_expiry, mbind, comp_bind, get_shard. simpl.
      rewrite list_lookup_insert_eq by done. simpl. rewrite list_insert_insert_eq.
      destruct (set_expiry_spec sh1 k t Hw1) as [Hw2 Hd2]; [by rewrite Hd1, lookup_insert_eq|].
      split_and!; [|by eexists|by left]. apply Hput; [done|]. intros k'. rewrite Hd2.
      destruct (decide (k = k')) as [<-|Hne]; [by left|]. rewrite lookup_alter_ne by done. apply Hk1.
    + split_and!; [by apply Hput|by eexists|by left].
  - destruct Hset as (-> & _). split_and!; [done|done|by right].
Qed.

Lemma load_loop_wf fuel : ∀ s w,
  topo_wf (topo w) →
  let r := load_loop fuel s w in
  topo_wf (topo r.2) ∧ only_shards w r.2 ∧
  (∀ ex, r.1 = Throw ex → ex = runtime_error "HashMap is full").
Proof.
  induction fuel as [|fuel IH]; intros s w Hwf; simpl; [done|].
  case_match; [done|]. destruct (unread s) as [|b rest]; [done|]. case_match; [done|].
  pose proof (reader_entry (byte_val b) (mkIfs rest true)) as He.
  destruct (read_entry (byte_val b) (mkIfs rest true)) as [[[[[k v] e]|]|ex|] s']; [|done..].
  destruct He as [Hv _]. rewrite bind_gets.
  destruct (store_entry_ok w k v e Hwf (Hv k v e eq_refl)) as (Hw1 & Ho1 & Hr).
  rewrite bind_run in Hw1, Ho1, Hr. rewrite !bind_run.
  destruct (shard_set _ k v w) as [[[]|ex|] w1]; simpl in *; [|naive_solver..].
  rewrite bind_run. destruct e as [t|].
  - destruct (shard_set_expiry _ k t w1) as [[[]|ex|] w2]; simpl in *; [|naive_solver..].
    destruct (IH s' w2 Hw1) as (? & ? & ?). split_and!; [done|by etrans|done].
  - destruct (IH s' w1 Hw1) as (? & ? & ?). split_and!; [done|by etrans|done].
Qed.

End loading.
