(* ===== verification/Startup.v ===== *)
(** * Configuration and start-up (src/core/config.hpp, main.cpp)

    What [main] does before it launches the workers: the port from the
    environment, the number of threads, the topology, and the dump file. *)
From S2P Require Import Prelude CxxString Double Containers Value Store HashMap Shard Router Topology Command Rdb RdbSafety.
From Stdlib Require Import ZArith Lia.
From stdpp Require Import prelude gmap strings list_numbers.

Record RdbSavePoint := mkSavePoint { seconds : Z; changes : Z }.

Record Config := mkConfig {
  rdb_filename : string;
  rdb_compression : bool;
  dir : string;
  save_params : list RdbSavePoint;
  port : Z;
  worker_threads : Z
}.

Definition default_config : Config :=
  mkConfig "data/dump.rdb" true "./"
    [mkSavePoint 3600 1; mkSavePoint 300 100; mkSavePoint 60 10000] 6379 0.

Definition set_port (c : Config) (p : Z) : Config :=
  mkConfig (rdb_filename c) (rdb_compression c) (dir c) (save_params c) p (worker_threads c).

(** The port: [QUINE_PORT], else [PORT], else the default.  [std::stoi] is not
    guarded: what it throws ends the program. *)
Definition read_port (getenv : string → option string) (c : Config) : outcome Config :=
  let parse s := match stoi s with
                 | Ok p => Ok (set_port c p)
                 | Throw e => Throw e
                 | Undefined => Undefined
                 end in
  match getenv "QUINE_PORT" with
  | Some s => parse s
  | None => match getenv "PORT" with
            | Some s => parse s
            | None => Ok c
            end
  end.

(** [hardware_concurrency] is what the platform reports (0 when unknown). *)
Definition n_threads (c : Config) (hardware_concurrency : nat) : nat :=
  if (0 <? worker_threads c)%Z then Z.to_nat (worker_threads c) else hardware_concurrency.

Section startup.
Context `{StdHash}.

(** [main] up to the launch of the workers: the shared state they start on. *)
Definition main_init (getenv : string → option string) (hardware_concurrency : nat)
    (clk : nat → Z) (fs : gmap string bytes) (wk : WakeKind) : outcome (Config * World) :=
  match read_port getenv default_config with
  | Ok config =>
      let w := mkWorld (new_topology (n_threads config hardware_concurrency)) clk 0 ∅ fs wk in
      match load_file (rdb_filename config) w with
      | (Ok _, w) => Ok (config, w)
      | (Throw e, _) => Throw e
      | (Undefined, _) => Undefined
      end
  | Throw e => Throw e
  | Undefined => Undefined
  end.

(** What the workers find. *)
Record initial (n : nat) (w : World) : Prop := {
  in_topo : topo_wf (topo w);
  in_cores : num_cores_ (topo w) = n;
  in_inbox c ch : channels_ (topo w) !! c = Some ch → queue_ ch = [];
  in_fds fd : fd ∈ notify_fds_ (topo w) → fd = (-1)%Z;
  in_count : registered_count_ (topo w) = 0;
  in_eventfds : eventfds w = ∅;
  in_wakes : (0 < wake_limit (wakes w))%Z
}.

Lemma load_file_wf f w :
  topo_wf (topo w) →
  let r := load_file f w in
  topo_wf (topo r.2) ∧ only_shards w r.2 ∧
  (∀ ex, r.1 = Throw ex → ex = runtime_error "HashMap is full").
Proof.
  intros Hwf. unfold load_file. rewrite bind_gets. destruct (files w !! f) as [data|]; [|done].
  unfold load_data. case_match; [done|].
  destruct (read_int 4 _) as [[v|e|] s]; [|done..]. case_match; [done|]. by apply load_loop_wf.
Qed.

Lemma read_port_threads getenv c c' hw :
  read_port getenv c = Ok c' → n_threads c' hw = n_threads c hw ∧ rdb_filename c' = rdb_filename c.
Proof.
  unfold read_port. intros E. repeat case_match; simplify_eq; done.
Qed.

Lemma main_init_initial getenv hw clk fs wk config w :
  0 < hw → (0 < wake_limit wk)%Z → main_init getenv hw clk fs wk = Ok (config, w) → initial hw w.
Proof.
  intros Hhw Hwk. unfold main_init. destruct (read_port getenv default_config) as [c| |] eqn:Ep; [|done..].
  destruct (read_port_threads _ _ _ hw Ep) as [-> _]. cbn [n_threads default_config worker_threads].
  set (w0 := mkWorld _ _ _ _ _ _).
  destruct (load_file_wf (rdb_filename c) w0) as (Hwf & [ss Ho] & _); [by apply new_topology_wf|].
  destruct (load_file (rdb_filename c) w0) as [[b| |] w1]; [|done..]. intros [= <- <-].
  simpl in *. split; [done|by rewrite Ho..| | |by rewrite Ho|by rewrite Ho|by rewrite Ho].
  - intros i ch. rewrite Ho. simpl. by intros [-> _]%lookup_replicate.
  - intros fd. rewrite Ho. simpl. by intros [-> _]%elem_of_replicate.
Qed.

End startup.
