(* ===== verification/Registry.v ===== *)
(** * The command registry (src/commands/registry.hpp and its set-up in
      src/main.cpp), and what every registered command does

    [registry] is the table [main] builds.  The lemmas of this file quantify over
    it: run on the core that owns its key, a command changes nothing but that
    key and gives a reply; run elsewhere, it answers an argument error or
    forwards the request to the owner. *)
From S2P Require Import Prelude CxxString Double Containers Value Store HashMap Shard Router Topology Command Exec Ranges Wire StringCommands ListCommands SetCommands HashCommands ZSetCommands Spec Rdb RdbProofs.
From Stdlib Require Import ZArith Ascii Lia.
From stdpp Require Import prelude gmap strings list_numbers.

Abbreviation CommandRegistry := (gmap string Command).

Definition register_command (r : CommandRegistry) (cmd : Command) : CommandRegistry :=
  <[cmd_name cmd := cmd]> r.
Definition get_command (r : CommandRegistry) (name : string) : option Command := r !! name.

Section registry.
Context `{StdHash} `{FileSystem}.

(** The commands [main] registers, in its order. *)
Definition key_commands : list Command :=
  [ SetCommand; GetCommand; DelCommand;
    LPushCommand; LPopCommand; LRangeCommand; RPushCommand; RPopCommand; LLenCommand;
    SAddCommand; SMembersCommand; SCardCommand; SRemCommand;
    HSetCommand; HGetCommand; HGetAllCommand; HDelCommand; HLenCommand;
    ZAddCommand; ZRangeCommand; ZRemCommand; ZCardCommand; ZScoreCommand;
    ExpireCommand; TtlCommand ].
Definition all_commands : list Command := key_commands ++ [SaveCommand].
Definition registry : CommandRegistry := fold_left register_command all_commands ∅.

(** A command is found under its own name only. *)
Lemma registry_spec name :
  get_command registry name =
    list_to_map (M := gmap string Command) ((λ c, (cmd_name c, c)) <$> all_commands) !! name.
Proof.
  (* both tables have the same canonical form *)
  unfold get_command. by f_equal.
Qed.

Lemma registered name cmd :
  get_command registry name = Some cmd → cmd ∈ all_commands ∧ cmd_name cmd = name.
Proof.
  rewrite registry_spec. intros Hc%elem_of_list_to_map_2.
  apply list_elem_of_fmap in Hc as (c & [= -> ->] & Hc). done.
Qed.

Lemma registered_plain name cmd : get_command registry name = Some cmd → plain name = true.
Proof.
  intros [Hin <-]%registered.
  assert (Forall (λ c, plain (cmd_name c) = true) all_commands) as Hall
    by (repeat (constructor; [by vm_compute|]); constructor).
  by apply (proj1 (Forall_forall _ _) Hall).
Qed.

(** ** Where a command runs *)

(** The two shapes of a command that takes a key: an error in its arguments is
    answered at once; otherwise the key decides between [body] and forwarding. *)
Definition routed (cmd : Command) : Prop := ∀ conn_id args,
  (∃ err, resp_wf err = true ∧ ∀ c, cmd_execute cmd c conn_id args = mret (render err)) ∨
  (∀ c, ∃ body, cmd_execute cmd c conn_id args = if_local c conn_id args body).

Local Ltac routed :=
  match goal with |- routed (?cmd _) => unfold cmd end;
  intros conn_id args; cbn [cmd_execute];
  match goal with |- context [?e _ _ conn_id args] => unfold e end;
  match goal with |- context [if ?b then _ else _] => destruct b end;
  [left; match goal with |- context [mret (err_args ?x)] => exists (wrong_args x) end; done
  |right; intros c; by eexists].

Lemma expire_routed : routed ExpireCommand.
Proof.
  intros conn_id args. cbn [ExpireCommand cmd_execute]. unfold ExpireCommand_execute.
  destruct (negb _); [left; by exists (wrong_args "expire")|].
  destruct (stol (args !!! 2)) as [s|e|] eqn:E; [right; intros c; by eexists|left; by exists not_integer|].
  by apply stol_defined in E.
Qed.

Lemma key_commands_routed : Forall routed key_commands.
Proof.
  unfold key_commands. repeat (apply Forall_cons; split); [..|constructor].
  all: first [apply expire_routed|routed].
Qed.

(** ** Replies are never empty: an empty string means forwarded *)

Definition replies (f : Value → string * action) : Prop := ∀ v, (f v).1 ≠ EmptyString.

Lemma fold_reply {A} (g : A → string) l s :
  s ≠ EmptyString → fold_left (λ r x, r +:+ g x) l s ≠ EmptyString.
Proof.
  revert s. induction l as [|x l IH]; intros s Hs; simpl; [done|]. apply IH. by destruct s.
Qed.

Lemma existing_reply ty missing f o :
  missing ≠ EmptyString → replies f → (existing ty missing f o).1 ≠ EmptyString.
Proof. intros Hm Hf. destruct o as [v|]; simpl; [|done]. by case_decide; [apply Hf|]. Qed.

Lemma creating_reply ty fresh f o :
  replies f → (creating ty fresh f o).1 ≠ EmptyString.
Proof. intros Hf. destruct o as [v|]; simpl; [|apply Hf]. by case_decide; [apply Hf|]. Qed.

Local Ltac replies :=
  intros v; destruct v; simpl; repeat case_match; try done; by apply fold_reply.

Lemma lpush_replies xs : replies (lpush_fn xs). Proof. replies. Qed.
Lemma rpush_replies xs : replies (rpush_fn xs). Proof. replies. Qed.
Lemma lpop_replies : replies lpop_fn. Proof. replies. Qed.
Lemma rpop_replies : replies rpop_fn. Proof. replies. Qed.
Lemma llen_replies : replies llen_fn. Proof. replies. Qed.
Lemma lrange_replies a b : replies (lrange_fn a b). Proof. replies. Qed.
Lemma sadd_replies xs : replies (sadd_fn xs). Proof. replies. Qed.
Lemma srem_replies xs : replies (srem_fn xs). Proof. replies. Qed.
Lemma smembers_replies : replies smembers_fn. Proof. replies. Qed.
Lemma scard_replies : replies scard_fn. Proof. replies. Qed.
Lemma hset_replies ps : replies (hset_fn ps). Proof. replies. Qed.
Lemma hget_replies f : replies (hget_fn f). Proof. replies. Qed.
Lemma hgetall_replies : replies hgetall_fn.
Proof.
  intros v. destruct v as [| | | |h|]; try done. simpl.
  assert (∀ l s, s ≠ EmptyString → fold_left (λ (resp : string) (p : string * string),
    (resp +:+ bulk p.1) +:+ bulk p.2) l s ≠ EmptyString) as Hf; [|by apply Hf].
  intros l. induction l as [|p l IH]; intros s Hs; simpl; [done|]. apply IH. by destruct s.
Qed.
Lemma hdel_replies fs : replies (hdel_fn fs). Proof. replies. Qed.
Lemma hlen_replies : replies hlen_fn. Proof. replies. Qed.
Lemma zadd_replies l : replies (zadd_fn l). Proof. replies. Qed.
Lemma zrem_replies l : replies (zrem_fn l). Proof. replies. Qed.
Lemma zcard_replies : replies zcard_fn. Proof. replies. Qed.
Lemma zscore_replies m : replies (zscore_fn m). Proof. replies. Qed.
Lemma zrange_replies a b ws : replies (zrange_fn a b ws). Proof. replies. Qed.

Lemma get_reply o : (get_fn o).1 ≠ EmptyString.
Proof. unfold get_fn. by repeat case_match. Qed.

#[local] Hint Resolve lpush_replies rpush_replies lpop_replies rpop_replies llen_replies
  lrange_replies sadd_replies srem_replies smembers_replies scard_replies hset_replies
  hget_replies hgetall_replies hdel_replies hlen_replies zadd_replies zrem_replies
  zcard_replies zscore_replies zrange_replies : quine.

(** ** On the owner's core *)

(** [e] changes core [c]'s shard at [k] only, keeps it well formed, and replies
    (or finds the table full). *)
Definition local_effect (e : prog string) (w : World) (c : nat) (k : string) : Prop :=
  ∀ sh, shards_ (topo w) !! c = Some sh → shard_wf sh →
  ∃ r sh' n, e w = (r, at_shard w c sh' n) ∧ shard_wf sh' ∧
    (∀ k', k' ≠ k → shard_db sh' !! k' = shard_db sh !! k') ∧
    match r with
    | Ok reply => reply ≠ EmptyString
    | Throw ex => ex = runtime_error "HashMap is full"
    | Undefined => False
    end.

Lemma local_effect_reply e w c k err :
  err ≠ EmptyString → e w = (Ok err, w) → local_effect e w c k.
Proof.
  intros He E sh Hsh Hwf. exists (Ok err), sh, 0. split_and!; [|done..].
  by rewrite (at_shard_id w c (lookup_lt_Some _ _ _ Hsh) sh Hsh).
Qed.

Lemma apply_action_other t k k' a d : k' ≠ k → apply_action t k a d !! k' = d !! k'.
Proof.
  intros Hne. destruct a; simpl; [by apply purge_other|].
  rewrite lookup_insert_ne by done. by apply purge_other.
Qed.

Lemma local_effect_refines P e spec w c k :
  refines_when P e spec w c k → (∀ o, (spec o).1 ≠ EmptyString) →
  (∀ sh, shards_ (topo w) !! c = Some sh →
     P (visible (clock w (ticks w)) k (shard_db sh))) →
  local_effect e w c k.
Proof.
  intros Hr Hs HP sh Hsh Hwf.
  destruct (Hr sh Hsh Hwf (HP sh Hsh)) as (sh' & n & Hwf' & [[E Hdb]|(E & _ & _ & _ & Hdb)]).
  - eexists _, sh', n. split_and!; [done|done| |apply Hs].
    intros k' Hk'. rewrite Hdb. by apply apply_action_other.
  - eexists _, sh', n. split_and!; [done|done| |done].
    intros k' Hk'. rewrite Hdb. by apply purge_other.
Qed.

(** Where the C++ is defined: no NaN scores, containers an [int] can count, time
    arithmetic within [long long], an option of [ZRANGE] that [toupper] is defined on. *)
Definition cmd_pre (w : World) (c : nat) (name : string) (args : list string) : Prop :=
  ∀ sh, shards_ (topo w) !! c = Some sh →
  let k := args !!! 1 in
  let v := visible (clock w (ticks w)) k (shard_db sh) in
  let t := clock w (S (ticks w)) in
  (name = "LRANGE" → list_fits v) ∧ (name = "ZRANGE" → zset_fits v ∧ option_plain args = true) ∧
  (name = "ZADD" → Forall (λ e, is_nan (score e) = false) (zadd_prefix (drop 2 args))) ∧
  (name = "EXPIRE" → ∀ s, stol (args !!! 2) = Ok s → is_Some v → is_Some (expire_at t s)) ∧
  (name = "TTL" → ttl_range (clock w (ticks w)) t (shard_db sh !! k)).

Section local.
Context (w : World) (c : nat) (conn_id : Z) (args : list string).
Hypothesis Hk : get_target_core (topo w) (args !!! 1) = c.

Lemma set_local : local_effect (SetCommand_execute c conn_id args) w c (args !!! 1).
Proof using Hk.
  destruct (decide (length args = 3)) as [Hn|Hn].
  - intros sh Hsh Hwf.
    destruct (set_runs w c conn_id args Hk sh Hsh Hwf Hn) as [(sh' & E & Hwf' & Hdb)|(E & _)].
    + eexists _, sh', 0. split_and!; [done|done| |done]. intros k' Hk'.
      by rewrite Hdb, lookup_insert_ne.
    + exists (Throw (runtime_error "HashMap is full")), sh, 0. split_and!; [|done..].
      by rewrite (at_shard_id w c (lookup_lt_Some _ _ _ Hsh) sh Hsh).
  - eapply (local_effect_reply _ _ _ _ (err_args "set")); [done|]. unfold SetCommand_execute.
    by rewrite (proj2 (Nat.eqb_neq _ _) Hn).
Qed.

Lemma get_local : local_effect (GetCommand_execute c conn_id args) w c (args !!! 1).
Proof using Hk.
  destruct (decide (length args = 2)) as [Hn|Hn].
  - by eapply local_effect_refines; [apply get_runs|apply get_reply|].
  - eapply (local_effect_reply _ _ _ _ (err_args "get")); [done|]. unfold GetCommand_execute.
    by rewrite (proj2 (Nat.eqb_neq _ _) Hn).
Qed.

Lemma del_local : local_effect (DelCommand_execute c conn_id args) w c (args !!! 1).
Proof using Hk.
  destruct (decide (length args = 2)) as [Hn|Hn].
  - intros sh Hsh Hwf. destruct (del_runs w c conn_id args Hk sh Hsh Hwf Hn) as (sh' & E & ? & Hdb).
    eexists _, sh', 0. split_and!; [done|done| |done]. intros k' Hk'.
    by rewrite Hdb, lookup_delete_ne.
  - eapply (local_effect_reply _ _ _ _ (err_args "del")); [done|]. unfold DelCommand_execute.
    by rewrite (proj2 (Nat.eqb_neq _ _) Hn).
Qed.

Lemma expire_local :
  cmd_pre w c "EXPIRE" args → local_effect (ExpireCommand_execute c conn_id args) w c (args !!! 1).
Proof using Hk.
  intros Hpre. destruct (decide (length args = 3)) as [Hn|Hn].
  2:{ eapply (local_effect_reply _ _ _ _ (err_args "expire")); [done|].
      unfold ExpireCommand_execute. by rewrite (proj2 (Nat.eqb_neq _ _) Hn). }
  destruct (stol (args !!! 2)) as [s|e|] eqn:Es; [| |by apply stol_defined in Es].
  - intros sh Hsh Hwf. destruct (Hpre sh Hsh) as (_ & _ & _ & He & _).
    destruct (expire_runs w c conn_id args Hk sh Hsh Hwf s Hn Es (He eq_refl s Es)) as (sh' & n & ? & E & Hdb).
    eexists _, sh', n. split_and!; [done|done| |by case_match]. intros k' Hk'.
    rewrite Hdb, lookup_alter_ne by done. by apply purge_other.
  - eapply (local_effect_reply _ _ _ _ err_not_integer); [done|]. by eapply expire_bad_integer.
Qed.

Lemma ttl_reply_neq t x : ttl_reply t x ≠ EmptyString.
Proof. unfold ttl_reply. by repeat case_match. Qed.

Lemma ttl_local :
  cmd_pre w c "TTL" args → local_effect (TtlCommand_execute c conn_id args) w c (args !!! 1).
Proof using Hk.
  intros Hpre. destruct (decide (length args = 2)) as [Hn|Hn].
  - intros sh Hsh Hwf. destruct (Hpre sh Hsh) as (_ & _ & _ & _ & Ht).
    destruct (ttl_runs w c conn_id args Hk sh Hsh Hwf Hn (Ht eq_refl)) as (sh' & n & ? & E & Hdb).
    eexists _, sh', n. split_and!; [done|done| |case_match; [apply ttl_reply_neq|done]].
    intros k' Hk'. rewrite Hdb. by apply purge_other.
  - eapply (local_effect_reply _ _ _ _ (err_args "ttl")); [done|]. unfold TtlCommand_execute.
    by rewrite (proj2 (Nat.eqb_neq _ _) Hn).
Qed.

(** The other commands check the number of arguments and then refine a function
    of the value: [by_arity cond refinement]. *)
Lemma at_least (m n : nat) : (m <? n) = false → n ≤ m.
Proof. apply Nat.ltb_ge. Qed.
Lemma exactly (m n : nat) : negb (m =? n) = false → m = n.
Proof. rewrite negb_false_iff. apply Nat.eqb_eq. Qed.
Lemma even_args (m n : nat) :
  (m <? n) || negb (m mod 2 =? 0) = false → n ≤ m ∧ Nat.even m = true.
Proof.
  rewrite orb_false_iff, negb_false_iff, Nat.ltb_ge, Nat.eqb_eq. intros [? Hm]. split; [done|].
  apply Nat.even_spec. apply Nat.Div0.mod_divides in Hm as [q ->]. by exists q.
Qed.

Local Ltac by_arity cond refinement :=
  let En := fresh "En" in
  destruct cond eqn:En;
  [eapply local_effect_reply;
     [|match goal with |- ?f _ c conn_id args w = _ => unfold f; rewrite En; reflexivity end];
     done
  |eapply local_effect_refines;
     [by apply refinement; [done|first [assumption|by apply at_least|by apply exactly|by eapply even_args; eassumption]..]
     |intros; first [apply existing_reply|apply creating_reply]; by auto with quine|]].

Lemma lpush_local : local_effect (LPushCommand_execute c conn_id args) w c (args !!! 1).
Proof using Hk. by by_arity (length args <? 3) lpush_refines. Qed.
Lemma rpush_local : local_effect (RPushCommand_execute c conn_id args) w c (args !!! 1).
Proof using Hk. by by_arity (length args <? 3) rpush_refines. Qed.
Lemma lpop_local : local_effect (LPopCommand_execute c conn_id args) w c (args !!! 1).
Proof using Hk. by by_arity (negb (length args =? 2)) lpop_refines. Qed.
Lemma rpop_local : local_effect (RPopCommand_execute c conn_id args) w c (args !!! 1).
Proof using Hk. by by_arity (negb (length args =? 2)) rpop_refines. Qed.
Lemma llen_local : local_effect (LLenCommand_execute c conn_id args) w c (args !!! 1).
Proof using Hk. by by_arity (negb (length args =? 2)) llen_refines. Qed.
Lemma lrange_local :
  cmd_pre w c "LRANGE" args → local_effect (LRangeCommand_execute c conn_id args) w c (args !!! 1).
Proof using Hk.
  intros Hp. by_arity (negb (length args =? 4)) lrange_refines. intros sh Hsh. by apply (Hp sh Hsh).
Qed.
Lemma sadd_local : local_effect (SAddCommand_execute c conn_id args) w c (args !!! 1).
Proof using Hk. by by_arity (length args <? 3) sadd_refines. Qed.
Lemma srem_local : local_effect (SRemCommand_execute c conn_id args) w c (args !!! 1).
Proof using Hk. by by_arity (length args <? 3) srem_refines. Qed.
Lemma smembers_local : local_effect (SMembersCommand_execute c conn_id args) w c (args !!! 1).
Proof using Hk. by by_arity (negb (length args =? 2)) smembers_refines. Qed.
Lemma scard_local : local_effect (SCardCommand_execute c conn_id args) w c (args !!! 1).
Proof using Hk. by by_arity (negb (length args =? 2)) scard_refines. Qed.
Lemma hset_local : local_effect (HSetCommand_execute c conn_id args) w c (args !!! 1).
Proof using Hk. by by_arity ((length args <? 4) || negb (length args mod 2 =? 0)) hset_refines. Qed.
Lemma hget_local : local_effect (HGetCommand_execute c conn_id args) w c (args !!! 1).
Proof using Hk. by by_arity (negb (length args =? 3)) hget_refines. Qed.
Lemma hgetall_local : local_effect (HGetAllCommand_execute c conn_id args) w c (args !!! 1).
Proof using Hk. by by_arity (negb (length args =? 2)) hgetall_refines. Qed.
Lemma hdel_local : local_effect (HDelCommand_execute c conn_id args) w c (args !!! 1).
Proof using Hk. by by_arity (length args <? 3) hdel_refines. Qed.
Lemma hlen_local : local_effect (HLenCommand_execute c conn_id args) w c (args !!! 1).
Proof using Hk. by by_arity (negb (length args =? 2)) hlen_refines. Qed.
Lemma zadd_local :
  c < length (shards_ (topo w)) →
  cmd_pre w c "ZADD" args → local_effect (ZAddCommand_execute c conn_id args) w c (args !!! 1).
Proof using Hk.
  intros [sh Hsh]%lookup_lt_is_Some Hp. destruct (Hp sh Hsh) as (_ & _ & Hz & _).
  specialize (Hz eq_refl).
  by by_arity ((length args <? 4) || negb (length args mod 2 =? 0)) zadd_refines.
Qed.
Lemma zrange_local :
  c < length (shards_ (topo w)) →
  cmd_pre w c "ZRANGE" args → local_effect (ZRangeCommand_execute c conn_id args) w c (args !!! 1).
Proof using Hk.
  intros [sh Hsh]%lookup_lt_is_Some Hp. destruct (Hp sh Hsh) as (_ & Hz & _).
  destruct (Hz eq_refl) as [_ Ho]. clear Hz sh Hsh.
  by_arity (length args <? 4) zrange_refines. intros sh Hsh. by apply (Hp sh Hsh).
Qed.
Lemma zrem_local : local_effect (ZRemCommand_execute c conn_id args) w c (args !!! 1).
Proof using Hk. by by_arity (length args <? 3) zrem_refines. Qed.
Lemma zcard_local : local_effect (ZCardCommand_execute c conn_id args) w c (args !!! 1).
Proof using Hk. by by_arity (negb (length args =? 2)) zcard_refines. Qed.
Lemma zscore_local : local_effect (ZScoreCommand_execute c conn_id args) w c (args !!! 1).
Proof using Hk. by by_arity (negb (length args =? 3)) zscore_refines. Qed.

(** Every command that takes a key. *)
Lemma key_command_local cmd :
  c < length (shards_ (topo w)) → cmd ∈ key_commands → cmd_pre w c (cmd_name cmd) args →
  local_effect (cmd_execute cmd c conn_id args) w c (args !!! 1).
Proof using Hk.
  intros Hc Hin. unfold key_commands in Hin.
  repeat (apply elem_of_cons in Hin as [->|Hin];
    [intros Hp; cbn [cmd_execute]; first
      [ apply set_local | apply get_local | apply del_local | apply expire_local
      | apply ttl_local | apply lpush_local | apply rpush_local | apply lpop_local
      | apply rpop_local | apply llen_local | apply lrange_local | apply sadd_local
      | apply srem_local | apply smembers_local | apply scard_local | apply hset_local
      | apply hget_local | apply hgetall_local | apply hdel_local | apply hlen_local
      | apply zadd_local | apply zrange_local | apply zrem_local | apply zcard_local
      | apply zscore_local ]; done|]).
  by apply elem_of_nil in Hin.
Qed.

End local.

(** ** On the whole server *)

Lemma at_shard_wf w c sh sh' n k :
  topo_wf (topo w) → shards_ (topo w) !! c = Some sh → shard_wf sh' →
  get_target_core (topo w) k = c →
  (∀ k', k' ≠ k → shard_db sh' !! k' = shard_db sh !! k') →
  topo_wf (topo (at_shard w c sh' n)) ∧
  ∀ k', k' ≠ k → topo_db (topo (at_shard w c sh' n)) k' = topo_db (topo w) k'.
Proof.
  intros Hwf Hsh Hwf' Hk Hother. cbn [at_shard topo]. split.
  - apply set_shard_wf; [done..|]. intros k' Hk'.
    destruct (decide (k' = k)) as [->|Hne]; [done|]. rewrite Hother in Hk' by done.
    by eapply (tw_placed _ Hwf).
  - intros k' Hne. destruct (decide (get_target_core (topo w) k' = c)) as [Hc|Hc].
    + rewrite topo_db_set_same by done. rewrite Hother by done.
      unfold topo_db. by rewrite Hc, Hsh.
    + by apply topo_db_set_other.
Qed.

(** The owner executes. *)
Lemma exec_owner w c cmd conn_id args :
  topo_wf (topo w) → cmd ∈ key_commands → get_target_core (topo w) (args !!! 1) = c →
  cmd_pre w c (cmd_name cmd) args →
  ∃ r w', cmd_execute cmd c conn_id args w = (r, w') ∧ topo_wf (topo w') ∧
    channels_ (topo w') = channels_ (topo w) ∧
    (∀ k, k ≠ args !!! 1 → topo_db (topo w') k = topo_db (topo w) k) ∧
    match r with
    | Ok reply => reply ≠ EmptyString
    | Throw ex => ex = runtime_error "HashMap is full"
    | Undefined => False
    end.
Proof.
  intros Hwf Hin Hc Hp.
  destruct (lookup_lt_is_Some_2 (shards_ (topo w)) c) as [sh Hsh].
  { rewrite (tw_shards _ Hwf), <- Hc. by apply target_core_lt. }
  pose proof (lookup_lt_Some _ _ _ Hsh) as Hlt.
  destruct (key_command_local w c conn_id args Hc cmd Hlt Hin Hp sh Hsh
    (tw_shard_wf _ Hwf _ _ Hsh)) as (r & sh' & n & E & Hwf' & Hother & Hr).
  destruct (at_shard_wf w c sh sh' n (args !!! 1) Hwf Hsh Hwf' Hc Hother) as [Hwf'' Hdb].
  exists r, (at_shard w c sh' n). split_and!; done.
Qed.

(** Elsewhere the command answers an argument error or forwards. *)
Definition request (c : nat) (conn_id : Z) (args : list string) : Message :=
  mkMsg REQUEST c conn_id (args !!! 1) args EmptyString None.

Lemma exec_elsewhere w c cmd conn_id args :
  cmd ∈ key_commands → get_target_core (topo w) (args !!! 1) ≠ c →
  (∃ err, resp_wf err = true ∧ ∀ c' w', cmd_execute cmd c' conn_id args w' = (Ok (render err), w')) ∨
  cmd_execute cmd c conn_id args w = forward_request c conn_id args w.
Proof.
  intros Hin Hc. pose proof key_commands_routed as Hr. rewrite Forall_forall in Hr.
  destruct (Hr cmd Hin conn_id args) as [(err & He & Ha)|Hb].
  { left. exists err. split; [done|]. intros c' w'. by rewrite Ha. }
  destruct (Hb c) as [body ->]. right. unfold if_local. rewrite bind_gets.
  destruct (is_local (topo w) c (args !!! 1)) eqn:El; [|done].
  by apply is_local_spec in El.
Qed.

Lemma notify_core_topo i w :
  ∃ w', notify_core i w = (Ok tt, w') ∧ topo w' = topo w ∧ clock w' = clock w ∧
    ticks w' = ticks w ∧ files w' = files w.
Proof.
  unfold notify_core, modify. eexists. split; [done|].
  unfold wake_write. by repeat case_match.
Qed.

Lemma forward_request_spec w c conn_id args :
  topo_wf (topo w) →
  let t := get_target_core (topo w) (args !!! 1) in
  ∃ ch w', channels_ (topo w) !! t = Some ch ∧
    forward_request c conn_id args w = (Ok EmptyString, w') ∧
    topo w' = set_channels (topo w)
      (<[t := ch_push ch (request c conn_id args)]> (channels_ (topo w))) ∧
    clock w' = clock w ∧ ticks w' = ticks w ∧ files w' = files w.
Proof.
  intros Hwf t. destruct (lookup_lt_is_Some_2 (channels_ (topo w)) t) as [ch Hch].
  { rewrite (tw_channels _ Hwf). by apply target_core_lt. }
  unfold forward_request. setoid_rewrite bind_gets. fold t.
  set (w1 := set_topo w (set_channels (topo w)
    (<[t := ch_push ch (request c conn_id args)]> (channels_ (topo w))))).
  destruct (notify_core_topo t w1) as (w' & E & Ht & Hcl & Hti & Hfi).
  exists ch, w'. split_and!; [done| |by rewrite Ht|by rewrite Hcl|by rewrite Hti|by rewrite Hfi].
  erewrite bind_ok by (unfold push_channel; by rewrite Hch).
  by erewrite bind_ok by exact E.
Qed.

(** [SAVE] leaves the database alone and replies. *)
Lemma exec_save w c conn_id args :
  topo_wf (topo w) →
  ∃ reply w', SaveCommand_execute c conn_id args w = (Ok (render reply), w') ∧
    topo w' = topo w ∧ resp_wf reply = true ∧ clock w' = clock w ∧ ticks w' = ticks w ∧
    eventfds w' = eventfds w ∧ wakes w' = wakes w.
Proof.
  intros Hwf. unfold SaveCommand_execute. destruct (can_write "data/dump.rdb") eqn:E.
  - erewrite bind_ok by by apply save_ok. by eexists (RSimple "OK"), _.
  - assert (save "data/dump.rdb" w = (Ok false, w)) as Es by (unfold save; by rewrite E).
    erewrite bind_ok by exact Es. by eexists (RError "ERR failed to save"), _.
Qed.

(** A registered command takes a key or is [SAVE]. *)
Lemma registered_cases name cmd :
  get_command registry name = Some cmd →
  cmd_name cmd = name ∧ (cmd ∈ key_commands ∨ cmd = SaveCommand).
Proof.
  intros [Hin Hn]%registered. split; [done|]. unfold all_commands in Hin.
  apply elem_of_app in Hin as [?|?%list_elem_of_singleton]; auto.
Qed.

End registry.
