(* ===== verification/Replies.v ===== *)
(** * What a command does on the core that owns its key

    [answers] and [store_full] describe one execution: the reply, the entry of
    the key afterwards, and that no other key changed.  [owner_run] turns the
    refinement of a command on its shard ([refines_when]) into such a
    description of the whole database. *)
From S2P Require Import Prelude CxxString Double Containers Value Store HashMap Shard Router Topology Command Exec Rdb Registry.
From Stdlib Require Import ZArith Lia.
From stdpp Require Import prelude gmap strings list_numbers.

Section replies.
Context `{StdHash}.

(** The entry and the value of [k] that a command starting in [w] sees: a key
    past its expiry is gone. *)
Definition entry_at (w : World) (k : string) : option (Value * option Z) :=
  topo_db (topo w) k ≫= λ e, if is_expired (clock w (ticks w)) e then None else Some e.
Definition value_at (w : World) (k : string) : option Value := fst <$> entry_at w k.

Lemma entry_at_stored w k e : entry_at w k = Some e → topo_db (topo w) k = Some e.
Proof.
  unfold entry_at. destruct (topo_db (topo w) k) as [e'|]; simpl; [|done]. by destruct (is_expired _ e').
Qed.

(** [r] is a reply, after which [k] has the entry [e] and other keys are as they
    were. *)
Definition answers (w : World) (k : string) (r : outcome string * World) (reply : string)
    (e : option (Value * option Z)) : Prop :=
  r.1 = Ok reply ∧ topo_wf (topo r.2) ∧ topo_db (topo r.2) k = e ∧
  ∀ k', k' ≠ k → topo_db (topo r.2) k' = topo_db (topo w) k'.

(** [r] is the exception for a table with no unused slot; [k] is not in it. *)
Definition store_full (w : World) (k : string) (r : outcome string * World) : Prop :=
  r.1 = Throw (runtime_error "HashMap is full") ∧ topo_wf (topo r.2) ∧
  topo_db (topo r.2) k = None ∧
  (∃ sh, shards_ (topo r.2) !! get_target_core (topo w) k = Some sh ∧ full (data_store sh)) ∧
  ∀ k', k' ≠ k → topo_db (topo r.2) k' = topo_db (topo w) k'.

Section owner.
Context (w : World) (c : nat) (k : string).
Hypothesis Hwf : topo_wf (topo w).
Hypothesis Hk : get_target_core (topo w) k = c.

Lemma owner_shard :
  ∃ sh, shards_ (topo w) !! c = Some sh ∧ shard_wf sh ∧
    shard_db sh !! k = topo_db (topo w) k ∧
    visible (clock w (ticks w)) k (shard_db sh) = value_at w k ∧
    purge (clock w (ticks w)) k (shard_db sh) !! k = entry_at w k.
Proof using Hwf Hk.
  destruct (lookup_lt_is_Some_2 (shards_ (topo w)) c) as [sh Hsh].
  { rewrite (tw_shards _ Hwf), <- Hk. by apply target_core_lt. }
  assert (topo_db (topo w) k = shard_db sh !! k) as Hdb by (unfold topo_db; by rewrite Hk, Hsh).
  exists sh. rewrite Hdb. split_and!; [done|by eapply tw_shard_wf|done| |];
    unfold value_at, entry_at, visible, purge; rewrite Hdb;
    destruct (shard_db sh !! k) as [e|] eqn:E; simpl; try done;
    destruct (is_expired _ e); try done; [by rewrite lookup_delete_eq].
Qed.

(** A run that ends in [at_shard] with the key's entry changed to [e]. *)
Lemma at_shard_answers sh sh' n reply :
  shards_ (topo w) !! c = Some sh → shard_wf sh' →
  (∀ k', k' ≠ k → shard_db sh' !! k' = shard_db sh !! k') →
  answers w k (Ok reply, at_shard w c sh' n) reply (shard_db sh' !! k).
Proof using Hwf Hk.
  intros Hsh Hwf' Hother.
  destruct (at_shard_wf w c sh sh' n k Hwf Hsh Hwf' Hk Hother) as [Hwf'' Hdb].
  split_and!; [done|done| |done]. by apply topo_db_set_same.
Qed.

(** The exception for a full table leaves an absent or expired key absent. *)
Lemma at_shard_full sh sh' n :
  shards_ (topo w) !! c = Some sh → shard_wf sh' → value_at w k = None →
  full (data_store sh') → shard_db sh' = purge (clock w (ticks w)) k (shard_db sh) →
  store_full w k (Throw (runtime_error "HashMap is full"), at_shard w c sh' n).
Proof using Hwf Hk.
  intros Hsh Hwf' Hn Hf Hdb'. destruct owner_shard as (sh0 & Hsh0 & _ & _ & _ & Hp).
  rewrite Hsh in Hsh0. injection Hsh0 as <-.
  assert (∀ k', k' ≠ k → shard_db sh' !! k' = shard_db sh !! k') as Hother.
  { intros k' Hne. rewrite Hdb'. by apply purge_other. }
  destruct (at_shard_wf w c sh sh' n k Hwf Hsh Hwf' Hk Hother) as [Hwf'' Hdb''].
  split_and!; [done|done| | |done].
  - etrans; [by apply topo_db_set_same|]. rewrite Hdb', Hp. unfold value_at in Hn.
    by destruct (entry_at w k).
  - exists sh'. rewrite Hk. split; [|done]. apply at_shard_lookup. by eapply lookup_lt_Some.
Qed.

Lemma owner_run P e spec :
  refines_when P e spec w c k → P (value_at w k) →
  answers w k (e w) (spec (value_at w k)).1
    (match (spec (value_at w k)).2 with
     | Keep => entry_at w k
     | Write v => Some (v, entry_at w k ≫= snd)
     end) ∨
  (value_at w k = None ∧ (spec None).2 ≠ Keep ∧ store_full w k (e w)).
Proof using Hwf Hk.
  intros Hr HP. destruct owner_shard as (sh & Hsh & Hswf & Hdb & Hv & Hp).
  specialize (Hr sh Hsh Hswf). simpl in Hr. rewrite Hv in Hr.
  destruct (Hr HP) as (sh' & n & Hwf' & [[-> Hdb']|(-> & Hn & Hkeep & Hf & Hdb')]).
  - left. assert (∀ k', k' ≠ k → shard_db sh' !! k' = shard_db sh !! k') as Hother.
    { intros k' Hne. rewrite Hdb'. by apply apply_action_other. }
    replace (match (spec (value_at w k)).2 with Keep => _ | Write v => _ end) with (shard_db sh' !! k).
    { by eapply at_shard_answers. }
    rewrite Hdb'. destruct (spec (value_at w k)).2; simpl; [done|].
    by rewrite lookup_insert_eq, Hp.
  - right. rewrite Hn in Hkeep. split_and!; [done..|].
    by apply (at_shard_full sh).
Qed.

(** The same when the key has a value, and for a command that does not write a
    missing one: no exception. *)
Lemma owner_run_some P e spec v :
  refines_when P e spec w c k → P (value_at w k) → value_at w k = Some v →
  answers w k (e w) (spec (Some v)).1
    (match (spec (Some v)).2 with
     | Keep => entry_at w k
     | Write v => Some (v, entry_at w k ≫= snd)
     end).
Proof using Hwf Hk.
  intros Hr HP Hv. destruct (owner_run P e spec Hr HP) as [Ha|[Hn _]]; [|congruence].
  by rewrite Hv in Ha.
Qed.

Lemma owner_run_keep P e spec :
  refines_when P e spec w c k → P (value_at w k) → (spec None).2 = Keep →
  answers w k (e w) (spec (value_at w k)).1
    (match (spec (value_at w k)).2 with
     | Keep => entry_at w k
     | Write v => Some (v, entry_at w k ≫= snd)
     end).
Proof using Hwf Hk.
  intros Hr HP Hn. by destruct (owner_run P e spec Hr HP) as [Ha|(_ & ? & _)].
Qed.

(** A key that is not expired keeps its value well formed. *)
Lemma value_at_wf v : value_at w k = Some v → value_wf v.
Proof using Hwf Hk.
  destruct owner_shard as (sh & Hsh & Hswf & Hdb & _). unfold value_at, entry_at. rewrite <- Hdb.
  destruct (shard_db sh !! k) as [e|] eqn:E; simpl; [|done].
  destruct (is_expired _ e); [done|]. intros [= <-]. by eapply shard_db_values.
Qed.

End owner.

(** ** Concrete servers, for the examples: one core, one key *)

Definition demo_store (k : string) (v : Value) : World :=
  mkWorld (set_shards (new_topology 1)
    [match Shard.set new_shard k v with Ok sh => sh | _ => new_shard end]) (λ n, Z.of_nat n) 0 ∅ ∅ EventFd.

Lemma demo_target k : get_target_core (topo (demo_world 1)) k = 0.
Proof. pose proof (get_shard_id_lt 1 k ltac:(lia)). unfold get_target_core. simpl in *. lia. Qed.

Lemma demo_wf : topo_wf (topo (demo_world 1)).
Proof. apply new_topology_wf. lia. Qed.

Lemma demo_value k : entry_at (demo_world 1) k = None.
Proof.
  unfold entry_at, topo_db. rewrite demo_target.
  change (shards_ (topo (demo_world 1)) !! 0) with (Some new_shard). cbn [mbind option_bind].
  destruct new_shard_wf as [_ ->]. by rewrite lookup_empty.
Qed.

Lemma demo_value_none k : value_at (demo_world 1) k = None.
Proof. exact (f_equal (fmap fst) (demo_value k)). Qed.

Lemma fresh_set sh0 k v :
  shard_wf sh0 → shard_db sh0 = ∅ → ¬ full (data_store sh0) → value_wf v →
  ∃ sh, Shard.set sh0 k v = Ok sh ∧ shard_wf sh ∧ shard_db sh = {[k := (v, None)]}.
Proof.
  intros Hwf Hdb Hf Hv. pose proof (Shard.set_spec sh0 k v Hwf Hv) as Hs.
  destruct (Shard.set sh0 k v) as [sh|e|]; [|by destruct Hs as (_ & ? & _)|done].
  destruct Hs as [Hs Hd]. exists sh. by rewrite Hd, Hdb.
Qed.

Lemma new_shard_set k v :
  value_wf v → ∃ sh, Shard.set new_shard k v = Ok sh ∧ shard_wf sh ∧ shard_db sh = {[k := (v, None)]}.
Proof.
  destruct new_shard_wf as [Hwf Hdb]. apply (fresh_set new_shard k v Hwf Hdb).
  intros Hf. specialize (Hf 0 shard_capacity_pos).
  cbn [new_shard data_store new_map entries] in Hf.
  rewrite lookup_total_replicate_2 in Hf by apply shard_capacity_pos. discriminate Hf.
Qed.

Lemma demo_store_ok k v :
  value_wf v →
  topo_wf (topo (demo_store k v)) ∧ get_target_core (topo (demo_store k v)) k = 0 ∧
  entry_at (demo_store k v) k = Some (v, None).
Proof.
  intros Hv. destruct (new_shard_set k v Hv) as (sh & E & Hwf & Hdb).
  assert (get_target_core (topo (demo_store k v)) k = 0) as Ht.
  { pose proof (get_shard_id_lt 1 k ltac:(lia)). unfold get_target_core. simpl in *. lia. }
  split_and!; [|done|].
  - unfold demo_store. rewrite E. cbn [topo].
    apply (set_shard_wf (new_topology 1) 0 sh); [by apply demo_wf|done|].
    intros k' _. apply demo_target.
  - unfold entry_at, topo_db. rewrite Ht. unfold demo_store. rewrite E. simpl.
    by rewrite Hdb, lookup_singleton_eq.
Qed.

Lemma demo_store_value k v : value_wf v → value_at (demo_store k v) k = Some v.
Proof. intros Hv. unfold value_at. by destruct (demo_store_ok k v Hv) as (_ & _ & ->). Qed.

End replies.
