(* ===== verification/StorageTheorems.v ===== *)
(** * The storage components, over whole sequences of calls

    [run] executes a sequence of operations and stops at the first exception;
    [spec_run] executes it on an abstract state.  The hash map, the shard and
    the sorted set answer every sequence as a finite map, a map with
    expiry times and a finite map with a sorted enumeration do.  The ring of the
    router sends every key to its successor point. *)
From S2P Require Import Prelude CxxString Double Containers Value Store HashMap Shard Router Topology.
From Stdlib Require Import ZArith Lia.
From stdpp Require Import prelude gmap strings list_numbers.

(** ** Sequences of operations *)

Section traces.
Context {S T O A : Type} (step : S → O → outcome (S * A)) (spec : T → O → T * A).

Fixpoint run (s : S) (ops : list O) : list A * outcome S :=
  match ops with
  | [] => ([], Ok s)
  | o :: ops' =>
      match step s o with
      | Ok (s', a) => let '(out, r) := run s' ops' in (a :: out, r)
      | Throw e => ([], Throw e)
      | Undefined => ([], Undefined)
      end
  end.

Fixpoint spec_run (t : T) (ops : list O) : list A * T :=
  match ops with
  | [] => ([], t)
  | o :: ops' =>
      let '(t', a) := spec t o in
      let '(out, t'') := spec_run t' ops' in (a :: out, t'')
  end.

(** A run that agrees with the abstract one, or does up to an operation [o] that
    throws in a state where [bad] holds. *)
Definition agrees (R : S → T → Prop) (bad : exn → T → O → Prop) (t : T) (ops : list O)
    (r : list A * outcome S) : Prop :=
  match r.2 with
  | Ok s' => r.1 = (spec_run t ops).1 ∧ R s' (spec_run t ops).2
  | Throw e => ∃ ops1 o ops2, ops = ops1 ++ o :: ops2 ∧ r.1 = (spec_run t ops1).1 ∧
      bad e (spec_run t ops1).2 o
  | Undefined => False
  end.

Lemma run_agrees (R : S → T → Prop) (bad : exn → T → O → Prop) (good : O → Prop) :
  (∀ s t o, R s t → good o →
     match step s o with
     | Ok (s', a) => a = (spec t o).2 ∧ R s' (spec t o).1
     | Throw e => bad e t o
     | Undefined => False
     end) →
  ∀ ops s t, R s t → Forall good ops → agrees R bad t ops (run s ops).
Proof.
  intros Hstep ops. induction ops as [|o ops IH]; intros s t HR Hg; [by split|].
  apply Forall_cons in Hg as [Ho Hg]. specialize (Hstep s t o HR Ho). unfold agrees. simpl.
  destruct (step s o) as [[s' a]|e|]; [|by exists [], o, ops|done].
  destruct Hstep as [-> HR']. specialize (IH s' (spec t o).1 HR' Hg). unfold agrees in IH.
  destruct (run s' ops) as [out r]. simpl in *. destruct r as [s''|e|]; [| |done].
  - destruct (spec t o) as [t' a]. simpl in *. by destruct (spec_run t' ops), IH as [-> ?].
  - destruct IH as (ops1 & o' & ops2 & -> & -> & Hb). exists (o :: ops1), o', ops2. simpl.
    destruct (spec t o) as [t' a]. simpl in *. by destruct (spec_run t' ops1).
Qed.

End traces.

(** ** The hash map *)

Section hash_map.
Context `{StdHash}.

Inductive map_op := OPut (k : string) (v : Value) | OGet (k : string) | ODel (k : string).
Inductive map_ans := AInserted (b : bool) | AValue (v : option Value) | ADeleted (b : bool).

Definition map_step (m : HashMap) (o : map_op) : outcome (HashMap * map_ans) :=
  match o with
  | OPut k v =>
      match HashMap.put m k v with
      | Ok (m', b) => Ok (m', AInserted b)
      | Throw e => Throw e
      | Undefined => Undefined
      end
  | OGet k => Ok (m, AValue (HashMap.deref m <$> HashMap.get m k))
  | ODel k => let '(m', b) := HashMap.del m k in Ok (m', ADeleted b)
  end.

(** The finite map, and how many keys were ever inserted into it. *)
Definition map_spec (t : gmap string Value * nat) (o : map_op) : (gmap string Value * nat) * map_ans :=
  let '(g, n) := t in
  match o with
  | OPut k v =>
      let new := bool_decide (g !! k = None) in
      ((<[k := v]> g, if new then S n else n), AInserted new)
  | OGet k => (t, AValue (g !! k))
  | ODel k => ((delete k g, n), ADeleted (bool_decide (is_Some (g !! k))))
  end.

(** The slots that are not free any more. *)
Definition used (m : HashMap) : nat := length (filter (λ e, occupied e = true) (entries m)).

Lemma used_set m i e sz :
  i < length (entries m) → occupied e = true →
  (used (set_entry m i e sz) + (if occupied (entries m !!! i) then 1 else 0) = S (used m))%nat.
Proof.
  intros Hi He. unfold used, set_entry; simpl. pose proof (lookup_entry m i Hi) as Hl.
  rewrite insert_take_drop by done.
  rewrite <- (take_drop_middle (entries m) i (entries m !!! i) Hl) at 4.
  rewrite !filter_app, !length_app, !filter_cons. rewrite decide_True by done.
  destruct (occupied (entries m !!! i)) eqn:E; simpl; lia.
Qed.

Lemma used_le m : used m ≤ length (entries m).
Proof. apply length_filter. Qed.

Lemma filter_all {A} (P : A → Prop) `{∀ x, Decision (P x)} (l : list A) :
  length (filter P l) = length l ↔ Forall P l.
Proof.
  induction l as [|x l IH]; [done|]. rewrite filter_cons, Forall_cons, <- IH.
  pose proof (length_filter P l). destruct (decide (P x)); simpl; split; intros; [|lia..|naive_solver].
  split; [done|lia].
Qed.

Lemma used_full m : hm_wf m → full m ↔ used m = capacity m.
Proof.
  intros Hwf. rewrite <- (hw_length m Hwf). unfold used. rewrite filter_all, Forall_lookup.
  unfold full. rewrite <- (hw_length m Hwf). split.
  - intros Hf i e Hi. rewrite <- (lookup_total_entry m i e Hi). apply Hf. by eapply lookup_lt_Some.
  - intros Hf i Hi. by apply (Hf i), lookup_entry.
Qed.

Lemma put_used m k v m' b :
  hm_wf m → HashMap.put m k v = Ok (m', b) →
  used m' = (if b then S (used m) else used m) ∧ capacity m' = capacity m.
Proof.
  intros Hwf. unfold HashMap.put. destruct (find_slot m k) as [i|i| |] eqn:E; [| |done..].
  - intros [= <- <-]. split; [|done]. destruct (live_at_inv _ _ _ _ (find_slot_found m i k Hwf E)) as (Hi & Hl & _).
    unfold live in Hl. apply andb_true_iff in Hl as [Ho _]. rewrite Ho.
    pose proof (used_set m i (mkE (e_key (entries m !!! i)) v true (deleted (entries m !!! i))) (HashMap.map_size m)
      Hi eq_refl) as Hu. rewrite Ho in Hu. unfold set_entry in Hu. lia.
  - intros [= <- <-]. split; [|done]. destruct (put_free_wf m i k v Hwf E) as (Hi & _).
    rewrite <- (hw_length m Hwf) in Hi. pose proof (find_slot_spec m k (hw_cap m Hwf)) as Hp.
    rewrite E in Hp. destruct Hp as (j & _ & _ & Ho & _).
    pose proof (used_set m i (mkE k v true false) (uint64 (HashMap.map_size m + 1)) Hi eq_refl) as Hu.
    rewrite Ho in Hu. unfold set_entry in Hu. lia.
Qed.

Lemma del_used m k :
  hm_wf m → used (HashMap.del m k).1 = used m ∧ capacity (HashMap.del m k).1 = capacity m.
Proof.
  intros Hwf. unfold HashMap.del. destruct (find_slot m k) as [i|i| |] eqn:E; try done.
  split; [|done]. destruct (live_at_inv _ _ _ _ (find_slot_found m i k Hwf E)) as (Hi & Hl & _).
  unfold live in Hl. apply andb_true_iff in Hl as [Ho _]. simpl. rewrite Ho.
  pose proof (used_set m i (mkE (e_key (entries m !!! i)) Monostate true true)
    (uint64 (HashMap.map_size m - 1)) Hi eq_refl) as Hu. rewrite Ho in Hu. unfold set_entry in Hu. lia.
Qed.

(** How a map of [cap] slots stands for an abstract one. *)
Definition map_rel (cap : nat) (m : HashMap) (t : gmap string Value * nat) : Prop :=
  hm_wf m ∧ capacity m = cap ∧ view m = t.1 ∧ used m = t.2.

Definition map_bad (cap : nat) (e : exn) (t : gmap string Value * nat) (o : map_op) : Prop :=
  e = runtime_error "HashMap is full" ∧ t.2 = cap ∧ ∃ k v, o = OPut k v ∧ t.1 !! k = None.

Lemma map_step_spec cap m t o :
  map_rel cap m t →
  match map_step m o with
  | Ok (m', a) => a = (map_spec t o).2 ∧ map_rel cap m' (map_spec t o).1
  | Throw e => map_bad cap e t o
  | Undefined => False
  end.
Proof.
  destruct t as [g n]. intros (Hwf & Hc & Hg & Hn). simpl in Hg, Hn. subst g n cap.
  destruct o as [k v|k|k]; simpl.
  - pose proof (put_spec m k v Hwf) as Hp. destruct (HashMap.put m k v) as [[m' b]|e|] eqn:E; [| |done].
    + destruct Hp as (Hwf' & Hv & ->). destruct (put_used m k v m' _ Hwf E) as [Hu Hcap].
      split; [done|]. unfold map_rel. simpl. rewrite Hu. by destruct (bool_decide _).
    + destruct Hp as (-> & Hf & Hn). split_and!; [done|by apply used_full|by exists k, v].
  - split; [by rewrite get_view|]. by split_and!.
  - destruct (map_del_spec m k Hwf) as (Hwf' & Hv & Hb), (del_used m k Hwf) as [Hu Hcap].
    destruct (HashMap.del m k) as [m' b]. simpl in *. subst b. split; [done|]. by split_and!.
Qed.

(** C10. A hash map of any capacity, run on any sequence of [put], [get] and [del],
    answers as a finite map does and ends representing it, with its size.  The only
    exception is "HashMap is full", at the [put] of an absent key, once as many keys
    have been inserted over the life of the map as it has slots; all answers before
    it are right. *)
Theorem map_refines cap ops :
  0 < cap →
  match run map_step (new_map cap) ops with
  | (out, Ok m) =>
      let '(g, n) := (spec_run map_spec (∅, 0) ops).2 in
      out = (spec_run map_spec (∅, 0) ops).1 ∧ view m = g ∧ n ≤ cap ∧
      HashMap.map_size m = uint64 (Z.of_nat (size g))
  | (out, Throw e) =>
      e = runtime_error "HashMap is full" ∧
      ∃ ops1 k v ops2, ops = ops1 ++ OPut k v :: ops2 ∧
        let '(g, n) := (spec_run map_spec (∅, 0) ops1).2 in
        out = (spec_run map_spec (∅, 0) ops1).1 ∧ g !! k = None ∧ n = cap
  | (_, Undefined) => False
  end.
Proof.
  intros Hcap.
  assert (map_rel cap (new_map cap) (∅, 0)) as HR.
  { split_and!; [by apply new_map_wf|done|apply new_map_view|]. unfold used. simpl.
    clear. induction cap; [done|]. simpl. by rewrite filter_cons. }
  pose proof (run_agrees map_step map_spec (map_rel cap) (map_bad cap) (λ _, True)
    (λ m t o HR _, map_step_spec cap m t o HR) ops (new_map cap) (∅, 0) HR
    ltac:(by apply Forall_true)) as Ha. unfold agrees in Ha.
  destruct (run map_step (new_map cap) ops) as [out [m|e|]]; simpl in Ha; [| |done].
  - destruct (spec_run map_spec (∅, 0) ops) as [out' [g n]]. simpl in *.
    destruct Ha as (-> & Hwf & Hc & Hg & Hn); simpl in *. split_and!; [done..| |].
    + rewrite <- Hn, <- Hc, <- (hw_length m Hwf). apply used_le.
    + rewrite (hw_size m Hwf), <- Hg. unfold view. by rewrite map_size_list_to_map by by apply for_each_NoDup.
  - destruct Ha as (ops1 & o & ops2 & -> & -> & -> & Hn & k & v & -> & Hk). split; [done|].
    exists ops1, k, v, ops2. split; [done|].
    by destruct (spec_run map_spec (∅, 0) ops1) as [out' [g n]].
Qed.

(** C29. The probing loop of [put], [get] and [del] always ends: after at most as
    many steps as there are slots it has found the key, an unused slot, or is back
    at its start - whatever the table holds. *)
Theorem probe_terminates m k : 0 < capacity m → find_slot m k ≠ OutOfFuel.
Proof. intros Hc E. pose proof (find_slot_spec m k Hc) as Hp. by rewrite E in Hp. Qed.

(** A sequence of deletions. *)
Definition dels (ks : list string) (m : HashMap) : HashMap :=
  fold_left (λ m k, (HashMap.del m k).1) ks m.

Lemma dels_spec ks m :
  hm_wf m → hm_wf (dels ks m) ∧ view (dels ks m) = filter (λ kv, kv.1 ∉ ks) (view m) ∧
    used (dels ks m) = used m ∧ capacity (dels ks m) = capacity m.
Proof.
  revert m. induction ks as [|k ks IH]; intros m Hwf; simpl.
  - split_and!; [done| |done..]. symmetry. apply map_filter_id. set_solver.
  - destruct (map_del_spec m k Hwf) as (Hwf' & Hv & _), (del_used m k Hwf) as [<- <-].
    destruct (IH (HashMap.del m k).1 Hwf') as (H1 & H2 & H3 & H4). split_and!; [done| |done..].
    rewrite H2, Hv. apply map_eq. intros k'.
    rewrite !map_lookup_filter. destruct (decide (k' = k)) as [->|Hne].
    + rewrite lookup_delete_eq. simpl. destruct (view m !! k); simpl; [|done].
      rewrite option_guard_False; [done|set_solver].
    + rewrite lookup_delete_ne by done. destruct (view m !! k'); simpl; [|done].
      apply option_guard_iff. set_solver.
Qed.

(** C30. Deleting makes no room: when every slot has been used, inserting an absent
    key throws, however many keys have been deleted since - all of them included. *)
Theorem deletion_makes_no_room m ks k v :
  hm_wf m → full m →
  view (dels ks m) = filter (λ kv, kv.1 ∉ ks) (view m) ∧
  (view (dels ks m) !! k = None →
   HashMap.put (dels ks m) k v = Throw (runtime_error "HashMap is full")).
Proof.
  intros Hwf Hf. destruct (dels_spec ks m Hwf) as (Hwf' & Hv & Hu & Hc). split; [done|]. intros Hn.
  pose proof (put_spec _ k v Hwf') as Hp.
  destruct (HashMap.put _ k v) as [[m'' b]|e|] eqn:E; [|by destruct Hp as [-> _]|done].
  destruct Hp as (Hwf'' & _ & ->). destruct (put_used _ k v m'' _ Hwf' E) as [Hu' Hc'].
  rewrite bool_decide_true in Hu' by done. pose proof (used_le m'') as Hle.
  rewrite (hw_length _ Hwf''), Hc', Hu' in Hle. apply used_full in Hf; [|done]. lia.
Qed.

End hash_map.

(** ** The shard *)

Section shard.
Context {M : Type} `{StoreLaws M}.
Implicit Types (sh : Shard M).

(** The calls of a shard, with the clock readings of [get]; a write through the
    pointer goes with the [get] that returned it. *)
Inductive shard_op :=
  | SSet (k : string) (v : Value)
  | SGet (now : Z) (k : string)
  | SPeek (now : Z) (k : string)              (* the [const] overload *)
  | SWrite (now : Z) (k : string) (v : Value)
  | SSetExpiry (k : string) (ms : Z)
  | SGetExpiry (k : string)
  | SDel (k : string)
  | SForEach.

Inductive shard_ans :=
  | ADone | ASeen (v : option Value) | AExpiry (ms : Z) | ARemoved (b : bool)
  | AItems (items : gmap string Value).

Definition shard_step sh (o : shard_op) : outcome (Shard M * shard_ans) :=
  match o with
  | SSet k v =>
      match Shard.set sh k v with
      | Ok sh' => Ok (sh', ADone)
      | Throw e => Throw e
      | Undefined => Undefined
      end
  | SGet now k => let '(sh', p) := Shard.get now sh k in Ok (sh', ASeen (Shard.deref sh' <$> p))
  | SPeek now k => Ok (sh, ASeen (Shard.deref sh <$> Shard.get_const now sh k))
  | SWrite now k v =>
      let '(sh', p) := Shard.get now sh k in
      Ok (match p with Some p => Shard.assign sh' p v | None => sh' end, ASeen (Shard.deref sh' <$> p))
  | SSetExpiry k ms => Ok (set_expiry sh k ms, ADone)
  | SGetExpiry k => Ok (sh, AExpiry (get_expiry sh k))
  | SDel k => let '(sh', b) := Shard.del sh k in Ok (sh', ARemoved b)
  | SForEach => Ok (sh, AItems (list_to_map (Shard.for_each sh)))
  end.

(** The values, and the expiry times that were set - perhaps for keys without a
    value. *)
Abbreviation timed := (gmap string Value * gmap string Z)%type.

Definition outdated (now : Z) (k : string) (t : timed) : bool :=
  match t.2 !! k with Some ms => (ms <? now)%Z | None => false end.
Definition forget (k : string) (t : timed) : timed := (delete k t.1, delete k t.2).

Definition shard_spec (t : timed) (o : shard_op) : timed * shard_ans :=
  match o with
  | SSet k v => ((<[k := v]> t.1, delete k t.2), ADone)
  | SGet now k => if outdated now k t then (forget k t, ASeen None) else (t, ASeen (t.1 !! k))
  | SPeek now k => (t, ASeen (if outdated now k t then None else t.1 !! k))
  | SWrite now k v =>
      if outdated now k t then (forget k t, ASeen None)
      else ((alter (λ _, v) k t.1, t.2), ASeen (t.1 !! k))
  | SSetExpiry k ms => ((t.1, <[k := ms]> t.2), ADone)
  | SGetExpiry k => (t, AExpiry (default (-1)%Z (t.2 !! k)))
  | SDel k => (forget k t, ARemoved (bool_decide (is_Some (t.1 !! k))))
  | SForEach => (t, AItems t.1)
  end.

(** How a shard stands for values with expiry times. *)
Definition shard_rel sh (t : timed) : Prop :=
  s_wf (data_store sh) ∧ s_view (data_store sh) = t.1 ∧ expires sh = t.2.

Lemma get_outdated now k sh t :
  shard_rel sh t → outdated now k t = true →
  ∃ sh', Shard.get now sh k = (sh', None) ∧ shard_rel sh' (forget k t) ∧
    Shard.get_const now sh k = None.
Proof.
  intros (Hwf & Hv & Hx). unfold outdated, Shard.get, Shard.get_const. rewrite Hx.
  destruct (t.2 !! k) as [ms|]; [|done]. intros ->.
  destruct (s_del_view _ k Hwf) as (Hw' & Hv' & _).
  eexists. split_and!; [done| |done]. split_and!; simpl; [done|by rewrite Hv', Hv|done].
Qed.

Lemma get_current now k sh t :
  shard_rel sh t → outdated now k t = false →
  Shard.get now sh k = (sh, s_get (data_store sh) k) ∧
  Shard.get_const now sh k = s_get (data_store sh) k ∧
  Shard.deref sh <$> s_get (data_store sh) k = t.1 !! k.
Proof.
  intros (Hwf & Hv & Hx). unfold outdated, Shard.get, Shard.get_const. rewrite Hx.
  intros Ho. rewrite <- Hv, (s_get_view _ k Hwf).
  destruct (t.2 !! k) as [ms|]; [rewrite Ho|]; done.
Qed.

Lemma write_current k v sh t :
  shard_rel sh t →
  shard_rel (match s_get (data_store sh) k with Some p => Shard.assign sh p v | None => sh end)
    (alter (λ _, v) k t.1, t.2).
Proof.
  intros (Hwf & Hv & Hx). pose proof (s_get_view _ k Hwf) as Hg. rewrite Hv in Hg.
  destruct (s_get (data_store sh) k) as [p|] eqn:Ep; simpl in Hg.
  - destruct (s_assign_view _ k p v Hwf Ep) as [Hw' Hv']. split_and!; simpl; [done| |done].
    by rewrite Hv', Hv, (alter_alt_Some _ _ _ _ Hg).
  - split_and!; simpl; [done| |done]. by rewrite Hv, alter_id'.
Qed.

Definition shard_bad (e : exn) (t : timed) (o : shard_op) : Prop :=
  e = runtime_error "HashMap is full" ∧ (∃ sh, shard_rel sh t ∧ s_full (data_store sh)) ∧
  ∃ k v, o = SSet k v ∧ t.1 !! k = None.

Lemma shard_step_spec sh t o :
  shard_rel sh t →
  match shard_step sh o with
  | Ok (sh', a) => a = (shard_spec t o).2 ∧ shard_rel sh' (shard_spec t o).1
  | Throw e => shard_bad e t o
  | Undefined => False
  end.
Proof.
  intros HR. pose proof HR as (Hwf & Hv & Hx).
  destruct o as [k v|now k|now k|now k v|k ms|k|k|]; simpl.
  - unfold Shard.set. pose proof (s_put_view _ k v Hwf) as Hp.
    destruct (s_put (data_store sh) k v) as [[m b]|e|]; [| |done].
    + destruct Hp as (Hw' & Hv' & _). split; [done|]. split_and!; simpl; [done|by rewrite Hv', Hv|by rewrite Hx].
    + destruct Hp as (-> & Hf & Hn). rewrite Hv in Hn. split_and!; [done|by exists sh|by exists k, v].
  - destruct (outdated now k t) eqn:Ho.
    + by destruct (get_outdated now k sh t HR Ho) as (sh' & -> & ? & _).
    + destruct (get_current now k sh t HR Ho) as (-> & _ & Hg). by rewrite Hg.
  - destruct (outdated now k t) eqn:Ho.
    + by destruct (get_outdated now k sh t HR Ho) as (sh' & _ & _ & ->).
    + destruct (get_current now k sh t HR Ho) as (_ & -> & Hg). by rewrite Hg.
  - destruct (outdated now k t) eqn:Ho.
    + by destruct (get_outdated now k sh t HR Ho) as (sh' & -> & ? & _).
    + destruct (get_current now k sh t HR Ho) as (-> & _ & Hg). rewrite Hg.
      split; [done|]. by apply write_current.
  - split; [done|]. split_and!; simpl; [done..|by rewrite Hx].
  - split; [|done]. unfold get_expiry. rewrite Hx. by destruct (t.2 !! k).
  - unfold Shard.del. destruct (s_del_view _ k Hwf) as (Hw' & Hv' & Hb).
    destruct (s_del (data_store sh) k) as [m b]. simpl in *. rewrite Hb, Hv. split; [done|].
    split_and!; simpl; [done|by rewrite Hv', Hv|by rewrite Hx].
  - split; [|done]. unfold Shard.for_each. by rewrite (s_items_view _ Hwf), Hv.
Qed.

(** C11. A shard over any store that keeps its promises answers every sequence of its
    calls - [set], both [get]s, a write through the pointer a [get] returned,
    [set_expiry] of any key, present or not, [get_expiry], [del], [for_each] -
    whatever the clock readings, as a map of values and a map of expiry times do: a
    [get] after the expiry removes the key from both and sees nothing, the [const]
    one only hides it, a write through the pointer keeps the expiry, [set] and [del]
    clear it.  It throws only when the store is full and the key is new. *)
Theorem shard_refines sh ops :
  s_wf (data_store sh) →
  let t := (s_view (data_store sh), expires sh) in
  match run shard_step sh ops with
  | (out, Ok sh') =>
      out = (spec_run shard_spec t ops).1 ∧ s_wf (data_store sh') ∧
      (s_view (data_store sh'), expires sh') = (spec_run shard_spec t ops).2
  | (out, Throw e) =>
      e = runtime_error "HashMap is full" ∧
      ∃ ops1 k v ops2 full_sh, ops = ops1 ++ SSet k v :: ops2 ∧
        out = (spec_run shard_spec t ops1).1 ∧
        (s_view (data_store full_sh), expires full_sh) = (spec_run shard_spec t ops1).2 ∧
        s_full (data_store full_sh) ∧ s_view (data_store full_sh) !! k = None
  | (_, Undefined) => False
  end.
Proof.
  intros Hwf t.
  pose proof (run_agrees shard_step shard_spec shard_rel shard_bad (λ _, True)
    (λ sh t o HR _, shard_step_spec sh t o HR) ops sh t (conj Hwf (conj eq_refl eq_refl))
    ltac:(by apply Forall_true)) as Ha. unfold agrees in Ha.
  destruct (run shard_step sh ops) as [out [sh'|e|]]; simpl in Ha; [| |done].
  - destruct Ha as (-> & Hw & Hv & Hx). split_and!; [done..|]. rewrite Hv, Hx. by destruct (_.2).
  - destruct Ha as (ops1 & o & ops2 & -> & -> & -> & (shf & (Hw & Hv & Hx) & Hf) & k & v & -> & Hk).
    split; [done|]. exists ops1, k, v, ops2, shf. rewrite Hv, Hx. split_and!; [done..| |done|done].
    by destruct (_.2).
Qed.

End shard.

(** ** The sorted set *)

Inductive zset_op := ZInsert (e : ZSetEntry) | ZErase (m : string).

Definition zset_step (z : ZSet) (o : zset_op) : outcome (ZSet * bool) :=
  match o with
  | ZInsert e => match zset_insert z e with
                 | Ok z' => Ok (z', false) | Throw x => Throw x | Undefined => Undefined end
  | ZErase m => Ok (zset_erase z m)
  end.

Definition zset_spec (d : gmap string double) (o : zset_op) : gmap string double * bool :=
  match o with
  | ZInsert e => (<[member e := score e]> d, false)
  | ZErase m => (delete m d, bool_decide (is_Some (d !! m)))
  end.

Definition zset_op_ok (o : zset_op) : Prop :=
  match o with ZInsert e => is_nan (score e) = false | ZErase _ => True end.

Lemma zset_step_spec z d o :
  zset_wf z ∧ dict z = d → zset_op_ok o →
  match zset_step z o with
  | Ok (z', a) => a = (zset_spec d o).2 ∧ zset_wf z' ∧ dict z' = (zset_spec d o).1
  | _ => False
  end.
Proof.
  intros [Hwf <-] Ho. destruct o as [e|m]; simpl in *.
  - destruct (zset_insert_spec z Hwf e Ho) as (z' & -> & Hwf' & Hd & _). done.
  - destruct (zset_erase_spec z Hwf m) as (Hwf' & Hd & Hb & _).
    destruct (zset_erase z m) as [z' b]. simpl in *. by subst b.
Qed.

Lemma sorted_lookup {A} (lt : A → A → bool) (l : list A) i j a b :
  osorted lt l → i < j → l !! i = Some a → l !! j = Some b → lt a b = true.
Proof.
  unfold osorted. intros Hs. revert i j. induction Hs as [|x l Hs IH Hx]; intros i j Hij Hi Hj; [done|].
  destruct j as [|j]; [lia|]. destruct i as [|i]; [|by apply (IH i j); [lia|..]].
  injection Hi as <-. exact (Forall_lookup_1 _ _ j b Hx Hj).
Qed.

Lemma entry_klt_number a b :
  is_nan (score a) = false → is_nan (score b) = false → entry_klt a b = true →
  below (score a) (score b) ∨
  same_number (score a) (score b) ∧ string_ltb (member a) (member b) = true.
Proof.
  intros Ha Hb. unfold entry_klt, pair_ltb, entry_key. simpl.
  destruct (Z.eqb_spec (d_key (score a)) (d_key (score b))) as [E|E].
  - right. split; [by apply key_same|done].
  - left. apply key_below; [done..|lia].
Qed.

(** C16. A sorted set, after any sequence of insertions (no NaN) and erasures, holds
    for every member the last score given to it; its tree enumerates the same
    entries, as many as there are members, in increasing order of the numbers the
    scores denote, infinities included, and, for equal numbers, of the members. *)
Theorem zset_refines ops :
  Forall zset_op_ok ops →
  ∃ z, run zset_step zset_empty ops = ((spec_run zset_spec ∅ ops).1, Ok z) ∧
    dict z = (spec_run zset_spec ∅ ops).2 ∧
    (∀ e, e ∈ tree z ↔ dict z !! member e = Some (score e)) ∧ zset_size z = size (dict z) ∧
    ∀ i j a b, i < j → tree z !! i = Some a → tree z !! j = Some b →
      below (score a) (score b) ∨
      same_number (score a) (score b) ∧ string_ltb (member a) (member b) = true.
Proof.
  intros Hops.
  pose proof (run_agrees zset_step zset_spec (λ z d, zset_wf z ∧ dict z = d) (λ _ _ _, False) zset_op_ok)
    as Ha.
  specialize (Ha ltac:(intros z d o HR Ho; pose proof (zset_step_spec z d o HR Ho); by repeat case_match)
    ops zset_empty ∅ (conj zset_empty_wf eq_refl) Hops). unfold agrees in Ha.
  destruct (run zset_step zset_empty ops) as [out [z|e|]]; simpl in Ha; [|naive_solver|done].
  destruct Ha as (-> & Hwf & Hd). exists z. split_and!; [done|done| | |].
  - intros [sc m]. symmetry. apply (zw_agree z Hwf).
  - by apply zset_size_dict.
  - intros i j a b Hij Hi Hj.
    apply entry_klt_number; [by apply Hwf; eapply list_elem_of_lookup_2..|].
    exact (sorted_lookup entry_klt (tree z) i j a b (zw_sorted z Hwf) Hij Hi Hj).
Qed.

(** ** The router *)

(** C17. With at least one shard, a key is routed to an existing shard: the one of
    the first ring point at or after the key's hash, or, past the last point, of
    the first point of the ring. *)
Theorem route_successor n k :
  0 < n →
  let r := initialize_ring [] n in
  get_shard_id (new_router n) k < n ∧
  ∃ p, p ∈ r ∧ p.2 = get_shard_id (new_router n) k ∧
    ((hash_key k ≤ p.1)%Z ∧ (∀ q, q ∈ r → (hash_key k ≤ q.1)%Z → (p.1 ≤ q.1)%Z) ∨
     (∀ q, q ∈ r → (q.1 < hash_key k)%Z ∧ (p.1 ≤ q.1)%Z)).
Proof.
  intros Hn r. split; [by apply get_shard_id_lt|]. pose proof (new_router_lookup n k Hn) as Hl.
  pose proof (init_ring_sorted n) as Hs. fold r in Hl, Hs. unfold ring_lookup in Hl.
  destruct (lower_bound (hash_key k) r) as [p|] eqn:E.
  - injection Hl as <-. destruct (lower_bound_elem _ _ _ E) as [Hp Hle]. exists p.
    split_and!; [done..|]. left. split; [done|]. intros q Hq Hh. by eapply lower_bound_least.
  - destruct r as [|p r'] eqn:Er; [done|]. injection Hl as <-. exists p.
    split_and!; [set_solver|done|]. right. intros q Hq. split; [by eapply lower_bound_none|].
    apply (osorted_cons fst Z.ltb) in Hs as [_ Hs]. apply elem_of_cons in Hq as [->|Hq]; [done|].
    specialize (Hs q Hq). lia.
Qed.

(** C18. Hashing is consistent: with one shard more, a key stays where it was or
    moves to the new shard. *)
Theorem consistent_hashing n k :
  0 < n →
  get_shard_id (new_router (S n)) k = n ∨
  get_shard_id (new_router (S n)) k = get_shard_id (new_router n) k.
Proof.
  intros Hn. pose proof (new_router_lookup (S n) k ltac:(lia)) as H1.
  pose proof (new_router_lookup n k Hn) as H2. rewrite init_ring_S in H1.
  destruct (ring_lookup_add_shard (initialize_ring [] n) n (hash_key k)) as [E|E];
    rewrite E in H1; [left|right]; congruence.
Qed.

(** ** Examples *)

Section examples.
#[local] Existing Instance demo_hash.

(** One key is put, deleted, and another finds no room. *)
Lemma map_refines_witness :
  0 < 1 ∧
  run map_step (new_map 1) [OPut "a" (VString "1"); ODel "a"; OGet "a"; OPut "b" (VString "2")] =
    ([AInserted true; ADeleted true; AValue None], Throw (runtime_error "HashMap is full")).
Proof.
  split; [lia|].
  pose proof (map_refines 1 [OPut "a" (VString "1"); ODel "a"; OGet "a"; OPut "b" (VString "2")]
    ltac:(lia)) as Hr.
  destruct (run map_step _ _) as [out [m|e|]] eqn:E; [vm_compute in E; discriminate E| |destruct Hr].
  destruct Hr as [-> _]. vm_compute in E. injection E as <-. reflexivity.
Defined.

Lemma probe_terminates_witness :
  find_slot (mkMap [mkE "a" Monostate true true] 1 0) "a" ≠ OutOfFuel.
Proof. apply (probe_terminates (mkMap [mkE "a" Monostate true true] 1 0) "a"). simpl. lia. Defined.

Lemma deletion_makes_no_room_witness :
  ∃ m, HashMap.put (new_map 1) "a" (VString "1") = Ok (m, true) ∧ view (dels ["a"] m) = ∅ ∧
    HashMap.put (dels ["a"] m) "b" (VString "2") = Throw (runtime_error "HashMap is full").
Proof.
  pose proof (put_spec (new_map 1) "a" (VString "1") (new_map_wf 1 ltac:(lia))) as Hp.
  destruct (HashMap.put (new_map 1) "a" (VString "1")) as [[m b]|e|] eqn:E;
    [|vm_compute in E; discriminate E..].
  destruct Hp as (Hwf & Hv & ->). exists m.
  assert (full m) as Hf.
  { vm_compute in E. injection E as <-. intros i Hi. destruct i; [reflexivity|simpl in Hi; lia]. }
  destruct (deletion_makes_no_room m ["a"] "b" (VString "2") Hwf Hf) as [Hd Hn].
  assert (view (dels ["a"] m) = ∅) as He by (rewrite Hd, Hv; vm_compute; reflexivity).
  split; [reflexivity|]. split; [exact He|]. apply Hn. rewrite He. reflexivity.
Defined.

(** An expiry for a key that is not there; a value with an expiry, seen before it and
    not after. *)
Lemma shard_refines_witness :
  let ops := [SSetExpiry "k" 50; SGetExpiry "k"; SSet "k" (VString "v"); SSetExpiry "k" 100;
    SGet 100 "k"; SPeek 101 "k"; SGet 101 "k"; SForEach] in
  match run shard_step (mkShard (new_map 4) ∅) ops with
  | (out, Ok _) => out = [ADone; AExpiry 50; ADone; ADone; ASeen (Some (VString "v")); ASeen None;
      ASeen None; AItems ∅]
  | _ => False
  end.
Proof.
  assert (s_wf (data_store (mkShard (new_map 4) ∅))) as Hwf by (apply new_map_wf; lia).
  pose proof (shard_refines (mkShard (new_map 4) ∅)
    [SSetExpiry "k" 50; SGetExpiry "k"; SSet "k" (VString "v"); SSetExpiry "k" 100;
     SGet 100 "k"; SPeek 101 "k"; SGet 101 "k"; SForEach] Hwf) as Hr. cbv zeta in Hr |- *.
  destruct (run shard_step _ _) as [out [sh'|e|]] eqn:E; [|vm_compute in E; discriminate E..].
  destruct Hr as [-> _]. vm_compute. reflexivity.
Defined.

(** Scores 1, plus infinity and minus infinity. *)
Lemma zset_refines_witness :
  let ops := [ZInsert (mkEntry (1023 * 2 ^ 52)%Z "one"); ZInsert (mkEntry double_inf "top");
    ZInsert (mkEntry (with_sign true double_inf) "bottom"); ZErase "m"] in
  ∃ z, run zset_step zset_empty ops = ([false; false; false; false], Ok z) ∧
    zset_size z = 3 ∧ ∀ a b, tree z !! 1 = Some a → tree z !! 2 = Some b →
      below (score a) (score b) ∨
      same_number (score a) (score b) ∧ string_ltb (member a) (member b) = true.
Proof.
  cbv zeta. destruct (zset_refines [ZInsert (mkEntry (1023 * 2 ^ 52)%Z "one"); ZInsert (mkEntry double_inf "top");
    ZInsert (mkEntry (with_sign true double_inf) "bottom"); ZErase "m"] ltac:(repeat constructor))
    as (z & Hr & Hd & _ & Hs & Ho).
  exists z. split; [rewrite Hr; vm_compute; reflexivity|]. split.
  - rewrite Hs, Hd. vm_compute. reflexivity.
  - intros a b. exact (Ho 1 2 a b ltac:(lia)).
Defined.

Lemma route_successor_witness : 0 < 4 ∧ get_shard_id (new_router 4) "foobar" < 4.
Proof. split; [lia|]. apply (route_successor 4 "foobar"). lia. Defined.

Lemma consistent_hashing_witness :
  get_shard_id (new_router 3) "foobar" = 2 ∨
  get_shard_id (new_router 3) "foobar" = get_shard_id (new_router 2) "foobar".
Proof. apply (consistent_hashing 2 "foobar"). lia. Defined.

End examples.
