(* ===== verification/CommandTheorems.v ===== *)
(** * What each command does, for a client of the core that owns the key

    The replies and the stored values are stated on strings, lists, finite sets
    and finite maps; an expired key counts as absent ([value_at]), and a write
    keeps the expiry of a live key ([entry_at w k ≫= snd]) except for SET. *)
From S2P Require Import Prelude CxxString Double Containers Value Store HashMap Shard Router Topology Command Exec Ranges StringCommands ListCommands SetCommands HashCommands ZSetCommands Rdb Registry Replies.
From Stdlib Require Import ZArith Lia.
From stdpp Require Import prelude gmap strings list_numbers.

Section commands.
Context `{StdHash}.

(** ** Strings and expiry *)

(** On the owner, SET stores the string without an expiry, whatever the key
    held (or throws because the table has no unused slot, the key being absent);
    GET replies the string, WRONGTYPE for another type, or nil, and changes nothing
    but the removal of an expired key; DEL removes the key and replies whether it
    was stored. *)
Theorem string_commands w c conn_id k v :
  topo_wf (topo w) → get_target_core (topo w) k = c →
  let st := cmd_execute SetCommand c conn_id ["SET"; k; v] w in
  let gt := cmd_execute GetCommand c conn_id ["GET"; k] w in
  let dl := cmd_execute DelCommand c conn_id ["DEL"; k] w in
  (answers w k st ok_reply (Some (VString v, None)) ∨
   topo_db (topo w) k = None ∧ st = (Throw (runtime_error "HashMap is full"), w)) ∧
  answers w k gt
    (match value_at w k with
     | None => nil_reply
     | Some (VString s) => bulk s
     | Some _ => err_wrongtype
     end) (entry_at w k) ∧
  answers w k dl (integer (if bool_decide (is_Some (topo_db (topo w) k)) then 1 else 0)%Z) None.
Proof.
  intros Hwf Hk st gt dl.
  destruct (owner_shard w c k Hwf Hk) as (sh & Hsh & Hswf & Hdb & _). split_and!.
  - destruct (set_runs w c conn_id ["SET"; k; v] Hk sh Hsh Hswf eq_refl)
      as [(sh' & E & Hwf' & Hd)|(E & Hf & Hn)].
    + left. unfold st. change (cmd_execute SetCommand) with SetCommand_execute. rewrite E.
      replace (Some (VString v, None)) with (shard_db sh' !! k) by by rewrite Hd, lookup_insert_eq.
      apply (at_shard_answers w c k Hwf Hk sh); [done..|].
      intros k' Hne. by rewrite Hd, lookup_insert_ne.
    + right. rewrite <- Hdb. done.
  - exact (owner_run_keep w c k Hwf Hk _ _ _ (get_runs w c conn_id ["GET"; k] Hk eq_refl) I eq_refl).
  - destruct (del_runs w c conn_id ["DEL"; k] Hk sh Hsh Hswf eq_refl) as (sh' & E & Hwf' & Hd).
    change (["DEL"; k] !!! 1) with k in E, Hd. unfold dl. change (cmd_execute DelCommand) with DelCommand_execute. rewrite E.
    rewrite Hdb.
    replace (None (A := Value * option Z)) with (shard_db sh' !! k) by by rewrite Hd, lookup_delete_eq.
    apply (at_shard_answers w c k Hwf Hk sh); [done..|].
    intros k' Hne. by rewrite Hd, lookup_delete_ne.
Qed.

(** On the owner, EXPIRE with an integer whose deadline fits in a [long long]
    replies 1 and gives a live key exactly that deadline (the second clock reading
    plus the seconds in milliseconds), replies 0 for an absent key; TTL replies -2
    for an absent key and otherwise what is left of the deadline in whole seconds
    (-1 without a deadline). *)
Theorem expiry_commands w c conn_id k s seconds e :
  topo_wf (topo w) → get_target_core (topo w) k = c →
  stol s = Ok seconds →
  let t := clock w (S (ticks w)) in
  expire_at t seconds = Some e →
  (∀ v d, topo_db (topo w) k = Some (v, Some d) → (long_min ≤ d - t ≤ long_max)%Z) →
  answers w k (cmd_execute ExpireCommand c conn_id ["EXPIRE"; k; s] w)
    (integer (if bool_decide (is_Some (value_at w k)) then 1 else 0)%Z)
    ((λ v, (v.1, Some (t + seconds * 1000)%Z)) <$> entry_at w k) ∧
  answers w k (cmd_execute TtlCommand c conn_id ["TTL"; k] w)
    (match entry_at w k with Some (_, x) => ttl_reply t x | None => integer (-2) end)
    (entry_at w k).
Proof.
  intros Hwf Hk Hs t He Hd.
  destruct (owner_shard w c k Hwf Hk) as (sh & Hsh & Hswf & Hdb & Hv & Hp). split.
  - destruct (expire_runs w c conn_id ["EXPIRE"; k; s] Hk sh Hsh Hswf seconds eq_refl Hs
      ltac:(by eexists))
      as (sh' & n & Hwf' & E & Hd').
    change (["EXPIRE"; k; s] !!! 1) with k in E, Hd'. rewrite Hv in E.
    change (cmd_execute ExpireCommand) with ExpireCommand_execute. rewrite E.
    replace ((λ v, _) <$> entry_at w k) with (shard_db sh' !! k).
    2:{ by rewrite Hd', lookup_alter_eq, Hp. }
    replace (integer (if bool_decide _ then _ else _)%Z)
      with (integer (match value_at w k with Some _ => 1 | None => 0 end)%Z)
      by by destruct (value_at w k).
    apply (at_shard_answers w c k Hwf Hk sh); [done..|].
    intros k' Hne. rewrite Hd', lookup_alter_ne by done. by apply purge_other.
  - destruct (ttl_runs w c conn_id ["TTL"; k] Hk sh Hsh Hswf eq_refl) as (sh' & n & Hwf' & E & Hd').
    { change (["TTL"; k] !!! 1) with k. rewrite Hdb. unfold ttl_range.
      destruct (topo_db (topo w) k) as [[v [d|]]|]; [|done..]. right; right. by apply (Hd v). }
    change (["TTL"; k] !!! 1) with k in E, Hd'. rewrite Hv, Hdb in E.
    change (cmd_execute TtlCommand) with TtlCommand_execute. rewrite E.
    replace (entry_at w k) with (shard_db sh' !! k) at 2 by by rewrite Hd'.
    replace (match entry_at w k with Some (_, x) => _ | None => _ end) with
      (match value_at w k with
       | Some _ => ttl_reply t (topo_db (topo w) k ≫= snd)
       | None => integer (-2)
       end).
    2:{ unfold value_at, entry_at. destruct (topo_db (topo w) k) as [[v x]|]; simpl; [|done].
        by destruct (is_expired _ _). }
    apply (at_shard_answers w c k Hwf Hk sh); [done..|].
    intros k' Hne. rewrite Hd'. by apply purge_other.
Qed.

(** C40. A deadline that does not fit in a [long long] is signed overflow: EXPIRE of
    a live key has undefined behaviour for such a number of seconds. *)
Theorem expire_overflow w c conn_id k s seconds :
  topo_wf (topo w) → get_target_core (topo w) k = c → is_Some (value_at w k) →
  stol s = Ok seconds → expire_at (clock w (S (ticks w))) seconds = None →
  (cmd_execute ExpireCommand c conn_id ["EXPIRE"; k; s] w).1 = Undefined.
Proof.
  intros Hwf Hk [v Hval] Hs He.
  destruct (owner_shard w c k Hwf Hk) as (sh & Hsh & Hswf & _ & Hv & _). rewrite Hval in Hv.
  pose proof (lookup_lt_Some _ _ _ Hsh) as Hc.
  change (cmd_execute ExpireCommand) with ExpireCommand_execute. unfold ExpireCommand_execute. simpl.
  rewrite Hs. rewrite if_local_owner by done. rewrite <- (at_shard_id w c Hc sh Hsh).
  erewrite bind_ok by by apply run_shard_get. rewrite Nat.add_0_r.
  destruct (shard_get_visible _ sh k v Hswf Hv) as (p & x & E & _). change (["EXPIRE"; k; s] !!! 1) with k.
  rewrite E. cbn [fst snd]. erewrite bind_ok by by apply run_now.
  rewrite Nat.add_1_r. by apply expire_at_none.
Qed.

(** ** Lists *)

(** On the owner, LPUSH leaves its arguments in front of the list, last one
    first, RPUSH leaves them behind it in order, both creating a missing list and
    replying the new length; the one other outcome is the exception of a full
    table, for a missing key only. *)
Theorem push_commands w c conn_id k x xs l :
  topo_wf (topo w) → get_target_core (topo w) k = c →
  value_at w k = None ∧ l = [] ∨ value_at w k = Some (VList l) →
  let lp := cmd_execute LPushCommand c conn_id ("LPUSH" :: k :: x :: xs) w in
  let rp := cmd_execute RPushCommand c conn_id ("RPUSH" :: k :: x :: xs) w in
  let n := Z.of_nat (length l + S (length xs)) in
  (answers w k lp (integer n) (Some (VList (reverse (x :: xs) ++ l), entry_at w k ≫= snd)) ∨
   value_at w k = None ∧ store_full w k lp) ∧
  (answers w k rp (integer n) (Some (VList (l ++ x :: xs), entry_at w k ≫= snd)) ∨
   value_at w k = None ∧ store_full w k rp).
Proof.
  intros Hwf Hk Hv lp rp n. split.
  - pose proof (owner_run w c k Hwf Hk _ _ _ (lpush_refines w c conn_id ("LPUSH" :: k :: x :: xs) Hk
      ltac:(simpl; lia)) I) as Hr.
    unfold n. rewrite Nat.add_comm.
    destruct Hv as [[Hv ->]|Hv]; rewrite Hv in Hr |- *; simpl in Hr; destruct Hr as [Hr|(? & _ & ?)];
      [left|right|left|done]; rewrite ?Nat.add_0_r in *; done.
  - pose proof (owner_run w c k Hwf Hk _ _ _ (rpush_refines w c conn_id ("RPUSH" :: k :: x :: xs) Hk
      ltac:(simpl; lia)) I) as Hr.
    destruct Hv as [[Hv ->]|Hv]; rewrite Hv in Hr |- *; simpl in Hr; destruct Hr as [Hr|(? & _ & ?)];
      [left|right|left|done]; done.
Qed.

(** On the owner of a list, LPOP replies its first element and RPOP its last,
    leaving the rest with the same expiry; on an empty list both reply nil; LLEN
    replies the length. *)
Theorem pop_commands w c conn_id k l :
  topo_wf (topo w) → get_target_core (topo w) k = c → value_at w k = Some (VList l) →
  let lp := cmd_execute LPopCommand c conn_id ["LPOP"; k] w in
  let rp := cmd_execute RPopCommand c conn_id ["RPOP"; k] w in
  (∀ x l', l = x :: l' → answers w k lp (bulk x) (Some (VList l', entry_at w k ≫= snd))) ∧
  (∀ x l', l = l' ++ [x] → answers w k rp (bulk x) (Some (VList l', entry_at w k ≫= snd))) ∧
  (l = [] → answers w k lp nil_reply (entry_at w k) ∧ answers w k rp nil_reply (entry_at w k)) ∧
  answers w k (cmd_execute LLenCommand c conn_id ["LLEN"; k] w)
    (integer (Z.of_nat (length l))) (entry_at w k).
Proof.
  intros Hwf Hk Hv lp rp.
  pose proof (owner_run_some w c k Hwf Hk _ _ _ _ (lpop_refines w c conn_id ["LPOP"; k] Hk eq_refl) I Hv) as Hl.
  pose proof (owner_run_some w c k Hwf Hk _ _ _ _ (rpop_refines w c conn_id ["RPOP"; k] Hk eq_refl) I Hv) as Hr.
  pose proof (owner_run_some w c k Hwf Hk _ _ _ _ (llen_refines w c conn_id ["LLEN"; k] Hk eq_refl) I Hv) as Hn.
  simpl in Hl, Hr, Hn. split_and!; [| |by intros ->|done].
  - by intros x l' ->.
  - intros x l' ->. rewrite last_snoc, removelast_last in Hr. done.
Qed.

(** On the owner of a list an [int] can count, LRANGE replies the elements from
    the first index to the last, both included, negative indices counting from the
    end and both clamped to the list; an index that is not an [int] is an error;
    the list is left alone. *)
Theorem lrange_command w c conn_id k a b l :
  topo_wf (topo w) → get_target_core (topo w) k = c → value_at w k = Some (VList l) →
  (Z.of_nat (length l) ≤ int_max)%Z →
  answers w k (cmd_execute LRangeCommand c conn_id ["LRANGE"; k; a; b] w)
    (match stoi a, stoi b with
     | Ok i, Ok j => array_reply (slice l i j)
     | _, _ => err_not_integer
     end) (entry_at w k).
Proof.
  intros Hwf Hk Hv Hl.
  pose proof (owner_run_some w c k Hwf Hk _ _ _ (VList l)
    (lrange_refines w c conn_id ["LRANGE"; k; a; b] Hk eq_refl)) as Hr. rewrite Hv in Hr. specialize (Hr ltac:(by intros l' [= <-]) eq_refl).
  change (["LRANGE"; k; a; b] !!! 2) with a in Hr. change (["LRANGE"; k; a; b] !!! 3) with b in Hr.
  unfold existing, on_type in Hr. rewrite decide_True in Hr by done. simpl in Hr.
  by destruct (stoi a), (stoi b).
Qed.

(** ** Sets *)

(** On the owner, SADD makes the set the union with its arguments and replies
    how many were new, creating a missing set (or finding the table full); SREM
    makes it the difference and replies how many were in it; SMEMBERS lists the
    members in increasing order without repetition; SCARD counts them. *)
Theorem set_commands w c conn_id k x xs s :
  topo_wf (topo w) → get_target_core (topo w) k = c →
  value_at w k = None ∧ s = [] ∨ value_at w k = Some (VSet s) →
  let A := members s in
  let X := list_to_set (C := gset string) (x :: xs) in
  let sa := cmd_execute SAddCommand c conn_id ("SADD" :: k :: x :: xs) w in
  let sr := cmd_execute SRemCommand c conn_id ("SREM" :: k :: x :: xs) w in
  (∃ s', members s' = A ∪ X ∧ osorted string_ltb s' ∧
     (answers w k sa (integer (Z.of_nat (size (A ∪ X)) - Z.of_nat (size A)))
        (Some (VSet s', entry_at w k ≫= snd)) ∨
      value_at w k = None ∧ store_full w k sa)) ∧
  (∃ s', members s' = A ∖ X ∧ osorted string_ltb s' ∧
     answers w k sr (integer (Z.of_nat (size A) - Z.of_nat (size (A ∖ X))))
       (match value_at w k with Some _ => Some (VSet s', entry_at w k ≫= snd) | None => None end)) ∧
  osorted string_ltb s ∧
  answers w k (cmd_execute SMembersCommand c conn_id ["SMEMBERS"; k] w) (array_reply s) (entry_at w k) ∧
  answers w k (cmd_execute SCardCommand c conn_id ["SCARD"; k] w)
    (integer (Z.of_nat (size A))) (entry_at w k).
Proof.
  intros Hwf Hk Hv A X sa sr.
  assert (osorted string_ltb s) as Hs.
  { destruct Hv as [[_ ->]|Hv]; [constructor|]. exact (value_at_wf w c k Hwf Hk (VSet s) Hv). }
  destruct (insert_all_members (x :: xs) s Hs) as [Hs1 Hm1].
  destruct (erase_all_members (x :: xs) s Hs) as [Hs2 Hm2].
  unfold A, X. rewrite <- Hm1, <- Hm2, !osorted_size by done.
  pose proof (owner_run w c k Hwf Hk _ _ _ (sadd_refines w c conn_id ("SADD" :: k :: x :: xs) Hk
    ltac:(simpl; lia)) I) as Ha.
  pose proof (owner_run_keep w c k Hwf Hk _ _ _ (srem_refines w c conn_id ("SREM" :: k :: x :: xs) Hk
    ltac:(simpl; lia)) I eq_refl) as Hr.
  pose proof (owner_run_keep w c k Hwf Hk _ _ _ (smembers_refines w c conn_id ["SMEMBERS"; k] Hk
    eq_refl) I eq_refl) as Hmem.
  pose proof (owner_run_keep w c k Hwf Hk _ _ _ (scard_refines w c conn_id ["SCARD"; k] Hk
    eq_refl) I eq_refl) as Hcard.
  destruct Hv as [[Hv ->]|Hv]; rewrite Hv in *; simpl in Ha, Hr, Hmem, Hcard |- *.
  - assert (entry_at w k = None) as Hn by (unfold value_at in Hv; by destruct (entry_at w k)).
    rewrite Hn in *. split_and!; [|exists []|done..].
    + eexists. split_and!; [done..|]. destruct Ha as [?|(? & _ & ?)]; auto.
    + rewrite erase_all_nil. by split_and!.
  - split_and!; [..|done|done|done].
    + eexists. split_and!; [done..|]. destruct Ha as [?|(? & _ & ?)]; [by left|done].
    + eexists. by split_and!.
Qed.

(** ** Hashes *)

(** On the owner, HSET makes the field table the union of its pairs (a later
    pair wins) over the old table and replies how many fields are new, creating a
    missing hash (or finding the table full); HDEL removes its fields and replies
    how many were there. *)
Theorem hash_updates w c conn_id k ps fs h :
  topo_wf (topo w) → get_target_core (topo w) k = c → ps ≠ [] → fs ≠ [] →
  value_at w k = None ∧ h = [] ∨ value_at w k = Some (VHash h) →
  let T := table h in
  let hs := cmd_execute HSetCommand c conn_id ("HSET" :: k :: flatten ps) w in
  let hd := cmd_execute HDelCommand c conn_id ("HDEL" :: k :: fs) w in
  (∃ h', table h' = list_to_map (reverse ps) ∪ T ∧ osorted hash_ltb h' ∧
     (answers w k hs (integer (Z.of_nat (size (table h')) - Z.of_nat (size T)))
        (Some (VHash h', entry_at w k ≫= snd)) ∨
      value_at w k = None ∧ store_full w k hs)) ∧
  (∃ h', (∀ f, table h' !! f = if decide (f ∈ fs) then None else T !! f) ∧ osorted hash_ltb h' ∧
     answers w k hd (integer (Z.of_nat (size T) - Z.of_nat (size (table h'))))
       (match value_at w k with Some _ => Some (VHash h', entry_at w k ≫= snd) | None => None end)).
Proof.
  intros Hwf Hk Hps Hfs Hv T hs hd.
  assert (osorted hash_ltb h) as Hh.
  { destruct Hv as [[_ ->]|Hv]; [constructor|]. exact (value_at_wf w c k Hwf Hk (VHash h) Hv). }
  destruct (assign_all_table ps h Hh) as [Hs1 Hm1].
  destruct (remove_all_table fs h Hh) as [Hs2 Hm2].
  assert (4 ≤ length ("HSET" :: k :: flatten ps)) as Hl1.
  { simpl. rewrite flatten_length. destruct ps; [done|simpl; lia]. }
  assert (Nat.even (length ("HSET" :: k :: flatten ps)) = true) as He1.
  { simpl. rewrite flatten_length. by rewrite Nat.even_mul. }
  assert (3 ≤ length ("HDEL" :: k :: fs)) as Hl2 by (destruct fs; [done|simpl; lia]).
  pose proof (owner_run w c k Hwf Hk _ _ _ (hset_refines w c conn_id ("HSET" :: k :: flatten ps) Hk
    Hl1 He1) I) as Ha.
  pose proof (owner_run_keep w c k Hwf Hk _ _ _ (hdel_refines w c conn_id ("HDEL" :: k :: fs) Hk
    Hl2) I eq_refl) as Hr.
  change (drop 2 ("HSET" :: k :: flatten ps)) with (flatten ps) in Ha. rewrite pairs_of_flatten in Ha.
  split.
  - exists (assign_all ps h). split_and!; [done..|]. unfold T. rewrite !table_size by done.
    destruct Hv as [[Hv ->]|Hv]; rewrite Hv in *; simpl in Ha; destruct Ha as [?|(? & _ & ?)]; auto.
  - exists (remove_all fs h). split_and!; [done..|]. unfold T. rewrite !table_size by done.
    destruct Hv as [[Hv ->]|Hv]; rewrite Hv in *; simpl in Hr; [|done].
    assert (entry_at w k = None) as Hn by (unfold value_at in Hv; by destruct (entry_at w k)).
    rewrite Hn in Hr. rewrite remove_all_nil. done.
Qed.

(** On the owner of a hash, HGET replies the value of the field or nil, HGETALL
    lists the fields with their values in increasing field order, HLEN counts the
    fields; nothing changes. *)
Theorem hash_reads w c conn_id k f h :
  topo_wf (topo w) → get_target_core (topo w) k = c → value_at w k = Some (VHash h) →
  (Z.of_nat (length h) * 2 < 2 ^ 64)%Z →
  answers w k (cmd_execute HGetCommand c conn_id ["HGET"; k; f] w)
    (match table h !! f with Some x => bulk x | None => nil_reply end) (entry_at w k) ∧
  osorted hash_ltb h ∧ map_to_list (table h) ≡ₚ h ∧
  answers w k (cmd_execute HGetAllCommand c conn_id ["HGETALL"; k] w)
    (array_reply (flatten h)) (entry_at w k) ∧
  answers w k (cmd_execute HLenCommand c conn_id ["HLEN"; k] w)
    (integer (Z.of_nat (size (table h)))) (entry_at w k).
Proof.
  intros Hwf Hk Hv Hlen.
  pose proof (value_at_wf w c k Hwf Hk _ Hv) as Hh. simpl in Hh.
  pose proof (owner_run_some w c k Hwf Hk _ _ _ _ (hget_refines w c conn_id ["HGET"; k; f] Hk eq_refl) I Hv) as Hg.
  pose proof (owner_run_some w c k Hwf Hk _ _ _ _ (hgetall_refines w c conn_id ["HGETALL"; k] Hk eq_refl) I Hv) as Ha.
  pose proof (owner_run_some w c k Hwf Hk _ _ _ _ (hlen_refines w c conn_id ["HLEN"; k] Hk eq_refl) I Hv) as Hn.
  simpl in Hg, Ha, Hn. rewrite hash_find_table in Hg by done. split_and!; [|done| | |].
  - by destruct (table h !! f).
  - unfold table. by apply map_to_list_to_map, table_NoDup.
  - by rewrite <- hgetall_array.
  - by rewrite table_size.
Qed.

(** ** Sorted sets *)

(** On the owner, ZADD with scores that parse (none a NaN) makes the score of
    every member the one its last pair gives, keeps the others, and replies how
    many members are new, creating a missing sorted set (or finding the table
    full); ZREM removes its members and replies how many were there. *)
Theorem zset_updates w c conn_id k ps es ms z :
  topo_wf (topo w) → get_target_core (topo w) k = c → ms ≠ [] →
  ps ≠ [] → Forall2 parses_as ps es →
  value_at w k = None ∧ z = zset_empty ∨ value_at w k = Some (VZSet z) →
  let za := cmd_execute ZAddCommand c conn_id ("ZADD" :: k :: flatten ps) w in
  let zr := cmd_execute ZRemCommand c conn_id ("ZREM" :: k :: ms) w in
  (∃ z', score_keys z' =
       list_to_map (reverse ((λ e, (member e, d_key (score e))) <$> es)) ∪ score_keys z ∧ zset_wf z' ∧
     (answers w k za (integer (Z.of_nat (size (dict z')) - Z.of_nat (size (dict z))))
        (Some (VZSet z', entry_at w k ≫= snd)) ∨
      value_at w k = None ∧ store_full w k za)) ∧
  (∃ z', (∀ m, dict z' !! m = if decide (m ∈ ms) then None else dict z !! m) ∧ zset_wf z' ∧
     answers w k zr (integer (Z.of_nat (size (dict z)) - Z.of_nat (size (dict z'))))
       (match value_at w k with Some _ => Some (VZSet z', entry_at w k ≫= snd) | None => None end)).
Proof.
  intros Hwf Hk Hms Hps Hes Hv za zr.
  assert (zset_wf z) as Hz.
  { destruct Hv as [[_ ->]|Hv]; [apply zset_empty_wf|]. exact (value_at_wf w c k Hwf Hk (VZSet z) Hv). }
  destruct (zadd_prefix_flatten ps es [] Hes) as (Hpre & Hpar & Hn).
  change (zadd_prefix []) with (@nil ZSetEntry) in Hpre. rewrite (app_nil_r es) in Hpre.
  rewrite (app_nil_r (flatten ps)) in Hpre, Hpar.
  destruct (zrem_all_spec ms z Hz) as [Hz2 Hm2]. pose proof (zadd_all_wf es z Hz Hn) as Hz1.
  assert (4 ≤ length ("ZADD" :: k :: flatten ps)) as Hl1.
  { simpl. rewrite flatten_length. destruct ps; [done|simpl; lia]. }
  assert (Nat.even (length ("ZADD" :: k :: flatten ps)) = true) as He1.
  { simpl. rewrite flatten_length. by rewrite Nat.even_mul. }
  assert (3 ≤ length ("ZREM" :: k :: ms)) as Hl2 by (destruct ms; [done|simpl; lia]).
  assert (Forall (λ e, is_nan (score e) = false) (zadd_prefix (drop 2 ("ZADD" :: k :: flatten ps)))) as Hnan.
  { change (drop 2 ("ZADD" :: k :: flatten ps)) with (flatten ps). by rewrite Hpre. }
  pose proof (owner_run w c k Hwf Hk _ _ _ (zadd_refines w c conn_id ("ZADD" :: k :: flatten ps) Hk
    Hl1 He1 Hnan) I) as Ha.
  pose proof (owner_run_keep w c k Hwf Hk _ _ _ (zrem_refines w c conn_id ("ZREM" :: k :: ms) Hk
    Hl2) I eq_refl) as Hr.
  change (drop 2 ("ZADD" :: k :: flatten ps)) with (flatten ps) in Ha.
  split.
  - exists (zadd_all z es). split_and!; [by apply zadd_all_keys|done|]. rewrite <- !zset_size_dict by done.
    destruct Hv as [[Hv ->]|Hv]; rewrite Hv in *; simpl in Ha; rewrite Hpre, Hpar in Ha;
      destruct Ha as [?|(? & _ & ?)]; auto.
  - exists (zrem_all z ms). split_and!; [done..|]. rewrite <- !zset_size_dict by done.
    destruct Hv as [[Hv ->]|Hv]; rewrite Hv in *; simpl in Hr; [|done].
    assert (entry_at w k = None) as Hne by (unfold value_at in Hv; by destruct (entry_at w k)).
    rewrite Hne in Hr. rewrite zrem_all_nil. done.
Qed.

(** C39. ZADD is not atomic: when a score does not parse, the reply is an error, but
    the pairs before it have been stored (and a missing key created). *)
Theorem zadd_not_atomic w c conn_id k ps es s m z ex :
  topo_wf (topo w) → get_target_core (topo w) k = c →
  Forall2 parses_as ps es → stod s = Throw ex →
  value_at w k = None ∧ z = zset_empty ∨ value_at w k = Some (VZSet z) →
  let za := cmd_execute ZAddCommand c conn_id ("ZADD" :: k :: flatten ps ++ [s; m]) w in
  ∃ z', score_keys z' =
      list_to_map (reverse ((λ e, (member e, d_key (score e))) <$> es)) ∪ score_keys z ∧
    (answers w k za err_not_float (Some (VZSet z', entry_at w k ≫= snd)) ∨
     value_at w k = None ∧ store_full w k za).
Proof.
  intros Hwf Hk Hes Hs Hv za. set (l := flatten ps ++ [s; m]) in *.
  assert (zset_wf z) as Hz.
  { destruct Hv as [[_ ->]|Hv]; [apply zset_empty_wf|]. exact (value_at_wf w c k Hwf Hk (VZSet z) Hv). }
  destruct (zadd_prefix_flatten ps es [s; m] Hes) as (Hpre & Hpar & Hn). fold l in Hpre, Hpar.
  replace (zadd_prefix [s; m]) with (@nil ZSetEntry) in Hpre by (simpl; by rewrite Hs).
  replace (zadd_parses [s; m]) with false in Hpar by (simpl; by rewrite Hs).
  rewrite (app_nil_r es) in Hpre.
  assert (length l = 2 * length ps + 2) as Hl by (unfold l; by rewrite length_app, flatten_length).
  assert (4 ≤ length ("ZADD" :: k :: l)) as Hl1 by (simpl; lia).
  assert (Nat.even (length ("ZADD" :: k :: l)) = true) as He1.
  { simpl. rewrite Hl, Nat.even_add, Nat.even_mul. done. }
  assert (Forall (λ e, is_nan (score e) = false) (zadd_prefix (drop 2 ("ZADD" :: k :: l)))) as Hnan.
  { change (drop 2 ("ZADD" :: k :: l)) with l. by rewrite Hpre. }
  pose proof (owner_run w c k Hwf Hk _ _ _ (zadd_refines w c conn_id ("ZADD" :: k :: l) Hk
    Hl1 He1 Hnan) I) as Ha.
  change (drop 2 ("ZADD" :: k :: l)) with l in Ha. clearbody l.
  exists (zadd_all z es). split; [by apply zadd_all_keys|].
  destruct Hv as [[Hv ->]|Hv]; rewrite Hv in *; simpl in Ha; rewrite Hpre, Hpar in Ha;
    destruct Ha as [?|(? & _ & ?)]; auto.
Qed.

(** On the owner of a sorted set, ZRANGE replies a slice of the entries in
    increasing order of score, equal scores in member order, with the scores when
    WITHSCORES is asked for (by an option [toupper] is defined on); ZSCORE replies the score of a member or nil; ZCARD
    counts the members; nothing changes. *)
Theorem zset_reads w c conn_id k a b opts m z :
  topo_wf (topo w) → get_target_core (topo w) k = c → value_at w k = Some (VZSet z) →
  (2 * Z.of_nat (size (dict z)) ≤ int_max)%Z → Forall (λ o, plain o = true) opts →
  let scores := match opts with o :: _ => bool_decide (to_upper o = "WITHSCORES") | [] => false end in
  (osorted entry_ltb (tree z) ∧ ∀ e, e ∈ tree z ↔ dict z !! member e = Some (score e)) ∧
  answers w k (cmd_execute ZRangeCommand c conn_id ("ZRANGE" :: k :: a :: b :: opts) w)
    (match stoi a, stoi b with
     | Ok i, Ok j => zrange_reply scores (slice (tree z) i j)
     | _, _ => err_not_integer
     end) (entry_at w k) ∧
  answers w k (cmd_execute ZScoreCommand c conn_id ["ZSCORE"; k; m] w)
    (match dict z !! m with Some sc => bulk (format_score sc) | None => nil_reply end) (entry_at w k) ∧
  answers w k (cmd_execute ZCardCommand c conn_id ["ZCARD"; k] w)
    (integer (Z.of_nat (size (dict z)))) (entry_at w k).
Proof.
  intros Hwf Hk Hv Hsize Hpl scores.
  pose proof (value_at_wf w c k Hwf Hk _ Hv) as Hz. simpl in Hz.
  set (args := "ZRANGE" :: k :: a :: b :: opts).
  pose proof (owner_run_some w c k Hwf Hk _ _ _ (VZSet z) (zrange_refines w c conn_id args Hk
    ltac:(simpl; lia) ltac:(destruct Hpl; [done|assumption]))) as Hr. rewrite Hv in Hr.
  specialize (Hr ltac:(intros z' [= <-]; rewrite zset_size_dict by done; done) eq_refl).
  pose proof (owner_run_some w c k Hwf Hk _ _ _ _ (zscore_refines w c conn_id ["ZSCORE"; k; m] Hk eq_refl) I Hv) as Hs.
  pose proof (owner_run_some w c k Hwf Hk _ _ _ _ (zcard_refines w c conn_id ["ZCARD"; k] Hk eq_refl) I Hv) as Hc.
  change (args !!! 2) with a in Hr. change (args !!! 3) with b in Hr.
  unfold existing, on_type in Hr. rewrite decide_True in Hr by done. simpl in Hr, Hs, Hc.
  replace (withscores args) with scores in Hr by by destruct opts.
  split_and!; [by apply zset_tree_sorted| | | |].
  - intros [sc mem]. simpl. symmetry. apply (zw_agree z Hz).
  - by destruct (stoi a), (stoi b).
  - by destruct (dict z !! m).
  - by rewrite <- zset_size_dict.
Qed.

(** ** The wrong type, and missing keys *)

(** The commands that expect a type of value: the type, whether a number of
    arguments is accepted, and the reply for a missing key of those that do not
    create it. *)
Definition typed_commands : list (Command * ValueType * (nat → bool) * option string) :=
  let n2 n := n =? 2 in let n3 n := n =? 3 in let n4 n := n =? 4 in
  let some n := negb (n <? 3) in
  let pairs n := negb ((n <? 4) || negb (n mod 2 =? 0)) in
  [(GetCommand, STRING, n2, Some nil_reply);
   (LPushCommand, LIST, some, None); (LPopCommand, LIST, n2, Some nil_reply);
   (LRangeCommand, LIST, n4, Some empty_array); (RPushCommand, LIST, some, None);
   (RPopCommand, LIST, n2, Some nil_reply); (LLenCommand, LIST, n2, Some (integer 0));
   (SAddCommand, SET, some, None); (SMembersCommand, SET, n2, Some empty_array);
   (SRemCommand, SET, some, Some (integer 0)); (SCardCommand, SET, n2, Some (integer 0));
   (HSetCommand, HASH, pairs, None); (HGetCommand, HASH, n3, Some nil_reply);
   (HGetAllCommand, HASH, n2, Some empty_array); (HDelCommand, HASH, some, Some (integer 0));
   (HLenCommand, HASH, n2, Some (integer 0));
   (ZAddCommand, ZSET, pairs, None); (ZRangeCommand, ZSET, (λ n, negb (n <? 4)), Some empty_array);
   (ZRemCommand, ZSET, some, Some (integer 0)); (ZCardCommand, ZSET, n2, Some (integer 0));
   (ZScoreCommand, ZSET, n3, Some nil_reply)].

(** What they all do with a value of another type, and with a missing key. *)
Section typed.
Context (w : World) (c : nat) (conn_id : Z) (name k : string) (rest : list string) (sh : Shard HashMap).
Hypothesis Hk : get_target_core (topo w) k = c.
Hypothesis Hsh : shards_ (topo w) !! c = Some sh.
Hypothesis Hwf : shard_wf sh.
Let t := clock w (ticks w).

Local Ltac opening Har Hc :=
  match goal with |- context [cmd_execute (?cmd _)] => unfold cmd; cbn [cmd_execute] end;
  match goal with |- context [?e _ c conn_id _ w] => unfold e end;
  match goal with |- context [if ?b then mret _ else _] =>
    replace b with false by (symmetry;
      first [apply negb_true_iff; exact Har|apply negb_false_iff; exact Har]) end;
  rewrite if_local_owner by done;
  replace w with (at_shard w c sh 0) at 1 by by apply at_shard_id.

Lemma typed_wrong cmd ty arity missing v :
  (cmd, ty, arity, missing) ∈ typed_commands → arity (length (name :: k :: rest)) = true →
  visible t k (shard_db sh) = Some v → get_type v ≠ ty →
  cmd_execute cmd c conn_id (name :: k :: rest) w = (Ok err_wrongtype, at_shard w c sh 1).
Proof using Hk Hsh Hwf.
  intros Hin Har Hv Hty. pose proof (lookup_lt_Some _ _ _ Hsh) as Hc.
  unfold t in Hv. rewrite <- (Nat.add_0_r (ticks w)) in Hv. unfold typed_commands in Hin.
  apply elem_of_cons in Hin as [E|Hin].
  { injection E as -> -> -> ->. opening Har Hc.
    destruct (shard_get_visible _ sh k v Hwf Hv) as (p & x & E & _ & Hp).
    erewrite bind_ok by by apply run_shard_get. change ((name :: k :: rest) !!! 1) with k. rewrite E.
    cbn [fst snd]. erewrite bind_ok by by apply run_load. rewrite (pt_val _ _ _ _ _ _ Hp).
    by destruct v. }
  repeat (apply elem_of_cons in Hin as [E|Hin];
    [injection E as -> -> -> ->; opening Har Hc;
     first [by apply (run_find_existing_wrong w c Hc sh 0 k _ Hwf _ _ v)
           |by apply (run_find_or_create_wrong w c Hc sh 0 k _ Hwf _ _ v)] |]).
  by apply elem_of_nil in Hin.
Qed.

Lemma typed_missing cmd ty arity missing :
  (cmd, ty, arity, Some missing) ∈ typed_commands → arity (length (name :: k :: rest)) = true →
  visible t k (shard_db sh) = None →
  ∃ sh', cmd_execute cmd c conn_id (name :: k :: rest) w = (Ok missing, at_shard w c sh' 1) ∧
    shard_wf sh' ∧ shard_db sh' = purge t k (shard_db sh).
Proof using Hk Hsh Hwf.
  intros Hin Har Hv. pose proof (lookup_lt_Some _ _ _ Hsh) as Hc.
  destruct (shard_get_hidden t sh k Hwf Hv) as (sh' & E & ? & ?). exists sh'. split; [|done].
  unfold t in E. rewrite <- (Nat.add_0_r (ticks w)) in E. unfold typed_commands in Hin.
  repeat (apply elem_of_cons in Hin as [E'|Hin];
    [first [discriminate E'|injection E' as -> -> -> ->; opening Har Hc; try unfold find_existing;
       erewrite bind_ok by (by apply run_shard_get); change ((name :: k :: rest) !!! 1) with k;
       by rewrite E] |]).
  by apply elem_of_nil in Hin.
Qed.

End typed.

(** Every command that expects a type of value, given a key that holds another,
    replies WRONGTYPE and changes nothing; the value is not looked at, whatever the
    other arguments. *)
Theorem wrong_type w c conn_id name k rest cmd ty arity missing v :
  topo_wf (topo w) → get_target_core (topo w) k = c →
  (cmd, ty, arity, missing) ∈ typed_commands → arity (length (name :: k :: rest)) = true →
  value_at w k = Some v → get_type v ≠ ty →
  answers w k (cmd_execute cmd c conn_id (name :: k :: rest) w) err_wrongtype (entry_at w k).
Proof.
  intros Hwf Hk Hin Har Hv Hty.
  destruct (owner_shard w c k Hwf Hk) as (sh & Hsh & Hswf & Hdb & Hvis & Hp). rewrite Hv in Hvis.
  rewrite (typed_wrong w c conn_id name k rest sh Hk Hsh Hswf cmd ty arity missing v) by done.
  rewrite (purge_live _ _ _ _ Hvis) in Hp. rewrite <- Hp.
  by apply (at_shard_answers w c k Hwf Hk sh).
Qed.

(** A command that does not create its key answers a missing (or expired) one
    with its empty reply, without exception, and the key stays absent. *)
Theorem missing_key w c conn_id name k rest cmd ty arity missing :
  topo_wf (topo w) → get_target_core (topo w) k = c →
  (cmd, ty, arity, Some missing) ∈ typed_commands → arity (length (name :: k :: rest)) = true →
  value_at w k = None →
  answers w k (cmd_execute cmd c conn_id (name :: k :: rest) w) missing None.
Proof.
  intros Hwf Hk Hin Har Hv.
  destruct (owner_shard w c k Hwf Hk) as (sh & Hsh & Hswf & Hdb & Hvis & Hp). rewrite Hv in Hvis.
  destruct (typed_missing w c conn_id name k rest sh Hk Hsh Hswf cmd ty arity missing Hin Har Hvis)
    as (sh' & -> & Hwf' & Hd).
  assert (entry_at w k = None) as Hn by (unfold value_at in Hv; by destruct (entry_at w k)).
  rewrite <- Hn, <- Hp, <- Hd. apply (at_shard_answers w c k Hwf Hk sh); [done..|].
  intros k' Hne. rewrite Hd. by apply purge_other.
Qed.

End commands.

(** ** Examples: one core, one key *)

Section examples.
#[local] Existing Instance demo_hash.

Lemma string_commands_witness :
  let w := demo_store "k" (VString "v") in
  value_at w "k" = Some (VString "v") ∧
  answers w "k" (cmd_execute GetCommand 0 7 ["GET"; "k"] w) (bulk "v") (Some (VString "v", None)).
Proof.
  intros w; subst w. destruct (demo_store_ok "k" (VString "v") I) as (Hwf & Hk & He).
  pose proof (demo_store_value "k" (VString "v") I) as Hv. split; [exact Hv|].
  destruct (string_commands _ 0 7 "k" "x" Hwf Hk) as (_ & Hg & _).
  rewrite Hv, He in Hg. exact Hg.
Defined.

Lemma expiry_commands_witness :
  let w := demo_store "k" (VString "v") in
  answers w "k" (cmd_execute ExpireCommand 0 7 ["EXPIRE"; "k"; "10"] w) (integer 1)
    (Some (VString "v", Some 10001%Z)) ∧
  answers w "k" (cmd_execute TtlCommand 0 7 ["TTL"; "k"] w) (integer (-1)) (Some (VString "v", None)).
Proof.
  intros w; subst w. destruct (demo_store_ok "k" (VString "v") I) as (Hwf & Hk & He).
  pose proof (demo_store_value "k" (VString "v") I) as Hv.
  destruct (expiry_commands _ 0 7 "k" "10" 10 10001 Hwf Hk) as [Ha Hb].
  - vm_compute. reflexivity.
  - reflexivity.
  - intros v d Hd. rewrite (entry_at_stored _ _ _ He) in Hd. discriminate Hd.
  - rewrite Hv, He in Ha. rewrite He in Hb. exact (conj Ha Hb).
Defined.

Lemma expire_overflow_witness :
  let w := demo_store "k" (VString "v") in
  (cmd_execute ExpireCommand 0 7 ["EXPIRE"; "k"; "9223372036854775807"] w).1 = Undefined.
Proof.
  intros w; subst w. destruct (demo_store_ok "k" (VString "v") I) as (Hwf & Hk & He).
  pose proof (demo_store_value "k" (VString "v") I) as Hv.
  refine (expire_overflow _ 0 7 "k" "9223372036854775807" 9223372036854775807 Hwf Hk _ _ _).
  - exists (VString "v"). exact Hv.
  - vm_compute. reflexivity.
  - reflexivity.
Defined.

Lemma push_commands_witness :
  let w := demo_store "l" (VList ["a"]) in
  value_at w "l" = Some (VList ["a"]) ∧
  answers w "l" (cmd_execute LPushCommand 0 7 ["LPUSH"; "l"; "b"; "c"] w) (integer 3)
    (Some (VList ["c"; "b"; "a"], None)).
Proof.
  intros w; subst w. destruct (demo_store_ok "l" (VList ["a"]) I) as (Hwf & Hk & He).
  pose proof (demo_store_value "l" (VList ["a"]) I) as Hv. split; [exact Hv|].
  destruct (push_commands _ 0 7 "l" "b" ["c"] ["a"] Hwf Hk (or_intror Hv)) as [[Ha|[Hn _]] _].
  - rewrite He in Ha. exact Ha.
  - rewrite Hv in Hn. discriminate Hn.
Defined.

Lemma pop_commands_witness :
  let w := demo_store "l" (VList ["a"; "b"]) in
  answers w "l" (cmd_execute LPopCommand 0 7 ["LPOP"; "l"] w) (bulk "a") (Some (VList ["b"], None)) ∧
  answers w "l" (cmd_execute RPopCommand 0 7 ["RPOP"; "l"] w) (bulk "b") (Some (VList ["a"], None)).
Proof.
  intros w; subst w. destruct (demo_store_ok "l" (VList ["a"; "b"]) I) as (Hwf & Hk & He).
  pose proof (demo_store_value "l" (VList ["a"; "b"]) I) as Hv.
  destruct (pop_commands _ 0 7 "l" ["a"; "b"] Hwf Hk Hv) as (Hl & Hr & _).
  specialize (Hl "a" ["b"] eq_refl). specialize (Hr "b" ["a"] eq_refl).
  rewrite He in Hl, Hr. exact (conj Hl Hr).
Defined.

Lemma lrange_command_witness :
  let w := demo_store "l" (VList ["a"; "b"; "c"]) in
  answers w "l" (cmd_execute LRangeCommand 0 7 ["LRANGE"; "l"; "-2"; "-1"] w)
    (array_reply ["b"; "c"]) (Some (VList ["a"; "b"; "c"], None)).
Proof.
  intros w; subst w. destruct (demo_store_ok "l" (VList ["a"; "b"; "c"]) I) as (Hwf & Hk & He).
  pose proof (demo_store_value "l" (VList ["a"; "b"; "c"]) I) as Hv.
  assert (stoi "-2" = Ok (-2)%Z) as H1 by (vm_compute; reflexivity).
  assert (stoi "-1" = Ok (-1)%Z) as H2 by (vm_compute; reflexivity).
  pose proof (lrange_command _ 0 7 "l" "-2" "-1" _ Hwf Hk Hv ltac:(vm_compute; discriminate)) as Hr.
  rewrite H1, H2, He in Hr. exact Hr.
Defined.

Lemma set_commands_witness :
  let w := demo_store "s" (VSet ["a"; "b"]) in
  answers w "s" (cmd_execute SMembersCommand 0 7 ["SMEMBERS"; "s"] w) (array_reply ["a"; "b"])
    (Some (VSet ["a"; "b"], None)) ∧
  ∃ s', members s' = members ["a"; "b"] ∪ {["b"; "c"]} ∧
    answers w "s" (cmd_execute SAddCommand 0 7 ["SADD"; "s"; "b"; "c"] w) (integer 1)
      (Some (VSet s', None)).
Proof.
  intros w; subst w. assert (value_wf (VSet ["a"; "b"])) as Hs by by repeat constructor.
  destruct (demo_store_ok "s" _ Hs) as (Hwf & Hk & He). pose proof (demo_store_value "s" _ Hs) as Hv.
  destruct (set_commands _ 0 7 "s" "b" ["c"] ["a"; "b"] Hwf Hk (or_intror Hv))
    as ((s' & Hm & _ & [Ha|[Hn _]]) & _ & _ & Hb & _).
  - rewrite He in Ha, Hb. refine (conj Hb (ex_intro _ s' (conj _ Ha))).
    rewrite Hm. set_solver.
  - rewrite Hv in Hn. discriminate Hn.
Defined.

Lemma hash_updates_witness :
  let w := demo_store "h" (VHash [("f", "1")]) in
  ∃ h', table h' = list_to_map [("g", "2"); ("f", "0")] ∪ table [("f", "1")] ∧
    answers w "h" (cmd_execute HSetCommand 0 7 ["HSET"; "h"; "f"; "0"; "g"; "2"] w)
      (integer (Z.of_nat (size (table h')) - 1)) (Some (VHash h', None)).
Proof.
  intros w; subst w. assert (value_wf (VHash [("f", "1")])) as Hs by by repeat constructor.
  destruct (demo_store_ok "h" _ Hs) as (Hwf & Hk & He). pose proof (demo_store_value "h" _ Hs) as Hv.
  destruct (hash_updates _ 0 7 "h" [("f", "0"); ("g", "2")] ["f"] [("f", "1")] Hwf Hk
    ltac:(discriminate) ltac:(discriminate) (or_intror Hv)) as ((h' & Hm & _ & [Ha|[Hn _]]) & _).
  - rewrite He in Ha. exact (ex_intro _ h' (conj Hm Ha)).
  - rewrite Hv in Hn. discriminate Hn.
Defined.

Lemma hash_reads_witness :
  let w := demo_store "h" (VHash [("f", "1")]) in
  answers w "h" (cmd_execute HGetCommand 0 7 ["HGET"; "h"; "f"] w) (bulk "1")
    (Some (VHash [("f", "1")], None)).
Proof.
  intros w; subst w. assert (value_wf (VHash [("f", "1")])) as Hs by by repeat constructor.
  destruct (demo_store_ok "h" _ Hs) as (Hwf & Hk & He). pose proof (demo_store_value "h" _ Hs) as Hv.
  destruct (hash_reads _ 0 7 "h" "f" _ Hwf Hk Hv ltac:(vm_compute; reflexivity)) as (Hg & _).
  rewrite He in Hg. exact Hg.
Defined.

Lemma zset_updates_witness :
  let w := demo_store "z" (VZSet zset_empty) in
  ∃ z' sc, stod "1.5" = Ok sc ∧ score_keys z' = {[ "m" := d_key sc ]} ∧
    answers w "z" (cmd_execute ZAddCommand 0 7 ["ZADD"; "z"; "1.5"; "m"] w)
      (integer (Z.of_nat (size (dict z')))) (Some (VZSet z', None)).
Proof.
  intros w; subst w. destruct (demo_store_ok "z" (VZSet zset_empty) zset_empty_wf) as (Hwf & Hk & He).
  pose proof (demo_store_value "z" (VZSet zset_empty) zset_empty_wf) as Hv.
  destruct (stod "1.5") as [sc| |] eqn:Es; [|vm_compute in Es; discriminate Es..].
  destruct (zset_updates _ 0 7 "z" [("1.5", "m")] [mkEntry sc "m"] ["m"] zset_empty Hwf Hk
    ltac:(discriminate) ltac:(discriminate)) as ((z' & Hm & _ & [Ha|[Hn _]]) & _).
  - constructor; [|constructor]. split; [exact Es|]. split; [reflexivity|].
    vm_compute in Es. injection Es as <-. reflexivity.
  - exact (or_intror Hv).
  - rewrite He in Ha. change (size (dict zset_empty)) with 0 in Ha. rewrite Z.sub_0_r in Ha.
    exists z', sc. refine (conj eq_refl (conj _ Ha)). rewrite Hm.
    unfold score_keys. cbn [dict zset_empty]. rewrite fmap_empty, map_union_empty. reflexivity.
  - rewrite Hv in Hn. discriminate Hn.
Defined.

Lemma zadd_not_atomic_witness :
  let w := demo_store "z" (VZSet zset_empty) in
  ∃ z' sc, stod "1" = Ok sc ∧ score_keys z' !! "a" = Some (d_key sc) ∧
    answers w "z" (cmd_execute ZAddCommand 0 7 ["ZADD"; "z"; "1"; "a"; "x"; "b"] w)
      err_not_float (Some (VZSet z', None)).
Proof.
  intros w; subst w. destruct (demo_store_ok "z" (VZSet zset_empty) zset_empty_wf) as (Hwf & Hk & He).
  pose proof (demo_store_value "z" (VZSet zset_empty) zset_empty_wf) as Hv.
  destruct (stod "1") as [sc| |] eqn:Es; [|vm_compute in Es; discriminate Es..].
  destruct (stod "x") as [|ex|] eqn:Ex; [vm_compute in Ex; discriminate Ex| |vm_compute in Ex; discriminate Ex].
  destruct (zadd_not_atomic _ 0 7 "z" [("1", "a")] [mkEntry sc "a"] "x" "b" zset_empty ex Hwf Hk)
    as (z' & Hm & [Ha|[Hn _]]).
  - constructor; [|constructor]. split; [exact Es|]. split; [reflexivity|].
    vm_compute in Es. injection Es as <-. reflexivity.
  - exact Ex.
  - exact (or_intror Hv).
  - rewrite He in Ha. exists z', sc. refine (conj eq_refl (conj _ Ha)). rewrite Hm.
    apply lookup_union_Some_l. reflexivity.
  - rewrite Hv in Hn. discriminate Hn.
Defined.

Lemma zset_reads_witness :
  let z := mkZSet [mkEntry 0 "m"] {[ "m" := 0%Z ]} in
  let w := demo_store "z" (VZSet z) in
  answers w "z" (cmd_execute ZCardCommand 0 7 ["ZCARD"; "z"] w) (integer 1) (Some (VZSet z, None)).
Proof.
  intros z w; subst w. assert (zset_wf z) as Hz.
  { apply (zadd_one_spec zset_empty (mkEntry 0 "m") zset_empty_wf). reflexivity. }
  destruct (demo_store_ok "z" (VZSet z) Hz) as (Hwf & Hk & He).
  pose proof (demo_store_value "z" (VZSet z) Hz) as Hv.
  destruct (zset_reads _ 0 7 "z" "0" "-1" [] "m" z Hwf Hk Hv ltac:(vm_compute; discriminate) ltac:(constructor))
    as (_ & _ & _ & Hc).
  rewrite He in Hc. exact Hc.
Defined.

Lemma wrong_type_witness :
  let w := demo_store "k" (VString "v") in
  answers w "k" (cmd_execute LPushCommand 0 7 ["LPUSH"; "k"; "x"] w) err_wrongtype
    (Some (VString "v", None)).
Proof.
  intros w; subst w. destruct (demo_store_ok "k" (VString "v") I) as (Hwf & Hk & He).
  pose proof (demo_store_value "k" (VString "v") I) as Hv.
  rewrite <- He. refine (wrong_type _ 0 7 "LPUSH" "k" ["x"] _ LIST _ _ (VString "v") Hwf Hk _ _ Hv _).
  - right. left.
  - reflexivity.
  - discriminate.
Defined.

Lemma missing_key_witness :
  let w := demo_world 1 in
  value_at w "k" = None ∧
  answers w "k" (cmd_execute LPopCommand 0 7 ["LPOP"; "k"] w) nil_reply None.
Proof.
  intros w; subst w. pose proof (demo_value_none "k") as Hv.
  refine (conj Hv (missing_key _ 0 7 "LPOP" "k" [] _ LIST _ _ demo_wf (demo_target "k") _ _ Hv)).
  - right. right. left.
  - reflexivity.
Defined.

End examples.
