(* ===== verification/Safety.v ===== *)
(** * Commands outside the range where the C++ is defined

    [Registry] shows what a command does when [cmd_pre] holds.  Without it a run
    either is undefined behaviour or does the same: it never returns normally with a
    shard that is ill formed, another key changed, or an empty reply.  The system
    invariants build on this unconditional form. *)
From S2P Require Import Prelude CxxString Double Containers Value Store HashMap Shard Router Topology Command Exec Ranges StringCommands ListCommands SetCommands HashCommands ZSetCommands Rdb RdbProofs Registry.
From Stdlib Require Import ZArith Ascii Lia.
From stdpp Require Import prelude gmap strings list_numbers.

(** ** Computations that leave the state alone *)

Section readonly.
Context {S : Type}.

(** [m] does not change the state, and what it returns satisfies [Q]. *)
Definition readonly {A} (Q : A → Prop) (m : comp S A) : Prop :=
  ∀ s, ∃ r, m s = (r, s) ∧ match r with Ok a => Q a | _ => True end.

Lemma ro_ret {A} (Q : A → Prop) a : Q a → readonly Q (mret a).
Proof. intros Ha s. by exists (Ok a). Qed.

Lemma ro_undefined {A} (Q : A → Prop) : readonly Q undefined.
Proof. intros s. by exists Undefined. Qed.

Lemma ro_lift {A} (o : outcome A) : readonly (λ _, True) (lift o).
Proof. intros s. exists o. by destruct o. Qed.

Lemma ro_bind {A B} (P : A → Prop) (Q : B → Prop) m (k : A → comp S B) :
  readonly P m → (∀ a, P a → readonly Q (k a)) → readonly Q (m ≫= k).
Proof.
  intros Hm Hk s. destruct (Hm s) as ([a|e|] & E & Ha).
  - destruct (Hk a Ha s) as (r & E' & Hr). exists r. split; [|done].
    by erewrite bind_ok by exact E.
  - exists (Throw e). split; [|done]. by erewrite bind_throw by exact E.
  - exists Undefined. split; [|done]. unfold mbind, comp_bind. by rewrite E.
Qed.

Lemma ro_int_arith z : readonly (λ _, True) (int_arith (S := S) z).
Proof. unfold int_arith. case_match; [by apply ro_ret|apply ro_undefined]. Qed.

Lemma ro_range_bounds i j n : readonly (λ _, True) (range_bounds (S := S) i j n).
Proof.
  unfold range_bounds.
  eapply (ro_bind (λ _, True)); [case_match; [apply ro_int_arith|by apply ro_ret]|intros ? _].
  eapply (ro_bind (λ _, True)); [case_match; [apply ro_int_arith|by apply ro_ret]|intros ? _].
  repeat case_match; by apply ro_ret.
Qed.

(** A [try] whose handler replies: the result is a reply or undefined. *)
Lemma ro_try {A} (Q : A → Prop) (m : comp S A) a s :
  readonly Q m → Q a →
  ∃ r, try_catch m (mret a) s = (r, s) ∧ (r = Undefined ∨ ∃ b, r = Ok b ∧ Q b).
Proof.
  intros Hm Ha. destruct (Hm s) as ([b|e|] & E & Hb); unfold try_catch; rewrite E.
  - exists (Ok b). eauto.
  - exists (Ok a). eauto.
  - exists Undefined. eauto.
Qed.
End readonly.

Section reading.
Context `{StdHash} (c : nat).

Lemma ro_get_shard : readonly (λ _, True) (get_shard c).
Proof. intros w. unfold get_shard. case_match; by eexists. Qed.

Lemma ro_load p : readonly (λ _, True) (load c p).
Proof.
  unfold load. destruct p; [|apply ro_undefined].
  eapply ro_bind; [apply ro_get_shard|intros ? _]. by apply ro_ret.
Qed.

Lemma ro_load_list p : readonly (λ _, True) (load_list c p).
Proof.
  unfold load_list. eapply ro_bind; [apply ro_load|intros v _].
  destruct v; first [by apply ro_ret|apply ro_undefined].
Qed.

Lemma ro_load_zset p : readonly (λ _, True) (load_zset c p).
Proof.
  unfold load_zset. eapply ro_bind; [apply ro_load|intros v _].
  destruct v; first [by apply ro_ret|apply ro_undefined].
Qed.
End reading.

Lemma app_reply s t : s ≠ EmptyString → s +:+ t ≠ EmptyString.
Proof. by destruct s. Qed.

Lemma ro_lrange_loop l i j resp :
  resp ≠ EmptyString → readonly (λ r, r ≠ EmptyString) (lrange_loop l i j resp).
Proof.
  unfold lrange_loop. generalize (seqZ i (j - i + 1)). intros xs. revert resp.
  induction xs as [|x xs IH]; intros resp Hr; simpl; [by apply ro_ret|].
  eapply (ro_bind (λ r, r ≠ EmptyString)); [|done].
  case_match; [|apply ro_undefined]. apply ro_ret. by apply app_reply.
Qed.

Lemma ro_zrange_option l : readonly (λ _, True) (zrange_option l).
Proof.
  unfold zrange_option, transform_upper. case_match; [|by apply ro_ret].
  eapply ro_bind; [by case_match; [apply (ro_ret (λ _, True))|apply ro_undefined]|].
  intros o _. by apply ro_ret.
Qed.

Lemma ro_zrange_loop it n ws resp :
  resp ≠ EmptyString → readonly (λ r, r ≠ EmptyString) (zrange_loop it n ws resp).
Proof.
  revert n resp. induction it as [|e it IH]; intros [|n] resp Hr; simpl;
    [by apply ro_ret|apply ro_undefined|by apply ro_ret|].
  apply IH. destruct ws; by repeat apply app_reply.
Qed.

(** ** The unconditional effect *)

Definition local_effect_ub `{StdHash} (e : prog string) (w : World) (c : nat) (k : string) : Prop :=
  (e w).1 = Undefined ∨ local_effect e w c k.

Section unconditional.
Context `{StdHash} (w : World) (c : nat) (conn_id : Z) (args : list string).
Hypothesis Hk : get_target_core (topo w) (args !!! 1) = c.
Context (sh : Shard HashMap) (Hsh : shards_ (topo w) !! c = Some sh) (Hwf : shard_wf sh).
Let k := args !!! 1.
Let t := clock w (ticks w).

Lemma world_at_shard {A} (e : prog A) : e w = e (at_shard w c sh 0).
Proof using Hsh. by rewrite (at_shard_id w c (lookup_lt_Some _ _ _ Hsh) sh Hsh). Qed.

Lemma clock_zero : clock w (ticks w + 0) = t.
Proof. by rewrite Nat.add_0_r. Qed.

(** The effect read off one run. *)
Lemma local_effect_of (e : prog string) r sh' n :
  e w = (Ok r, at_shard w c sh' n) → shard_wf sh' → r ≠ EmptyString →
  (∀ k', k' ≠ k → shard_db sh' !! k' = shard_db sh !! k') → local_effect e w c k.
Proof using Hsh.
  intros E Hw Hr Hd sh0 Hsh0 _. rewrite Hsh in Hsh0. injection Hsh0 as <-.
  by exists (Ok r), sh', n.
Qed.

(** [e] changes nothing but the removal of an expired key. *)
Definition reads_only (e : prog string) : Prop :=
  (e w).1 = Undefined ∨
  ∃ b sh' n, e w = (Ok b, at_shard w c sh' n) ∧ b ≠ EmptyString ∧ shard_wf sh' ∧
    shard_db sh' = purge t k (shard_db sh).

Lemma reads_only_effect e : reads_only e → local_effect_ub e w c k.
Proof using Hsh.
  intros [?|(b & sh' & n & E & Hb & Hw & Hd)]; [by left|right].
  eapply local_effect_of; [done..|]. intros k' Hk'. rewrite Hd. by apply purge_other.
Qed.

Lemma readonly_reads ty missing (body : option nat → prog string) :
  missing ≠ EmptyString →
  (∀ p s, ∃ r, body p s = (r, s) ∧ (r = Undefined ∨ ∃ b, r = Ok b ∧ b ≠ EmptyString)) →
  reads_only (find_existing c k ty missing body).
Proof using Hsh Hwf.
  intros Hm Hb. pose proof (lookup_lt_Some _ _ _ Hsh) as Hc. unfold reads_only.
  rewrite world_at_shard. destruct (visible t k (shard_db sh)) as [v|] eqn:Hv.
  - assert (purge t k (shard_db sh) = shard_db sh) as Hp by by eapply purge_live.
    rewrite <- clock_zero in Hv. destruct (decide (get_type v = ty)) as [Hty|Hty].
    + destruct (run_find_existing w c Hc sh 0 k ty Hwf missing body v Hv Hty) as (p & x & E & _ & _).
      rewrite E. destruct (Hb (Some p) (at_shard w c sh 1)) as (r & -> & [->|(b & -> & Hne)]);
        [by left|right]. by exists b, sh, 1.
    + right. exists err_wrongtype, sh, 1. split_and!; [|done..].
      by apply (run_find_existing_wrong w c Hc sh 0 k ty Hwf missing body v).
  - rewrite <- clock_zero in Hv.
    destruct (run_find_existing_none w c Hc sh 0 k ty Hwf missing body Hv) as (sh' & E & Hw' & Hd).
    right. exists missing, sh', 1. rewrite clock_zero in Hd. done.
Qed.

Lemma lrange_reads : length args = 4 → reads_only (LRangeCommand_execute c conn_id args).
Proof using Hk Hsh Hwf.
  intros Hn. unfold LRangeCommand_execute. rewrite Hn. simpl.
  unfold reads_only. rewrite (if_local_owner w c conn_id args _ Hk).
  apply readonly_reads; [done|]. intros p s. apply (ro_try (λ r, r ≠ EmptyString)); [|done].
  eapply ro_bind; [apply ro_lift|intros i _]. eapply ro_bind; [apply ro_lift|intros j _].
  eapply ro_bind; [apply ro_load_list|intros l _].
  eapply ro_bind; [apply ro_range_bounds|intros [[i' j']|] _]; [|by apply ro_ret].
  eapply ro_bind; [apply ro_int_arith|intros n _]. by apply ro_lrange_loop.
Qed.

Lemma lrange_any : local_effect_ub (LRangeCommand_execute c conn_id args) w c k.
Proof using Hk Hsh Hwf.
  destruct (decide (length args = 4)) as [Hn|Hn]; [by apply reads_only_effect, lrange_reads|].
  right. apply (local_effect_reply _ _ _ _ (err_args "lrange")); [done|].
  unfold LRangeCommand_execute. by rewrite (proj2 (Nat.eqb_neq _ _) Hn).
Qed.

Lemma zrange_reads : 4 ≤ length args → reads_only (ZRangeCommand_execute c conn_id args).
Proof using Hk Hsh Hwf.
  intros Hn. unfold ZRangeCommand_execute. rewrite (proj2 (Nat.ltb_ge _ _)) by done.
  unfold reads_only. rewrite (if_local_owner w c conn_id args _ Hk).
  apply readonly_reads; [done|]. intros p s. apply (ro_try (λ r, r ≠ EmptyString)); [|done].
  eapply ro_bind; [apply ro_lift|intros i _]. eapply ro_bind; [apply ro_lift|intros j _].
  eapply ro_bind; [apply ro_load_zset|intros z _].
  eapply ro_bind; [apply ro_range_bounds|intros [[i' j']|] _]; [|by apply ro_ret].
  eapply ro_bind; [apply ro_zrange_option|intros ws _].
  eapply ro_bind; [apply ro_int_arith|intros n _].
  eapply ro_bind; [apply ro_int_arith|intros m _]. by apply ro_zrange_loop.
Qed.

Lemma zrange_any : local_effect_ub (ZRangeCommand_execute c conn_id args) w c k.
Proof using Hk Hsh Hwf.
  destruct (decide (4 ≤ length args)) as [Hn|Hn]; [by apply reads_only_effect, zrange_reads|].
  right. apply (local_effect_reply _ _ _ _ (err_args "zrange")); [done|].
  unfold ZRangeCommand_execute. by rewrite (proj2 (Nat.ltb_lt _ _)) by lia.
Qed.

(** A NaN score makes [ZADD] undefined once it is reached. *)
Lemma zadd_loop_nan d x p n l : ∀ z sh0 a,
  points d x k p (VZSet z) sh0 → ¬ Forall (λ e, is_nan (score e) = false) (zadd_prefix l) →
  (zadd_loop c (Some p) l a (at_shard w c sh0 n)).1 = Undefined.
Proof using Hk Hsh.
  pose proof (lookup_lt_Some _ _ _ Hsh) as Hc.
  induction l as [l IH] using (induction_ltof1 _ length); unfold ltof in IH.
  intros z sh0 a Hp Hn. destruct l as [|s [|y l]]; [by destruct Hn; constructor..|].
  simpl in Hn. destruct (stod s) as [sc|e|] eqn:Es; [|by destruct Hn; constructor..].
  destruct (is_nan sc) eqn:Enan.
  - cbn [zadd_loop]. rewrite Es. erewrite bind_ok by by eapply run_load_zset.
    assert (zset_insert z (mkEntry sc y) = Undefined) as Ei
      by (unfold zset_insert; simpl; by rewrite Enan).
    rewrite Ei. destruct (dict z !! y) as [old|]; [|done].
    replace (deq old sc) with false; [done|]. symmetry. unfold deq. by rewrite Enan, andb_false_r.
  - destruct (zadd_loop_cons w c args d x p n s y l sc Hc Es Enan z sh0 a Hp) as (sh1 & Hp1 & ->).
    eapply IH; [simpl; lia|done|]. intros Hf. apply Hn. by constructor.
Qed.

(** A command that creates its key and whose body is undefined: what is left is
    the reply to a wrong type and the full table. *)
Definition only_refuses (ty : ValueType) (e : prog string) : Prop :=
  (e w).1 = Undefined ∨
  (∃ v, visible t k (shard_db sh) = Some v ∧ get_type v ≠ ty ∧
     e w = (Ok err_wrongtype, at_shard w c sh 1)) ∨
  (visible t k (shard_db sh) = None ∧ ∃ sh',
     e w = (Throw (runtime_error "HashMap is full"), at_shard w c sh' 1) ∧ shard_wf sh' ∧
     full (data_store sh') ∧ shard_db sh' = purge t k (shard_db sh)).

Lemma create_refuses ty fresh body :
  value_wf fresh → get_type fresh = ty →
  (∀ v d x p sh0 n, get_type v = ty → points d x k p v sh0 →
     (body (Some p) (at_shard w c sh0 n)).1 = Undefined) →
  only_refuses ty (find_or_create c k ty fresh body).
Proof using Hsh Hwf.
  intros Hf Hfty Hb. pose proof (lookup_lt_Some _ _ _ Hsh) as Hc. unfold only_refuses.
  rewrite world_at_shard, <- clock_zero.
  destruct (visible (clock w (ticks w + 0)) k (shard_db sh)) as [v|] eqn:Hv.
  - destruct (decide (get_type v = ty)) as [Hty|Hty].
    + destruct (run_find_or_create_some w c Hc sh 0 k ty Hwf fresh body v Hv Hty)
        as (p & x & E & _ & Hp).
      left. rewrite E. by eapply Hb.
    + right; left. exists v. split_and!; [done..|]. by eapply run_find_or_create_wrong.
  - destruct (run_find_or_create_none w c Hc sh 0 k ty Hwf fresh body Hv Hf Hfty)
      as [(sh' & p & E & Hp)|(sh' & E & Hw' & Hd & Hful)].
    + left. rewrite E. by eapply Hb.
    + right; right. split; [done|]. by exists sh'.
Qed.

Lemma zadd_nan :
  (length args <? 4) || negb (length args mod 2 =? 0) = false →
  ¬ Forall (λ e, is_nan (score e) = false) (zadd_prefix (drop 2 args)) →
  only_refuses ZSET (ZAddCommand_execute c conn_id args).
Proof using Hk Hsh Hwf.
  intros En Hn. unfold ZAddCommand_execute. rewrite En. unfold only_refuses. rewrite (if_local_owner w c conn_id args _ Hk).
  apply create_refuses; [apply zset_empty_wf|done|].
  intros v d x p sh0 n [z ->]%type_zset Hp. by eapply zadd_loop_nan.
Qed.

Lemma zadd_any : local_effect_ub (ZAddCommand_execute c conn_id args) w c k.
Proof using Hk Hsh Hwf.
  destruct (decide (Forall (λ e, is_nan (score e) = false) (zadd_prefix (drop 2 args)))) as [Hn|Hn].
  { right. apply zadd_local; [done|by eapply lookup_lt_Some|]. by intros sh0 _. }
  destruct ((length args <? 4) || negb (length args mod 2 =? 0)) eqn:En.
  { right. apply (local_effect_reply _ _ _ _ (err_args "zadd")); [done|].
    unfold ZAddCommand_execute. by rewrite En. }
  destruct zadd_nan as [?|[(v & _ & _ & E)|(_ & sh' & E & Hw' & _ & Hd)]]; [done|done|by left|..]; right.
  - by eapply (local_effect_of _ err_wrongtype sh 1).
  - intros sh0 Hsh0 _. rewrite Hsh in Hsh0. injection Hsh0 as <-.
    eexists _, sh', 1. split_and!; [done|done| |done].
    intros k' Hk'. rewrite Hd. by apply purge_other.
Qed.

(** A deadline outside [long long] matters for a live key only. *)
Lemma expire_overflows seconds :
  length args = 3 → stol (args !!! 2) = Ok seconds →
  expire_at (clock w (S (ticks w))) seconds = None →
  (ExpireCommand_execute c conn_id args w).1 = Undefined ∨
  (visible t k (shard_db sh) = None ∧ ∃ sh',
     ExpireCommand_execute c conn_id args w = (Ok (integer 0), at_shard w c sh' 1) ∧ shard_wf sh' ∧
     shard_db sh' = purge t k (shard_db sh)).
Proof using Hk Hsh Hwf.
  intros Hn Es Ee. pose proof (lookup_lt_Some _ _ _ Hsh) as Hc.
  unfold ExpireCommand_execute. rewrite Hn, Es. simpl. rewrite (if_local_owner w c conn_id args _ Hk).
  rewrite world_at_shard. erewrite bind_ok by (apply (run_shard_get w c Hc)). rewrite clock_zero.
  fold k. destruct (visible t k (shard_db sh)) as [v|] eqn:Hv.
  - left. destruct (shard_get_visible t sh k v Hwf Hv) as (p & x & E & _). rewrite E. simpl.
    erewrite bind_ok by by apply run_now. rewrite Nat.add_1_r. by apply expire_at_none.
  - right. destruct (shard_get_hidden t sh k Hwf Hv) as (sh' & E & Hw' & Hd). split; [done|].
    exists sh'. by rewrite E.
Qed.

Lemma expire_any : local_effect_ub (ExpireCommand_execute c conn_id args) w c k.
Proof using Hk Hsh Hwf.
  destruct (decide (length args = 3)) as [Hn|Hn].
  2:{ right. eapply (local_effect_reply _ _ _ _ (err_args "expire")); [done|].
      unfold ExpireCommand_execute. by rewrite (proj2 (Nat.eqb_neq _ _) Hn). }
  destruct (stol (args !!! 2)) as [s|e|] eqn:Es; [| |by apply stol_defined in Es].
  2:{ right. eapply (local_effect_reply _ _ _ _ err_not_integer); [done|].
      by eapply expire_bad_integer. }
  destruct (expire_at (clock w (S (ticks w))) s) as [e|] eqn:Ee.
  { right. apply expire_local; [done|]. intros sh0 _. split_and!; try done.
    intros _ s' Es' _. rewrite Es in Es'. injection Es' as <-. eauto. }
  destruct (expire_overflows s Hn Es Ee) as [?|(_ & sh' & E & Hw' & Hd)]; [by left|right].
  eapply local_effect_of; [done..|]. intros k' Hk'. rewrite Hd. by apply purge_other.
Qed.

(** The time left of a live key whose deadline is too far from now. *)
Lemma ttl_overflows v e :
  length args = 2 → visible t k (shard_db sh) = Some v → shard_db sh !! k = Some (v, Some e) →
  e ≠ (-1)%Z → ¬ (long_min ≤ e - clock w (S (ticks w)) ≤ long_max)%Z →
  (TtlCommand_execute c conn_id args w).1 = Undefined.
Proof using Hk Hsh Hwf.
  intros Hn Hv Hx He Hr. pose proof (lookup_lt_Some _ _ _ Hsh) as Hc.
  unfold TtlCommand_execute. rewrite Hn. simpl. rewrite (if_local_owner w c conn_id args _ Hk).
  rewrite world_at_shard. erewrite bind_ok by (apply (run_shard_get w c Hc)). rewrite clock_zero.
  fold k. destruct (shard_get_visible t sh k v Hwf Hv) as (p & x & E & _ & _). rewrite E.
  cbn [fst snd]. erewrite bind_ok by (apply (run_get_expiry w c Hc)).
  rewrite get_expiry_spec, Hx by done. simpl. rewrite (proj2 (Z.eqb_neq _ _)) by done.
  erewrite bind_ok by by apply run_now. rewrite Nat.add_1_r. unfold long_arith.
  destruct ((long_min <=? e - _) && (e - _ <=? long_max))%Z eqn:Eb; [|done].
  apply andb_true_iff in Eb. rewrite !Z.leb_le in Eb. done.
Qed.

Lemma ttl_any : local_effect_ub (TtlCommand_execute c conn_id args) w c k.
Proof using Hk Hsh Hwf.
  destruct (decide (length args = 2)) as [Hn|Hn].
  2:{ right. eapply (local_effect_reply _ _ _ _ (err_args "ttl")); [done|].
      unfold TtlCommand_execute. by rewrite (proj2 (Nat.eqb_neq _ _) Hn). }
  destruct (decide (ttl_range t (clock w (S (ticks w))) (shard_db sh !! k))) as [Hr|Hr].
  - right. destruct (ttl_runs w c conn_id args Hk sh Hsh Hwf Hn Hr) as (sh' & n & Hw' & E & Hd).
    eapply local_effect_of; [done..| |].
    + case_match; [apply ttl_reply_neq|done].
    + intros k' Hk'. rewrite Hd. by apply purge_other.
  - left. apply ttl_range_not in Hr as (v & e & Hx & Hexp & He & Hr).
    eapply ttl_overflows; [done| |done..]. unfold visible. by rewrite Hx, Hexp.
Qed.

(** Every command that takes a key, on any arguments. *)
Lemma key_command_any cmd :
  cmd ∈ key_commands → local_effect_ub (cmd_execute cmd c conn_id args) w c k.
Proof using Hk Hsh Hwf.
  intros Hin. destruct (decide (cmd_name cmd ∈ ["LRANGE"; "ZRANGE"; "ZADD"; "EXPIRE"; "TTL"])) as [Hs|Hs].
  - unfold key_commands in Hin.
    repeat (apply elem_of_cons in Hin as [->|Hin];
      [cbn [cmd_execute]; first
        [ apply lrange_any | apply zrange_any | apply zadd_any | apply expire_any | apply ttl_any
        | exfalso; clear -Hs; simpl in Hs; set_solver ]|]).
    by apply elem_of_nil in Hin.
  - right. apply key_command_local; [done|by eapply lookup_lt_Some|done|].
    intros sh0 _. split_and!; intros Hname; exfalso; apply Hs; rewrite Hname; set_solver.
Qed.

End unconditional.
