(* ===== verification/DatabaseRefinement.v ===== *)
(** * The commands implement the abstract database

    [abs_value] forgets how a value is represented.  [models] relates what a
    command computes on a value to its specification on the content;
    [realizes] is the whole command on the core that owns its key: it replies
    what the specification replies and leaves the key as the specification says,
    or refuses to store a new key in a full table, or has no defined behaviour.
    [commands_realize] pairs every registered command with its specification. *)
From S2P Require Import Prelude CxxString Double Containers Value Store HashMap Shard Router Topology Command Exec Ranges Wire StringCommands ListCommands SetCommands HashCommands ZSetCommands Spec Rdb RdbProofs Registry Replies Safety.
From Stdlib Require Import ZArith Ascii Lia.
From stdpp Require Import prelude gmap strings list_numbers sorting.

(** ** Representation *)

Definition abs_value (v : Value) : content :=
  match v with
  | Monostate => CNone
  | VString s => CString s
  | VList l => CList l
  | VSet s => CSet (members s)
  | VHash h => CHash (table h)
  | VZSet z => CZSet (dict z)
  end.

Definition abs_entry (e : Value * option Z) : centry := (abs_value e.1, e.2).

(** *** A sorted container is the ordered listing of what it represents *)

Section sorted.
Context {A K : Type} (key : A → K) (kltb : K → K → bool) `{!TotalLess kltb}.

#[local] Instance sort_le_trans : Transitive (sort_le key kltb).
Proof.
  intros x y z. unfold sort_le. intros H1 H2.
  destruct (kltb (key z) (key x)) eqn:E; [|done].
  destruct (kltb (key y) (key z)) eqn:E2.
  - by rewrite (less_trans _ _ _ E2 E) in H1.
  - by rewrite (less_total _ _ E2 H2), E in H1.
Qed.

#[local] Instance sort_le_total : Total (sort_le key kltb).
Proof.
  intros x y. unfold sort_le. destruct (kltb (key y) (key x)) eqn:E; [|by left].
  right. by apply (less_asym kltb).
Qed.

Lemma sort_by_sorted l : NoDup (key <$> l) → osorted (λ a b, kltb (key a) (key b)) (sort_by key kltb l).
Proof using TotalLess0.
  intros Hn. unfold sort_by, osorted.
  pose proof (StronglySorted_merge_sort (sort_le key kltb) l) as Hs.
  rewrite <- (fmap_Permutation key _ _ (merge_sort_Permutation (sort_le key kltb) l)) in Hn.
  induction Hs as [|x m Hm IH Hx]; constructor; simpl in Hn; apply NoDup_cons in Hn as [Hnx Hn].
  - by apply IH.
  - rewrite Forall_forall in Hx |- *. intros y Hy. specialize (Hx y Hy). unfold sort_le in Hx.
    destruct (kltb (key x) (key y)) eqn:E; [done|]. destruct Hnx.
    rewrite (less_total _ _ E Hx). by apply list_elem_of_fmap_2.
Qed.

Lemma sort_by_unique l m :
  osorted (λ a b, kltb (key a) (key b)) m → m ≡ₚ l → sort_by key kltb l = m.
Proof using TotalLess0.
  intros Hm Hp. pose proof (osorted_key_NoDup key kltb m Hm) as Hn. rewrite Hp in Hn.
  apply (osorted_ext key kltb); [by apply sort_by_sorted|done|].
  intros z. unfold sort_by. by rewrite (merge_sort_Permutation (sort_le key kltb) l), Hp.
Qed.
End sorted.

Lemma set_list_members s : osorted string_ltb s → set_list (members s) = s.
Proof.
  intros Hs. apply (sort_by_unique (λ x, x) string_ltb); [done|].
  pose proof (osorted_key_NoDup (λ x, x) string_ltb s Hs) as Hn. rewrite list_fmap_id in Hn.
  unfold members. by rewrite elements_list_to_set.
Qed.

Lemma hash_list_table h : osorted hash_ltb h → hash_list (table h) = h.
Proof.
  intros Hs. apply (sort_by_unique fst string_ltb); [done|].
  symmetry. unfold table. by apply map_to_list_to_map, table_NoDup.
Qed.

Lemma zset_list_tree z :
  zset_wf z → zset_list (dict z) = (λ e, (member e, score e)) <$> tree z.
Proof.
  intros Hwf. apply (sort_by_unique (λ p : string * double, (d_key p.2, p.1)) pair_ltb).
  - pose proof (zw_sorted z Hwf) as Hs. unfold osorted in *. generalize dependent (tree z).
    induction 1 as [|e t _ IH He]; simpl; constructor; [done|].
    rewrite Forall_fmap. eapply Forall_impl; [exact He|]. done.
  - apply NoDup_Permutation.
    + pose proof (osorted_key_NoDup entry_key pair_ltb (tree z) (zw_sorted z Hwf)) as Hn.
      apply (NoDup_fmap_1 (λ p : string * double, (d_key p.2, p.1))).
      rewrite <- list_fmap_compose. exact Hn.
    + apply NoDup_map_to_list.
    + intros [m sc]. rewrite elem_of_map_to_list, (zw_agree z Hwf), list_elem_of_fmap. split.
      * intros ([sc' m'] & [= -> ->] & ?). done.
      * intros Hin. by exists (mkEntry sc m).
Qed.

(** ** What a command computes on a value, against its effect on the content *)

Definition written (a : action) : option content :=
  match a with Keep => None | Write v => Some (abs_value v) end.

(** [R] is where the reply is the specified one. *)
Definition models (R : option content → Prop) (fn : option Value → string * action)
    (f : effect) : Prop :=
  ∀ o, (∀ v, o = Some v → value_wf v) →
  (R (abs_value <$> o) → (fn o).1 = render (f (abs_value <$> o)).1) ∧
  match o with
  | None => written (fn None).2 = (f None).2
  | Some v => abs_value (result v (fn (Some v)).2) = default (abs_value v) (f (Some (abs_value v))).2
  end.

(** A kind of content, as the code and the specification name it. *)
Record kind {A B} (ty : ValueType) (con : A → Value) (mk : B → content)
    (as_kind : content → option B) (rep : A → B) : Prop := {
  kd_con v : get_type v = ty → ∃ a, v = con a;
  kd_type a : get_type (con a) = ty;
  kd_abs a : abs_value (con a) = mk (rep a);
  kd_as b : as_kind (mk b) = Some b;
  kd_other v : get_type v ≠ ty → as_kind (abs_value v) = None
}.

Lemma list_kind : kind LIST VList CList as_list id.
Proof. split; [apply type_list|done..|]. by intros []. Qed.
Lemma set_kind : kind SET VSet CSet as_set members.
Proof. split; [apply type_set|done..|]. by intros []. Qed.
Lemma hash_kind : kind HASH VHash CHash as_hash table.
Proof. split; [apply type_hash|done..|]. by intros []. Qed.
Lemma zset_kind : kind ZSET VZSet CZSet as_zset dict.
Proof. split; [apply type_zset|done..|]. by intros []. Qed.

Section kinds.
Context {A B : Type} {ty : ValueType} {con : A → Value} {mk : B → content}
  {as_kind : content → option B} {rep : A → B} (Hkd : kind ty con mk as_kind rep).

Lemma models_reading R missing m fn g :
  missing = render m →
  (∀ a, value_wf (con a) → (fn (con a)).2 = Keep ∧
     (R (Some (mk (rep a))) → (fn (con a)).1 = render (g (rep a)))) →
  models R (existing ty missing fn) (reading as_kind m g).
Proof using Hkd.
  intros Hm Hf [v|] Hv; [|done]. specialize (Hv v eq_refl). simpl.
  destruct (decide (get_type v = ty)) as [Hty|Hty].
  - destruct (kd_con _ _ _ _ _ Hkd v Hty) as [a ->]. destruct (Hf a Hv) as [Hk Hr].
    rewrite (kd_abs _ _ _ _ _ Hkd) in *. rewrite (kd_as _ _ _ _ _ Hkd). simpl.
    rewrite Hk. split; [done|]. simpl. by rewrite (kd_abs _ _ _ _ _ Hkd).
  - by rewrite (kd_other _ _ _ _ _ Hkd).
Qed.

(** The new value represents the new content. *)
Definition updates (fn : Value → string * action) (g : B → resp * B) : Prop :=
  ∀ a, value_wf (con a) → (fn (con a)).1 = render (g (rep a)).1 ∧
    abs_value (result (con a) (fn (con a)).2) = mk (g (rep a)).2.

Lemma models_updating missing m fn g :
  missing = render m → updates fn g →
  models (λ _, True) (existing ty missing fn) (updating as_kind mk m g).
Proof using Hkd.
  intros Hm Hf [v|] Hv; [|done]. specialize (Hv v eq_refl). simpl.
  destruct (decide (get_type v = ty)) as [Hty|Hty].
  - destruct (kd_con _ _ _ _ _ Hkd v Hty) as [a ->]. destruct (Hf a Hv) as [Hr Hw].
    rewrite (kd_abs _ _ _ _ _ Hkd), (kd_as _ _ _ _ _ Hkd). done.
  - by rewrite (kd_other _ _ _ _ _ Hkd).
Qed.

Lemma models_making a0 fn g :
  value_wf (con a0) → updates fn g →
  models (λ _, True) (creating ty (con a0) fn) (making as_kind mk (rep a0) g).
Proof using Hkd.
  intros H0 Hf [v|] Hv.
  - specialize (Hv v eq_refl). simpl. destruct (decide (get_type v = ty)) as [Hty|Hty].
    + destruct (kd_con _ _ _ _ _ Hkd v Hty) as [a ->]. destruct (Hf a Hv) as [Hr Hw].
      rewrite (kd_abs _ _ _ _ _ Hkd), (kd_as _ _ _ _ _ Hkd). done.
    + by rewrite (kd_other _ _ _ _ _ Hkd).
  - destruct (Hf a0 H0) as [Hr Hw]. simpl. rewrite Hw. done.
Qed.
End kinds.

(** *** Strings and lists *)

Lemma get_models : models (λ _, True) get_fn e_get.
Proof. intros [[]|] _; done. Qed.

Lemma lpush_models xs :
  models (λ _, True) (creating LIST (VList []) (lpush_fn xs)) (e_lpush xs).
Proof. by apply (models_making list_kind []). Qed.
Lemma rpush_models xs :
  models (λ _, True) (creating LIST (VList []) (rpush_fn xs)) (e_rpush xs).
Proof. by apply (models_making list_kind []). Qed.
Lemma lpop_models : models (λ _, True) (existing LIST nil_reply lpop_fn) e_lpop.
Proof. apply (models_updating list_kind); [done|]. by intros [|x l]. Qed.
Lemma rpop_models : models (λ _, True) (existing LIST nil_reply rpop_fn) e_rpop.
Proof.
  apply (models_updating list_kind); [done|]. intros l _. simpl.
  destruct l as [|x l _] using rev_ind; [done|]. by rewrite last_snoc, removelast_last.
Qed.
Lemma llen_models : models (λ _, True) (existing LIST (integer 0) llen_fn) e_llen.
Proof. by apply (models_reading list_kind). Qed.
Lemma lrange_models a b :
  models (λ _, True) (existing LIST empty_array (lrange_fn a b)) (e_lrange a b).
Proof.
  apply (models_reading list_kind); [done|]. intros l _. simpl.
  destruct (stoi a), (stoi b); done.
Qed.

(** *** Sets *)

Lemma sadd_models xs : models (λ _, True) (creating SET (VSet []) (sadd_fn xs)) (e_sadd xs).
Proof.
  apply (models_making set_kind []); [constructor|]. intros s Hs. simpl in *.
  destruct (insert_all_members xs s Hs) as [Hs' Hm]. rewrite Hm. split; [|done].
  unfold count. rewrite <- !osorted_size, Hm by done. do 2 f_equal.
  rewrite size_union_alt. lia.
Qed.
Lemma srem_models xs : models (λ _, True) (existing SET (integer 0) (srem_fn xs)) (e_srem xs).
Proof.
  apply (models_updating set_kind); [done|]. intros s Hs. simpl in *.
  destruct (erase_all_members xs s Hs) as [Hs' Hm]. rewrite Hm. split; [|done].
  unfold count. rewrite <- !osorted_size, Hm by done. do 2 f_equal.
  rewrite size_difference_alt.
  pose proof (subseteq_size (members s ∩ list_to_set xs) (members s) ltac:(set_solver)). lia.
Qed.
Lemma smembers_models : models (λ _, True) (existing SET empty_array smembers_fn) e_smembers.
Proof.
  apply (models_reading set_kind); [done|]. intros s Hs. simpl in *. split; [done|].
  by rewrite set_list_members.
Qed.
Lemma scard_models : models (λ _, True) (existing SET (integer 0) scard_fn) e_scard.
Proof.
  apply (models_reading set_kind); [done|]. intros s Hs. simpl in *. split; [done|].
  unfold count. by rewrite osorted_size.
Qed.

(** *** Hashes *)

Lemma without_lookup {V} (M M' : gmap string V) ks :
  (∀ k, M' !! k = if decide (k ∈ ks) then None else M !! k) → M' = without M ks.
Proof.
  intros Hl. apply map_eq. intros k. rewrite Hl. unfold without. case_decide as Hk.
  - symmetry. apply map_lookup_filter_None_2. right. intros x _ Hn. by apply Hn.
  - apply option_eq. intros x. rewrite map_lookup_filter_Some. naive_solver.
Qed.

Lemma without_size {V} (M : gmap string V) ks : size (without M ks) ≤ size M.
Proof. apply map_subseteq_size, map_filter_subseteq. Qed.

Lemma union_size {V} (M1 M2 : gmap string V) : size M2 ≤ size (M1 ∪ M2).
Proof. rewrite <- !size_dom, dom_union_L. apply subseteq_size. set_solver. Qed.

Lemma hset_models ps : models (λ _, True) (creating HASH (VHash []) (hset_fn ps)) (e_hset ps).
Proof.
  apply (models_making hash_kind []); [constructor|]. intros h Hh. simpl in *.
  destruct (assign_all_table ps h Hh) as [Hs Ht]. rewrite Ht. split; [|done].
  unfold count. rewrite <- !table_size, Ht by done. do 2 f_equal.
  pose proof (union_size (list_to_map (reverse ps)) (table h)). lia.
Qed.
Lemma hget_models f : models (λ _, True) (existing HASH nil_reply (hget_fn f)) (e_hget f).
Proof.
  apply (models_reading hash_kind); [done|]. intros h Hh. simpl in *. split; [done|].
  rewrite hash_find_table by done. by destruct (table h !! f).
Qed.
Lemma hgetall_models :
  models (range_ok "HGETALL") (existing HASH empty_array hgetall_fn) e_hgetall.
Proof.
  apply (models_reading hash_kind); [done|]. intros h Hh. simpl in *. split; [done|].
  intros Hr. rewrite hash_list_table by done. apply hgetall_array. rewrite <- table_size by done.
  by apply Hr.
Qed.
Lemma hdel_models fs : models (λ _, True) (existing HASH (integer 0) (hdel_fn fs)) (e_hdel fs).
Proof.
  apply (models_updating hash_kind); [done|]. intros h Hh. simpl in *.
  destruct (remove_all_table fs h Hh) as [Hs Ht]. apply without_lookup in Ht. rewrite Ht.
  split; [|done]. unfold count. rewrite <- !table_size, Ht by done. do 2 f_equal.
  pose proof (without_size (table h) fs). lia.
Qed.
Lemma hlen_models : models (λ _, True) (existing HASH (integer 0) hlen_fn) e_hlen.
Proof.
  apply (models_reading hash_kind); [done|]. intros h Hh. simpl in *. split; [done|].
  unfold count. by rewrite table_size.
Qed.

(** *** Sorted sets *)

Lemma put_score_size M e : size M ≤ size (put_score M e).
Proof.
  unfold put_score. destruct (M !! member e) as [old|] eqn:E.
  - case_match; [done|]. by rewrite map_size_insert_Some by eauto.
  - rewrite map_size_insert_None by done. lia.
Qed.

Lemma zadd_all_dict es : ∀ z,
  zset_wf z → Forall (λ e, is_nan (score e) = false) es →
  dict (zadd_all z es) = fold_left put_score es (dict z) ∧ size (dict z) ≤ size (dict (zadd_all z es)).
Proof.
  induction es as [|e es IH]; intros z Hwf Hn; [done|]. apply Forall_cons in Hn as [He Hn].
  destruct (zadd_one_spec z e Hwf He) as [Hwf' Hd]. fold (put_score (dict z) e) in Hd.
  destruct (IH _ Hwf' Hn) as [E Hle]. rewrite Hd in E, Hle.
  cbn [zadd_all fold_left] in *. split; [done|]. etrans; [apply (put_score_size (dict z) e)|done].
Qed.

Lemma zadd_models l :
  Forall (λ e, is_nan (score e) = false) (zadd_prefix l) →
  models (λ _, True) (creating ZSET (VZSet zset_empty) (zadd_fn l)) (e_zadd l).
Proof.
  intros Hn. apply (models_making zset_kind zset_empty); [apply zset_empty_wf|].
  intros z Hz. simpl in *. destruct (zadd_all_dict _ z Hz Hn) as [Hd Hle].
  rewrite <- Hd. split; [|done]. destruct (zadd_parses l); [|done].
  unfold count. rewrite !zset_size_dict by (try done; by apply zadd_all_wf). cbn [render]. f_equal. lia.
Qed.
Lemma zrem_models ms : models (λ _, True) (existing ZSET (integer 0) (zrem_fn ms)) (e_zrem ms).
Proof.
  apply (models_updating zset_kind); [done|]. intros z Hz. simpl in *.
  destruct (zrem_all_spec ms z Hz) as [Hwf Hd]. apply without_lookup in Hd. rewrite Hd.
  split; [|done]. unfold count. rewrite !zset_size_dict, Hd by done. do 2 f_equal.
  pose proof (without_size (dict z) ms). lia.
Qed.
Lemma zcard_models : models (λ _, True) (existing ZSET (integer 0) zcard_fn) e_zcard.
Proof.
  apply (models_reading zset_kind); [done|]. intros z Hz. simpl in *. split; [done|].
  unfold count. by rewrite zset_size_dict.
Qed.
Lemma zscore_models m : models (λ _, True) (existing ZSET nil_reply (zscore_fn m)) (e_zscore m).
Proof.
  apply (models_reading zset_kind); [done|]. intros z Hz. simpl. split; [done|].
  by destruct (dict z !! m).
Qed.

Lemma slice_fmap {A B} (f : A → B) l i j : slice (f <$> l) i j = f <$> slice l i j.
Proof. unfold slice. by rewrite length_fmap, fmap_take, fmap_drop. Qed.

Lemma zrange_array scores es :
  zrange_reply scores es =
  array_reply (((λ e, (member e, score e)) <$> es) ≫= zset_item scores).
Proof.
  set (l := _ ≫= zset_item scores).
  assert (Z.of_nat (length l) = (Z.of_nat (length es) * (if scores then 2 else 1))%Z) as Hl.
  { unfold l. clear l. induction es as [|e es IH]; [destruct scores; done|].
    cbn [fmap list_fmap]. rewrite bind_cons, length_app. cbn [length]. rewrite Nat2Z.inj_add, IH.
    unfold zset_item. destruct scores; simpl; lia. }
  unfold zrange_reply, array_reply. rewrite Hl. unfold l. clear.
  generalize (array_header (Z.of_nat (length es) * (if scores then 2 else 1))).
  induction es as [|e es IH]; intros h; [done|].
  cbn [fold_left fmap list_fmap]. rewrite IH, bind_cons, fold_left_app. f_equal.
  unfold zrange_item, zset_item. destruct scores; [|done]. simpl. by rewrite string_app_assoc.
Qed.

Lemma zrange_models a b scores :
  models (λ _, True) (existing ZSET empty_array (zrange_fn a b scores)) (e_zrange a b scores).
Proof.
  apply (models_reading zset_kind); [done|]. intros z Hz. simpl in *.
  destruct (stoi a), (stoi b); try done. split; [done|]. intros _. simpl.
  by rewrite zset_list_tree, slice_fmap, zrange_array.
Qed.

(** ** Commands on the core that owns their key *)

Section realization.
Context `{StdHash} `{FileSystem}.

(** What a key holds, forgetting representation and place. *)
Definition abs_db (w : World) (k : string) : option centry := abs_entry <$> topo_db (topo w) k.

Lemma live_abs w k : live (clock w (ticks w)) (abs_db w k) = abs_entry <$> entry_at w k.
Proof.
  unfold abs_db, entry_at. destruct (topo_db (topo w) k) as [[v [d|]]|]; simpl; [|done..].
  unfold is_expired. simpl. by destruct (d <? _)%Z.
Qed.

Lemma live_content w k :
  fst <$> live (clock w (ticks w)) (abs_db w k) = abs_value <$> value_at w k.
Proof. rewrite live_abs. unfold value_at. by destruct (entry_at w k). Qed.

(** [r] is a reply, the specified one where [ranged] holds, after which [k] holds
    [e] and the other keys are as they were. *)
Definition executes (w : World) (k : string) (ranged : Prop) (s : resp * option centry)
    (r : outcome string * World) : Prop :=
  (∃ b, r.1 = Ok b ∧ b ≠ EmptyString ∧ (ranged → b = render s.1)) ∧ topo_wf (topo r.2) ∧
  abs_db r.2 k = s.2 ∧ ∀ k', k' ≠ k → topo_db (topo r.2) k' = topo_db (topo w) k'.

(** The table has no slot for a new key. *)
Definition refuses (w : World) (k : string) (s : resp * option centry)
    (r : outcome string * World) : Prop :=
  live (clock w (ticks w)) (abs_db w k) = None ∧ is_Some s.2 ∧ store_full w k r.

Definition realizes (cmd : Command) (sp : Spec) : Prop :=
  cmd_name cmd = sp_name sp ∧
  ∀ w conn_id args, topo_wf (topo w) →
  let k := args !!! 1 in
  let t := clock w (ticks w) in
  let r := cmd_execute cmd (get_target_core (topo w) k) conn_id args w in
  let s := sp_run sp t (clock w (S (ticks w))) args (abs_db w k) in
  r.1 = Undefined ∨
  executes w k (range_ok (sp_name sp) (fst <$> live t (abs_db w k))) s r ∨ refuses w k s r.

Lemma answers_executes w k r reply e ranged s :
  answers w k r reply e → reply ≠ EmptyString → (ranged → reply = render s.1) →
  abs_entry <$> e = s.2 → executes w k ranged s r.
Proof. intros (Hr & Hwf & <- & Ho) Hne Hs He. split_and!; eauto. Qed.

Lemma unchanged_executes w k err ranged s :
  topo_wf (topo w) → err ≠ EmptyString → err = render s.1 → s.2 = abs_db w k →
  executes w k ranged s (Ok err, w).
Proof. intros Hwf Hne E Hs. split_and!; simpl; eauto. Qed.

(** A command that refines [fn] on the value implements an effect that models
    [fn]. *)
Lemma refines_executes P R fn f args t' w k (e : prog string) c :
  topo_wf (topo w) → get_target_core (topo w) k = c →
  refines_when P e fn w c k → P (value_at w k) → models R fn (f args) →
  (∀ o, (fn o).1 ≠ EmptyString) →
  let s := on_live f (clock w (ticks w)) t' args (abs_db w k) in
  executes w k (R (fst <$> live (clock w (ticks w)) (abs_db w k))) s (e w) ∨ refuses w k s (e w).
Proof.
  intros Hwf Hk Hr HP Hm Hne s.
  destruct (Hm (value_at w k) ltac:(intros; by eapply value_at_wf)) as [Hreply Hnew].
  assert (s = ((f args (abs_value <$> value_at w k)).1,
    match (f args (abs_value <$> value_at w k)).2 with
    | Some c => Some (c, entry_at w k ≫= snd)
    | None => abs_entry <$> entry_at w k
    end)) as Es.
  { unfold s, on_live. rewrite live_content. destruct (f args _) as [r o]. simpl. f_equal.
    rewrite live_abs. destruct o; [|done]. by destruct (entry_at w k). }
  rewrite live_content. destruct (owner_run w c k Hwf Hk P e fn Hr HP) as [Ha|(Hn & Hw & Hful)].
  - left. eapply answers_executes; [done|apply Hne|by rewrite Es|]. rewrite Es. simpl.
    unfold value_at in *. destruct (entry_at w k) as [[v x]|]; simpl in *.
    + destruct (fn (Some v)).2 as [|v']; simpl in *; destruct (f args (Some (abs_value v))).2;
        simpl in *; unfold abs_entry; simpl; congruence.
    + rewrite <- Hnew. by destruct (fn None).2.
  - right. unfold refuses. rewrite Hn in Hnew, Es. rewrite live_abs, Es. simpl in *.
    unfold value_at in Hn. destruct (entry_at w k); [done|]. split_and!; [done| |done].
    rewrite <- Hnew. by destruct (fn None).2.
Qed.

(** *** The number of arguments *)

Lemma exact_false n m : exact n m = false → negb (m =? n) = true.
Proof. unfold exact. by intros ->. Qed.
Lemma exact_true n m : exact n m = true → m = n.
Proof. apply Nat.eqb_eq. Qed.
Lemma least_false n m : least n m = false → (m <? n) = true.
Proof. unfold least. rewrite Nat.leb_gt, Nat.ltb_lt. done. Qed.
Lemma least_true n m : least n m = true → n ≤ m.
Proof. apply Nat.leb_le. Qed.
Lemma pairs_false m : pairs m = false → (m <? 4) || negb (m mod 2 =? 0) = true.
Proof. unfold pairs. rewrite Nat.ltb_antisym, <- negb_andb. by intros ->. Qed.
Lemma pairs_true m : pairs m = true → (m <? 4) || negb (m mod 2 =? 0) = false.
Proof. unfold pairs. rewrite Nat.ltb_antisym, <- negb_andb. by intros ->. Qed.

Lemma models_weaken (R : option content → Prop) fn f : models (λ _, True) fn f → models R fn f.
Proof. intros Hm o Ho. destruct (Hm o Ho) as [Hr Hn]. auto. Qed.

Lemma wrong_args_render cmd : err_args cmd = render (wrong_args cmd).
Proof. unfold err_args, wrong_args. cbn [render]. by rewrite !string_app_assoc. Qed.

(** A command answers a wrong number of arguments at once. *)
Definition checks_arity (cmd : Command) (sp : Spec) : Prop :=
  ∀ c conn_id args w, sp_arity sp (length args) = false →
  cmd_execute cmd c conn_id args w = (Ok (err_args (sp_lower sp)), w).

Lemma realizes_checked cmd sp :
  cmd_name cmd = sp_name sp → checks_arity cmd sp →
  (∀ w conn_id args, topo_wf (topo w) → sp_arity sp (length args) = true →
   let k := args !!! 1 in
   let t := clock w (ticks w) in
   let r := cmd_execute cmd (get_target_core (topo w) k) conn_id args w in
   let s := sp_effect sp t (clock w (S (ticks w))) args (abs_db w k) in
   r.1 = Undefined ∨
   executes w k (range_ok (sp_name sp) (fst <$> live t (abs_db w k))) s r ∨ refuses w k s r) →
  realizes cmd sp.
Proof.
  intros Hn Ha Hr. split; [done|]. intros w conn_id args Hwf k t r s.
  destruct (sp_arity sp (length args)) eqn:E; unfold s, sp_run; rewrite E; [by apply Hr|].
  right; left. unfold r. rewrite (Ha _ _ _ _ E). apply unchanged_executes; [done|done| |done].
  apply wrong_args_render.
Qed.

Lemma realizes_refined cmd name lower arity f (fn : list string → option Value → string * action) :
  cmd_name cmd = name → checks_arity cmd (mkSpec name lower arity (on_live f)) →
  (∀ w c conn_id args, get_target_core (topo w) (args !!! 1) = c → arity (length args) = true →
     refines (cmd_execute cmd c conn_id args) (fn args) w c (args !!! 1)) →
  (∀ args, models (range_ok name) (fn args) (f args)) →
  (∀ args o, (fn args o).1 ≠ EmptyString) →
  realizes cmd (mkSpec name lower arity (on_live f)).
Proof.
  intros Hn Ha Hr Hm Hne. apply realizes_checked; [done..|]. intros w conn_id args Hwf E k t r s.
  right. exact (refines_executes (λ _, True) (range_ok name) (fn args) f args _ w k _ _ Hwf eq_refl
    (Hr _ _ _ _ eq_refl E) I (Hm args) (Hne args)).
Qed.

(** *** Strings *)

Lemma set_realizes : realizes SetCommand (mkSpec "SET" "set" (exact 3) s_set).
Proof.
  apply realizes_checked; [done| |].
  { intros c conn_id args w E%exact_false. simpl. unfold SetCommand_execute. by rewrite E. }
  intros w conn_id args Hwf E%exact_true k t r s. right.
  destruct (owner_shard w _ k Hwf eq_refl) as (sh & Hsh & Hswf & Hdb & Hv & _).
  destruct (set_runs w _ conn_id args eq_refl sh Hsh Hswf E) as [(sh' & Er & Hwf' & Hd)|(Er & Hf & Hnone)];
    fold k in Er; unfold r; cbn [cmd_execute SetCommand]; rewrite Er.
  - left. eapply answers_executes; [eapply (at_shard_answers w _ k Hwf eq_refl sh sh'); [done..|]|done..|].
    + intros k' Hne. by rewrite Hd, lookup_insert_ne.
    + by rewrite Hd, lookup_insert_eq.
  - right. fold k in Hnone. rewrite Hdb in Hnone. unfold refuses, abs_db. rewrite Hnone.
    split_and!; [done|by eexists|]. split_and!; try done. by exists sh.
Qed.

Lemma del_realizes : realizes DelCommand (mkSpec "DEL" "del" (exact 2) s_del).
Proof.
  apply realizes_checked; [done| |].
  { intros c conn_id args w E%exact_false. simpl. unfold DelCommand_execute. by rewrite E. }
  intros w conn_id args Hwf E%exact_true k t r s. right; left.
  destruct (owner_shard w _ k Hwf eq_refl) as (sh & Hsh & Hswf & Hdb & Hv & _).
  destruct (del_runs w _ conn_id args eq_refl sh Hsh Hswf E) as (sh' & Er & Hwf' & Hd).
  fold k in Er. unfold r. cbn [cmd_execute DelCommand]. rewrite Er.
  eapply answers_executes; [eapply (at_shard_answers w _ k Hwf eq_refl sh sh'); [done..|]|done| |].
  - intros k' Hne. by rewrite Hd, lookup_delete_ne.
  - intros _. fold k. rewrite Hdb. unfold s, s_del, abs_db. by destruct (topo_db (topo w) k).
  - by rewrite Hd, lookup_delete_eq.
Qed.

Lemma expire_realizes : realizes ExpireCommand (mkSpec "EXPIRE" "expire" (exact 3) s_expire).
Proof.
  apply realizes_checked; [done| |].
  { intros c conn_id args w E%exact_false. simpl. unfold ExpireCommand_execute. by rewrite E. }
  intros w conn_id args Hwf E%exact_true. cbv zeta. cbn [cmd_execute ExpireCommand sp_effect].
  destruct (owner_shard w _ (args !!! 1) Hwf eq_refl) as (sh & Hsh & Hswf & Hdb & Hv & Hp).
  unfold s_expire.
  destruct (stol (args !!! 2)) as [seconds|ex|] eqn:Es; [| |by apply stol_defined in Es].
  2:{ right; left. erewrite expire_bad_integer by done. by apply unchanged_executes. }
  rewrite !live_abs.
  destruct (expire_at (clock w (S (ticks w))) seconds) as [e|] eqn:Ee.
  - right; left.
    destruct (expire_runs w _ conn_id args eq_refl sh Hsh Hswf seconds E Es) as (sh' & n & Hwf' & -> & Hd).
    { rewrite Ee. by eexists. }
    rewrite Hv.
    eapply answers_executes; [eapply (at_shard_answers w _ _ Hwf eq_refl sh sh'); [done..|]|by case_match| |].
    + intros k' Hne. rewrite Hd, lookup_alter_ne by done. by apply purge_other.
    + intros _. unfold value_at. by destruct (entry_at w (args !!! 1)) as [[v x]|].
    + rewrite Hd, lookup_alter_eq, Hp. by destruct (entry_at w (args !!! 1)) as [[v x]|].
  - destruct (expire_overflows w _ conn_id args eq_refl sh Hsh Hswf seconds E Es Ee)
      as [?|(Hn & sh' & -> & Hwf' & Hd)]; [by left|right; left].
    rewrite Hv in Hn. unfold value_at in Hn. destruct (entry_at w (args !!! 1)); [done|].
    eapply answers_executes; [eapply (at_shard_answers w _ _ Hwf eq_refl sh sh'); [done..|]|done..|].
    + intros k' Hne. rewrite Hd. by apply purge_other.
    + by rewrite Hd, Hp.
Qed.

Lemma ttl_realizes : realizes TtlCommand (mkSpec "TTL" "ttl" (exact 2) s_ttl).
Proof.
  apply realizes_checked; [done| |].
  { intros c conn_id args w E%exact_false. simpl. unfold TtlCommand_execute. by rewrite E. }
  intros w conn_id args Hwf E%exact_true. cbv zeta. cbn [cmd_execute TtlCommand sp_effect].
  destruct (owner_shard w _ (args !!! 1) Hwf eq_refl) as (sh & Hsh & Hswf & Hdb & Hv & Hp).
  unfold s_ttl. rewrite !live_abs.
  destruct (decide (ttl_range (clock w (ticks w)) (clock w (S (ticks w))) (shard_db sh !! (args !!! 1)))) as [Hr|Hr].
  - right; left. destruct (ttl_runs w _ conn_id args eq_refl sh Hsh Hswf E Hr) as (sh' & n & Hwf' & -> & Hd).
    rewrite Hv, Hdb.
    eapply answers_executes; [eapply (at_shard_answers w _ _ Hwf eq_refl sh sh'); [done..|]| | |].
    + intros k' Hne. rewrite Hd. by apply purge_other.
    + case_match; [apply ttl_reply_neq|done].
    + intros _. unfold value_at, entry_at. destruct (topo_db (topo w) (args !!! 1)) as [[v x]|]; simpl; [|done].
      destruct (is_expired _ _); simpl; [done|]. unfold ttl_reply, ttl_left. by repeat case_match.
    + by rewrite Hd, Hp.
  - left. apply ttl_range_not in Hr as (v & e & Hx & Hexp & He & Hr).
    eapply (ttl_overflows w _ conn_id args eq_refl sh Hsh Hswf v e); [done| |done..].
    unfold visible. by rewrite Hx, Hexp.
Qed.

(** *** Ranges: outside the range of [int] only the effect is specified *)

#[export] Instance range_ok_dec name o : Decision (range_ok name o).
Proof. unfold range_ok. repeat case_match; apply _. Defined.

(** The effect of a command that only reads. *)
Lemma reads_executes w conn_id args cmd f t' (ranged : Prop) sh :
  let k := args !!! 1 in
  let c := get_target_core (topo w) k in
  topo_wf (topo w) → shards_ (topo w) !! c = Some sh →
  reads_only w c args sh (cmd_execute cmd c conn_id args) → ¬ ranged →
  (∀ o, (f args o).2 = None) →
  let s := on_live f (clock w (ticks w)) t' args (abs_db w k) in
  let r := cmd_execute cmd c conn_id args w in
  r.1 = Undefined ∨ executes w k ranged s r.
Proof.
  intros k c Hwf Hsh Hr Hn Hf s r.
  destruct (owner_shard w c k Hwf eq_refl) as (sh0 & Hsh0 & _ & _ & _ & Hp).
  rewrite Hsh in Hsh0. injection Hsh0 as <-.
  destruct Hr as [?|(b & sh' & n & E & Hb & Hwf' & Hd)]; [by left|right].
  unfold r. rewrite E.
  eapply answers_executes; [eapply (at_shard_answers w c k Hwf eq_refl sh sh'); [done..|]|done|done|].
  - intros k' Hne. rewrite Hd. by apply purge_other.
  - rewrite Hd. unfold k in Hp |- *. rewrite Hp. unfold s, on_live. specialize (Hf (fst <$> live (clock w (ticks w)) (abs_db w k))).
    destruct (f args _) as [re o]. simpl in *. subst o. by rewrite live_abs.
Qed.

Lemma reading_keeps {A} (as_kind : content → option A) m g o : (reading as_kind m g o).2 = None.
Proof. unfold reading. by repeat case_match. Qed.

Lemma lrange_realizes :
  realizes LRangeCommand
    (mkSpec "LRANGE" "lrange" (exact 4) (on_live (λ args, e_lrange (args !!! 2) (args !!! 3)))).
Proof.
  apply realizes_checked; [done| |].
  { intros c conn_id args w E%exact_false. simpl. unfold LRangeCommand_execute. by rewrite E. }
  intros w conn_id args Hwf E%exact_true. cbv zeta. cbn [sp_effect sp_name].
  destruct (decide (range_ok "LRANGE" (fst <$> live (clock w (ticks w)) (abs_db w (args !!! 1))))) as [Hr|Hr].
  - right. refine (refines_executes list_fits _ _ _ args _ w _ _ _ Hwf eq_refl
      (lrange_refines w _ conn_id args eq_refl E) _ (models_weaken _ _ _ (lrange_models _ _)) _).
    + rewrite live_content in Hr. intros l Hl. rewrite Hl in Hr. by apply Hr.
    + intros o. apply existing_reply; [done|apply lrange_replies].
  - destruct (owner_shard w _ (args !!! 1) Hwf eq_refl) as (sh & Hsh & Hswf & _).
    destruct (reads_executes w conn_id args LRangeCommand (λ args, e_lrange (args !!! 2) (args !!! 3))
      (clock w (S (ticks w))) _ sh Hwf Hsh (lrange_reads w _ conn_id args eq_refl sh Hsh Hswf E) Hr);
      [|by left|by right; left].
    intros o. apply reading_keeps.
Qed.

(** The command run on [l], where the specification looks at the same arguments. *)
Lemma zrange_executes w conn_id args l :
  topo_wf (topo w) → 4 ≤ length l → option_plain l = true →
  (∀ i, i < 4 → l !!! i = args !!! i) → withscores l = withscores args →
  let k := args !!! 1 in
  let ok := range_ok "ZRANGE" (fst <$> live (clock w (ticks w)) (abs_db w k)) in
  let s := on_live (λ args, e_zrange (args !!! 2) (args !!! 3) (withscores args))
    (clock w (ticks w)) (clock w (S (ticks w))) args (abs_db w k) in
  let r := ZRangeCommand_execute (get_target_core (topo w) k) conn_id l w in
  ok → executes w k ok s r ∨ refuses w k s r.
Proof.
  intros Hwf Hl Ho Hi Hs k ok s r Hr.
  assert (get_target_core (topo w) (l !!! 1) = get_target_core (topo w) k) as Hk by by rewrite Hi by lia.
  pose proof (zrange_refines w _ conn_id l Hk Hl Ho) as Hz. rewrite !Hi, Hs in Hz by lia.
  refine (refines_executes zset_fits _ _ _ args _ w _ _ _ Hwf eq_refl Hz _
    (models_weaken _ _ _ (zrange_models _ _ _)) _).
  - unfold ok in Hr. rewrite live_content in Hr. intros z Hv. rewrite Hv in Hr.
    rewrite zset_size_dict by exact (value_at_wf w _ (args !!! 1) Hwf eq_refl (VZSet z) Hv). by apply Hr.
  - intros o. apply existing_reply; [done|apply zrange_replies].
Qed.

Lemma zrange_realizes :
  realizes ZRangeCommand
    (mkSpec "ZRANGE" "zrange" (least 4)
       (on_live (λ args, e_zrange (args !!! 2) (args !!! 3) (withscores args)))).
Proof.
  apply realizes_checked; [done| |].
  { intros c conn_id args w E%least_false. simpl. unfold ZRangeCommand_execute. by rewrite E. }
  intros w conn_id args Hwf E%least_true. cbv zeta. cbn [sp_effect sp_name].
  destruct (decide (range_ok "ZRANGE" (fst <$> live (clock w (ticks w)) (abs_db w (args !!! 1))))) as [Hr|Hr].
  - destruct (option_plain args) eqn:Ho.
    { right. by apply zrange_executes. }
    destruct (zrange_ignored w _ conn_id args eq_refl E Ho) as [?|Er]; [by left|right].
    cbn [cmd_execute ZRangeCommand]. rewrite Er.
    destruct (zrange_option_undefined args Ho) as [_ Hs].
    apply zrange_executes; [done|rewrite length_take; lia| | | |exact Hr].
    + unfold option_plain. by rewrite length_take, Nat.min_l by lia.
    + intros i Hi. by rewrite lookup_total_take, decide_True by lia.
    + rewrite Hs. unfold withscores. by rewrite length_take, Nat.min_l by lia.
  - destruct (owner_shard w _ (args !!! 1) Hwf eq_refl) as (sh & Hsh & Hswf & _).
    destruct (reads_executes w conn_id args ZRangeCommand
      (λ args, e_zrange (args !!! 2) (args !!! 3) (withscores args))
      (clock w (S (ticks w))) _ sh Hwf Hsh (zrange_reads w _ conn_id args eq_refl sh Hsh Hswf E) Hr);
      [|by left|by right; left].
    intros o. apply reading_keeps.
Qed.

(** A NaN score, if it is reached at all, is undefined. *)
Lemma zadd_realizes :
  realizes ZAddCommand (mkSpec "ZADD" "zadd" pairs (on_live (λ args, e_zadd (drop 2 args)))).
Proof.
  apply realizes_checked; [done| |].
  { intros c conn_id args w E%pairs_false. simpl. unfold ZAddCommand_execute. by rewrite E. }
  intros w conn_id args Hwf E%pairs_true. cbv zeta. cbn [sp_effect sp_name].
  destruct (decide (Forall (λ e, is_nan (score e) = false) (zadd_prefix (drop 2 args)))) as [Hn|Hn].
  { right. pose proof (even_args _ _ E) as [Hl He].
    refine (refines_executes (λ _, True) _ _ _ args _ w _ _ _ Hwf eq_refl
      (zadd_refines w _ conn_id args eq_refl Hl He Hn) I (models_weaken _ _ _ (zadd_models _ Hn)) _).
    intros o. apply creating_reply, zadd_replies. }
  destruct (owner_shard w _ (args !!! 1) Hwf eq_refl) as (sh & Hsh & Hswf & _ & Hv & Hp).
  destruct (zadd_nan w _ conn_id args eq_refl sh Hsh Hswf E Hn)
    as [?|[(v & Hvis & Hty & Er)|(Hvis & sh' & Er & Hwf' & Hf & Hd)]]; [by left|right; left|right; right];
    rewrite Hv in Hvis; cbn [cmd_execute ZAddCommand]; rewrite Er.
  - assert (as_zset (abs_value v) = None) as Hk by by apply (kd_other _ _ _ _ _ zset_kind).
    eapply answers_executes; [by eapply (at_shard_answers w _ _ Hwf eq_refl sh sh)|done|intros _|];
      unfold on_live; rewrite live_content, Hvis; cbn [fmap option_fmap option_map];
      unfold e_zadd, making, updating; rewrite Hk; [done|].
    simpl. rewrite live_abs, <- Hp. unfold value_at in Hvis.
    by rewrite (purge_live _ _ _ v) by by rewrite Hv.
  - split_and!.
    + rewrite live_abs. unfold value_at in Hvis. by destruct (entry_at w (args !!! 1)).
    + unfold on_live. rewrite live_content, Hvis. by eexists.
    + by apply (at_shard_full w _ _ Hwf eq_refl sh).
Qed.

(** *** The others check their arguments and refine a function of the value *)

Local Ltac refined fn execute refinement arity_false models :=
  apply (realizes_refined _ _ _ _ _ fn);
  [ done
  | let E := fresh in intros ? ? ? ? E%arity_false; simpl; unfold execute; by rewrite E
  | let Ha := fresh in intros ? ? ? ? ? Ha; apply refinement; [done|..];
    first [by apply exact_true|by apply least_true|by eapply even_args, pairs_true]
  | intros; first [apply models|apply models_weaken, models]
  | intros; first [apply get_reply|apply existing_reply; [done|]|apply creating_reply];
    eauto using lpush_replies, rpush_replies, lpop_replies, rpop_replies, llen_replies,
      sadd_replies, srem_replies, smembers_replies, scard_replies, hset_replies, hget_replies,
      hgetall_replies, hdel_replies, hlen_replies, zrem_replies, zcard_replies, zscore_replies ].

(** Every command that takes a key implements its specification. *)
Lemma commands_realize : Forall2 realizes key_commands specs.
Proof.
  unfold key_commands, specs. repeat apply Forall2_cons_2; [..|apply Forall2_nil_2].
  - apply set_realizes.
  - refined (λ _ : list string, get_fn) @GetCommand_execute get_runs exact_false get_models.
  - apply del_realizes.
  - refined (λ args : list string, creating LIST (VList []) (lpush_fn (drop 2 args))) @LPushCommand_execute
      lpush_refines least_false lpush_models.
  - refined (λ _ : list string, existing LIST nil_reply lpop_fn) @LPopCommand_execute
      lpop_refines exact_false lpop_models.
  - apply lrange_realizes.
  - refined (λ args : list string, creating LIST (VList []) (rpush_fn (drop 2 args))) @RPushCommand_execute
      rpush_refines least_false rpush_models.
  - refined (λ _ : list string, existing LIST nil_reply rpop_fn) @RPopCommand_execute
      rpop_refines exact_false rpop_models.
  - refined (λ _ : list string, existing LIST (integer 0) llen_fn) @LLenCommand_execute
      llen_refines exact_false llen_models.
  - refined (λ args : list string, creating SET (VSet []) (sadd_fn (drop 2 args))) @SAddCommand_execute
      sadd_refines least_false sadd_models.
  - refined (λ _ : list string, existing SET empty_array smembers_fn) @SMembersCommand_execute
      smembers_refines exact_false smembers_models.
  - refined (λ _ : list string, existing SET (integer 0) scard_fn) @SCardCommand_execute
      scard_refines exact_false scard_models.
  - refined (λ args : list string, existing SET (integer 0) (srem_fn (drop 2 args))) @SRemCommand_execute
      srem_refines least_false srem_models.
  - refined (λ args : list string, creating HASH (VHash []) (hset_fn (pairs_of (drop 2 args)))) @HSetCommand_execute
      hset_refines pairs_false hset_models.
  - refined (λ args : list string, existing HASH nil_reply (hget_fn (args !!! 2))) @HGetCommand_execute
      hget_refines exact_false hget_models.
  - refined (λ _ : list string, existing HASH empty_array hgetall_fn) @HGetAllCommand_execute
      hgetall_refines exact_false hgetall_models.
  - refined (λ args : list string, existing HASH (integer 0) (hdel_fn (drop 2 args))) @HDelCommand_execute
      hdel_refines least_false hdel_models.
  - refined (λ _ : list string, existing HASH (integer 0) hlen_fn) @HLenCommand_execute
      hlen_refines exact_false hlen_models.
  - apply zadd_realizes.
  - apply zrange_realizes.
  - refined (λ args : list string, existing ZSET (integer 0) (zrem_fn (drop 2 args))) @ZRemCommand_execute
      zrem_refines least_false zrem_models.
  - refined (λ _ : list string, existing ZSET (integer 0) zcard_fn) @ZCardCommand_execute
      zcard_refines exact_false zcard_models.
  - refined (λ args : list string, existing ZSET nil_reply (zscore_fn (args !!! 2))) @ZScoreCommand_execute
      zscore_refines exact_false zscore_models.
  - apply expire_realizes.
  - apply ttl_realizes.
Qed.

End realization.
