(* ===== verification/RespParser.v ===== *)
(** * The streaming RESP parser (src/network/resp_parser.cpp, resp_parser.hpp)

    [consume] runs the state machine over one buffer.  The position [pos] in the
    buffer is represented by the bytes from [pos] to its end, so [len - pos] is
    the length of that list; the out-parameter [consumed] is [None] on the
    returns that leave it unwritten.  Memory is taken to be sufficient:
    [reserve] throws only for a size above the container's maximum, which a
    negative [int] becomes when converted to [size_t]. *)
From S2P Require Import Prelude CxxString.
From Stdlib Require Import ZArith Ascii Lia.
From stdpp Require Import prelude strings list_numbers.

Inductive State := WaitType | WaitSize | WaitArgSize | WaitArgData | WaitCRLF.
Inductive Result := Partial | Complete | Error.

#[export] Instance State_eq_dec : EqDecision State.
Proof. solve_decision. Defined.
#[export] Instance Result_eq_dec : EqDecision Result.
Proof. solve_decision. Defined.

Record RespParser := mkParser {
  state_ : State;
  args_ : list string;
  expected_args_ : Z;
  current_arg_len_ : Z;
  current_arg_ : bytes
}.

(** [reset], also the constructor's body. *)
Definition reset : RespParser := mkParser WaitType [] 0 0 [].

Definition set_state (p : RespParser) (s : State) : RespParser :=
  mkParser s (args_ p) (expected_args_ p) (current_arg_len_ p) (current_arg_ p).
Definition set_expected (p : RespParser) (n : Z) : RespParser :=
  mkParser (state_ p) (args_ p) n (current_arg_len_ p) (current_arg_ p).
Definition set_len (p : RespParser) (n : Z) : RespParser :=
  mkParser (state_ p) (args_ p) (expected_args_ p) n (current_arg_ p).
Definition set_arg (p : RespParser) (a : bytes) : RespParser :=
  mkParser (state_ p) (args_ p) (expected_args_ p) (current_arg_len_ p) a.
Definition push_arg (p : RespParser) : RespParser :=
  mkParser (state_ p) (args_ p ++ [string_of_bytes (current_arg_ p)])
    (expected_args_ p) (current_arg_len_ p) (current_arg_ p).

(** [while (pos < len && data[pos] != '\r') pos++]: the bytes passed over and
    the bytes left. *)
Fixpoint scan_cr (data : bytes) : bytes * bytes :=
  match data with
  | [] => ([], [])
  | c :: data' =>
      if bool_decide (c = cr) then ([], data)
      else let '(line, rest) := scan_cr data' in (c :: line, rest)
  end.

(** [v.reserve(n)] for an [int n] that the call converts to [size_t]. *)
Definition max_args : Z := (2 ^ 63 - 1) / 32.
Definition max_string : Z := 2 ^ 62 - 1.
Definition reserve_ok (n max_size : Z) : bool := (uint64 n <=? max_size)%Z.

(** One turn of the loop: it goes on, returns (with the bytes left at the
    position given to [consumed], if it is written), or throws. *)
Inductive turn :=
  | Continue (p : RespParser) (rest : bytes)
  | Return (r : Result) (consumed : option bytes) (p : RespParser)
  | Raise (e : exn) (p : RespParser).

Definition wait_type (p : RespParser) (rest : bytes) : turn :=
  match rest with
  | c :: rest' =>
      if bool_decide (c = "*"%char) then Continue (set_state p WaitSize) rest'
      else Return Error None p
  | [] => Return Partial (Some []) p
  end.

(** The bytes after [\r] when [\n] follows it. *)
Definition skip_crlf (rest : bytes) : option bytes :=
  match rest with
  | _ :: n :: rest' => if bool_decide (n = lf) then Some rest' else None
  | _ => None
  end.

Definition wait_size (p : RespParser) (rest : bytes) : turn :=
  let '(line, rest') := scan_cr rest in
  match rest' with
  | [] => Return Partial (Some rest) p
  | _ =>
      match stoi (string_of_bytes line) with
      | Ok n =>
          let p := set_expected p n in
          match skip_crlf rest' with
          | None => Return Partial None p
          | Some rest'' =>
              if reserve_ok n max_args then Continue (set_state p WaitArgSize) rest''
              else Raise (length_error "vector::reserve") p
          end
      | _ => Return Error None p
      end
  end.

Definition wait_arg_size (p : RespParser) (rest : bytes) : turn :=
  match rest with
  | [] => Return Partial (Some []) p
  | c :: rest1 =>
      if negb (bool_decide (c = "$"%char)) then Return Error None p else
      let '(line, rest') := scan_cr rest1 in
      match rest' with
      | [] => Return Partial (Some rest) p
      | _ =>
          match stoi (string_of_bytes line) with
          | Ok n =>
              let p := set_len p n in
              match skip_crlf rest' with
              | None => Return Partial None p
              | Some rest'' =>
                  let p := set_arg p [] in
                  if reserve_ok n max_string then Continue (set_state p WaitArgData) rest''
                  else Raise (length_error "basic_string::_M_create") p
              end
          | _ => Return Error None p
          end
      end
  end.

Definition wait_arg_data (p : RespParser) (rest : bytes) : turn :=
  let needed := uint64 (current_arg_len_ p - Z.of_nat (length (current_arg_ p))) in
  let to_copy := Z.to_nat (Z.min needed (Z.of_nat (length rest))) in
  let p := set_arg p (current_arg_ p ++ take to_copy rest) in
  let rest := drop to_copy rest in
  if (Z.of_nat (length (current_arg_ p)) =? uint64 (current_arg_len_ p))%Z
  then Continue (set_state p WaitCRLF) rest
  else Return Partial (Some []) p.

Definition wait_crlf (p : RespParser) (rest : bytes) : turn :=
  match rest with
  | c :: n :: rest' =>
      if bool_decide (c = cr) && bool_decide (n = lf) then
        let p := push_arg p in
        if (Z.of_nat (length (args_ p)) =? uint64 (expected_args_ p))%Z
        then Return Complete (Some rest') p
        else Continue (set_state p WaitArgSize) rest'
      else Return Error None p
  | _ => Return Partial (Some rest) p
  end.

Definition parse_turn (p : RespParser) (rest : bytes) : turn :=
  match state_ p with
  | WaitType => wait_type p rest
  | WaitSize => wait_size p rest
  | WaitArgSize => wait_arg_size p rest
  | WaitArgData => wait_arg_data p rest
  | WaitCRLF => wait_crlf p rest
  end.

(** [while (pos < len) switch (state_)]; the result with the bytes left at
    [consumed]. *)
Fixpoint parse_loop (fuel : nat) (p : RespParser) (rest : bytes)
  : outcome (Result * option bytes) * RespParser :=
  match rest with
  | [] => (Ok (Partial, Some []), p)
  | _ :: _ =>
      match fuel with
      | O => (Undefined, p)
      | S fuel =>
          match parse_turn p rest with
          | Continue p' rest' => parse_loop fuel p' rest'
          | Return r consumed p' => (Ok (r, consumed), p')
          | Raise e p' => (Throw e, p')
          end
      end
  end.

(** Every turn but the one that finds an argument complete takes a byte. *)
Definition parse_fuel (rest : bytes) : nat := 2 * length rest + 1.

Definition consume (data : bytes) : comp RespParser (Result * option nat) := λ p,
  match parse_loop (parse_fuel data) p data with
  | (Ok (r, consumed), p') => (Ok (r, (λ rest, length data - length rest) <$> consumed), p')
  | (Throw e, p') => (Throw e, p')
  | (Undefined, p') => (Undefined, p')
  end.

(** ** Termination *)

(** Bytes left, counted so that leaving [WaitArgData] without a byte decreases it. *)
Definition measure (p : RespParser) (rest : bytes) : nat :=
  2 * length rest + (if decide (state_ p = WaitArgData) then 1 else 0).

Lemma scan_cr_spec data line rest :
  scan_cr data = (line, rest) →
  data = line ++ rest ∧ (cr ∉ line) ∧ (rest = [] ∨ ∃ rest', rest = cr :: rest').
Proof.
  revert line rest. induction data as [|c data IH]; intros line rest E; simpl in E.
  { simplify_eq. split_and!; [done|set_solver|by left]. }
  case_bool_decide as Hc.
  { simplify_eq. split_and!; [done|set_solver|right; eauto]. }
  destruct (scan_cr data) as [line' rest'']. simplify_eq.
  destruct (IH line' rest eq_refl) as (-> & ? & ?). split_and!; [done| |done].
  intros [?|?]%elem_of_cons; [by subst|done].
Qed.

Lemma scan_cr_line line rest : cr ∉ line → scan_cr (line ++ cr :: rest) = (line, cr :: rest).
Proof.
  induction line as [|c line IH]; intros Hc; simpl; [done|].
  apply not_elem_of_cons in Hc as [? ?]. rewrite bool_decide_eq_false_2 by done.
  by rewrite IH.
Qed.

Lemma skip_crlf_spec rest rest' :
  skip_crlf rest = Some rest' → ∃ c, rest = c :: lf :: rest'.
Proof.
  destruct rest as [|c [|n rest]]; simpl; [done..|]. case_bool_decide; [|done].
  intros [= ->]. subst. eauto.
Qed.

(** The size line the two header states read: the text before [\r\n] and what
    follows it. *)
Lemma header_inv data line rest rest' :
  scan_cr data = (line, rest) → skip_crlf rest = Some rest' →
  data = line ++ cr :: lf :: rest' ∧ cr ∉ line.
Proof.
  intros (-> & ? & Hr)%scan_cr_spec [c ->]%skip_crlf_spec.
  destruct Hr as [|[? [= -> ->]]]; done.
Qed.

Lemma turn_decreases p rest p' rest' :
  rest ≠ [] → parse_turn p rest = Continue p' rest' → measure p' rest' < measure p rest.
Proof.
  intros Hne. unfold parse_turn, measure. destruct (state_ p) eqn:Es; simpl.
  - unfold wait_type. destruct rest as [|c rest]; [done|]. case_bool_decide; [|done].
    intros [= <- <-]. simpl. lia.
  - unfold wait_size. destruct (scan_cr rest) as [line [|c r]] eqn:Ec; [done|].
    destruct (stoi _); [|done..]. destruct (skip_crlf (c :: r)) as [rest''|] eqn:Ek; [|done].
    case_match; [|done]. intros [= <- <-].
    destruct (header_inv _ _ _ _ Ec Ek) as [-> _]. rewrite length_app. simpl. lia.
  - unfold wait_arg_size. destruct rest as [|c rest]; [done|]. case_bool_decide; [|done]. simpl.
    destruct (scan_cr rest) as [line [|c' r]] eqn:Ec; [done|].
    destruct (stoi _); [|done..]. destruct (skip_crlf (c' :: r)) as [rest''|] eqn:Ek; [|done].
    case_match; [|done]. intros [= <- <-].
    destruct (header_inv _ _ _ _ Ec Ek) as [-> _]. rewrite length_app. simpl. lia.
  - unfold wait_arg_data. case_match; [|done]. intros [= <- <-]. simpl.
    rewrite length_drop. lia.
  - unfold wait_crlf. destruct rest as [|c [|n rest]]; [done..|].
    case_match; [|done]. case_match; [done|]. intros [= <- <-]. simpl. lia.
Qed.

(** With enough fuel the loop returns, and the fuel does not matter. *)
Lemma parse_loop_enough f g p rest :
  measure p rest ≤ f → measure p rest ≤ g →
  parse_loop f p rest = parse_loop g p rest ∧ (parse_loop f p rest).1 ≠ Undefined.
Proof.
  revert g p rest. induction f as [|f IH]; intros g p rest Hf Hg.
  { destruct rest; [by destruct g|]. unfold measure in Hf. simpl in Hf. lia. }
  destruct rest as [|c rest]; [by destruct g|].
  destruct g as [|g]; [unfold measure in Hg; simpl in Hg; lia|]. cbn [parse_loop].
  destruct (parse_turn p (c :: rest)) as [p' rest'|r o p'|e p'] eqn:Et; [|done..].
  apply turn_decreases in Et; [|done]. apply IH; lia.
Qed.

(** The loop without its fuel, and its equations. *)
Definition run (p : RespParser) (rest : bytes) : outcome (Result * option bytes) * RespParser :=
  parse_loop (measure p rest) p rest.

Lemma run_nil p : run p [] = (Ok (Partial, Some []), p).
Proof. unfold run. by destruct (measure p []). Qed.

Lemma run_turn p rest :
  rest ≠ [] →
  run p rest =
  match parse_turn p rest with
  | Continue p' rest' => run p' rest'
  | Return r consumed p' => (Ok (r, consumed), p')
  | Raise e p' => (Throw e, p')
  end.
Proof.
  intros Hne. unfold run at 1. destruct (measure p rest) as [|m] eqn:Em.
  { unfold measure in Em. destruct rest; [done|]. simpl in Em. lia. }
  destruct rest as [|c rest]; [done|]. cbn [parse_loop].
  destruct (parse_turn p (c :: rest)) as [p' rest'|r o p'|e p'] eqn:Et; [|done..].
  apply turn_decreases in Et; [|done]. by apply parse_loop_enough; lia.
Qed.

Lemma parse_loop_run p rest : parse_loop (parse_fuel rest) p rest = run p rest.
Proof.
  apply parse_loop_enough; unfold parse_fuel, measure; case_decide; lia.
Qed.

Lemma run_defined p rest : (run p rest).1 ≠ Undefined.
Proof. by eapply (parse_loop_enough _ _ p rest (le_n _) (le_n _)). Qed.

Lemma consume_run data p :
  consume data p =
  match run p data with
  | (Ok (r, consumed), p') => (Ok (r, (λ rest, length data - length rest) <$> consumed), p')
  | (Throw e, p') => (Throw e, p')
  | (Undefined, p') => (Undefined, p')
  end.
Proof. unfold consume. by rewrite parse_loop_run. Qed.

(** ** The wire format *)

(** Arguments as the parser accepts them: any header text [stoi] reads as the
    length of the argument. *)
Inductive wire_args : list string → bytes → Prop :=
  | wire_nil : wire_args [] []
  | wire_cons s a args b :
      cr ∉ s → stoi (string_of_bytes s) = Ok (Z.of_nat (String.length a)) →
      wire_args args b →
      wire_args (a :: args)
        ("$"%char :: s ++ cr :: lf :: bytes_of_string a ++ cr :: lf :: b).

(** A command: a star, the number of arguments, the arguments. *)
Inductive wire (args : list string) : bytes → Prop :=
  | wire_array s b :
      cr ∉ s → stoi (string_of_bytes s) = Ok (Z.of_nat (length args)) →
      wire_args args b → wire args ("*"%char :: s ++ cr :: lf :: b).

(** What a client sends. *)
Fixpoint encode_args (args : list string) : bytes :=
  match args with
  | [] => []
  | a :: args =>
      "$"%char :: to_bytes (Z.of_nat (String.length a)) ++
        cr :: lf :: bytes_of_string a ++ cr :: lf :: encode_args args
  end.

Definition encode (args : list string) : bytes :=
  "*"%char :: to_bytes (Z.of_nat (length args)) ++ cr :: lf :: encode_args args.

(** ** The parser accepts exactly the wire format *)

Lemma uint64_int n : (0 ≤ n ≤ int_max)%Z → uint64 n = n.
Proof. intros. unfold uint64, wrap_u, int_max in *. rewrite Z.mod_small; lia. Qed.

(** [reserve] throws exactly on the negative sizes an [int] can hold. *)
Lemma reserve_ok_int n m :
  (int_min ≤ n ≤ int_max)%Z → (int_max ≤ m < 2 ^ 63)%Z → reserve_ok n m = (0 <=? n)%Z.
Proof.
  intros Hn Hm. unfold reserve_ok. destruct (Z.leb_spec 0 n).
  - rewrite uint64_int by lia. apply Z.leb_le. lia.
  - apply Z.leb_gt. unfold uint64, wrap_u, int_min, int_max in *.
    rewrite <- (Z.mod_unique_pos n (2 ^ 64) (-1) (n + 2 ^ 64)); lia.
Qed.

Lemma max_args_range : (int_max ≤ max_args < 2 ^ 63)%Z.
Proof. by vm_compute. Qed.
Lemma max_string_range : (int_max ≤ max_string < 2 ^ 63)%Z.
Proof. by vm_compute. Qed.

(** The three turns an argument takes. *)
Lemma turn_arg_size args n l cur s m rest :
  cr ∉ s → stoi (string_of_bytes s) = Ok m → (0 ≤ m)%Z →
  parse_turn (mkParser WaitArgSize args n l cur) ("$"%char :: s ++ cr :: lf :: rest) =
    Continue (mkParser WaitArgData args n m []) rest.
Proof.
  intros Hs Hm Hm0. unfold parse_turn. simpl. rewrite scan_cr_line by done. simpl.
  rewrite Hm. apply sto_range in Hm. rewrite reserve_ok_int by (done || apply max_string_range).
  by rewrite (proj2 (Z.leb_le _ _)).
Qed.

Lemma turn_arg_data args n m cur more rest :
  Z.of_nat (length cur + length more) = m → (m ≤ int_max)%Z →
  parse_turn (mkParser WaitArgData args n m cur) (more ++ rest) =
    Continue (mkParser WaitCRLF args n m (cur ++ more)) rest.
Proof.
  intros Hm Hi. unfold parse_turn, wait_arg_data. cbn [state_ current_arg_len_ current_arg_].
  rewrite (uint64_int (m - _)) by lia. rewrite length_app.
  replace (Z.to_nat _) with (length more) by lia.
  rewrite take_app_length, drop_app_length. simpl. rewrite length_app, uint64_int by lia.
  by rewrite (proj2 (Z.eqb_eq _ _)) by lia.
Qed.

Lemma turn_crlf args n m cur rest :
  parse_turn (mkParser WaitCRLF args n m cur) (cr :: lf :: rest) =
  let args' := args ++ [string_of_bytes cur] in
  if (Z.of_nat (length args') =? uint64 n)%Z
  then Return Complete (Some rest) (mkParser WaitCRLF args' n m cur)
  else Continue (mkParser WaitArgSize args' n m cur) rest.
Proof. done. Qed.

Lemma run_arg args n l cur s a rest :
  cr ∉ s → stoi (string_of_bytes s) = Ok (Z.of_nat (String.length a)) →
  run (mkParser WaitArgSize args n l cur)
    ("$"%char :: s ++ cr :: lf :: bytes_of_string a ++ cr :: lf :: rest) =
  let m := Z.of_nat (String.length a) in
  if (Z.of_nat (length args + 1) =? uint64 n)%Z
  then (Ok (Complete, Some rest), mkParser WaitCRLF (args ++ [a]) n m (bytes_of_string a))
  else run (mkParser WaitArgSize (args ++ [a]) n m (bytes_of_string a)) rest.
Proof.
  intros Hs Ha. pose proof (sto_range _ _ _ _ _ Ha) as Hr.
  rewrite run_turn by done. erewrite turn_arg_size by (done || lia).
  rewrite run_turn by (by destruct (bytes_of_string a)).
  rewrite (turn_arg_data _ _ _ [] (bytes_of_string a))
    by (rewrite ?length_bytes_of_string; simpl; lia).
  rewrite run_turn, turn_crlf by done. cbn zeta.
  rewrite app_nil_l, string_of_bytes_of_string, length_app. cbn [length].
  by destruct (_ =? _)%Z.
Qed.

Lemma run_args todo b : wire_args todo b → ∀ args n l cur rest,
  todo ≠ [] → n = Z.of_nat (length (args ++ todo)) → (n ≤ int_max)%Z →
  ∃ l' cur', run (mkParser WaitArgSize args n l cur) (b ++ rest) =
    (Ok (Complete, Some rest), mkParser WaitCRLF (args ++ todo) n l' cur').
Proof.
  induction 1 as [|s a todo b Hs Ha Hw IH]; intros args n l cur rest Hne Hn Hi; [done|].
  simpl. rewrite <- app_assoc. simpl. rewrite <- app_assoc. simpl.
  rewrite run_arg by done. cbn zeta. rewrite uint64_int by lia.
  rewrite length_app in Hn. simpl in Hn. destruct todo as [|a' todo].
  - rewrite (proj2 (Z.eqb_eq _ _)) by (simpl in *; lia). simpl.
    inversion Hw. by eexists _, _.
  - rewrite (proj2 (Z.eqb_neq _ _)) by (simpl in *; lia).
    destruct (IH (args ++ [a]) n (Z.of_nat (String.length a)) (bytes_of_string a) rest)
      as (l' & cur' & ->); [done|rewrite !length_app; simpl in *; lia|done|].
    exists l', cur'. by rewrite <- app_assoc.
Qed.

Lemma turn_size args n0 l cur s n rest :
  cr ∉ s → stoi (string_of_bytes s) = Ok n → (0 ≤ n)%Z →
  parse_turn (mkParser WaitSize args n0 l cur) (s ++ cr :: lf :: rest) =
    Continue (mkParser WaitArgSize args n l cur) rest.
Proof.
  intros Hs Hn Hn0. unfold parse_turn. simpl. unfold wait_size.
  rewrite scan_cr_line by done. simpl.
  rewrite Hn. apply sto_range in Hn. rewrite reserve_ok_int by (done || apply max_args_range).
  by rewrite (proj2 (Z.leb_le _ _)).
Qed.

(** Every command in wire format is parsed, whatever follows it. *)
Lemma wire_parsed args b rest :
  wire args b → args ≠ [] →
  ∃ l cur, run reset (b ++ rest) =
    (Ok (Complete, Some rest), mkParser WaitCRLF args (Z.of_nat (length args)) l cur).
Proof.
  intros [s b' Hs Hn Hw] Hne. simpl. rewrite <- app_assoc. simpl.
  pose proof (sto_range _ _ _ _ _ Hn) as Hr.
  rewrite run_turn by done. unfold parse_turn. simpl. unfold set_state; simpl.
  rewrite run_turn by (by destruct s). erewrite turn_size by (done || lia).
  destruct (run_args args b' Hw [] (Z.of_nat (length args)) 0%Z [] rest)
    as (l & cur & ->); [done|done|lia|]. by eexists _, _.
Qed.

(** Conversely, the turns an accepted argument must have taken. *)
Lemma turn_arg_size_inv args n l cur data p' rest :
  parse_turn (mkParser WaitArgSize args n l cur) data = Continue p' rest →
  ∃ s m, data = "$"%char :: s ++ cr :: lf :: rest ∧ (cr ∉ s) ∧
    stoi (string_of_bytes s) = Ok m ∧ (0 ≤ m ≤ int_max)%Z ∧
    p' = mkParser WaitArgData args n m [].
Proof.
  unfold parse_turn; simpl. unfold wait_arg_size. destruct data as [|c data]; [done|].
  case_bool_decide as Hc; [|done]. simpl.
  destruct (scan_cr data) as [line [|c' r]] eqn:Ec; [done|].
  destruct (stoi _) as [m| |] eqn:Em; [|done..].
  destruct (skip_crlf (c' :: r)) as [rest''|] eqn:Ek; [|done].
  pose proof (sto_range _ _ _ _ _ Em) as Hm.
  rewrite reserve_ok_int by (done || apply max_string_range).
  destruct (Z.leb_spec 0 m); [|done]. intros [= <- <-].
  destruct (header_inv _ _ _ _ Ec Ek) as [-> ?]. subst c.
  exists line, m. split_and!; try done; lia.
Qed.

Lemma turn_arg_data_inv args n m rest p' rest' :
  (0 ≤ m ≤ int_max)%Z →
  parse_turn (mkParser WaitArgData args n m []) rest = Continue p' rest' →
  ∃ a, rest = a ++ rest' ∧ Z.of_nat (length a) = m ∧ p' = mkParser WaitCRLF args n m a.
Proof.
  intros Hm. unfold parse_turn, wait_arg_data. simpl. rewrite !uint64_int by lia.
  set (k := Z.to_nat _). destruct (Z.eqb_spec (Z.of_nat (length (take k rest))) m) as [Hk|];
    [|done].
  intros [= <- <-]. exists (take k rest). by rewrite take_drop.
Qed.

(** A run that completes reads an argument first. *)
Lemma run_arg_inv data args n l cur c p' :
  run (mkParser WaitArgSize args n l cur) data = (Ok (Complete, c), p') →
  ∃ s a rest, data = "$"%char :: s ++ cr :: lf :: bytes_of_string a ++ cr :: lf :: rest ∧
    (cr ∉ s) ∧ stoi (string_of_bytes s) = Ok (Z.of_nat (String.length a)).
Proof.
  intros E. destruct (decide (data = [])) as [->|Hne]; [by rewrite run_nil in E|].
  rewrite run_turn in E by done.
  destruct (parse_turn _ data) as [p1 d1|r o p1|e p1] eqn:E1; [|exfalso|done].
  2:{ unfold parse_turn in E1. simpl in E1. unfold wait_arg_size in E1.
      injection E as -> -> ->. repeat case_match; done. }
  destruct (turn_arg_size_inv _ _ _ _ _ _ _ E1) as (s & m & -> & Hs & Hm & Hr & ->).
  destruct (decide (d1 = [])) as [->|Hne1]; [by rewrite run_nil in E|].
  rewrite run_turn in E by done.
  destruct (parse_turn _ d1) as [p2 d2|r o p2|e p2] eqn:E2; [|exfalso|done].
  2:{ unfold parse_turn in E2. simpl in E2. unfold wait_arg_data in E2.
      injection E as -> -> ->. repeat case_match; done. }
  destruct (turn_arg_data_inv _ _ _ _ _ _ Hr E2) as (a & -> & Ha & ->).
  destruct (decide (d2 = [])) as [->|Hne2]; [by rewrite run_nil in E|].
  rewrite run_turn in E by done. unfold parse_turn in E; simpl in E. unfold wait_crlf in E.
  destruct d2 as [|c1 [|c2 d2]]; [done..|].
  case_bool_decide as H1; [|done]. case_bool_decide as H2; [|done]. subst c1 c2.
  exists s, (string_of_bytes a), d2.
  by rewrite bytes_of_string_of_bytes, length_string_of_bytes, Ha.
Qed.

Lemma run_args_inv data : ∀ args n l cur c p',
  run (mkParser WaitArgSize args n l cur) data = (Ok (Complete, c), p') →
  ∃ todo b rest, data = b ++ rest ∧ wire_args todo b ∧ todo ≠ [] ∧ c = Some rest ∧
    args_ p' = args ++ todo ∧ Z.of_nat (length (args ++ todo)) = uint64 n.
Proof.
  induction data as [data IH] using (induction_ltof1 _ length); unfold ltof in IH.
  intros args n l cur c p' E.
  destruct (run_arg_inv _ _ _ _ _ _ _ E) as (s & a & rest & -> & Hs & Ha).
  rewrite run_arg in E by done. cbn zeta in E.
  destruct (Z.eqb_spec (Z.of_nat (length args + 1)) (uint64 n)) as [Hl|_].
  - injection E as <- <-. eexists [a], _, rest.
    split_and!; [|by apply (wire_cons s); [..|constructor]|done..|by rewrite length_app].
    by rewrite <- !app_comm_cons, <- app_assoc, <- !app_comm_cons, <- app_assoc.
  - destruct (IH rest) with (2 := E) as (todo & b & rest' & -> & Hb & _ & -> & -> & Hlen);
      [simpl; rewrite length_app; simpl; rewrite length_app; simpl; lia|].
    rewrite <- app_assoc in Hlen |- *. eexists (a :: todo), _, rest'.
    split_and!; [|by apply (wire_cons s)|done..].
    by rewrite <- !app_comm_cons, <- app_assoc, <- !app_comm_cons, <- app_assoc.
Qed.

(** What a fresh parser accepts is a command in wire format. *)
Lemma parsed_wire data c p' :
  run reset data = (Ok (Complete, c), p') →
  ∃ b rest, data = b ++ rest ∧ wire (args_ p') b ∧ args_ p' ≠ [] ∧ c = Some rest.
Proof.
  intros E. destruct (decide (data = [])) as [->|Hne]; [by rewrite run_nil in E|].
  rewrite run_turn in E by done. unfold parse_turn in E. simpl in E.
  destruct data as [|c0 data]; [done|]. simpl in E. case_bool_decide as H0; [|done]. subst c0.
  destruct (decide (data = [])) as [->|Hne']; [by rewrite run_nil in E|].
  rewrite run_turn in E by done. unfold parse_turn in E. simpl in E. unfold wait_size in E.
  destruct (scan_cr data) as [line [|c' r]] eqn:Ec; [done|].
  destruct (stoi _) as [n| |] eqn:En; [|done..].
  destruct (skip_crlf (c' :: r)) as [rest''|] eqn:Ek; [|done].
  pose proof (sto_range _ _ _ _ _ En) as Hn.
  rewrite reserve_ok_int in E by (done || apply max_args_range).
  destruct (Z.leb_spec 0 n); [|done].
  destruct (header_inv _ _ _ _ Ec Ek) as [-> ?].
  destruct (run_args_inv _ _ _ _ _ _ _ E) as (todo & b & rest & -> & Hb & Hne0 & -> & Ha & Hlen).
  simpl in Ha, Hlen. rewrite Ha. rewrite uint64_int in Hlen by lia.
  eexists _, rest. split_and!; [|constructor; [done| |exact Hb]|done|done].
  - by rewrite <- app_comm_cons, <- app_assoc, <- !app_comm_cons.
  - by rewrite Hlen.
Qed.

(** *** The client's encoding *)

Lemma encode_wire_args args :
  Forall (λ a, (Z.of_nat (String.length a) ≤ int_max)%Z) args → wire_args args (encode_args args).
Proof.
  induction 1 as [|a args Ha _ IH]; simpl; constructor; [apply to_bytes_no_cr| |done].
  apply stoi_to_string. unfold int_min. lia.
Qed.

Lemma encode_wire args :
  (Z.of_nat (length args) ≤ int_max)%Z →
  Forall (λ a, (Z.of_nat (String.length a) ≤ int_max)%Z) args → wire args (encode args).
Proof.
  intros Hn Ha. constructor; [apply to_bytes_no_cr| |by apply encode_wire_args].
  apply stoi_to_string. unfold int_min. lia.
Qed.

(** ** Resuming *)

(** The argument under way fits in its announced length. *)
Definition parser_ok (p : RespParser) : Prop :=
  state_ p = WaitArgData →
  (Z.of_nat (length (current_arg_ p)) ≤ current_arg_len_ p ≤ int_max)%Z.

Lemma reset_ok : parser_ok reset.
Proof. done. Qed.

Lemma scan_cr_app a b line rest :
  scan_cr a = (line, rest) → rest ≠ [] → scan_cr (a ++ b) = (line, rest ++ b).
Proof.
  intros (-> & Hl & [->|[r ->]])%scan_cr_spec Hne; [done|].
  rewrite <- app_assoc. simpl. by apply scan_cr_line.
Qed.

Lemma skip_crlf_app rest b r : skip_crlf rest = Some r → skip_crlf (rest ++ b) = Some (r ++ b).
Proof. intros [c ->]%skip_crlf_spec. done. Qed.

Lemma arg_data_turn args n l cur rest :
  parser_ok (mkParser WaitArgData args n l cur) →
  let need := Z.to_nat l - length cur in
  wait_arg_data (mkParser WaitArgData args n l cur) rest =
  if decide (need ≤ length rest)
  then Continue (mkParser WaitCRLF args n l (cur ++ take need rest)) (drop need rest)
  else Return Partial (Some []) (mkParser WaitArgData args n l (cur ++ rest)).
Proof.
  intros Hok need. specialize (Hok eq_refl). simpl in Hok. unfold wait_arg_data. simpl.
  rewrite (uint64_int (l - _)), (uint64_int l) by lia. case_decide as Hn.
  - replace (Z.to_nat _) with need by lia. rewrite length_app, length_take.
    by rewrite (proj2 (Z.eqb_eq _ _)) by lia.
  - replace (Z.to_nat _) with (length rest) by lia. rewrite firstn_all, length_app.
    by rewrite (proj2 (Z.eqb_neq _ _)) by lia.
Qed.

(** A turn that goes on or that uses up its bytes keeps the parser well formed. *)
Lemma turn_ok p rest p' rest' :
  parser_ok p → parse_turn p rest = Continue p' rest' → parser_ok p'.
Proof.
  intros Hok. destruct p as [[] args n l cur]; unfold parse_turn; simpl.
  - unfold wait_type. repeat case_match; try done. by intros [= <- <-].
  - unfold wait_size. repeat case_match; try done; by intros [= <- <-].
  - intros E. destruct (turn_arg_size_inv args n l cur _ _ _ E) as (s & m & _ & _ & _ & Hm & ->).
    by intros _.
  - rewrite arg_data_turn by done. case_decide; [|done]. by intros [= <- <-].
  - unfold wait_crlf. repeat case_match; try done. by intros [= <- <-].
Qed.

Lemma turn_app_continue p a b p' rest :
  parser_ok p → parse_turn p a = Continue p' rest →
  parse_turn p (a ++ b) = Continue p' (rest ++ b).
Proof.
  intros Hok. destruct p as [[] args n l cur]; unfold parse_turn; simpl.
  - unfold wait_type. destruct a; [done|]. simpl. case_bool_decide; [|done]. by intros [= <- <-].
  - unfold wait_size. destruct (scan_cr a) as [line [|c r]] eqn:Ec; [done|].
    erewrite scan_cr_app by done. destruct (stoi _); [|done..].
    destruct (skip_crlf (c :: r)) as [r'|] eqn:Ek; [|done].
    rewrite (skip_crlf_app _ b _ Ek). simpl. case_match; [|done]. by intros [= <- <-].
  - unfold wait_arg_size. destruct a as [|c0 a]; [done|]. simpl.
    case_bool_decide; [|done]. simpl.
    destruct (scan_cr a) as [line [|c r]] eqn:Ec; [done|].
    erewrite scan_cr_app by done. destruct (stoi _); [|done..].
    destruct (skip_crlf (c :: r)) as [r'|] eqn:Ek; [|done].
    rewrite (skip_crlf_app _ b _ Ek). simpl. case_match; [|done]. by intros [= <- <-].
  - rewrite !arg_data_turn by done. case_decide as Hn; [|done]. intros [= <- <-].
    rewrite decide_True by (rewrite length_app; lia).
    by rewrite take_app_le, drop_app_le by lia.
  - unfold wait_crlf. destruct a as [|c1 [|c2 a]]; [done..|]. simpl.
    case_match; [|done]. case_match; [done|]. by intros [= <- <-].
Qed.

(** Only an incomplete argument uses up a non-empty buffer and returns. *)
Lemma turn_used_up p a p' :
  a ≠ [] → parser_ok p → parse_turn p a = Return Partial (Some []) p' →
  ∃ args n l cur, p = mkParser WaitArgData args n l cur ∧
    p' = mkParser WaitArgData args n l (cur ++ a) ∧ length a < Z.to_nat l - length cur.
Proof.
  intros Hne Hok. destruct p as [[] args n l cur]; unfold parse_turn; simpl.
  - unfold wait_type. repeat case_match; done.
  - unfold wait_size. repeat case_match; try done. intros [= -> ->]. done.
  - unfold wait_arg_size. repeat case_match; done.
  - rewrite arg_data_turn by done. case_decide; [done|]. intros [= <-].
    exists args, n, l, cur. split_and!; [done..|lia].
  - unfold wait_crlf. repeat case_match; try done; intros [= -> ->]; done.
Qed.

(** What the buffer [a] leaves undone, [b] continues, as long as [a] was used up:
    the parser's state carries everything it has seen. *)
Lemma run_resume a b : ∀ p p',
  parser_ok p → run p a = (Ok (Partial, Some []), p') → run p (a ++ b) = run p' b.
Proof.
  intros p. remember (measure p a) as m eqn:Em. revert p a Em.
  induction m as [m IH] using lt_wf_ind. intros p a -> p' Hok E.
  destruct (decide (a = [])) as [->|Hne].
  { rewrite run_nil in E. by injection E as <-. }
  destruct (decide (b = [])) as [->|Hb].
  { by rewrite app_nil_r, run_nil, E. }
  rewrite run_turn in E by done. rewrite run_turn by by destruct a.
  destruct (parse_turn p a) as [p1 a1|r o p1|e p1] eqn:Et; [| |done].
  - pose proof (turn_decreases _ _ _ _ Hne Et). rewrite (turn_app_continue _ _ _ _ _ Hok Et).
    eapply IH; [done|done|by eapply turn_ok|done].
  - injection E as -> -> ->. destruct (turn_used_up _ _ _ Hne Hok Et)
      as (args & n & l & cur & -> & -> & Hlt).
    assert (parser_ok (mkParser WaitArgData args n l (cur ++ a))) as Hok'.
    { intros _. specialize (Hok eq_refl). simpl in *. rewrite length_app. lia. }
    rewrite (run_turn _ b) by done. unfold parse_turn. cbn [state_].
    rewrite !arg_data_turn, !length_app by done.
    destruct (decide (Z.to_nat l - (length cur + length a) ≤ length b)) as [Hd|Hd].
    + rewrite decide_True by lia. rewrite take_app_ge, drop_app_ge by lia.
      rewrite app_assoc. by replace (Z.to_nat l - length cur - length a)
        with (Z.to_nat l - (length cur + length a)) by lia.
    + rewrite decide_False by lia. by rewrite app_assoc.
Qed.

(** The turns that return keep the invariant too, and leave bytes of the buffer. *)
Local Ltac ret_post := split; [done|intros unread ?; simplify_eq/=; lia].

Lemma turn_return p rest r c p' :
  parser_ok p → parse_turn p rest = Return r c p' →
  parser_ok p' ∧ (∀ unread, c = Some unread → length unread ≤ length rest).
Proof.
  intros Hok. destruct p as [[] args n l cur]; unfold parse_turn; simpl.
  - unfold wait_type. repeat case_match; try done; intros [= <- <- <-]; by ret_post.
  - unfold wait_size. repeat case_match; try done; intros [= <- <- <-]; by ret_post.
  - unfold wait_arg_size. repeat case_match; try done; intros [= <- <- <-]; by ret_post.
  - rewrite arg_data_turn by done. case_decide; [done|]. intros [= <- <- <-]. split.
    + intros _. specialize (Hok eq_refl). simpl in *. rewrite length_app. lia.
    + intros unread [= <-]. simpl. lia.
  - unfold wait_crlf. destruct rest as [|c1 [|c2 rest]].
    1,2: intros [= <- <- <-]; by ret_post.
    repeat case_match; try done; intros [= <- <- <-]; by ret_post.
Qed.

Lemma turn_raise p rest e p' :
  parse_turn p rest = Raise e p' → parser_ok p' ∧ ∃ s, e = length_error s.
Proof.
  destruct p as [[] args n l cur]; unfold parse_turn; simpl.
  - unfold wait_type. repeat case_match; done.
  - unfold wait_size. repeat case_match; try done; intros [= <- <-]; (split; [done|by eauto]).
  - unfold wait_arg_size. repeat case_match; try done; intros [= <- <-]; (split; [done|by eauto]).
  - unfold wait_arg_data. repeat case_match; done.
  - unfold wait_crlf. repeat case_match; done.
Qed.

(** One call: the invariant is kept, [consumed] stays within the buffer, and the
    only exception is the failed reservation. *)
Lemma run_post data : ∀ p, parser_ok p →
  parser_ok (run p data).2 ∧
  match (run p data).1 with
  | Ok (_, Some unread) => length unread ≤ length data
  | Ok (_, None) => True
  | Throw e => ∃ s, e = length_error s
  | Undefined => False
  end.
Proof.
  intros p. remember (measure p data) as m eqn:Em. revert p data Em.
  induction m as [m IH] using lt_wf_ind. intros p data -> Hok.
  destruct (decide (data = [])) as [->|Hne]; [rewrite run_nil; simpl; by auto with lia|].
  rewrite run_turn by done.
  destruct (parse_turn p data) as [p1 d1|r o p1|e p1] eqn:Et.
  - pose proof (turn_decreases _ _ _ _ Hne Et) as Hm.
    destruct (IH _ Hm p1 d1 eq_refl (turn_ok _ _ _ _ Hok Et)) as [H1 H2]. split; [done|].
    assert (length d1 ≤ length data) by (unfold measure in Hm; repeat case_decide; lia).
    destruct (run p1 d1).1 as [[r [unread|]]|e|]; try done. lia.
  - destruct (turn_return _ _ _ _ _ Hok Et) as [? Hl]. split; [done|]. simpl.
    destruct o; [by apply Hl|done].
  - by destruct (turn_raise _ _ _ _ Et).
Qed.

(** ** Properties *)

(** C25. [consume] always returns: from any parser whose argument under way fits
    its announced length, one call on any buffer keeps that invariant, writes a
    [consumed] that lies within the buffer, and can throw nothing but the
    [length_error] of a failed reservation. *)
Theorem consume_safe data p :
  parser_ok p →
  parser_ok (consume data p).2 ∧
  match (consume data p).1 with
  | Ok (_, Some consumed) => consumed ≤ length data
  | Ok (_, None) => True
  | Throw e => ∃ s, e = length_error s
  | Undefined => False
  end.
Proof.
  intros Hok. rewrite consume_run. destruct (run_post data p Hok) as [H1 H2].
  destruct (run p data) as [[[r [unread|]]|e|] p']; simpl in *; split; try done. lia.
Qed.

Definition bad_chunk : bytes := bytes_of_string ("*2" +:+ crlf +:+ "$3" +:+ crlf +:+ "GE").

Lemma consume_safe_witness :
  parser_ok reset ∧ parser_ok (consume bad_chunk reset).2.
Proof. split; [exact reset_ok|exact (proj1 (consume_safe bad_chunk reset reset_ok))]. Defined.

(** C12. A fresh parser completes on a buffer exactly when the buffer starts with a
    non-empty command in RESP wire format; it then holds the command's
    arguments, and [consumed] is the length of the command. *)
Theorem consume_complete_iff data args n :
  (∃ p', consume data reset = (Ok (Complete, Some n), p') ∧ args_ p' = args) ↔
  args ≠ [] ∧ ∃ b rest, data = b ++ rest ∧ wire args b ∧ n = length b.
Proof.
  setoid_rewrite consume_run. split.
  - intros (p' & E & <-). destruct (run reset data) as [[[r c]|e|] q] eqn:Er; [|done..].
    injection E as -> Ec ->. destruct (parsed_wire _ _ _ Er) as (b & rest & -> & Hw & Hne & ->).
    split; [done|]. exists b, rest. split_and!; [done..|].
    injection Ec as <-. rewrite length_app. lia.
  - intros (Hne & b & rest & -> & Hw & ->).
    destruct (wire_parsed args b rest Hw Hne) as (l & cur & ->).
    exists (mkParser WaitCRLF args (Z.of_nat (length args)) l cur). split; [|done].
    simpl. do 4 f_equal. rewrite length_app. lia.
Qed.

(** C26. Round trip: what a client sends for a non-empty argument list, each
    argument within [int], is parsed back to that list, whatever bytes follow. *)
Theorem parse_encode args rest :
  args ≠ [] → (Z.of_nat (length args) ≤ int_max)%Z →
  Forall (λ a, (Z.of_nat (String.length a) ≤ int_max)%Z) args →
  ∃ p', consume (encode args ++ rest) reset = (Ok (Complete, Some (length (encode args))), p') ∧
    args_ p' = args.
Proof.
  intros Hne Hn Ha. rewrite consume_run.
  destruct (wire_parsed args (encode args) rest (encode_wire args Hn Ha) Hne) as (l & cur & ->).
  exists (mkParser WaitCRLF args (Z.of_nat (length args)) l cur). split; [|done].
  simpl. do 4 f_equal. rewrite length_app. lia.
Qed.

Lemma parse_encode_witness :
  ∃ p', consume (encode ["SET"; "k"; ""] ++ bytes_of_string "tail") reset =
          (Ok (Complete, Some (length (encode ["SET"; "k"; ""]))), p') ∧
        args_ p' = ["SET"; "k"; ""].
Proof.
  apply (parse_encode ["SET"; "k"; ""] (bytes_of_string "tail"));
    [done|by vm_compute|by repeat constructor].
Defined.

(** C27. A buffer that is used up can be continued: parsing the next buffer from
    the state left behind gives what parsing the two as one buffer gives. *)
Theorem consume_resume a b p p' :
  parser_ok p → consume a p = (Ok (Partial, Some (length a)), p') →
  consume (a ++ b) p =
  match consume b p' with
  | (Ok (r, consumed), q) => (Ok (r, (λ n, length a + n) <$> consumed), q)
  | (Throw e, q) => (Throw e, q)
  | (Undefined, q) => (Undefined, q)
  end.
Proof.
  intros Hok E. rewrite !consume_run in *.
  destruct (run_post a p Hok) as [Hok' Hl].
  destruct (run p a) as [[[r [unread|]]|e|] q] eqn:Er; try done. simpl in *.
  injection E as -> Hc ->. assert (unread = []) as -> by (apply length_zero_iff_nil; lia).
  rewrite (run_resume a b p p' Hok Er). pose proof (run_post b p' Hok') as [_ Hb].
  destruct (run p' b) as [[[r [unread|]]|e|] q]; simpl in *; try done.
  rewrite length_app. repeat f_equal. lia.
Qed.

Lemma consume_resume_witness :
  ∃ p', consume bad_chunk reset = (Ok (Partial, Some (length bad_chunk)), p') ∧
    consume (bad_chunk ++ bytes_of_string ("T" +:+ crlf +:+ "$1" +:+ crlf +:+ "k" +:+ crlf)) reset
    = match consume (bytes_of_string ("T" +:+ crlf +:+ "$1" +:+ crlf +:+ "k" +:+ crlf)) p' with
      | (Ok (r, consumed), q) => (Ok (r, (λ n, length bad_chunk + n) <$> consumed), q)
      | (Throw e, q) => (Throw e, q)
      | (Undefined, q) => (Undefined, q)
      end.
Proof.
  eexists. split; [by vm_compute|]. apply consume_resume; [apply reset_ok|by vm_compute].
Defined.

(** A negative array size is answered by an exception, not by the result [Error]:
    the [reserve] call lies outside the [try]. *)
Lemma negative_size_throws n rest :
  (int_min ≤ n < 0)%Z →
  consume ("*"%char :: to_bytes n ++ cr :: lf :: rest) reset =
    (Throw (length_error "vector::reserve"), mkParser WaitSize [] n 0 []).
Proof.
  intros Hn. rewrite consume_run, run_turn by done. unfold parse_turn. simpl.
  rewrite run_turn by (by destruct (to_bytes n)). unfold parse_turn. simpl. unfold wait_size.
  rewrite scan_cr_line by apply to_bytes_no_cr. simpl.
  fold (to_string n). rewrite stoi_to_string by (unfold int_max in *; lia).
  rewrite reserve_ok_int by (apply max_args_range || (unfold int_max in *; lia)).
  by rewrite (proj2 (Z.leb_gt _ _)) by lia.
Qed.
