(* ===== verification/UringStub.v ===== *)
(** * The in-tree io_uring stand-in (include/stub/liburing.h)

    A fixed vector of submission slots, a queue of submitted requests, and a
    queue of completions.  The operating system is an argument: each turn of the
    polling loop gets a [round], which says what [select] answered and what the
    system calls made for the ready requests returned.  The user data and the
    buffer addresses are left abstract. *)
From S2P Require Import Prelude.
From Stdlib Require Import ZArith Lia.
From stdpp Require Import prelude list_numbers.

Inductive opcode_t := IORING_OP_ACCEPT | IORING_OP_READ | IORING_OP_WRITE.
#[export] Instance opcode_eq_dec : EqDecision opcode_t.
Proof. solve_decision. Defined.

(** A slot; a null [user_data] or address is [None]. *)
Record io_uring_sqe (U A : Type) := mkSqe {
  user_data : option U;
  opcode : opcode_t;
  fd : Z;
  addr : option A;
  len : Z;
  active : bool
}.
Arguments mkSqe {U A}.
Arguments user_data {U A}.
Arguments opcode {U A}.
Arguments fd {U A}.
Arguments addr {U A}.
Arguments len {U A}.
Arguments active {U A}.

Record io_uring_cqe (U : Type) := mkCqe { cqe_data : option U; res : Z }.
Arguments mkCqe {U}.
Arguments cqe_data {U}.
Arguments res {U}.

Record io_uring (U A : Type) := mkRing {
  sqes : list (io_uring_sqe U A);
  pending_sqes : list (io_uring_sqe U A);
  cqes : list (io_uring_cqe U);
  entries : nat
}.
Arguments mkRing {U A}.
Arguments sqes {U A}.
Arguments pending_sqes {U A}.
Arguments cqes {U A}.
Arguments entries {U A}.

(** What the operating system answers in one turn of the polling loop. *)
Inductive sys_result := SysOk (n : Z) | SysErr (errno : Z).
Record round := mkRound {
  select_error : option Z;          (* [errno] of a failed [select] *)
  readable : Z → bool;
  writable : Z → bool;
  sys_call : nat → sys_result       (* for the request at this position *)
}.

Definition EINTR : Z := 4.
Definition EBADF : Z := 9.
Definition EAGAIN : Z := 35.        (* also [EWOULDBLOCK] *)

Section ring.
Context {U A : Type}.
Abbreviation sqe := (io_uring_sqe U A).
Abbreviation cqe := (io_uring_cqe U).
Abbreviation ring := (io_uring U A).

Definition empty_sqe : sqe := mkSqe None IORING_OP_ACCEPT 0 None 0 false.

Definition io_uring_queue_init (n : nat) : ring := mkRing (replicate n empty_sqe) [] [] n.

Definition set_slots (r : ring) (s : list sqe) : ring :=
  mkRing s (pending_sqes r) (cqes r) (entries r).
Definition set_active (s : sqe) (b : bool) : sqe :=
  mkSqe (user_data s) (opcode s) (fd s) (addr s) (len s) b.

(** The first free slot, marked as taken; the slot's index is its pointer. *)
Fixpoint take_slot (s : list sqe) : option (nat * list sqe) :=
  match s with
  | [] => None
  | x :: s' =>
      if active x then (λ '(i, s''), (S i, x :: s'')) <$> take_slot s'
      else Some (0, set_active x true :: s')
  end.

Definition io_uring_get_sqe (r : ring) : option nat * ring :=
  match take_slot (sqes r) with
  | Some (i, s) => (Some i, set_slots r s)
  | None => (None, r)
  end.

(** Writes through the pointer [i]. *)
Definition alter_slot (f : sqe → sqe) (r : ring) (i : nat) : ring :=
  set_slots r (alter f i (sqes r)).

Definition io_uring_sqe_set_data (r : ring) (i : nat) (data : U) : ring :=
  alter_slot (λ s, mkSqe (Some data) (opcode s) (fd s) (addr s) (len s) (active s)) r i.
Definition io_uring_prep_accept (r : ring) (i : nat) (f : Z) (a : option A) : ring :=
  alter_slot (λ s, mkSqe (user_data s) IORING_OP_ACCEPT f a (len s) (active s)) r i.
Definition io_uring_prep_read (r : ring) (i : nat) (f : Z) (buf : A) (nbytes : Z) : ring :=
  alter_slot (λ s, mkSqe (user_data s) IORING_OP_READ f (Some buf) (uint32 nbytes) (active s)) r i.
Definition io_uring_prep_write (r : ring) (i : nat) (f : Z) (buf : A) (nbytes : Z) : ring :=
  alter_slot (λ s, mkSqe (user_data s) IORING_OP_WRITE f (Some buf) (uint32 nbytes) (active s)) r i.

(** [io_uring_submit]: active slots are queued in slot order and freed. *)
Definition io_uring_submit (r : ring) : ring * nat :=
  let act := filter (λ s, active s = true) (sqes r) in
  (mkRing ((λ s, if active s then set_active s false else s) <$> sqes r)
     (pending_sqes r ++ act) (cqes r) (entries r), length act).

(** One pass over the pending requests after [select]: [pos] is the position of
    the first of [l]. *)
Definition ready (rd : round) (s : sqe) : bool :=
  match opcode s with
  | IORING_OP_READ | IORING_OP_ACCEPT => readable rd (fd s)
  | IORING_OP_WRITE => writable rd (fd s)
  end.

Definition attempt (rd : round) (pos : nat) (s : sqe) : option Z :=
  if ready rd s then
    match sys_call rd pos with
    | SysOk n => Some n
    | SysErr e => if (e =? EAGAIN)%Z then None else Some (- e)%Z
    end
  else None.

Fixpoint check_pending (rd : round) (pos : nat) (l : list sqe) : list sqe * list cqe :=
  match l with
  | [] => ([], [])
  | s :: l' =>
      let '(keep, done) := check_pending rd (S pos) l' in
      match attempt rd pos s with
      | Some n => (keep, mkCqe (user_data s) n :: done)
      | None => (s :: keep, done)
      end
  end.

(** [while (ring->cqes.size() < wait_nr)] with [wait_nr > 0], over the rounds the
    system plays; [None] while it is still waiting when they end.  Descriptors are
    below [FD_SETSIZE]: the source does not check, and a larger one would make
    [FD_SET] write past the set. *)
Fixpoint wait_loop (rounds : list round) (wait_nr : nat) (r : ring) : option ring :=
  if wait_nr <=? length (cqes r) then Some r else
  match rounds with
  | [] => None
  | rd :: rounds' =>
      match pending_sqes r with
      | [] => wait_loop rounds' wait_nr r        (* [usleep], [continue] *)
      | _ =>
          match select_error rd with
          | Some e => if (e =? EINTR)%Z then wait_loop rounds' wait_nr r else Some r
          | None =>
              let '(keep, done) := check_pending rd 0 (pending_sqes r) in
              wait_loop rounds' wait_nr (mkRing (sqes r) keep (cqes r ++ done) (entries r))
          end
      end
  end.

Definition io_uring_submit_and_wait (rounds : list round) (wait_nr : nat) (r : ring) : option ring :=
  wait_loop rounds wait_nr (io_uring_submit r).1.

Definition io_uring_cq_advance (r : ring) (count : nat) : ring :=
  mkRing (sqes r) (pending_sqes r) (drop count (cqes r)) (entries r).

(** ** Slots *)

Lemma take_slot_spec s :
  match take_slot s with
  | Some (i, s') => ∃ x, s !! i = Some x ∧ active x = false ∧
      s' = <[i := set_active x true]> s ∧
      ∀ j y, j < i → s !! j = Some y → active y = true
  | None => Forall (λ x, active x = true) s
  end.
Proof.
  induction s as [|x s IH]; simpl; [constructor|].
  destruct (active x) eqn:Ea; simpl.
  - destruct (take_slot s) as [[i s']|]; simpl; [|by constructor].
    destruct IH as (y & Hy & Hn & -> & Hb). exists y. split_and!; [done..|].
    intros [|j] z Hj Hz; simpl in *; [congruence|]. eapply Hb; [|done]. lia.
  - exists x. split_and!; try done. intros; lia.
Qed.

Lemma submit_frees r : Forall (λ s, active s = false) (sqes (io_uring_submit r).1).
Proof.
  simpl. apply Forall_fmap, Forall_forall. intros s _. simpl. by destruct (active s) eqn:E.
Qed.

Lemma submit_length r : length (sqes (io_uring_submit r).1) = length (sqes r).
Proof. simpl. by rewrite length_fmap. Qed.

(** ** Requests are neither lost nor duplicated *)

(** The user data of everything in the ring: prepared, submitted, completed. *)
Definition in_flight (r : ring) : list (option U) :=
  (user_data <$> filter (λ s, active s = true) (sqes r)) ++
  (user_data <$> pending_sqes r) ++ (cqe_data <$> cqes r).

Lemma filter_inactive (l : list sqe) :
  Forall (λ s, active s = false) l → filter (λ s, active s = true) l = [].
Proof.
  induction 1 as [|s l Hs _ IH]; [done|]. rewrite filter_cons_False by congruence. done.
Qed.

Lemma submit_in_flight r : in_flight (io_uring_submit r).1 ≡ₚ in_flight r.
Proof.
  unfold in_flight. rewrite filter_inactive by apply submit_frees. simpl.
  rewrite fmap_app. solve_Permutation.
Qed.

(** A pass splits the pending requests, in order, into those kept and those
    completed; each completion carries its request's user data. *)
Lemma check_pending_split rd pos l :
  (user_data <$> (check_pending rd pos l).1) ++ (cqe_data <$> (check_pending rd pos l).2)
  ≡ₚ user_data <$> l.
Proof.
  revert pos. induction l as [|s l IH]; intros pos; simpl; [done|].
  specialize (IH (S pos)). destruct (check_pending rd (S pos) l) as [keep done]. simpl in *.
  destruct (attempt rd pos s); simpl; rewrite <- IH; solve_Permutation.
Qed.

Lemma wait_loop_in_flight rounds n r r' :
  wait_loop rounds n r = Some r' → in_flight r' ≡ₚ in_flight r.
Proof.
  revert r. induction rounds as [|rd rounds IH]; intros r; simpl; case_match.
  - by intros [= ->].
  - done.
  - by intros [= ->].
  - destruct (pending_sqes r) as [|p l] eqn:Ep; [by apply IH|].
    destruct (select_error rd) as [e|].
    { case_match; [by apply IH|]. by intros [= ->]. }
    pose proof (check_pending_split rd 0 (p :: l)) as Hs.
    destruct (check_pending rd 0 (p :: l)) as [keep done].
    intros ->%IH. unfold in_flight. cbn [sqes pending_sqes cqes fst snd] in *.
    rewrite Ep, fmap_app, <- Hs. solve_Permutation.
Qed.

Lemma wait_loop_enough rounds n r r' :
  wait_loop rounds n r = Some r' →
  n ≤ length (cqes r') ∨ ∃ rd e, rd ∈ rounds ∧ select_error rd = Some e ∧ e ≠ EINTR.
Proof.
  revert r. induction rounds as [|rd rounds IH]; intros r; simpl; case_match eqn:En.
  - intros [= ->]. left. by apply Nat.leb_le.
  - done.
  - intros [= ->]. left. by apply Nat.leb_le.
  - assert (∀ r1, wait_loop rounds n r1 = Some r' →
      n ≤ length (cqes r') ∨ ∃ rd0 e, rd0 ∈ rd :: rounds ∧ select_error rd0 = Some e ∧ e ≠ EINTR)
      as Hr.
    { intros r1 [?|(rd' & e & ? & ? & ?)]%IH; [by left|right]. exists rd', e. set_solver. }
    destruct (pending_sqes r); [by apply Hr|].
    destruct (select_error rd) as [e|] eqn:Es.
    + destruct (Z.eqb_spec e EINTR); [by apply Hr|]. intros [= ->]. right. exists rd, e. set_solver.
    + destruct (check_pending rd 0 _). apply Hr.
Qed.

(** Waiting leaves the slots alone and only adds completions. *)
Lemma wait_loop_keeps rounds n r r' :
  wait_loop rounds n r = Some r' → sqes r' = sqes r ∧ ∃ l, cqes r' = cqes r ++ l.
Proof.
  revert r. induction rounds as [|rd rounds IH]; intros r; simpl; case_match.
  - intros [= ->]. split; [done|]. exists []. by rewrite app_nil_r.
  - done.
  - intros [= ->]. split; [done|]. exists []. by rewrite app_nil_r.
  - destruct (pending_sqes r) as [|p l]; [by apply IH|].
    destruct (select_error rd) as [e|].
    { case_match; [by apply IH|]. intros [= ->]. split; [done|]. exists []. by rewrite app_nil_r. }
    destruct (check_pending rd 0 (p :: l)) as [keep done].
    intros (Hs & l' & Hl)%IH. simpl in *. split; [by rewrite Hs|].
    exists (done ++ l'). by rewrite Hl, app_assoc.
Qed.

(** While [select] fails nothing completes: the wait goes on after a signal and ends
    on any other error. *)
Lemma wait_loop_fails rounds n r r' :
  Forall (λ rd, is_Some (select_error rd)) rounds → length (cqes r) < n → pending_sqes r ≠ [] →
  wait_loop rounds n r = Some r' → r' = r.
Proof.
  intros Hf Hn Hp. induction Hf as [|rd rounds [e He] _ IH]; cbn [wait_loop];
    rewrite (proj2 (Nat.leb_gt _ _)) by done; [done|].
  destruct (pending_sqes r) as [|q l]; [done|]. rewrite He. case_match; [done|]. by intros [= ->].
Qed.

(** ** Requests keep what they ask for *)

(** The requests the ring holds: prepared or submitted, not completed. *)
Definition requests (r : ring) : list sqe :=
  filter (λ s, active s = true) (sqes r) ++ pending_sqes r.

Lemma submit_requests r : requests (io_uring_submit r).1 ≡ₚ requests r.
Proof.
  unfold requests. rewrite filter_inactive by apply submit_frees. simpl. solve_Permutation.
Qed.

Lemma in_flight_requests r : in_flight r = (user_data <$> requests r) ++ (cqe_data <$> cqes r).
Proof. unfold in_flight, requests. by rewrite fmap_app, app_assoc. Qed.

Lemma check_pending_kept rd pos l : (check_pending rd pos l).1 ⊆ l.
Proof.
  revert pos. induction l as [|s l IH]; intros pos; simpl; [done|].
  specialize (IH (S pos)). destruct (check_pending rd (S pos) l) as [keep done]. simpl in *.
  destruct (attempt rd pos s); simpl; set_solver.
Qed.

Lemma wait_loop_requests rounds n r r' :
  wait_loop rounds n r = Some r' → requests r' ⊆ requests r.
Proof.
  revert r. induction rounds as [|rd rounds IH]; intros r; simpl; case_match; try by intros [= ->].
  destruct (pending_sqes r) as [|p l] eqn:Ep; [by apply IH|].
  destruct (select_error rd) as [e|].
  { case_match; [by apply IH|]. by intros [= ->]. }
  pose proof (check_pending_kept rd 0 (p :: l)) as Hk.
  destruct (check_pending rd 0 (p :: l)) as [keep done].
  intros Hs%IH. etrans; [exact Hs|]. unfold requests. cbn [sqes pending_sqes fst] in *.
  rewrite Ep. set_solver.
Qed.

(** A turn in which every descriptor is ready, but only the system call of the
    request at position [j] goes through, with result [n]. *)
Definition only (n : Z) (j : nat) : round :=
  mkRound None (λ _, true) (λ _, true) (λ p, if p =? j then SysOk n else SysErr EAGAIN).

Lemma attempt_only n j pos s : attempt (only n j) pos s = if pos =? j then Some n else None.
Proof. unfold attempt, ready. cbn [readable writable sys_call only]. destruct (opcode s); by destruct (pos =? j). Qed.

Lemma check_pending_past n j pos l : j < pos → (check_pending (only n j) pos l).2 = [].
Proof.
  revert pos. induction l as [|s l IH]; intros pos Hj; simpl; [done|].
  specialize (IH (S pos) ltac:(lia)). destruct (check_pending _ (S pos) l) as [keep done].
  by rewrite attempt_only, (proj2 (Nat.eqb_neq _ _)) by lia.
Qed.

Lemma check_pending_only n pos l i s :
  l !! i = Some s → (check_pending (only n (pos + i)) pos l).2 = [mkCqe (user_data s) n].
Proof.
  revert pos i. induction l as [|s' l IH]; intros pos i Hi; [done|]. cbn [check_pending].
  destruct i as [|i]; simpl in Hi.
  - injection Hi as ->. pose proof (check_pending_past n (pos + 0) (S pos) l ltac:(lia)) as Hp.
    destruct (check_pending _ (S pos) l) as [keep done]. rewrite attempt_only.
    rewrite (proj2 (Nat.eqb_eq _ _)) by lia. simpl in *. by rewrite Hp.
  - specialize (IH (S pos) i Hi). replace (S pos + i) with (pos + S i) in IH by lia.
    destruct (check_pending _ (S pos) l) as [keep done]. rewrite attempt_only.
    by rewrite (proj2 (Nat.eqb_neq _ _)) by lia.
Qed.

(** A wait with no completion at hand can end with the completion of any request
    the ring holds. *)
Lemma wait_one n r s :
  s ∈ requests r → cqes r = [] →
  ∃ rounds r', io_uring_submit_and_wait rounds 1 r = Some r' ∧ cqes r' = [mkCqe (user_data s) n].
Proof.
  intros Hs Hq. rewrite <- submit_requests in Hs. unfold requests in Hs.
  rewrite filter_inactive in Hs by apply submit_frees. cbn [app] in Hs.
  apply list_elem_of_lookup_1 in Hs as [i Hi]. exists [only n i].
  unfold io_uring_submit_and_wait. set (r1 := (io_uring_submit r).1) in *.
  assert (cqes r1 = []) as Hq1 by done. clearbody r1.
  pose proof (check_pending_only n 0 (pending_sqes r1) i s Hi) as Hd. cbn [Nat.add] in Hd.
  cbn [wait_loop select_error only]. rewrite Hq1. cbn [length Nat.leb].
  destruct (pending_sqes r1) as [|p l]; [done|].
  destruct (check_pending (only n i) 0 (p :: l)) as [keep done]. cbn [snd] in Hd. subst done.
  simpl. eexists. by split.
Qed.

End ring.
