(* ===== verification/IoContext.v ===== *)
(** * The event loop's ring (src/core/io_context.cpp, io_context.hpp, operation.hpp)

    An [IoContext] owns a ring and the descriptor pair other cores use to wake it.
    The [Operation*] stored as user data is one of the four kinds of operation
    the program submits.  The ring is the in-tree one; its size is a parameter of
    the constructor (4096 by default). *)
From S2P Require Import Prelude Topology UringStub.
From Stdlib Require Import ZArith Lia.
From stdpp Require Import prelude strings list_numbers.

(** The classes derived from [core::Operation]; connections are named by their
    identifier. *)
Inductive Operation :=
  | ReadOp (conn_id : Z)
  | WriteOp (conn_id : Z)
  | AcceptOp
  | NotificationOp.
#[export] Instance Operation_eq_dec : EqDecision Operation.
Proof. solve_decision. Defined.

(** The buffers requests point to. *)
Inductive Buffer :=
  | ReadBuffer (conn_id : Z)      (* [read_buffer_.data()] *)
  | WriteBuffer (conn_id : Z)     (* [write_queue_.front().data()] *)
  | NotifyBuffer.                 (* [notification_op_->buffer] *)

Abbreviation io_ring := (io_uring Operation Buffer).
Abbreviation sqe := (io_uring_sqe Operation Buffer).

Record IoContext := mkCtx {
  ring_ : io_ring;
  event_fd_ : Z;
  notify_fd_ : Z
}.

(** The descriptor the core reads and the one the others write. *)
Definition wake_fds (c : IoContext) : Z * Z := (event_fd_ c, notify_fd_ c).

Definition set_ring (c : IoContext) (r : io_ring) : IoContext :=
  mkCtx r (event_fd_ c) (notify_fd_ c).

(** The default of the constructor's [entries]. *)
Definition default_entries : nat := N.to_nat 4096.

(** [setup_event_fd], from what the system call answered: on Linux [eventfd]
    returned a descriptor, read and written through the same number; elsewhere
    [pipe] filled in a read end and a write end.  [None] is a failed call. *)
Definition setup_event_fd (k : WakeKind) (fds : option (Z * Z)) : outcome (Z * Z) :=
  match k, fds with
  | EventFd, Some (efd, _) => Ok (efd, efd)
  | EventFd, None => Throw (system_error "eventfd failed")
  | PipePair _, Some (read_end, write_end) => Ok (read_end, write_end)
  | PipePair _, None => Throw (system_error "pipe failed")
  end.

(** The constructor. *)
Definition new_context (n : nat) (k : WakeKind) (fds : option (Z * Z)) : outcome IoContext :=
  match setup_event_fd k fds with
  | Ok (event_fd, notify_fd) => Ok (mkCtx (io_uring_queue_init n) event_fd notify_fd)
  | Throw e => Throw e
  | Undefined => Undefined
  end.

(** The descriptors the destructor closes, in order - on Linux the same one twice;
    [io_uring_queue_exit] does nothing. *)
Definition IoContext_destructor (c : IoContext) : list Z :=
  (if (0 <=? event_fd_ c)%Z then [event_fd_ c] else []) ++
  (if (0 <=? notify_fd_ c)%Z then [notify_fd_ c] else []).

(** [get_sqe]: when the ring is full, submit what it holds and try again. *)
Definition get_sqe : comp IoContext nat := λ c,
  match io_uring_get_sqe (ring_ c) with
  | (Some i, r) => (Ok i, set_ring c r)
  | (None, r) =>
      match io_uring_get_sqe (io_uring_submit r).1 with
      | (Some i, r) => (Ok i, set_ring c r)
      | (None, r) => (Throw (runtime_error "IoContext: Submission Queue Full"), set_ring c r)
      end
  end.

(** The sequence every submission makes: [get_sqe], a [prep] call on the slot,
    [io_uring_sqe_set_data]. *)
Definition submit_op (prep : io_ring → nat → io_ring) (op : Operation) : comp IoContext unit :=
  i ← get_sqe;
  modify (λ c, set_ring c (prep (ring_ c) i));;
  modify (λ c, set_ring c (io_uring_sqe_set_data (ring_ c) i op)).

Definition submit_notification_read : comp IoContext unit :=
  efd ← gets event_fd_;
  if (efd <? 0)%Z then mret tt else
  submit_op (λ r i, io_uring_prep_read r i efd NotifyBuffer 8) NotificationOp.

Definition submit_and_wait (rounds : list round) (wait_nr : nat) (c : IoContext)
  : option IoContext :=
  set_ring c <$> io_uring_submit_and_wait rounds wait_nr (ring_ c).

(** ** Submissions *)

(** Requests under way on a context. *)
Definition outstanding (c : IoContext) : list (option Operation) := in_flight (ring_ c).

(** The ring has slots; nothing changes their number. *)
Definition has_slots (c : IoContext) : Prop := 0 < length (sqes (ring_ c)).

Lemma filter_active_insert (l : list (io_uring_sqe Operation Buffer)) i x y :
  l !! i = Some x → active x = false → active y = true →
  filter (λ s, active s = true) (<[i := y]> l) ≡ₚ y :: filter (λ s, active s = true) l.
Proof.
  intros Hx Hi Hy. rewrite <- (take_drop_middle l i x Hx) at 2.
  rewrite insert_take_drop by by eapply lookup_lt_Some.
  rewrite !filter_app, filter_cons_True, (filter_cons_False _ x) by congruence.
  solve_Permutation.
Qed.

(** A free slot is found, at once or after submitting. *)
Lemma get_sqe_spec c :
  has_slots c →
  ∃ i r0 x, get_sqe c = (Ok i, set_ring c (set_slots r0 (<[i := set_active x true]> (sqes r0)))) ∧
    sqes r0 !! i = Some x ∧ active x = false ∧ in_flight r0 ≡ₚ outstanding c ∧
    length (sqes r0) = length (sqes (ring_ c)) ∧ cqes r0 = cqes (ring_ c) ∧
    requests r0 ≡ₚ requests (ring_ c).
Proof.
  intros Hc. unfold get_sqe, io_uring_get_sqe.
  pose proof (take_slot_spec (sqes (ring_ c))) as Hs.
  destruct (take_slot (sqes (ring_ c))) as [[i s]|].
  { destruct Hs as (x & Hx & Ha & -> & _). by exists i, (ring_ c), x. }
  pose proof (take_slot_spec (sqes (io_uring_submit (ring_ c)).1)) as Hs'.
  destruct (take_slot _) as [[i s]|].
  - destruct Hs' as (x & Hx & Ha & -> & _). exists i, (io_uring_submit (ring_ c)).1, x.
    split_and!; [done..|apply submit_in_flight|apply submit_length|done|apply submit_requests].
  - exfalso. pose proof (submit_frees (ring_ c)) as Hf. pose proof (submit_length (ring_ c)) as Hl.
    destruct (sqes (io_uring_submit (ring_ c)).1) as [|s l]; [unfold has_slots in Hc; simpl in Hl; lia|].
    apply Forall_cons in Hf as [? _], Hs' as [? _]. congruence.
Qed.

(** What a [prep] call does: it fills in one slot by [g] and leaves the rest
    alone. *)
Definition preps (g : sqe → sqe) (prep : io_ring → nat → io_ring) : Prop :=
  (∀ r i, prep r i = alter_slot g r i) ∧ ∀ s, active (g s) = active s.

(** The request in a slot after [io_uring_sqe_set_data]. *)
Definition with_data (op : Operation) (s : sqe) : sqe :=
  mkSqe (Some op) (opcode s) (fd s) (addr s) (len s) (active s).

Lemma preps_read f b n :
  preps (λ s, mkSqe (user_data s) IORING_OP_READ f (Some b) (uint32 n) (active s))
    (λ r i, io_uring_prep_read r i f b n).
Proof. done. Qed.
Lemma preps_write f b n :
  preps (λ s, mkSqe (user_data s) IORING_OP_WRITE f (Some b) (uint32 n) (active s))
    (λ r i, io_uring_prep_write r i f b n).
Proof. done. Qed.
Lemma preps_accept f a :
  preps (λ s, mkSqe (user_data s) IORING_OP_ACCEPT f a (len s) (active s))
    (λ r i, io_uring_prep_accept r i f a).
Proof. done. Qed.
#[export] Hint Resolve preps_read preps_write preps_accept : quine.

Lemma alter_insert {A} (f : A → A) (l : list A) i y : alter f i (<[i := y]> l) = <[i := f y]> l.
Proof. revert i. induction l as [|x l IH]; intros [|i]; simpl; [done..|]. f_equal. apply IH. Qed.

(** A submission never fails and adds exactly its operation, in a slot filled in
    for it, to the requests under way; completions that wait are not touched. *)
Lemma submit_op_spec g prep op c :
  has_slots c → preps g prep →
  ∃ c' s0, submit_op prep op c = (Ok tt, c') ∧ has_slots c' ∧
    outstanding c' ≡ₚ Some op :: outstanding c ∧ cqes (ring_ c') = cqes (ring_ c) ∧
    wake_fds c' = wake_fds c ∧
    requests (ring_ c') ≡ₚ with_data op (g s0) :: requests (ring_ c).
Proof.
  intros Hc [Hg Ha].
  destruct (get_sqe_spec c Hc) as (i & r0 & x & E & Hx & Hi & Hf & Hl & Hq & Hr).
  pose proof (lookup_lt_Some _ _ _ Hx) as Hlt.
  unfold submit_op. erewrite bind_ok by exact E. erewrite bind_ok by done.
  eexists _, (set_active x true). split; [done|]. unfold has_slots, outstanding in *. cbn [ring_ set_ring].
  rewrite Hg. unfold io_uring_sqe_set_data, alter_slot. cbn [set_slots sqes].
  rewrite !alter_insert.
  assert (∀ l, filter (λ s, active s = true) (<[i := with_data op (g (set_active x true))]> (sqes r0)) ++ l ≡ₚ
    with_data op (g (set_active x true)) :: filter (λ s, active s = true) (sqes r0) ++ l) as Hnew.
  { intros l. by rewrite (filter_active_insert _ _ _ _ Hx Hi) by (simpl; by rewrite Ha). }
  split_and!; [| |done..|].
  - rewrite length_insert. lia.
  - rewrite <- Hf, !in_flight_requests. unfold requests, set_slots. cbn [sqes pending_sqes cqes].
    by rewrite (Hnew (pending_sqes r0)).
  - rewrite <- Hr. exact (Hnew (pending_sqes r0)).
Qed.
