(* ===== verification/Listener.v ===== *)
(** * The listening socket (src/network/tcp_server.cpp)

    [setup_listener] makes its system calls one by one and throws at the first
    that fails.  The operating system is an argument that answers a call from
    the calls made before; the calls are kept in order. *)
From S2P Require Import Prelude.
From Stdlib Require Import ZArith Lia.
From stdpp Require Import prelude strings list_numbers.

Inductive sockopt := SO_REUSEADDR | SO_REUSEPORT.

Inductive syscall :=
  | Socket
  | GetFlags (fd : Z)
  | SetFlags (fd flags : Z)
  | SetSockOpt (fd : Z) (opt : sockopt)
  | Bind (fd sin_port : Z)          (* [sin_port] in host byte order *)
  | Listen (fd backlog : Z).

(** The value of the flag on Linux. *)
Definition O_NONBLOCK : Z := 2048.

Section listener.
Context (os : list syscall → syscall → Z).

(** A call whose negative result throws [what]. *)
Definition checked (call : syscall) (what : string) : comp (list syscall) Z := λ calls,
  let r := os calls call in
  if (r <? 0)%Z then (Throw (system_error what), calls ++ [call]) else (Ok r, calls ++ [call]).

(** [htons] takes a 16-bit integer: a larger port is cut off. *)
Definition setup_listener (port : Z) : comp (list syscall) Z :=
  server_fd ← checked Socket "socket failed";
  flags ← checked (GetFlags server_fd) "fcntl get failed";
  _ ← checked (SetFlags server_fd (Z.lor flags O_NONBLOCK)) "fcntl set nonblock failed";
  _ ← checked (SetSockOpt server_fd SO_REUSEADDR) "setsockopt(SO_REUSEADDR) failed";
  _ ← checked (SetSockOpt server_fd SO_REUSEPORT) "setsockopt(SO_REUSEPORT) failed";
  _ ← checked (Bind server_fd (uint16 port)) "bind failed";
  _ ← checked (Listen server_fd 1024) "listen failed";
  mret server_fd.

(** The answer to the [i]-th call of a sequence. *)
Definition answer (calls : list syscall) (i : nat) : option Z :=
  os (take i calls) <$> calls !! i.

Lemma checked_inv call what calls r calls' :
  checked call what calls = (r, calls') →
  calls' = calls ++ [call] ∧
  match r with
  | Ok n => n = os calls call ∧ (0 ≤ n)%Z
  | Throw e => e = system_error what ∧ (os calls call < 0)%Z
  | Undefined => False
  end.
Proof.
  unfold checked. destruct (Z.ltb_spec (os calls call) 0); intros [= <- <-]; done.
Qed.

(** The next call: it goes on, or the claim about the failed call holds. *)
Local Ltac next := match goal with |- context [checked ?c ?w ?l] =>
  let E := fresh "E" in destruct (checked c w l) as [[?|?|] ?] eqn:E;
  apply checked_inv in E as [-> E]; [destruct E as [? ?]|destruct E as [? ?]; by eexists _, _|done] end.

(** The socket that comes out is non-blocking, shares its address and port, is
    bound to the port's low 16 bits and listens, every call having succeeded;
    otherwise the last call made is the one that failed. *)
Lemma setup_listener_spec port :
  match setup_listener port [] with
  | (Ok fd, calls) =>
      (0 ≤ fd)%Z ∧ ∃ flags, calls = [Socket; GetFlags fd; SetFlags fd (Z.lor flags O_NONBLOCK);
        SetSockOpt fd SO_REUSEADDR; SetSockOpt fd SO_REUSEPORT; Bind fd (uint16 port); Listen fd 1024] ∧
      ∀ i r, answer calls i = Some r → (0 ≤ r)%Z
  | (Throw _, calls) =>
      ∃ before call, calls = before ++ [call] ∧ (os before call < 0)%Z
  | (Undefined, _) => False
  end.
Proof.
  unfold setup_listener, mbind, comp_bind.
  do 7 next. simplify_eq/=. split; [done|]. eexists. split; [done|].
  intros i r Hr. do 7 (destruct i as [|i]; [by injection Hr as <-|]). done.
Qed.

End listener.
