(* ===== verification/Connection.v ===== *)
(** * Connections (src/network/connection.cpp, connection.hpp)

    A core's code runs on the shared [World], its own event loop and its own
    connections, which live as long as they are in [local_connections]: a
    connection is named by its identifier, and using one that was deleted is
    undefined.  The bytes the kernel put in the read buffer are an argument of
    the completion of a read. *)
From S2P Require Import Prelude CxxString Double Containers Value Store HashMap Shard Router Topology Command Rdb Registry RespParser UringStub IoContext.
From Stdlib Require Import ZArith Ascii Lia.
From stdpp Require Import prelude gmap strings list_numbers.

Record Connection := mkConn {
  fd_ : Z;
  id_ : Z;
  write_queue_ : list string;
  is_writing_ : bool;
  parser_ : RespParser
}.

Definition set_parser (x : Connection) (p : RespParser) : Connection :=
  mkConn (fd_ x) (id_ x) (write_queue_ x) (is_writing_ x) p.
Definition set_writes (x : Connection) (q : list string) (b : bool) : Connection :=
  mkConn (fd_ x) (id_ x) q b (parser_ x).

(** One core: its event loop, its listening socket, and its connections. *)
Record Core := mkCore {
  ctx : IoContext;
  server_fd_ : Z;
  local_connections : gmap Z Connection
}.

(** What a handler running on a core can reach. *)
Record Server := mkServer {
  world : World;
  core : Core;
  next_conn_id : Z        (* the static counter shared by the cores *)
}.

Abbreviation handler := (comp Server).

Definition set_core (s : Server) (c : Core) : Server := mkServer (world s) c (next_conn_id s).
Definition set_ctx (s : Server) (io : IoContext) : Server :=
  set_core s (mkCore io (server_fd_ (core s)) (local_connections (core s))).
Definition set_connections (s : Server) (m : gmap Z Connection) : Server :=
  set_core s (mkCore (ctx (core s)) (server_fd_ (core s)) m).

(** Running a part of the program on its part of the state. *)
Definition on_world {A} (m : prog A) : handler A := λ s,
  let '(r, w) := m (world s) in (r, mkServer w (core s) (next_conn_id s)).
Definition on_ctx {A} (m : comp IoContext A) : handler A := λ s,
  let '(r, io) := m (ctx (core s)) in (r, set_ctx s io).

(** [this->], for the connection [id]. *)
Definition this (id : Z) : handler Connection := λ s,
  match local_connections (core s) !! id with
  | Some x => (Ok x, s)
  | None => (Undefined, s)
  end.
Definition put_this (id : Z) (x : Connection) : handler unit :=
  modify (λ s, set_connections s (<[id := x]> (local_connections (core s)))).

(** The capacity [read_buffer_.reserve(4096)] makes. *)
Definition read_capacity : Z := 4096.

(** The constructor: the next identifier, an empty queue, a fresh parser. *)
Definition new_connection (fd : Z) : handler Connection := λ s,
  (Ok (mkConn fd (next_conn_id s) [] false reset),
   mkServer (world s) (core s) (uint32 (next_conn_id s + 1))).

(** The descriptor the destructor closes. *)
Definition Connection_destructor (x : Connection) : list Z :=
  if (0 <=? fd_ x)%Z then [fd_ x] else [].

Definition submit_read (id : Z) : handler unit :=
  x ← this id;
  on_ctx (submit_op (λ r i, io_uring_prep_read r i (fd_ x) (ReadBuffer id) read_capacity)
            (ReadOp id)).

(** The first read; the operations are named by the connection. *)
Definition start (id : Z) : handler unit := submit_read id.

(** The write of the front of the queue. *)
Definition submit_front (id : Z) (x : Connection) : handler unit :=
  match write_queue_ x with
  | [] => undefined
  | data :: _ =>
      on_ctx (submit_op (λ r i, io_uring_prep_write r i (fd_ x) (WriteBuffer id) (str_size data))
                (WriteOp id))
  end.

Definition submit_write (id : Z) (data : string) : handler unit :=
  x ← this id;
  let x := set_writes x (write_queue_ x ++ [data]) (is_writing_ x) in
  put_this id x;;
  if is_writing_ x then mret tt else
  let x := set_writes x (write_queue_ x) true in
  put_this id x;;
  submit_front id x.

(** [on_disconnect_(id_)] and [delete this]; the [close] of the destructor is part of
    the table of descriptors (file Sockets). *)
Definition disconnect (id : Z) : handler unit :=
  modify (λ s, set_connections s (delete id (local_connections (core s)))).

Section connection.
Context `{StdHash} `{FileSystem} (core_id : nat).

Definition execute_command (conn_id : Z) (args : list string) : prog string :=
  match args with
  | [] => mret ("-ERR empty command" +:+ crlf)
  | arg0 :: _ =>
      cmd_name ← transform_upper arg0;
      match get_command registry cmd_name with
      | Some cmd => cmd_execute cmd core_id conn_id args
      | None =>
          if bool_decide (cmd_name = "PING") then mret ("+PONG" +:+ crlf)
          else mret ("-ERR unknown command '" +:+ cmd_name +:+ "'" +:+ crlf)
      end
  end.

Definition protocol_error : string := "-ERR Protocol Error" +:+ crlf.

(** [consume] on the connection's parser. *)
Definition parser_consume (id : Z) (data : bytes) : handler Result := λ s,
  match local_connections (core s) !! id with
  | None => (Undefined, s)
  | Some x =>
      let '(r, p) := consume data (parser_ x) in
      let s := set_connections s (<[id := set_parser x p]> (local_connections (core s))) in
      match r with
      | Ok (res, _) => (Ok res, s)
      | Throw e => (Throw e, s)
      | Undefined => (Undefined, s)
      end
  end.

(** The bytes [consumed] reports are not looked at: what follows a complete
    command in the buffer is dropped. *)
Definition handle_data (id : Z) (data : bytes) : handler string :=
  result ← parser_consume id data;
  match result with
  | Complete =>
      x ← this id;
      resp ← on_world (execute_command id (args_ (parser_ x)));
      x ← this id;
      put_this id (set_parser x reset);;
      mret resp
  | Error =>
      x ← this id;
      put_this id (set_parser x reset);;
      mret protocol_error
  | Partial => mret EmptyString
  end.

Definition handle_read (id : Z) (res : Z) (data : bytes) : handler unit :=
  _ ← this id;
  if (res <=? 0)%Z then disconnect id else
  response ← handle_data id data;
  (if bool_decide (response = EmptyString) then mret tt else submit_write id response);;
  submit_read id.

(** The number of bytes written is not looked at. *)
Definition handle_write (id : Z) (res : Z) : handler unit :=
  x ← this id;
  if (res <? 0)%Z then disconnect id else
  let x := set_writes x (tail (write_queue_ x)) (is_writing_ x) in
  put_this id x;;
  match write_queue_ x with
  | _ :: _ => submit_front id x
  | [] => put_this id (set_writes x [] false)
  end.

End connection.
