(* ===== verification/Worker.v ===== *)
(** * The worker threads: TCP server, message handling, event loop
      (src/network/tcp_server.cpp, src/main.cpp, the loop of src/core/io_context.cpp)

    [complete] is the virtual call an event loop makes for a completion;
    [handle_message] is the body of the notification handler for one message.
    An exception that leaves a handler ends the worker ([main.cpp] catches it
    outside the loop). *)
From S2P Require Import Prelude CxxString Double Containers Value Store HashMap Shard Router Topology Command Rdb Registry RespParser UringStub IoContext Connection.
From Stdlib Require Import ZArith Lia.
From stdpp Require Import prelude gmap strings list_numbers.

(** ** [TcpServer] *)

Definition submit_accept : handler unit :=
  fd ← gets (λ s, server_fd_ (core s));
  on_ctx (submit_op (λ r i, io_uring_prep_accept r i fd None) AcceptOp).

Definition server_start : handler unit := submit_accept.

(** The callback [main.cpp] gives to [set_on_connect]. *)
Definition on_connect (x : Connection) : handler unit := put_this (id_ x) x.

Definition handle_accept (fd : Z) : handler unit :=
  if (fd <? 0)%Z then submit_accept else
  x ← new_connection fd;
  on_connect x;;
  start (id_ x);;
  submit_accept.

Definition TcpServer_destructor (k : Core) : list Z :=
  if (0 <=? server_fd_ k)%Z then [server_fd_ k] else [].

(** What an exception that leaves the event loop closes in [worker_main]: its
    objects are destroyed in the opposite order of their declarations, the server
    before the context.  The connections are raw pointers: nobody closes them. *)
Definition worker_exit (k : Core) : list Z :=
  TcpServer_destructor k ++ IoContext_destructor (ctx k).

Section worker.
Context `{StdHash} `{FileSystem} (core_id : nat).

(** ** The notification handler *)

Definition execute_request (msg : Message) : prog string :=
  match msg_args msg with
  | [] => undefined
  | cmd_name :: _ =>
      match get_command registry cmd_name with
      | Some cmd => cmd_execute cmd core_id (msg_conn_id msg) (msg_args msg)
      | None => mret ("-ERR unknown command '" +:+ cmd_name +:+ "'" +:+ crlf)
      end
  end.

Definition response (conn_id : Z) (reply : string) : Message :=
  mkMsg RESPONSE core_id conn_id EmptyString [] reply (Some true).

Definition handle_message (msg : Message) : handler unit :=
  match msg_type msg with
  | REQUEST =>
      response_str ← on_world (execute_request msg);
      if bool_decide (response_str = EmptyString) then mret tt else
      on_world (
        push_channel (origin_core_id msg) (response (msg_conn_id msg) response_str);;
        notify_core (origin_core_id msg))
  | RESPONSE =>
      conns ← gets (λ s, local_connections (core s));
      match conns !! msg_conn_id msg with
      | Some _ => submit_write (msg_conn_id msg) (payload msg)
      | None => mret tt
      end
  end.

(** [my_channel->consume_all]: the batch is taken out first. *)
Definition take_inbox : prog (list Message) := λ w,
  match channels_ (topo w) !! core_id with
  | Some c => (Ok (ch_take_all c).2,
      set_topo w (set_channels (topo w) (<[core_id := (ch_take_all c).1]> (channels_ (topo w)))))
  | None => (Throw (out_of_range "Invalid core_id"), w)
  end.

Definition notification_handler : handler unit :=
  batch ← on_world take_inbox;
  foldM (λ _ msg, handle_message msg) tt batch.

(** ** Completions *)

Definition ReadOp_complete (id : Z) (res : Z) (data : bytes) : handler unit :=
  handle_read core_id id res data.
Definition WriteOp_complete (id : Z) (res : Z) : handler unit := handle_write id res.
Definition AcceptOp_complete (res : Z) : handler unit := handle_accept res.

(** The result of the notification read is not looked at. *)
Definition NotificationOp_complete : handler unit :=
  notification_handler;;
  on_ctx submit_notification_read.

(** The virtual call. *)
Definition complete (op : Operation) (res : Z) (data : bytes) : handler unit :=
  match op with
  | ReadOp id => ReadOp_complete id res data
  | WriteOp id => WriteOp_complete id res
  | AcceptOp => AcceptOp_complete res
  | NotificationOp => NotificationOp_complete
  end.

(** What the loop does for one completion; [data] is what the kernel put in the
    read buffer. *)
Definition dispatch (e : io_uring_cqe Operation) (data : bytes) : handler unit :=
  match cqe_data e with
  | Some op => complete op (res e) data
  | None => mret tt
  end.

(** One turn of [IoContext::run]; [data i] goes with the [i]-th completion.  The
    completions are removed after the last was handled. *)
Fixpoint complete_all (l : list (io_uring_cqe Operation)) (data : nat → bytes) : handler unit :=
  match l with
  | [] => mret tt
  | e :: l' => dispatch e (data 0);; complete_all l' (λ i, data (S i))
  end.

(** What the wait did to the core's own wake-up descriptor: a notification read that
    completed with some bytes took them out of it. *)
Definition notified (io : IoContext) : bool :=
  existsb (λ e, bool_decide (cqe_data e = Some NotificationOp) && (0 <? res e)%Z) (cqes (ring_ io)).
Definition drain (io : IoContext) (w : World) : World :=
  match eventfds w !! notify_fd_ io with
  | Some n =>
      if notified io && (0 <? n)%Z
      then set_eventfds w (<[notify_fd_ io := wake_read (wakes w) n]> (eventfds w)) else w
  | None => w
  end.
Definition waited (s : Server) (io : IoContext) : Server :=
  let s := set_ctx s io in mkServer (drain io (world s)) (core s) (next_conn_id s).

Definition run_once (rounds : list round) (data : nat → bytes) : handler unit := λ s,
  match submit_and_wait rounds 1 (ctx (core s)) with
  | None => (Ok tt, s)              (* still waiting *)
  | Some io =>
      (complete_all (cqes (ring_ io)) data;;
       modify (λ s, set_ctx s (set_ring (ctx (core s))
         (io_uring_cq_advance (ring_ (ctx (core s))) (length (cqes (ring_ io))))))) (waited s io)
  end.

(** The loop, for as many turns as the system plays. *)
Definition run_turns (turns : list (list round * (nat → bytes))) : handler unit :=
  foldM (λ _ turn, run_once turn.1 turn.2) tt turns.

(** [IoContext::notify]: a core's own wake-up, which no code of the server
    calls. *)
Definition io_notify (io : IoContext) : prog unit := modify (wake_write (notify_fd_ io)).

(** ** Start-up *)

(** Before the barrier: the wake-up descriptor is registered. *)
Definition worker_register (io : IoContext) : prog unit :=
  w ← gets topo;
  t ← lift (register_notify_fd w core_id (notify_fd_ io));
  modify (λ w, set_topo w t).

(** After the barrier: [server.start()] posts an accept, and [IoContext::run]
    posts the first notification read. *)
Definition worker_listen : handler unit :=
  server_start;;
  on_ctx submit_notification_read.

End worker.

(** The handler of a known completion. *)
Ltac completion :=
  cbn [dispatch cqe_data complete] in *;
  unfold ReadOp_complete, WriteOp_complete, AcceptOp_complete, NotificationOp_complete in *.
