(* ===== verification/Handlers.v ===== *)
(** * What the handlers of a core do to the state the cores share

    The shared state stays in order ([world_ok]): the database is well formed and
    every message is in the inbox of the core that has to handle it.  A core that
    is given a message is woken ([grows]).  A command runs where it is executed
    ([ran_here]) or becomes one message to the owner of its key. *)
From S2P Require Import Prelude CxxString Double Containers Value Store HashMap Shard Router Topology Command Exec Wire Rdb Registry Safety RespParser UringStub IoContext Connection Worker.
From Stdlib Require Import ZArith Ascii Lia.
From stdpp Require Import prelude gmap strings list_numbers.

(** ** Wake-ups *)

(** What the topology keeps while the workers run. *)
Record same_shape (t t' : Topology) : Prop := {
  sh_cores : num_cores_ t' = num_cores_ t;
  sh_router : router_ t' = router_ t;
  sh_fds : notify_fds_ t' = notify_fds_ t;
  sh_count : registered_count_ t' = registered_count_ t
}.

#[export] Instance same_shape_preorder : PreOrder same_shape.
Proof.
  split; [by split|]. intros t1 t2 t3 [] []. split; congruence.
Qed.

Lemma same_shape_target t t' k : same_shape t t' → get_target_core t' k = get_target_core t k.
Proof. intros [_ E _ _]. unfold get_target_core. by rewrite E. Qed.

(** The messages core [c] has not taken yet. *)
Definition inbox (w : World) (c : nat) : option (list Message) :=
  queue_ <$> channels_ (topo w) !! c.

(** The counter of the descriptor that wakes core [c] is not zero. *)
Definition woken (w : World) (c : nat) : Prop :=
  ∀ fd n, notify_fds_ (topo w) !! c = Some fd → (0 ≤ fd)%Z → eventfds w !! fd = Some n → (0 < n)%Z.

(** Counters of the open descriptors only grow. *)
Definition counters_le (e e' : gmap Z Z) : Prop :=
  ∀ fd, option_Forall2 Z.le (e !! fd) (e' !! fd).

#[export] Instance counters_le_preorder : PreOrder counters_le.
Proof.
  split.
  - intros e fd. destruct (e !! fd); constructor. lia.
  - intros e1 e2 e3 H1 H2 fd. specialize (H1 fd). specialize (H2 fd).
    destruct H1; inversion H2; constructor. lia.
Qed.

(** The shared state moved on: an inbox that changed was emptied, or its core was
    woken. *)
Record grows (w w' : World) : Prop := {
  gr_shape : same_shape (topo w) (topo w');
  gr_counters : counters_le (eventfds w) (eventfds w');
  gr_inbox c : inbox w' c = inbox w c ∨ inbox w' c = Some [] ∨ woken w' c
}.

Lemma woken_grows w w' c : grows w w' → woken w c → woken w' c.
Proof.
  intros [[_ _ Hf _] Hc _] Hw fd n Hfd Hpos Hn. rewrite Hf in Hfd.
  specialize (Hc fd). rewrite Hn in Hc.
  destruct (eventfds w !! fd) as [m|] eqn:Em; inversion Hc; subst.
  specialize (Hw fd m Hfd Hpos Em). lia.
Qed.

#[export] Instance grows_preorder : PreOrder grows.
Proof.
  split; [split; [done|done|by left]|].
  intros w1 w2 w3 H1 H2. pose proof H1 as [Hs1 Hc1 Hi1]. pose proof H2 as [Hs2 Hc2 Hi2].
  split; [by etrans|by etrans|]. intros c.
  destruct (Hi2 c) as [->|[?|?]]; [|by right; left|by right; right].
  destruct (Hi1 c) as [?|[?|?]]; [by left|by right; left|right; right]. by eapply woken_grows.
Qed.

(** The same topology up to the shards, and the same counters. *)
Lemma grows_same w w' :
  same_shape (topo w) (topo w') → channels_ (topo w') = channels_ (topo w) →
  eventfds w' = eventfds w → grows w w'.
Proof.
  intros Hs Hc He. split; [done|by rewrite He|]. intros c. left. unfold inbox. by rewrite Hc.
Qed.

(** [notify_core] wakes the core. *)
Lemma notify_core_spec i w :
  (∀ fd n, eventfds w !! fd = Some n → (0 ≤ n)%Z) → (0 < wake_limit (wakes w))%Z →
  ∃ w', notify_core i w = (Ok tt, w') ∧ topo w' = topo w ∧ wakes w' = wakes w ∧
    counters_le (eventfds w) (eventfds w') ∧ woken w' i.
Proof.
  intros Hn Hlim. unfold notify_core, modify. eexists. split; [done|].
  assert (counters_le (eventfds w) (eventfds w)) as Hrefl by done.
  destruct (notify_fds_ (topo w) !! i) as [fd|] eqn:Efd.
  2:{ split_and!; [done..|]. intros fd n ?. congruence. }
  destruct (Z.leb_spec 0 fd) as [Hfd|Hfd].
  2:{ split_and!; [done..|]. intros fd' n ?. assert (fd' = fd) by congruence. lia. }
  unfold wake_write. destruct (eventfds w !! fd) as [n|] eqn:En.
  2:{ split_and!; [done..|]. intros fd' n ? _ ?. congruence. }
  specialize (Hn fd n En). case_match eqn:Em; cbn [eventfds topo set_eventfds].
  - split_and!; [done|done| |].
    + intros fd'. destruct (decide (fd = fd')) as [<-|].
      * rewrite En, lookup_insert_eq. constructor. lia.
      * rewrite lookup_insert_ne by done. apply Hrefl.
    + intros fd' n' Hfd' _. cbn [topo set_eventfds] in Hfd'.
      assert (fd' = fd) as -> by congruence. cbn [eventfds set_eventfds].
      rewrite lookup_insert_eq. intros [= <-]. lia.
  - apply Z.leb_gt in Em. split_and!; [done..|]. intros fd' n' ? _ ?.
    assert (fd' = fd) as -> by congruence. assert (n' = n) as -> by congruence. lia.
Qed.

Section handlers.
Context `{StdHash} `{FileSystem}.

(** ** Executing a command, in every case *)

(** The command ran here: the database is well formed, other keys, the inboxes
    and the counters are untouched, and there is a reply unless the table was
    full. *)
Definition ran_here (w : World) (k : string) (r : outcome string) (w' : World) : Prop :=
  topo_wf (topo w') ∧ same_shape (topo w) (topo w') ∧
  channels_ (topo w') = channels_ (topo w) ∧ eventfds w' = eventfds w ∧ wakes w' = wakes w ∧
  (∀ k', k' ≠ k → topo_db (topo w') k' = topo_db (topo w) k') ∧
  match r with
  | Ok reply => reply ≠ EmptyString
  | Throw ex => ex = runtime_error "HashMap is full"
  | Undefined => False
  end.

Lemma ran_here_reply w k reply :
  topo_wf (topo w) → reply ≠ EmptyString → ran_here w k (Ok reply) w.
Proof. intros. unfold ran_here. by split_and!. Qed.

Lemma exec_cases w c name cmd conn_id args :
  topo_wf (topo w) → get_command registry name = Some cmd →
  let r := cmd_execute cmd c conn_id args w in
  r.1 = Undefined ∨ ran_here w (args !!! 1) r.1 r.2 ∨
  (get_target_core (topo w) (args !!! 1) ≠ c ∧ r = forward_request c conn_id args w).
Proof.
  intros Hwf [_ [Hin| ->]]%registered_cases r.
  2:{ right; left. destruct (exec_save w c conn_id args Hwf) as (reply & w' & E & Ht & Hr & _ & _ & He & Hk).
      unfold r. cbn [SaveCommand cmd_execute]. rewrite E. unfold ran_here. simpl. rewrite Ht, He, Hk.
      split_and!; [done..|apply render_nonempty]. }
  destruct (decide (get_target_core (topo w) (args !!! 1) = c)) as [Hc|Hc].
  2:{ destruct (exec_elsewhere w c cmd conn_id args Hin Hc) as [(err & He & E)|E].
      - right; left. unfold r. rewrite E. apply ran_here_reply; [done|apply render_nonempty].
      - right; right. done. }
  destruct (lookup_lt_is_Some_2 (shards_ (topo w)) c) as [sh Hsh].
  { rewrite (tw_shards _ Hwf), <- Hc. by apply target_core_lt. }
  pose proof (tw_shard_wf _ Hwf _ _ Hsh) as Hswf.
  destruct (key_command_any w c conn_id args Hc sh Hsh Hswf cmd Hin) as [Hu|Hl]; [by left|].
  right; left. destruct (Hl sh Hsh Hswf) as (o & sh' & n & E & Hwf' & Hother & Hr).
  unfold r. rewrite E. unfold ran_here. cbn [fst snd].
  destruct (at_shard_wf w c sh sh' n (args !!! 1) Hwf Hsh Hwf' Hc Hother) as [Hwf'' Hdb].
  split_and!; done.
Qed.

(** ** The shared state *)

(** A request is at the owner of its key; a response has something to say. *)
Definition msg_ok (t : Topology) (c : nat) (m : Message) : Prop :=
  match msg_type m with
  | REQUEST => msg_args m ≠ [] ∧ get_target_core t (msg_args m !!! 1) = c ∧
      msg_key m = msg_args m !!! 1 ∧ origin_core_id m < num_cores_ t
  | RESPONSE => payload m ≠ EmptyString
  end.

Definition inbox_ok (t : Topology) : Prop :=
  ∀ c ch m, channels_ t !! c = Some ch → m ∈ queue_ ch → msg_ok t c m.

Record world_ok (w : World) : Prop := {
  wo_topo : topo_wf (topo w);
  wo_inbox : inbox_ok (topo w);
  wo_counters fd n : eventfds w !! fd = Some n → (0 ≤ n)%Z;
  wo_wakes : (0 < wake_limit (wakes w))%Z
}.

Lemma msg_ok_shape t t' c m : same_shape t t' → msg_ok t c m → msg_ok t' c m.
Proof.
  intros Hs. unfold msg_ok. destruct (msg_type m); [|done].
  rewrite (same_shape_target t t' _ Hs). by destruct Hs as [-> _ _ _].
Qed.

Lemma ran_here_ok w k r w' : world_ok w → ran_here w k r w' → world_ok w' ∧ grows w w'.
Proof.
  intros [Hwf Hi Hn Hk] (Hwf' & Hs & Hc & He & Hk' & _). split; [|by apply grows_same].
  split; [done| |by rewrite He|by rewrite Hk']. intros c ch m. rewrite Hc. intros Hch Hm.
  by eapply msg_ok_shape, Hi.
Qed.

(** [get_channel(c)->push(m)] and [notify_core(c)]. *)
Definition send (c : nat) (m : Message) : prog unit := push_channel c m;; notify_core c.

Lemma send_ok w c m :
  world_ok w → c < num_cores_ (topo w) → msg_ok (topo w) c m →
  ∃ w', send c m w = (Ok tt, w') ∧ world_ok w' ∧ grows w w' ∧
    shards_ (topo w') = shards_ (topo w) ∧
    ∃ l, inbox w c = Some l ∧ inbox w' c = Some (l ++ [m]) ∧ woken w' c ∧
      ∀ c', c' ≠ c → inbox w' c' = inbox w c'.
Proof.
  intros [Hwf Hi Hn Hlim] Hc Hm.
  destruct (lookup_lt_is_Some_2 (channels_ (topo w)) c) as [ch Hch].
  { by rewrite (tw_channels _ Hwf). }
  unfold send. erewrite bind_ok by (unfold push_channel; by rewrite Hch).
  set (w1 := set_topo _ _). destruct (notify_core_spec c w1) as (w' & E & Ht & Hk & Hle & Hwk); [done|done|].
  exists w'. split; [done|].
  assert (inbox w' c = Some (queue_ ch ++ [m])) as Hin.
  { unfold inbox. rewrite Ht. simpl. rewrite list_lookup_insert_eq; [done|]. by eapply lookup_lt_Some. }
  assert (∀ c', c' ≠ c → inbox w' c' = inbox w c') as Hother.
  { intros c' Hne. unfold inbox. rewrite Ht. simpl. by rewrite list_lookup_insert_ne. }
  split_and!.
  - split; rewrite ?Ht.
    + apply set_channels_wf; [done|]. rewrite length_insert. apply Hwf.
    + intros c' ch' m' Hc' Hm'. apply (msg_ok_shape (topo w)); [done|].
      apply list_lookup_insert_Some in Hc' as [(<- & <- & _)|[_ Hc']]; [|by eapply Hi].
      simpl in Hm'. apply elem_of_app in Hm' as [?|Hm']; [by eapply Hi|].
      by apply list_elem_of_singleton in Hm' as ->.
    + intros fd n Hfd. specialize (Hle fd). rewrite Hfd in Hle. cbn [w1 eventfds set_topo] in Hle.
      destruct (eventfds w !! fd) as [n0|] eqn:E0; inversion Hle; subst. apply Hn in E0. lia.
    + by rewrite Hk.
  - split; [by rewrite Ht|done|]. intros c'. destruct (decide (c' = c)) as [->|]; [by right; right|].
    left. by apply Hother.
  - by rewrite Ht.
  - exists (queue_ ch). split_and!; [|done..]. unfold inbox. by rewrite Hch.
Qed.

Lemma forward_ok c conn_id args w :
  world_ok w → c < num_cores_ (topo w) → args ≠ [] →
  ∃ w', forward_request c conn_id args w = (Ok EmptyString, w') ∧ world_ok w' ∧ grows w w'.
Proof.
  intros Hw Hc Ha. pose proof Hw as [Hwf _ _ _].
  destruct (send_ok w (get_target_core (topo w) (args !!! 1)) (request c conn_id args))
    as (w' & E & ? & ? & _); [done|by apply target_core_lt|done|].
  exists w'. split; [|done]. unfold forward_request. rewrite bind_gets.
  unfold send in E. apply bind_inv_ok in E as ([] & w1 & E1 & E2).
  erewrite bind_ok by exact E1. by erewrite bind_ok by exact E2.
Qed.

Lemma exec_keeps w c name cmd conn_id args :
  world_ok w → c < num_cores_ (topo w) → args ≠ [] →
  get_command registry name = Some cmd →
  let r := cmd_execute cmd c conn_id args w in
  r.1 ≠ Undefined → world_ok r.2 ∧ grows w r.2.
Proof.
  intros Hw Hc Ha Hcmd r Hu. pose proof Hw as [Hwf _ _ _].
  destruct (exec_cases w c name cmd conn_id args Hwf Hcmd) as [Hun|[Hh|[_ E]]]; [done| |].
  - by eapply ran_here_ok.
  - destruct (forward_ok c conn_id args w Hw Hc Ha) as (w' & E' & ? & ?).
    unfold r. rewrite E, E'. done.
Qed.

Lemma execute_registered c id name args cmd :
  get_command registry (to_upper name) = Some cmd →
  execute_command c id (name :: args) = cmd_execute cmd c id (name :: args).
Proof.
  intros Hc. pose proof (registered_plain _ _ Hc) as Hp. rewrite plain_upper in Hp.
  unfold execute_command. rewrite transform_plain by done. unfold mbind, comp_bind, mret, comp_ret. by rewrite Hc.
Qed.

Lemma execute_command_keeps c conn_id args w :
  world_ok w → c < num_cores_ (topo w) →
  let r := execute_command c conn_id args w in
  r.1 ≠ Undefined → world_ok r.2 ∧ grows w r.2.
Proof.
  intros Hw Hc. unfold execute_command. destruct args as [|arg0 args]; [done|].
  unfold transform_upper. destruct (plain arg0); [|done]. rewrite bind_ret_l.
  destruct (get_command registry (to_upper arg0)) as [cmd|] eqn:E; [by eapply exec_keeps|].
  by case_bool_decide.
Qed.

(** A request is executed where it was sent: it is never forwarded again, and it
    is answered unless the table is full. *)
Lemma request_here c msg w :
  world_ok w → msg_type msg = REQUEST → msg_ok (topo w) c msg →
  let r := execute_request c msg w in
  r.1 = Undefined ∨ ran_here w (msg_args msg !!! 1) r.1 r.2.
Proof.
  intros [Hwf Hi _ _] Ht Hm. unfold msg_ok in Hm. rewrite Ht in Hm.
  destruct Hm as (Ha & Hc & _ & _). unfold execute_request.
  destruct (msg_args msg) as [|name args] eqn:Ea; [done|].
  destruct (get_command registry name) as [cmd|] eqn:Ecmd.
  - destruct (exec_cases w c name cmd (msg_conn_id msg) (name :: args) Hwf Ecmd) as [?|[?|[? _]]];
      [by left|by right|done].
  - right. by apply ran_here_reply.
Qed.

End handlers.

(** ** Parts of the state handlers leave alone *)

(** [m] does not change [f]. *)
Definition keeps {P A} (f : Server → P) (m : handler A) : Prop := ∀ s, f (m s).2 = f s.

(** [f] does not look at the core. *)
Class Coreless {P} (f : Server → P) : Prop := coreless s k : f (set_core s k) = f s.
#[export] Instance world_coreless : Coreless world.
Proof. done. Qed.
#[export] Instance counter_coreless : Coreless next_conn_id.
Proof. done. Qed.

Section keeps.
Context {P : Type} (f : Server → P).

Lemma keeps_ret {A} (a : A) : keeps f (mret a).
Proof. done. Qed.
Lemma keeps_undefined {A} : keeps (A := A) f undefined.
Proof. done. Qed.
Lemma keeps_gets {A} (g : Server → A) : keeps f (gets g).
Proof. done. Qed.
Lemma keeps_bind {A B} (m : handler A) (k : A → handler B) :
  keeps f m → (∀ a, keeps f (k a)) → keeps f (m ≫= k).
Proof.
  intros Hm Hk s. unfold mbind, comp_bind. specialize (Hm s).
  destruct (m s) as [[a|e|] s']; simpl in *; [|done..]. by rewrite Hk.
Qed.
Lemma keeps_fold {A B} (g : A → B → handler A) l :
  (∀ a b, keeps f (g a b)) → ∀ a, keeps f (foldM g a l).
Proof. intros Hg. induction l as [|b l IH]; intros a; simpl; [done|]. by apply keeps_bind. Qed.

Context `{!Coreless f}.
Lemma keeps_ctx {A} (m : comp IoContext A) : keeps f (on_ctx m).
Proof using Coreless0. intros s. unfold on_ctx. destruct (m _). apply coreless. Qed.
Lemma keeps_this id : keeps f (this id).
Proof. intros s. unfold this. by case_match. Qed.
Lemma keeps_put id x : keeps f (put_this id x).
Proof using Coreless0. intros s. apply coreless. Qed.
Lemma keeps_disconnect id : keeps f (disconnect id).
Proof using Coreless0. intros s. apply coreless. Qed.
Lemma keeps_consume id data : keeps f (parser_consume id data).
Proof using Coreless0.
  intros s. unfold parser_consume. case_match; [|done].
  destruct (consume data _) as [[[]| |] ?]; apply coreless.
Qed.
End keeps.

Create HintDb keeps.
#[export] Hint Resolve keeps_ret keeps_undefined keeps_gets keeps_ctx keeps_this keeps_put
  keeps_disconnect keeps_consume : keeps.
#[export] Hint Resolve world_coreless counter_coreless : keeps.

Ltac keeps := repeat first
  [ progress eauto with keeps | apply keeps_bind; [|intros ?] | case_match ].

Lemma keeps_submit_read {P} (f : Server → P) `{!Coreless f} id : keeps f (submit_read id).
Proof. unfold submit_read. keeps. Qed.
Lemma keeps_submit_front {P} (f : Server → P) `{!Coreless f} id x : keeps f (submit_front id x).
Proof. unfold submit_front. keeps. Qed.
Lemma keeps_submit_accept {P} (f : Server → P) `{!Coreless f} : keeps f submit_accept.
Proof. unfold submit_accept. keeps. Qed.
#[export] Hint Resolve keeps_submit_read keeps_submit_front keeps_submit_accept : keeps.
Lemma keeps_submit_write {P} (f : Server → P) `{!Coreless f} id data : keeps f (submit_write id data).
Proof. unfold submit_write. keeps. Qed.
#[export] Hint Resolve keeps_submit_write : keeps.
Lemma keeps_handle_write {P} (f : Server → P) `{!Coreless f} id res : keeps f (handle_write id res).
Proof. unfold handle_write. keeps. Qed.
#[export] Hint Resolve keeps_handle_write : keeps.
