(* ===== verification/DatabaseTheorems.v ===== *)
(** * The server as a database, command by command

    Every registered command other than SAVE has a specification
    ([registered_spec]) and implements it ([database_refines]); its replies can
    be told apart on the wire ([replies_framed]); the kind of a key is changed by
    SET and DEL only ([kind_stable]). *)
From S2P Require Import Prelude CxxString Double Containers Value Store HashMap Shard Router Topology Command Exec Ranges Wire StringCommands ListCommands SetCommands HashCommands ZSetCommands Spec Rdb RdbProofs Registry Replies Safety DatabaseRefinement RespParser UringStub IoContext Connection Worker Handlers.
From Stdlib Require Import ZArith Ascii Lia.
From stdpp Require Import prelude gmap strings list_numbers sorting.

(** ** The specifications *)

Lemma specs_found : Forall (λ sp, find_spec (sp_name sp) = Some sp) specs.
Proof. unfold specs. repeat (apply Forall_cons_2; [reflexivity|]). apply Forall_nil_2. Qed.

Lemma find_spec_Some name sp : find_spec name = Some sp → sp ∈ specs ∧ sp_name sp = name.
Proof.
  unfold find_spec. destruct (list_find _ specs) as [[i sp']|] eqn:E; [|done]. intros [= <-].
  apply list_find_Some in E as (Hi & Hn & _). by apply list_elem_of_lookup_2 in Hi.
Qed.

(** *** Replies *)

Lemma reading_wf {A} (as_kind : content → option A) m g o :
  resp_wf m = true → (∀ a, resp_wf (g a) = true) → resp_wf (reading as_kind m g o).1 = true.
Proof. intros Hm Hg. unfold reading. by repeat case_match; simpl. Qed.
Lemma updating_wf {A} (as_kind : content → option A) mk m g o :
  resp_wf m = true → (∀ a, resp_wf (g a).1 = true) → resp_wf (updating as_kind mk m g o).1 = true.
Proof. intros Hm Hg. unfold updating. by repeat case_match; simpl. Qed.
Lemma making_wf {A} (as_kind : content → option A) mk a g o :
  (∀ a, resp_wf (g a).1 = true) → resp_wf (making as_kind mk a g o).1 = true.
Proof. intros Hg. unfold making. case_match; [by apply updating_wf|apply Hg]. Qed.
Lemma maybe_bulk_wf o : resp_wf (maybe_bulk o) = true.
Proof. by destruct o. Qed.

Lemma on_live_wf f t t' args e :
  (∀ o, resp_wf (f args o).1 = true) → resp_wf (on_live f t t' args e).1 = true.
Proof. intros Hf. unfold on_live. specialize (Hf (fst <$> live t e)). by destruct (f args _). Qed.

(** No reply of the specification contains the end of a line inside a line. *)
Lemma effects_wf :
  Forall (λ sp, ∀ t t' args e, resp_wf (sp_effect sp t t' args e).1 = true) specs.
Proof.
  unfold specs. repeat (apply Forall_cons_2; [intros t t' args e; cbn [sp_effect]|]);
    [..|apply Forall_nil_2].
  all: try (apply on_live_wf; intros o;
    first [apply reading_wf|apply updating_wf|apply making_wf|unfold e_get];
    intros; first [done|apply maybe_bulk_wf|by repeat case_match]).
  all: try done. unfold s_expire. by repeat case_match.
Qed.

Lemma sp_run_wf sp t t' args e : sp ∈ specs → resp_wf (sp_run sp t t' args e).1 = true.
Proof.
  intros Hin. unfold sp_run. destruct (sp_arity sp (length args)).
  - pose proof effects_wf as He. rewrite Forall_forall in He. by apply He.
  - revert Hin. unfold specs. simpl. clear. intros Hin.
    repeat (apply elem_of_cons in Hin as [->|Hin]; [done|]). by apply elem_of_nil in Hin.
Qed.

(** *** Kinds *)

Definition kind_of (c : content) : ValueType :=
  match c with
  | CNone => NONE
  | CString _ => STRING
  | CList _ => LIST
  | CSet _ => SET
  | CHash _ => HASH
  | CZSet _ => ZSET
  end.

Lemma kind_abs v : kind_of (abs_value v) = get_type v.
Proof. by destruct v. Qed.

(** What the effect writes over a content is of the same kind. *)
Definition keeps_kind (f : effect) : Prop :=
  ∀ c c', (f (Some c)).2 = Some c' → kind_of c' = kind_of c.

Lemma reading_kind {A} (as_kind : content → option A) m g : keeps_kind (reading as_kind m g).
Proof. intros c c'. by rewrite reading_keeps. Qed.

Lemma updating_kind {A} (as_kind : content → option A) mk m g :
  (∀ c a b, as_kind c = Some a → kind_of (mk b) = kind_of c) → keeps_kind (updating as_kind mk m g).
Proof. intros Hk c c'. unfold updating. case_match; simpl; [|done]. intros [= <-]. by eapply Hk. Qed.

Lemma making_kind {A} (as_kind : content → option A) mk a g :
  (∀ c a b, as_kind c = Some a → kind_of (mk b) = kind_of c) → keeps_kind (making as_kind mk a g).
Proof. apply (updating_kind as_kind mk RNil). Qed.

(** The deadline and the kind of a live key after a command: only SET and DEL
    change the kind, only SET, DEL and EXPIRE the deadline. *)
Definition stable (sp : Spec) : Prop :=
  ∀ t t' args c x, sp_name sp ∉ ["SET"; "DEL"] →
  live t (Some (c, x)) = Some (c, x) →
  ∃ c' x', (sp_effect sp t t' args (Some (c, x))).2 = Some (c', x') ∧ kind_of c' = kind_of c ∧
    (sp_name sp ≠ "EXPIRE" → x' = x).

Lemma on_live_stable name lower arity f :
  (∀ args, keeps_kind (f args)) → stable (mkSpec name lower arity (on_live f)).
Proof.
  intros Hf t t' args c x _ Hl. cbn [sp_effect sp_name]. unfold on_live. rewrite Hl.
  specialize (Hf args c). cbn [fmap option_fmap option_map fst].
  destruct (f args (Some c)) as [r [c'|]]; simpl in *; eexists _, _; (split; [done|]); auto.
Qed.

Lemma specs_stable : Forall stable specs.
Proof.
  unfold specs. repeat (apply Forall_cons_2); [..|apply Forall_nil_2].
  all: try (intros t t' args c x Hn; exfalso; apply Hn; simpl;
    first [apply list_elem_of_here|apply list_elem_of_further, list_elem_of_here]).
  all: try (apply on_live_stable; intros args;
    first [apply reading_kind|apply updating_kind|apply making_kind|by intros c c'];
    by intros []).
  - intros t t' args c x _ Hl. cbn [sp_effect sp_name]. unfold s_expire. rewrite Hl.
    destruct (stol _); eexists _, _; by split_and!.
  - intros t t' args c x _ Hl. cbn [sp_effect sp_name]. unfold s_ttl. rewrite Hl.
    eexists _, _. by split_and!.
Qed.

Lemma live_stored t e p : live t e = Some p → e = Some p.
Proof. unfold live. destruct e as [[c [d|]]|]; simpl; [case_match; [done|]|..]; congruence. Qed.

Lemma sp_run_stable sp t t' args e c x :
  sp ∈ specs → sp_name sp ∉ ["SET"; "DEL"] → live t e = Some (c, x) →
  ∃ c' x', (sp_run sp t t' args e).2 = Some (c', x') ∧ kind_of c' = kind_of c ∧
    (sp_name sp ≠ "EXPIRE" → x' = x).
Proof.
  intros Hin Hn Hl. pose proof (live_stored _ _ _ Hl) as ->. unfold sp_run.
  pose proof specs_stable as Hs. rewrite Forall_forall in Hs.
  destruct (sp_arity sp (length args)); [by apply Hs|]. simpl. eauto.
Qed.

(** ** The registered commands *)

Section database.
Context `{StdHash} `{FileSystem}.

Lemma registered_spec name cmd :
  get_command registry name = Some cmd → cmd ∈ key_commands →
  ∃ sp, find_spec name = Some sp ∧ realizes cmd sp.
Proof.
  intros [_ Hn]%registered Hin. apply list_elem_of_lookup_1 in Hin as [i Hi].
  destruct (Forall2_lookup_l _ _ _ _ _ commands_realize Hi) as (sp & Hsp & Hr).
  exists sp. split; [|done]. pose proof specs_found as Hf. rewrite Forall_forall in Hf.
  rewrite <- Hn, (proj1 Hr). apply Hf. by eapply list_elem_of_lookup_2.
Qed.

Lemma spec_realized name cmd sp :
  get_command registry name = Some cmd → find_spec name = Some sp → realizes cmd sp.
Proof.
  intros Hc Hs. destruct (registered_cases name cmd Hc) as [Hn [Hin| ->]].
  - destruct (registered_spec name cmd Hc Hin) as (sp' & E & ?). congruence.
  - cbn in Hn. subst name. discriminate Hs.
Qed.

Lemma spec_registered name sp : find_spec name = Some sp → is_Some (get_command registry name).
Proof.
  intros [Hin <-]%find_spec_Some. apply list_elem_of_lookup_1 in Hin as [i Hi].
  destruct (Forall2_lookup_r _ _ _ _ _ commands_realize Hi) as (cmd & Hcmd & <- & _).
  exists cmd. rewrite registry_spec. apply elem_of_list_to_map_1; [by apply (bool_decide_unpack _)|].
  apply list_elem_of_fmap. exists cmd. split; [done|]. apply elem_of_app. left.
  by eapply list_elem_of_lookup_2.
Qed.

Lemma unregistered_spec name : get_command registry name = None → find_spec name = None.
Proof.
  intros Hc. destruct (find_spec name) as [sp|] eqn:Es; [|done].
  destruct (spec_registered name sp Es). congruence.
Qed.

(** The command cannot have undefined behaviour where [cmd_pre] holds. *)
Lemma owner_defined w name cmd conn_id args :
  topo_wf (topo w) → get_command registry name = Some cmd → cmd ∈ key_commands →
  let c := get_target_core (topo w) (args !!! 1) in
  cmd_pre w c name args → (cmd_execute cmd c conn_id args w).1 ≠ Undefined.
Proof.
  intros Hwf Hc Hin c Hp. destruct (registered_cases name cmd Hc) as [<- _].
  destruct (exec_owner w c cmd conn_id args Hwf Hin eq_refl Hp) as (r & w' & -> & _ & _ & _ & Hr).
  by destruct r.
Qed.

(** C5. Every command on the core that owns its key behaves as the abstract
    database: it replies the bytes of the specified reply (where the server's
    integers can count its elements) and leaves the key with the specified content
    and deadline and every other key as it was; or it throws because a new key
    finds no slot in the table, and the key stays absent.  It has defined behaviour
    wherever [cmd_pre] holds (no NaN score, containers an [int] can count, times
    within [long long], an option of ZRANGE that [toupper] is defined on). *)
Theorem database_refines w name cmd sp conn_id args :
  topo_wf (topo w) → get_command registry name = Some cmd → find_spec name = Some sp →
  let k := args !!! 1 in
  let c := get_target_core (topo w) k in
  let t := clock w (ticks w) in
  let r := cmd_execute cmd c conn_id args w in
  let s := sp_run sp t (clock w (S (ticks w))) args (abs_db w k) in
  (r.1 = Undefined ∨ executes w k (range_ok name (fst <$> live t (abs_db w k))) s r ∨
   refuses w k s r) ∧
  (cmd_pre w c name args → r.1 ≠ Undefined).
Proof.
  intros Hwf Hc Hs k c t r s. destruct (find_spec_Some name sp Hs) as [_ Hn].
  destruct (spec_realized name cmd sp Hc Hs) as [Hn' Hr]. split.
  - rewrite <- Hn. by apply Hr.
  - destruct (registered_cases name cmd Hc) as [Hn2 [Hin| ->]]; [by apply owner_defined|].
    rewrite <- Hn2 in Hs. discriminate Hs.
Qed.

(** C20. Only SET and DEL change the kind of a live key, and only they and EXPIRE
    its deadline: after any other command that replies, a key that held a value
    still holds a well-formed value of the same type, with the same deadline. *)
Theorem kind_stable w name cmd conn_id args v x reply w' :
  topo_wf (topo w) → get_command registry name = Some cmd → name ∉ ["SET"; "DEL"; "SAVE"] →
  let k := args !!! 1 in
  entry_at w k = Some (v, x) →
  cmd_execute cmd (get_target_core (topo w) k) conn_id args w = (Ok reply, w') →
  ∃ v' x', topo_db (topo w') k = Some (v', x') ∧ get_type v' = get_type v ∧
    (name ≠ "EXPIRE" → x' = x).
Proof.
  intros Hwf Hc Hn k He E. destruct (registered_cases name cmd Hc) as [Hn2 [Hin| ->]].
  2:{ destruct Hn. rewrite <- Hn2. by repeat constructor. }
  destruct (registered_spec name cmd Hc Hin) as (sp & Hs & _ & Hr).
  destruct (find_spec_Some name sp Hs) as [Hsp <-].
  specialize (Hr w conn_id args Hwf). cbv zeta in Hr. fold k in Hr. rewrite E in Hr.
  destruct Hr as [Hu|[(_ & _ & Hk & _)|(_ & _ & Hf & _)]]; [done| |done].
  destruct (sp_run_stable sp (clock w (ticks w)) (clock w (S (ticks w))) args (abs_db w k)
    (abs_value v) x Hsp) as (c' & x' & E' & Hkind & Hx).
  { intros Hi. apply Hn. exact (proj2 (elem_of_app ["SET"; "DEL"] ["SAVE"] _) (or_introl Hi)). }
  { by rewrite live_abs, He. }
  cbn [snd] in Hk. rewrite E' in Hk. unfold abs_db in Hk.
  destruct (topo_db (topo w') k) as [[v' y]|]; [|done]. injection Hk as <- <-.
  exists v', y. split; [done|]. by rewrite <- !kind_abs.
Qed.

(** ** Replies on the wire *)

(** The reply of a registered command, on whatever core it runs. *)
Lemma command_framed w c name cmd conn_id args s w' :
  topo_wf (topo w) → get_command registry name = Some cmd →
  cmd_execute cmd c conn_id args w = (Ok s, w') → s ≠ EmptyString →
  let k := args !!! 1 in
  (get_target_core (topo w) k = c →
   range_ok name (fst <$> live (clock w (ticks w)) (abs_db w k))) →
  ∃ v, resp_wf v = true ∧ s = render v.
Proof.
  intros Hwf Hc E Hne k Hr. destruct (registered_cases name cmd Hc) as [Hn [Hin| ->]].
  2:{ destruct (exec_save w c conn_id args Hwf) as (reply & w1 & E' & _ & Hv & _).
      cbn [cmd_execute SaveCommand] in E. rewrite E' in E. injection E as <- _. eauto. }
  destruct (decide (get_target_core (topo w) k = c)) as [Ho|Ho].
  - destruct (registered_spec name cmd Hc Hin) as (sp & Hs & _ & Hreal).
    destruct (find_spec_Some name sp Hs) as [Hsp Hname].
    specialize (Hreal w conn_id args Hwf). cbv zeta in Hreal. fold k in Hreal.
    rewrite Ho, E, Hname in Hreal.
    destruct Hreal as [Hu|[((b & Hb & _ & Hrep) & _)|(_ & _ & Hf & _)]]; [done| |done].
    injection Hb as <-. eexists. split; [by apply (sp_run_wf sp)|]. by apply Hrep, Hr.
  - destruct (exec_elsewhere w c cmd conn_id args Hin Ho) as [(err & He & E')|E'].
    + rewrite E' in E. injection E as <- _. eauto.
    + destruct (forward_request_spec w c conn_id args Hwf) as (ch & wf & _ & E2 & _). congruence.
Qed.

Lemma to_upper_cr s : cr ∉ bytes_of_string s → cr ∉ bytes_of_string (to_upper s).
Proof.
  induction s as [|a s IH]; simpl; [done|]. rewrite !not_elem_of_cons. intros [Ha Hs].
  split; [|by apply IH]. intros E. apply Ha.
  revert E. clear. destruct a as [[] [] [] [] [] [] [] []]; vm_compute; congruence.
Qed.

(** C19. Every reply a connection gives is one well-formed reply of the protocol: a
    client that reads it off the stream gets exactly the value the server meant
    and is left with exactly the bytes that follow it - provided the name of the
    command contains no carriage return and the elements of the reply can be
    counted. *)
Theorem replies_framed c conn_id name args w s w' :
  topo_wf (topo w) → execute_command c conn_id (name :: args) w = (Ok s, w') → s ≠ EmptyString →
  cr ∉ bytes_of_string name →
  let k := (name :: args) !!! 1 in
  (get_target_core (topo w) k = c →
   range_ok (to_upper name) (fst <$> live (clock w (ticks w)) (abs_db w k))) →
  ∃ v, s = render v ∧ ∀ rest, read_reply (bytes_of_string s ++ rest) = Some (v, rest).
Proof.
  intros Hwf E Hne Hcr k Hr.
  assert (∃ v, resp_wf v = true ∧ s = render v) as (v & Hv & ->).
  2:{ exists v. split; [done|]. intros rest. by apply render_read. }
  unfold execute_command, transform_upper in E. destruct (plain name); [|done]. rewrite bind_ret_l in E.
  destruct (get_command registry (to_upper name)) as [cmd|] eqn:Ec; [by eapply command_framed|].
  case_bool_decide; injection E as <- _; [by exists (RSimple "PONG")|].
  exists (RError ("ERR unknown command '" +:+ to_upper name +:+ "'")). split.
  - apply bool_decide_eq_true. rewrite !bytes_of_string_app, !elem_of_app.
    assert (cr ∉ bytes_of_string "ERR unknown command '") by by apply (bool_decide_unpack _).
    assert (cr ∉ bytes_of_string "'") by by apply (bool_decide_unpack _).
    pose proof (to_upper_cr name Hcr). by intros [?|[?|?]].
  - cbn [render]. by rewrite !string_app_assoc.
Qed.

(** C32. A command name with a line break in it splits its error reply in two: for a
    name [X CR LF + text], which is no command, the client reads an error that ends
    at the break and then, as the answer to its next request, a status reply with a
    text the sender of the name chose (in upper case, of bytes [toupper] is
    defined on). *)
Theorem reply_splitting c conn_id args w text :
  cr ∉ bytes_of_string text → to_upper text = text → plain text = true →
  ∃ s e, execute_command c conn_id (("X" +:+ crlf +:+ "+" +:+ text) :: args) w = (Ok s, w) ∧
  ∀ rest, ∃ b, read_reply (bytes_of_string s ++ rest) = Some (RError e, b) ∧
    read_reply b = Some (RSimple (text +:+ "'"), rest).
Proof.
  intros Hcr Hup Hpl. set (name := "X" +:+ crlf +:+ "+" +:+ text).
  assert (to_upper name = name) as Hn.
  { change (to_upper name) with ("X" +:+ crlf +:+ "+" +:+ to_upper text). by rewrite Hup. }
  assert (get_command registry name = None) as Hc.
  { destruct (get_command registry name) as [cmd|] eqn:E; [|done].
    apply registered in E as [Hin Hname]. revert Hname. unfold name. clear -Hin.
    unfold all_commands, key_commands in Hin. simpl in Hin.
    repeat (apply elem_of_cons in Hin as [->|Hin]; [discriminate|]). by apply elem_of_nil in Hin. }
  eexists _, "ERR unknown command 'X". split.
  { unfold execute_command. rewrite transform_plain by exact Hpl. rewrite bind_ret_l, Hn, Hc. rewrite bool_decide_eq_false_2 by (unfold name; discriminate).
    reflexivity. }
  intros rest. exists (bytes_of_string ("+" +:+ (text +:+ "'") +:+ crlf) ++ rest). split.
  - transitivity (read_reply (bytes_of_string (render (RError "ERR unknown command 'X")) ++
      bytes_of_string ("+" +:+ (text +:+ "'") +:+ crlf) ++ rest)).
    + f_equal. rewrite app_assoc, <- bytes_of_string_app. do 2 f_equal.
      unfold name. cbn [render]. by rewrite !string_app_assoc.
    + by apply render_read.
  - apply (render_read (RSimple (text +:+ "'"))). apply bool_decide_eq_true.
    rewrite bytes_of_string_app, elem_of_app. intros [?|Hq]; [done|].
    revert Hq. by apply (bool_decide_unpack _).
Qed.

End database.

(** ** Examples: a key that holds a list *)

Section examples.
#[local] Existing Instance demo_hash.
#[local] Instance demo_fs2 : FileSystem := λ _, true.

Lemma demo_abs k v : value_wf v → abs_db (demo_store k v) k = Some (abs_value v, None).
Proof.
  intros Hv. destruct (demo_store_ok k v Hv) as (_ & _ & He).
  apply (live_stored (clock (demo_store k v) (ticks (demo_store k v)))). by rewrite live_abs, He.
Qed.

Lemma database_refines_witness :
  let r := cmd_execute LPushCommand 0 7 ["LPUSH"; "k"; "x"] (demo_store "k" (VList ["a"])) in
  r.1 = Ok (render (RInt 2)) ∧ abs_db r.2 "k" = Some (CList ["x"; "a"], None).
Proof.
  cbv zeta. destruct (find_spec "LPUSH") as [sp|] eqn:Es; [|discriminate Es].
  destruct (demo_store_ok "k" (VList ["a"]) I) as (Hwf & Hk & He).
  pose proof (demo_abs "k" (VList ["a"]) I) as Hd.
  pose proof (database_refines (demo_store "k" (VList ["a"])) "LPUSH" LPushCommand sp 7
    ["LPUSH"; "k"; "x"] Hwf eq_refl Es) as Hr.
  cbv zeta in Hr. change (["LPUSH"; "k"; "x"] !!! 1) with "k" in Hr. rewrite Hk, Hd in Hr.
  injection Es as <-. destruct Hr as [[Hu|[((b & Eb & _ & Hb) & _ & Ha & _)|(Hl & _)]] Hpre].
  - destruct Hpre; [|exact Hu]. intros sh _. repeat split; discriminate.
  - split; [|exact Ha]. rewrite Eb. f_equal. apply Hb. discriminate.
  - rewrite live_abs, He in Hl. discriminate Hl.
Defined.

Lemma kind_stable_witness :
  ∃ reply w', cmd_execute LPushCommand 0 7 ["LPUSH"; "k"; "x"] (demo_store "k" (VList ["a"])) =
      (Ok reply, w') ∧
    ∃ v', topo_db (topo w') "k" = Some (v', None) ∧ get_type v' = LIST.
Proof.
  destruct (demo_store_ok "k" (VList ["a"]) I) as (Hwf & Hk & He).
  pose proof (owner_defined (demo_store "k" (VList ["a"])) "LPUSH" LPushCommand 7
    ["LPUSH"; "k"; "x"] Hwf eq_refl) as Hd.
  pose proof (λ reply w', kind_stable (demo_store "k" (VList ["a"])) "LPUSH" LPushCommand 7
    ["LPUSH"; "k"; "x"] (VList ["a"]) None reply w' Hwf eq_refl) as Hs.
  cbv zeta in Hd, Hs. change (["LPUSH"; "k"; "x"] !!! 1) with "k" in Hd, Hs. rewrite Hk in Hd, Hs.
  pose proof (registered_spec "LPUSH" LPushCommand eq_refl) as Hsp.
  assert (LPushCommand ∈ key_commands) as Hin by (unfold key_commands; simpl; by repeat (left || right)).
  destruct (Hsp Hin) as (sp & Es & _ & Hr). injection Es as <-.
  specialize (Hr (demo_store "k" (VList ["a"])) 7%Z ["LPUSH"; "k"; "x"] Hwf). cbv zeta in Hr.
  change (["LPUSH"; "k"; "x"] !!! 1) with "k" in Hr. rewrite Hk, (demo_abs "k" (VList ["a"]) I) in Hr.
  destruct (cmd_execute LPushCommand 0 7 ["LPUSH"; "k"; "x"] (demo_store "k" (VList ["a"])))
    as [[reply|e|] w'].
  - exists reply, w'. split; [reflexivity|].
    destruct (Hs reply w') as (v' & x' & E & Ht & Hx).
    + by apply (bool_decide_unpack _).
    + exact He.
    + reflexivity.
    + exists v'. rewrite <- Hx by discriminate. exact (conj E Ht).
  - destruct Hr as [Hu|[((b & Eb & _) & _)|(Hl & _)]]; [discriminate Hu|discriminate Eb|].
    rewrite live_abs, He in Hl. discriminate Hl.
  - destruct (Hd Hin); [|reflexivity]. intros sh _. repeat split; discriminate.
Defined.

(** The error of an unknown command, and the reply after it. *)
Lemma replies_framed_witness :
  let rest := bytes_of_string ("+PONG" +:+ crlf) in
  ∃ v, read_reply (bytes_of_string ("-ERR unknown command 'NOSUCH'" +:+ crlf) ++ rest) = Some (v, rest).
Proof.
  intros rest. destruct (replies_framed 0 7 "nosuch" [] (demo_world 1) _ _ demo_wf eq_refl)
    as (v & _ & Hv).
  - discriminate.
  - by apply (bool_decide_unpack _).
  - intros _. vm_compute. done.
  - exists v. exact (Hv rest).
Defined.

Lemma reply_splitting_witness :
  ∃ s e, execute_command 0 7 [("X" +:+ crlf +:+ "+" +:+ "OK")] (demo_world 1) = (Ok s, demo_world 1) ∧
  ∃ b, read_reply (bytes_of_string s) = Some (RError e, b) ∧ read_reply b = Some (RSimple "OK'", []).
Proof.
  destruct (reply_splitting 0 7 [] (demo_world 1) "OK") as (s & e & E & Hr).
  - by apply (bool_decide_unpack _).
  - reflexivity.
  - reflexivity.
  - exists s, e. split; [exact E|]. destruct (Hr []) as (b & E1 & E2). rewrite app_nil_r in E1.
    exists b. exact (conj E1 E2).
Defined.

End examples.
