(* ===== verification/CoreInvariant.v ===== *)
(** * The invariant of a core, kept by its handlers

    [core_ok] counts the requests posted on a core's ring.  While a completion is
    handled, the operation that completed is owed: it counts as posted until its
    handler posts it again or drops its connection.  [asks] says what each posted
    request asks the kernel for. *)
From S2P Require Import Prelude CxxString Double Containers Value Store HashMap Shard Router Topology Command Exec Rdb Registry Safety RespParser UringStub IoContext Connection Worker Handlers.
From Stdlib Require Import ZArith Ascii Lia.
From stdpp Require Import prelude gmap strings list_numbers.

(** How many requests of a kind are under way, counting one that is owed. *)
Definition posted (io : IoContext) (owed : option Operation) (op : Operation) : nat :=
  length (filter (λ o, o = Some op) (outstanding io)) + (if decide (owed = Some op) then 1 else 0).

Record conn_ok (io : IoContext) (owed : option Operation) (id : Z) (x : Connection) : Prop := {
  co_id : id_ x = id;
  co_parser : parser_ok (parser_ x);
  co_read : posted io owed (ReadOp id) = 1;
  co_write : posted io owed (WriteOp id) = if is_writing_ x then 1 else 0;
  co_queue : is_writing_ x = true ↔ write_queue_ x ≠ []
}.

(** What a request in the ring of a core asks for: the accept listens on the
    server's socket, the notification read on the core's own descriptor; a read
    fills the buffer of its connection up to its capacity, and a write sends the
    whole front of its connection's queue, each through the socket of that
    connection as long as it lives. *)
Definition asks (k : Core) (s : sqe) : Prop :=
  match user_data s with
  | Some (ReadOp id) =>
      opcode s = IORING_OP_READ ∧ addr s = Some (ReadBuffer id) ∧ len s = read_capacity ∧
      ∀ x, local_connections k !! id = Some x → fd s = fd_ x
  | Some (WriteOp id) =>
      opcode s = IORING_OP_WRITE ∧ addr s = Some (WriteBuffer id) ∧
      ∀ x, local_connections k !! id = Some x →
        fd s = fd_ x ∧ uint32 ∘ str_size <$> head (write_queue_ x) = Some (len s)
  | Some AcceptOp => opcode s = IORING_OP_ACCEPT ∧ fd s = server_fd_ k ∧ addr s = None
  | Some NotificationOp =>
      opcode s = IORING_OP_READ ∧ fd s = event_fd_ (ctx k) ∧ addr s = Some NotifyBuffer ∧ len s = 8%Z
  | None => False
  end.

Record core_ok (owed : option Operation) (k : Core) (next : Z) : Prop := {
  ko_slots : has_slots (ctx k);
  ko_fd : (0 ≤ event_fd_ (ctx k))%Z;
  ko_accept : posted (ctx k) owed AcceptOp = 1;
  ko_notify : posted (ctx k) owed NotificationOp = 1;
  ko_conns id x : local_connections k !! id = Some x → conn_ok (ctx k) owed id x;
  (* identifiers not given out yet are unused *)
  ko_fresh id : (next ≤ id)%Z → local_connections k !! id = None ∧
    posted (ctx k) owed (ReadOp id) = 0 ∧ posted (ctx k) owed (WriteOp id) = 0;
  ko_requests s : s ∈ requests (ring_ (ctx k)) → asks k s
}.

Lemma core_ok_next owed k next next' : core_ok owed k next → (next ≤ next')%Z → core_ok owed k next'.
Proof. intros [] Hle. split; try done. intros id Hid. apply ko_fresh0. lia. Qed.

(** ** What requests ask for *)

(** The operations on a connection. *)
Definition names (s : sqe) (id : Z) : Prop :=
  user_data s = Some (ReadOp id) ∨ user_data s = Some (WriteOp id).

Lemma asks_change k k' s :
  asks k s → event_fd_ (ctx k') = event_fd_ (ctx k) → server_fd_ k' = server_fd_ k →
  (∀ id x', names s id → local_connections k' !! id = Some x' →
     ∃ x, local_connections k !! id = Some x ∧ fd_ x' = fd_ x ∧
       (user_data s = Some (WriteOp id) → head (write_queue_ x') = head (write_queue_ x))) →
  asks k' s.
Proof.
  unfold asks, names. intros Ha He Hs Hl. destruct (user_data s) as [[id|id| |]|]; [| |by rewrite Hs|by rewrite He|done].
  - destruct Ha as (? & ? & ? & Ha). split_and!; [done..|]. intros x' Hx'.
    destruct (Hl id x') as (x & Hx & -> & _); [by left|done|]. by apply Ha.
  - destruct Ha as (? & ? & Ha). split_and!; [done..|]. intros x' Hx'.
    destruct (Hl id x') as (x & Hx & -> & Hq); [by right|done|]. rewrite Hq by done. by apply Ha.
Qed.

Lemma asks_insert k io' id x' s :
  asks k s → event_fd_ io' = event_fd_ (ctx k) →
  (names s id → ∃ x, local_connections k !! id = Some x ∧ fd_ x' = fd_ x ∧
     (user_data s = Some (WriteOp id) → head (write_queue_ x') = head (write_queue_ x))) →
  asks (mkCore io' (server_fd_ k) (<[id := x']> (local_connections k))) s.
Proof.
  intros Ha He Hid. apply (asks_change k); [done..|]. intros id' y Hn.
  cbn [local_connections]. intros [[<- <-]|[_ Hy]]%lookup_insert_Some; [by apply Hid|]. eauto.
Qed.

(** What is not posted is not in the ring. *)
Lemma not_posted io owed op s :
  posted io owed op = (if decide (owed = Some op) then 1 else 0) → s ∈ requests (ring_ io) → user_data s ≠ Some op.
Proof.
  unfold posted, outstanding. rewrite in_flight_requests, filter_app, length_app. intros Hp Hs E.
  assert (user_data s ∈ filter (λ o, o = Some op) (user_data <$> requests (ring_ io))) as Hin.
  { apply list_elem_of_filter. split; [done|]. by apply list_elem_of_fmap_2. }
  destruct (filter _ (user_data <$> _)); [by apply elem_of_nil in Hin|]. simpl in Hp. lia.
Qed.

(** ** Posting *)

Lemma posted_none io op op' :
  posted io (Some op) op' = posted io None op' + (if decide (op = op') then 1 else 0).
Proof.
  unfold posted. rewrite (decide_False (P := None = Some op')) by done.
  repeat case_decide; simplify_eq; lia.
Qed.

(** Posting adds one of the operation. *)
Lemma posted_add io io' owed op op' :
  outstanding io' ≡ₚ Some op :: outstanding io →
  posted io' owed op' = posted io owed op' + (if decide (op = op') then 1 else 0).
Proof.
  intros Hp. unfold posted. rewrite Hp. destruct (decide (op = op')) as [->|E].
  - rewrite filter_cons_True by done. simpl. lia.
  - rewrite filter_cons_False by congruence. lia.
Qed.

(** Posting what is owed settles the debt. *)
Lemma posted_settle io io' op op' :
  outstanding io' ≡ₚ Some op :: outstanding io → posted io' None op' = posted io (Some op) op'.
Proof. intros Hp. by rewrite (posted_add io io' None op), posted_none. Qed.

(** A change of the posted requests that concerns one connection, and the change
    of that connection that goes with it. *)
Lemma core_ok_change owed owed' k next io' id l' :
  core_ok owed k next → has_slots io' → event_fd_ io' = event_fd_ (ctx k) → (id < next)%Z →
  (∀ op, op ≠ ReadOp id → op ≠ WriteOp id → posted io' owed' op = posted (ctx k) owed op) →
  (∀ id', id' ≠ id → l' !! id' = local_connections k !! id') →
  (∀ x, l' !! id = Some x → conn_ok io' owed' id x) →
  (∀ s, s ∈ requests (ring_ io') → asks (mkCore io' (server_fd_ k) l') s) →
  core_ok owed' (mkCore io' (server_fd_ k) l') next.
Proof.
  intros [Hsl Hfd Ha Hn Hc Hf _] Hs He Hid Hp Hl Hx Hr.
  split; simpl; [done|by rewrite He|by rewrite Hp..| | |done].
  - intros id' x. destruct (decide (id' = id)) as [->|Hne]; [by apply Hx|]. rewrite Hl by done.
    intros [? ? ? ? ?]%Hc. split; [done..| | |done]; rewrite Hp by congruence; done.
  - intros id' Hid'. assert (id' ≠ id) by lia. rewrite Hl, !Hp by congruence. by apply Hf.
Qed.

Lemma conn_lt owed k next id x :
  core_ok owed k next → local_connections k !! id = Some x → (id < next)%Z.
Proof.
  intros Hk Hx. destruct (decide (next ≤ id)%Z) as [Hle|]; [|lia].
  destruct (ko_fresh _ _ _ Hk id Hle) as [? _]. congruence.
Qed.

Section core.
Context `{StdHash} `{FileSystem}.

(** Core [c] may run on [s]. *)
Record server_ok (c : nat) (owed : option Operation) (s : Server) : Prop := {
  so_world : world_ok (world s);
  so_core : c < num_cores_ (topo (world s));
  so_state : core_ok owed (core s) (next_conn_id s)
}.

(** ** Changing the ring and a connection *)

Lemma on_ctx_submit g prep op s :
  has_slots (ctx (core s)) → preps g prep →
  ∃ io' s0, on_ctx (submit_op prep op) s = (Ok tt, set_ctx s io') ∧ has_slots io' ∧
    outstanding io' ≡ₚ Some op :: outstanding (ctx (core s)) ∧
    event_fd_ io' = event_fd_ (ctx (core s)) ∧
    requests (ring_ io') ≡ₚ with_data op (g s0) :: requests (ring_ (ctx (core s))).
Proof.
  intros Hs Hp. destruct (submit_op_spec g prep op (ctx (core s)) Hs Hp)
    as (io' & s0 & E & Hs' & Ho & _ & [= He _] & Hr).
  exists io', s0. split_and!; [|done..]. unfold on_ctx. by rewrite E.
Qed.

(** The debt of a core is settled by posting the owed operation. *)
Lemma settle_ok c op g prep s :
  server_ok c (Some op) s → preps g prep → (∀ s0, asks (core s) (with_data op (g s0))) →
  ∃ io', on_ctx (submit_op prep op) s = (Ok tt, set_ctx s io') ∧ server_ok c None (set_ctx s io').
Proof.
  intros [Hw Hc Hk] Hp Hg.
  destruct (on_ctx_submit g prep op s (ko_slots _ _ _ Hk) Hp) as (io' & s0 & E & Hs' & Ho & He & Hrq).
  exists io'. split; [done|]. split; [done..|]. destruct Hk as [Hsl Hfd Ha Hn Hcn Hf Hr].
  split; simpl; [done|by rewrite He|by rewrite (posted_settle _ _ _ _ Ho)..| | |].
  - intros id x [? ? ? ? ?]%Hcn. by split; rewrite ?(posted_settle _ _ _ _ Ho).
  - intros id Hid. rewrite !(posted_settle _ _ _ _ Ho). by apply Hf.
  - intros r. rewrite Hrq. intros Hin. apply (asks_change (core s)); [|done|done|eauto].
    apply elem_of_cons in Hin as [->|?]; auto.
Qed.

(** The read of a connection posted again. *)
Lemma settle_read_ok c s id x :
  server_ok c (Some (ReadOp id)) s → local_connections (core s) !! id = Some x →
  ∃ io', on_ctx (submit_op (λ r i, io_uring_prep_read r i (fd_ x) (ReadBuffer id) read_capacity)
      (ReadOp id)) s = (Ok tt, set_ctx s io') ∧ server_ok c None (set_ctx s io').
Proof.
  intros Hs Hx. apply (settle_ok c _ _ _ s Hs (preps_read _ _ _)). intros s0.
  split_and!; [done..|]. rewrite Hx. by intros y [= <-].
Qed.

Lemma update_conn_ok c owed s id x x' :
  server_ok c owed s → local_connections (core s) !! id = Some x →
  conn_ok (ctx (core s)) owed id x' → fd_ x' = fd_ x →
  (∀ r, r ∈ requests (ring_ (ctx (core s))) → user_data r = Some (WriteOp id) →
    head (write_queue_ x') = head (write_queue_ x)) →
  server_ok c owed (set_connections s (<[id := x']> (local_connections (core s)))).
Proof.
  intros [Hw Hc Hk] Hx Hx' Hfd Hq. split; [done..|].
  apply (core_ok_change owed _ _ _ _ id); try done; [apply Hk|by eapply conn_lt| | |].
  - intros id' Hne. by rewrite lookup_insert_ne.
  - intros y. rewrite lookup_insert_eq. by intros [= <-].
  - intros r Hr. apply asks_insert; [by eapply ko_requests|done|]. eauto.
Qed.

Lemma this_ok id x s :
  local_connections (core s) !! id = Some x → this id s = (Ok x, s).
Proof. intros Hx. unfold this. by rewrite Hx. Qed.

(** A connection removed: nothing is required of it any more. *)
Lemma disconnect_ok c op s id x :
  server_ok c (Some op) s → local_connections (core s) !! id = Some x →
  op = ReadOp id ∨ op = WriteOp id →
  ∃ s', disconnect id s = (Ok tt, s') ∧ server_ok c None s' ∧ world s' = world s.
Proof.
  intros [Hw Hc Hk] Hx Hop. eexists. split; [done|]. split; [|done]. split; [done..|].
  apply (core_ok_change (Some op) _ _ _ _ id); try done; [apply Hk|by eapply conn_lt| | | |].
  - intros op' H1 H2. rewrite posted_none, decide_False by naive_solver. simpl. lia.
  - intros id' Hne. by rewrite lookup_delete_ne.
  - intros y. by rewrite lookup_delete_eq.
  - intros r Hr. apply (asks_change (core s)); [by eapply ko_requests|done|done|].
    cbn [local_connections]. intros id' y _ [_ Hy]%lookup_delete_Some. eauto.
Qed.

Lemma submit_write_ok c owed s id x data :
  server_ok c owed s → local_connections (core s) !! id = Some x →
  ∃ s', submit_write id data s = (Ok tt, s') ∧ server_ok c owed s' ∧ world s' = world s ∧
    next_conn_id s' = next_conn_id s ∧
    local_connections (core s') =
      <[id := set_writes x (write_queue_ x ++ [data]) true]> (local_connections (core s)).
Proof.
  intros Hs Hx. unfold submit_write. erewrite bind_ok by by apply this_ok.
  cbn [set_writes is_writing_ write_queue_]. erewrite bind_ok by done.
  pose proof Hs as [Hw Hc Hk]. pose proof (ko_conns _ _ _ Hk id x Hx) as [Hid Hp Hr Hwr Hq].
  assert (write_queue_ x ++ [data] ≠ []) as Hne by by destruct (write_queue_ x).
  destruct (is_writing_ x) eqn:Eb.
  - eexists. split; [done|]. split_and!; [|done..].
    eapply update_conn_ok; [done..|by split|done|]. intros r _ _.
    destruct (write_queue_ x); [|done]. by destruct (proj1 Hq).
  - erewrite bind_ok by done. set (x2 := set_writes _ _ true). set (s2 := set_connections _ _).
    unfold submit_front. destruct (write_queue_ x2) as [|data0 q] eqn:Eq; [done|].
    destruct (on_ctx_submit _ (λ r i, io_uring_prep_write r i (fd_ x2) (WriteBuffer id) (str_size data0))
      (WriteOp id) s2 (ko_slots _ _ _ Hk) (preps_write _ _ _)) as (io' & s0 & -> & Hs' & Ho & He & Hrq).
    assert (∀ op', posted io' owed op' = posted (ctx (core s)) owed op' +
      (if decide (WriteOp id = op') then 1 else 0)) as Hadd by (intros; by apply posted_add).
    exists (set_ctx s2 io'). split_and!; [done| |done..|].
    2:{ unfold s2, x2. simpl. by rewrite insert_insert_eq. }
    split; [done..|]. apply (core_ok_change owed _ (core s) _ _ id); [done..|by eapply conn_lt| | | |].
    + intros op _ Hop. by rewrite Hadd, decide_False, Nat.add_0_r.
    + intros id' Hne'. simpl. by rewrite !lookup_insert_ne.
    + intros y. simpl. rewrite lookup_insert_eq. intros [= <-].
      split; [done|done| | |done]; rewrite Hadd; [by rewrite decide_False, Nat.add_0_r|].
      rewrite decide_True by done. simpl. lia.
    + unfold s2. cbn [local_connections set_connections set_core core]. rewrite insert_insert_eq.
      intros r. rewrite Hrq. intros [->|Hin]%elem_of_cons.
      * split_and!; [done..|]. cbn [local_connections]. rewrite lookup_insert_eq. intros y [= <-].
        split; [done|]. fold x2. by rewrite Eq.
      * apply asks_insert; [by eapply ko_requests|done|]. intros _. exists x. split_and!; [done..|].
        intros Hd. exfalso. revert Hd. apply (not_posted (ctx (core s)) owed); [|done].
        rewrite Hwr. revert Hwr. unfold posted. case_decide; lia.
Qed.

(** ** Following a handler *)

(** A handler started in [s] ends as [o]: when it returns, the core may go on and
    [Q] holds; when it throws, the shared state is still in order. *)
Definition handled {A} (c : nat) (owed : option Operation) (s : Server)
    (Q : A → Server → Prop) (o : outcome A * Server) : Prop :=
  match o.1 with
  | Ok a => server_ok c owed o.2 ∧ grows (world s) (world o.2) ∧
      (next_conn_id s ≤ next_conn_id o.2)%Z ∧ Q a o.2
  | Throw _ => world_ok (world o.2) ∧ grows (world s) (world o.2) ∧
      (next_conn_id s ≤ next_conn_id o.2)%Z
  | Undefined => True
  end.

(** Earlier steps of the same handler. *)
Lemma handled_from {A} c owed s s1 (Q : A → Server → Prop) o :
  handled c owed s1 Q o → grows (world s) (world s1) →
  (next_conn_id s ≤ next_conn_id s1)%Z → handled c owed s Q o.
Proof.
  unfold handled. intros Ho Hg Hn. destruct o as [[a|e|] s2]; simpl in *; [| |done].
  - destruct Ho as (? & ? & ? & ?). split_and!; [done|by etrans|lia|done].
  - destruct Ho as (? & ? & ?). split_and!; [done|by etrans|lia].
Qed.

Lemma handled_bind {A B} c o1 o2 s (P : A → Server → Prop) (Q : B → Server → Prop)
    (m : handler A) (k : A → handler B) :
  handled c o1 s P (m s) →
  (∀ a s', server_ok c o1 s' → grows (world s) (world s') → P a s' →
     handled c o2 s' Q (k a s')) →
  handled c o2 s Q ((m ≫= k) s).
Proof.
  intros Hm Hk. unfold mbind, comp_bind. destruct (m s) as [[a|e|] s']; [|done..].
  destruct Hm as (Hs & Hsh & Hn & Ha). by apply (handled_from _ _ _ s'); [apply Hk|..].
Qed.

Lemma handled_ok {A} c owed s s' (Q : A → Server → Prop) o a :
  o = (Ok a, s') → server_ok c owed s' → world s' = world s →
  (next_conn_id s ≤ next_conn_id s')%Z → Q a s' → handled c owed s Q o.
Proof. intros -> Hs Hw Hn Ha. unfold handled. simpl. by rewrite Hw. Qed.

Lemma handled_weaken {A} c owed s (Q Q' : A → Server → Prop) o :
  handled c owed s Q o →
  (∀ a s', server_ok c owed s' → grows (world s) (world s') → Q a s' → Q' a s') →
  handled c owed s Q' o.
Proof. unfold handled. destruct o as [[a|e|] s']; simpl; naive_solver. Qed.

(** The shared state changes, the core does not. *)
Lemma handled_world {A} c owed s (Q : A → World → Prop) (m : prog A) :
  server_ok c owed s →
  ((m (world s)).1 ≠ Undefined →
    world_ok (m (world s)).2 ∧ grows (world s) (m (world s)).2) →
  (∀ a, (m (world s)).1 = Ok a → Q a (m (world s)).2) →
  handled c owed s (λ a s', Q a (world s') ∧ core s' = core s) (on_world m s).
Proof.
  intros [Hw Hc Hk] Hm HQ. unfold on_world, handled.
  destruct (m (world s)) as [[a|e|] w']; simpl in *; [| |done].
  - destruct (Hm ltac:(done)) as [? Hg]. pose proof (sh_cores _ _ (gr_shape _ _ Hg)).
    refine (conj _ (conj Hg (conj _ (conj (HQ a eq_refl) eq_refl)))); [|lia].
    split; [done| |done]. simpl. lia.
  - destruct (Hm ltac:(done)). split_and!; [done..|lia].
Qed.

(** ** The handlers *)

Definition alive (id : Z) (s : Server) : Prop := is_Some (local_connections (core s) !! id).

Lemma parser_consume_ok c owed s id data :
  server_ok c owed s → alive id s →
  handled c owed s (λ _, alive id) (parser_consume id data s).
Proof.
  intros Hs [x Hx]. unfold parser_consume. rewrite Hx.
  pose proof Hs as [Hw Hc Hk]. destruct (ko_conns _ _ _ Hk id x Hx) as [Hid Hp Hr Hwr Hq].
  pose proof (run_post data (parser_ x) Hp) as [Hok Hout].
  rewrite consume_run. destruct (run (parser_ x) data) as [[[r rest]|e|] p]; [| |done]; simpl in *.
  - refine (conj _ (conj _ (conj _ _))); [|done|done|].
    + by eapply update_conn_ok; [done..|split| |].
    + unfold alive. simpl. by rewrite lookup_insert_eq.
  - by destruct Hw.
Qed.

Lemma reset_parser_ok c owed s id x :
  server_ok c owed s → local_connections (core s) !! id = Some x →
  handled c owed s (λ _, alive id) (put_this id (set_parser x reset) s).
Proof.
  intros Hs Hx. eapply handled_ok; [done| |done|done|].
  - pose proof Hs as [_ _ Hk]. destruct (ko_conns _ _ _ Hk id x Hx).
    by eapply update_conn_ok; [done..|split| |].
  - unfold alive. simpl. by rewrite lookup_insert_eq.
Qed.

Lemma handle_data_ok c owed s id data :
  server_ok c owed s → alive id s →
  handled c owed s (λ _, alive id) (handle_data c id data s).
Proof.
  intros Hs Ha. unfold handle_data.
  eapply handled_bind; [by apply parser_consume_ok|]. intros r s1 Hs1 _ [x Hx].
  destruct r.
  - by eapply handled_ok; [done|done|done|done|eexists].
  - erewrite bind_ok by by apply this_ok.
    eapply handled_bind.
    { apply (handled_world c owed s1 (λ _ _, True)); [done| |done].
      intros Hu. pose proof Hs1 as [Hw Hc _]. by apply execute_command_keeps. }
    intros resp s2 Hs2 _ [_ Hcore].
    assert (local_connections (core s2) !! id = Some x) as Hx2 by by rewrite Hcore.
    erewrite bind_ok by by apply this_ok.
    eapply handled_bind; [by apply reset_parser_ok|]. intros [] s3 Hs3 _ Ha3.
    by eapply handled_ok.
  - erewrite bind_ok by by apply this_ok.
    eapply handled_bind; [by apply reset_parser_ok|]. intros [] s2 Hs2 _ Ha2.
    by eapply handled_ok.
Qed.

Lemma submit_read_ok c s id :
  server_ok c (Some (ReadOp id)) s → alive id s →
  handled c None s (λ _ _, True) (submit_read id s).
Proof.
  intros Hs [x Hx]. unfold submit_read. erewrite bind_ok by by apply this_ok.
  destruct (settle_read_ok c s id x Hs Hx) as (io' & E & Hs'). by eapply handled_ok.
Qed.

Lemma handle_read_ok c s id res data :
  server_ok c (Some (ReadOp id)) s →
  handled c None s (λ _ _, True) (handle_read c id res data s).
Proof.
  intros Hs. unfold handle_read.
  destruct (local_connections (core s) !! id) as [x|] eqn:Hx.
  2:{ unfold mbind, comp_bind, this. by rewrite Hx. }
  erewrite bind_ok by by apply this_ok. destruct (res <=? 0)%Z.
  { destruct (disconnect_ok c _ s id x Hs Hx) as (s' & E & Hs' & Hw'); [by left|].
    injection E as E. rewrite <- E in *. by eapply handled_ok. }
  eapply handled_bind; [apply (handle_data_ok c _ s id data Hs); by eexists|].
  intros resp s1 Hs1 _ Ha1.
  eapply (handled_bind _ (Some (ReadOp id)) _ _ (λ _, alive id)).
  { case_bool_decide; [by eapply handled_ok|]. destruct Ha1 as [x1 Hx1].
    destruct (submit_write_ok c _ s1 id x1 resp Hs1 Hx1) as (s2 & E & Hs2 & Hw2 & Hn2 & Hl2).
    eapply handled_ok; [done..|by rewrite Hn2|]. unfold alive. rewrite Hl2, lookup_insert_eq. done. }
  intros [] s2 Hs2 _ Ha2. by apply submit_read_ok.
Qed.

(** The last write of a queue completes. *)
Lemma finish_write_ok c s id x x' :
  server_ok c (Some (WriteOp id)) s → local_connections (core s) !! id = Some x →
  is_writing_ x = true → id_ x' = id_ x → parser_ x' = parser_ x → is_writing_ x' = false →
  write_queue_ x' = [] → fd_ x' = fd_ x →
  server_ok c None (set_connections s (<[id := x']> (local_connections (core s)))).
Proof.
  intros [Hw Hc Hk] Hx Hwr Hid' Hp' Hwr' Hq' Hfd'. split; [done..|].
  destruct (ko_conns _ _ _ Hk id x Hx) as [Hid Hp Hr Hcw Hq].
  rewrite posted_none in Hr, Hcw. rewrite Hwr, decide_True in Hcw by done.
  rewrite decide_False in Hr by done.
  apply (core_ok_change (Some (WriteOp id)) _ _ _ _ id); try done; [apply Hk|by eapply conn_lt| | | |].
  - intros op _ Hop. rewrite posted_none, decide_False by done. simpl. lia.
  - intros id' Hne. by rewrite lookup_insert_ne.
  - intros y. rewrite lookup_insert_eq. intros [= <-].
    split; [congruence|by rewrite Hp'|simpl; lia|rewrite Hwr'; simpl; lia|].
    rewrite Hwr', Hq'. naive_solver.
  - intros r Hin. apply asks_insert; [by eapply ko_requests|done|]. intros _. exists x.
    split_and!; [done..|]. intros Hd. apply (not_posted (ctx (core s)) None) in Hd; [done| |done]. simpl. lia.
Qed.

Lemma handle_write_ok c s id res :
  server_ok c (Some (WriteOp id)) s →
  handled c None s (λ _ _, True) (handle_write id res s).
Proof.
  intros Hs. unfold handle_write.
  destruct (local_connections (core s) !! id) as [x|] eqn:Hx.
  2:{ unfold mbind, comp_bind, this. by rewrite Hx. }
  erewrite bind_ok by by apply this_ok. destruct (res <? 0)%Z.
  { destruct (disconnect_ok c _ s id x Hs Hx) as (s' & E & Hs' & Hw'); [by right|].
    injection E as E. rewrite <- E in *. by eapply handled_ok. }
  pose proof Hs as [Hw Hc Hk]. destruct (ko_conns _ _ _ Hk id x Hx) as [Hid Hp Hr Hcw Hq].
  assert (is_writing_ x = true) as Hwr.
  { rewrite posted_none, decide_True in Hcw by done. destruct (is_writing_ x); [done|lia]. }
  erewrite bind_ok by done. cbn [write_queue_ set_writes].
  destruct (tail (write_queue_ x)) as [|data q] eqn:Eq.
  - eapply handled_ok; [done| |done|done|done]. unfold set_connections. simpl.
    rewrite insert_insert_eq. by eapply (finish_write_ok c s id x).
  - unfold submit_front. cbn [write_queue_ set_writes].
    set (s1 := set_connections _ _).
    assert (server_ok c (Some (WriteOp id)) s1) as Hs1.
    { eapply update_conn_ok; [done..|by split; simpl|done|]. intros r Hin Hd.
      rewrite posted_none, Hwr, decide_True in Hcw by done.
      apply (not_posted (ctx (core s)) None) in Hd; [done| |done]. simpl. lia. }
    destruct (settle_ok c (WriteOp id) _
      (λ r i, io_uring_prep_write r i (fd_ x) (WriteBuffer id) (str_size data)) s1 Hs1
      (preps_write _ _ _)) as (io' & E & Hs').
    { intros s0. split_and!; [done..|]. unfold s1. simpl. rewrite lookup_insert_eq. by intros y [= <-]. }
    by eapply handled_ok.
Qed.

Lemma submit_accept_runs c s :
  server_ok c (Some AcceptOp) s →
  ∃ io', submit_accept s = (Ok tt, set_ctx s io') ∧ server_ok c None (set_ctx s io').
Proof.
  intros Hs. unfold submit_accept. rewrite bind_gets.
  by apply (settle_ok c AcceptOp _ (λ r i, io_uring_prep_accept r i (server_fd_ (core s)) None) s Hs
    (preps_accept _ _)).
Qed.

(** A new connection with its first read posted. *)
Lemma add_conn_ok owed k next io' x b :
  core_ok owed k next → has_slots io' → event_fd_ io' = event_fd_ (ctx k) →
  outstanding io' ≡ₚ Some (ReadOp next) :: outstanding (ctx k) →
  requests (ring_ io') ≡ₚ mkSqe (Some (ReadOp next)) IORING_OP_READ (fd_ x) (Some (ReadBuffer next))
    (uint32 read_capacity) b :: requests (ring_ (ctx k)) →
  id_ x = next → parser_ x = reset → is_writing_ x = false → write_queue_ x = [] →
  core_ok owed (mkCore io' (server_fd_ k) (<[next := x]> (local_connections k))) (next + 1).
Proof.
  intros Hk Hs He Ho Hrq Hid Hp Hw Hq.
  pose proof (λ op', posted_add _ _ owed (ReadOp next) op' Ho) as Hadd.
  destruct (ko_fresh _ _ _ Hk next) as (_ & Hr & Hwr); [lia|].
  assert (core_ok owed k (next + 1)) as Hk' by (eapply core_ok_next; [done|lia]).
  apply (core_ok_change owed owed k _ io' next); [done..|lia| | | |].
  - intros op Hop _. by rewrite Hadd, decide_False, Nat.add_0_r.
  - intros id' Hne. by rewrite lookup_insert_ne.
  - intros y. rewrite lookup_insert_eq. intros [= <-].
    split; [done|by rewrite Hp| | |by rewrite Hw, Hq]; rewrite Hadd.
    + rewrite decide_True by done. lia.
    + rewrite decide_False by done. rewrite Hw. lia.
  - intros r. rewrite Hrq. intros [->|Hin]%elem_of_cons.
    + split_and!; [done..|]. cbn [local_connections]. rewrite lookup_insert_eq. by intros y [= <-].
    + apply asks_insert; [by eapply ko_requests|done|]. intros Hn. exfalso.
      destruct Hn as [Hn|Hn]; revert Hn; apply (not_posted (ctx k) owed); try done;
        [rewrite Hr; revert Hr|rewrite Hwr; revert Hwr]; unfold posted; case_decide; lia.
Qed.

(** A client is accepted.  Identifiers have 32 bits; they do not wrap here. *)
Lemma handle_accept_runs c s fd :
  server_ok c (Some AcceptOp) s → (0 ≤ next_conn_id s < 2 ^ 32 - 1)%Z → (0 ≤ fd)%Z →
  let id := next_conn_id s in
  ∃ s', handle_accept fd s = (Ok tt, s') ∧ server_ok c None s' ∧ world s' = world s ∧
    next_conn_id s' = (id + 1)%Z ∧
    local_connections (core s') = <[id := mkConn fd id [] false reset]> (local_connections (core s)).
Proof.
  intros Hs Hn Hfd id. unfold handle_accept, on_connect, start. rewrite (proj2 (Z.ltb_ge _ _)) by done.
  pose proof Hs as [Hw Hc Hk].
  assert (uint32 (id + 1) = (id + 1)%Z) as Hu.
  { unfold uint32, wrap_u. apply Z.mod_small. lia. }
  erewrite bind_ok by done. erewrite bind_ok by done. cbn [id_].
  unfold submit_read. rewrite bind_assoc.
  erewrite bind_ok by (apply this_ok; simpl; by rewrite lookup_insert_eq).
  match goal with |- context [on_ctx (submit_op ?prep ?op)] =>
    match goal with |- context [(_ ≫= _) ?s2] =>
      destruct (on_ctx_submit _ prep op s2 (ko_slots _ _ _ Hk) (preps_read _ _ _))
        as (io' & s0 & E & Hs' & Ho & He & Hrq)
    end
  end.
  erewrite bind_ok by exact E.
  match goal with |- context [submit_accept ?s2] =>
    destruct (submit_accept_runs c s2) as (io2 & -> & Hs2)
  end.
  { split; [done..|]. simpl. fold id. rewrite Hu. by eapply add_conn_ok. }
  eexists. by split_and!.
Qed.

Lemma handle_accept_ok c s fd :
  server_ok c (Some AcceptOp) s → (0 ≤ next_conn_id s < 2 ^ 32 - 1)%Z →
  handled c None s (λ _ _, True) (handle_accept fd s).
Proof.
  intros Hs Hn. destruct (decide (0 ≤ fd)%Z) as [Hfd|Hfd].
  - destruct (handle_accept_runs c s fd Hs Hn Hfd) as (s' & E & Hs' & Hw & Hn' & _).
    eapply handled_ok; [done..| |done]. lia.
  - unfold handle_accept. rewrite (proj2 (Z.ltb_lt _ _)) by lia.
    destruct (submit_accept_runs c s Hs) as (io' & E & Hs'). by eapply handled_ok.
Qed.

(** *** Messages *)

Lemma take_inbox_ok c w :
  world_ok w → c < num_cores_ (topo w) →
  ∃ batch w', take_inbox c w = (Ok batch, w') ∧ world_ok w' ∧ grows w w' ∧
    inbox w c = Some batch ∧ inbox w' c = Some [] ∧ Forall (msg_ok (topo w') c) batch.
Proof.
  intros [Hwf Hi Hn Hlim] Hc.
  destruct (lookup_lt_is_Some_2 (channels_ (topo w)) c) as [ch Hch].
  { by rewrite (tw_channels _ Hwf). }
  unfold take_inbox. rewrite Hch. eexists _, _. split; [done|].
  set (w' := set_topo _ _).
  assert (same_shape (topo w) (topo w')) as Hs by done.
  assert (inbox w' c = Some []) as Hin.
  { unfold inbox. simpl. rewrite list_lookup_insert_eq; [done|]. by eapply lookup_lt_Some. }
  split_and!; [| | |done|].
  - split; [|  |done|done].
    + apply set_channels_wf; [done|]. rewrite length_insert. apply Hwf.
    + intros c' ch' m Hc' Hm. apply (msg_ok_shape _ _ _ _ Hs).
      apply list_lookup_insert_Some in Hc' as [(<- & <- & _)|[_ Hc']]; [by apply elem_of_nil in Hm|].
      by eapply Hi.
  - split; [done..|]. intros c'. destruct (decide (c' = c)) as [->|Hne]; [by right; left|left].
    unfold inbox. simpl. by rewrite list_lookup_insert_ne.
  - unfold inbox. by rewrite Hch.
  - apply Forall_forall. intros m Hm. by apply (msg_ok_shape _ _ _ _ Hs), (Hi c ch).
Qed.

Lemma handle_message_ok c owed s msg :
  server_ok c owed s → msg_ok (topo (world s)) c msg →
  handled c owed s (λ _ _, True) (handle_message c msg s).
Proof.
  intros Hs Hm. unfold handle_message. destruct (msg_type msg) eqn:Et.
  - pose proof Hs as [Hw Hc Hk].
    pose proof Hm as Hm0. unfold msg_ok in Hm0. rewrite Et in Hm0.
    destruct Hm0 as (_ & _ & _ & Horigin).
    destruct (request_here c msg (world s) Hw Et Hm) as [Hu|Hr].
    { unfold mbind, comp_bind, on_world, handled.
      destruct (execute_request c msg (world s)) as [[]]; done. }
    eapply (handled_bind _ owed).
    { apply (handled_world c owed s (λ _ _, True)); [done| |done].
      intros _. by eapply ran_here_ok. }
    intros reply s1 Hs1 Hg1 _. case_bool_decide as Er; [by eapply handled_ok|].
    eapply handled_weaken; [|done].
    apply (handled_world c owed s1 (λ _ _, True)); [done| |done]. intros _.
    destruct (send_ok (world s1) (origin_core_id msg) (response c (msg_conn_id msg) reply))
      as (w' & E & ? & ? & _); [apply Hs1| |done|].
    { by rewrite (sh_cores _ _ (gr_shape _ _ Hg1)). }
    unfold send in E. by rewrite E.
  - rewrite bind_gets. destruct (local_connections (core s) !! msg_conn_id msg) as [x|] eqn:Hx.
    + destruct (submit_write_ok c owed s _ x (payload msg) Hs Hx) as (s' & E & Hs' & Hw' & Hn' & _).
      eapply handled_ok; [done..|by rewrite Hn'|done].
    + by eapply handled_ok.
Qed.

Lemma handle_messages_ok c owed batch : ∀ s,
  server_ok c owed s → Forall (msg_ok (topo (world s)) c) batch →
  handled c owed s (λ _ _, True) (foldM (λ _ msg, handle_message c msg) tt batch s).
Proof.
  induction batch as [|m batch IH]; intros s Hs Hb; [by eapply handled_ok|].
  apply Forall_cons in Hb as [Hm Hb]. cbn [foldM].
  eapply handled_bind; [by apply handle_message_ok|]. intros [] s1 Hs1 Hg _.
  apply IH; [done|]. eapply Forall_impl; [done|]. intros m'. apply msg_ok_shape, Hg.
Qed.

(** After its notification handler a core has no message it was not woken for. *)
Definition drained (c : nat) (s : Server) : Prop :=
  inbox (world s) c = Some [] ∨ woken (world s) c.

Lemma drained_grows c s s' : grows (world s) (world s') → drained c s → drained c s'.
Proof.
  intros Hg [Hd|Hd]; [|by right; eapply woken_grows]. unfold drained.
  destruct (gr_inbox _ _ Hg c) as [->|?]; [by left|done].
Qed.

Lemma notification_handler_ok c owed s :
  server_ok c owed s → handled c owed s (λ _, drained c) (notification_handler c s).
Proof.
  intros Hs. pose proof Hs as [Hw Hc Hk]. unfold notification_handler.
  destruct (take_inbox_ok c (world s) Hw Hc) as (batch & w' & E & Hw' & Hg & _ & Hin & Hb).
  eapply (handled_bind _ owed _ _ (λ b s', b = batch ∧ drained c s' ∧ Forall (msg_ok (topo (world s')) c) b)).
  { eapply handled_weaken.
    { apply (handled_world c owed s (λ b w1, b = batch ∧ w1 = w') (take_inbox c)); [done|by rewrite E|].
      rewrite E. simpl. by intros a [= ->]. }
    unfold drained. intros a s' _ _ [[-> ->] _]. split_and!; [done| |done]. by left. }
  intros b s1 Hs1 _ (-> & Hd & Hb1).
  eapply handled_weaken; [by apply handle_messages_ok|].
  intros [] s2 _ Hg2 _. by eapply drained_grows.
Qed.

(** *** Completions *)

Lemma complete_ok c s op res data :
  server_ok c (Some op) s → (0 ≤ next_conn_id s < 2 ^ 32 - 1)%Z →
  handled c None s (λ _ s', op = NotificationOp → drained c s') (complete c op res data s).
Proof.
  intros Hs Hn. destruct op; completion.
  - eapply handled_weaken; [by apply handle_read_ok|done].
  - eapply handled_weaken; [by apply handle_write_ok|done].
  - eapply handled_weaken; [by apply handle_accept_ok|done].
  - eapply handled_bind; [by apply notification_handler_ok|]. intros [] s1 Hs1 _ Hd.
    unfold submit_notification_read, on_ctx. rewrite bind_gets.
    rewrite (proj2 (Z.ltb_ge _ _)) by apply Hs1.
    destruct (settle_ok c NotificationOp _
      (λ r i, io_uring_prep_read r i (event_fd_ (ctx (core s1))) NotifyBuffer 8) s1 Hs1
      (preps_read _ _ _) ltac:(done)) as (io' & E & Hs').
    by eapply handled_ok.
Qed.

End core.
