(* ===== verification/System.v ===== *)
(** * The server as a transition system

    The cores run on the shared world; a step is one core making its context and
    registering (or failing to), setting up its socket and starting to listen (or
    failing to), waiting for completions,
    handling one completion, or removing the completions it handled, so that the
    handlers of different cores interleave in every order.  A handler is one
    step: the cores share the inboxes (each operation holds the inbox's mutex),
    the wake-up counters and the connection counter, and a command touches the
    shard of its own core only.  [SAVE] alone reads the shards of other cores,
    without a lock; here it reads them between two handlers, and the data race is
    not modelled.  An exception that leaves a handler ends the core; a run stops
    where the C++ has no defined behaviour. *)
From S2P Require Import Prelude CxxString Double Containers Value Store HashMap Shard Router Topology Command Exec Rdb Registry Safety RespParser UringStub IoContext Listener Connection Worker Handlers CoreInvariant.
From Stdlib Require Import ZArith Ascii Lia.
From stdpp Require Import prelude gmap strings list_numbers.

(** ** Handlers do not look at the completions *)

(** The first [i] completions forgotten. *)
Definition advance_io (i : nat) (io : IoContext) : IoContext :=
  set_ring io (io_uring_cq_advance (ring_ io) i).
Definition advance (i : nat) (s : Server) : Server := set_ctx s (advance_io i (ctx (core s))).

(** [h] neither looks at the completions nor changes them, and keeps the
    wake-up descriptors and the listening socket. *)
Record oblivious {A} (h : handler A) : Prop := {
  ob_advance i s : h (advance i s) = ((h s).1, advance i (h s).2);
  ob_cqes s : cqes (ring_ (ctx (core (h s).2))) = cqes (ring_ (ctx (core s)));
  ob_fd s : wake_fds (ctx (core (h s).2)) = wake_fds (ctx (core s));
  ob_listen s : server_fd_ (core (h s).2) = server_fd_ (core s)
}.

Create HintDb oblivious.

Lemma oblivious_ret {A} (a : A) : oblivious (mret a).
Proof. done. Qed.

Lemma oblivious_undefined {A} : oblivious (A := A) undefined.
Proof. done. Qed.

Lemma oblivious_bind {A B} (m : handler A) (k : A → handler B) :
  oblivious m → (∀ a, oblivious (k a)) → oblivious (m ≫= k).
Proof.
  intros [Hm Hq Hf Hl] Hk. unfold mbind, comp_bind. split; intros.
  - rewrite Hm. destruct (m s) as [[a|e|] s']; simpl; [apply Hk|done..].
  - specialize (Hq s). destruct (m s) as [[a|e|] s']; simpl in *; [|done..].
    by rewrite (ob_cqes _ (Hk a)).
  - specialize (Hf s). destruct (m s) as [[a|e|] s']; simpl in *; [|done..].
    by rewrite (ob_fd _ (Hk a)).
  - specialize (Hl s). destruct (m s) as [[a|e|] s']; simpl in *; [|done..].
    by rewrite (ob_listen _ (Hk a)).
Qed.

Lemma oblivious_world {A} (m : prog A) : oblivious (on_world m).
Proof. split; intros; unfold on_world; simpl; by destruct (m (world s)). Qed.

Lemma oblivious_gets {A} (f : Server → A) : (∀ i s, f (advance i s) = f s) → oblivious (gets f).
Proof. intros Hf. split; [|done..]. intros i s. unfold gets. by rewrite Hf. Qed.

(** A change of anything but the context and the listening socket. *)
Lemma oblivious_modify f :
  (∀ i s, f (advance i s) = advance i (f s)) → (∀ s, ctx (core (f s)) = ctx (core s)) →
  (∀ s, server_fd_ (core (f s)) = server_fd_ (core s)) → oblivious (modify f).
Proof.
  intros Hf Hc Hl. split; intros; unfold modify; simpl; [by rewrite Hf|by rewrite Hc..|by rewrite Hl].
Qed.

Lemma oblivious_this id : oblivious (this id).
Proof. split; intros; unfold this; simpl; by destruct (local_connections (core s) !! id). Qed.

Lemma oblivious_fold {A B} (f : A → B → handler A) l :
  (∀ a b, oblivious (f a b)) → ∀ a, oblivious (foldM f a l).
Proof.
  intros Hf. induction l as [|b l IH]; intros a; simpl; [done|]. by apply oblivious_bind.
Qed.

Lemma get_sqe_advance i io :
  get_sqe (advance_io i io) = ((get_sqe io).1, advance_io i (get_sqe io).2).
Proof.
  destruct io as [[sq pe cq n] e f]. unfold get_sqe, advance_io, io_uring_get_sqe. simpl.
  destruct (take_slot sq) as [[j s]|]; [done|]. simpl.
  by destruct (take_slot _) as [[j s]|].
Qed.

Lemma get_sqe_keeps io :
  cqes (ring_ (get_sqe io).2) = cqes (ring_ io) ∧ wake_fds (get_sqe io).2 = wake_fds io.
Proof.
  unfold get_sqe, io_uring_get_sqe. destruct (take_slot _) as [[j s]|]; [done|].
  by destruct (take_slot _) as [[j s]|].
Qed.

Lemma oblivious_submit g prep op : preps g prep → oblivious (on_ctx (submit_op prep op)).
Proof.
  intros [Hg _]. unfold on_ctx, submit_op, mbind, comp_bind. split; intros.
  - change (ctx (core (advance i s))) with (advance_io i (ctx (core s))). rewrite get_sqe_advance.
    destruct (get_sqe (ctx (core s))) as [[j|e|] io]; simpl; [|done..]. by rewrite !Hg.
  - destruct (get_sqe_keeps (ctx (core s))) as [Hq _].
    destruct (get_sqe (ctx (core s))) as [[j|e|] io]; simpl in *; [|done..]. by rewrite !Hg.
  - destruct (get_sqe_keeps (ctx (core s))) as [_ Hq].
    by destruct (get_sqe (ctx (core s))) as [[j|e|] io].
  - by destruct (get_sqe (ctx (core s))) as [[j|e|] io].
Qed.

#[export] Hint Resolve oblivious_ret oblivious_undefined oblivious_world oblivious_this
  oblivious_fold : oblivious.
#[export] Hint Resolve preps_read preps_write preps_accept : oblivious.

Ltac oblivious := repeat first
  [ progress eauto with oblivious
  | apply oblivious_bind; [|intros ?]
  | eapply oblivious_submit; eauto with oblivious
  | apply oblivious_gets; intros; done
  | apply oblivious_modify; intros; done
  | case_match ].

Section oblivious.
Context `{StdHash} `{FileSystem}.

Lemma submit_read_oblivious id : oblivious (submit_read id).
Proof. unfold submit_read. oblivious. Qed.
Lemma submit_front_oblivious id x : oblivious (submit_front id x).
Proof. unfold submit_front. oblivious. Qed.
Lemma put_this_oblivious id x : oblivious (put_this id x).
Proof. unfold put_this. oblivious. Qed.
Lemma disconnect_oblivious id : oblivious (disconnect id).
Proof. unfold disconnect. oblivious. Qed.
Hint Resolve submit_read_oblivious submit_front_oblivious put_this_oblivious
  disconnect_oblivious : oblivious.
Lemma submit_write_oblivious id data : oblivious (submit_write id data).
Proof. unfold submit_write. oblivious. Qed.
Hint Resolve submit_write_oblivious : oblivious.
Lemma parser_consume_oblivious id data : oblivious (parser_consume id data).
Proof.
  split; intros; unfold parser_consume; simpl; destruct (local_connections (core s) !! id); try done;
    by destruct (consume data _) as [[[]|e|] p].
Qed.
Hint Resolve parser_consume_oblivious : oblivious.
Lemma handle_data_oblivious c id data : oblivious (handle_data c id data).
Proof. unfold handle_data. oblivious. Qed.
Hint Resolve handle_data_oblivious : oblivious.
Lemma submit_accept_oblivious : oblivious submit_accept.
Proof. unfold submit_accept. oblivious. Qed.
Hint Resolve submit_accept_oblivious : oblivious.
Lemma handle_message_oblivious c msg : oblivious (handle_message c msg).
Proof. unfold handle_message. oblivious. Qed.
Hint Resolve handle_message_oblivious : oblivious.
Lemma notification_read_oblivious : oblivious (on_ctx submit_notification_read).
Proof.
  assert (∀ fd, oblivious (on_ctx (submit_op (λ r i, io_uring_prep_read r i fd NotifyBuffer 8)
    NotificationOp))) as Hs by (intros; by eapply oblivious_submit, preps_read).
  unfold submit_notification_read, on_ctx. split; intros; rewrite !bind_gets;
    try change (event_fd_ (ctx (core (advance i s)))) with (event_fd_ (ctx (core s)));
    destruct (event_fd_ (ctx (core s)) <? 0)%Z; try done; apply Hs.
Qed.
Hint Resolve notification_read_oblivious : oblivious.
Lemma new_connection_oblivious fd : oblivious (new_connection fd).
Proof. done. Qed.
Hint Resolve new_connection_oblivious : oblivious.

Lemma dispatch_oblivious c e data : oblivious (dispatch c e data).
Proof.
  unfold dispatch. destruct (cqe_data e) as [[id|id| |]|]; completion.
  - unfold handle_read. oblivious.
  - unfold handle_write. oblivious.
  - unfold handle_accept, on_connect, start. oblivious.
  - unfold notification_handler. oblivious.
  - apply oblivious_ret.
Qed.
End oblivious.

(** ** States and steps *)

(** Where a worker thread is: not started (no entry), past
    [register_notify_fd], in its event loop ([head] counts the completions
    already handled while they are gone through, [None] before the wait), ended by
    an exception, or never past the constructor of its context, whose exception
    came before the registration. *)
Inductive phase :=
  | Registered (io : IoContext)
  | Running (k : Core) (head : option nat)
  | Ended
  | Aborted.

(** The phases of the cores that have registered. *)
Definition started (p : phase) : bool := match p with Aborted => false | _ => true end.
Definition launched (m : gmap nat phase) : gmap nat phase := filter (λ x, started x.2 = true) m.

Record System := mkSys {
  s_world : World;
  s_next : Z;
  s_cores : gmap nat phase
}.

Definition server_of (st : System) (k : Core) : Server := mkServer (s_world st) k (s_next st).
Definition set_phase (st : System) (c : nat) (p : phase) : System :=
  mkSys (s_world st) (s_next st) (<[c := p]> (s_cores st)).
Definition put_server (st : System) (c : nat) (s : Server) (p : phase) : System :=
  mkSys (world s) (next_conn_id s) (<[c := p]> (s_cores st)).

(** The destructor of a context closes its descriptors; [fd] is the one written
    to. *)
Definition close_fd (st : System) (fd : Z) : System :=
  mkSys (set_eventfds (s_world st) (delete fd (eventfds (s_world st)))) (s_next st) (s_cores st).

(** What the kernel does to the wake-up descriptors while a core waits: a read of
    what waits in the core's own completes its notification read. *)
Definition kernel_read (k : WakeKind) (io : IoContext) (e e' : gmap Z Z) : Prop :=
  e' = e ∨
  (∃ n, e !! notify_fd_ io = Some n ∧ (0 < n)%Z ∧ e' = <[notify_fd_ io := wake_read k n]> e ∧
     Some NotificationOp ∈ cqe_data <$> cqes (ring_ io)).

(** Which core made the step, and the completion it handled, with the bytes the
    kernel had read and the exception that left the handler. *)
Inductive label :=
  | Internal (c : nat)
  | Completed (c : nat) (e : io_uring_cqe Operation) (data : bytes)
  | Failed (c : nat) (e : io_uring_cqe Operation) (data : bytes) (ex : exn).

Section system.
Context `{StdHash} `{FileSystem}.

Inductive lstep (st : System) : label → System → Prop :=
  | step_register c rfd wfd io w :
      c < num_cores_ (topo (s_world st)) → s_cores st !! c = None →
      (0 ≤ rfd)%Z → (0 ≤ wfd)%Z → rfd ≠ wfd →
      new_context default_entries (wakes (s_world st)) (Some (rfd, wfd)) = Ok io →
      eventfds (s_world st) !! notify_fd_ io = None →
      worker_register c io (set_eventfds (s_world st)
        (<[notify_fd_ io := 0%Z]> (eventfds (s_world st)))) = (Ok tt, w) →
      lstep st (Internal c) (mkSys w (s_next st) (<[c := Registered io]> (s_cores st)))
  | step_no_context c ex :
      c < num_cores_ (topo (s_world st)) → s_cores st !! c = None →
      new_context default_entries (wakes (s_world st)) None = Throw ex →
      lstep st (Internal c) (set_phase st c Aborted)
  | step_listen c io os port fd calls s :
      s_cores st !! c = Some (Registered io) → all_registered (topo (s_world st)) = true →
      setup_listener os port [] = (Ok fd, calls) →
      worker_listen (server_of st (mkCore io fd ∅)) = (Ok tt, s) →
      lstep st (Internal c) (put_server st c s (Running (core s) None))
  | step_no_listener c io os port ex calls :
      s_cores st !! c = Some (Registered io) → all_registered (topo (s_world st)) = true →
      setup_listener os port [] = (Throw ex, calls) →
      lstep st (Internal c) (close_fd (set_phase st c Ended) (notify_fd_ io))
  | step_wait c k rounds io e :
      s_cores st !! c = Some (Running k None) →
      submit_and_wait rounds 1 (ctx k) = Some io → kernel_read (wakes (s_world st)) io (eventfds (s_world st)) e →
      lstep st (Internal c) (mkSys (set_eventfds (s_world st) e) (s_next st)
        (<[c := Running (mkCore io (server_fd_ k) (local_connections k)) (Some 0)]> (s_cores st)))
  | step_complete c k i e data s :
      s_cores st !! c = Some (Running k (Some i)) → cqes (ring_ (ctx k)) !! i = Some e →
      (s_next st < 2 ^ 32 - 1)%Z →
      dispatch c e data (server_of st k) = (Ok tt, s) →
      lstep st (Completed c e data) (put_server st c s (Running (core s) (Some (S i))))
  | step_throw c k i e data ex s :
      s_cores st !! c = Some (Running k (Some i)) → cqes (ring_ (ctx k)) !! i = Some e →
      (s_next st < 2 ^ 32 - 1)%Z →
      dispatch c e data (server_of st k) = (Throw ex, s) →
      lstep st (Failed c e data ex) (close_fd (put_server st c s Ended) (notify_fd_ (ctx k)))
  | step_advance c k i :
      s_cores st !! c = Some (Running k (Some i)) → cqes (ring_ (ctx k)) !! i = None →
      lstep st (Internal c) (set_phase st c (Running (mkCore (advance_io i (ctx k)) (server_fd_ k)
        (local_connections k)) None)).

Definition step (st st' : System) : Prop := ∃ l, lstep st l st'.

(** ** The invariant *)

Definition fd_of (p : phase) : option Z :=
  match p with
  | Registered io => Some (notify_fd_ io)
  | Running k _ => Some (notify_fd_ (ctx k))
  | Ended | Aborted => None
  end.

(** The core without the completions it has handled. *)
Definition pending_view (k : Core) (head : option nat) : Core :=
  mkCore (advance_io (default 0 head) (ctx k)) (server_fd_ k) (local_connections k).

(** The completions it has not handled. *)
Definition unhandled (p : phase) : list (option Operation) :=
  match p with
  | Running k head => cqe_data <$> drop (default 0 head) (cqes (ring_ (ctx k)))
  | _ => []
  end.

Record sys_ok (st : System) : Prop := {
  sy_world : world_ok (s_world st);
  sy_next : (1 ≤ s_next st)%Z;
  sy_dom c : is_Some (s_cores st !! c) → c < num_cores_ (topo (s_world st));
  sy_count : registered_count_ (topo (s_world st)) = size (launched (s_cores st));
  sy_fd c p fd : s_cores st !! c = Some p → fd_of p = Some fd →
    (0 ≤ fd)%Z ∧ notify_fds_ (topo (s_world st)) !! c = Some fd ∧
    is_Some (eventfds (s_world st) !! fd);
  sy_distinct c c' p p' fd : s_cores st !! c = Some p → s_cores st !! c' = Some p' →
    fd_of p = Some fd → fd_of p' = Some fd → c = c';
  sy_registered c io : s_cores st !! c = Some (Registered io) →
    has_slots io ∧ outstanding io = [] ∧ (0 ≤ event_fd_ io)%Z;
  sy_running c k h : s_cores st !! c = Some (Running k h) →
    all_registered (topo (s_world st)) = true ∧ core_ok None (pending_view k h) (s_next st);
  (* nobody writes to a core that has not registered *)
  sy_quiet c : c < num_cores_ (topo (s_world st)) → launched (s_cores st) !! c = None →
    inbox (s_world st) c = Some [];
  sy_wake c p fd : s_cores st !! c = Some p → fd_of p = Some fd →
    inbox (s_world st) c = Some [] ∨ woken (s_world st) c ∨ Some NotificationOp ∈ unhandled p
}.

Lemma launched_lookup m c p : launched m !! c = Some p ↔ m !! c = Some p ∧ started p = true.
Proof. apply map_lookup_filter_Some. Qed.

Lemma launched_None m c : launched m !! c = None ↔ m !! c = None ∨ m !! c = Some Aborted.
Proof.
  unfold launched. rewrite map_lookup_filter_None. split.
  - intros [?|Hp]; [by left|]. destruct (m !! c) as [p|]; [|by left]. right.
    specialize (Hp p eq_refl). by destruct p.
  - intros [?|Hp]; [by left|]. right. rewrite Hp. by intros p [= <-].
Qed.

Lemma launched_insert m c p :
  started p = true → launched (<[c := p]> m) = <[c := p]> (launched m).
Proof. intros Hp. by apply map_filter_insert_True. Qed.

Lemma launched_abort m c : m !! c = None → launched (<[c := Aborted]> m) = launched m.
Proof.
  intros Hm. unfold launched. rewrite map_filter_insert_False by done. by rewrite delete_id.
Qed.

(** When one core runs, all have registered. *)
Lemma all_started st c :
  sys_ok st → all_registered (topo (s_world st)) = true → c < num_cores_ (topo (s_world st)) →
  is_Some (launched (s_cores st) !! c).
Proof.
  intros Hst Ha Hc. unfold all_registered in Ha. apply Nat.leb_le in Ha.
  rewrite (sy_count _ Hst) in Ha. set (n := num_cores_ (topo (s_world st))) in *.
  assert (dom (launched (s_cores st)) = list_to_set (C := gset nat) (seq 0 n)) as Hd.
  { apply set_subseteq_size_eq.
    - intros x [p [Hx _]%launched_lookup]%elem_of_dom.
      pose proof (sy_dom _ Hst x ltac:(eauto)) as Hx'. clear Hx. rename Hx' into Hx. apply elem_of_list_to_set, elem_of_seq. fold n in Hx. lia.
    - rewrite size_list_to_set, length_seq, size_dom by apply NoDup_seq. done. }
  apply elem_of_dom. rewrite Hd. apply elem_of_list_to_set, elem_of_seq. lia.
Qed.

(** The shared state and the counter move on, one core's phase changes, and no
    core registers or closes its descriptor. *)
Lemma sys_ok_change st c p p' w' next' :
  sys_ok st → s_cores st !! c = Some p → world_ok w' → grows (s_world st) w' →
  (s_next st ≤ next')%Z → fd_of p' = fd_of p → started p' = true →
  all_registered (topo (s_world st)) = true →
  (∀ io, p' ≠ Registered io) →
  (∀ k h, p' = Running k h → core_ok None (pending_view k h) next') →
  (∀ fd, fd_of p' = Some fd → inbox w' c = Some [] ∨ woken w' c ∨ Some NotificationOp ∈ unhandled p') →
  sys_ok (mkSys w' next' (<[c := p']> (s_cores st))).
Proof.
  intros Hst Hp Hw' Hg Hn Hfd Hsp Hall Hreg Hrun Hwake.
  destruct (all_started st c Hst Hall) as [pc Hpc]; [by eapply (sy_dom _ Hst)|].
  pose proof (gr_shape _ _ Hg) as [Hnc Hro Hfds Hcnt].
  assert (all_registered (topo w') = true) as Hall'.
  { unfold all_registered. by rewrite Hnc, Hcnt. }
  (* what held of the phase of each core, up to the change of [c]'s *)
  assert (∀ c0 p0, <[c := p']> (s_cores st) !! c0 = Some p0 →
    ∃ q, s_cores st !! c0 = Some q ∧ fd_of p0 = fd_of q) as Hold.
  { intros c0 p0 [[<- <-]|[_ E]]%lookup_insert_Some; eauto. }
  pose proof (sy_next _ Hst). split; simpl; [done|lia|..].
  - intros c0 [p0 (q & Hq & _)%Hold]. rewrite Hnc. apply (sy_dom _ Hst). eauto.
  - rewrite Hcnt, (sy_count _ Hst), launched_insert, map_size_insert_Some; eauto.
  - intros c0 p0 fd (q & Hq & E)%Hold Hf. rewrite E in Hf.
    destruct (sy_fd _ Hst c0 q fd Hq Hf) as (? & ? & [n Hev]). rewrite Hfds. split_and!; [done..|].
    pose proof (gr_counters _ _ Hg fd) as Hle. rewrite Hev in Hle. inversion Hle; eauto.
  - intros c0 c1 p0 p1 fd (q0 & Hq0 & E0)%Hold (q1 & Hq1 & E1)%Hold Hf0 Hf1.
    eapply (sy_distinct _ Hst _ _ q0 q1 fd); [done..|by rewrite <- E0|by rewrite <- E1].
  - intros c0 io [[_ E]|[_ E]]%lookup_insert_Some; [by destruct (Hreg io)|]. by eapply sy_registered.
  - intros c0 k h [[_ E]|[_ E]]%lookup_insert_Some; split; try done; [by eapply Hrun|].
    destruct (sy_running _ Hst _ _ _ E) as [_ Hk]. by eapply core_ok_next.
  - intros c0 Hc0. rewrite launched_insert by done. intros [E _]%lookup_insert_None. rewrite Hnc in Hc0.
    destruct (all_started st c0 Hst Hall Hc0). congruence.
  - intros c0 p0 fd [[<- <-]|[_ E]]%lookup_insert_Some Hf; [by eapply Hwake|].
    destruct (sy_wake _ Hst _ _ _ E Hf) as [Hi|[Hi|Hi]].
    + destruct (gr_inbox _ _ Hg c0) as [->|[?|?]]; auto.
    + right; left. by eapply woken_grows.
    + by right; right.
Qed.

Lemma sys_ok_world st w' next' :
  sys_ok st → world_ok w' → grows (s_world st) w' → (s_next st ≤ next')%Z →
  (∃ c k h, s_cores st !! c = Some (Running k h)) → sys_ok (mkSys w' next' (s_cores st)).
Proof.
  intros Hst Hw' Hg Hn (c & k & h & Hk). destruct (sy_running _ Hst _ _ _ Hk) as [Hall Hko].
  pose proof (sys_ok_change st c _ (Running k h) w' next' Hst Hk Hw' Hg Hn eq_refl eq_refl Hall) as Hs.
  rewrite insert_id in Hs by done. apply Hs; [done| |].
  - intros k' h' [= <- <-]. by eapply core_ok_next.
  - intros fd Hf. destruct (sy_wake _ Hst _ _ _ Hk Hf) as [Hi|[Hi|Hi]].
    + destruct (gr_inbox _ _ Hg c) as [->|[?|?]]; auto.
    + right; left. by eapply woken_grows.
    + by right; right.
Qed.

(** A core ends. *)
Lemma sys_ok_end st c p :
  sys_ok st → s_cores st !! c = Some p → started p = true → sys_ok (set_phase st c Ended).
Proof.
  intros Hst Hp Hsp. pose proof Hst as [Hw Hn Hd Hcnt Hfd Hdi Hre Hru Hqu Hwa].
  split; simpl; [done..| | | | | | | |].
  - intros c0. rewrite lookup_insert_is_Some'. intros [<-|?]; [|auto]. apply Hd. eauto.
  - rewrite Hcnt, launched_insert, map_size_insert_Some; eauto. exists p. by apply launched_lookup.
  - intros c0 p0 fd [[_ <-]|[_ E]]%lookup_insert_Some; [done|]. by apply Hfd.
  - intros c0 c1 p0 p1 fd [[_ <-]|[_ E0]]%lookup_insert_Some [[_ <-]|[_ E1]]%lookup_insert_Some;
      [done..|]. by eapply Hdi.
  - intros c0 io [[_ ?]|[_ E]]%lookup_insert_Some; [done|]. by eapply Hre.
  - intros c0 k h [[_ ?]|[_ E]]%lookup_insert_Some; [done|]. by eapply Hru.
  - intros c0 Hc0. rewrite launched_insert by done. intros [E _]%lookup_insert_None. auto.
  - intros c0 p0 fd [[_ <-]|[_ E]]%lookup_insert_Some; [done|]. by eapply Hwa.
Qed.

(** The constructor of a core's context throws. *)
Lemma sys_ok_abort st c :
  sys_ok st → c < num_cores_ (topo (s_world st)) → s_cores st !! c = None → sys_ok (set_phase st c Aborted).
Proof.
  intros Hst Hc Hnone. pose proof Hst as [Hw Hn Hd Hcnt Hfd Hdi Hre Hru Hqu Hwa].
  split; simpl; [done..| | | | | | | |].
  - intros c0. rewrite lookup_insert_is_Some'. intros [<-|?]; auto.
  - by rewrite launched_abort.
  - intros c0 p0 fd [[_ <-]|[_ E]]%lookup_insert_Some; [done|]. by apply Hfd.
  - intros c0 c1 p0 p1 fd [[_ <-]|[_ E0]]%lookup_insert_Some [[_ <-]|[_ E1]]%lookup_insert_Some;
      [done..|]. by eapply Hdi.
  - intros c0 io [[_ ?]|[_ E]]%lookup_insert_Some; [done|]. by eapply Hre.
  - intros c0 k h [[_ ?]|[_ E]]%lookup_insert_Some; [done|]. by eapply Hru.
  - intros c0 Hc0. rewrite launched_abort by done. auto.
  - intros c0 p0 fd [[_ <-]|[_ E]]%lookup_insert_Some; [done|]. by eapply Hwa.
Qed.

(** A descriptor nobody owns is closed. *)
Lemma sys_ok_close st fd :
  sys_ok st → (∀ c p, s_cores st !! c = Some p → fd_of p ≠ Some fd) → sys_ok (close_fd st fd).
Proof.
  intros Hst Hno. pose proof Hst as [[Hwf Hi Hnn Hlim] Hn Hd Hcnt Hfd Hdi Hre Hru Hqu Hwa].
  split; simpl; [|done..| | | | | |].
  - split; simpl; [done..| |done]. intros fd0 n [_ E]%lookup_delete_Some. by eapply Hnn.
  - intros c p fd0 Hp Hf. destruct (Hfd c p fd0 Hp Hf) as (? & ? & ?). split_and!; [done..|].
    rewrite lookup_delete_ne; [done|]. intros ->. by eapply Hno.
  - done.
  - done.
  - done.
  - done.
  - intros c p fd0 Hp Hf. destruct (Hwa c p fd0 Hp Hf) as [?|[Hwk|?]]; auto.
    right; left. intros fd1 n H1 H2. simpl. intros [_ E]%lookup_delete_Some. by eapply Hwk.
Qed.

(** *** Start-up *)

Lemma new_context_ok n k rfd wfd io :
  new_context n k (Some (rfd, wfd)) = Ok io → 0 < n → (0 ≤ rfd)%Z → (0 ≤ wfd)%Z →
  (0 ≤ event_fd_ io)%Z ∧ (0 ≤ notify_fd_ io)%Z ∧ has_slots io ∧ outstanding io = [].
Proof.
  unfold new_context. intros E Hn Hr Hw.
  assert (∃ a b, io = mkCtx (io_uring_queue_init n) a b ∧ (0 ≤ a)%Z ∧ (0 ≤ b)%Z) as (a & b & -> & ? & ?).
  { destruct k; injection E as <-; eauto. }
  split_and!; [done..| |].
  - unfold has_slots. simpl. by rewrite length_replicate.
  - unfold outstanding, in_flight. simpl. rewrite filter_inactive; [done|].
    by apply Forall_replicate.
Qed.

Lemma worker_listen_ok st c io fd :
  sys_ok st → s_cores st !! c = Some (Registered io) →
  ∃ s, worker_listen (server_of st (mkCore io fd ∅)) = (Ok tt, s) ∧
    world s = s_world st ∧ next_conn_id s = s_next st ∧
    notify_fd_ (ctx (core s)) = notify_fd_ io ∧ cqes (ring_ (ctx (core s))) = cqes (ring_ io) ∧
    core_ok None (core s) (s_next st) ∧ local_connections (core s) = ∅ ∧
    outstanding (ctx (core s)) ≡ₚ [Some NotificationOp; Some AcceptOp].
Proof.
  intros Hst Hc. destruct (sy_registered _ Hst _ _ Hc) as (Hs & Ho & Hpos).
  unfold worker_listen, server_start, submit_accept. rewrite bind_assoc, bind_gets.
  destruct (submit_op_spec _ (λ r i, io_uring_prep_accept r i fd None) AcceptOp io Hs (preps_accept _ _))
    as (io1 & s1 & E1 & Hs1 & Ho1 & Hq1 & [= He1 Hn1] & Hr1).
  erewrite bind_ok by (unfold on_ctx; simpl; by rewrite E1).
  destruct (submit_op_spec _ (λ r i, io_uring_prep_read r i (event_fd_ io1) NotifyBuffer 8)
    NotificationOp io1 Hs1 (preps_read _ _ _)) as (io2 & s2 & E2 & Hs2 & Ho2 & Hq2 & [= He2 Hn2] & Hr2).
  unfold on_ctx, submit_notification_read. cbn [ctx core set_ctx set_core]. rewrite bind_gets.
  rewrite (proj2 (Z.ltb_ge _ _)) by by rewrite He1. rewrite E2. eexists. split; [done|]. simpl.
  assert (outstanding io2 ≡ₚ [Some NotificationOp; Some AcceptOp]) as Hall by by rewrite Ho2, Ho1, Ho.
  split_and!; [done..|congruence|congruence| |done|done].
  assert (∀ op, posted io2 None op = length (filter (λ o, o = Some op) [Some NotificationOp; Some AcceptOp])) as Hp.
  { intros op. unfold posted. by rewrite Hall, decide_False, Nat.add_0_r. }
  split; simpl; [done|by rewrite He2, He1|by rewrite Hp..| | |].
  - intros id x. by rewrite lookup_empty.
  - intros id _. by rewrite lookup_empty, !Hp.
  - intros s. rewrite Hr2, Hr1. intros [->|[->|Hin]%elem_of_cons]%elem_of_cons.
    + by rewrite <- He2.
    + done.
    + unfold outstanding in Ho. rewrite in_flight_requests in Ho.
      by destruct (requests (ring_ io)); [apply elem_of_nil in Hin|].
Qed.

(** A core registers: nobody runs yet. *)
Lemma register_ok st c rfd wfd io w :
  sys_ok st → c < num_cores_ (topo (s_world st)) → s_cores st !! c = None →
  (0 ≤ rfd)%Z → (0 ≤ wfd)%Z →
  new_context default_entries (wakes (s_world st)) (Some (rfd, wfd)) = Ok io →
  eventfds (s_world st) !! notify_fd_ io = None →
  worker_register c io (set_eventfds (s_world st)
    (<[notify_fd_ io := 0%Z]> (eventfds (s_world st)))) = (Ok tt, w) →
  sys_ok (mkSys w (s_next st) (<[c := Registered io]> (s_cores st))).
Proof.
  intros Hst Hc Hnone Hr Hwr Hio Hefd Hw. set (efd := notify_fd_ io) in *.
  destruct (new_context_ok _ _ _ _ _ Hio) as (Hpos & Hnpos & Hsl & Ho); [unfold default_entries; lia|done|done|].
  pose proof Hst as [[Hwf Hi Hnn Hlim] Hn Hd Hcnt Hfd Hdi Hre Hru Hqu Hwa].
  assert (∀ c0 k h, s_cores st !! c0 ≠ Some (Running k h)) as Hnorun.
  { intros c0 k h E. destruct (Hru _ _ _ E) as [Hall _].
    destruct (all_started st c Hst Hall Hc) as [p [? _]%launched_lookup]. congruence. }
  assert (launched (s_cores st) !! c = None) as Hl by (apply launched_None; by left).
  assert (∀ c0 p fd, s_cores st !! c0 = Some p → fd_of p = Some fd → fd ≠ efd) as Hne.
  { intros c0 p fd E Hf ->. destruct (Hfd c0 p efd E Hf) as (_ & _ & [n ?]). congruence. }
  unfold worker_register in Hw. rewrite bind_gets in Hw. unfold register_notify_fd in Hw. simpl in Hw.
  rewrite (proj2 (Nat.leb_gt _ _)) in Hw by by rewrite (tw_fds _ Hwf).
  injection Hw as <-.
  split; simpl.
  - split; simpl; [|done| |done].
    + destruct Hwf. split; simpl; try done. by rewrite length_insert.
    + intros fd n [[_ <-]|[_ E]]%lookup_insert_Some; [done|]. by eapply Hnn.
  - done.
  - intros c0. rewrite lookup_insert_is_Some'. intros [<-|?]; auto.
  - by rewrite launched_insert, map_size_insert_None, Hcnt.
  - intros c0 p fd [[<- <-]|[Hc0 E]]%lookup_insert_Some Hf.
    + injection Hf as <-. fold efd. rewrite list_lookup_insert_eq, lookup_insert_eq by by rewrite (tw_fds _ Hwf).
      eauto.
    + destruct (Hfd c0 p fd E Hf) as (? & ? & ?).
      rewrite list_lookup_insert_ne, lookup_insert_ne by eauto using not_eq_sym. done.
  - intros c0 c1 p0 p1 fd [[<- <-]|[Hc0 E0]]%lookup_insert_Some [[<- <-]|[Hc1 E1]]%lookup_insert_Some
      Hf0 Hf1; [done|exfalso..|by eapply Hdi].
    + injection Hf0 as <-. by eapply (Hne c1).
    + injection Hf1 as <-. by eapply (Hne c0).
  - intros c0 io0 [[_ [= <-]]|[_ E]]%lookup_insert_Some; [done|]. by eapply Hre.
  - intros c0 k h [[_ ?]|[_ E]]%lookup_insert_Some; [done|]. by destruct (Hnorun c0 k h).
  - intros c0 Hc0. rewrite launched_insert by done. intros [E _]%lookup_insert_None. by apply Hqu.
  - intros c0 p fd [[<- <-]|[Hc0 E]]%lookup_insert_Some Hf; [left; by apply Hqu|].
    destruct (Hwa c0 p fd E Hf) as [?|[Hwk|?]]; auto. right; left.
    destruct (Hfd c0 p fd E Hf) as (_ & Hnfd & _).
    intros fd1 n. simpl. rewrite list_lookup_insert_ne by done. intros H1.
    assert (fd1 = fd) as -> by congruence. rewrite lookup_insert_ne by eauto using not_eq_sym.
    by apply Hwk.
Qed.

(** *** Waiting *)

Lemma core_ok_perm owed k next io' :
  core_ok owed k next → has_slots io' → event_fd_ io' = event_fd_ (ctx k) →
  outstanding io' ≡ₚ outstanding (ctx k) → requests (ring_ io') ⊆ requests (ring_ (ctx k)) →
  core_ok owed (mkCore io' (server_fd_ k) (local_connections k)) next.
Proof.
  intros [Hsl Hfd Ha Hn Hc Hf Hr] Hs He Ho Hrq.
  assert (∀ op, posted io' owed op = posted (ctx k) owed op) as Hp.
  { intros op. unfold posted. by rewrite Ho. }
  split; simpl; [done|by rewrite He|by rewrite Hp..| | |].
  - intros id x [? ? ? ? ?]%Hc. by split; rewrite ?Hp.
  - intros id Hid. rewrite !Hp. by apply Hf.
  - intros s Hs'%Hrq%Hr. apply (asks_change k); [done..|]. eauto.
Qed.

Lemma submit_and_wait_ok rounds n io io' :
  submit_and_wait rounds n io = Some io' → has_slots io →
  has_slots io' ∧ wake_fds io' = wake_fds io ∧ outstanding io' ≡ₚ outstanding io ∧
  requests (ring_ io') ⊆ requests (ring_ io) ∧ ∃ l, cqes (ring_ io') = cqes (ring_ io) ++ l.
Proof.
  unfold submit_and_wait, io_uring_submit_and_wait. intros E Hs.
  apply fmap_Some in E as (r & E & ->). unfold has_slots, outstanding in *. simpl.
  destruct (wait_loop_keeps _ _ _ _ E) as [Hl Hq]. split_and!; [|done| | |done].
  - rewrite Hl. simpl. by rewrite length_fmap.
  - by rewrite (wait_loop_in_flight _ _ _ _ E), submit_in_flight.
  - intros s Hin%(wait_loop_requests _ _ _ _ E). by rewrite <- submit_requests.
Qed.

(** The kernel reads from a core's descriptor and tells it. *)
Lemma sys_ok_reset st c p fd m :
  sys_ok st → s_cores st !! c = Some p → fd_of p = Some fd → Some NotificationOp ∈ unhandled p →
  (0 ≤ m)%Z →
  sys_ok (mkSys (set_eventfds (s_world st) (<[fd := m]> (eventfds (s_world st)))) (s_next st) (s_cores st)).
Proof.
  intros Hst Hp Hf Hu Hm. pose proof Hst as [[Hwf Hi Hnn Hlim] Hn Hd Hcnt Hfd Hdi Hre Hru Hqu Hwa].
  split; simpl; [|done..| |done|done|done|done|].
  - split; simpl; [done..| |done]. intros fd0 n [[_ <-]|[_ E]]%lookup_insert_Some; [done|]. by eapply Hnn.
  - intros c0 p0 fd0 E0 Hf0. destruct (Hfd c0 p0 fd0 E0 Hf0) as (? & ? & ?). split_and!; [done..|].
    rewrite lookup_insert_is_Some'. auto.
  - intros c0 p0 fd0 E0 Hf0. destruct (decide (c0 = c)) as [->|Hne].
    { right; right. congruence. }
    destruct (Hwa c0 p0 fd0 E0 Hf0) as [?|[Hwk|?]]; auto. right; left.
    destruct (Hfd c0 p0 fd0 E0 Hf0) as (_ & Hnfd & _). intros fd1 n. simpl. intros H1.
    assert (fd1 = fd0) as -> by congruence.
    rewrite lookup_insert_ne; [by apply Hwk|]. intros ->. by eapply Hne, Hdi.
Qed.

Lemma pending_view_none k : pending_view k None = k.
Proof. by destruct k as [[[] ? ?] ? ?]. Qed.

Lemma pending_view_zero k : pending_view k (Some 0) = k.
Proof. by destruct k as [[[] ? ?] ? ?]. Qed.

Lemma wait_ok st c k rounds io e :
  sys_ok st → s_cores st !! c = Some (Running k None) →
  submit_and_wait rounds 1 (ctx k) = Some io → kernel_read (wakes (s_world st)) io (eventfds (s_world st)) e →
  sys_ok (mkSys (set_eventfds (s_world st) e) (s_next st)
    (<[c := Running (mkCore io (server_fd_ k) (local_connections k)) (Some 0)]> (s_cores st))).
Proof.
  intros Hst Hk Hw He. destruct (sy_running _ Hst _ _ _ Hk) as [Hall Hko].
  rewrite pending_view_none in Hko.
  destruct (submit_and_wait_ok _ _ _ _ Hw (ko_slots _ _ _ Hko)) as (Hs & [= Hefd Hfd] & Ho & Hrq & l & Hl).
  set (p' := Running _ (Some 0)).
  assert (sys_ok (mkSys (s_world st) (s_next st) (<[c := p']> (s_cores st)))) as Hst'.
  { eapply sys_ok_change; [done..|apply Hst|done|done|simpl; by rewrite Hfd|done|done|done| |].
    - intros k' h' [= <- <-]. rewrite pending_view_zero. by apply core_ok_perm.
    - intros fd Hf. destruct (sy_wake _ Hst _ _ _ Hk eq_refl) as [?|[?|Hu]]; auto.
      right; right. unfold unhandled, p' in *. simpl in *. rewrite drop_0 in *.
      rewrite Hl, fmap_app. apply elem_of_app. by left. }
  destruct He as [->|(n & _ & Hpos & -> & Hn)].
  - by destruct st as [[] ? ?].
  - apply (sys_ok_reset _ c p' (notify_fd_ io) _ Hst'); [apply lookup_insert_eq|done| |].
    + unfold unhandled, p'. simpl. by rewrite drop_0.
    + unfold wake_read. case_match; lia.
Qed.

(** *** Handling a completion *)

Lemma pop_ok k next i e :
  core_ok None (pending_view k (Some i)) next → cqes (ring_ (ctx k)) !! i = Some e →
  core_ok (cqe_data e) (pending_view k (Some (S i))) next.
Proof.
  intros [Hsl Hfd Ha Hn Hc Hf Hr] He. simpl in *.
  assert (∀ op, posted (advance_io (S i) (ctx k)) (cqe_data e) op =
    posted (advance_io i (ctx k)) None op) as Hp.
  { intros op. unfold posted, outstanding, in_flight. cbn [advance_io set_ring ring_ io_uring_cq_advance
      sqes pending_sqes cqes]. rewrite (drop_S _ _ _ He), fmap_cons, !filter_app, !length_app.
    rewrite (decide_False (P := None = Some op)) by done.
    destruct (decide (cqe_data e = Some op)) as [E|E];
      [rewrite filter_cons_True by done; simpl|rewrite filter_cons_False by done]; lia. }
  split; simpl; [done|done|by rewrite Hp..| | |exact Hr].
  - intros id x [? ? ? ? ?]%Hc. by split; rewrite ?Hp.
  - intros id Hid. rewrite !Hp. by apply Hf.
Qed.

Lemma dispatch_ok c s e data :
  server_ok c (cqe_data e) s → (0 ≤ next_conn_id s < 2 ^ 32 - 1)%Z →
  handled c None s (λ _ s', cqe_data e = Some NotificationOp → drained c s') (dispatch c e data s).
Proof.
  intros Hs Hn. unfold dispatch. destruct (cqe_data e) as [op|].
  - eapply handled_weaken; [by apply complete_ok|]. intros [] s' _ _ Hd [= ->]. by apply Hd.
  - by eapply handled_ok.
Qed.

(** The core that handles the [i]-th completion, without it and those before. *)
Lemma advanced_ok st c k i e :
  sys_ok st → s_cores st !! c = Some (Running k (Some i)) → cqes (ring_ (ctx k)) !! i = Some e →
  server_ok c (cqe_data e) (advance (S i) (server_of st k)).
Proof.
  intros Hst Hk He. destruct (sy_running _ Hst _ _ _ Hk) as [_ Hko].
  split; [apply Hst|apply (sy_dom _ Hst); eauto|]. by apply pop_ok.
Qed.

(** The handler, seen without the completions handled before. *)
Lemma dispatch_handled st c k i e data :
  sys_ok st → s_cores st !! c = Some (Running k (Some i)) →
  cqes (ring_ (ctx k)) !! i = Some e → (s_next st < 2 ^ 32 - 1)%Z →
  let s := dispatch c e data (server_of st k) in
  handled c None (server_of st (pending_view k (Some (S i))))
    (λ _ s', cqe_data e = Some NotificationOp → drained c s') (s.1, advance (S i) s.2).
Proof.
  intros Hst Hk He Hn s. unfold s. pose proof (sy_next _ Hst).
  rewrite <- (ob_advance _ (dispatch_oblivious c e data) (S i) (server_of st k)).
  apply dispatch_ok; [by apply advanced_ok|simpl; lia].
Qed.

Lemma complete_step_ok st c k i e data s :
  sys_ok st → s_cores st !! c = Some (Running k (Some i)) →
  cqes (ring_ (ctx k)) !! i = Some e → (s_next st < 2 ^ 32 - 1)%Z →
  dispatch c e data (server_of st k) = (Ok tt, s) →
  sys_ok (put_server st c s (Running (core s) (Some (S i)))).
Proof.
  intros Hst Hk He Hn E. destruct (sy_running _ Hst _ _ _ Hk) as [Hall Hko].
  pose proof (dispatch_handled st c k i e data Hst Hk He Hn) as Hd.
  pose proof (ob_cqes _ (dispatch_oblivious c e data) (server_of st k)) as Hq.
  pose proof (ob_fd _ (dispatch_oblivious c e data) (server_of st k)) as Hfd.
  rewrite E in *. simpl in Hq. injection Hfd as _ Hfd. destruct Hd as ([Hw Hc Hk'] & Hg & Hnx & Hdr).
  eapply sys_ok_change; [done|done|done|done|done|simpl; by rewrite Hfd|done|done|done| |].
  - intros k' h' [= <- <-]. done.
  - intros fd _. destruct (sy_wake _ Hst _ _ _ Hk eq_refl) as [Hi|[Hi|Hu]].
    + destruct (gr_inbox _ _ Hg c) as [Hsame|[?|?]]; [|auto..]. left. by etrans.
    + right; left. by eapply woken_grows.
    + unfold unhandled in *. simpl in *. rewrite Hq. rewrite (drop_S _ _ _ He) in Hu.
      rewrite fmap_cons in Hu. apply elem_of_cons in Hu as [Hu|?]; [|by right; right].
      destruct (Hdr (eq_sym Hu)) as [?|?]; auto.
Qed.

Lemma throw_step_ok st c k i e data ex s :
  sys_ok st → s_cores st !! c = Some (Running k (Some i)) →
  cqes (ring_ (ctx k)) !! i = Some e → (s_next st < 2 ^ 32 - 1)%Z →
  dispatch c e data (server_of st k) = (Throw ex, s) →
  sys_ok (close_fd (put_server st c s Ended) (notify_fd_ (ctx k))).
Proof.
  intros Hst Hk He Hn E.
  pose proof (dispatch_handled st c k i e data Hst Hk He Hn) as Hd.
  rewrite E in Hd. destruct Hd as (Hw & Hg & Hnx). simpl in *.
  assert (sys_ok (mkSys (world s) (next_conn_id s) (s_cores st))) as Hst1.
  { eapply sys_ok_world; eauto. }
  pose proof (sys_ok_end _ c _ Hst1 Hk eq_refl) as Hst2.
  apply sys_ok_close; [done|]. simpl.
  intros c' p' [[_ <-]|[Hne E']]%lookup_insert_Some; [done|]. intros Hf.
  by eapply Hne, (sy_distinct _ Hst _ _ _ _ _ Hk E').
Qed.

Lemma advance_step_ok st c k i :
  sys_ok st → s_cores st !! c = Some (Running k (Some i)) →
  sys_ok (set_phase st c (Running (mkCore (advance_io i (ctx k)) (server_fd_ k)
    (local_connections k)) None)).
Proof.
  intros Hst Hk. destruct (sy_running _ Hst _ _ _ Hk) as [Hall Hko].
  eapply sys_ok_change; [done|done|apply Hst|done|done|done|done|done|done| |].
  - intros k' h' [= <- <-]. by rewrite pending_view_none.
  - intros fd _. by apply (sy_wake _ Hst _ _ _ Hk eq_refl).
Qed.

Lemma step_ok st st' : sys_ok st → step st st' → sys_ok st'.
Proof.
  intros Hst [l Hstep]. destruct Hstep as
    [c rfd wfd io w Hc Hn Hr Hwr _ Hio He Hw|c ex Hc Hn _|c io os port fd calls s Hc Hall _ E|c io os port ex calls Hc _ _|c k rounds io e Hk Hw He
    |c k i e data s Hk He Hn E|c k i e data ex s Hk He Hn E|c k i Hk He].
  - exact (register_ok st c rfd wfd io w Hst Hc Hn Hr Hwr Hio He Hw).
  - by apply sys_ok_abort.
  - destruct (worker_listen_ok st c io fd Hst Hc) as (s' & E' & Hw & Hnx & Hfd & Hq & Hko & _).
    rewrite E in E'. injection E' as <-. unfold put_server. rewrite Hw, Hnx.
    eapply sys_ok_change; [done|done|apply Hst|done|done|simpl; by rewrite Hfd|done|done|done| |].
    + intros k' h' [= <- <-]. by rewrite pending_view_none.
    + intros fd' _. destruct (sy_wake _ Hst _ _ _ Hc eq_refl) as [?|[?|Hu]]; auto.
      by apply elem_of_nil in Hu.
  - apply sys_ok_close; [by eapply sys_ok_end|]. simpl.
    intros c' p' [[_ <-]|[Hne E']]%lookup_insert_Some; [done|]. intros Hf.
    by eapply Hne, (sy_distinct _ Hst _ _ _ _ _ Hc E').
  - by eapply wait_ok.
  - by eapply complete_step_ok.
  - by eapply throw_step_ok.
  - by eapply advance_step_ok.
Qed.

End system.
