(* ===== verification/Sockets.v ===== *)
(** * The sockets of a core, and the descriptors of the server

    Which sockets a core holds after each of its handlers ([dispatch_sockets]), and
    the descriptors of the whole server: those its objects own ([owned]), and the
    table the kernel keeps of the open ones, of which a step opens and closes some
    ([tstep]).  The destructors of the server's classes close them. *)
From S2P Require Import Prelude CxxString Double Containers Value Store HashMap Shard Router Topology Command Exec Rdb Registry Safety RespParser UringStub IoContext Listener Connection Worker Handlers CoreInvariant System.
From Stdlib Require Import ZArith Ascii Lia.
From stdpp Require Import prelude gmap strings list_numbers.

(** The socket of each connection of a core. *)
Definition conn_fds (k : Core) : gmap Z Z := fd_ <$> local_connections k.

Section sockets.
Context `{StdHash} `{FileSystem}.

(** ** Handlers *)

(** The sockets after the handler of [e]: a read or a write that reports the end of
    its connection drops it, an accept that succeeds adds one. *)
Definition sockets_after (e : io_uring_cqe Operation) (s : Server) : gmap Z Z :=
  let m := conn_fds (core s) in
  match cqe_data e with
  | Some (ReadOp id) => if (res e <=? 0)%Z then delete id m else m
  | Some (WriteOp id) => if (res e <? 0)%Z then delete id m else m
  | Some AcceptOp => if (res e <? 0)%Z then m else <[next_conn_id s := res e]> m
  | _ => m
  end.

Lemma conn_fds_insert (m : gmap Z Connection) id x x' :
  m !! id = Some x → fd_ x' = fd_ x → fd_ <$> <[id := x']> m = fd_ <$> m.
Proof. intros Hx E. rewrite fmap_insert, E. apply insert_id. by rewrite lookup_fmap, Hx. Qed.

(** Handling data changes the parser of its connection. *)
Lemma handle_data_core c id x data s r s' :
  local_connections (core s) !! id = Some x → handle_data c id data s = (Ok r, s') →
  ∃ p, core s' = core (set_connections s (<[id := set_parser x p]> (local_connections (core s)))).
Proof.
  intros Hx E. unfold handle_data in E. apply bind_inv_ok in E as (r1 & s1 & E1 & E2).
  unfold parser_consume in E1. rewrite Hx in E1.
  destruct (consume data (parser_ x)) as [[[r0 o]|e|] p]; [|done..]. injection E1 as -> <-.
  destruct r1; [injection E2 as _ <-; by eexists| |].
  - apply bind_inv_ok in E2 as (x1 & s2 & E1 & E2). unfold this in E1. simpl in E1.
    rewrite lookup_insert_eq in E1. injection E1 as <- <-.
    apply bind_inv_ok in E2 as (resp & s2 & E1 & E2). unfold on_world in E1.
    destruct (execute_command _ _ _ _) as [o1 w]. injection E1 as -> <-.
    apply bind_inv_ok in E2 as (x1 & s2 & E1 & E2). unfold this in E1. simpl in E1.
    rewrite lookup_insert_eq in E1. injection E1 as <- <-.
    injection E2 as _ <-. exists reset. simpl. by rewrite insert_insert_eq.
  - apply bind_inv_ok in E2 as (x1 & s2 & E1 & E2). unfold this in E1. simpl in E1.
    rewrite lookup_insert_eq in E1. injection E1 as <- <-.
    injection E2 as _ <-. exists reset. simpl. by rewrite insert_insert_eq.
Qed.

Lemma handle_read_sockets c s id n data s' :
  server_ok c (Some (ReadOp id)) s → handle_read c id n data s = (Ok tt, s') →
  conn_fds (core s') = if (n <=? 0)%Z then delete id (conn_fds (core s)) else conn_fds (core s).
Proof.
  intros Hs E. unfold handle_read in E. apply bind_inv_ok in E as (x & s0 & E0 & E). unfold this in E0.
  destruct (local_connections (core s) !! id) as [x0|] eqn:Hx; [|done]. injection E0 as -> <-.
  destruct (n <=? 0)%Z; [injection E as <-; apply fmap_delete|].
  apply bind_inv_ok in E as (reply & s1 & E1 & E).
  pose proof (handle_data_ok c _ s id data Hs ltac:(by eexists)) as Hok. rewrite E1 in Hok.
  destruct Hok as (Hs1 & _ & _ & x1 & Hx1).
  destruct (handle_data_core c id x data s reply s1 Hx E1) as [p Hc].
  assert (conn_fds (core s1) = conn_fds (core s)) as <-.
  { rewrite Hc. by apply (conn_fds_insert _ id x). }
  apply bind_inv_ok in E as ([] & s2 & E2 & E).
  assert (conn_fds (core s2) = conn_fds (core s1) ∧ server_ok c (Some (ReadOp id)) s2 ∧ alive id s2)
    as (<- & Hs2 & x2 & Hx2).
  { case_bool_decide; [injection E2 as <-; by split_and!; [..|eexists]|].
    destruct (submit_write_ok c _ s1 id x1 reply Hs1 Hx1) as (s3 & E3 & Hs3 & _ & _ & Hl).
    rewrite E2 in E3. injection E3 as <-. unfold conn_fds, alive. rewrite Hl.
    split_and!; [by apply (conn_fds_insert _ id x1)|done|by rewrite lookup_insert_eq]. }
  unfold submit_read in E. erewrite bind_ok in E by by apply this_ok.
  destruct (settle_read_ok c s2 id x2 Hs2 Hx2) as (io' & E' & _). rewrite E' in E. by injection E as <-.
Qed.

Lemma on_ctx_connections {A} (m : comp IoContext A) s r s' :
  on_ctx m s = (r, s') → local_connections (core s') = local_connections (core s).
Proof. unfold on_ctx. destruct (m _). by intros [= _ <-]. Qed.

Lemma handle_write_sockets s id n s' :
  handle_write id n s = (Ok tt, s') →
  conn_fds (core s') = if (n <? 0)%Z then delete id (conn_fds (core s)) else conn_fds (core s).
Proof.
  intros E. unfold handle_write in E. apply bind_inv_ok in E as (x & s0 & E0 & E). unfold this in E0.
  destruct (local_connections (core s) !! id) as [x0|] eqn:Hx; [|done]. injection E0 as -> <-.
  destruct (n <? 0)%Z; [injection E as <-; apply fmap_delete|].
  erewrite bind_ok in E by done.
  assert (∀ x', fd_ x' = fd_ x → fd_ <$> <[id := x']> (local_connections (core s)) = conn_fds (core s)) as Hi.
  { intros x' Hf. by apply (conn_fds_insert _ id x). }
  case_match.
  - injection E as <-. unfold conn_fds. simpl. rewrite insert_insert_eq. by apply Hi.
  - unfold submit_front in E. case_match; [done|]. unfold conn_fds.
    rewrite (on_ctx_connections _ _ _ _ E). by apply Hi.
Qed.

Lemma handle_message_sockets c owed msg s s' :
  server_ok c owed s → handle_message c msg s = (Ok tt, s') → conn_fds (core s') = conn_fds (core s).
Proof.
  intros Hs E. unfold handle_message in E. destruct (msg_type msg).
  - apply bind_inv_ok in E as (reply & s1 & E1 & E). unfold on_world in E1.
    destruct (execute_request c msg (world s)) as [o w]. injection E1 as -> <-.
    case_bool_decide; [by injection E as <-|]. unfold on_world in E. cbn [world] in E.
    destruct ((push_channel _ _ ;; notify_core _) w) as [o1 w1]. by injection E as _ <-.
  - rewrite bind_gets in E. destruct (local_connections (core s) !! msg_conn_id msg) as [x|] eqn:Hx.
    + destruct (submit_write_ok c owed s _ x (payload msg) Hs Hx) as (s1 & E1 & _ & _ & _ & Hl).
      rewrite E in E1. injection E1 as <-. unfold conn_fds. rewrite Hl. by apply (conn_fds_insert _ _ x).
    + by injection E as <-.
Qed.

Lemma handle_messages_sockets c owed batch : ∀ s s',
  server_ok c owed s → Forall (msg_ok (topo (world s)) c) batch →
  foldM (λ _ msg, handle_message c msg) tt batch s = (Ok tt, s') →
  conn_fds (core s') = conn_fds (core s).
Proof.
  induction batch as [|m batch IH]; intros s s' Hs Hb E; [by injection E as <-|].
  apply Forall_cons in Hb as [Hm Hb]. cbn [foldM] in E. apply bind_inv_ok in E as ([] & s1 & E1 & E).
  pose proof (handle_message_ok c owed s m Hs Hm) as Hok. rewrite E1 in Hok. destruct Hok as (Hs1 & Hg & _).
  rewrite <- (handle_message_sockets c owed m s s1 Hs E1). apply (IH s1 s' Hs1); [|done].
  eapply Forall_impl; [done|]. intros m'. apply msg_ok_shape, Hg.
Qed.

Lemma dispatch_sockets c e data s s' :
  server_ok c (cqe_data e) s → (0 ≤ next_conn_id s < 2 ^ 32 - 1)%Z →
  dispatch c e data s = (Ok tt, s') → conn_fds (core s') = sockets_after e s.
Proof.
  intros Hs Hn E. destruct e as [[[id|id| |]|] n]; completion;
    unfold sockets_after; cbn [cqe_data res] in *.
  - by eapply handle_read_sockets.
  - by apply handle_write_sockets.
  - destruct (Z.ltb_spec n 0) as [Hlt|Hge].
    + unfold handle_accept in E. rewrite (proj2 (Z.ltb_lt _ _)) in E by done.
      destruct (submit_accept_runs c s Hs) as (io' & E' & _). rewrite E' in E. by injection E as <-.
    + destruct (handle_accept_runs c s n Hs Hn Hge) as (s1 & E1 & _ & _ & _ & Hl).
      rewrite E in E1. injection E1 as <-. unfold conn_fds. by rewrite Hl, fmap_insert.
  - apply bind_inv_ok in E as ([] & s1 & E1 & E). unfold conn_fds. rewrite (on_ctx_connections _ _ _ _ E).
    unfold notification_handler in E1. pose proof Hs as [Hw Hc Hk].
    destruct (take_inbox_ok c (world s) Hw Hc) as (batch & w' & Et & Hw' & Hg & _ & _ & Hb).
    erewrite bind_ok in E1 by (unfold on_world; by rewrite Et).
    eapply (handle_messages_sockets c _ batch (mkServer w' (core s) (next_conn_id s))); [|done|exact E1].
    split; [done| |done]. simpl. by rewrite (sh_cores _ _ (gr_shape _ _ Hg)).
  - by injection E as <-.
Qed.

(** The sockets of a core after a step that handles a completion. *)
Lemma step_sockets st c k i e data s :
  sys_ok st → s_cores st !! c = Some (Running k (Some i)) → cqes (ring_ (ctx k)) !! i = Some e →
  (s_next st < 2 ^ 32 - 1)%Z → dispatch c e data (server_of st k) = (Ok tt, s) →
  conn_fds (core s) = sockets_after e (server_of st k).
Proof.
  intros Hst Hk He Hn E. pose proof (sy_next _ Hst).
  pose proof (ob_advance _ (dispatch_oblivious c e data) (S i) (server_of st k)) as Ho. rewrite E in Ho.
  exact (dispatch_sockets c e data _ _ (advanced_ok st c k i e Hst Hk He) ltac:(simpl; lia) Ho).
Qed.

(** ** Descriptors *)

(** The wake-up descriptors of a context: an event descriptor is both. *)
Definition wake_list (io : IoContext) : list Z :=
  if decide (event_fd_ io = notify_fd_ io) then [event_fd_ io] else [event_fd_ io; notify_fd_ io].

(** The sockets that accepts returned. *)
Definition accepted_fd (e : io_uring_cqe Operation) : option Z :=
  match cqe_data e with
  | Some AcceptOp => if (res e <? 0)%Z then None else Some (res e)
  | _ => None
  end.
Definition accepted (l : list (io_uring_cqe Operation)) : list Z := omap accepted_fd l.

(** The descriptors the objects of a core own: its context, its server, its
    connections, and the completions it has not handled. *)
Definition phase_fds (p : phase) : list Z :=
  match p with
  | Registered io => wake_list io
  | Running k h => wake_list (ctx k) ++ server_fd_ k :: (map_to_list (conn_fds k)).*2 ++
      accepted (drop (default 0 h) (cqes (ring_ (ctx k))))
  | Ended | Aborted => []
  end.

Definition owned_by (m : gmap nat phase) : list Z := (map_to_list m).*2 ≫= phase_fds.
Definition owned (st : System) : list Z := owned_by (s_cores st).

(** The descriptors the kernel opens in a step: the wake-up descriptors of a core
    that registers, the socket of one that listens, the sockets of the clients
    accepted while it waits.  (The socket of a core whose [setup_listener] fails is
    not among them: the constructor throws, so nothing ever uses or closes it.) *)
Definition opened (st : System) (l : label) (st' : System) : list Z :=
  match l with
  | Internal c =>
      match s_cores st !! c, s_cores st' !! c with
      | None, Some (Registered io) => wake_list io
      | Some (Registered _), Some (Running k _) => [server_fd_ k]
      | Some (Running k None), Some (Running k' _) =>
          accepted (drop (length (cqes (ring_ (ctx k)))) (cqes (ring_ (ctx k'))))
      | _, _ => []
      end
  | _ => []
  end.

(** The descriptors the destructors close in a step: of the connection a completion
    ends, of the server and the context of a core that ends. *)
Definition closed_by (e : io_uring_cqe Operation) (k : Core) : list Z :=
  let dropped id := from_option Connection_destructor [] (local_connections k !! id) in
  match cqe_data e with
  | Some (ReadOp id) => if (res e <=? 0)%Z then dropped id else []
  | Some (WriteOp id) => if (res e <? 0)%Z then dropped id else []
  | _ => []
  end.

Definition closed (st : System) (l : label) (st' : System) : list Z :=
  match l with
  | Internal c =>
      match s_cores st !! c, s_cores st' !! c with
      | Some (Registered io), Some Ended => IoContext_destructor io
      | _, _ => []
      end
  | Completed c e _ =>
      match s_cores st !! c with Some (Running k _) => closed_by e k | _ => [] end
  | Failed c _ _ _ =>
      match s_cores st !! c with Some (Running k _) => worker_exit k | _ => [] end
  end.

(** A step with the kernel's table of open descriptors: what it opens was not open
    and is opened once, as [eventfd], [pipe], [socket] and [accept] promise. *)
Definition tstep (a b : System * gset Z) : Prop :=
  ∃ l, lstep a.1 l b.1 ∧ NoDup (opened a.1 l b.1) ∧ (∀ fd, fd ∈ opened a.1 l b.1 → fd ∉ a.2) ∧
    b.2 = (a.2 ∪ list_to_set (opened a.1 l b.1)) ∖ list_to_set (closed a.1 l b.1).

(** Every descriptor is closed by its owner, once: no core has ended, or the wake-ups
    are pipes.  On Linux the destructor of an ended core closes its event descriptor
    twice ([IoContext_destructor]); a step closes both at once, where the kernel may
    have given the number to another core in between. *)
Definition closes_once (st : System) : Prop :=
  (∀ c, s_cores st !! c ≠ Some Ended) ∨ (∃ cap, wakes (s_world st) = PipePair cap).

Lemma tstep_intro st Ω l st' Ω' op cl :
  lstep st l st' → opened st l st' = op → closed st l st' = cl → NoDup op →
  (∀ fd, fd ∈ op → fd ∉ Ω) → Ω' = (Ω ∪ list_to_set op) ∖ list_to_set cl → tstep (st, Ω) (st', Ω').
Proof. intros Hs <- <- Hn Hf ->. exists l. by split_and!. Qed.

Lemma tstep_opens st Ω l st' fds :
  lstep st l st' → opened st l st' = fds → NoDup fds → (∀ fd, fd ∈ fds → fd ∉ Ω) →
  ∃ Ω', tstep (st, Ω) (st', Ω').
Proof. intros Hs <- Hn Hf. eexists. by eapply tstep_intro. Qed.

Lemma worker_listen_oblivious : oblivious worker_listen.
Proof. unfold worker_listen, server_start. oblivious; apply notification_read_oblivious. Qed.

(** ** How a step moves the descriptors *)

Lemma owned_insert m c p : owned_by (<[c := p]> m) ≡ₚ phase_fds p ++ owned_by (delete c m).
Proof.
  unfold owned_by. rewrite <- insert_delete_eq, map_to_list_insert by apply lookup_delete_eq. done.
Qed.

Lemma owned_split m c :
  owned_by m ≡ₚ from_option phase_fds [] (m !! c) ++ owned_by (delete c m).
Proof.
  destruct (m !! c) as [p|] eqn:E; simpl.
  - rewrite <- owned_insert, insert_id by done. done.
  - by rewrite delete_id.
Qed.

Lemma destructor_wakes io : IoContext_destructor io ⊆ wake_list io.
Proof.
  intros fd. unfold IoContext_destructor, wake_list. rewrite elem_of_app.
  repeat case_match; set_solver.
Qed.

Lemma accepted_app l1 l2 : accepted (l1 ++ l2) = accepted l1 ++ accepted l2.
Proof. apply omap_app. Qed.

Lemma accepted_nonneg l fd : fd ∈ accepted l → (0 ≤ fd)%Z.
Proof.
  unfold accepted. intros (e & _ & He)%list_elem_of_omap. unfold accepted_fd in He.
  repeat case_match; simplify_eq. by apply Z.ltb_ge.
Qed.

(** From [old] to [new], what is left out has been closed ([cl]). *)
Definition sheds (old new cl : list Z) : Prop :=
  ∃ dropped, new ++ dropped ≡ₚ old ∧ cl ⊆ dropped ∧ ∀ fd, fd ∈ dropped → (0 ≤ fd)%Z → fd ∈ cl.

Lemma sheds_none old new : new ≡ₚ old → sheds old new [].
Proof. intros Hp. exists []. rewrite app_nil_r. by split_and!. Qed.

Lemma sheds_frame l old new cl : sheds old new cl → sheds (l ++ old) (l ++ new) cl.
Proof.
  intros (d & Hp & Hc & Hd). exists d. split_and!; [|done..]. by rewrite <- app_assoc, Hp.
Qed.

(** A connection is dropped. *)
Lemma sheds_delete k id l :
  sheds ((map_to_list (conn_fds k)).*2 ++ l) ((map_to_list (delete id (conn_fds k))).*2 ++ l)
    (from_option Connection_destructor [] (local_connections k !! id)).
Proof.
  destruct (local_connections k !! id) as [x|] eqn:Hx; simpl.
  - exists [fd_ x]. split_and!.
    + assert (conn_fds k !! id = Some (fd_ x)) as Hf by (unfold conn_fds; by rewrite lookup_fmap, Hx).
      rewrite <- (map_to_list_delete _ _ _ Hf). simpl. solve_Permutation.
    + unfold Connection_destructor. case_match; set_solver.
    + intros fd ->%list_elem_of_singleton Hge. unfold Connection_destructor.
      rewrite (proj2 (Z.leb_le _ _)) by done. set_solver.
  - apply sheds_none. by rewrite delete_id by (unfold conn_fds; by rewrite lookup_fmap, Hx).
Qed.

(** The handler of a completion: an accepted socket passes to its connection, the
    socket of a connection that ends is closed. *)
Lemma complete_fds c k next i e s' w data :
  core_ok None (pending_view k (Some i)) next → cqes (ring_ (ctx k)) !! i = Some e →
  conn_fds (core s') = sockets_after e (mkServer w k next) →
  dispatch c e data (mkServer w k next) = (Ok tt, s') →
  sheds (phase_fds (Running k (Some i))) (phase_fds (Running (core s') (Some (S i)))) (closed_by e k).
Proof.
  intros Hk He Hs E. pose proof (dispatch_oblivious c e data) as Hob.
  pose proof (ob_cqes _ Hob (mkServer w k next)) as Hq. pose proof (ob_fd _ Hob (mkServer w k next)) as Hfd.
  pose proof (ob_listen _ Hob (mkServer w k next)) as Hl. rewrite E in Hq, Hfd, Hl. simpl in Hq, Hl.
  assert (wake_list (ctx (core s')) = wake_list (ctx k)) as Hwl.
  { unfold wake_list. by injection Hfd as -> ->. }
  cbn [phase_fds from_option id]. rewrite Hwl, Hl, Hq, Hs, (drop_S _ _ _ He).
  change (e :: drop (S i) (cqes (ring_ (ctx k)))) with ([e] ++ drop (S i) (cqes (ring_ (ctx k)))).
  rewrite accepted_app. set (rest := accepted (drop _ _)).
  rewrite !(cons_middle (server_fd_ k)), !(assoc_L (++) (wake_list _)). apply sheds_frame.
  unfold sockets_after, closed_by, accepted. cbn [core next_conn_id omap list_omap].
  unfold accepted_fd. destruct (cqe_data e) as [[id|id| |]|]; cbn [app].
  - destruct (res e <=? 0)%Z; [apply sheds_delete|by apply sheds_none].
  - destruct (res e <? 0)%Z; [apply sheds_delete|by apply sheds_none].
  - destruct (res e <? 0)%Z; [by apply sheds_none|]. apply sheds_none.
    destruct (ko_fresh _ _ _ Hk next) as [Hn _]; [lia|]. simpl in Hn.
    rewrite map_to_list_insert by (unfold conn_fds; by rewrite lookup_fmap, Hn).
    simpl. solve_Permutation.
  - by apply sheds_none.
  - by apply sheds_none.
Qed.

(** One core's descriptors move: those its objects owned and those it opened are the
    ones they own now and the ones let go; only a core that ends lets go of a
    descriptor without closing it. *)
Lemma step_fds st l st' :
  sys_ok st → lstep st l st' →
  ∃ c p', s_cores st' = <[c := p']> (s_cores st) ∧ s_cores st !! c ≠ Some Ended ∧
    let old := from_option phase_fds [] (s_cores st !! c) ++ opened st l st' in
    match p' with
    | Ended => closed st l st' ⊆ old
    | _ => sheds old (phase_fds p') (closed st l st')
    end.
Proof.
  intros Hst Hs. destruct Hs as
    [c rfd wfd io w Hc Hn Hr Hwr Hne Hio He Hw|c ex Hc Hn Hex|c io os port fd calls s Hc Hall _ E|c io os port ex calls Hc _ _|c k rounds io e Hk Hw He
    |c k i e data s Hk He Hn E|c k i e data ex s Hk He Hn E|c k i Hk He]; exists c; eexists; (split; [done|split; [congruence|]]);
    cbn [opened closed s_cores set_phase put_server close_fd]; rewrite ?lookup_insert_eq; cbv zeta.
  - rewrite Hn. by apply sheds_none.
  - rewrite Hn. by apply sheds_none.
  - rewrite Hc. cbn [from_option].
    destruct (worker_listen_ok st c io fd Hst Hc) as (s' & E' & _ & _ & _ & Hq & _ & Hl & _).
    rewrite E in E'. injection E' as <-. destruct (sy_registered _ Hst _ _ Hc) as (_ & Ho & _).
    pose proof (ob_fd _ worker_listen_oblivious (server_of st (mkCore io fd ∅))) as Hfd. rewrite E in Hfd.
    assert (cqes (ring_ io) = []) as Hnil.
    { unfold outstanding in Ho. rewrite in_flight_requests in Ho. apply app_nil in Ho as [_ Ho].
      by apply fmap_nil_inv in Ho. }
    apply sheds_none. cbn [phase_fds]. unfold conn_fds. rewrite Hl, Hq, Hnil, drop_nil. simpl.
    unfold wake_list. by injection Hfd as -> ->.
  - rewrite Hc, app_nil_r. apply destructor_wakes.
  - rewrite Hk. destruct (sy_running _ Hst _ _ _ Hk) as [_ Hko]. rewrite pending_view_none in Hko.
    destruct (submit_and_wait_ok _ _ _ _ Hw (ko_slots _ _ _ Hko)) as (_ & Hfd & _ & _ & l & Hl).
    apply sheds_none. cbn [phase_fds from_option id ctx server_fd_]. rewrite !drop_0, Hl, drop_app_length, accepted_app.
    unfold conn_fds, wake_list. cbn [local_connections]. injection Hfd as -> ->. solve_Permutation.
  - rewrite Hk. cbn [from_option]. rewrite app_nil_r. destruct (sy_running _ Hst _ _ _ Hk) as [_ Hko].
    eapply complete_fds; [exact Hko|done| |exact E]. by eapply step_sockets.
  - rewrite Hk, app_nil_r. intros fd. unfold worker_exit. cbn [from_option phase_fds].
    rewrite !elem_of_app, elem_of_cons. intros [Hfd|Hfd%destructor_wakes]; [|by left].
    unfold TcpServer_destructor in Hfd. case_match; set_solver.
  - rewrite Hk. cbn [from_option]. rewrite app_nil_r. by apply sheds_none.
Qed.

Lemma opened_nonneg st l st' fd : lstep st l st' → fd ∈ opened st l st' → (0 ≤ fd)%Z.
Proof.
  intros Hs. destruct Hs as
    [c rfd wfd io w Hc Hn Hr Hwr Hne Hio He Hw|c ex Hc Hn Hex|c io os port fd' calls s Hc Hall El E|c io os port ex calls Hc _ _|c k rounds io e Hk Hw He
    |c k i e data s Hk He Hn E|c k i e data ex s Hk He Hn E|c k i Hk He];
    cbn [opened s_cores set_phase put_server close_fd]; rewrite ?lookup_insert_eq;
    try by intros ?%elem_of_nil.
  - rewrite Hn. destruct (new_context_ok _ _ _ _ _ Hio) as (? & ? & _); [unfold default_entries; lia|done|done|].
    unfold wake_list. case_decide; set_solver.
  - rewrite Hn. by intros ?%elem_of_nil.
  - rewrite Hc. intros ->%list_elem_of_singleton.
    pose proof (ob_listen _ worker_listen_oblivious (server_of st (mkCore io fd' ∅))) as Hl. rewrite E in Hl. simpl in Hl.
    pose proof (setup_listener_spec os port) as Hsp. rewrite El in Hsp. rewrite Hl. apply Hsp.
  - rewrite Hc. by intros ?%elem_of_nil.
  - rewrite Hk. apply accepted_nonneg.
  - rewrite Hk. by intros ?%elem_of_nil.
Qed.

(** ** The table *)

(** [Ω0]: what was open before the server started. *)
Record table_ok (Ω0 : gset Z) (a : System * gset Z) : Prop := {
  ta_distinct : NoDup (owned a.1);
  ta_nonneg fd : fd ∈ owned a.1 → (0 ≤ fd)%Z;
  ta_open fd : fd ∈ owned a.1 → fd ∈ a.2 ∧ fd ∉ Ω0;
  ta_kept fd : fd ∈ Ω0 → fd ∈ a.2;
  (* nothing leaks while no core has ended *)
  ta_exact fd : (∀ c, s_cores a.1 !! c ≠ Some Ended) → fd ∈ a.2 → fd ∈ Ω0 ∨ fd ∈ owned a.1
}.

(** A core with the descriptors [old] opens [op], closes [cl] and goes on with [new];
    the others have [R]. *)
Lemma table_move (Ω0 Ω : gset Z) old op d new R cl :
  NoDup (old ++ R) → (∀ fd, fd ∈ old ++ R → fd ∈ Ω ∧ fd ∉ Ω0) → (∀ fd, fd ∈ Ω0 → fd ∈ Ω) →
  NoDup op → (∀ fd, fd ∈ op → fd ∉ Ω) → new ++ d ≡ₚ old ++ op → cl ⊆ d →
  let Ω' := (Ω ∪ list_to_set op) ∖ list_to_set cl in
  NoDup (new ++ R) ∧ (∀ fd, fd ∈ new ++ R → fd ∈ Ω' ∧ fd ∉ Ω0) ∧ (∀ fd, fd ∈ Ω0 → fd ∈ Ω').
Proof.
  intros Hd Ho Hk Hnd Hfr Hp Hcl Ω'.
  assert ((new ++ R) ++ d ≡ₚ (old ++ R) ++ op) as Hall.
  { transitivity ((new ++ d) ++ R); [solve_Permutation|]. rewrite Hp. solve_Permutation. }
  assert (NoDup ((new ++ R) ++ d)) as (Hn1 & Hdis & _)%NoDup_app.
  { rewrite Hall. apply NoDup_app. split_and!; [done| |done]. intros fd Hfd Hfo.
    apply (Hfr fd Hfo). by apply Ho. }
  assert (∀ fd, fd ∈ (new ++ R) ++ d → fd ∈ Ω ∪ list_to_set op ∧ fd ∉ Ω0) as Hin.
  { intros fd. rewrite Hall, elem_of_app, elem_of_union, elem_of_list_to_set. intros [Hfd|Hfd].
    - destruct (Ho fd Hfd). auto.
    - split; [by right|]. intros Hin0%Hk. by apply (Hfr fd). }
  unfold Ω'. split_and!; [done| |]; intros fd Hfd; rewrite elem_of_difference, elem_of_list_to_set.
  - destruct (Hin fd) as [? ?]; [rewrite elem_of_app; auto|]. split_and!; [done| |done].
    intros Hc%Hcl. by apply (Hdis fd).
  - split; [rewrite elem_of_union; auto|]. intros Hc%Hcl.
    destruct (Hin fd) as [_ ?]; [rewrite elem_of_app; auto|done].
Qed.

Lemma table_step Ω0 a b : sys_ok a.1 → table_ok Ω0 a → tstep a b → table_ok Ω0 b.
Proof.
  destruct a as [st Ω], b as [st' Ω']. intros Hst [Hd Hnn Ho Hk He] (l & Hs & Hnd & Hfr & HΩ).
  cbn [fst snd] in *. subst Ω'. pose proof (λ fd, opened_nonneg st l st' fd Hs) as Hop.
  destruct (step_fds st l st' Hst Hs) as (c & p' & Hcs & Hend & Hf). cbv zeta in Hf.
  set (old := from_option phase_fds [] (s_cores st !! c)) in *. set (op := opened st l st') in *.
  set (cl := closed st l st') in *. set (R := owned_by (delete c (s_cores st))).
  assert (owned st ≡ₚ old ++ R) as Hold by apply owned_split.
  assert (owned st' ≡ₚ phase_fds p' ++ R) as Hnew by (unfold owned; rewrite Hcs; apply owned_insert).
  assert (∃ d, phase_fds p' ++ d ≡ₚ old ++ op ∧ cl ⊆ d ∧
    (p' ≠ Ended → ∀ fd, fd ∈ d → (0 ≤ fd)%Z → fd ∈ cl)) as (d & Hp & Hcl & Hex).
  { destruct p'; [by destruct Hf as (d & ? & ? & ?); exists d; split_and!..|by exists (old ++ op)|by destruct Hf as (d & ? & ? & ?); exists d; split_and!]. }
  rewrite Hold in Hd. setoid_rewrite Hold in Hnn. setoid_rewrite Hold in Ho. setoid_rewrite Hold in He.
  destruct (table_move Ω0 Ω old op d (phase_fds p') R cl) as (H1 & H2 & H3); [done..|].
  assert (∀ fd, fd ∈ phase_fds p' ++ d → fd ∈ old ++ op) as Hback by (intros fd; by rewrite Hp).
  assert (∀ fd, fd ∈ phase_fds p' ++ d → (0 ≤ fd)%Z) as Hpos.
  { intros fd [?|?]%Hback%elem_of_app; [apply Hnn, elem_of_app|]; auto. }
  split; cbn [fst snd]; try setoid_rewrite Hnew; [done| |done|done|].
  - intros fd [?|?]%elem_of_app; [apply Hpos, elem_of_app; auto|apply Hnn, elem_of_app; auto].
  - intros fd Hne. rewrite elem_of_difference, elem_of_union, !elem_of_list_to_set. intros [Hin Hncl].
    assert (p' ≠ Ended) as Hp'.
    { intros ->. apply (Hne c). rewrite Hcs. apply lookup_insert_eq. }
    assert (fd ∈ Ω0 ∨ fd ∈ R ∨ fd ∈ phase_fds p' ++ d) as [?|[?|Hfd]].
    { rewrite Hp, elem_of_app. destruct Hin as [Hin|?]; [|auto].
      destruct (He fd) as [?|[?|?]%elem_of_app]; [|done|auto..]. intros c' E.
      destruct (decide (c' = c)) as [->|Hcc]; [done|]. apply (Hne c'). by rewrite Hcs, lookup_insert_ne. }
    + by left.
    + right. apply elem_of_app. auto.
    + right. pose proof (Hpos fd Hfd). rewrite elem_of_app in Hfd |- *. destruct Hfd as [?|?]; [auto|].
      destruct Hncl. by apply Hex.
Qed.

(** ** What nobody owns *)

Lemma ended_step st l st' c :
  sys_ok st → lstep st l st' → s_cores st !! c = Some Ended → s_cores st' !! c = Some Ended.
Proof.
  intros Hst Hs Hc. destruct (step_fds st l st' Hst Hs) as (c1 & p' & -> & Hne & _).
  rewrite lookup_insert_ne; [done|]. by intros ->.
Qed.

(** An open descriptor without an owner stays open, without an owner. *)
Lemma leaked_step a b fd :
  sys_ok a.1 → tstep a b → fd ∈ a.2 → fd ∉ owned a.1 → fd ∈ b.2 ∧ fd ∉ owned b.1.
Proof.
  destruct a as [st Ω], b as [st' Ω']. intros Hst (l & Hs & _ & Hfr & HΩ) Hin Hno. cbn [fst snd] in *. subst Ω'.
  destruct (step_fds st l st' Hst Hs) as (c & p' & Hcs & _ & Hf). cbv zeta in Hf.
  set (old := from_option phase_fds [] (s_cores st !! c) ++ opened st l st') in *.
  unfold owned in *. rewrite (owned_split _ c), elem_of_app in Hno. rewrite Hcs, owned_insert, elem_of_app.
  assert (fd ∉ old) as Hold.
  { unfold old. rewrite elem_of_app. intros [?|Hop]; [tauto|]. by apply (Hfr fd). }
  assert (phase_fds p' ⊆ old ∧ closed st l st' ⊆ old) as [Hp Hc].
  { assert (∀ new cl, sheds old new cl → new ⊆ old ∧ cl ⊆ old) as Hsh.
    { intros new cl (d & Hp & Hc & _). split; intros fd'; rewrite <- Hp, elem_of_app; auto. }
    destruct p'; [by apply Hsh..| |by apply Hsh]. split; [by intros fd' ?%elem_of_nil|done]. }
  split; [|intros [?%Hp|?]; tauto].
  rewrite elem_of_difference, elem_of_union, !elem_of_list_to_set. split; [by left|]. by intros ?%Hc.
Qed.
End sockets.
