(* ===== verification/Linearization.v ===== *)
(** * The server as one sequential database

    The cores run side by side, and a command may be executed far from the
    connection it came from.  Yet the database as a whole goes through the
    commands one at a time: [db_run] runs a list of commands of the abstract
    specification one after the other, each with the reply it was given, and what
    every handler of every core does ([step_events]) is such a run of exactly the
    commands it was given to execute ([performs]), in the order in which it was
    given them. *)
From S2P Require Import Prelude CxxString Double Containers Value Store HashMap Shard Router Topology Command Exec Wire Spec Rdb RdbProofs Registry Replies Safety DatabaseRefinement RespParser UringStub IoContext Listener Connection Worker Handlers DatabaseTheorems CoreInvariant System.
From Stdlib Require Import ZArith Ascii Lia.
From stdpp Require Import prelude gmap strings list_numbers relations.

(** ** Sequential runs of the specification *)

(** What a core is given to do: a command of the connection [src] - the core and
    the identifier - under the name it is looked up by, or bytes of it that are no
    command. *)
Inductive task :=
  | Task (src : nat * Z) (name : string) (args : list string)
  | Malformed (src : nat * Z).

(** How it ended: with a reply; with an exception, because the table had no slot
    for a new key; or the command was passed on to the core that owns its key. *)
Inductive ending := Answered (b : string) | Refused | Forwarded.
Abbreviation event := (task * ending)%type.

Abbreviation adb := (string → option centry).

(** What the command says of its key when the clock is read for the [n]-th and
    the next time. *)
Definition called (clk : nat → Z) (n : nat) (sp : Spec) (args : list string) (d : adb)
    : resp * option centry :=
  sp_run sp (clk n) (clk (S n)) args (d (args !!! 1)).

(** The reply of a core to a name that is no command on a key. *)
Definition unknown_command (name : string) : string :=
  "-ERR unknown command '" +:+ name +:+ "'" +:+ crlf.
Definition outside (name b : string) : Prop :=
  name = "SAVE" ∨ (name = "PING" ∧ b = "+PONG" +:+ crlf) ∨ b = unknown_command name ∨
  (name = EmptyString ∧ b = "-ERR empty command" +:+ crlf).

Definition happens (clk : nat → Z) (n : nat) (ev : event) (d d' : adb) : Prop :=
  match ev with
  | (Task _ name args, Answered b) =>
      match find_spec name with
      | Some sp =>
          (range_ok (sp_name sp) (fst <$> live (clk n) (d (args !!! 1))) →
             b = render (called clk n sp args d).1) ∧
          d' (args !!! 1) = (called clk n sp args d).2 ∧ ∀ k, k ≠ args !!! 1 → d' k = d k
      | None => outside name b ∧ ∀ k, d' k = d k
      end
  | (Task _ name args, Refused) =>
      ∃ sp, find_spec name = Some sp ∧ live (clk n) (d (args !!! 1)) = None ∧
        is_Some (called clk n sp args d).2 ∧
        d' (args !!! 1) = None ∧ ∀ k, k ≠ args !!! 1 → d' k = d k
  | (Task _ name _, Forwarded) => is_Some (find_spec name) ∧ ∀ k, d' k = d k
  | (Malformed _, Answered b) => b = protocol_error ∧ ∀ k, d' k = d k
  | (Malformed _, _) => False
  end.

(** From database [d] before the [n]-th clock reading to [d'] before the
    [n']-th. *)
Inductive db_run (clk : nat → Z) : nat → adb → list event → nat → adb → Prop :=
  | run_nil n n' d d' : n ≤ n' → (∀ k, d' k = d k) → db_run clk n d [] n' d'
  | run_cons n m n1 n' d d1 d' ev l :
      n ≤ m → m ≤ n1 → happens clk m ev d d1 → db_run clk n1 d1 l n' d' →
      db_run clk n d (ev :: l) n' d'.

Lemma happens_ext clk n ev d1 d2 d' :
  (∀ k, d2 k = d1 k) → happens clk n ev d2 d' → happens clk n ev d1 d'.
Proof.
  intros E. unfold happens, called. destruct ev as [[src name args|src] []]; try done;
    repeat case_match; setoid_rewrite E; done.
Qed.

Lemma db_run_start clk n n0 d d0 l n' d' :
  n ≤ n0 → (∀ k, d0 k = d k) → db_run clk n0 d0 l n' d' → db_run clk n d l n' d'.
Proof.
  intros Hn Hd Hr. destruct Hr as [n0 n' d0 d' Hle He|n0 m n1 n' d0 d1 d' ev l H1 H2 Hh Hr].
  - apply run_nil; [lia|]. intros k. by rewrite He, Hd.
  - eapply run_cons; [|done| |done]; [lia|]. by eapply happens_ext.
Qed.

Lemma db_run_app clk n d l1 n1 d1 l2 n2 d2 :
  db_run clk n d l1 n1 d1 → db_run clk n1 d1 l2 n2 d2 → db_run clk n d (l1 ++ l2) n2 d2.
Proof.
  induction 1 as [n n' d d' Hle He|n m n0 n' d d0 d' ev l H1 H2 Hh _ IH]; intros Hr; simpl.
  - by eapply db_run_start.
  - eapply run_cons; eauto.
Qed.

Section effects.
Context `{StdHash} `{FileSystem}.

(** The shared state moved by a run of [evs]. *)
Definition effects (w : World) (evs : list event) (w' : World) : Prop :=
  clock w' = clock w ∧ db_run (clock w) (ticks w) (abs_db w) evs (ticks w') (abs_db w').

Lemma effects_none w w' :
  clock w' = clock w → ticks w ≤ ticks w' → shards_ (topo w') = shards_ (topo w) →
  router_ (topo w') = router_ (topo w) → effects w [] w'.
Proof.
  intros Hc Ht Hs Hr. split; [done|]. apply run_nil; [done|]. intros k.
  unfold abs_db, topo_db, get_target_core. by rewrite Hs, Hr.
Qed.

Lemma effects_refl w : effects w [] w.
Proof. by apply effects_none. Qed.

Lemma effects_app w l1 w1 l2 w2 : effects w l1 w1 → effects w1 l2 w2 → effects w (l1 ++ l2) w2.
Proof.
  intros [Hc1 Hr1] [Hc2 Hr2]. split; [by rewrite Hc2|]. rewrite Hc1 in Hr2. by eapply db_run_app.
Qed.

(** ** What a handler performs *)

(** The events of a handler that was given [tasks]: one for each, in order, or,
    when an exception left it, for the first of them, the last perhaps refused. *)
Definition accounts {A} (tasks : list task) (r : outcome A) (evs : list event) : Prop :=
  match r with
  | Ok _ => evs.*1 = tasks ∧ Forall (λ ev, ev.2 ≠ Refused) evs
  | Throw _ =>
      evs.*1 `prefix_of` tasks ∧
      ∃ first rest, evs = first ++ rest ∧ Forall (λ ev, ev.2 ≠ Refused) first ∧
        (rest = [] ∨ ∃ t, rest = [(t, Refused)])
  | Undefined => False
  end.

Definition performs {A} (tasks : list task) (evs : list event) (s : Server)
    (o : outcome A * Server) : Prop :=
  o.1 = Undefined ∨ (accounts tasks o.1 evs ∧ effects (world s) evs (world o.2)).

Lemma performs_bind {A B} t1 t2 e1 e2 s (m : handler A) (k : A → handler B) :
  performs t1 e1 s (m s) →
  (∀ a s', m s = (Ok a, s') → performs t2 e2 s' (k a s')) →
  (∀ ex s', m s = (Throw ex, s') → e2 = []) →
  performs (t1 ++ t2) (e1 ++ e2) s ((m ≫= k) s).
Proof.
  intros [Hu|[Ha1 He1]] Hk Ht; unfold mbind, comp_bind.
  { left. by destruct (m s) as [[a|e|] s']. }
  destruct (m s) as [[a|e|] s']; [| |by left].
  - destruct Ha1 as [<- Hf1]. destruct (Hk a s' eq_refl) as [?|[Ha2 He2]]; [by left|right].
    split; [|by eapply effects_app]. destruct (k a s') as [[b|e|] s'']; [| |done].
    + destruct Ha2 as [<- Hf2]. cbn [fst]. split; [by rewrite fmap_app|by apply Forall_app].
    + destruct Ha2 as [Hp (first & rest & -> & Hf2 & Hr)]. cbn [fst]. split.
      * rewrite fmap_app. by apply prefix_app.
      * exists (e1 ++ first), rest. split_and!; [by rewrite app_assoc|by apply Forall_app|done].
  - right. rewrite (Ht e s' eq_refl), app_nil_r. split; [|done]. destruct Ha1 as [Hp Hf].
    cbn [fst]. split; [by apply prefix_app_r|done].
Qed.

(** A handler that leaves the shared state alone. *)
Abbreviation worldless := (keeps world).

Lemma accounts_none {A} (r : outcome A) : r ≠ Undefined → accounts [] r [].
Proof. destruct r; [done| |done]. intros _. split; [done|]. exists [], []. auto. Qed.

Lemma performs_worldless {A} (m : handler A) s : worldless m → performs [] [] s (m s).
Proof.
  intros Hm. specialize (Hm s). destruct (m s) as [r s']. cbn [snd] in Hm.
  destruct r; [right..|by left]; (split; [by apply accounts_none|]); cbn [snd]; rewrite Hm; apply effects_refl.
Qed.

(** A part of the shared state changes, no shard does. *)
Lemma performs_world {A} tasks evs (m : prog A) s :
  (m (world s)).1 = Undefined ∨
    (accounts tasks (m (world s)).1 evs ∧ effects (world s) evs (m (world s)).2) →
  performs tasks evs s (on_world m s).
Proof. unfold performs, on_world. by destruct (m (world s)). Qed.

Lemma worldless_handle_accept fd : worldless (handle_accept fd).
Proof. unfold handle_accept, on_connect, start. keeps. done. Qed.

Lemma performs_then {A B} tasks evs s (m : handler A) (k : A → handler B) :
  performs tasks evs s (m s) → (∀ a, worldless (k a)) → performs tasks evs s ((m ≫= k) s).
Proof.
  intros Hm Hk. rewrite <- (app_nil_r tasks), <- (app_nil_r evs). apply performs_bind; [done| |done].
  intros a s' _. by apply performs_worldless.
Qed.

Lemma performs_after {A B} tasks evs s (m : handler A) (k : A → handler B) :
  worldless m → (∀ a s', m s = (Ok a, s') → world s' = world s → performs tasks evs s' (k a s')) →
  (∀ ex s', m s = (Throw ex, s') → evs = []) →
  performs tasks evs s ((m ≫= k) s).
Proof.
  intros Hm Hk. apply (performs_bind [] tasks [] evs); [by apply performs_worldless|].
  intros a s' E. apply Hk; [done|]. specialize (Hm s). by rewrite E in Hm.
Qed.

(** ** Executing a command *)

(** What the outcome of a command says of its task. *)
Definition exec_event (t : task) (r : outcome string) : list event :=
  match r with
  | Ok b => [(t, if bool_decide (b = EmptyString) then Forwarded else Answered b)]
  | Throw _ => [(t, Refused)]
  | Undefined => []
  end.

Lemma exec_accounts t r : r ≠ Undefined → accounts [t] r (exec_event t r).
Proof.
  destruct r as [b|e|]; [| |done]; intros _; (split; [done|]).
  - apply Forall_singleton. by case_bool_decide.
  - exists [], [(t, Refused)]. split_and!; [done..|]. right. by eexists.
Qed.

Lemma effects_one w ev w' :
  clock w' = clock w → ticks w ≤ ticks w' → happens (clock w) (ticks w) ev (abs_db w) (abs_db w') →
  effects w [ev] w'.
Proof.
  intros Hc Ht Hh. split; [done|].
  eapply (run_cons _ _ (ticks w) (ticks w')); [done|done|exact Hh|by apply run_nil].
Qed.

Lemma abs_db_same w w' : topo w' = topo w → ∀ k, abs_db w' k = abs_db w k.
Proof. intros Ht k. unfold abs_db. by rewrite Ht. Qed.

(** No command on a key. *)
Lemma aside_effects src name args b w :
  b ≠ EmptyString → find_spec name = None → outside name b →
  effects w (exec_event (Task src name args) (Ok b)) w.
Proof.
  intros Hb Hs Ho. cbn [exec_event]. rewrite bool_decide_false by done.
  apply effects_one; [done..|]. unfold happens. by rewrite Hs.
Qed.

(** On the core that owns the key. *)
Lemma exec_here_effects w c src name cmd sp conn_id args :
  topo_wf (topo w) → cmd ∈ key_commands → find_spec name = Some sp → realizes cmd sp →
  get_target_core (topo w) (args !!! 1) = c →
  let r := cmd_execute cmd c conn_id args w in
  r.1 = Undefined ∨ effects w (exec_event (Task src name args) r.1) r.2.
Proof.
  intros Hwf Hin Hs [_ Hr] Ho r. specialize (Hr w conn_id args Hwf). cbv zeta in Hr.
  rewrite Ho in Hr. fold r in Hr.
  destruct (lookup_lt_is_Some_2 (shards_ (topo w)) c) as [sh Hsh].
  { rewrite (tw_shards _ Hwf), <- Ho. by apply target_core_lt. }
  pose proof (tw_shard_wf _ Hwf _ _ Hsh) as Hswf.
  destruct (key_command_any w c conn_id args Ho sh Hsh Hswf cmd Hin) as [Hu|Hl]; [by left|].
  destruct (Hl sh Hsh Hswf) as (o & sh' & n & E & _). fold r in E.
  assert (clock r.2 = clock w ∧ ticks w ≤ ticks r.2) as [Hcl Hti].
  { rewrite E. simpl. split; [done|lia]. }
  destruct Hr as [Hu|[((b & Hb & Hne & Hrep) & _ & Hk & Ho')|(Hdead & Hnew & Ht & _ & Hk & _ & Ho')]];
    [by left|right..].
  - rewrite Hb. cbn [exec_event]. rewrite bool_decide_false by done. apply effects_one; [done..|].
    unfold happens. rewrite Hs. split_and!; [done..|]. intros k Hk'. unfold abs_db. by rewrite Ho'.
  - rewrite Ht. apply effects_one; [done..|]. exists sp. split_and!; [done..| |].
    + unfold abs_db. simpl. by rewrite Hk.
    + intros k Hne. unfold abs_db. by rewrite Ho'.
Qed.

(** On another core: answered because of its arguments alone, or passed on. *)
Lemma exec_elsewhere_effects w c src name cmd sp conn_id args :
  topo_wf (topo w) → cmd ∈ key_commands → find_spec name = Some sp → realizes cmd sp →
  get_target_core (topo w) (args !!! 1) ≠ c →
  let r := cmd_execute cmd c conn_id args w in
  effects w (exec_event (Task src name args) r.1) r.2.
Proof.
  intros Hwf Hin Hs [_ Hr] Ho r. destruct (exec_elsewhere w c cmd conn_id args Hin Ho) as [(err & _ & E)|E].
  - specialize (Hr w conn_id args Hwf). cbv zeta in Hr. rewrite E in Hr. unfold r. rewrite E. cbn [fst snd].
    destruct Hr as [?|[((b & [= <-] & Hne & Hrep) & _ & Hk & _)|(_ & _ & Ht & _)]]; [done| |done].
    cbn [exec_event]. rewrite bool_decide_false by done. apply effects_one; [done..|].
    unfold happens. by rewrite Hs.
  - destruct (forward_request_spec w c conn_id args Hwf) as (ch & w' & _ & E' & Ht & Hcl & Hti & _).
    unfold r. rewrite E, E'. cbn [fst snd exec_event]. rewrite bool_decide_true by done.
    apply effects_one; [done|by rewrite Hti|]. split; [by eexists|]. intros k.
    unfold abs_db, topo_db, get_target_core. by rewrite Ht.
Qed.

Lemma exec_effects w c src name cmd conn_id args :
  topo_wf (topo w) → get_command registry name = Some cmd →
  let r := cmd_execute cmd c conn_id args w in
  r.1 = Undefined ∨ effects w (exec_event (Task src name args) r.1) r.2.
Proof.
  intros Hwf Hc r. destruct (registered_cases name cmd Hc) as [Hn [Hin| ->]].
  - destruct (registered_spec name cmd Hc Hin) as (sp & Hs & Hr).
    destruct (decide (get_target_core (topo w) (args !!! 1) = c)) as [Ho|Ho].
    + by eapply exec_here_effects.
    + right. by eapply exec_elsewhere_effects.
  - right. destruct (exec_save w c conn_id args Hwf) as (reply & w' & E & Ht & _ & Hcl & Hti & _).
    unfold r. cbn [cmd_execute SaveCommand]. rewrite E, <- Hn. cbn [fst snd exec_event].
    rewrite bool_decide_false by apply render_nonempty. apply effects_one; [done|by rewrite Hti|].
    split; [by left|]. by apply abs_db_same.
Qed.

Lemma exec_performs t (m : prog string) s :
  ((m (world s)).1 = Undefined ∨
    effects (world s) (exec_event t (m (world s)).1) (m (world s)).2) →
  performs [t] (exec_event t (m (world s)).1) s (on_world m s).
Proof.
  intros Hm. apply performs_world. destruct (m (world s)) as [r w']. cbn [fst snd] in *.
  destruct Hm as [->|Hm]; [by left|]. destruct r; [right..|by left]; (split; [by apply exec_accounts|done]).
Qed.

(** ** The handlers *)

(** The name a connection looks a command up by. *)
Definition command_task (src : nat * Z) (args : list string) : task :=
  Task src (to_upper (default EmptyString (head args))) args.

Lemma execute_command_performs c id args s :
  topo_wf (topo (world s)) →
  let t := command_task (c, id) args in
  performs [t] (exec_event t (execute_command c id args (world s)).1) s
    (on_world (execute_command c id args) s).
Proof.
  intros Hwf t. apply exec_performs. unfold t, command_task, execute_command.
  destruct args as [|name args].
  { right. apply aside_effects; [done..|]. right; right; right. done. }
  cbn [head default]. unfold transform_upper. destruct (plain name); [|by left]. rewrite bind_ret_l.
  destruct (get_command registry (to_upper name)) as [cmd|] eqn:Ec; [by apply exec_effects|].
  right. pose proof (unregistered_spec _ Ec) as Hs.
  case_bool_decide; (apply aside_effects; [done..|]); unfold outside, unknown_command; auto.
Qed.

(** What the read of a connection gives its core to do, and what comes of it. *)
Definition read_tasks (c : nat) (id res : Z) (data : bytes) (s : Server) : list task :=
  match local_connections (core s) !! id with
  | None => []
  | Some x =>
      if (res <=? 0)%Z then [] else
      match consume data (parser_ x) with
      | (Ok (Complete, _), p) => [command_task (c, id) (args_ p)]
      | (Ok (Error, _), _) => [Malformed (c, id)]
      | _ => []
      end
  end.
Definition read_events (c : nat) (id res : Z) (data : bytes) (s : Server) : list event :=
  match local_connections (core s) !! id with
  | None => []
  | Some x =>
      if (res <=? 0)%Z then [] else
      match consume data (parser_ x) with
      | (Ok (Complete, _), p) =>
          exec_event (command_task (c, id) (args_ p)) (execute_command c id (args_ p) (world s)).1
      | (Ok (Error, _), _) => [(Malformed (c, id), Answered protocol_error)]
      | _ => []
      end
  end.

Lemma handle_data_performs c id res data s :
  topo_wf (topo (world s)) → (0 < res)%Z →
  performs (read_tasks c id res data s) (read_events c id res data s) s (handle_data c id data s).
Proof.
  intros Hwf Hres. unfold handle_data, read_tasks, read_events. rewrite (proj2 (Z.leb_gt _ _)) by done.
  destruct (local_connections (core s) !! id) as [x|] eqn:Ex.
  2:{ left. unfold mbind, comp_bind, parser_consume. by rewrite Ex. }
  apply performs_after; [apply keeps_consume, _| |].
  - intros r s1 E Hw. unfold parser_consume in E. rewrite Ex in E.
    destruct (consume data (parser_ x)) as [[[r' o]|e|] p]; [|done..]. injection E as -> <-.
    destruct r; [by apply performs_worldless| |].
    + erewrite bind_ok by (unfold this; simpl; by rewrite lookup_insert_eq). cbn [parser_ set_parser].
      set (s1 := set_connections _ _). apply performs_then.
      * exact (execute_command_performs c id (args_ p) s1 Hwf).
      * intros resp. keeps.
    + apply (performs_bind [_] [] [_] []); [|intros; apply performs_worldless; keeps|done].
      right. unfold this. simpl. rewrite lookup_insert_eq. cbn [fst snd]. split.
      * split; [done|]. by apply Forall_singleton.
      * by apply effects_one.
  - intros ex s' E. unfold parser_consume in E. rewrite Ex in E.
    destruct (consume data (parser_ x)) as [[[]|e|] p]; done.
Qed.

Lemma handle_read_performs c id res data s :
  topo_wf (topo (world s)) →
  performs (read_tasks c id res data s) (read_events c id res data s) s (handle_read c id res data s).
Proof.
  intros Hwf. unfold handle_read. destruct (local_connections (core s) !! id) as [x|] eqn:Ex.
  2:{ left. unfold mbind, comp_bind, this. by rewrite Ex. }
  erewrite bind_ok by by apply this_ok. destruct (Z.leb_spec res 0) as [Hle|Hlt].
  - unfold read_tasks, read_events. rewrite Ex, (proj2 (Z.leb_le _ _)) by done.
    apply performs_worldless. keeps.
  - apply performs_then; [by apply handle_data_performs|]. intros resp. keeps.
Qed.

(** What a message gives the core that takes it to do, and what comes of it. *)
Definition request_task (msg : Message) : task :=
  Task (origin_core_id msg, msg_conn_id msg) (default EmptyString (head (msg_args msg))) (msg_args msg).
Definition message_tasks (msg : Message) : list task :=
  match msg_type msg with REQUEST => [request_task msg] | RESPONSE => [] end.
Definition message_events (c : nat) (msg : Message) (w : World) : list event :=
  match msg_type msg with
  | REQUEST => exec_event (request_task msg) (execute_request c msg w).1
  | RESPONSE => []
  end.

Fixpoint batch_events (c : nat) (batch : list Message) (s : Server) : list event :=
  match batch with
  | [] => []
  | m :: batch =>
      message_events c m (world s) ++
      match handle_message c m s with (Ok _, s') => batch_events c batch s' | _ => [] end
  end.

Lemma send_performs c m s : performs [] [] s (on_world (push_channel c m;; notify_core c) s).
Proof.
  apply performs_world. right. unfold push_channel.
  destruct (channels_ (topo (world s)) !! c) as [ch|] eqn:Ech.
  - erewrite bind_ok by by rewrite Ech. set (w1 := set_topo _ _).
    destruct (notify_core_topo c w1) as (w' & -> & Ht & Hcl & Hti & _). split; [done|].
    by apply effects_none; simpl; rewrite ?Ht, ?Hcl, ?Hti.
  - erewrite bind_throw by by rewrite Ech. split; [by apply accounts_none|apply effects_refl].
Qed.

Lemma handle_message_performs c owed msg s :
  server_ok c owed s → msg_ok (topo (world s)) c msg →
  performs (message_tasks msg) (message_events c msg (world s)) s (handle_message c msg s).
Proof.
  intros [Hw Hc _] Hm. unfold handle_message, message_tasks, message_events, msg_ok in *.
  destruct (msg_type msg).
  2:{ apply performs_worldless. keeps. }
  destruct Hm as (Hne & Ho & _). rewrite <- (app_nil_r (exec_event _ _)).
  apply (performs_bind [request_task msg] []); [|intros reply s1 _|done].
  - apply exec_performs. unfold request_task, execute_request.
    destruct (msg_args msg) as [|name args] eqn:Ea; [done|]. cbn [head default].
    destruct (get_command registry name) as [cmd|] eqn:Ec; [by apply exec_effects; [apply Hw|]|].
    right. apply aside_effects; [done|by apply unregistered_spec|]. by right; right; left.
  - case_bool_decide; [by apply performs_worldless|]. apply send_performs.
Qed.

Lemma handle_messages_performs c owed batch : ∀ s,
  server_ok c owed s → Forall (msg_ok (topo (world s)) c) batch →
  performs (batch ≫= message_tasks) (batch_events c batch s) s
    (foldM (λ _ msg, handle_message c msg) tt batch s).
Proof.
  induction batch as [|m batch IH]; intros s Hs Hb; [by apply performs_worldless|].
  apply Forall_cons in Hb as [Hm Hb]. cbn [foldM batch_events]. rewrite bind_cons. apply performs_bind.
  - by eapply handle_message_performs.
  - intros [] s' E. rewrite E. pose proof (handle_message_ok c owed s m Hs Hm) as Hh. rewrite E in Hh.
    destruct Hh as (Hs' & Hg & _). apply IH; [done|]. eapply Forall_impl; [done|].
    intros m'. apply msg_ok_shape, Hg.
  - intros ex s' E. by rewrite E.
Qed.

(** The events of the notification handler: those of the inbox it takes. *)
Definition notification_events (c : nat) (s : Server) : list event :=
  match on_world (take_inbox c) s with
  | (Ok batch, s') => batch_events c batch s'
  | _ => []
  end.

Lemma notification_performs c owed s batch :
  server_ok c owed s → inbox (world s) c = Some batch →
  performs (batch ≫= message_tasks) (notification_events c s) s (notification_handler c s).
Proof.
  intros Hs Hin. pose proof Hs as [Hw Hc Hk]. unfold notification_handler, notification_events.
  destruct (take_inbox_ok c (world s) Hw Hc) as (batch' & w' & E & Hw' & Hg & Hb & _ & Hmsgs).
  assert (batch' = batch) as -> by congruence.
  assert (on_world (take_inbox c) s = (Ok batch, mkServer w' (core s) (next_conn_id s))) as Ew.
  { unfold on_world. by rewrite E. }
  rewrite Ew. refine (performs_bind [] (batch ≫= message_tasks) [] _ s (on_world (take_inbox c)) _ _ _ _);
    rewrite Ew; [| |done].
  - right. split; [done|]. cbn [snd world]. unfold take_inbox in E.
    destruct (channels_ _ !! c); [|done]. injection E as _ <-. by apply effects_none.
  - intros a s' [= <- <-]. apply (handle_messages_performs c owed); [|done]. split; [done| |done]. simpl.
    by rewrite (sh_cores _ _ (gr_shape _ _ Hg)).
Qed.

(** What a completion gives its core to do, and what comes of it. *)
Definition completion_tasks (c : nat) (e : io_uring_cqe Operation) (data : bytes) (s : Server)
    : list task :=
  match cqe_data e with
  | Some (ReadOp id) => read_tasks c id (res e) data s
  | Some NotificationOp => default [] (inbox (world s) c) ≫= message_tasks
  | _ => []
  end.
Definition completion_events (c : nat) (e : io_uring_cqe Operation) (data : bytes) (s : Server)
    : list event :=
  match cqe_data e with
  | Some (ReadOp id) => read_events c id (res e) data s
  | Some NotificationOp => notification_events c s
  | _ => []
  end.

Lemma dispatch_performs c e data s :
  server_ok c (cqe_data e) s →
  performs (completion_tasks c e data s) (completion_events c e data s) s (dispatch c e data s).
Proof.
  intros Hs. unfold dispatch, completion_tasks, completion_events.
  destruct (cqe_data e) as [[id|id| |]|]; completion.
  - apply handle_read_performs. apply Hs.
  - apply performs_worldless. keeps.
  - apply performs_worldless, worldless_handle_accept.
  - apply performs_then; [|intros; apply keeps_ctx, _].
    destruct (take_inbox_ok c (world s)) as (batch & _ & _ & _ & _ & Hb & _); [apply Hs..|].
    rewrite Hb. by eapply notification_performs.
  - by apply performs_worldless.
Qed.

(** The completions that wait have no part in it. *)
Lemma batch_events_advance c i batch : ∀ s, batch_events c batch (advance i s) = batch_events c batch s.
Proof.
  induction batch as [|m batch IH]; intros s; [done|]. cbn [batch_events].
  rewrite (ob_advance _ (handle_message_oblivious c m)). f_equal.
  destruct (handle_message c m s) as [[]]; cbn [fst snd]; [apply IH|done..].
Qed.

Lemma completion_events_advance c e data i s :
  completion_events c e data (advance i s) = completion_events c e data s.
Proof.
  unfold completion_events. destruct (cqe_data e) as [[]|]; try done. unfold notification_events.
  rewrite (ob_advance _ (oblivious_world (take_inbox c))).
  destruct (on_world (take_inbox c) s) as [[]]; cbn [fst snd]; [apply batch_events_advance|done..].
Qed.

(** ** Steps of the server *)

(** What a step gives its core to do, what comes of it, and how the handler
    ended. *)
Definition step_tasks (st : System) (l : label) : list task :=
  match l with
  | Internal _ => []
  | Completed c e data | Failed c e data _ =>
      match s_cores st !! c with
      | Some (Running k _) => completion_tasks c e data (server_of st k)
      | _ => []
      end
  end.
Definition step_events (st : System) (l : label) : list event :=
  match l with
  | Internal _ => []
  | Completed c e data | Failed c e data _ =>
      match s_cores st !! c with
      | Some (Running k _) => completion_events c e data (server_of st k)
      | _ => []
      end
  end.
Definition failed (l : label) : Prop := match l with Failed _ _ _ _ => True | _ => False end.
Definition step_result (l : label) : outcome unit :=
  match l with Failed _ _ _ ex => Throw ex | _ => Ok tt end.

Lemma effects_eventfds w evs w' e : effects w evs w' → effects w evs (set_eventfds w' e).
Proof. done. Qed.

(** The handler of a completion, in a state of the system. *)
Lemma dispatch_sequential st c k i e data r s :
  sys_ok st → s_cores st !! c = Some (Running k (Some i)) → cqes (ring_ (ctx k)) !! i = Some e →
  dispatch c e data (server_of st k) = (r, s) → r ≠ Undefined →
  accounts (completion_tasks c e data (server_of st k)) r (completion_events c e data (server_of st k)) ∧
    effects (s_world st) (completion_events c e data (server_of st k)) (world s).
Proof.
  intros Hst Hk He E Hu.
  pose proof (ob_advance _ (dispatch_oblivious c e data) (S i) (server_of st k)) as Ho.
  rewrite E in Ho. destruct (dispatch_performs c e data (advance (S i) (server_of st k))) as [Hun|Hp].
  - by apply advanced_ok.
  - by rewrite Ho in Hun.
  - rewrite Ho, completion_events_advance in Hp. exact Hp.
Qed.

Lemma step_sequential st l st' :
  sys_ok st → lstep st l st' →
  accounts (step_tasks st l) (step_result l) (step_events st l) ∧
  effects (s_world st) (step_events st l) (s_world st').
Proof.
  intros Hst Hs. destruct Hs as
    [c rfd wfd io w Hc Hn Hr Hwr Hne Hio He Hw|c ex Hc Hn Hex|c io os port fd calls s Hc Hall _ E|c io os port ex calls Hc _ _|c k rounds io e Hk Hw He
    |c k i e data s Hk He Hn E|c k i e data ex s Hk He Hn E|c k i Hk He]; cbn [step_tasks step_events step_result].
  - split; [done|]. cbn [s_world]. unfold worker_register in Hw. rewrite bind_gets in Hw.
    unfold register_notify_fd in Hw. simpl in Hw. case_match; [done|]. injection Hw as <-.
    by apply effects_none.
  - split; [done|]. apply effects_refl.
  - split; [done|].
    destruct (worker_listen_ok st c io fd Hst Hc) as (s' & E' & Hw & _).
    rewrite E in E'. injection E' as <-. cbn [put_server s_world]. rewrite Hw. apply effects_refl.
  - split; [done|]. apply effects_eventfds, effects_refl.
  - split; [done|]. apply effects_eventfds, effects_refl.
  - rewrite Hk. by eapply dispatch_sequential.
  - rewrite Hk. destruct (dispatch_sequential st c k i e data _ s Hst Hk He E) as [Ha Hf]; [done|].
    split; [done|]. by apply effects_eventfds.
  - split; [done|]. apply effects_refl.
Qed.

(** A run, with the state each step started from. *)
Inductive lrun : System → list (System * label) → System → Prop :=
  | lrun_nil st : lrun st [] st
  | lrun_cons st l st1 tr st' : lstep st l st1 → lrun st1 tr st' → lrun st ((st, l) :: tr) st'.

Lemma rtc_lrun st st' : rtc step st st' → ∃ tr, lrun st tr st'.
Proof.
  induction 1 as [st|st st1 st' [l Hs] _ [tr IH]]; [exists []; constructor|].
  exists ((st, l) :: tr). by econstructor.
Qed.

(** What the cores did along a run. *)
Definition history (tr : list (System * label)) : list event := tr ≫= λ p, step_events p.1 p.2.

Lemma run_sequential st tr st' :
  sys_ok st → lrun st tr st' →
  Forall (λ p, accounts (step_tasks p.1 p.2) (step_result p.2) (step_events p.1 p.2)) tr ∧
  effects (s_world st) (history tr) (s_world st').
Proof.
  intros Hst Hr. induction Hr as [st|st l st1 tr st' Hs _ IH].
  - split; [done|apply effects_refl].
  - destruct (step_sequential st l st1 Hst Hs) as [Ha He].
    destruct (IH ltac:(eapply step_ok; [done|by eexists])) as [Has Hes].
    split; [by constructor|]. unfold history. rewrite bind_cons. by eapply effects_app.
Qed.

(** Without an exception, nothing is refused. *)
Lemma unfailed_history tr :
  Forall (λ p, accounts (step_tasks p.1 p.2) (step_result p.2) (step_events p.1 p.2)) tr →
  Forall (λ p, ¬ failed p.2) tr → Forall (λ ev, ev.2 ≠ Refused) (history tr).
Proof.
  unfold history. induction 1 as [|[st l] tr Ha _ IH]; [done|]. intros [Hl Htr]%Forall_cons.
  rewrite bind_cons. apply Forall_app. split; [|by apply IH]. cbn [fst snd] in *.
  destruct l; [apply Ha..|by destruct Hl].
Qed.

End effects.
