(* ===== verification/Runs.v ===== *)
(** * Runs of the server

    The states the server can reach from what [main] prepares, and how to get
    there: all cores can register and listen ([server_starts]), and a core about to
    wait can be given the completion of any operation it has posted and handle it
    ([turn]).  Which requests have an open descriptor, and what [select] does when one
    has not ([polls]). *)
From S2P Require Import Prelude CxxString Double Containers Value Store HashMap Shard Router Topology Command Exec Rdb Startup Registry Safety RespParser UringStub IoContext Listener Connection Worker Handlers CoreInvariant System Sockets.
From Stdlib Require Import ZArith Lia.
From stdpp Require Import prelude gmap strings list_numbers relations.

Section runs.
Context `{StdHash} `{FileSystem}.

(** ** Reachable states *)

(** The states the workers can reach from what [main] prepared, on a platform
    whose wake-up descriptors hold at least one wake-up. *)
Definition reachable (hw : nat) (st : System) : Prop :=
  ∃ getenv clk fs wk config w, (0 < wake_limit wk)%Z ∧
    main_init getenv hw clk fs wk = Ok (config, w) ∧ rtc step (mkSys w 1 ∅) st.

Lemma initial_ok n w : initial n w → sys_ok (mkSys w 1 ∅).
Proof.
  intros [Hwf Hn Hi Hfds Hc He Hk]. split; simpl; try done.
  - split; [done| |by rewrite He|done]. intros c ch m Hch Hm. rewrite (Hi _ _ Hch) in Hm. set_solver.
  - intros c. rewrite lookup_empty. by intros [].
  - intros c Hlt _. unfold inbox. destruct (lookup_lt_is_Some_2 (channels_ (topo w)) c) as [ch Hch].
    { by rewrite (tw_channels _ Hwf). }
    rewrite Hch. simpl. by rewrite (Hi _ _ Hch).
Qed.

Lemma reachable_ok hw st : 0 < hw → reachable hw st → sys_ok st.
Proof.
  intros Hhw (getenv & clk & fs & wk & config & w & Hwk & Hm & Hr).
  assert (sys_ok (mkSys w 1 ∅)) as Hst by by eapply initial_ok, main_init_initial.
  clear Hm. induction Hr as [|st1 st2 st3 Hs _ IH]; [done|]. by eapply IH, step_ok.
Qed.

Lemma reachable_steps hw st st' : reachable hw st → rtc step st st' → reachable hw st'.
Proof.
  intros (getenv & clk & fs & wk & config & w & Hwk & Hm & Hr) Hr'.
  exists getenv, clk, fs, wk, config, w. split_and!; [done..|by etrans].
Qed.

(** ** Idle cores *)

(** A core about to wait has handled all its completions. *)
Definition idle_ok (st : System) : Prop :=
  ∀ c k, s_cores st !! c = Some (Running k None) → cqes (ring_ (ctx k)) = [].

Lemma outstanding_nil io : outstanding io = [] → requests (ring_ io) = [] ∧ cqes (ring_ io) = [].
Proof.
  unfold outstanding. rewrite in_flight_requests. intros [Hr Hq]%app_nil.
  by apply fmap_nil_inv in Hr, Hq.
Qed.

Lemma idle_step st l st' : sys_ok st → lstep st l st' → idle_ok st → idle_ok st'.
Proof.
  intros Hst Hs Hi. destruct Hs as
    [c rfd wfd io w Hc Hn Hr Hwr Hne Hio He Hw|c ex Hc Hn Hex|c io os port fd calls s Hc Hall _ E|c io os port ex calls Hc _ _|c k rounds io e Hk Hw He
    |c k i e data s Hk He Hn E|c k i e data ex s Hk He Hn E|c k i Hk He];
    intros c0 k0; simpl; intros [[<- [= <-]]|[_ Hk0]]%lookup_insert_Some; try by eapply Hi.
  - destruct (worker_listen_ok st c io fd Hst Hc) as (s' & E' & _ & _ & _ & Hq & _).
    rewrite E in E'. injection E' as <-. rewrite Hq.
    destruct (sy_registered _ Hst _ _ Hc) as (_ & Ho & _). by apply outstanding_nil.
  - simpl. apply drop_ge. by apply lookup_ge_None_1.
Qed.

Lemma reachable_idle hw st : 0 < hw → reachable hw st → idle_ok st.
Proof.
  intros Hhw (getenv & clk & fs & wk & config & w & Hwk & Hm & Hr).
  assert (sys_ok (mkSys w 1 ∅)) as Hst by by eapply initial_ok, main_init_initial.
  assert (idle_ok (mkSys w 1 ∅)) as Hi by (intros c k; simpl; by rewrite lookup_empty).
  clear Hm. induction Hr as [|st1 st2 st3 [l Hs] _ IH]; [done|].
  apply IH; [by eapply step_ok; [|eexists]|by eapply idle_step].
Qed.

(** ** Waiting *)

(** An operation posted on a core with no completion at hand is in its ring. *)
Lemma posted_request io op :
  posted io None op = 1 → cqes (ring_ io) = [] →
  ∃ s, s ∈ requests (ring_ io) ∧ user_data s = Some op.
Proof.
  unfold posted, outstanding. rewrite in_flight_requests, decide_False by done.
  intros Hp Hq. rewrite Hq, app_nil_r, Nat.add_0_r in Hp.
  destruct (filter _ _) as [|o l] eqn:E; [done|].
  assert (o ∈ o :: l) as Hin by apply list_elem_of_here. rewrite <- E in Hin.
  apply list_elem_of_filter in Hin as [-> (s & Hs & ?)%list_elem_of_fmap]. eauto.
Qed.

(** The wait of an idle core can end with the completion of any operation it has
    posted, with any result. *)
Lemma wait_completes st c k op n :
  idle_ok st → s_cores st !! c = Some (Running k None) → posted (ctx k) None op = 1 →
  ∃ rounds io, submit_and_wait rounds 1 (ctx k) = Some io ∧ cqes (ring_ io) = [mkCqe (Some op) n].
Proof.
  intros Hi Hk Hp. destruct (posted_request (ctx k) op Hp) as (s & Hs & Hd); [by eapply Hi|].
  destruct (wait_one n (ring_ (ctx k)) s Hs) as (rounds & r & E & Hr); [by eapply Hi|].
  exists rounds. eexists. split; [unfold submit_and_wait; by rewrite E|]. by rewrite <- Hd.
Qed.

(** ** Starting *)

(** A step with a table of descriptors is a step. *)
Lemma table_steps a b : rtc tstep a b → rtc step a.1 b.1.
Proof.
  induction 1 as [|a1 a2 a3 (l & Hs & _) _ IH]; [done|]. eapply rtc_l; [by eexists|done].
Qed.

Lemma tstep_ok st Ω st' Ω' : sys_ok st → tstep (st, Ω) (st', Ω') → sys_ok st'.
Proof. intros Hst (l & Hs & _). by eapply step_ok; [|eexists]. Qed.

(** The states the server can reach from what [main] prepared, with the table of
    open descriptors; [Ω0] were open before. *)
Definition serving (hw : nat) (Ω0 : gset Z) (a : System * gset Z) : Prop :=
  ∃ getenv clk fs wk config w, (0 < wake_limit wk)%Z ∧
    main_init getenv hw clk fs wk = Ok (config, w) ∧ rtc tstep (mkSys w 1 ∅, Ω0) a.

Lemma serving_reachable hw Ω0 a : serving hw Ω0 a → reachable hw a.1.
Proof.
  intros (getenv & clk & fs & wk & config & w & Hwk & Hm & Hr%table_steps).
  by exists getenv, clk, fs, wk, config, w.
Qed.

Lemma serving_steps hw Ω0 a b : serving hw Ω0 a → rtc tstep a b → serving hw Ω0 b.
Proof.
  intros (getenv & clk & fs & wk & config & w & Hwk & Hm & Hr) Hr'.
  exists getenv, clk, fs, wk, config, w. split_and!; [done..|by etrans].
Qed.

Lemma serving_table hw Ω0 a : 0 < hw → serving hw Ω0 a → table_ok Ω0 a.
Proof.
  intros Hhw (getenv & clk & fs & wk & config & w & Hwk & Hm & Hr).
  assert (sys_ok (mkSys w 1 ∅)) as Hst by by eapply initial_ok, main_init_initial.
  assert (table_ok Ω0 (mkSys w 1 ∅, Ω0)) as Ht.
  { split; cbn [fst snd]; [constructor|by intros fd ?%elem_of_nil..|done|by left]. }
  clear Hm. remember (mkSys w 1 ∅, Ω0) as a0 eqn:E0.
  assert (sys_ok a0.1) as Hst0 by by subst. clear E0 Hst.
  induction Hr as [a|a1 a2 a3 Hs _ IH]; [done|].
  apply IH; [by eapply table_step|]. destruct Hs as (l & Hs & _). by eapply step_ok; [|eexists].
Qed.

Lemma conn_owned k h id x :
  local_connections k !! id = Some x →
  ∃ l, phase_fds (Running k h) ≡ₚ wake_list (ctx k) ++ server_fd_ k :: fd_ x :: l.
Proof.
  intros Hx. assert (conn_fds k !! id = Some (fd_ x)) as Hf by (unfold conn_fds; by rewrite lookup_fmap, Hx).
  exists ((map_to_list (delete id (conn_fds k))).*2 ++ accepted (drop (default 0 h) (cqes (ring_ (ctx k))))).
  cbn [phase_fds]. by rewrite <- (map_to_list_delete _ _ _ Hf).
Qed.

(** ** Requests and open descriptors *)

(** [select], asked for the requests [l], as POSIX has it: it fails when one of their
    descriptors is not open (or a signal comes first). *)
Definition polls (Ω : gset Z) (l : list sqe) (rd : round) : Prop :=
  (∃ r, r ∈ l ∧ fd r ∉ Ω) → select_error rd = Some EBADF ∨ select_error rd = Some EINTR.

(** A read or a write whose connection has gone. *)
Definition stale (k : Core) (r : sqe) : Prop :=
  ∃ id, (user_data r = Some (ReadOp id) ∨ user_data r = Some (WriteOp id)) ∧
    local_connections k !! id = None.

(** Every other request in the ring of a core has an open descriptor. *)
Lemma request_open Ω0 st Ω c k r :
  sys_ok st → table_ok Ω0 (st, Ω) → s_cores st !! c = Some (Running k None) →
  r ∈ requests (ring_ (ctx k)) → stale k r ∨ fd r ∈ Ω.
Proof.
  intros Hst Ht Hk Hr. destruct (sy_running _ Hst _ _ _ Hk) as [_ Hko]. rewrite pending_view_none in Hko.
  pose proof (ko_requests _ _ _ Hko r Hr) as Ha. unfold asks in Ha.
  assert (∀ fd, fd ∈ phase_fds (Running k None) → fd ∈ Ω) as Hin.
  { intros fd Hfd. apply (ta_open _ _ Ht fd). unfold owned. cbn [fst].
    rewrite (owned_split _ c), Hk, elem_of_app. by left. }
  destruct (user_data r) as [[id|id| |]|] eqn:Hd; [| | | |done].
  - destruct (local_connections k !! id) as [x|] eqn:Hx; [|left; exists id; by auto].
    destruct Ha as (_ & _ & _ & Hf). right. rewrite (Hf x eq_refl). apply Hin.
    destruct (conn_owned k None id x Hx) as [l ->]. set_solver.
  - destruct (local_connections k !! id) as [x|] eqn:Hx; [|left; exists id; by auto].
    destruct Ha as (_ & _ & Hf). right. rewrite (proj1 (Hf x eq_refl)). apply Hin.
    destruct (conn_owned k None id x Hx) as [l ->]. set_solver.
  - right. destruct Ha as (_ & -> & _). apply Hin. simpl. set_solver.
  - right. destruct Ha as (_ & -> & _). apply Hin. simpl. unfold wake_list. case_decide; set_solver.
Qed.

(** Where all the descriptors are open, [select] need not fail. *)
Lemma polls_open Ω (l : list sqe) rounds :
  (∀ r, r ∈ l → fd r ∈ Ω) → Forall (polls Ω l) rounds.
Proof. intros Ho. apply Forall_forall. intros rd _ (r & Hr & Hn). by destruct Hn; apply Ho. Qed.

Lemma free_fd (X : gset Z) : ∃ fd, (0 ≤ fd)%Z ∧ fd ∉ X.
Proof.
  exists (Z.of_nat (fresh (set_map (D := gset nat) Z.to_nat X))). split; [lia|]. intros Hin.
  apply (is_fresh (set_map (D := gset nat) Z.to_nat X)). apply elem_of_map.
  eexists. split; [|exact Hin]. by rewrite Nat2Z.id.
Qed.

(** A core that has not started can register, when the kernel gives it descriptors. *)
Lemma can_register st Ω c :
  sys_ok st → c < num_cores_ (topo (s_world st)) → s_cores st !! c = None →
  ∃ st' Ω' io, tstep (st, Ω) (st', Ω') ∧ s_cores st' = <[c := Registered io]> (s_cores st) ∧
    s_next st' = s_next st ∧ num_cores_ (topo (s_world st')) = num_cores_ (topo (s_world st)).
Proof.
  intros Hst Hc Hn. pose proof (sy_world _ Hst) as [Hwf _ _ _].
  set (X := Ω ∪ dom (eventfds (s_world st))). destruct (free_fd X) as (rfd & Hr & HrX).
  destruct (free_fd (X ∪ {[rfd]})) as (wfd & Hw & HwX).
  assert (∃ io, new_context default_entries (wakes (s_world st)) (Some (rfd, wfd)) = Ok io ∧
    NoDup (wake_list io) ∧ ∀ fd, fd ∈ wake_list io → fd ∉ X) as (io & Hio & Hnd & Hfr).
  { destruct (wakes (s_world st)); eexists; (split; [done|]); unfold wake_list; cbn [event_fd_ notify_fd_];
      [rewrite decide_True by done|rewrite decide_False by set_solver];
      (split; [repeat constructor; set_solver|set_solver]). }
  assert (notify_fd_ io ∈ wake_list io) as Hin by (unfold wake_list; case_decide; set_solver).
  assert (eventfds (s_world st) !! notify_fd_ io = None) as He by (apply not_elem_of_dom; set_solver).
  pose proof (λ w, step_register st c rfd wfd io w Hc Hn Hr Hw ltac:(set_solver) Hio He) as Hs.
  unfold worker_register in Hs. setoid_rewrite bind_gets in Hs. unfold register_notify_fd in Hs.
  cbn [notify_fd_ topo set_eventfds] in Hs. rewrite (proj2 (Nat.leb_gt _ _)) in Hs by by rewrite (tw_fds _ Hwf).
  specialize (Hs _ eq_refl). set (st' := mkSys _ _ _) in Hs.
  destruct (tstep_opens st Ω _ st' (wake_list io) Hs) as [Ω' Ht]; [|done|set_solver|].
  { unfold st'. cbn [opened s_cores]. by rewrite Hn, lookup_insert_eq. }
  by exists st', Ω', io.
Qed.

(** The barrier closed: some core has not registered. *)
Lemma barrier_closed st :
  sys_ok st → all_registered (topo (s_world st)) = false →
  ∃ c, c < num_cores_ (topo (s_world st)) ∧ launched (s_cores st) !! c = None.
Proof.
  intros Hst Ha. unfold all_registered in Ha. apply Nat.leb_gt in Ha. rewrite (sy_count _ Hst) in Ha.
  set (n := num_cores_ (topo (s_world st))) in *. set (m := launched (s_cores st)) in *.
  destruct (decide (Forall (λ c, is_Some (m !! c)) (seq 0 n))) as [Hall|Hsome].
  - exfalso. assert (list_to_set (C := gset nat) (seq 0 n) ⊆ dom m) as Hsub.
    { intros c Hc%elem_of_list_to_set. apply elem_of_dom. by apply (proj1 (Forall_forall _ _) Hall). }
    apply subseteq_size in Hsub. rewrite size_list_to_set, length_seq, size_dom in Hsub by apply NoDup_seq. lia.
  - apply not_Forall_Exists, Exists_exists in Hsome as (c & Hc & Hn); [|apply _].
    exists c. apply elem_of_seq in Hc. split; [lia|]. by apply eq_None_not_Some.
Qed.

(** A core that has just begun to listen. *)
Definition fresh_core (k : Core) : Prop :=
  local_connections k = ∅ ∧ outstanding (ctx k) ≡ₚ [Some NotificationOp; Some AcceptOp].

Lemma fresh_not_stale k r : fresh_core k → r ∈ requests (ring_ (ctx k)) → ¬ stale k r.
Proof.
  intros [_ Ho] Hr (id & Hd & _). unfold outstanding in Ho. rewrite in_flight_requests in Ho.
  assert (user_data r ∈ [Some NotificationOp; Some AcceptOp]) as Hin.
  { rewrite <- Ho. apply elem_of_app. left. apply list_elem_of_fmap. eauto. }
  destruct Hd as [Hd|Hd]; rewrite Hd in Hin; set_solver.
Qed.

(** The barrier open: a registered core can set up its socket and listen. *)
Lemma can_listen st Ω c io :
  sys_ok st → s_cores st !! c = Some (Registered io) → all_registered (topo (s_world st)) = true →
  ∃ st' Ω' k, tstep (st, Ω) (st', Ω') ∧ s_cores st' = <[c := Running k None]> (s_cores st) ∧
    s_next st' = s_next st ∧ s_world st' = s_world st ∧ fresh_core k.
Proof.
  intros Hst Hc Ha. destruct (free_fd Ω) as (fd & Hfd & HΩ).
  destruct (worker_listen_ok st c io fd Hst Hc) as (s & El & Hw & Hn & _ & _ & _ & Hl & Ho).
  pose proof (ob_listen _ worker_listen_oblivious (server_of st (mkCore io fd ∅))) as Hf. rewrite El in Hf.
  cbn [snd server_of core server_fd_] in Hf. set (st' := put_server st c s (Running (core s) None)).
  assert (lstep st (Internal c) st') as Hs.
  { eapply (step_listen _ c io (λ _ _, fd) 6379 fd _ s); [done..| |done].
    unfold setup_listener, checked, mbind, comp_bind, mret, comp_ret.
    by rewrite (proj2 (Z.ltb_ge _ _)) by done. }
  destruct (tstep_opens st Ω _ st' [fd] Hs) as [Ω' Ht]; [|apply NoDup_singleton|set_solver|].
  { unfold st'. cbn [opened put_server s_cores]. by rewrite Hc, lookup_insert_eq, Hf. }
  exists st', Ω', (core s). by split_and!.
Qed.

(** The first [m] cores have registered. *)
Lemma register_all n w Ω0 m :
  initial n w → m ≤ n →
  ∃ st Ω, rtc tstep (mkSys w 1 ∅, Ω0) (st, Ω) ∧ sys_ok st ∧ s_next st = 1%Z ∧
    num_cores_ (topo (s_world st)) = n ∧
    (∀ c, c < m → ∃ io, s_cores st !! c = Some (Registered io)) ∧ (∀ c, m ≤ c → s_cores st !! c = None).
Proof.
  intros Hi. pose proof (initial_ok n w Hi) as Hok. induction m as [|m IH]; intros Hm.
  - exists (mkSys w 1 ∅), Ω0. split_and!; [done..|apply Hi|lia|done].
  - destruct IH as (st & Ω & Hr & Hst & Hn & Hc & Hreg & Hnone); [lia|].
    destruct (can_register st Ω m Hst) as (st' & Ω' & io & Ht & Hcs & Hn' & Hc'); [lia|by apply Hnone|].
    exists st', Ω'. split_and!; [by eapply rtc_r|by eapply tstep_ok|lia|lia| |];
      intros c Hlt; rewrite Hcs.
    + destruct (decide (c = m)) as [->|]; [rewrite lookup_insert_eq; eauto|].
      rewrite lookup_insert_ne by done. apply Hreg. lia.
    + rewrite lookup_insert_ne by lia. apply Hnone. lia.
Qed.

(** The first [m] cores listen. *)
Lemma listen_all n w Ω0 m :
  initial n w → m ≤ n →
  ∃ st Ω, rtc tstep (mkSys w 1 ∅, Ω0) (st, Ω) ∧ sys_ok st ∧ s_next st = 1%Z ∧
    num_cores_ (topo (s_world st)) = n ∧
    (∀ c, c < n → is_Some (launched (s_cores st) !! c)) ∧
    (∀ c, c < m → ∃ k, s_cores st !! c = Some (Running k None) ∧ fresh_core k) ∧
    (∀ c, m ≤ c < n → ∃ io, s_cores st !! c = Some (Registered io)).
Proof.
  intros Hi. induction m as [|m IH]; intros Hm.
  - destruct (register_all n w Ω0 n Hi) as (st & Ω & Hr & Hst & Hn & Hc & Hreg & _); [done|].
    exists st, Ω. split_and!; [done..| |lia|intros c [_ Hlt]; by apply Hreg].
    intros c Hlt. destruct (Hreg c Hlt) as [io Hio]. exists (Registered io). by apply launched_lookup.
  - destruct IH as (st & Ω & Hr & Hst & Hn & Hc & Hall & Hrun & Hreg); [lia|].
    destruct (Hreg m) as [io Hio]; [lia|].
    assert (all_registered (topo (s_world st)) = true) as Ha.
    { apply not_false_iff_true. intros (c & Hlt & Hnone)%barrier_closed; [|done].
      destruct (Hall c); [lia|congruence]. }
    destruct (can_listen st Ω m io Hst Hio Ha) as (st' & Ω' & k & Ht & Hcs & Hn' & Hw & Hl).
    exists st', Ω'. split_and!; [by eapply rtc_r|by eapply tstep_ok|lia|by rewrite Hw| | |];
      intros c Hlt; rewrite Hcs.
    + rewrite launched_insert by done. apply lookup_insert_is_Some'. auto.
    + destruct (decide (c = m)) as [->|]; [rewrite lookup_insert_eq; eauto|].
      rewrite lookup_insert_ne by done. apply Hrun. lia.
    + rewrite lookup_insert_ne by lia. apply Hreg. lia.
Qed.

(** From what [main] prepares, all cores can come to listen with no connection. *)
Lemma server_starts n w Ω0 :
  initial n w →
  ∃ st Ω, rtc tstep (mkSys w 1 ∅, Ω0) (st, Ω) ∧ sys_ok st ∧ s_next st = 1%Z ∧
    num_cores_ (topo (s_world st)) = n ∧
    ∀ c, c < n → ∃ k, s_cores st !! c = Some (Running k None) ∧ fresh_core k.
Proof. intros Hi. destruct (listen_all n w Ω0 n Hi) as (st & Ω & ? & ? & ? & ? & _ & ? & _); eauto 10. Qed.

(** ** Driving a core *)

(** The wait of an idle core ends with the completion of an operation it has
    posted. *)
Lemma wait_turn st Ω c k op n :
  sys_ok st → idle_ok st → s_cores st !! c = Some (Running k None) → posted (ctx k) None op = 1 →
  (∀ fd, fd ∈ accepted [mkCqe (Some op) n] → fd ∉ Ω) →
  ∃ rounds io, let k1 := mkCore io (server_fd_ k) (local_connections k) in
    submit_and_wait rounds 1 (ctx k) = Some io ∧
    tstep (st, Ω) (mkSys (s_world st) (s_next st) (<[c := Running k1 (Some 0)]> (s_cores st)),
      Ω ∪ list_to_set (accepted [mkCqe (Some op) n])) ∧
    cqes (ring_ io) = [mkCqe (Some op) n].
Proof.
  intros Hst Hi Hk Hp HΩ. destruct (wait_completes st c k op n Hi Hk Hp) as (rounds & io & E & Hq).
  exists rounds, io. split_and!; [done| |done]. set (e := mkCqe (Some op) n) in *.
  apply (tstep_intro _ _ (Internal c) _ _ (accepted [e]) []); [| | | |done|set_solver].
  - pose proof (step_wait st c k rounds io _ Hk E (or_introl eq_refl)) as Hs. by destruct st as [[] ? ?].
  - cbn [opened s_cores]. rewrite Hk, lookup_insert_eq, (Hi _ _ Hk). cbn [ctx length]. by rewrite drop_0, Hq.
  - cbn [closed]. by rewrite Hk.
  - unfold accepted. simpl. destruct (accepted_fd e); [apply NoDup_singleton|constructor].
Qed.

(** The table after the completion [e] came in and was handled by core [k]. *)
Definition table_after (e : io_uring_cqe Operation) (k : Core) (Ω : gset Z) : gset Z :=
  (Ω ∪ list_to_set (accepted [e])) ∖ list_to_set (closed_by e k).

(** An idle core is given the completion of an operation it has posted, handles it
    and goes back to waiting. *)
Lemma turn st Ω c k op n data (Q : Server → Prop) :
  sys_ok st → idle_ok st → s_cores st !! c = Some (Running k None) → posted (ctx k) None op = 1 →
  (s_next st < 2 ^ 32 - 1)%Z → (∀ fd, fd ∈ accepted [mkCqe (Some op) n] → fd ∉ Ω) →
  (∀ s, server_ok c (Some op) s → world s = s_world st → next_conn_id s = s_next st →
     local_connections (core s) = local_connections k → cqes (ring_ (ctx (core s))) = [] →
     ∃ s', complete c op n data s = (Ok tt, s') ∧ Q s') →
  ∃ st' k', rtc tstep (st, Ω) (st', table_after (mkCqe (Some op) n) k Ω) ∧
    s_cores st' = <[c := Running k' None]> (s_cores st) ∧ Q (server_of st' k').
Proof.
  intros Hst Hi Hk Hp Hn HΩ Hrun.
  destruct (wait_turn st Ω c k op n Hst Hi Hk Hp HΩ) as (_ & io & _ & Ht & Hq). set (e := mkCqe (Some op) n) in *.
  set (k1 := mkCore io (server_fd_ k) (local_connections k)) in *. set (st1 := mkSys _ _ _) in Ht.
  assert (sys_ok st1) as Hst1 by (destruct Ht as (l & Hs & _); by eapply step_ok; [|eexists]).
  assert (s_cores st1 !! c = Some (Running k1 (Some 0))) as Hk1 by apply lookup_insert_eq.
  destruct (Hrun (advance 1 (server_of st1 k1))) as (s' & Ed & HQ); [|done..| |].
  { apply (advanced_ok st1 c k1 0 e); [done..|]. simpl. by rewrite Hq. }
  { simpl. by rewrite Hq. }
  change (dispatch c e data (advance 1 (server_of st1 k1)) = (Ok tt, s')) in Ed.
  pose proof (ob_cqes _ (dispatch_oblivious c e data) (server_of st1 k1)) as Hq2.
  rewrite (ob_advance _ (dispatch_oblivious c e data)) in Ed.
  destruct (dispatch c e data (server_of st1 k1)) as [r s2] eqn:E2. injection Ed as -> <-.
  cbn [snd] in Hq2.
  assert (lstep st1 (Completed c e data) (put_server st1 c s2 (Running (core s2) (Some 1)))) as H2.
  { eapply step_complete; [done| |done|done]. simpl. by rewrite Hq. }
  set (st2 := put_server st1 c s2 (Running (core s2) (Some 1))) in *.
  assert (s_cores st2 !! c = Some (Running (core s2) (Some 1))) as Hk2 by apply lookup_insert_eq.
  assert (lstep st2 (Internal c) (set_phase st2 c (Running (core (advance 1 s2)) None))) as H3.
  { apply step_advance; [done|]. rewrite Hq2. simpl. by rewrite Hq. }
  eexists _, (core (advance 1 s2)). split; [|split].
  - eapply rtc_l; [exact Ht|]. apply (rtc_l _ _ (st2, table_after e k Ω)); [|apply rtc_once].
    + apply (tstep_intro _ _ (Completed c e data) _ _ [] (closed_by e k)); [done|done| |constructor|set_solver..].
      cbn [closed]. by rewrite Hk1.
    + apply (tstep_intro _ _ (Internal c) _ _ [] []); [exact H3|..|constructor|set_solver|set_solver];
        cbn [opened closed s_cores set_phase]; by rewrite Hk2, ?lookup_insert_eq.
  - simpl. by rewrite !insert_insert_eq.
  - by destruct s2.
Qed.

(** An idle core is given a completion whose handler ends by an exception. *)
Lemma crash_turn st Ω c k op n data ex :
  sys_ok st → idle_ok st → s_cores st !! c = Some (Running k None) → posted (ctx k) None op = 1 →
  (s_next st < 2 ^ 32 - 1)%Z → op ≠ AcceptOp →
  (∀ s, server_ok c (Some op) s → local_connections (core s) = local_connections k →
     ∃ s', complete c op n data s = (Throw ex, s')) →
  ∃ st1 k1 h st2, tstep (st, Ω) (st1, Ω) ∧ s_cores st1 !! c = Some (Running k1 h) ∧
    local_connections k1 = local_connections k ∧
    tstep (st1, Ω) (st2, Ω ∖ list_to_set (worker_exit k1)) ∧ s_cores st2 !! c = Some Ended.
Proof.
  intros Hst Hi Hk Hp Hn Hop Hrun.
  assert (accepted [mkCqe (Some op) n] = []) as Ha by (unfold accepted, accepted_fd; by destruct op).
  destruct (wait_turn st Ω c k op n Hst Hi Hk Hp) as (_ & io & _ & Ht & Hq); [rewrite Ha; set_solver|].
  rewrite Ha in Ht. replace (Ω ∪ list_to_set []) with Ω in Ht by set_solver.
  set (e := mkCqe (Some op) n) in *. set (k1 := mkCore io (server_fd_ k) (local_connections k)) in *.
  set (st1 := mkSys _ _ _) in Ht.
  assert (sys_ok st1) as Hst1 by (destruct Ht as (l & Hs & _); by eapply step_ok; [|eexists]).
  assert (s_cores st1 !! c = Some (Running k1 (Some 0))) as Hk1 by apply lookup_insert_eq.
  destruct (Hrun (advance 1 (server_of st1 k1))) as (s' & Ed); [|done|].
  { apply (advanced_ok st1 c k1 0 e); [done..|]. simpl. by rewrite Hq. }
  change (dispatch c e data (advance 1 (server_of st1 k1)) = (Throw ex, s')) in Ed.
  rewrite (ob_advance _ (dispatch_oblivious c e data)) in Ed.
  destruct (dispatch c e data (server_of st1 k1)) as [r s2] eqn:E2. injection Ed as -> <-.
  exists st1, k1, (Some 0). eexists. split_and!; [exact Ht|done|done| |].
  - apply (tstep_intro _ _ (Failed c e data ex) _ _ [] (worker_exit k1)); [|done| |constructor|set_solver..].
    + eapply step_throw; [exact Hk1| |done|exact E2]. simpl. by rewrite Hq.
    + cbn [closed]. by rewrite Hk1.
  - apply lookup_insert_eq.
Qed.

(** A client connects to an idle core. *)
Lemma accept_turn st Ω c k fd :
  sys_ok st → idle_ok st → s_cores st !! c = Some (Running k None) →
  (s_next st < 2 ^ 32 - 1)%Z → (0 ≤ fd)%Z → fd ∉ Ω →
  let id := s_next st in
  ∃ st' k', rtc tstep (st, Ω) (st', Ω ∪ {[fd]}) ∧ s_cores st' = <[c := Running k' None]> (s_cores st) ∧
    s_world st' = s_world st ∧ s_next st' = (id + 1)%Z ∧
    local_connections k' = <[id := mkConn fd id [] false reset]> (local_connections k).
Proof.
  intros Hst Hi Hk Hn Hfd HΩ id. destruct (sy_running _ Hst _ _ _ Hk) as [_ Hko].
  rewrite pending_view_none in Hko. pose proof (sy_next _ Hst).
  assert (accepted [mkCqe (Some AcceptOp) fd] = [fd]) as Ha.
  { unfold accepted, accepted_fd. simpl. by rewrite (proj2 (Z.ltb_ge _ _)). }
  destruct (turn st Ω c k AcceptOp fd [] (λ s, world s = s_world st ∧ next_conn_id s = (id + 1)%Z ∧
    local_connections (core s) = <[id := mkConn fd id [] false reset]> (local_connections k)) Hst Hi Hk)
    as (st' & k' & Hr & Hcs & HQ); [apply Hko|done|rewrite Ha; set_solver| |].
  { intros s Hs Hw Hnx Hl _. destruct (handle_accept_runs c s fd Hs) as (s' & E & _ & Hw' & Hn' & Hl'); [lia..|].
    exists s'. split; [exact E|]. by rewrite Hw', Hn', Hl', Hw, Hnx, Hl. }
  exists st', k'. split; [|by split]. unfold table_after in Hr. rewrite Ha in Hr.
  replace (Ω ∪ {[fd]}) with ((Ω ∪ list_to_set [fd]) ∖ list_to_set []) by set_solver. exact Hr.
Qed.

(** ** The loop of a core *)

(** The counter of connections moves by at most one per completion. *)
Lemma dispatch_counter c e data s :
  (0 ≤ next_conn_id s < 2 ^ 32 - 1)%Z →
  (0 ≤ next_conn_id (dispatch c e data s).2 ≤ next_conn_id s + 1)%Z.
Proof.
  intros Hn. assert (∀ {A} (m : prog A), keeps next_conn_id (on_world m)) as Hw.
  { intros A m s0. unfold on_world. by destruct (m (world s0)). }
  assert (∀ m : handler unit, keeps next_conn_id m → (0 ≤ next_conn_id (m s).2 ≤ next_conn_id s + 1)%Z) as Hk.
  { intros m Hm. rewrite Hm. lia. }
  unfold dispatch, complete, ReadOp_complete, WriteOp_complete, AcceptOp_complete, NotificationOp_complete. destruct (cqe_data e) as [[id|id| |]|].
  - apply Hk. unfold handle_read, handle_data. keeps.
  - apply Hk. keeps.
  - unfold handle_accept, on_connect, start. destruct (res e <? 0)%Z; [apply Hk; keeps|].
    erewrite bind_ok by done. cbn [id_].
    match goal with |- context [(?m ≫= ?g) ?s1] =>
      assert (keeps next_conn_id (m ≫= g)) as -> by keeps end.
    simpl. unfold uint32, wrap_u. rewrite Z.mod_small; lia.
  - apply Hk. unfold notification_handler, handle_message. keeps.
    apply keeps_fold. intros. keeps.
  - by apply Hk.
Qed.

Lemma server_of_put st c s p : server_of (put_server st c s p) (core s) = s.
Proof. by destruct s. Qed.

(** Going through the completions that wait is a step for each. *)
Lemma complete_all_steps c l : ∀ data st k i,
  s_cores st !! c = Some (Running k (Some i)) → drop i (cqes (ring_ (ctx k))) = l →
  (0 ≤ s_next st)%Z → (s_next st + Z.of_nat (length l) ≤ 2 ^ 32 - 1)%Z →
  match complete_all c l data (server_of st k) with
  | (Ok _, s') => rtc step st (put_server st c s' (Running (core s') (Some (i + length l)))) ∧
      cqes (ring_ (ctx (core s'))) = cqes (ring_ (ctx k))
  | (Throw _, s') => rtc step st (close_fd (put_server st c s' Ended) (notify_fd_ (ctx k)))
  | (Undefined, _) => True
  end.
Proof.
  induction l as [|e l IH]; intros data st k i Hk Hl Hpos Hn; cbn [complete_all].
  - split; [|done]. rewrite Nat.add_0_r. destruct st as [w n cs]. unfold put_server, server_of. simpl in *.
    by rewrite insert_id.
  - assert (cqes (ring_ (ctx k)) !! i = Some e) as He.
    { rewrite <- (Nat.add_0_r i), <- lookup_drop, Hl. done. }
    assert (drop (S i) (cqes (ring_ (ctx k))) = l) as Hl'.
    { replace (S i) with (i + 1) by lia. by rewrite <- drop_drop, Hl. }
    cbn [length] in Hn. assert (s_next st < 2 ^ 32 - 1)%Z as Hlt by lia.
    pose proof (ob_cqes _ (dispatch_oblivious c e (data 0)) (server_of st k)) as Hq.
    pose proof (ob_fd _ (dispatch_oblivious c e (data 0)) (server_of st k)) as Hfd.
    pose proof (dispatch_counter c e (data 0) (server_of st k) ltac:(simpl; lia)) as Hc.
    unfold mbind, comp_bind. destruct (dispatch c e (data 0) (server_of st k)) as [[[]|ex|] s1] eqn:E; [| |done].
    + cbn [snd core server_of next_conn_id] in Hq, Hfd, Hc. injection Hfd as _ Hfd.
      set (st1 := put_server st c s1 (Running (core s1) (Some (S i)))).
      assert (step st st1) as Hs by (eexists; by eapply step_complete).
      specialize (IH (λ j, data (S j)) st1 (core s1) (S i)).
      assert (server_of st1 (core s1) = s1) as Hst1 by apply server_of_put. rewrite Hst1 in IH.
      specialize (IH (lookup_insert_eq _ _ _) ltac:(by rewrite Hq) ltac:(simpl; lia) ltac:(simpl; lia)).
      assert (∀ s p, put_server st1 c s p = put_server st c s p) as Hput.
      { intros s p. unfold put_server, st1. simpl. by rewrite insert_insert_eq. }
      destruct (complete_all c l (λ j, data (S j)) s1) as [[[]|ex|] s2]; [| |done].
      * destruct IH as [IH Hq2]. split; [|by rewrite Hq2, Hq]. rewrite Hput in IH.
        cbn [length]. rewrite Nat.add_succ_r. by eapply rtc_l; [exact Hs|].
      * rewrite Hput, Hfd in IH. by eapply rtc_l.
    + apply rtc_once. eexists. by eapply step_throw.
Qed.

(** What the wait does to the wake-up descriptors is what the kernel can do. *)
Lemma drain_read io w :
  ∃ e, drain io w = set_eventfds w e ∧ kernel_read (wakes w) io (eventfds w) e.
Proof.
  unfold drain. destruct (eventfds w !! notify_fd_ io) as [n|] eqn:En.
  2:{ exists (eventfds w). split; [by destruct w|by left]. }
  destruct (notified io) eqn:Eo; cbn [andb]; [|exists (eventfds w); split; [by destruct w|by left]].
  destruct (Z.ltb_spec 0 n); [|exists (eventfds w); split; [by destruct w|by left]].
  eexists. split; [done|]. right. exists n. split_and!; [done..|].
  apply existsb_exists in Eo as (e & He%list_elem_of_In & Hd). apply andb_true_iff in Hd as [Hd%bool_decide_eq_true _].
  apply list_elem_of_fmap. by exists e.
Qed.

(** A turn of [IoContext::run] is a run of steps. *)
Lemma run_once_steps st c k rounds data :
  s_cores st !! c = Some (Running k None) → (0 ≤ s_next st)%Z →
  (∀ io, submit_and_wait rounds 1 (ctx k) = Some io →
     (s_next st + Z.of_nat (length (cqes (ring_ io))) ≤ 2 ^ 32 - 1)%Z) →
  match run_once c rounds data (server_of st k) with
  | (Ok _, s') => rtc step st (put_server st c s' (Running (core s') None))
  | (Throw _, s') => rtc step st (close_fd (put_server st c s' Ended) (notify_fd_ (ctx k)))
  | (Undefined, _) => True
  end.
Proof.
  intros Hk Hpos Hn. unfold run_once. cbn [core server_of].
  destruct (submit_and_wait rounds 1 (ctx k)) as [io|] eqn:E.
  2:{ destruct st as [w n cs]. unfold put_server, server_of. simpl in *. by rewrite insert_id. }
  specialize (Hn io eq_refl). set (k1 := mkCore io (server_fd_ k) (local_connections k)).
  set (st1 := mkSys (drain io (s_world st)) (s_next st) (<[c := Running k1 (Some 0)]> (s_cores st))).
  assert (step st st1) as Hs.
  { destruct (drain_read io (s_world st)) as (ev & Hd & Hread).
    pose proof (step_wait st c k rounds io ev Hk E Hread) as Hs. eexists. unfold st1. by rewrite Hd. }
  assert (notify_fd_ io = notify_fd_ (ctx k)) as Hfd.
  { unfold submit_and_wait in E. by apply fmap_Some in E as (r & _ & ->). }
  pose proof (complete_all_steps c (cqes (ring_ io)) data st1 k1 0 (lookup_insert_eq _ _ _) eq_refl Hpos Hn) as Hc.
  change (server_of st1 k1) with (waited (server_of st k) io) in Hc.
  assert (∀ s p, put_server st1 c s p = put_server st c s p) as Hput.
  { intros s p. unfold put_server, st1. simpl. by rewrite insert_insert_eq. }
  unfold mbind, comp_bind.
  destruct (complete_all c (cqes (ring_ io)) data (waited (server_of st k) io)) as [[[]|ex|] s1]; [| |done].
  - destruct Hc as [Hr Hq]. rewrite Hput in Hr. eapply rtc_l; [exact Hs|]. eapply rtc_r; [exact Hr|].
    eexists (Internal c).
    pose proof (step_advance (put_server st c s1 (Running (core s1) (Some (0 + length (cqes (ring_ io))))))
      c (core s1) _ (lookup_insert_eq _ _ _)) as Ha.
    unfold set_phase, put_server in Ha |- *. cbn [s_world s_next s_cores] in Ha.
    rewrite insert_insert_eq in Ha. apply Ha. rewrite Hq. by apply lookup_ge_None_2.
  - rewrite Hput in Hc. unfold k1 in Hc. cbn [ctx] in Hc. rewrite Hfd in Hc. by eapply rtc_l.
Qed.

End runs.
