(* ===== verification/Accounting.v ===== *)
(** * Every command is answered once, and with its own reply

    A connection is owed a reply for each command read from it: the command is in the
    inbox of the core that owns its key, or its reply is in the inbox of the
    connection's core, or in its write queue.  [asking], [coming] and [queued] are
    these commands and replies; every handler of every core moves them by exactly
    the commands it takes in, the events of what it executes and the replies it has
    written ([dispatch_books]).  A handler that ends by an exception drops the
    messages of its batch it has not come to: commands are then lost, but no reply
    is made twice, and none that was not the outcome of a command. *)
From S2P Require Import Prelude CxxString Double Containers Value Store HashMap Shard Router Topology Command Exec Rdb Registry Safety RespParser UringStub IoContext Listener Connection Worker Handlers CoreInvariant System Sockets Linearization Runs.
From Stdlib Require Import ZArith Lia.
From stdpp Require Import prelude gmap strings list_numbers relations.

(** A concatenation over distinct indices changes by the one part that does. *)
Lemma bind_change {A} (f g : nat → list A) c l :
  NoDup l → c ∈ l → (∀ i, i ≠ c → f i = g i) → (l ≫= f) ++ g c ≡ₚ (l ≫= g) ++ f c.
Proof.
  intros Hl Hc Hfg. induction Hl as [|i l Hi Hl IH]; [by apply elem_of_nil in Hc|].
  rewrite !bind_cons. apply elem_of_cons in Hc as [<-|Hc].
  - assert (l ≫= f = l ≫= g) as ->; [|solve_Permutation].
    clear IH Hl. induction l as [|j l IH]; [done|]. rewrite !bind_cons, Hfg by set_solver.
    rewrite IH by set_solver. done.
  - rewrite Hfg by set_solver. specialize (IH Hc). rewrite <- !app_assoc, IH. done.
Qed.

Section account.
Context `{StdHash} `{FileSystem}.
(* the connection whose books are kept, and its core *)
Context (c0 : nat) (id0 : Z).

(** ** Commands and replies of a connection *)

Definition mine {A} (src : nat * Z) (a : A) : list A :=
  if decide (src = (c0, id0)) then [a] else [].

Lemma mine_self {A} (a : A) : mine (c0, id0) a = [a].
Proof. unfold mine. by rewrite decide_True. Qed.
Lemma mine_other {A} src (a : A) : src ≠ (c0, id0) → mine src a = [].
Proof. intros. unfold mine. by rewrite decide_False. Qed.

Definition task_src (t : task) : nat * Z :=
  match t with Task src _ _ | Malformed src => src end.
(** The command; none for bytes that are no command. *)
Definition task_args (t : task) : list string :=
  match t with Task _ _ args => args | Malformed _ => [] end.

(** The commands of the connection among [ts], those that were executed, and what
    was replied. *)
Definition sent (ts : list task) : list (list string) :=
  ts ≫= λ t, mine (task_src t) (task_args t).
Definition executed (evs : list event) : list (list string) :=
  evs ≫= λ ev, match ev.2 with Forwarded => [] | _ => mine (task_src ev.1) (task_args ev.1) end.
Definition replies_of (evs : list event) : list string :=
  evs ≫= λ ev, match ev.2 with Answered b => mine (task_src ev.1) b | _ => [] end.

(** In the messages [l] of an inbox: its commands, and its replies if the inbox is
    that of its core. *)
Definition asked (l : list Message) : list (list string) := sent (l ≫= message_tasks).
Definition replied (l : list Message) : list string :=
  l ≫= λ m, match msg_type m with
            | RESPONSE => if decide (msg_conn_id m = id0) then [payload m] else []
            | REQUEST => []
            end.

Definition asking (w : World) : list (list string) :=
  seq 0 (num_cores_ (topo w)) ≫= λ c, asked (default [] (inbox w c)).
Definition coming (w : World) : list string := replied (default [] (inbox w c0)).

(** The replies in the write queue. *)
Definition queued (k : Core) : list string :=
  match local_connections k !! id0 with Some x => write_queue_ x | None => [] end.

(** As core [c] sees it. *)
Definition pending (c : nat) (s : Server) : list string :=
  coming (world s) ++ if decide (c = c0) then queued (core s) else [].

Lemma asked_app l1 l2 : asked (l1 ++ l2) = asked l1 ++ asked l2.
Proof. unfold asked, sent. by rewrite !bind_app. Qed.
Lemma replied_app l1 l2 : replied (l1 ++ l2) = replied l1 ++ replied l2.
Proof. unfold replied. by rewrite bind_app. Qed.
Lemma executed_app l1 l2 : executed (l1 ++ l2) = executed l1 ++ executed l2.
Proof. unfold executed. by rewrite bind_app. Qed.
Lemma replies_app l1 l2 : replies_of (l1 ++ l2) = replies_of l1 ++ replies_of l2.
Proof. unfold replies_of. by rewrite bind_app. Qed.

(** Only what is executed is answered, once. *)
Lemma replies_executed evs :
  length (replies_of evs) ≤ length (executed evs) ∧
  (Forall (λ ev, ev.2 ≠ Refused) evs → length (replies_of evs) = length (executed evs)).
Proof.
  induction evs as [|[t r] evs [Hle Heq]]; [done|]. unfold replies_of, executed in *. rewrite !bind_cons, !length_app.
  destruct r as [b| |]; cbn [fst snd]; unfold mine in *.
  - split; [|intros [_ Hf]%Forall_cons; specialize (Heq Hf)]; case_decide; simpl; lia.
  - split; [case_decide; simpl; lia|]. by intros [? _]%Forall_cons.
  - split; [simpl; lia|]. intros [_ Hf]%Forall_cons. by apply Heq.
Qed.

Lemma exec_answered t b :
  replies_of (exec_event t (Ok b)) = (if bool_decide (b = EmptyString) then [] else mine (task_src t) b) ∧
  executed (exec_event t (Ok b)) =
    if bool_decide (b = EmptyString) then [] else mine (task_src t) (task_args t).
Proof.
  unfold replies_of, executed. cbn [exec_event]. rewrite !bind_cons. case_bool_decide; simpl; by rewrite ?app_nil_r.
Qed.

Lemma exec_refused t ex :
  replies_of (exec_event t (Throw ex)) = [] ∧
  executed (exec_event t (Throw ex)) = mine (task_src t) (task_args t).
Proof. unfold replies_of, executed. simpl. by rewrite app_nil_r. Qed.

(** ** Messages *)

Lemma asking_change w w' c l l' :
  num_cores_ (topo w') = num_cores_ (topo w) → c < num_cores_ (topo w) →
  inbox w c = Some l → inbox w' c = Some l' → (∀ i, i ≠ c → inbox w' i = inbox w i) →
  asking w' ++ asked l ≡ₚ asking w ++ asked l'.
Proof.
  intros Hn Hc Hl Hl' Ho. unfold asking. rewrite Hn.
  pose proof (bind_change (λ i, asked (default [] (inbox w' i))) (λ i, asked (default [] (inbox w i)))
    c (seq 0 (num_cores_ (topo w)))) as Hs. cbv beta in Hs. rewrite Hl, Hl' in Hs. apply Hs.
  - apply NoDup_seq.
  - apply elem_of_seq. lia.
  - intros i Hi. by rewrite Ho.
Qed.

Lemma transit_same w w' :
  num_cores_ (topo w') = num_cores_ (topo w) → channels_ (topo w') = channels_ (topo w) →
  asking w' = asking w ∧ coming w' = coming w.
Proof. intros Hn Hc. unfold asking, coming, inbox. by rewrite Hn, Hc. Qed.

Lemma send_transit w c m w' :
  world_ok w → c < num_cores_ (topo w) → msg_ok (topo w) c m → send c m w = (Ok tt, w') →
  asking w' ≡ₚ asking w ++ asked [m] ∧
  coming w' = coming w ++ if decide (c = c0) then replied [m] else [].
Proof.
  intros Hw Hc Hm E. destruct (send_ok w c m Hw Hc Hm) as (w1 & E1 & _ & Hg & _ & l & Hl & Hl' & _ & Ho).
  assert (w1 = w') as -> by congruence. split.
  - pose proof (asking_change w w' c _ _ (sh_cores _ _ (gr_shape _ _ Hg)) Hc Hl Hl' Ho) as Ht.
    rewrite asked_app in Ht. apply (Permutation_app_inv_r (asked l)). rewrite Ht. solve_Permutation.
  - unfold coming. case_decide as Hd.
    + subst c. rewrite Hl, Hl'. apply replied_app.
    + by rewrite Ho, app_nil_r by done.
Qed.

Lemma ran_here_transit w k r w' : ran_here w k r w' → asking w' = asking w ∧ coming w' = coming w.
Proof. intros (_ & Hs & Hc & _). by apply transit_same; [apply Hs|]. Qed.

(** A command of connection [id] is executed at once, or is on its way. *)
Lemma execute_command_transit c id args w :
  world_ok w → c < num_cores_ (topo w) →
  let evs r := exec_event (command_task (c, id) args) r in
  match execute_command c id args w with
  | (Undefined, _) => True
  | (r, w') => asking w' ++ executed (evs r) ≡ₚ asking w ++ mine (c, id) args ∧ coming w' = coming w
  end.
Proof.
  intros Hw Hc evs. unfold execute_command. destruct args as [|arg0 args].
  { unfold evs, mret, comp_ret. by rewrite (proj2 (exec_answered _ _)). }
  unfold transform_upper. destruct (plain arg0); [|done]. rewrite bind_ret_l.
  destruct (get_command registry (to_upper arg0)) as [cmd|] eqn:Ecmd.
  2:{ unfold evs, mret, comp_ret. case_bool_decide; by rewrite (proj2 (exec_answered _ _)). }
  set (l := arg0 :: args) in *. pose proof Hw as [Hwf _ _ _].
  destruct (exec_cases w c _ cmd id l Hwf Ecmd) as [Hu|[Hr|[_ E]]].
  - by destruct (cmd_execute cmd c id l w) as [[]].
  - destruct (ran_here_transit _ _ _ _ Hr) as [Ha Hco]. destruct Hr as (_ & _ & _ & _ & _ & _ & Hr). unfold evs.
    destruct (cmd_execute cmd c id l w) as [[reply|ex|] w']; simpl in Ha, Hco, Hr; [| |done].
    + rewrite (proj2 (exec_answered _ _)), bool_decide_false by done. by rewrite Ha.
    + rewrite (proj2 (exec_refused _ _)). by rewrite Ha.
  - rewrite E. destruct (forward_ok c id l w Hw Hc ltac:(done)) as (w' & E' & _). rewrite E'.
    unfold evs. rewrite (proj2 (exec_answered _ _)), bool_decide_true, app_nil_r by done.
    unfold forward_request in E'. rewrite bind_gets in E'.
    apply bind_inv_ok in E' as ([] & w1 & E1 & E2). apply bind_inv_ok in E2 as ([] & w2 & E2 & [= <-]).
    set (owner := get_target_core (topo w) (l !!! 1)) in *.
    assert (send owner (request c id l) w = (Ok tt, w2)) as Es by (unfold send; by erewrite bind_ok by exact E1).
    destruct (send_transit w owner (request c id l) w2) as [Ha Hco]; [done|by apply target_core_lt|done..|].
    split; [|rewrite Hco; case_decide; by rewrite app_nil_r]. rewrite Ha. unfold asked, sent.
    simpl. by rewrite !app_nil_r.
Qed.

(** ** The handlers *)

(** The parser of a connection changes, its queue does not. *)
Lemma queued_parser k io fd id x p :
  local_connections k !! id = Some x →
  queued (mkCore io fd (<[id := set_parser x p]> (local_connections k))) = queued k.
Proof.
  intros Hx. unfold queued. simpl. destruct (decide (id = id0)) as [->|]; [|by rewrite lookup_insert_ne].
  by rewrite lookup_insert_eq, Hx.
Qed.

(** What the read makes of the data is executed, or passed on, or answered as
    malformed. *)
Lemma handle_data_books c id x res data s :
  world_ok (world s) → c < num_cores_ (topo (world s)) → local_connections (core s) !! id = Some x →
  (0 < res)%Z →
  let evs := read_events c id res data s in
  match handle_data c id data s with
  | (Undefined, _) => True
  | (r, s') =>
      asking (world s') ++ executed evs ≡ₚ asking (world s) ++ sent (read_tasks c id res data s) ∧
      coming (world s') = coming (world s) ∧
      replies_of evs = match r with
                    | Ok reply => if bool_decide (reply = EmptyString) then [] else mine (c, id) reply
                    | _ => []
                    end
  end.
Proof.
  intros Hw Hc Hx Hres evs. unfold evs, read_events, read_tasks. rewrite Hx, (proj2 (Z.leb_gt _ _)) by done.
  unfold handle_data, parser_consume. unfold mbind at 1, comp_bind at 1. rewrite Hx.
  destruct (consume data (parser_ x)) as [[[r o]|e|] p]; [|done..].
  set (s1 := set_connections s _) in *.
  assert (local_connections (core s1) !! id = Some (set_parser x p)) as Hx1.
  { unfold s1. simpl. by rewrite lookup_insert_eq. }
  destruct r; [done| |].
  - erewrite bind_ok by by apply this_ok. cbn [set_parser parser_].
    pose proof (execute_command_transit c id (args_ p) (world s) Hw Hc) as Ht. cbv zeta in Ht.
    assert (sent [command_task (c, id) (args_ p)] = mine (c, id) (args_ p)) as Hsent
      by (unfold sent; simpl; by rewrite app_nil_r).
    change (world s) with (world s1) in Ht.
    destruct (execute_command c id (args_ p) (world s1)) as [[reply|e|] w] eqn:E; cycle 1.
    + erewrite bind_throw by (unfold on_world; by rewrite E). change (world s) with (world s1).
      rewrite E, Hsent. cbn [fst]. split_and!; [apply Ht..|]. apply exec_refused.
    + unfold mbind, comp_bind, on_world. by rewrite E.
    + erewrite bind_ok by (unfold on_world; by rewrite E). set (s2 := mkServer w _ _).
      erewrite bind_ok by (apply this_ok; exact Hx1). erewrite bind_ok by done.
      change (world s) with (world s1). rewrite E, Hsent. cbn [fst]. split_and!; [apply Ht..|].
      apply exec_answered.
  - erewrite bind_ok by by apply this_ok. erewrite bind_ok by done. cbn [set_parser parser_ mret comp_ret].
    rewrite bool_decide_false by done. unfold executed, sent, replies_of. simpl. by rewrite !app_nil_r.
Qed.

(** A reply goes to the end of a queue. *)
Lemma submit_write_books c owed s id x data :
  server_ok c owed s → local_connections (core s) !! id = Some x →
  ∃ s', submit_write id data s = (Ok tt, s') ∧ server_ok c owed s' ∧ world s' = world s ∧
    (∀ id', alive id' s → alive id' s') ∧ alive id s' ∧
    pending c s' ≡ₚ pending c s ++ mine (c, id) data.
Proof.
  intros Hs Hx. destruct (submit_write_ok c owed s id x data Hs Hx) as (s' & E & Hs' & Hw & _ & Hl).
  exists s'. split_and!; [done..| | |].
  - intros id'. unfold alive. rewrite Hl, lookup_insert_is_Some'. auto.
  - unfold alive. by rewrite Hl, lookup_insert_eq.
  - unfold pending, queued. rewrite Hw, Hl. destruct (decide (id = id0)) as [->|Hne].
    + rewrite lookup_insert_eq, Hx. cbn [write_queue_ set_writes]. destruct (decide (c = c0)) as [->|].
      * rewrite mine_self. solve_Permutation.
      * rewrite mine_other by naive_solver. solve_Permutation.
    + rewrite lookup_insert_ne, mine_other by naive_solver. solve_Permutation.
Qed.

(** What the completion of a read brings from the connection, and what the completion
    of a write takes off its queue. *)
Definition received (c : nat) (e : io_uring_cqe Operation) (data : bytes) (s : Server)
    : list (list string) :=
  match cqe_data e with
  | Some (ReadOp id) => sent (read_tasks c id (res e) data s)
  | _ => []
  end.
Definition written (c : nat) (e : io_uring_cqe Operation) (s : Server) : list string :=
  match cqe_data e with
  | Some (WriteOp id) =>
      if (res e <? 0)%Z then [] else
      match local_connections (core s) !! id with
      | Some x => match write_queue_ x with front :: _ => mine (c, id) front | [] => [] end
      | None => []
      end
  | _ => []
  end.

(** A handler of core [c]: the commands [came] in, [evs] happened and the replies
    [out] were written.  On the connection's own core the connection has to be there,
    or no reply may be coming, and has to stay. *)
Definition stays (c : nat) (s s' : Server) : Prop :=
  c = c0 → (alive id0 s ∨ coming (world s) = []) ∧ (alive id0 s → alive id0 s').
Definition balances (c : nat) (came : list (list string)) (evs : list event) (out : list string)
    (s : Server) (o : outcome unit * Server) : Prop :=
  match o with
  | (Ok _, s') =>
      asking (world s') ++ executed evs ≡ₚ asking (world s) ++ came ∧
      (stays c s s' → pending c s' ++ out ≡ₚ pending c s ++ replies_of evs)
  | (Throw _, s') =>
      (∃ lost, asking (world s') ++ executed evs ++ lost ≡ₚ asking (world s) ++ came) ∧
      (c ≠ c0 → coming (world s') ≡ₚ coming (world s) ++ replies_of evs)
  | (Undefined, _) => True
  end.

(** A connection other than the one whose books are kept is closed. *)
Lemma pending_disconnect c s id x s' :
  local_connections (core s) !! id = Some x → disconnect id s = (Ok tt, s') →
  world s' = world s ∧ (stays c s s' → pending c s' = pending c s).
Proof.
  intros Hx [= <-]. split; [done|]. intros Ha. unfold stays, pending, queued, alive in *. simpl in *.
  destruct (decide (c = c0)) as [->|Hc]; [|done]. destruct (decide (id = id0)) as [->|Hne].
  - rewrite lookup_delete_eq, Hx in Ha. destruct (Ha eq_refl) as [_ Ha']. by destruct Ha'.
  - by rewrite lookup_delete_ne.
Qed.

Lemma handle_read_books c s id n data :
  server_ok c (Some (ReadOp id)) s →
  balances c (sent (read_tasks c id n data s)) (read_events c id n data s) [] s (handle_read c id n data s).
Proof.
  intros Hs. unfold handle_read. pose proof Hs as [Hw Hc _].
  destruct (local_connections (core s) !! id) as [x|] eqn:Hx.
  2:{ unfold mbind, comp_bind, this. by rewrite Hx. }
  erewrite bind_ok by by apply this_ok. destruct (Z.leb_spec n 0) as [Hle|Hlt].
  { unfold read_tasks, read_events. rewrite Hx, (proj2 (Z.leb_le _ _)) by done.
    destruct (disconnect id s) as [[[]|e|] s'] eqn:E; [|done..].
    destruct (pending_disconnect c s id x s' Hx E) as [Hw' Hp]. split; [by rewrite Hw'|].
    intros Ha. by rewrite Hp. }
  pose proof (handle_data_books c id x n data s Hw Hc Hx Hlt) as Hd. cbv zeta in Hd.
  pose proof (handle_data_ok c _ s id data Hs ltac:(by eexists)) as Hok.
  destruct (handle_data c id data s) as [[reply|ex|] s1] eqn:E; cycle 1.
  { erewrite bind_throw by exact E. destruct Hd as (Ha & Hco & Hn). unfold balances.
    rewrite Hn. split; [exists []; by rewrite app_nil_r|]. intros _. by rewrite Hco, app_nil_r. }
  { unfold mbind, comp_bind. by rewrite E. }
  destruct Hok as (Hs1 & _ & _ & x1 & Hx1). erewrite bind_ok by exact E. destruct Hd as (Ha & Hco & Hans).
  destruct (handle_data_core c id x data s reply s1 Hx E) as [p Hcore].
  assert (queued (core s1) = queued (core s)) as Hq by (rewrite Hcore; by apply queued_parser).
  assert (∃ s2, (if bool_decide (reply = EmptyString) then mret tt else submit_write id reply) s1 = (Ok tt, s2) ∧
    server_ok c (Some (ReadOp id)) s2 ∧ alive id s2 ∧ world s2 = world s1 ∧
    pending c s2 ≡ₚ pending c s1 ++ (if bool_decide (reply = EmptyString) then [] else mine (c, id) reply))
    as (s2 & E2 & Hs2 & [x2 Hx2] & Hw2 & Hd2).
  { case_bool_decide.
    - exists s1. split_and!; [done..|by eexists|done|by rewrite app_nil_r].
    - destruct (submit_write_books c _ s1 id x1 reply Hs1 Hx1) as (s2 & ? & ? & ? & _ & ? & ?). eauto 10. }
  erewrite bind_ok by exact E2. unfold submit_read. erewrite bind_ok by by apply this_ok.
  destruct (settle_read_ok c s2 id x2 Hs2 Hx2) as (io' & -> & _).
  unfold balances. change (world (set_ctx s2 io')) with (world s2).
  change (pending c (set_ctx s2 io')) with (pending c s2). rewrite Hw2.
  split; [done|]. intros _. rewrite app_nil_r, Hd2, <- Hans. unfold pending. by rewrite Hco, Hq.
Qed.

Lemma handle_write_books c s id n :
  server_ok c (Some (WriteOp id)) s →
  balances c [] [] (written c (mkCqe (Some (WriteOp id)) n) s) s (handle_write id n s).
Proof.
  intros Hs. unfold handle_write, written. cbn [cqe_data res].
  destruct (local_connections (core s) !! id) as [x|] eqn:Hx.
  2:{ unfold mbind, comp_bind, this. by rewrite Hx. }
  erewrite bind_ok by by apply this_ok. destruct (n <? 0)%Z.
  { destruct (disconnect id s) as [[[]|e|] s'] eqn:E; [|done..].
    destruct (pending_disconnect c s id x s' Hx E) as [Hw' Hp]. split; [by rewrite Hw'|].
    intros Ha. by rewrite Hp. }
  pose proof Hs as [_ _ Hk]. destruct (ko_conns _ _ _ Hk id x Hx) as [_ _ _ Hcw Hq].
  rewrite posted_none, decide_True in Hcw by done.
  destruct (is_writing_ x) eqn:Ew; [|lia]. destruct (write_queue_ x) as [|front queue] eqn:Eq.
  { by destruct (proj1 Hq eq_refl). }
  erewrite bind_ok by done. cbn [tail write_queue_ set_writes].
  (* however the handler goes on, the front has left the queue *)
  assert (∀ s' b, world s' = world s → local_connections (core s') =
    <[id := set_writes x queue b]> (local_connections (core s)) →
    balances c [] [] (mine (c, id) front) s (Ok tt, s')) as Hout.
  { intros s' b Hw' Hl'. split; [by rewrite Hw'|]. intros _. unfold pending, queued. rewrite Hw', Hl'.
    destruct (decide (id = id0)) as [->|Hne].
    - rewrite lookup_insert_eq, Hx, Eq. cbn [write_queue_ set_writes]. destruct (decide (c = c0)) as [->|].
      + rewrite mine_self. simpl. solve_Permutation.
      + rewrite mine_other by naive_solver. done.
    - rewrite lookup_insert_ne, mine_other by naive_solver. done. }
  destruct queue as [|data queue].
  - apply (Hout _ false); [done|]. simpl. by rewrite insert_insert_eq.
  - unfold submit_front. cbn [write_queue_ set_writes]. set (s1 := set_connections s _).
    destruct (on_ctx_submit _ (λ r i, io_uring_prep_write r i (fd_ x) (WriteBuffer id) (str_size data))
      (WriteOp id) s1 (ko_slots _ _ _ Hk) (preps_write _ _ _)) as (io' & s0 & E & _).
    cbn [fd_ set_writes]. rewrite E. by apply (Hout _ true).
Qed.

Lemma handle_accept_books c s fd :
  server_ok c (Some AcceptOp) s → (0 ≤ next_conn_id s < 2 ^ 32 - 1)%Z →
  balances c [] [] [] s (handle_accept fd s).
Proof.
  intros Hs Hn. destruct (decide (0 ≤ fd)%Z) as [Hfd|Hfd].
  - destruct (handle_accept_runs c s fd Hs Hn Hfd) as (s' & -> & _ & Hw & _ & Hl). split; [by rewrite Hw|].
    intros _. unfold pending, queued. rewrite Hw, Hl. destruct (decide (next_conn_id s = id0)) as [<-|Hne].
    + rewrite lookup_insert_eq. pose proof Hs as [_ _ Hk].
      destruct (ko_fresh _ _ _ Hk (next_conn_id s)) as [-> _]; [lia|done].
    + by rewrite lookup_insert_ne.
  - unfold handle_accept. rewrite (proj2 (Z.ltb_lt _ _)) by lia.
    destruct (submit_accept_runs c s Hs) as (io' & -> & _). done.
Qed.

(** A command taken from an inbox is executed, and its reply sent to the core it
    came from; a reply goes to the queue of its connection. *)
Lemma handle_request_books c owed s msg :
  server_ok c owed s → msg_ok (topo (world s)) c msg → msg_type msg = REQUEST →
  let evs := message_events c msg (world s) in
  match handle_message c msg s with
  | (Undefined, _) => True
  | (_, s') => core s' = core s ∧ asking (world s') ≡ₚ asking (world s) ∧ executed evs = asked [msg] ∧
      coming (world s') = coming (world s) ++ replies_of evs
  end.
Proof.
  intros Hs Hm Et evs. pose proof Hs as [Hw Hc Hk]. unfold evs, message_events, handle_message. rewrite Et.
  assert (asked [msg] = mine (task_src (request_task msg)) (task_args (request_task msg))) as ->.
  { unfold asked, message_tasks, sent. simpl. rewrite Et. simpl. by rewrite app_nil_r. }
  pose proof Hm as Hm0. unfold msg_ok in Hm0. rewrite Et in Hm0. destruct Hm0 as (_ & _ & _ & Ho).
  pose proof (request_here c msg (world s) Hw Et Hm) as Hr. cbv zeta in Hr.
  destruct (execute_request c msg (world s)) as [[reply|ex|] w] eqn:E; cbn [fst snd] in *.
  3:{ unfold mbind, comp_bind, on_world. by rewrite E. }
  all: destruct Hr as [?|Hr]; [done|]; destruct (ran_here_transit _ _ _ _ Hr) as [Ha Hco].
  2:{ erewrite bind_throw by (unfold on_world; by rewrite E). cbn [core world].
      rewrite Ha, Hco, !(proj1 (exec_refused _ _)), app_nil_r. split_and!; [done..|apply exec_refused|done]. }
  erewrite bind_ok by (unfold on_world; by rewrite E).
  destruct (ran_here_ok _ _ _ _ Hw Hr) as [Hw' Hg].
  destruct Hr as (_ & _ & _ & _ & _ & _ & Hr). rewrite bool_decide_false by done.
  destruct (exec_answered (request_task msg) reply) as [-> ->]. rewrite bool_decide_false by done.
  pose proof (sh_cores _ _ (gr_shape _ _ Hg)) as Hn.
  set (m := response c (msg_conn_id msg) reply).
  destruct (send_ok w (origin_core_id msg) m Hw') as (w' & Es & _); [by rewrite Hn|done|].
  destruct (send_transit w (origin_core_id msg) m w') as [Ha' Hco']; [done|by rewrite Hn|done..|].
  unfold on_world. cbn [world]. unfold send in Es. rewrite Es. cbn [core world]. split_and!; [done| |done|].
  - by rewrite Ha', Ha, app_nil_r.
  - rewrite Hco', Hco. f_equal. unfold replied, mine. simpl.
    destruct (decide (origin_core_id msg = c0)), (decide (msg_conn_id msg = id0));
      [rewrite decide_True by congruence|rewrite decide_False by congruence..]; done.
Qed.

Lemma handle_response_books c owed s msg :
  server_ok c owed s → msg_type msg = RESPONSE →
  ∃ s', handle_message c msg s = (Ok tt, s') ∧ world s' = world s ∧ (alive id0 s → alive id0 s') ∧
    (c = c0 → alive id0 s ∨ replied [msg] = [] →
     queued (core s') = queued (core s) ++ replied [msg]).
Proof.
  intros Hs Et. unfold handle_message. rewrite Et, bind_gets. unfold replied. simpl. rewrite Et, app_nil_r.
  destruct (local_connections (core s) !! msg_conn_id msg) as [x|] eqn:Hx.
  - destruct (submit_write_ok c owed s _ x (payload msg) Hs Hx) as (s' & -> & _ & Hw & _ & Hl).
    exists s'. split_and!; [done..| |].
    + unfold alive. rewrite Hl, lookup_insert_is_Some'. auto.
    + intros _ _. unfold queued. rewrite Hl. case_decide as Hid.
      * by rewrite Hid, lookup_insert_eq, <- Hid, Hx.
      * by rewrite lookup_insert_ne, app_nil_r.
  - exists s. split_and!; [done..|]. intros _ Ha. case_decide as Hid; [|by rewrite app_nil_r].
    destruct Ha as [[x Hx']|]; [congruence|done].
Qed.

(** The messages [l] are out of the inbox: how the books stand when they have been
    handled. *)
Definition batch_books (c : nat) (l : list Message) (evs : list event) (s : Server)
    (o : outcome unit * Server) : Prop :=
  match o with
  | (Ok _, s') =>
      asking (world s') ≡ₚ asking (world s) ∧ executed evs = asked l ∧
      ((c = c0 → alive id0 s ∨ replied l = []) →
       pending c s' ≡ₚ pending c s ++ (if decide (c = c0) then replied l else []) ++ replies_of evs)
  | (Throw _, s') =>
      asking (world s') ≡ₚ asking (world s) ∧ (∃ lost, executed evs ++ lost = asked l) ∧
      (c ≠ c0 → coming (world s') ≡ₚ coming (world s) ++ replies_of evs)
  | (Undefined, _) => True
  end.

Lemma handle_message_books c owed s msg :
  server_ok c owed s → msg_ok (topo (world s)) c msg →
  batch_books c [msg] (message_events c msg (world s)) s (handle_message c msg s) ∧
  match handle_message c msg s with (Ok _, s') => alive id0 s → alive id0 s' | _ => True end.
Proof.
  intros Hs Hm. destruct (msg_type msg) eqn:Et.
  - pose proof (handle_request_books c owed s msg Hs Hm Et) as Hr. cbv zeta in Hr.
    assert (replied [msg] = []) as Hno by (unfold replied; simpl; by rewrite Et).
    unfold batch_books. rewrite Hno. destruct (handle_message c msg s) as [[[]|ex|] s']; [| |done].
    + destruct Hr as (Hcore & Ha & Hx & Hco). split; [|unfold alive; by rewrite Hcore]. split_and!; [done..|].
      intros _. unfold pending. rewrite Hcore, Hco. destruct (decide (c = c0)); solve_Permutation.
    + destruct Hr as (_ & Ha & Hx & Hco). split; [|done]. split_and!; [done| |].
      * exists []. by rewrite app_nil_r.
      * intros _. by rewrite Hco.
  - destruct (handle_response_books c owed s msg Hs Et) as (s' & -> & Hw & Hal & Hq). split; [|done].
    unfold message_events. rewrite Et. unfold batch_books. rewrite Hw. split_and!; [done| |].
    + unfold asked, message_tasks. simpl. by rewrite Et.
    + intros Ha. unfold pending. rewrite Hw. change (replies_of []) with (@nil string).
      destruct (decide (c = c0)) as [Hc|]; [rewrite Hq by auto|]; solve_Permutation.
Qed.

Lemma handle_messages_books c owed batch : ∀ s,
  server_ok c owed s → Forall (msg_ok (topo (world s)) c) batch →
  batch_books c batch (batch_events c batch s) s (foldM (λ _ msg, handle_message c msg) tt batch s).
Proof.
  induction batch as [|m batch IH]; intros s Hs Hb.
  { split_and!; [done..|]. intros _. change (replies_of _) with (@nil string).
    destruct (decide (c = c0)); [change (replied []) with (@nil string)|]; solve_Permutation. }
  apply Forall_cons in Hb as [Hm Hb]. cbn [foldM batch_events].
  pose proof (handle_message_ok c owed s m Hs Hm) as Hok.
  destruct (handle_message_books c owed s m Hs Hm) as [Hd Hal].
  change (m :: batch) with ([m] ++ batch).
  destruct (handle_message c m s) as [[[]|ex|] s1] eqn:E.
  3:{ unfold mbind, comp_bind. by rewrite E. }
  2:{ erewrite bind_throw by exact E. rewrite app_nil_r. destruct Hd as (Ha & (lost & Hl) & Hco).
      split_and!; [done| |done]. exists (lost ++ asked batch). by rewrite app_assoc, Hl, asked_app. }
  erewrite bind_ok by exact E. destruct Hok as (Hs1 & Hg & _ & _).
  specialize (IH s1 Hs1 ltac:(eapply Forall_impl; [done|]; intros m'; apply msg_ok_shape, Hg)).
  unfold batch_books in *. rewrite !asked_app, !replied_app, !executed_app, !replies_app.
  destruct Hd as (Ha & Hx & Hp).
  destruct (foldM _ tt batch s1) as [[[]|ex|] s2]; [| |done].
  - destruct IH as (Ha2 & Hx2 & Hp2). split_and!; [by rewrite Ha2|by rewrite Hx, Hx2|]. intros Hc.
    rewrite Hp2, Hp; [destruct (decide (c = c0)); solve_Permutation|..]; intros Hc0;
      (destruct (Hc Hc0) as [?|[??]%app_eq_nil]; [left; auto|by right]).
  - destruct IH as (Ha2 & (lost & Hl) & Hp2). split_and!; [by rewrite Ha2| |].
    + exists lost. by rewrite Hx, <- app_assoc, Hl.
    + intros Hc. rewrite Hp2 by done. specialize (Hp ltac:(done)). unfold pending in Hp.
      rewrite !(decide_False (P := c = c0)), !app_nil_r in Hp by done. rewrite Hp. solve_Permutation.
Qed.

Lemma notification_books c owed s :
  server_ok c owed s → balances c [] (notification_events c s) [] s (notification_handler c s).
Proof.
  intros Hs. pose proof Hs as [Hw Hc Hk]. unfold notification_handler, notification_events.
  destruct (take_inbox_ok c (world s) Hw Hc) as (batch & w' & E & Hw' & Hg & Hin & Hin' & Hb).
  assert (on_world (take_inbox c) s = (Ok batch, mkServer w' (core s) (next_conn_id s))) as Ew
    by (unfold on_world; by rewrite E).
  rewrite Ew. erewrite bind_ok by exact Ew. set (s1 := mkServer w' _ _).
  pose proof (sh_cores _ _ (gr_shape _ _ Hg)) as Hn.
  assert (∀ i, i ≠ c → inbox w' i = inbox (world s) i) as Hoth.
  { intros i Hi. unfold take_inbox in E. destruct (channels_ (topo (world s)) !! c); [|done].
    injection E as _ <-. unfold inbox. simpl. by rewrite list_lookup_insert_ne. }
  pose proof (asking_change (world s) w' c batch [] Hn Hc Hin Hin' Hoth) as Ht. rewrite app_nil_r in Ht.
  assert (coming (world s) = coming w' ++ if decide (c = c0) then replied batch else []) as Hco.
  { unfold coming. case_decide as Hd; [subst c; by rewrite Hin, Hin'|by rewrite Hoth, app_nil_r]. }
  assert (server_ok c owed s1) as Hs1 by (split; [done|by simpl; rewrite Hn|done]).
  pose proof (handle_messages_books c owed batch s1 Hs1 Hb) as Hd. unfold balances.
  destruct (foldM _ tt batch s1) as [[[]|ex|] s2]; [| |done].
  - destruct Hd as (Ha & Hx & Hp). split; [by rewrite Ha, Hx, app_nil_r|]. intros Hal.
    rewrite app_nil_r, Hp.
    + unfold pending. cbn [world core s1]. rewrite Hco. destruct (decide (c = c0)); solve_Permutation.
    + intros Hc0. destruct (Hal Hc0) as [[?|Hz] _]; [by left|right]. rewrite Hco, decide_True in Hz by done.
      by apply app_eq_nil in Hz as [_ ?].
  - destruct Hd as (Ha & (lost & Hl) & Hp). split.
    + exists lost. by rewrite Ha, Hl, app_nil_r.
    + intros Hne. rewrite Hp, Hco, decide_False by done. cbn [world s1]. solve_Permutation.
Qed.

Lemma dispatch_books c e data s :
  server_ok c (cqe_data e) s → (0 ≤ next_conn_id s < 2 ^ 32 - 1)%Z →
  balances c (received c e data s) (completion_events c e data s) (written c e s) s (dispatch c e data s).
Proof.
  intros Hs Hn. destruct e as [[[id|id| |]|] n]; completion; cbn [res] in *.
  - by apply handle_read_books.
  - by apply handle_write_books.
  - by apply handle_accept_books.
  - pose proof (notification_books c _ s Hs) as Hd. pose proof (notification_handler_ok c _ s Hs) as Hok.
    destruct (notification_handler c s) as [[[]|ex|] s1] eqn:E; cycle 1.
    { by erewrite bind_throw by exact E. }
    { unfold mbind, comp_bind. by rewrite E. }
    erewrite bind_ok by exact E. destruct Hok as (Hs1 & _).
    unfold submit_notification_read, on_ctx. rewrite bind_gets.
    rewrite (proj2 (Z.ltb_ge _ _)) by apply Hs1.
    destruct (settle_ok c NotificationOp _
      (λ r i, io_uring_prep_read r i (event_fd_ (ctx (core s1))) NotifyBuffer 8) s1 Hs1
      (preps_read _ _ _) ltac:(done)) as (io' & E' & _).
    unfold on_ctx in E'. rewrite E'. exact Hd.
  - by split.
Qed.

(** ** Steps of the server *)

(** The connection is there. *)
Definition alive_in (st : System) : Prop :=
  ∃ k h, s_cores st !! c0 = Some (Running k h) ∧ is_Some (local_connections k !! id0).

(** It was there, or its core has ended: it will not be there again. *)
Definition gone (st : System) : Prop :=
  match s_cores st !! c0 with
  | Some Ended => True
  | Some (Running k _) => local_connections k !! id0 = None ∧ (id0 < s_next st)%Z
  | _ => False
  end.

Definition queued_in (st : System) : list string :=
  match s_cores st !! c0 with Some (Running k _) => queued k | _ => [] end.

Definition pending_in (st : System) : list string := coming (s_world st) ++ queued_in st.

(** Nothing of the connection is under way. *)
Definition idle_in (st : System) : Prop := asking (s_world st) = [] ∧ pending_in st = [].

(** The commands of the connection a step takes in, and the replies to it that have
    been written. *)
Definition step_received (st : System) (l : label) : list (list string) :=
  match l with
  | Internal _ => []
  | Completed c e data | Failed c e data _ =>
      match s_cores st !! c with
      | Some (Running k _) => received c e data (server_of st k)
      | _ => []
      end
  end.
Definition step_written (st : System) (l : label) : list string :=
  match l with
  | Completed c e _ =>
      match s_cores st !! c with
      | Some (Running k _) => written c e (server_of st k)
      | _ => []
      end
  | _ => []
  end.

Lemma alive_not_gone st : alive_in st → ¬ gone st.
Proof. intros (k & h & Hk & x & Hx). unfold gone. rewrite Hk. intros [? _]. congruence. Qed.

Lemma absent_fds k : local_connections k !! id0 = None ↔ conn_fds k !! id0 = None.
Proof. unfold conn_fds. by rewrite lookup_fmap, fmap_None. Qed.

(** A handler adds no connection but one with the next identifier. *)
Lemma still_absent st c k i e data s :
  sys_ok st → s_cores st !! c = Some (Running k (Some i)) → cqes (ring_ (ctx k)) !! i = Some e →
  (s_next st < 2 ^ 32 - 1)%Z → dispatch c e data (server_of st k) = (Ok tt, s) →
  local_connections k !! id0 = None → (id0 < s_next st)%Z → local_connections (core s) !! id0 = None.
Proof.
  intros Hst Hk He Hn E Ha%absent_fds Hlt. apply absent_fds. erewrite step_sockets by done.
  unfold sockets_after. cbn [core server_of next_conn_id].
  repeat case_match; rewrite ?lookup_delete_None, ?lookup_insert_ne by lia; auto.
Qed.

Lemma dispatch_next st c k i e data s r :
  sys_ok st → s_cores st !! c = Some (Running k (Some i)) → cqes (ring_ (ctx k)) !! i = Some e →
  (s_next st < 2 ^ 32 - 1)%Z → dispatch c e data (server_of st k) = (r, s) → r ≠ Undefined →
  (s_next st ≤ next_conn_id s)%Z.
Proof.
  intros Hst Hk He Hn E Hr. pose proof (dispatch_handled st c k i e data Hst Hk He Hn) as Hd.
  rewrite E in Hd. destruct r; [|..|done]; apply Hd.
Qed.

Lemma gone_step st l st' : sys_ok st → lstep st l st' → gone st → gone st'.
Proof.
  intros Hst Hs. unfold gone. destruct Hs as
    [c rfd wfd io w Hc Hn Hr Hwr _ Hio He Hw|c ex Hc Hn Hex|c io os port fd calls s Hc Hall _ E|c io os port ex calls Hc _ _|c k rounds io e Hk Hw He
    |c k i e data s Hk He Hn E|c k i e data ex s Hk He Hn E|c k i Hk He];
    cbn [s_cores s_next set_phase put_server close_fd];
    (destruct (decide (c = c0)) as [->|Hne]; [rewrite lookup_insert_eq|rewrite lookup_insert_ne by done]).
  all: try done.
  - by rewrite Hn.
  - by rewrite Hn.
  - by rewrite Hc.
  - destruct (worker_listen_ok st c io fd Hst Hc) as (s' & E' & _ & Hnx & _).
    rewrite E in E'. injection E' as <-. by rewrite Hnx.
  - by rewrite Hk.
  - rewrite Hk. intros [Ha Hlt]. split; [by eapply still_absent|].
    pose proof (dispatch_next _ _ _ _ _ _ _ _ Hst Hk He Hn E ltac:(done)). lia.
  - pose proof (dispatch_next _ _ _ _ _ _ _ _ Hst Hk He Hn E ltac:(done)).
    destruct (s_cores st !! c0) as [[]|]; [done| |done..]. intros []. split; [done|lia].
  - pose proof (dispatch_next _ _ _ _ _ _ _ _ Hst Hk He Hn E ltac:(done)).
    destruct (s_cores st !! c0) as [[]|]; [done| |done..]. intros []. split; [done|lia].
  - by rewrite Hk.
Qed.

(** Steps that handle no completion move nothing. *)
Lemma internal_books st c st' :
  sys_ok st → lstep st (Internal c) st' →
  (asking (s_world st') = asking (s_world st) ∧ coming (s_world st') = coming (s_world st)) ∧
  (¬ gone st' → queued_in st' = queued_in st ∧ (alive_in st → alive_in st')).
Proof.
  intros Hst Hs. unfold gone, queued_in, alive_in. remember (Internal c) as l eqn:El. destruct Hs as
    [c1 rfd wfd io w Hc Hn Hr Hwr _ Hio He Hw|c1 ex Hc Hn Hex|c1 io os port fd calls s Hc Hall _ E|c1 io os port ex calls Hc _ _|c1 k rounds io e Hk Hw He
    |c1 k i e data s Hk He Hn E|c1 k i e data ex s Hk He Hn E|c1 k i Hk He]; try done;
    injection El as ->; cbn [s_world s_cores set_phase put_server close_fd].
  - split.
    { unfold worker_register in Hw. rewrite bind_gets in Hw. unfold register_notify_fd in Hw. simpl in Hw.
      case_match; [done|]. injection Hw as <-. by apply transit_same. }
    destruct (decide (c = c0)) as [->|Hne].
    + rewrite lookup_insert_eq, Hn. split; [done|]. naive_solver.
    + by rewrite lookup_insert_ne.
  - split; [done|]. destruct (decide (c = c0)) as [->|Hne].
    + rewrite lookup_insert_eq, Hn. split; [done|]. naive_solver.
    + by rewrite lookup_insert_ne.
  - destruct (worker_listen_ok st c io fd Hst Hc) as (s' & E' & Hw & _ & _ & _ & _ & Hl & _).
    rewrite E in E'. injection E' as <-. rewrite Hw. split; [done|]. destruct (decide (c = c0)) as [->|Hne].
    + rewrite lookup_insert_eq, Hc. unfold queued. rewrite Hl, lookup_empty. split; [done|]. naive_solver.
    + by rewrite lookup_insert_ne.
  - split; [by apply transit_same|]. destruct (decide (c = c0)) as [->|Hne].
    + by rewrite lookup_insert_eq.
    + by rewrite lookup_insert_ne.
  - split; [by apply transit_same|]. destruct (decide (c = c0)) as [->|Hne].
    + rewrite lookup_insert_eq, Hk. split; [done|]. intros (k' & h & [= <- <-] & Hx). by eexists _, _.
    + by rewrite lookup_insert_ne.
  - split; [done|]. destruct (decide (c = c0)) as [->|Hne].
    + rewrite lookup_insert_eq, Hk. split; [done|]. intros (k' & h & [= <- <-] & Hx). by eexists _, _.
    + by rewrite lookup_insert_ne.
Qed.

(** A step that handles a completion, seen from its core. *)
Lemma dispatch_balances st c k i e data :
  sys_ok st → s_cores st !! c = Some (Running k (Some i)) → cqes (ring_ (ctx k)) !! i = Some e →
  (s_next st < 2 ^ 32 - 1)%Z →
  balances c (received c e data (server_of st k)) (completion_events c e data (server_of st k))
    (written c e (server_of st k)) (server_of st k) (dispatch c e data (server_of st k)).
Proof.
  intros Hst Hk He Hn. pose proof (sy_next _ Hst).
  pose proof (ob_advance _ (dispatch_oblivious c e data) (S i) (server_of st k)) as Ho.
  pose proof (dispatch_books c e data _ (advanced_ok st c k i e Hst Hk He) ltac:(simpl; lia)) as Hd.
  rewrite Ho, completion_events_advance in Hd.
  destruct (dispatch c e data (server_of st k)) as [[[]|ex|] s]; [exact Hd..|done].
Qed.

(** Commands: whatever becomes of the connection, each is executed once, or waits,
    or was lost with a core. *)
Lemma step_asking st l st' :
  sys_ok st → lstep st l st' →
  ∃ lost, asking (s_world st') ++ executed (step_events st l) ++ lost ≡ₚ
      asking (s_world st) ++ step_received st l ∧ (¬ failed l → lost = []).
Proof.
  intros Hst Hs. destruct l as [c|c e data|c e data ex].
  - destruct (internal_books st c st' Hst Hs) as [[-> _] _]. by exists [].
  - inversion Hs as [| | | | |c1 k i e1 data1 s Hk He Hn E| |]; subst.
    pose proof (dispatch_balances st c k i e data Hst Hk He Hn) as Hb. rewrite E in Hb.
    exists []. cbn [step_events step_received]. rewrite Hk, app_nil_r. split; [apply Hb|done].
  - inversion Hs as [| | | | | |c1 k i e1 data1 ex1 s Hk He Hn E|]; subst.
    pose proof (dispatch_balances st c k i e data Hst Hk He Hn) as Hb. rewrite E in Hb.
    destruct Hb as [(lost & Hl) _]. exists lost. cbn [step_events step_received]. rewrite Hk.
    split; [exact Hl|naive_solver].
Qed.

(** Replies, on a handler that returns. *)
Lemma completed_pending st c e data st' :
  sys_ok st → lstep st (Completed c e data) st' → ¬ gone st' → (alive_in st ∨ pending_in st = []) →
  let l := Completed c e data in
  pending_in st' ++ step_written st l ≡ₚ pending_in st ++ replies_of (step_events st l) ∧
  (alive_in st → alive_in st').
Proof.
  intros Hst Hs Hg Ha. inversion Hs as [| | | | |c1 k i e1 data1 s Hk He Hn E| |]; subst.
  pose proof (dispatch_balances st c k i e data Hst Hk He Hn) as Hb. rewrite E in Hb. destruct Hb as [_ Hb].
  cbn [step_written step_events]. rewrite Hk. unfold pending_in, pending, queued_in in *.
  cbn [s_world s_cores put_server]. destruct (decide (c = c0)) as [->|Hne].
  - assert (alive_in st → is_Some (local_connections (core s) !! id0)) as Hal.
    { intros (k1 & h & Hk1 & x & Hx). rewrite Hk in Hk1. injection Hk1 as <- <-.
      destruct (local_connections (core s) !! id0) eqn:Ex; [done|]. destruct Hg. unfold gone. simpl.
      rewrite lookup_insert_eq. split; [done|]. destruct (sy_running _ Hst _ _ _ Hk) as [_ Hko].
      pose proof (conn_lt _ _ _ _ _ Hko Hx).
      pose proof (dispatch_next _ _ _ _ _ _ _ _ Hst Hk He Hn E ltac:(done)). lia. }
    rewrite lookup_insert_eq. rewrite Hk in *. split.
    + apply Hb. intros _. split.
      * destruct Ha as [(k1 & h & Hk1 & Hx)|[Hz _]%app_eq_nil]; [left|by right].
        rewrite Hk in Hk1. by injection Hk1 as <- <-.
      * intros Hx. apply Hal. exists k, (Some i). by split.
    + intros Hal'. eexists _, _. simpl. rewrite lookup_insert_eq. eauto.
  - rewrite lookup_insert_ne by done. specialize (Hb ltac:(done)). rewrite !app_nil_r in Hb.
    cbn [world server_of] in Hb. split.
    + set (q := match s_cores st !! c0 with Some (Running k0 _) => queued k0 | _ => [] end).
      transitivity ((coming (world s) ++ written c e (server_of st k)) ++ q); [solve_Permutation|].
      rewrite Hb. solve_Permutation.
    + intros (k1 & h & Hk1 & Hx). exists k1, h. simpl. by rewrite lookup_insert_ne.
Qed.

(** Replies, on a handler that throws: the connections of its core are gone. *)
Lemma failed_pending st c e data ex st' :
  sys_ok st → lstep st (Failed c e data ex) st' → ¬ gone st' →
  pending_in st' ≡ₚ pending_in st ++ replies_of (step_events st (Failed c e data ex)) ∧
  (alive_in st → alive_in st').
Proof.
  intros Hst Hs Hg. inversion Hs as [| | | | | |c1 k i e1 data1 ex1 s Hk He Hn E|]; subst.
  destruct (decide (c = c0)) as [->|Hne].
  { destruct Hg. unfold gone. simpl. by rewrite lookup_insert_eq. }
  pose proof (dispatch_balances st c k i e data Hst Hk He Hn) as Hb. rewrite E in Hb. destruct Hb as [_ Hb].
  cbn [step_events]. rewrite Hk. unfold pending_in, queued_in, alive_in. cbn [s_world s_cores put_server close_fd].
  rewrite lookup_insert_ne by done. split; [|done]. specialize (Hb Hne).
  change (coming (set_eventfds (world s) _)) with (coming (world s)). rewrite Hb. cbn [world server_of].
  solve_Permutation.
Qed.

(** A command comes in on a connection that is there. *)
Lemma received_alive st l : step_received st l ≠ [] → alive_in st.
Proof.
  unfold step_received. assert (∀ c e data, match s_cores st !! c with
    | Some (Running k _) => received c e data (server_of st k) | _ => [] end ≠ [] → alive_in st) as Hin.
  { intros c e data Hne. destruct (s_cores st !! c) as [[|k h| |]|] eqn:Hk; [done| |done..].
    unfold received, read_tasks in Hne. destruct (cqe_data e) as [[id| | |]|]; try done.
    cbn [core server_of] in Hne. destruct (local_connections k !! id) as [x|] eqn:Hx; [|done].
    destruct (decide ((c, id) = (c0, id0))) as [[= -> ->]|Hs]; [exists k, h; by rewrite Hx|]. exfalso. apply Hne.
    repeat case_match; try done; unfold sent; simpl; by rewrite mine_other. }
  destruct l; [done|by eapply Hin..].
Qed.

Lemma step_pending st l st' :
  sys_ok st → lstep st l st' → ¬ gone st' → (alive_in st ∨ idle_in st) →
  pending_in st' ++ step_written st l ≡ₚ pending_in st ++ replies_of (step_events st l) ∧
  (alive_in st' ∨ idle_in st').
Proof.
  intros Hst Hs Hg Ha.
  assert (pending_in st' ++ step_written st l ≡ₚ pending_in st ++ replies_of (step_events st l) ∧
    (alive_in st → alive_in st')) as [Hp Hal].
  { destruct l as [c|c e data|c e data ex].
    - destruct (internal_books st c st' Hst Hs) as [[_ Hco] Hq]. destruct (Hq Hg) as [Hq' ?].
      unfold pending_in. rewrite Hco, Hq'. done.
    - apply completed_pending; [done..|]. destruct Ha as [?|[_ ?]]; auto.
    - cbn [step_written]. rewrite app_nil_r. by apply failed_pending. }
  split; [done|]. destruct Ha as [?|[Hz1 Hz2]]; [left; auto|].
  destruct (decide (step_received st l = [])) as [Hr|Hr]; [right|left; by eapply Hal, received_alive].
  destruct (step_asking st l st' Hst Hs) as (lost & Hl & _). rewrite Hz1, Hr in Hl.
  apply Permutation_nil_r in Hl. apply app_eq_nil in Hl as [Hl1 [Hl2 _]%app_eq_nil]. split; [done|].
  pose proof (proj1 (replies_executed (step_events st l))) as Hle. rewrite Hl2 in Hle.
  destruct (replies_of (step_events st l)); [|simpl in Hle; lia]. rewrite Hz2 in Hp.
  apply Permutation_nil_r, app_eq_nil in Hp. apply Hp.
Qed.

(** ** Runs *)

Definition run_received (tr : list (System * label)) : list (list string) :=
  tr ≫= λ p, step_received p.1 p.2.
Definition run_written (tr : list (System * label)) : list string := tr ≫= λ p, step_written p.1 p.2.

(** What became of the commands of the connection along a run. *)
Lemma run_asking st tr st' :
  sys_ok st → lrun st tr st' →
  ∃ lost, asking (s_world st') ++ executed (history tr) ++ lost ≡ₚ asking (s_world st) ++ run_received tr ∧
    (Forall (λ p, ¬ failed p.2) tr → lost = []).
Proof.
  intros Hst Hr. induction Hr as [st|st l st1 tr st' Hs Hr IH]; [by exists []|].
  destruct (step_asking st l st1 Hst Hs) as (lost1 & H1 & Hf1).
  destruct (IH ltac:(eapply step_ok; [done|by eexists])) as (lost2 & H2 & Hf2).
  exists (lost1 ++ lost2). unfold history, run_received in *. rewrite !bind_cons, executed_app. cbn [fst snd].
  split; [|intros [Hl Htr]%Forall_cons; by rewrite Hf1, Hf2].
  transitivity ((asking (s_world st') ++ executed (history tr) ++ lost2) ++ executed (step_events st l) ++ lost1);
    [unfold history; solve_Permutation|]. unfold history. rewrite H2.
  transitivity ((asking (s_world st1) ++ executed (step_events st l) ++ lost1) ++ (tr ≫= λ p, step_received p.1 p.2));
    [solve_Permutation|]. rewrite H1. solve_Permutation.
Qed.

Lemma gone_run st tr st' : sys_ok st → lrun st tr st' → gone st → gone st'.
Proof.
  intros Hst Hr. induction Hr as [|st l st1 tr st' Hs _ IH]; [done|]. intros Hg.
  apply IH; [by eapply step_ok; [|eexists]|by eapply gone_step].
Qed.

(** What became of the replies to it, if it is there at the end. *)
Lemma run_pending st tr st' :
  sys_ok st → lrun st tr st' → alive_in st' → (alive_in st ∨ idle_in st) →
  run_written tr ++ pending_in st' ≡ₚ pending_in st ++ replies_of (history tr).
Proof.
  intros Hst Hr Hal. induction Hr as [st|st l st1 tr st' Hs Hr IH]; intros Ha.
  { unfold history. simpl. by rewrite app_nil_r. }
  assert (sys_ok st1) as Hst1 by (eapply step_ok; [done|by eexists]).
  destruct (step_pending st l st1 Hst Hs) as [H1 H3]; [|done|].
  { intros Hg. by eapply alive_not_gone, gone_run. }
  specialize (IH Hst1 Hal H3). unfold run_written, history in *. rewrite !bind_cons, replies_app. cbn [fst snd].
  rewrite <- app_assoc, IH, !app_assoc, (Permutation_app_comm (step_written st l)), H1. done.
Qed.
End account.
