(* ===== verification/RequestTheorems.v ===== *)
(** * From the bytes of a client to its reply

    A command runs on the owner of its key, is forwarded there, or is refused;
    the owner's reply comes back to the connection.  What the handlers of a
    connection do with the bytes they are given and with the replies they
    queue. *)
From S2P Require Import Prelude CxxString Double Containers Value Store HashMap Shard Router Topology Command Exec StringCommands Wire Rdb Registry Replies CommandTheorems Safety RespParser UringStub IoContext Connection Worker Handlers CoreInvariant.
From Stdlib Require Import ZArith Ascii Lia.
From stdpp Require Import prelude gmap strings list_numbers.

Section requests.
Context `{StdHash} `{FileSystem}.

(** ** Executing a command *)

(** C6. Every registered command on a key (all but SAVE, which reads the shards of
    the other cores while they run), with any arguments, on any core: it replies
    without touching other keys or any inbox, or - on a core that does not own the
    key, and without touching the database - it leaves exactly one request in the
    inbox of the owner and replies nothing yet.  Its only exception is the full
    table of the owner.  It is undefined only where the owner's arithmetic or
    comparisons are ([cmd_pre]: NaN scores, containers beyond [int], expiry times
    beyond [long long], an option of ZRANGE with bytes [toupper] is not defined
    on). *)
Theorem command_total w c name cmd conn_id args :
  topo_wf (topo w) → get_command registry name = Some cmd → name ≠ "SAVE" →
  let k := args !!! 1 in
  let owner := get_target_core (topo w) k in
  (owner = c → cmd_pre w c name args) →
  match cmd_execute cmd c conn_id args w with
  | (Ok reply, w') =>
      topo_wf (topo w') ∧ (∀ k', k' ≠ k → topo_db (topo w') k' = topo_db (topo w) k') ∧
      (reply ≠ EmptyString ∧ channels_ (topo w') = channels_ (topo w) ∨
       reply = EmptyString ∧ owner ≠ c ∧ shards_ (topo w') = shards_ (topo w) ∧
       ∃ ch, channels_ (topo w) !! owner = Some ch ∧
         channels_ (topo w') = <[owner := ch_push ch (request c conn_id args)]> (channels_ (topo w)))
  | (Throw ex, w') =>
      ex = runtime_error "HashMap is full" ∧ owner = c ∧ topo_wf (topo w') ∧
      (∀ k', k' ≠ k → topo_db (topo w') k' = topo_db (topo w) k')
  | (Undefined, _) => False
  end.
Proof.
  intros Hwf [Hname [Hin| ->]]%registered_cases Hs k owner Hpre; [|done].
  destruct (decide (owner = c)) as [Ho|Ho].
  - destruct (exec_owner w c cmd conn_id args Hwf Hin Ho) as (r & w' & -> & Hwf' & Hch & Hdb & Hr).
    { rewrite Hname. by apply Hpre. }
    destruct r as [reply|ex|]; [|done..]. split_and!; [done..|]. by left.
  - destruct (exec_elsewhere w c cmd conn_id args Hin Ho) as [(err & He & ->)| ->].
    { split_and!; [done..|]. left. split; [apply render_nonempty|done]. }
    destruct (forward_request_spec w c conn_id args Hwf) as (ch & w' & Hch & -> & Ht & _). rewrite Ht.
    split_and!; [by apply set_channels_wf; [|rewrite length_insert; apply Hwf]|done|].
    right. split_and!; [done..|]. by exists ch.
Qed.

(** A forwarded command: the core that read it puts one request at the end of the
    inbox of the owner, wakes it, and leaves the database alone. *)
Lemma forwarded w c c' id args :
  world_ok w → c < num_cores_ (topo w) → get_target_core (topo w) (args !!! 1) = c' → args ≠ [] →
  ∃ wf q, forward_request c id args w = (Ok EmptyString, wf) ∧
    shards_ (topo wf) = shards_ (topo w) ∧ router_ (topo wf) = router_ (topo w) ∧
    inbox w c' = Some q ∧ inbox wf c' = Some (q ++ [request c id args]) ∧ woken wf c'.
Proof.
  intros Hw Hc Hk Hne. pose proof Hw as [Hwf _ _ _].
  destruct (send_ok w c' (request c id args)) as (wf & E & _ & Hg & Hsh & q & Hq & Hq' & Hwk & _);
    [done|rewrite <- Hk; by apply target_core_lt|done|].
  exists wf, q. split_and!; [|done|apply Hg|done..].
  unfold forward_request. rewrite bind_gets, Hk. unfold send in E.
  apply bind_inv_ok in E as ([] & w1 & E1 & E2).
  erewrite bind_ok by exact E1. by erewrite bind_ok by exact E2.
Qed.

(** The owner executes a request itself and puts its reply - one message, with the
    connection's identifier - at the end of the inbox of the core the request came
    from, leaving its own connections alone.  If the execution throws, so does the
    owner's handler, and no reply is sent. *)
Lemma remote_command s c c' id name args cmd :
  let w := world s in
  let l := name :: args in
  world_ok w → c < num_cores_ (topo w) → get_target_core (topo w) (l !!! 1) = c' →
  get_command registry name = Some cmd →
  let r := handle_message c' (request c id l) s in
  match cmd_execute cmd c' id l w with
  | (Ok reply, w2) =>
      ∃ s2 q, r = (Ok tt, s2) ∧ core s2 = core s ∧
        shards_ (topo (world s2)) = shards_ (topo w2) ∧ router_ (topo (world s2)) = router_ (topo w2) ∧
        inbox w c = Some q ∧ inbox (world s2) c = Some (q ++ [response c' id reply]) ∧
        woken (world s2) c
  | (Throw ex, _) => r.1 = Throw ex
  | (Undefined, _) => r.1 = Undefined
  end.
Proof.
  intros w l Hw Hc Hk Hcmd r. unfold r, handle_message. cbn [msg_type request].
  unfold mbind, comp_bind, on_world. cbn [world].
  assert (execute_request c' (request c id l) w = cmd_execute cmd c' id l w) as Hreq.
  { unfold execute_request, l. cbn [msg_args request]. by rewrite Hcmd. }
  pose proof (request_here c' (request c id l) w Hw eq_refl ltac:(done)) as Hhere.
  cbv zeta in Hhere. fold w. rewrite Hreq in Hhere |- *.
  destruct (cmd_execute cmd c' id l w) as [[reply|ex|] w2]; [|done..].
  destruct Hhere as [?|Hhere]; [done|]. destruct (ran_here_ok w _ _ w2 Hw Hhere) as [Hw2 _].
  destruct Hhere as (_ & Hshape & Hch2 & _ & _ & _ & Hreply). cbn [fst snd] in *.
  rewrite bool_decide_false by done.
  destruct (send_ok w2 c (response c' id reply) Hw2) as (w3 & E3 & _ & Hg3 & Hsh3 & q & Hq & Hq' & Hwk & _).
  { by rewrite (sh_cores _ _ Hshape). }
  { done. }
  unfold send in E3. cbn [origin_core_id msg_conn_id request world].
  unfold mbind, comp_bind in E3. rewrite E3.
  eexists _, q. split; [done|]. split_and!; [done..|apply Hg3| |done|done].
  rewrite <- Hq. unfold inbox. by rewrite Hch2.
Qed.

(** ** Names *)

Lemma registered_upper name cmd : get_command registry name = Some cmd → to_upper name = name.
Proof.
  intros [Hin <-]%registered.
  assert (Forall (λ c, to_upper (cmd_name c) = cmd_name c) all_commands) as Hall
    by (repeat (constructor; [by vm_compute|]); constructor).
  by apply (proj1 (Forall_forall _ _) Hall).
Qed.

(** C36. A command name that is not all upper case works on the core that owns the
    key, but not on another: the reading core finds the command and forwards the
    arguments as they were typed, and the owner, which does not change the case,
    answers that it does not know the command. *)
Theorem forwarded_name_case w c c' id name rest cmd :
  get_command registry (to_upper name) = Some cmd → to_upper name ≠ name →
  execute_command c id (name :: rest) w = cmd_execute cmd c id (name :: rest) w ∧
  execute_request c' (request c id (name :: rest)) w =
    (Ok ("-ERR unknown command '" +:+ name +:+ "'" +:+ crlf), w).
Proof.
  intros Hcmd Hne. split; [by rewrite (execute_registered c id name rest cmd)|].
  unfold execute_request. cbn [msg_args request].
  destruct (get_command registry name) as [cmd'|] eqn:E; [|done].
  by apply registered_upper in E.
Qed.

(** ** The bytes of a read *)

Lemma set_parser_id x : set_parser x (parser_ x) = x.
Proof. by destruct x. Qed.

(** A command the protocol has a form for whose sizes an [int] can hold. *)
Definition sendable (args : list string) : Prop :=
  args ≠ [] ∧ (Z.of_nat (length args) ≤ int_max)%Z ∧
  Forall (λ a, (Z.of_nat (String.length a) ≤ int_max)%Z) args.

(** A command a client sends, at the start of a buffer. *)
Lemma handle_data_command c s id x args rest :
  local_connections (core s) !! id = Some x → parser_ x = reset →
  sendable args →
  let r := handle_data c id (RespParser.encode args ++ rest) s in
  match execute_command c id args (world s) with
  | (Ok reply, w) => r = (Ok reply, mkServer w (core s) (next_conn_id s))
  | (Throw ex, _) => r.1 = Throw ex
  | (Undefined, _) => r.1 = Undefined
  end.
Proof.
  intros Hx Hp (Hne & Hn & Ha). unfold handle_data.
  destruct (wire_parsed args (RespParser.encode args) rest (encode_wire args Hn Ha) Hne) as (l & cur & E).
  set (p' := mkParser WaitCRLF args (Z.of_nat (length args)) l cur) in *.
  assert (parser_consume id (RespParser.encode args ++ rest) s =
    (Ok Complete, set_connections s (<[id := set_parser x p']> (local_connections (core s))))) as Ec.
  { unfold parser_consume. by rewrite Hx, Hp, consume_run, E. }
  erewrite bind_ok by exact Ec. set (s1 := set_connections _ _).
  assert (local_connections (core s1) !! id = Some (set_parser x p')) as Hx1.
  { unfold s1. simpl. by rewrite lookup_insert_eq. }
  cbv iota zeta. erewrite bind_ok by by apply this_ok. cbn [set_parser parser_ args_].
  change (args_ p') with args.
  destruct (execute_command c id args (world s)) as [[reply|ex|] w] eqn:Ex; cycle 1.
  { unfold on_world, mbind, comp_bind. change (world s1) with (world s). by rewrite Ex. }
  { unfold on_world, mbind, comp_bind. change (world s1) with (world s). by rewrite Ex. }
  erewrite bind_ok by (unfold on_world; change (world s1) with (world s); by rewrite Ex).
  erewrite bind_ok by by apply this_ok. erewrite bind_ok by done. unfold mret, comp_ret. f_equal.
  unfold set_connections, set_core, s1. simpl. f_equal.
  rewrite insert_insert_eq. unfold set_parser. simpl. rewrite <- Hp.
  change (mkConn _ _ _ _ _) with (set_parser x (parser_ x)). rewrite set_parser_id, insert_id by done.
  by destruct (core s).
Qed.

(** A read that delivers one complete command to a connection between commands is
    answered exactly once: a reply is appended to the queue of that connection and
    of no other, an empty reply (the command went to another core) is not; the next
    read is posted.  The bytes after the command are dropped. *)
Lemma read_answered c s id x args rest :
  server_ok c (Some (ReadOp id)) s → local_connections (core s) !! id = Some x →
  parser_ x = reset → sendable args →
  let data := RespParser.encode args ++ rest in
  let r := handle_read c id (Z.of_nat (length data)) data s in
  match execute_command c id args (world s) with
  | (Ok reply, w) =>
      ∃ s', r = (Ok tt, s') ∧ server_ok c None s' ∧ world s' = w ∧
        local_connections (core s') =
          if bool_decide (reply = EmptyString) then local_connections (core s)
          else <[id := set_writes x (write_queue_ x ++ [reply]) true]> (local_connections (core s))
  | (Throw ex, _) => r.1 = Throw ex
  | (Undefined, _) => r.1 = Undefined
  end.
Proof.
  intros Hs Hx Hp Hargs data r. unfold r, handle_read.
  erewrite bind_ok by by apply this_ok. rewrite (proj2 (Z.leb_gt _ _)) by (unfold data; simpl; lia).
  pose proof (handle_data_command c s id x args rest Hx Hp Hargs) as Hd. cbv zeta in Hd. fold data in Hd.
  pose proof (handle_data_ok c _ s id data Hs ltac:(by eexists)) as Hok.
  destruct (execute_command c id args (world s)) as [[reply|ex|] w]; cycle 1.
  { unfold mbind, comp_bind. by destruct (handle_data c id data s) as [[]]; simplify_eq/=. }
  { unfold mbind, comp_bind. by destruct (handle_data c id data s) as [[]]; simplify_eq/=. }
  rewrite Hd in Hok. destruct Hok as (Hs1 & _). erewrite bind_ok by exact Hd.
  set (s1 := mkServer w (core s) (next_conn_id s)) in *.
  case_bool_decide as Er.
  - erewrite bind_ok by done. unfold submit_read. erewrite bind_ok by (apply this_ok; exact Hx).
    destruct (settle_read_ok c s1 id x Hs1 Hx) as (io' & -> & Hs').
    by eexists.
  - destruct (submit_write_ok c _ s1 id x reply Hs1 Hx) as (s2 & E2 & Hs2 & Hw2 & Hn2 & Hl2).
    erewrite bind_ok by exact E2. unfold submit_read.
    erewrite bind_ok by (apply this_ok; rewrite Hl2; by rewrite lookup_insert_eq).
    edestruct (settle_read_ok c s2 id) as (io' & -> & Hs'); [exact Hs2|by rewrite Hl2, lookup_insert_eq|].
    eexists. refine (conj eq_refl (conj Hs' (conj Hw2 Hl2))).
Qed.

(** C35. When a read ends inside the size line of a command, the digits read so far
    are lost: the connection goes on exactly as if the read had ended right after
    the star. *)
Theorem size_line_lost c id s x line :
  local_connections (core s) !! id = Some x → parser_ x = reset → cr ∉ line →
  handle_data c id ("*"%char :: line) s = handle_data c id ["*"%char] s.
Proof.
  intros Hx Hp Hl. assert (∀ l, cr ∉ l → ∃ o,
    consume ("*"%char :: l) reset = (Ok (Partial, o), set_state reset WaitSize)) as Hc.
  { intros l Hcr. rewrite consume_run, run_turn by done. unfold parse_turn. simpl.
    destruct (decide (l = [])) as [->|Hne]; [by rewrite run_nil; eexists|].
    rewrite run_turn by done. unfold parse_turn. cbn [state_ set_state reset]. unfold wait_size.
    destruct (scan_cr l) as [a [|c0 b]] eqn:Ea; [eexists; reflexivity|].
    apply scan_cr_spec in Ea as (-> & _ & [?|[r [= ->]]]); [done|]. set_solver. }
  destruct (Hc line Hl) as [o1 E1], (Hc [] ltac:(set_solver)) as [o2 E2].
  unfold handle_data, mbind, comp_bind, parser_consume. by rewrite Hx, Hp, E1, E2.
Qed.

(** ** The write queue *)

Lemma response_delivered c from id reply s x :
  local_connections (core s) !! id = Some x →
  handle_message c (response from id reply) s = submit_write id reply s.
Proof.
  intros Hx. unfold handle_message. cbn [msg_type response]. rewrite bind_gets.
  unfold response. cbn [msg_conn_id payload]. by rewrite Hx.
Qed.

(** C23. Replies leave a connection in the order they came: a new one goes to the end
    of the queue (a response from another core too, if the connection still
    exists), the completion of a write removes the one in front, and one write is
    under way exactly while the queue is not empty. *)
Theorem write_order c owed s id x :
  server_ok c owed s → local_connections (core s) !! id = Some x →
  (∀ data, ∃ s', submit_write id data s = (Ok tt, s') ∧ server_ok c owed s' ∧
     local_connections (core s') =
       <[id := set_writes x (write_queue_ x ++ [data]) true]> (local_connections (core s))) ∧
  (∀ from reply, handle_message c (response from id reply) s = submit_write id reply s) ∧
  (owed = Some (WriteOp id) → ∀ res, (0 ≤ res)%Z →
   ∃ front queue s', write_queue_ x = front :: queue ∧ handle_write id res s = (Ok tt, s') ∧
     server_ok c None s' ∧ posted (ctx (core s')) None (WriteOp id) = (if decide (queue = []) then 0 else 1) ∧
     local_connections (core s') =
       <[id := set_writes x queue (bool_decide (queue ≠ []))]> (local_connections (core s))).
Proof.
  intros Hs Hx. split_and!.
  - intros data. destruct (submit_write_ok c owed s id x data Hs Hx) as (s' & ? & ? & _ & _ & ?). eauto.
  - intros from reply. by eapply response_delivered.
  - intros -> res Hres. pose proof (handle_write_ok c s id res Hs) as Hok. pose proof Hs as [_ _ Hk].
    destruct (ko_conns _ _ _ Hk id x Hx) as [_ _ _ Hcw Hq].
    rewrite posted_none, decide_True in Hcw by done.
    destruct (is_writing_ x) eqn:Ew; [|lia]. destruct (write_queue_ x) as [|front queue] eqn:Eq.
    { by destruct (proj1 Hq eq_refl). }
    assert (∃ s', handle_write id res s = (Ok tt, s') ∧ local_connections (core s') =
       <[id := set_writes x queue (bool_decide (queue ≠ []))]> (local_connections (core s))) as (s' & E & Hl).
    { unfold handle_write. erewrite bind_ok by by apply this_ok.
      rewrite (proj2 (Z.ltb_ge _ _)) by done. erewrite bind_ok by done.
      cbn [write_queue_ set_writes]. rewrite Eq. cbn [tail]. destruct queue as [|d queue].
      - eexists. split; [done|]. simpl. by rewrite insert_insert_eq.
      - unfold submit_front. cbn [write_queue_ set_writes].
        match goal with |- context [on_ctx (submit_op ?prep ?op) ?s1] =>
          destruct (on_ctx_submit _ prep op s1 (ko_slots _ _ _ Hk) (preps_write _ _ _)) as (io' & s0 & -> & _) end.
        eexists. split; [done|]. simpl. by rewrite Ew. }
    rewrite E in Hok. destruct Hok as (Hs' & _). cbn [fst snd] in Hs'. exists front, queue, s'.
    split_and!; [done..| |done]. pose proof Hs' as [_ _ Hk'].
    assert (local_connections (core s') !! id = Some (set_writes x queue (bool_decide (queue ≠ [])))) as Hx'
      by by rewrite Hl, lookup_insert_eq.
    destruct (ko_conns _ _ _ Hk' id _ Hx') as [_ _ _ Hcw' _].
    rewrite Hcw'. simpl. repeat case_decide; by case_bool_decide.
Qed.

(** C31. Replies do not keep the order of the commands: after a command that is
    forwarded, the connection's next command, if its core can answer it, is answered
    at once, and the reply to the first goes behind it when it comes back. *)
Theorem replies_reordered c s s2 id x args1 args2 from reply1 reply2 w1 w2 :
  let read args s := let data := RespParser.encode args in
    handle_read c id (Z.of_nat (length data)) data s in
  server_ok c (Some (ReadOp id)) s → local_connections (core s) !! id = Some x → parser_ x = reset →
  sendable args1 → execute_command c id args1 (world s) = (Ok EmptyString, w1) →
  server_ok c (Some (ReadOp id)) s2 → local_connections (core s2) = local_connections (core s) →
  sendable args2 → execute_command c id args2 (world s2) = (Ok reply2, w2) → reply2 ≠ EmptyString →
  ∃ s1 s3 s4,
    read args1 s = (Ok tt, s1) ∧ local_connections (core s1) = local_connections (core s) ∧
    read args2 s2 = (Ok tt, s3) ∧ handle_message c (response from id reply1) s3 = (Ok tt, s4) ∧
    write_queue_ <$> local_connections (core s4) !! id = Some (write_queue_ x ++ [reply2; reply1]).
Proof.
  intros read Hs Hx Hp H1 E1 Hs2 Hl2 H2 E2 Hne. unfold read.
  pose proof (read_answered c s id x args1 [] Hs Hx Hp H1) as R1. rewrite E1, app_nil_r in R1.
  destruct R1 as (s1 & R1 & _ & _ & Hl1). rewrite bool_decide_eq_true_2 in Hl1 by done.
  pose proof (read_answered c s2 id x args2 [] Hs2 ltac:(by rewrite Hl2) Hp H2) as R2.
  rewrite E2, app_nil_r in R2. destruct R2 as (s3 & R2 & Hs3 & _ & Hl3).
  rewrite bool_decide_eq_false_2 in Hl3 by done.
  set (x3 := set_writes x (write_queue_ x ++ [reply2]) true) in *.
  assert (local_connections (core s3) !! id = Some x3) as Hx3 by by rewrite Hl3, lookup_insert_eq.
  destruct (submit_write_ok c None s3 id x3 reply1 Hs3 Hx3) as (s4 & R3 & _ & _ & _ & Hl4).
  exists s1, s3, s4. split_and!; [done..| |].
  - by rewrite (response_delivered c from id reply1 s3 x3 Hx3).
  - rewrite Hl4, lookup_insert_eq. cbn [fmap option_fmap option_map write_queue_ set_writes].
    unfold x3. cbn [write_queue_ set_writes]. by rewrite <- app_assoc.
Qed.

End requests.

(** ** Examples: a core with one connection, numbered 1 *)

Definition demo_sqe (queue : list string) (op : Operation) : sqe :=
  match op with
  | ReadOp id => mkSqe (Some op) IORING_OP_READ 5 (Some (ReadBuffer id)) read_capacity true
  | WriteOp id => mkSqe (Some op) IORING_OP_WRITE 5 (Some (WriteBuffer id))
      (default 0%Z (uint32 ∘ str_size <$> head queue)) true
  | AcceptOp => mkSqe (Some op) IORING_OP_ACCEPT 3 None 0 true
  | NotificationOp => mkSqe (Some op) IORING_OP_READ 7 (Some NotifyBuffer) 8 true
  end.

Definition demo_context (ops : list Operation) (queue : list string) : IoContext :=
  mkCtx (mkRing (demo_sqe queue <$> ops) [] [] 4) 7 7.

(** [ops] are posted; [queue] are the replies of the connection. *)
Definition demo_server (cores : nat) (ops : list Operation) (queue : list string) : Server :=
  mkServer (demo_world cores)
    (mkCore (demo_context ops queue) 3 {[ 1%Z := mkConn 5 1 queue (bool_decide (queue ≠ [])) reset ]}) 2.

Lemma demo_requests ops queue : requests (ring_ (demo_context ops queue)) = demo_sqe queue <$> ops.
Proof.
  unfold requests. cbn [ring_ demo_context sqes pending_sqes]. rewrite app_nil_r.
  induction ops as [|[] ops IH]; [done|..]; rewrite fmap_cons, filter_cons_True by done; by rewrite IH.
Qed.

Lemma demo_posted owed ops queue op :
  posted (demo_context ops queue) (Some owed) op = length (filter (λ o, o = op) (owed :: ops)).
Proof.
  unfold posted, outstanding. rewrite in_flight_requests, demo_requests, app_nil_r, filter_cons.
  assert (∀ l, length (filter (λ o, o = Some op) (user_data <$> (demo_sqe queue <$> l))) =
    length (filter (λ o, o = op) l)) as ->.
  { clear. induction l as [|o l IH]; [done|]. rewrite !fmap_cons, !filter_cons.
    assert (user_data (demo_sqe queue o) = Some o) as -> by by destruct o.
    repeat case_decide; simplify_eq; simpl; by rewrite ?IH. }
  repeat case_decide; simplify_eq; simpl; lia.
Qed.

Section examples.
#[local] Existing Instance demo_hash.
#[local] Instance demo_files : FileSystem := λ _, true.

Lemma demo_world_ok n : 0 < n → world_ok (demo_world n).
Proof.
  intros Hn. split; [by apply new_topology_wf| |done|done].
  intros c ch m Hch Hm. unfold demo_world in Hch. cbn [topo new_topology channels_] in Hch.
  apply lookup_replicate in Hch as [-> _]. by apply elem_of_nil in Hm.
Qed.

Lemma demo_server_ok c n owed ops queue :
  c < n →
  owed :: ops ≡ₚ [AcceptOp; NotificationOp; ReadOp 1] ++ (if decide (queue = []) then [] else [WriteOp 1]) →
  server_ok c (Some owed) (demo_server n ops queue).
Proof.
  intros Hc Hp. split; [apply demo_world_ok; lia|done|].
  assert (∀ op, posted (demo_context ops queue) (Some owed) op = length (filter (λ o, o = op)
    ([AcceptOp; NotificationOp; ReadOp 1] ++ (if decide (queue = []) then [] else [WriteOp 1])))) as Hpo
    by (intros op; by rewrite demo_posted, Hp).
  split; cbn [ctx core demo_server local_connections next_conn_id]; rewrite ?Hpo.
  - unfold has_slots. simpl. rewrite length_fmap. apply Permutation_length in Hp. simpl in Hp. lia.
  - simpl. lia.
  - by destruct (decide (queue = [])).
  - by destruct (decide (queue = [])).
  - intros id x [<- <-]%lookup_singleton_Some. split; [done|done| | |].
    + rewrite Hpo. by destruct (decide (queue = [])).
    + rewrite Hpo. simpl. by destruct queue.
    + simpl. by rewrite bool_decide_eq_true.
  - intros id Hid. rewrite lookup_singleton_ne by lia. rewrite !Hpo. split; [done|].
    split; destruct (decide (queue = [])); cbn [app]; rewrite !filter_cons;
      repeat (rewrite decide_False by (intros [=]; lia)); done.
  - rewrite demo_requests. intros r (op & -> & Hop)%list_elem_of_fmap.
    assert (op ∈ owed :: ops) as Hin by by right. rewrite Hp in Hin. destruct op as [id|id| |].
    + split_and!; [done..|]. cbn [local_connections]. by intros x [<- <-]%lookup_singleton_Some.
    + split_and!; [done..|]. cbn [local_connections]. intros x [<- <-]%lookup_singleton_Some. split; [done|].
      destruct queue; [|done]. rewrite decide_True in Hin by done. set_solver.
    + done.
    + done.
Qed.

Lemma command_total_witness :
  (cmd_execute GetCommand 0 7 ["GET"; "k"] (demo_world 1)).1 ≠ Undefined.
Proof.
  pose proof (command_total (demo_world 1) 0 "GET" GetCommand 7 ["GET"; "k"] demo_wf eq_refl
    ltac:(discriminate)) as Ht.
  cbv zeta in Ht. destruct (cmd_execute GetCommand 0 7 ["GET"; "k"] (demo_world 1)) as [[r|e|] w'];
    [discriminate..|]. destruct Ht. intros _ sh _. repeat split; discriminate.
Defined.

Lemma demo_owner : get_target_core (topo (demo_world 2)) "foo" = 1.
Proof. vm_compute. reflexivity. Qed.

Lemma forwarded_name_case_witness :
  execute_request 1 (request 0 7 ["get"; "foo"]) (demo_world 2) =
    (Ok ("-ERR unknown command 'get'" +:+ crlf), demo_world 2).
Proof.
  refine (proj2 (forwarded_name_case (demo_world 2) 0 1 7 "get" ["foo"] GetCommand eq_refl _)).
  vm_compute. discriminate.
Defined.

(** PING is answered to the connection that sent it, whatever follows. *)
Lemma size_line_lost_witness :
  let s := demo_server 1 [AcceptOp; NotificationOp] [] in
  handle_data 0 1 (bytes_of_string "*12") s = handle_data 0 1 ["*"%char] s.
Proof.
  intros s. refine (size_line_lost 0 1 s _ (bytes_of_string "12") (lookup_singleton_eq _ _) eq_refl _).
  vm_compute. intros Hin. repeat (apply elem_of_cons in Hin as [Hin|Hin]; [discriminate Hin|]).
  apply elem_of_nil in Hin. exact Hin.
Defined.

Lemma write_order_witness :
  let s := demo_server 1 [AcceptOp; NotificationOp; ReadOp 1] ["a"; "b"] in
  ∃ s', handle_write 1 1 s = (Ok tt, s') ∧
    local_connections (core s') = {[ 1%Z := mkConn 5 1 ["b"] true reset ]}.
Proof.
  intros s. assert (server_ok 0 (Some (WriteOp 1)) s) as Hs.
  { apply demo_server_ok; [lia|]. apply Permutation_cons_append. }
  destruct (write_order 0 _ s 1 _ Hs (lookup_singleton_eq _ _)) as (_ & _ & Hw).
  destruct (Hw eq_refl 1%Z ltac:(lia)) as (front & queue & s' & Hq & E & _ & _ & Hl).
  injection Hq as <- <-. exists s'. split; [exact E|]. rewrite Hl. vm_compute. reflexivity.
Defined.

(** With two cores, [foo] belongs to core 1. *)
Lemma demo_forwards w :
  topo_wf (topo w) → num_cores_ (topo w) = 2 →
  ∃ w' m l, execute_command 0 1 ["GET"; "foo"] w = (Ok EmptyString, w') ∧ inbox w' 1 = Some (l ++ [m]).
Proof.
  intros Hwf Hn. assert (get_target_core (topo w) (["GET"; "foo"] !!! 1) = 1) as Ho.
  { unfold get_target_core. rewrite (tw_router _ Hwf), Hn. vm_compute. reflexivity. }
  destruct (forward_request_spec w 0 1 ["GET"; "foo"] Hwf) as (ch & w' & Hch & E & Ht & _).
  rewrite Ho in Hch, Ht. exists w', (request 0 1 ["GET"; "foo"]), (queue_ ch). split.
  - rewrite <- E. change (execute_command 0 1 ["GET"; "foo"] w) with (GetCommand_execute 0 1 ["GET"; "foo"] w). unfold GetCommand_execute, if_local.
    cbn [length Nat.eqb negb]. rewrite bind_gets.
    assert (is_local (topo w) 0 (["GET"; "foo"] !!! 1) = false) as Hl by exact (f_equal (λ i, i =? 0) Ho).
    by rewrite Hl.
  - unfold inbox. rewrite Ht. simpl. by rewrite list_lookup_insert_eq by by eapply lookup_lt_Some.
Qed.

(** GET of a key of the other core, then PING: PONG comes first. *)
Lemma replies_reordered_witness :
  ∃ s3 s4, handle_message 0 (response 1 1 nil_reply) s3 = (Ok tt, s4) ∧
    write_queue_ <$> local_connections (core s4) !! 1%Z = Some ["+PONG" +:+ crlf; nil_reply].
Proof.
  assert (server_ok 0 (Some (ReadOp 1)) (demo_server 2 [AcceptOp; NotificationOp] [])) as Hs.
  { apply demo_server_ok; [lia|]. exact (Permutation_middle [AcceptOp; NotificationOp] [] (ReadOp 1)). }
  destruct (demo_forwards (demo_world 2)) as (w1 & m & l & E & _).
  { apply new_topology_wf. lia. }
  { reflexivity. }
  destruct (replies_reordered 0 (demo_server 2 [AcceptOp; NotificationOp] [])
    (demo_server 2 [AcceptOp; NotificationOp] []) 1 _ ["GET"; "foo"] ["PING"] 1 nil_reply ("+PONG" +:+ crlf)
    w1 (demo_world 2) Hs (lookup_singleton_eq _ _) eq_refl) as (s1 & s3 & s4 & _ & _ & _ & Hm & Hq).
  - by apply (bool_decide_unpack _).
  - exact E.
  - exact Hs.
  - reflexivity.
  - by apply (bool_decide_unpack _).
  - reflexivity.
  - discriminate.
  - exists s3, s4. exact (conj Hm Hq).
Defined.

End examples.
