(* ===== verification/ClientTheorems.v ===== *)
(** * What a client sees

    The way of a command from the bytes a client sends to the reply in the queue of
    its connection and the new contents of the database, as the abstract database
    says them: on the core that owns the key ([client_command]), and through the
    inbox of the owner and back ([client_remote]). *)
From S2P Require Import Prelude CxxString Double Containers Value Store HashMap Shard Router Topology Command Exec StringCommands Wire Spec Rdb Registry Replies Safety DatabaseRefinement RespParser UringStub IoContext Connection Worker Handlers DatabaseTheorems CoreInvariant RequestTheorems.
From Stdlib Require Import ZArith Ascii Lia.
From stdpp Require Import prelude gmap strings list_numbers.

Section clients.
Context `{StdHash} `{FileSystem}.

(** The reply was put at the end of the queue of connection [id], and nothing else
    happened to the connections. *)
Definition queues (id : Z) (x : Connection) (reply : string) (s s' : Server) : Prop :=
  local_connections (core s') =
    <[id := set_writes x (write_queue_ x ++ [reply]) true]> (local_connections (core s)).

(** Key [k] now holds [e], and every other key what it held. *)
Definition moves (w : World) (k : string) (e : option centry) (w' : World) : Prop :=
  abs_db w' k = e ∧ ∀ k', k' ≠ k → abs_db w' k' = abs_db w k'.

(** The exception of a table with no slot for the new key the command makes. *)
Definition overfull (w : World) (k : string) (e : option centry) {A} (r : outcome A) : Prop :=
  r = Throw (runtime_error "HashMap is full") ∧
  live (clock w (ticks w)) (abs_db w k) = None ∧ is_Some e.

(** What the abstract database says of a command that starts now. *)
Definition specified (w : World) (sp : Spec) (args : list string) : resp * option centry :=
  sp_run sp (clock w (ticks w)) (clock w (S (ticks w))) args (abs_db w (args !!! 1)).

(** The command is defined, and the elements of its reply can be counted. *)
Definition in_range (w : World) (name : string) (args : list string) : Prop :=
  cmd_pre w (get_target_core (topo w) (args !!! 1)) name args ∧
  range_ok name (fst <$> live (clock w (ticks w)) (abs_db w (args !!! 1))).

(** The command, where its key lives. *)
Lemma owner_specified w name cmd sp id args :
  topo_wf (topo w) → get_command registry name = Some cmd → find_spec name = Some sp →
  in_range w name args →
  let k := args !!! 1 in
  let r := cmd_execute cmd (get_target_core (topo w) k) id args w in
  let s := specified w sp args in
  r.1 = Ok (render s.1) ∧ moves w k s.2 r.2 ∨ overfull w k s.2 r.1.
Proof.
  intros Hwf Hc Hs [Hpre Hrange] k r s. destruct (find_spec_Some name sp Hs) as [_ Hname].
  destruct (spec_realized name cmd sp Hc Hs) as [_ Hr]. specialize (Hr w id args Hwf).
  cbv zeta in Hr. fold k r in Hr. rewrite Hname in Hr.
  destruct Hr as [Hu|[((b & Hb & _ & Hrep) & _ & Hk & Ho)|(Hl & He & Hf & _)]].
  - destruct (registered_cases name cmd Hc) as [Hn [Hin| ->]]; [by edestruct (owner_defined w name cmd id args)|].
    rewrite <- Hn in Hs. discriminate Hs.
  - left. split; [by rewrite Hb, (Hrep Hrange)|]. split; [done|]. intros k' Hk'. unfold abs_db. by rewrite Ho.
  - right. by split_and!.
Qed.

(** C2. A client that sends a command to the core that owns its key: when the read
    completes, the reply of the abstract database is at the end of the queue of its
    connection, byte for byte, the key holds what the abstract database says, every
    other key is untouched, and the core goes on; or the table has no slot for a new
    key, and the exception ends the core. *)
Theorem client_command c s id x name args sp rest :
  server_ok c (Some (ReadOp id)) s → local_connections (core s) !! id = Some x →
  parser_ x = reset →
  let l := name :: args in
  let k := l !!! 1 in
  let w := world s in
  sendable l → find_spec (to_upper name) = Some sp → get_target_core (topo w) k = c →
  in_range w (to_upper name) l →
  let data := RespParser.encode l ++ rest in
  let r := handle_read c id (Z.of_nat (length data)) data s in
  (∃ s', r = (Ok tt, s') ∧ server_ok c None s' ∧
     queues id x (render (specified w sp l).1) s s' ∧ moves w k (specified w sp l).2 (world s')) ∨
  overfull w k (specified w sp l).2 r.1.
Proof.
  intros Hs Hx Hp l k w Hl Hsp Ho Hin data r.
  destruct (spec_registered _ _ Hsp) as [cmd Hc]. pose proof Hs as [[Hwf _ _ _] _ _].
  pose proof (owner_specified w (to_upper name) cmd sp id l Hwf Hc Hsp Hin) as He.
  cbv zeta in He. fold k in He. rewrite Ho in He.
  pose proof (read_answered c s id x l rest Hs Hx Hp Hl) as Ha. cbv zeta in Ha. fold data r in Ha.
  unfold l in Ha. rewrite (execute_registered c id name args cmd Hc) in Ha. fold l w in Ha.
  destruct (cmd_execute cmd c id l w) as [[reply|ex|] w']; cbn [fst snd] in He; cycle 1.
  { right. destruct He as [[? _]|([= ->] & ? & ?)]; [done|]. by split_and!. }
  { by destruct He as [[? _]|(? & _)]. }
  destruct He as [[[= ->] Hm]|(? & _)]; [|done]. left.
  destruct Ha as (s' & E & Hs' & Hw & Hq). rewrite bool_decide_eq_false_2 in Hq by apply render_nonempty.
  exists s'. split_and!; [done|done|done|]. by rewrite Hw.
Qed.

(** *** Through another core *)

(** What the owner of the key of a forwarded command does with the request, in the
    state it finds when it comes to it. *)
Definition remote_outcome (c c' : nat) (id : Z) (sp : Spec) (l : list string) (s : Server) : Prop :=
  let w := world s in
  let k := l !!! 1 in
  let r := handle_message c' (request c id l) s in
  (∃ s' q, r = (Ok tt, s') ∧ core s' = core s ∧ moves w k (specified w sp l).2 (world s') ∧
     inbox w c = Some q ∧
     inbox (world s') c = Some (q ++ [response c' id (render (specified w sp l).1)]) ∧
     woken (world s') c) ∨
  overfull w k (specified w sp l).2 r.1.

(** The reply is refused whatever the database holds. *)
Definition refused (name : string) (sp : Spec) (l : list string) (reply : string) : Prop :=
  ∀ w, topo_wf (topo w) → in_range w name l →
  reply = render (specified w sp l).1 ∧ (specified w sp l).2 = abs_db w (l !!! 1).

Lemma owner_answers c c' id name args sp s :
  let l := name :: args in
  let w := world s in
  world_ok w → c < num_cores_ (topo w) → get_target_core (topo w) (l !!! 1) = c' →
  find_spec name = Some sp → in_range w name l → remote_outcome c c' id sp l s.
Proof.
  intros l w Hw Hc Ho Hsp Hin. destruct (spec_registered _ _ Hsp) as [cmd Hcmd].
  pose proof (remote_command s c c' id name args cmd Hw Hc Ho Hcmd) as Hm. pose proof Hw as [Hwf _ _ _].
  pose proof (owner_specified w name cmd sp id l Hwf Hcmd Hsp Hin) as He. cbv zeta in He, Hm.
  unfold remote_outcome. fold l w in Hm |- *. rewrite Ho in He.
  destruct (cmd_execute cmd c' id l w) as [[reply|ex|] w2]; cbn [fst snd] in He; cycle 1.
  - right. rewrite Hm. destruct He as [[? _]|([= ->] & ? & ?)]; [done|by split_and!].
  - by destruct He as [[? _]|(? & _)].
  - destruct He as [[[= ->] Hmv]|(? & _)]; [|done]. left.
    destruct Hm as (s2 & q & E2 & Hcore & Hsh2 & Hro2 & Hq & Hq2 & Hwk).
    exists s2, q. split_and!; [done..| |done|done|done].
    destruct Hmv as [Hk Hoth]. unfold moves, abs_db, topo_db, get_target_core in *.
    rewrite Hsh2, Hro2. done.
Qed.

Lemma refused_everywhere name cmd sp id l err :
  get_command registry name = Some cmd → find_spec name = Some sp →
  (∀ c w, cmd_execute cmd c id l w = (Ok (render err), w)) → refused name sp l (render err).
Proof.
  intros Hc Hsp E w Hwf Hin. pose proof (owner_specified w name cmd sp id l Hwf Hc Hsp Hin) as He.
  cbv zeta in He. rewrite E in He. destruct He as [[Er [Hk _]]|[Er _]]; [|discriminate Er].
  by apply (inj Ok) in Er.
Qed.

(** C3. A client whose command, its name in upper case, is for a key of another
    core.  The read either queues a refusal of the arguments at once, the one the
    abstract database gives whatever it holds, or leaves the connections and the
    database as they are, puts the command at the end of the inbox of the owner and
    wakes it.  Whenever the owner comes to the request, in whatever state its shard
    and the inboxes are then, the key comes to hold what the abstract database says
    of that state, every other key is untouched, and the reply of the abstract
    database is the new last message in the inbox of the client's core, which has
    been woken - or the owner's table has no slot for a new key, and the exception
    ends the owner without a reply.  Whenever the client's core comes to the reply, it
    puts it, byte for byte, at the end of the queue of the connection, or drops it if
    the connection is gone. *)
Theorem client_remote c c' s id x name args sp rest :
  server_ok c (Some (ReadOp id)) s → local_connections (core s) !! id = Some x →
  parser_ x = reset →
  let l := name :: args in
  let k := l !!! 1 in
  let w := world s in
  sendable l → find_spec name = Some sp → get_target_core (topo w) k = c' → c' ≠ c →
  let data := RespParser.encode l ++ rest in
  (∃ s1, handle_read c id (Z.of_nat (length data)) data s = (Ok tt, s1) ∧ server_ok c None s1 ∧
     (∀ k', abs_db (world s1) k' = abs_db w k') ∧
     ((∃ reply, queues id x reply s s1 ∧ refused name sp l reply) ∨
      local_connections (core s1) = local_connections (core s) ∧
      ∃ q, inbox w c' = Some q ∧ inbox (world s1) c' = Some (q ++ [request c id l]) ∧
        woken (world s1) c')) ∧
  (∀ owed s', server_ok c' owed s' → num_cores_ (topo (world s')) = num_cores_ (topo w) →
     in_range (world s') name l → remote_outcome c c' id sp l s') ∧
  (∀ owed reply s3, server_ok c owed s3 →
     ∃ s4, handle_message c (response c' id reply) s3 = (Ok tt, s4) ∧ server_ok c owed s4 ∧
       match local_connections (core s3) !! id with
       | Some x3 => queues id x3 reply s3 s4
       | None => s4 = s3
       end).
Proof.
  intros Hs Hx Hp l k w Hl Hsp Ho Hne data. pose proof Hs as [Hw Hlt _]. pose proof Hw as [Hwf _ _ _].
  split_and!.
  - destruct (spec_registered _ _ Hsp) as [cmd Hc]. pose proof (registered_upper _ _ Hc) as Hup.
    pose proof (read_answered c s id x l rest Hs Hx Hp Hl) as Ha. cbv zeta in Ha. fold data in Ha.
    unfold l in Ha. rewrite (execute_registered c id name args cmd) in Ha by by rewrite Hup. fold l w in Ha.
    destruct (registered_cases name cmd Hc) as [Hn [Hk| ->]]; [|rewrite <- Hn in Hsp; discriminate Hsp].
    destruct (exec_elsewhere w c cmd id l Hk (λ E, Hne (eq_trans (eq_sym Ho) E))) as [(err & _ & Ee)|Ef].
    + rewrite Ee in Ha. destruct Ha as (s1 & E & Hs1 & Hw1 & Hq).
      rewrite bool_decide_eq_false_2 in Hq by apply render_nonempty.
      exists s1. split_and!; [done|done|by rewrite Hw1|]. left. exists (render err).
      split; [done|by eapply refused_everywhere].
    + destruct (forwarded w c c' id l Hw Hlt Ho ltac:(done)) as (wf & q & E & Hsh & Hro & Hq & Hq' & Hwk).
      rewrite Ef, E in Ha. destruct Ha as (s1 & E1 & Hs1 & Hw1 & Hcs).
      rewrite bool_decide_eq_true_2 in Hcs by done. subst wf. exists s1. split_and!; [done|done| |right; split; [done|by exists q]].
      intros k'. unfold abs_db, topo_db, get_target_core. by rewrite Hsh, Hro.
  - intros owed s' [Hw' Hlt' _] Hn Hin. apply owner_answers; [done|by rewrite Hn| |done|done].
    pose proof Hw' as [Hwf' _ _ _]. rewrite <- Ho. unfold w in *. unfold get_target_core.
    by rewrite (tw_router _ Hwf'), (tw_router _ Hwf), Hn.
  - intros owed reply s3 Hs3. destruct (local_connections (core s3) !! id) as [x3|] eqn:Hx3.
    + rewrite (response_delivered c c' id _ s3 x3 Hx3).
      destruct (submit_write_ok c owed s3 id x3 reply Hs3 Hx3) as (s4 & ? & ? & _ & _ & ?). by exists s4.
    + exists s3. split_and!; [|done|done]. unfold handle_message. cbn [msg_type response].
      rewrite bind_gets. unfold response. cbn [msg_conn_id]. by rewrite Hx3.
Qed.

End clients.

(** ** Examples: GET of a missing key *)

Section examples.
#[local] Existing Instance demo_hash.
#[local] Existing Instance demo_files.

Lemma demo_absent n k : abs_db (demo_world n) k = None.
Proof.
  unfold abs_db, topo_db.
  destruct (shards_ (topo (demo_world n)) !! get_target_core (topo (demo_world n)) k) as [sh|] eqn:E; [|done].
  apply lookup_replicate in E as [-> _]. cbn [mbind option_bind].
  destruct new_shard_wf as [_ ->]. by rewrite lookup_empty.
Qed.

Lemma demo_get n sp k :
  find_spec "GET" = Some sp → specified (demo_world n) sp ["GET"; k] = (RNil, None).
Proof. intros [= <-]. unfold specified. by rewrite demo_absent. Qed.

Lemma demo_in_range n k : in_range (demo_world n) "GET" ["GET"; k].
Proof.
  split; [|by rewrite demo_absent]. intros sh _. by repeat split.
Qed.

Lemma client_command_witness :
  let s := demo_server 1 [AcceptOp; NotificationOp] [] in
  let data := RespParser.encode ["GET"; "k"] ++ [] in
  ∃ s', handle_read 0 1 (Z.of_nat (length data)) data s = (Ok tt, s') ∧
    local_connections (core s') = {[ 1%Z := mkConn 5 1 [render RNil] true reset ]}.
Proof.
  cbv zeta. destruct (find_spec "GET") as [sp|] eqn:Es; [|discriminate Es].
  assert (server_ok 0 (Some (ReadOp 1)) (demo_server 1 [AcceptOp; NotificationOp] [])) as Hs.
  { apply demo_server_ok; [lia|]. exact (Permutation_middle [AcceptOp; NotificationOp] [] (ReadOp 1)). }
  pose proof (client_command 0 _ 1 _ "GET" ["k"] sp [] Hs (lookup_singleton_eq _ _) eq_refl
    ltac:(by apply (bool_decide_unpack _)) Es (demo_target "k") (demo_in_range 1 "k")) as Hc.
  cbv zeta in Hc. change (world (demo_server 1 _ _)) with (demo_world 1) in Hc.
  rewrite (demo_get 1 sp "k" Es) in Hc.
  destruct Hc as [(s' & E & _ & Hq & _)|(_ & _ & [e He])]; [|discriminate He].
  exists s'. split; [exact E|]. rewrite Hq. vm_compute. reflexivity.
Defined.

Lemma client_remote_witness :
  let s := demo_server 2 [AcceptOp; NotificationOp] [] in
  let l := ["GET"; "foo"] in
  let data := RespParser.encode l ++ [] in
  ∃ sp, find_spec "GET" = Some sp ∧
  (∃ s1, handle_read 0 1 (Z.of_nat (length data)) data s = (Ok tt, s1) ∧
     ((∃ reply, queues 1 (mkConn 5 1 [] false reset) reply s s1 ∧ refused "GET" sp l reply) ∨
      inbox (world s1) 1 = Some [request 0 1 l])) ∧
  remote_outcome 0 1 1 sp l s.
Proof.
  cbv zeta. destruct (find_spec "GET") as [sp|] eqn:Es; [|discriminate Es]. exists sp. split; [reflexivity|].
  assert (∀ c, c < 2 → server_ok c (Some (ReadOp 1)) (demo_server 2 [AcceptOp; NotificationOp] [])) as Hs.
  { intros c Hc. apply demo_server_ok; [exact Hc|].
    exact (Permutation_middle [AcceptOp; NotificationOp] [] (ReadOp 1)). }
  destruct (client_remote 0 1 _ 1 _ "GET" ["foo"] sp [] (Hs 0 ltac:(lia)) (lookup_singleton_eq _ _) eq_refl
    ltac:(by apply (bool_decide_unpack _)) Es demo_owner ltac:(discriminate)) as ((s1 & E & _ & _ & Hr) & Ho & _).
  split.
  - exists s1. split; [exact E|]. destruct Hr as [Hr|(_ & q & Hq & Hq' & _)]; [left; exact Hr|right].
    injection Hq as <-. exact Hq'.
  - exact (Ho _ _ (Hs 1 ltac:(lia)) eq_refl (demo_in_range 2 "foo")).
Defined.

End examples.
