(* ===== verification/ServerTheorems.v ===== *)
(** * The running server, from start-up, over every interleaving

    Start-up with any environment and any dump file, the invariant of the states
    the cores can reach, and what follows from it: no lost wake-up, and no core
    runs before all can be reached.  The ring under the event loop neither loses
    nor invents requests. *)
From S2P Require Import Prelude CxxString Double Containers Value Store HashMap Shard Router Topology Command Exec StringCommands Wire Spec Rdb RdbSafety Startup Registry Replies Safety DatabaseRefinement RespParser UringStub IoContext Listener Connection Worker Handlers CoreInvariant System Sockets Linearization Runs RequestTheorems.
From Stdlib Require Import ZArith Lia.
From stdpp Require Import prelude gmap strings list_numbers relations.

Section server.
Context `{StdHash} `{FileSystem}.

(** ** Start-up *)

(** C24. Start-up, with any environment and any bytes in the dump file, gives the
    workers a well-formed database, one empty inbox per core, and no registered
    core; it fails only with the exception of the port's conversion or of a table
    the dump overfills, and is undefined only if there is a dump file. *)
Theorem startup_safe getenv hw clk fs wk :
  0 < hw → (0 < wake_limit wk)%Z →
  match main_init getenv hw clk fs wk with
  | Ok (config, w) => initial hw w ∧ read_port getenv default_config = Ok config
  | Throw e => read_port getenv default_config = Throw e ∨ e = runtime_error "HashMap is full"
  | Undefined => is_Some (fs !! rdb_filename default_config)
  end.
Proof.
  intros Hhw Hwk. pose proof (main_init_initial getenv hw clk fs wk) as Hi. unfold main_init in *.
  destruct (read_port getenv default_config) as [c|e|] eqn:Ep; [|by left|].
  - destruct (read_port_threads _ _ _ hw Ep) as [Hn Hf]. set (w0 := mkWorld _ _ _ _ _ _) in *.
    destruct (load_file_wf (rdb_filename c) w0) as (_ & _ & Hex).
    { apply new_topology_wf. rewrite Hn. done. }
    destruct (load_file (rdb_filename c) w0) as [[b|e|] w1] eqn:El.
    + split; [by eapply Hi|done].
    + right. by apply Hex.
    + unfold load_file in El. rewrite bind_gets in El. rewrite Hf in El. cbn [w0 files] in El.
      destruct (fs !! rdb_filename default_config); [done|]. discriminate El.
  - unfold read_port in Ep. repeat case_match; try done; by edestruct stoi_defined.
Qed.

(** ** Reachable states *)

(** C7. In every reachable state, whatever the interleaving of the cores' handlers:
    the database is well formed, every request in an inbox is at the owner of its
    key, and on every running core an accept and a notification read are posted,
    every live connection has exactly one read under way, a write exactly when it
    has replies to send, and a parser in order. *)
Theorem server_invariant hw st :
  0 < hw → reachable hw st →
  world_ok (s_world st) ∧
  ∀ c k h, s_cores st !! c = Some (Running k h) → core_ok None (pending_view k h) (s_next st).
Proof.
  intros Hhw Hst%reachable_ok; [|done]. split; [apply Hst|].
  intros c k h Hk. by destruct (sy_running _ Hst _ _ _ Hk).
Qed.

(** C8. In every reachable state, every request the ring of a running core holds
    asks the kernel for what its operation stands for ([asks]): accepts on the
    core's own listening socket and wake-ups from its own descriptor; reads into the
    buffer of their connection, never beyond its capacity, and writes of the whole
    front of their connection's queue, through the socket of that connection while
    it is open. *)
Theorem requests_exact hw st c k h s :
  0 < hw → reachable hw st → s_cores st !! c = Some (Running k h) →
  s ∈ requests (ring_ (ctx k)) → asks k s.
Proof.
  intros Hhw Hst%reachable_ok Hk Hs; [|done]. destruct (sy_running _ Hst _ _ _ Hk) as [_ Hko].
  exact (ko_requests _ _ _ Hko s Hs).
Qed.

(** C14. No lost wake-up: whenever a core that has not ended has a message in its
    inbox, the counter of its wake-up descriptor is positive, or the completion of
    its notification read waits to be handled. *)
Theorem no_lost_wakeup hw st c p fd :
  0 < hw → reachable hw st → s_cores st !! c = Some p → fd_of p = Some fd →
  inbox (s_world st) c = Some [] ∨
  (∃ n, eventfds (s_world st) !! fd = Some n ∧ (0 < n)%Z) ∨
  Some NotificationOp ∈ unhandled p.
Proof.
  intros Hhw Hst%reachable_ok Hp Hf; [|done].
  destruct (sy_fd _ Hst _ _ _ Hp Hf) as (Hpos & Hn & [n Hev]).
  destruct (sy_wake _ Hst _ _ _ Hp Hf) as [?|[Hw|?]]; [by left| |by right; right].
  right; left. exists n. split; [done|]. by eapply Hw.
Qed.

(** The start-up barrier: while a core runs, every core has registered, and the
    descriptor the topology holds for a core that has not ended is that core's own
    and open; no two such cores share one. *)
Theorem barrier hw st c k h :
  0 < hw → reachable hw st → s_cores st !! c = Some (Running k h) →
  (∀ c', c' < num_cores_ (topo (s_world st)) → is_Some (launched (s_cores st) !! c')) ∧
  (∀ c' p fd, s_cores st !! c' = Some p → fd_of p = Some fd →
     notify_fds_ (topo (s_world st)) !! c' = Some fd ∧ is_Some (eventfds (s_world st) !! fd) ∧
     ∀ c'' p', s_cores st !! c'' = Some p' → fd_of p' = Some fd → c'' = c').
Proof.
  intros Hhw Hst%reachable_ok Hk; [|done]. destruct (sy_running _ Hst _ _ _ Hk) as [Hall _].
  split; [intros; by apply all_started|]. intros c' p fd Hp Hf.
  destruct (sy_fd _ Hst _ _ _ Hp Hf) as (_ & ? & ?). split_and!; [done..|].
  intros c'' p' Hp' Hf'. by eapply (sy_distinct _ Hst c'' c').
Qed.

(** ** The loop *)

(** C22. One turn of a core's event loop, as [IoContext::run] composes it - submit,
    wait, handle every completion, remove them - is a run of steps of the server:
    when the turn returns, the state it leaves is reachable, and so is the state an
    exception leaves when it ends the core. *)
Theorem loop_refines hw st c k rounds data :
  0 < hw → reachable hw st → s_cores st !! c = Some (Running k None) →
  (∀ io, submit_and_wait rounds 1 (ctx k) = Some io →
     (s_next st + Z.of_nat (length (cqes (ring_ io))) ≤ 2 ^ 32 - 1)%Z) →
  match run_once c rounds data (server_of st k) with
  | (Ok _, s') =>
      let st' := put_server st c s' (Running (core s') None) in rtc step st st' ∧ reachable hw st'
  | (Throw _, s') =>
      let st' := close_fd (put_server st c s' Ended) (notify_fd_ (ctx k)) in
      rtc step st st' ∧ reachable hw st'
  | (Undefined, _) => True
  end.
Proof.
  intros Hhw Hr Hk Hn. pose proof (sy_next _ (reachable_ok hw st Hhw Hr)).
  pose proof (run_once_steps st c k rounds data Hk ltac:(lia) Hn) as Hs.
  destruct (run_once c rounds data (server_of st k)) as [[[]|ex|] s']; [| |done];
    (split; [done|]; by eapply reachable_steps).
Qed.

(** ** Progress *)

(** C15. Mail is delivered: when a core is about to wait, another has put a message in
    its inbox, and the descriptors of the requests in its ring are open, then its
    wake-up descriptor is readable, and there is a wait in which [select], as POSIX has
    it, succeeds and the notification read completes; after that step the completion
    waits to be handled with the mail still there. *)
Theorem mail_delivered hw Ω0 st Ω c k m l :
  0 < hw → serving hw Ω0 (st, Ω) → s_cores st !! c = Some (Running k None) →
  (∀ r, r ∈ requests (ring_ (ctx k)) → fd r ∈ Ω) →
  inbox (s_world st) c = Some (m :: l) →
  ∃ n rounds io st', eventfds (s_world st) !! notify_fd_ (ctx k) = Some n ∧ (0 < n)%Z ∧
    Forall (polls Ω (requests (ring_ (ctx k)))) rounds ∧ submit_and_wait rounds 1 (ctx k) = Some io ∧
    tstep (st, Ω) (st', Ω) ∧
    eventfds (s_world st') !! notify_fd_ (ctx k) = Some (wake_read (wakes (s_world st)) n) ∧
    inbox (s_world st') c = Some (m :: l) ∧
    let p' := Running (mkCore io (server_fd_ k) (local_connections k)) (Some 0) in
    s_cores st' !! c = Some p' ∧ unhandled p' = [Some NotificationOp].
Proof.
  intros Hhw Hs Hk Ho Hm. pose proof (serving_reachable _ _ _ Hs) as Hr. cbn [fst] in Hr.
  pose proof (reachable_ok hw st Hhw Hr) as Hst. pose proof (reachable_idle hw st Hhw Hr) as Hi.
  destruct (sy_fd _ Hst _ _ _ Hk eq_refl) as (Hge & Hn & [n Hev]).
  destruct (sy_running _ Hst _ _ _ Hk) as [_ Hko]. rewrite pending_view_none in Hko.
  destruct (wait_completes st c k NotificationOp 8 Hi Hk) as (rounds & io & E & Hq); [apply Hko|].
  destruct (submit_and_wait_ok _ _ _ _ E (ko_slots _ _ _ Hko)) as (_ & [= _ Hfd] & _).
  assert (0 < n)%Z as Hpos.
  { destruct (sy_wake _ Hst _ _ _ Hk eq_refl) as [Hw|[Hw|Hw]]; [congruence|by eapply Hw|].
    unfold unhandled in Hw. simpl in Hw. rewrite (Hi _ _ Hk) in Hw. by apply elem_of_nil in Hw. }
  eexists n, rounds, io, _. split_and!; [done|done| |done| | | |].
  - by apply polls_open.
  - eapply (tstep_intro _ _ (Internal c) _ _ [] []); [| |by cbn [closed]; rewrite Hk|constructor|set_solver|set_solver].
    + eapply step_wait; [done|exact E|]. right. exists n. rewrite Hfd, Hq.
      split_and!; [done..|]. apply list_elem_of_here.
    + cbn [opened s_cores]. rewrite Hk, lookup_insert_eq, (Hi _ _ Hk). cbn [ctx length]. by rewrite drop_0, Hq.
  - simpl. by rewrite lookup_insert_eq.
  - done.
  - split; [apply lookup_insert_eq|]. unfold unhandled. simpl. by rewrite drop_0, Hq.
Qed.

(** C21. No core is stuck in a state the server can reach, but for the cases named
    here.  One that has not started can register, if the kernel gives it descriptors.
    A registered one can listen, or some core has yet to register or never will,
    because the constructor of its context threw: then the barrier stays closed.  An
    idle one can be given the completion of any operation it has posted, by a wait in
    which [select] behaves as POSIX has it - unless its ring holds a request with a
    closed descriptor, on which [select] fails; the connection of that request has
    gone (provided the descriptors are as C9 has them).  One with a completion to handle handles it or ends by an exception, unless the handler's
    behaviour is undefined; one that has handled all its completions can go back to
    waiting. *)
Theorem progress hw Ω0 st Ω c :
  0 < hw → serving hw Ω0 (st, Ω) → c < num_cores_ (topo (s_world st)) → (s_next st < 2 ^ 32 - 1)%Z →
  match s_cores st !! c with
  | None => ∃ st' Ω' io, tstep (st, Ω) (st', Ω') ∧ s_cores st' !! c = Some (Registered io)
  | Some (Registered io) =>
      (∃ st' Ω' k, tstep (st, Ω) (st', Ω') ∧ s_cores st' !! c = Some (Running k None)) ∨
      (∃ c', c' < num_cores_ (topo (s_world st)) ∧
         (s_cores st !! c' = None ∨ s_cores st !! c' = Some Aborted))
  | Some (Running k None) =>
      posted (ctx k) None AcceptOp = 1 ∧ posted (ctx k) None NotificationOp = 1 ∧
      ((∃ r, r ∈ requests (ring_ (ctx k)) ∧ (fd r ∉ Ω) ∧ (closes_once st → stale k r)) ∨
       ∀ op n, posted (ctx k) None op = 1 → (∀ fd, fd ∈ accepted [mkCqe (Some op) n] → fd ∉ Ω) →
         ∃ rounds io st' Ω', Forall (polls Ω (requests (ring_ (ctx k)))) rounds ∧
           submit_and_wait rounds 1 (ctx k) = Some io ∧ cqes (ring_ io) = [mkCqe (Some op) n] ∧
           tstep (st, Ω) (st', Ω') ∧
           s_cores st' !! c = Some (Running (mkCore io (server_fd_ k) (local_connections k)) (Some 0)))
  | Some (Running k (Some i)) =>
      match cqes (ring_ (ctx k)) !! i with
      | Some e => ∀ data, (dispatch c e data (server_of st k)).1 = Undefined ∨
          ∃ st', lstep st (Completed c e data) st' ∨ ∃ ex, lstep st (Failed c e data ex) st'
      | None => ∃ st' k', lstep st (Internal c) st' ∧ s_cores st' !! c = Some (Running k' None)
      end
  | Some Ended | Some Aborted => True
  end.
Proof.
  intros Hhw Hs Hc Hn. pose proof (serving_reachable _ _ _ Hs) as Hr. cbn [fst] in Hr.
  pose proof (reachable_ok hw st Hhw Hr) as Hst.
  destruct (s_cores st !! c) as [[io|k [i|]| |]|] eqn:Ek; [| | |done|done|].
  - destruct (all_registered (topo (s_world st))) eqn:Ea; [left|right].
    + destruct (can_listen st Ω c io Hst Ek Ea) as (st' & Ω' & k & ? & Hcs & _). exists st', Ω', k.
      split; [done|]. rewrite Hcs. apply lookup_insert_eq.
    + destruct (barrier_closed st Hst Ea) as (c' & ? & Hn'). exists c'. split; [done|by apply launched_None].
  - destruct (cqes (ring_ (ctx k)) !! i) as [e|] eqn:Ee.
    + intros data. destruct (dispatch c e data (server_of st k)) as [[[]|ex|] s] eqn:Ed; [| |by left].
      * right. eexists. left. by eapply step_complete.
      * right. eexists. right. eexists. by eapply step_throw.
    + eexists _, _. split; [by eapply step_advance|]. apply lookup_insert_eq.
  - destruct (sy_running _ Hst _ _ _ Ek) as [_ Hko]. rewrite pending_view_none in Hko.
    split_and!; [apply Hko..|].
    destruct (decide (Forall (λ r, fd r ∈ Ω) (requests (ring_ (ctx k))))) as [Ho|Ho].
    + right. intros op n Hp HΩ.
      destruct (wait_turn st Ω c k op n Hst (reachable_idle hw st Hhw Hr) Ek Hp HΩ) as (rounds & io & E & Ht & Hq).
      eexists rounds, io, _, _. split_and!; [|done..|apply lookup_insert_eq].
      apply polls_open. by apply Forall_forall.
    + left. apply not_Forall_Exists, Exists_exists in Ho as (r & Hin & Hcl); [|apply _]. exists r.
      destruct (request_open _ _ _ _ _ _ Hst (serving_table _ _ _ Hhw Hs) Ek Hin) as [?|?]; [by split_and!|done].
  - destruct (can_register st Ω c Hst Hc Ek) as (st' & Ω' & io & ? & Hcs & _). exists st', Ω', io.
    split; [done|]. rewrite Hcs. apply lookup_insert_eq.
Qed.

End server.

(** ** The ring *)

(** C28. Requests are neither lost nor invented.  On a ring with a slot, posting an
    operation always succeeds and adds exactly it to those under way; waiting for
    [n] completions keeps those under way the same and only appends completions,
    [n] at least in all unless [select] failed with an error other than [EINTR]. *)
Theorem ring_conserves g prep op rounds n io :
  has_slots io → preps g prep →
  (∃ io', submit_op prep op io = (Ok tt, io') ∧ has_slots io' ∧
     outstanding io' ≡ₚ Some op :: outstanding io ∧ cqes (ring_ io') = cqes (ring_ io)) ∧
  ∀ io', submit_and_wait rounds n io = Some io' →
    outstanding io' ≡ₚ outstanding io ∧ (∃ l, cqes (ring_ io') = cqes (ring_ io) ++ l) ∧
    (n ≤ length (cqes (ring_ io')) ∨ ∃ rd e, rd ∈ rounds ∧ select_error rd = Some e ∧ e ≠ EINTR).
Proof.
  intros Hs Hp. split.
  - destruct (submit_op_spec g prep op io Hs Hp) as (io' & s0 & ? & ? & ? & ? & _). by exists io'.
  - intros io' E. destruct (submit_and_wait_ok rounds n io io' E Hs) as (_ & _ & Ho & _ & Hl).
    split_and!; [done..|]. unfold submit_and_wait, io_uring_submit_and_wait in E.
    apply fmap_Some in E as (r & E & ->). by apply wait_loop_enough in E.
Qed.

(** ** Examples: one core, started *)

Section examples.
#[local] Existing Instance demo_hash.
#[local] Existing Instance demo_files.

Lemma startup_safe_witness :
  ∃ w, main_init (λ _, None) 1 (λ n, Z.of_nat n) ∅ EventFd = Ok (default_config, w) ∧ initial 1 w.
Proof.
  pose proof (startup_safe (λ _, None) 1 (λ n, Z.of_nat n) ∅ EventFd ltac:(lia) eq_refl) as Hs.
  destruct (main_init (λ _, None) 1 (λ n, Z.of_nat n) ∅ EventFd) as [[config w]|e|] eqn:E.
  - exists w. destruct Hs as [Hs Hc]. injection Hc as <-. exact (conj eq_refl Hs).
  - destruct Hs as [Hs| ->]; [discriminate Hs|discriminate E].
  - destruct Hs as [x Hx]. rewrite lookup_empty in Hx. discriminate Hx.
Defined.

(** A server with [n] cores, all listening; only the standard streams were open. *)
Definition demo_table : gset Z := {[0; 1; 2]}%Z.

Lemma demo_started n :
  0 < n →
  ∃ w st Ω, reachable n (mkSys w 1 ∅) ∧ rtc tstep (mkSys w 1 ∅, demo_table) (st, Ω) ∧
    serving n demo_table (st, Ω) ∧ s_next st = 1%Z ∧ num_cores_ (topo (s_world st)) = n ∧
    ∀ c, c < n → ∃ k, s_cores st !! c = Some (Running k None) ∧ fresh_core k.
Proof.
  intros Hn. destruct (main_init (λ _, None) n (λ n, Z.of_nat n) ∅ EventFd) as [[config w]|e|] eqn:E;
    [|discriminate E..].
  destruct (server_starts n w demo_table) as (st & Ω & Hr & _ & Hnx & Hc & Hk).
  { by eapply main_init_initial; [| |exact E]. }
  exists w, st, Ω. split_and!; [|done| |done..]; eexists _, _, _, EventFd, _, _; by split_and!.
Qed.

Lemma none_ended st :
  sys_ok st → (∀ c, c < num_cores_ (topo (s_world st)) → ∃ k, s_cores st !! c = Some (Running k None)) →
  ∀ c, s_cores st !! c ≠ Some Ended.
Proof.
  intros Hst Hr c Hc. destruct (Hr c) as [k ?]; [by apply (sy_dom _ Hst); eauto|]. congruence.
Qed.

(** Two cores, and one client, of core 0. *)
Lemma demo_client :
  ∃ w st Ω k0 k1 fd, reachable 2 (mkSys w 1 ∅) ∧ rtc tstep (mkSys w 1 ∅, demo_table) (st, Ω) ∧
    serving 2 demo_table (st, Ω) ∧ s_next st = 2%Z ∧ num_cores_ (topo (s_world st)) = 2 ∧
    s_cores st !! 0 = Some (Running k0 None) ∧ s_cores st !! 1 = Some (Running k1 None) ∧
    local_connections k0 !! 1%Z = Some (mkConn fd 1 [] false reset) ∧ fresh_core k1.
Proof.
  destruct (demo_started 2) as (w & st & Ω & Hw & Ht & Hs & Hn & Hc & Hk); [lia|].
  pose proof (serving_reachable _ _ _ Hs) as Hr. cbn [fst] in Hr.
  destruct (Hk 0) as (k0 & Hk0 & _), (Hk 1) as (k1 & Hk1 & Hf1); [lia..|].
  destruct (free_fd Ω) as (fd & Hfd & HΩ).
  destruct (accept_turn st Ω 0 k0 fd) as (st1 & k0' & Ht1 & Hcs1 & Hw1 & Hn1 & Hl1);
    [by eapply (reachable_ok 2); [lia|]|by eapply (reachable_idle 2); [lia|]|done|lia|done|done|].
  exists w, st1, (Ω ∪ {[fd]}), k0', k1, fd. split_and!; [done|by etrans|by eapply serving_steps|lia| | | | |done].
  - by rewrite Hw1.
  - by rewrite Hcs1, lookup_insert_eq.
  - by rewrite Hcs1, lookup_insert_ne.
  - by rewrite Hl1, Hn, lookup_insert_eq.
Qed.

Lemma demo_running :
  ∃ st k, reachable 1 st ∧ s_cores st !! 0 = Some (Running k None) ∧ s_next st = 1%Z ∧
    num_cores_ (topo (s_world st)) = 1.
Proof.
  destruct (demo_started 1) as (w & st & Ω & _ & _ & Hr%serving_reachable & Hn & Hc & Hk); [lia|].
  destruct (Hk 0) as (k & ? & _); [lia|]. eauto 10.
Qed.

(** A client of core 0 asks for [foo]: core 1 waits, with the request in its
    inbox. *)
Lemma demo_mail :
  ∃ st Ω k m l, serving 2 demo_table (st, Ω) ∧ s_cores st !! 1 = Some (Running k None) ∧
    inbox (s_world st) 1 = Some (m :: l) ∧ fresh_core k.
Proof.
  destruct demo_client as (w & st1 & Ω & k0 & k1 & fd & _ & _ & Hs1 & Hn1 & Hc & Hk0 & Hk1 & Hx & Hf1).
  pose proof (serving_reachable _ _ _ Hs1) as Hr. cbn [fst] in Hr. set (x := mkConn fd 1 [] false reset) in *.
  pose proof (reachable_ok 2 st1 ltac:(lia) Hr) as Hst1. pose proof (reachable_idle 2 st1 ltac:(lia) Hr) as Hi1.
  destruct (sy_running _ Hst1 _ _ _ Hk0) as [_ Hko1]. rewrite pending_view_none in Hko1.
  set (data := RespParser.encode ["GET"; "foo"] ++ []).
  destruct (turn st1 Ω 0 k0 (ReadOp 1) (Z.of_nat (length data)) data
    (λ s, ∃ m l, inbox (world s) 1 = Some (l ++ [m])) Hst1 Hi1 Hk0)
    as (st2 & k0' & Hr2 & Hcs2 & m & l & Hm).
  { by apply (ko_conns _ _ _ Hko1 1 x). }
  { lia. }
  { by intros fd' ?%elem_of_nil. }
  { intros s Hs Hw _ Hl _. destruct (demo_forwards (world s)) as (w' & m & l & E & Hm).
    { apply Hs. }
    { by rewrite Hw. }
    pose proof (read_answered 0 s 1 x ["GET"; "foo"] [] Hs ltac:(by rewrite Hl) eq_refl
      ltac:(by apply (bool_decide_unpack _))) as Ha.
    cbv zeta in Ha. rewrite E in Ha. destruct Ha as (s' & E' & _ & Hw' & _).
    exists s'. split; [exact E'|]. rewrite Hw'. eauto. }
  pose proof (serving_steps _ _ _ _ Hs1 Hr2) as Hs2.
  assert (s_cores st2 !! 1 = Some (Running k1 None)) as Hk1' by by rewrite Hcs2, lookup_insert_ne.
  destruct l as [|m' l]; [eexists st2, _, k1, m, []|eexists st2, _, k1, m', (l ++ [m])]; by split_and!.
Qed.

Lemma mail_delivered_witness :
  ∃ st Ω st' k, serving 2 demo_table (st, Ω) ∧ tstep (st, Ω) (st', Ω) ∧
    s_cores st' !! 1 = Some (Running k (Some 0)) ∧ unhandled (Running k (Some 0)) = [Some NotificationOp].
Proof.
  destruct demo_mail as (st & Ω & k & m & l & Hs & Hk & Hm & Hf).
  assert (∀ r, r ∈ requests (ring_ (ctx k)) → fd r ∈ Ω) as Ho.
  { intros r Hr. pose proof (serving_reachable _ _ _ Hs) as Hst%reachable_ok; [|lia].
    destruct (request_open _ _ _ _ _ _ Hst (serving_table 2 _ _ ltac:(lia) Hs) Hk Hr) as [Hst'|Ho]; [|exact Ho].
    destruct (fresh_not_stale k r Hf Hr Hst'). }
  destruct (mail_delivered 2 demo_table st Ω 1 k m l ltac:(lia) Hs Hk Ho Hm)
    as (n & rounds & io & st' & _ & _ & _ & _ & Ht & _ & _ & Hk' & Hu).
  eexists st, Ω, st', _. exact (conj Hs (conj Ht (conj Hk' Hu))).
Defined.

Lemma progress_witness :
  ∃ st Ω st' Ω' k, serving 1 demo_table (st, Ω) ∧ tstep (st, Ω) (st', Ω') ∧
    s_cores st' !! 0 = Some (Running k (Some 0)).
Proof.
  destruct (demo_started 1) as (w & st & Ω & _ & _ & Hs & Hn & Hc & Hr); [lia|].
  destruct (Hr 0) as (k & Hk & Hf); [lia|].
  pose proof (progress 1 demo_table st Ω 0 ltac:(lia) Hs ltac:(lia) ltac:(lia)) as Hp. rewrite Hk in Hp.
  destruct Hp as (_ & Ha & [(r & Hin & _ & Hst)|Hp]).
  { exfalso. apply (fresh_not_stale k r Hf Hin), Hst. left. apply none_ended.
    - exact (reachable_ok 1 st ltac:(lia) (serving_reachable _ _ _ Hs)).
    - intros c Hlt. destruct (Hr c) as (k' & Hk' & _); [lia|]. exists k'. exact Hk'. }
  destruct (Hp NotificationOp 8%Z Ha) as (_ & io & st' & Ω' & _ & _ & _ & Ht & Hk').
  { by intros fd ?%elem_of_nil. }
  eexists st, Ω, st', Ω', _. exact (conj Hs (conj Ht Hk')).
Defined.

(** A turn in which a client is accepted on descriptor 5. *)
Lemma loop_refines_witness :
  ∃ st k rounds io, reachable 1 st ∧ submit_and_wait rounds 1 (ctx k) = Some io ∧
    cqes (ring_ io) = [mkCqe (Some AcceptOp) 5%Z] ∧
    match run_once 0 rounds (λ _, []) (server_of st k) with
    | (Ok _, s') => reachable 1 (put_server st 0 s' (Running (core s') None))
    | (Throw _, s') => reachable 1 (close_fd (put_server st 0 s' Ended) (notify_fd_ (ctx k)))
    | (Undefined, _) => True
    end.
Proof.
  destruct demo_running as (st & k & Hr & Hk & Hn & _).
  destruct (sy_running _ (reachable_ok 1 st ltac:(lia) Hr) _ _ _ Hk) as [_ Hko]. rewrite pending_view_none in Hko.
  destruct (wait_completes st 0 k AcceptOp 5 (reachable_idle 1 st ltac:(lia) Hr) Hk (ko_accept _ _ _ Hko))
    as (rounds & io & E & Hq).
  exists st, k, rounds, io. split; [exact Hr|]. split; [exact E|]. split; [exact Hq|].
  pose proof (loop_refines 1 st 0 k rounds (λ _, []) ltac:(lia) Hr Hk) as Hl.
  destruct (run_once 0 rounds (λ _, []) (server_of st k)) as [[[]|ex|] s']; [| |exact I]; apply Hl;
    intros io' E'; rewrite E in E'; injection E' as <-; rewrite Hq, Hn; simpl; lia.
Defined.

Lemma requests_exact_witness :
  ∃ st k s, reachable 1 st ∧ s_cores st !! 0 = Some (Running k None) ∧
    s ∈ requests (ring_ (ctx k)) ∧ asks k s.
Proof.
  destruct demo_running as (st & k & Hr & Hk & _). pose proof (reachable_ok 1 st ltac:(lia) Hr) as Hst.
  destruct (sy_running _ Hst _ _ _ Hk) as [_ Hko]. rewrite pending_view_none in Hko.
  destruct (posted_request (ctx k) AcceptOp (ko_accept _ _ _ Hko)) as (s & Hs & _).
  { exact (reachable_idle 1 st ltac:(lia) Hr 0 k Hk). }
  exists st, k, s. exact (conj Hr (conj Hk (conj Hs (requests_exact 1 st 0 k None s ltac:(lia) Hr Hk Hs)))).
Defined.

Lemma server_invariant_witness :
  ∃ st k, reachable 1 st ∧ s_cores st !! 0 = Some (Running k None) ∧
    world_ok (s_world st) ∧ core_ok None (pending_view k None) (s_next st).
Proof.
  destruct demo_running as (st & k & Hr & Hk & _). exists st, k.
  destruct (server_invariant 1 st ltac:(lia) Hr) as [Hw Hc].
  exact (conj Hr (conj Hk (conj Hw (Hc 0 k None Hk)))).
Defined.

Lemma no_lost_wakeup_witness :
  ∃ st k, reachable 1 st ∧ s_cores st !! 0 = Some (Running k None) ∧
    (inbox (s_world st) 0 = Some [] ∨
     (∃ n, eventfds (s_world st) !! notify_fd_ (ctx k) = Some n ∧ (0 < n)%Z) ∨
     Some NotificationOp ∈ unhandled (Running k None)).
Proof.
  destruct demo_running as (st & k & Hr & Hk & _). exists st, k.
  exact (conj Hr (conj Hk (no_lost_wakeup 1 st 0 _ _ ltac:(lia) Hr Hk eq_refl))).
Defined.

Lemma barrier_witness :
  ∃ st k, reachable 1 st ∧ s_cores st !! 0 = Some (Running k None) ∧
    notify_fds_ (topo (s_world st)) !! 0 = Some (notify_fd_ (ctx k)).
Proof.
  destruct demo_running as (st & k & Hr & Hk & _). exists st, k.
  destruct (barrier 1 st 0 k None ltac:(lia) Hr Hk) as [_ Hf].
  exact (conj Hr (conj Hk (proj1 (Hf 0 _ _ Hk eq_refl)))).
Defined.

Lemma ring_conserves_witness :
  let io := mkCtx (io_uring_queue_init 1) 7 7 in
  ∃ io', submit_op (λ r i, io_uring_prep_accept r i 3 None) AcceptOp io = (Ok tt, io') ∧
    outstanding io' ≡ₚ [Some AcceptOp].
Proof.
  intros io. destruct (ring_conserves _ (λ r i, io_uring_prep_accept r i 3 None) AcceptOp [] 1 io
    ltac:(unfold has_slots; simpl; lia) (preps_accept 3 None)) as [(io' & E & _ & Ho & _) _].
  exists io'. exact (conj E Ho).
Defined.

End examples.
