(* ===== verification/ResourceTheorems.v ===== *)
(** * What the server owes and what it owns

    What the cores do is a history of one sequential database; every command of a
    client is answered once, with its own reply; every descriptor the server opened
    has one owner, and is closed when its owner goes - unless an exception ends a
    core, which forgets its clients.  A client that leaves while a reply is being
    written leaves a request behind, with consequences for the other clients. *)
From S2P Require Import Prelude CxxString Double Containers Value Store HashMap Shard Router Topology Command Exec Rdb Startup Registry Replies Safety RespParser UringStub IoContext Listener Connection Worker Handlers CoreInvariant System Sockets Linearization Runs Accounting RequestTheorems ServerTheorems.
From Stdlib Require Import ZArith Ascii Lia.
From stdpp Require Import prelude gmap strings list_numbers relations.

Section resources.
Context `{StdHash} `{FileSystem}.

(** ** Replies *)

Lemma nothing_asked c id st : sys_ok st → s_cores st = ∅ → asking c id (s_world st) = [].
Proof.
  intros Hst He. unfold asking.
  assert (∀ l, Forall (λ i, i < num_cores_ (topo (s_world st))) l →
    (l ≫= λ i, asked c id (default [] (inbox (s_world st) i))) = []) as Hl.
  { induction 1 as [|i l Hi _ IH]; [done|]. rewrite bind_cons, IH.
    rewrite (sy_quiet _ Hst i Hi) by (apply launched_None; left; rewrite He; apply lookup_empty). done. }
  apply Hl, Forall_forall. intros i Hi%elem_of_seq. lia.
Qed.

Lemma nothing_pending c id st : sys_ok st → s_cores st = ∅ → pending_in c id st = [].
Proof.
  intros Hst He. unfold pending_in, queued_in, coming. rewrite He, lookup_empty, app_nil_r.
  destruct (decide (c < num_cores_ (topo (s_world st)))) as [Hc|Hc].
  - rewrite (sy_quiet _ Hst c Hc) by (apply launched_None; left; rewrite He; apply lookup_empty). done.
  - unfold inbox. rewrite lookup_ge_None_2; [done|]. destruct (sy_world _ Hst) as [Hwf _ _ _].
    rewrite (tw_channels _ Hwf). lia.
Qed.

(** From the start of the server, the books of a connection. *)
Lemma books_asking c id st tr st' :
  sys_ok st → s_cores st = ∅ → lrun st tr st' →
  ∃ lost, executed c id (history tr) ++ asking c id (s_world st') ++ lost ≡ₚ run_received c id tr ∧
    (Forall (λ p, ¬ failed p.2) tr → lost = []).
Proof.
  intros Hst Hnone Hr. destruct (run_asking c id st tr st' Hst Hr) as (lost & Hl & Hf).
  rewrite (nothing_asked c id st Hst Hnone) in Hl. exists lost. split; [|done].
  etrans; [|exact Hl]. solve_Permutation.
Qed.

Lemma books_pending c id st tr st' k h x :
  sys_ok st → s_cores st = ∅ → lrun st tr st' →
  s_cores st' !! c = Some (Running k h) → local_connections k !! id = Some x →
  run_written c id tr ++ write_queue_ x ++ coming c id (s_world st') ≡ₚ replies_of c id (history tr).
Proof.
  intros Hst Hnone Hr Hk Hx. pose proof (nothing_pending c id st Hst Hnone) as Hz.
  pose proof (run_pending c id st tr st' Hst Hr) as Hp. rewrite Hz in Hp.
  unfold pending_in, queued_in, queued in Hp. rewrite Hk, Hx in Hp.
  rewrite (Permutation_app_comm (write_queue_ x)). apply Hp; [exists k, h; split; [done|by eexists]|right].
  split; [by apply nothing_asked|done].
Qed.

(** C1. The server is linearizable: along any run from its start, whatever the
    interleaving of its cores, what the cores did is a history of one sequential
    database.  Every step does, in order, what its core was given - all of it, or, if
    an exception ends the core, a first part; one after the other these events are
    commands of the abstract database, each with the reply and the new contents it
    specifies at that moment, and nothing else changes a key.  For every connection,
    the commands executed and those under way are commands read from it, each once,
    and all of them if no core ended; and as long as it is there, the replies written
    to it, in its queue and on their way to it are exactly the replies of its
    commands in the history.  As this holds at every moment of a run, a command takes
    effect after it was read and before its reply is written. *)
Theorem linearizable hw st tr st' :
  0 < hw → reachable hw st → s_cores st = ∅ → lrun st tr st' →
  Forall (λ p, accounts (step_tasks p.1 p.2) (step_result p.2) (step_events p.1 p.2)) tr ∧
  effects (s_world st) (history tr) (s_world st') ∧
  ∀ c id,
    (∃ lost, executed c id (history tr) ++ asking c id (s_world st') ++ lost ≡ₚ run_received c id tr ∧
       (Forall (λ p, ¬ failed p.2) tr → lost = [])) ∧
    ∀ k h x, s_cores st' !! c = Some (Running k h) → local_connections k !! id = Some x →
      run_written c id tr ++ write_queue_ x ++ coming c id (s_world st') ≡ₚ replies_of c id (history tr).
Proof.
  intros Hhw Hst%reachable_ok Hnone Hr; [|done]. destruct (run_sequential st tr st' Hst Hr) as [Ha He].
  split_and!; [done..|]. intros c id. split; [by eapply books_asking|]. intros k h x Hk Hx.
  by eapply books_pending.
Qed.

(** C4. Every command is answered once.  Along any run from the start of the server,
    for every connection that is still there at the end: the replies whose write has
    completed, those in its write queue and its commands and replies under way
    between cores are together never more than the commands read from it, and
    exactly as many when no handler ended by an exception.  So no connection gets
    more replies than it has sent commands, and no reply is lost, whatever the
    interleaving of the cores. *)
Theorem exactly_once hw st tr st' c k h id x :
  0 < hw → reachable hw st → s_cores st = ∅ → lrun st tr st' →
  s_cores st' !! c = Some (Running k h) → local_connections k !! id = Some x →
  let due := length (write_queue_ x) + length (asking c id (s_world st')) +
    length (coming c id (s_world st')) in
  let replies := length (run_written c id tr) in
  let commands := length (run_received c id tr) in
  replies + due ≤ commands ∧ (Forall (λ p, ¬ failed p.2) tr → replies + due = commands).
Proof.
  intros Hhw Hst%reachable_ok Hnone Hr Hk Hx due replies commands; [|done].
  destruct (books_asking c id st tr st' Hst Hnone Hr) as (lost & Hl & Hlost).
  pose proof (books_pending c id st tr st' k h x Hst Hnone Hr Hk Hx) as Hp.
  apply Permutation_length in Hl, Hp. rewrite !length_app in Hl, Hp.
  destruct (replies_executed c id (history tr)) as [Hle Heq].
  split; [unfold due, replies, commands; lia|]. intros Hf. rewrite (Hlost Hf) in Hl. simpl in Hl.
  rewrite Heq in Hp; [unfold due, replies, commands; lia|].
  destruct (run_sequential st tr st' Hst Hr) as [Ha _]. by apply unfailed_history.
Qed.

(** ** Descriptors *)

(** Two connections with one descriptor are the same connection. *)
Lemma values_distinct (m : gmap Z Z) i j v :
  NoDup (map_to_list m).*2 → m !! i = Some v → m !! j = Some v → i = j.
Proof.
  intros Hnd Hi Hj. destruct (decide (i = j)) as [|Hne]; [done|]. exfalso.
  rewrite <- (map_to_list_delete _ _ _ Hi) in Hnd. apply NoDup_cons in Hnd as [Hv _]. apply Hv.
  apply list_elem_of_fmap. exists (j, v). split; [done|]. apply elem_of_map_to_list.
  by rewrite lookup_delete_ne.
Qed.

Lemma connections_distinct st c c' k k' h h' id id' x x' :
  NoDup (owned st) → s_cores st !! c = Some (Running k h) → s_cores st !! c' = Some (Running k' h') →
  local_connections k !! id = Some x → local_connections k' !! id' = Some x' → fd_ x = fd_ x' →
  c = c' ∧ id = id'.
Proof.
  intros Hnd Hk Hk' Hx Hx' Hf. unfold owned in Hnd. rewrite (owned_split _ c), Hk in Hnd.
  cbn [from_option] in Hnd. apply NoDup_app in Hnd as (Hp & Hdis & _).
  destruct (decide (c = c')) as [<-|Hne].
  - rewrite Hk in Hk'. injection Hk' as <- <-. split; [done|].
    cbn [phase_fds] in Hp. apply NoDup_app in Hp as (_ & _ & Hp).
    apply NoDup_cons in Hp as [_ Hp]. apply NoDup_app in Hp as (Hp & _ & _).
    apply (values_distinct _ _ _ (fd_ x) Hp); unfold conn_fds; rewrite lookup_fmap; [by rewrite Hx|].
    rewrite Hx'. simpl. by rewrite Hf.
  - exfalso. apply (Hdis (fd_ x)).
    + destruct (conn_owned k h id x Hx) as [l ->]. set_solver.
    + rewrite (owned_split _ c'), lookup_delete_ne, Hk' by done. cbn [from_option].
      rewrite elem_of_app. left. destruct (conn_owned k' h' id' x' Hx') as [l ->]. rewrite Hf. set_solver.
Qed.

(** C9. Descriptors are owned once and do not leak.  In every state the server can
    reach with the in-tree ring, on a kernel that opens descriptors that were not
    open, as long as no core has ended - or where wake-ups are pipes: on Linux the
    destructor of an ended core closes its event descriptor twice, and the second
    close can hit a descriptor that another core has been given in between - the
    wake-up descriptors, listening sockets, connections and accepted clients of all
    cores have pairwise different descriptors, all of them open and none of them open
    before the start; as long as no core has ended, they are all the descriptors the
    server has open; and no two connections, of whatever cores, share one. *)
Theorem descriptors_exact hw Ω0 st Ω :
  0 < hw → serving hw Ω0 (st, Ω) →
  closes_once st →
  NoDup (owned st) ∧ (∀ fd, fd ∈ owned st → (0 ≤ fd)%Z ∧ fd ∈ Ω ∧ fd ∉ Ω0) ∧
  ((∀ c, s_cores st !! c ≠ Some Ended) → ∀ fd, fd ∈ Ω ↔ fd ∈ Ω0 ∨ fd ∈ owned st) ∧
  (∀ c c' k k' h h' id id' x x',
     s_cores st !! c = Some (Running k h) → s_cores st !! c' = Some (Running k' h') →
     local_connections k !! id = Some x → local_connections k' !! id' = Some x' → fd_ x = fd_ x' →
     c = c' ∧ id = id').
Proof.
  intros Hhw Hs _. destruct (serving_table hw Ω0 _ Hhw Hs) as [Hd Hn Ho Hk He]. cbn [fst snd] in *.
  split_and!; [done| | |].
  - intros fd Hfd. destruct (Ho fd Hfd). auto.
  - intros Hne fd. split; [by apply He|]. intros [?|?]; [by apply Hk|by apply Ho].
  - intros c c' k k' h h' id id' x x'. by apply connections_distinct.
Qed.

(** ** A client that leaves *)

(** The socket of a connection is open. *)
Lemma conn_open hw Ω0 st Ω c k h id x :
  0 < hw → serving hw Ω0 (st, Ω) → s_cores st !! c = Some (Running k h) →
  local_connections k !! id = Some x → (0 ≤ fd_ x)%Z ∧ fd_ x ∈ Ω.
Proof.
  intros Hhw Hs Hk Hx. destruct (serving_table hw Ω0 _ Hhw Hs) as [_ Hn Ho _ _]. cbn [fst snd] in *.
  assert (fd_ x ∈ owned st) as Hin.
  { unfold owned. rewrite (owned_split _ c), Hk. cbn [from_option]. rewrite elem_of_app. left.
    destruct (conn_owned k h id x Hx) as [l ->]. set_solver. }
  split; [by apply Hn|by apply Ho].
Qed.

(** The read that reports that the client has gone. *)
Lemma leave_turn hw Ω0 st Ω c k id x :
  0 < hw → serving hw Ω0 (st, Ω) → s_cores st !! c = Some (Running k None) →
  local_connections k !! id = Some x → is_writing_ x = true → (s_next st < 2 ^ 32 - 1)%Z →
  ∃ st' k' r, rtc tstep (st, Ω) (st', Ω ∖ {[fd_ x]}) ∧ s_cores st' = <[c := Running k' None]> (s_cores st) ∧
    s_next st' = s_next st ∧ local_connections k' = delete id (local_connections k) ∧
    r ∈ requests (ring_ (ctx k')) ∧ user_data r = Some (WriteOp id) ∧ fd r = fd_ x ∧
    addr r = Some (WriteBuffer id).
Proof.
  intros Hhw Hs Hk Hx Hw Hn. pose proof (serving_reachable _ _ _ Hs) as Hr. cbn [fst] in Hr.
  pose proof (reachable_ok hw st Hhw Hr) as Hst. pose proof (reachable_idle hw st Hhw Hr) as Hi.
  destruct (sy_running _ Hst _ _ _ Hk) as [_ Hko]. rewrite pending_view_none in Hko.
  destruct (conn_open hw Ω0 st Ω c k None id x Hhw Hs Hk Hx) as [Hfd _].
  destruct (turn st Ω c k (ReadOp id) 0 [] (λ s, next_conn_id s = s_next st ∧
    local_connections (core s) = delete id (local_connections k) ∧
    ∃ r, r ∈ requests (ring_ (ctx (core s))) ∧ user_data r = Some (WriteOp id) ∧ fd r = fd_ x ∧
      addr r = Some (WriteBuffer id)) Hst Hi Hk) as (st' & k' & Ht & Hcs & Hnx & Hl & r & HQ);
    [by apply (ko_conns _ _ _ Hko id x)|done|by intros fd ?%elem_of_nil| |].
  { intros s Hso _ Hnx Hl Hq. rewrite <- Hl in Hx. pose proof Hso as [_ _ Hks].
    destruct (ko_conns _ _ _ Hks id x Hx) as [_ _ _ Hcw _].
    rewrite Hw, posted_none, decide_False, Nat.add_0_r in Hcw by done.
    destruct (posted_request (ctx (core s)) (WriteOp id) Hcw Hq) as (r & Hin & Hd).
    pose proof (ko_requests _ _ _ Hks r Hin) as Ha. unfold asks in Ha. rewrite Hd in Ha.
    destruct Ha as (_ & Ha & Hf). destruct (Hf x Hx) as [Hf' _].
    eexists. split; [completion; unfold handle_read; by erewrite bind_ok by by apply this_ok|].
    simpl. rewrite Hl. split_and!; [done..|]. exists r. by split_and!. }
  exists st', k', r. split; [|by destruct HQ as (? & ? & ? & ?); split_and!].
  unfold table_after in Ht. revert Ht. unfold accepted, closed_by. simpl. rewrite Hx. simpl.
  unfold Connection_destructor. rewrite (proj2 (Z.leb_le _ _)) by done.
  replace ((Ω ∪ ∅) ∖ list_to_set [fd_ x]) with (Ω ∖ {[fd_ x]}) by set_solver. done.
Qed.

(** C33. A request that outlives its connection.  When a client leaves while a reply is
    being written, the write stays in the ring of its core with the closed
    descriptor and the address of the freed buffer.  The completion of that write
    uses the deleted connection, which is undefined; and the kernel may give the
    number to the next client of another core, so that the write - the old client's
    reply, read from freed memory - goes to that client. *)
Theorem stale_request hw Ω0 st Ω c c' k k' id x :
  0 < hw → serving hw Ω0 (st, Ω) → s_cores st !! c = Some (Running k None) →
  s_cores st !! c' = Some (Running k' None) → c ≠ c' →
  local_connections k !! id = Some x → is_writing_ x = true → (s_next st < 2 ^ 32 - 1)%Z →
  ∃ st1 k1 r, rtc tstep (st, Ω) (st1, Ω ∖ {[fd_ x]}) ∧
    s_cores st1 !! c = Some (Running k1 None) ∧ local_connections k1 !! id = None ∧
    r ∈ requests (ring_ (ctx k1)) ∧ user_data r = Some (WriteOp id) ∧ fd r = fd_ x ∧
    addr r = Some (WriteBuffer id) ∧
    (∀ n data, (dispatch c (mkCqe (user_data r) n) data (server_of st1 k1)).1 = Undefined) ∧
    ∃ st2 k2 id2 x2, rtc tstep (st1, Ω ∖ {[fd_ x]}) (st2, Ω) ∧
      s_cores st2 !! c = Some (Running k1 None) ∧ s_cores st2 !! c' = Some (Running k2 None) ∧
      local_connections k2 !! id2 = Some x2 ∧ fd r = fd_ x2.
Proof.
  intros Hhw Hs Hk Hk' Hne Hx Hw Hn.
  destruct (leave_turn hw Ω0 st Ω c k id x Hhw Hs Hk Hx Hw Hn)
    as (st1 & k1 & r & Ht & Hcs & Hnx & Hl & Hin & Hd & Hf & Ha).
  exists st1, k1, r. assert (local_connections k1 !! id = None) as Hgone by by rewrite Hl, lookup_delete_eq.
  split_and!; [done|by rewrite Hcs, lookup_insert_eq|done..| |].
  { intros n data. rewrite Hd. completion. unfold handle_write, mbind, comp_bind, this.
    cbn [core server_of]. by rewrite Hgone. }
  destruct (conn_open hw Ω0 st Ω c k None id x Hhw Hs Hk Hx) as [Hfd HΩ].
  pose proof (serving_steps _ _ _ _ Hs Ht) as Hs1. pose proof (serving_reachable _ _ _ Hs1) as Hr1. cbn [fst] in Hr1.
  destruct (accept_turn st1 (Ω ∖ {[fd_ x]}) c' k' (fd_ x)) as (st2 & k2 & Ht2 & Hcs2 & _ & _ & Hl2);
    [by eapply reachable_ok|by eapply reachable_idle|by rewrite Hcs, lookup_insert_ne|by rewrite Hnx|done|set_solver|].
  assert (Ω ∖ {[fd_ x]} ∪ {[fd_ x]} = Ω) as HE.
  { apply set_eq. intros fd'. destruct (decide (fd' = fd_ x)); set_solver. }
  rewrite HE in Ht2.
  eexists st2, k2, _, _. split_and!; [done|..].
  - by rewrite Hcs2, lookup_insert_ne, Hcs, lookup_insert_eq by done.
  - by rewrite Hcs2, lookup_insert_eq.
  - by rewrite Hl2, lookup_insert_eq.
  - done.
Qed.

Lemma polls_fails Ω l r rounds :
  r ∈ l → fd r ∉ Ω → Forall (polls Ω l) rounds → Forall (λ rd, is_Some (select_error rd)) rounds.
Proof.
  intros Hr Hf Hp. eapply Forall_impl; [exact Hp|]. intros rd [-> | ->]; eauto.
Qed.

(** A turn of the loop with such a request: the requests are submitted, and that is
    all. *)
Lemma turn_starves c rounds data s :
  cqes (ring_ (ctx (core s))) = [] → requests (ring_ (ctx (core s))) ≠ [] →
  Forall (λ rd, is_Some (select_error rd)) rounds →
  ∃ io, run_once c rounds data s = (Ok tt, set_ctx s io) ∧ cqes (ring_ io) = [] ∧
    requests (ring_ io) ≡ₚ requests (ring_ (ctx (core s))).
Proof.
  intros Hq Hr Hf. unfold run_once, submit_and_wait, io_uring_submit_and_wait.
  set (r1 := (io_uring_submit (ring_ (ctx (core s)))).1).
  assert (cqes r1 = []) as Hq1 by done.
  assert (requests r1 ≡ₚ requests (ring_ (ctx (core s)))) as Hr1 by apply submit_requests.
  assert (pending_sqes r1 ≠ []) as Hp.
  { intros E. apply Hr. unfold requests in Hr1 at 1. rewrite E, filter_inactive in Hr1 by apply submit_frees.
    by apply Permutation_nil_l in Hr1. }
  destruct (wait_loop rounds 1 r1) as [r'|] eqn:E; simpl.
  - apply wait_loop_fails in E as ->; [|done|rewrite Hq1; simpl; lia|done]. rewrite Hq1.
    assert (waited s (set_ring (ctx (core s)) r1) = set_ctx s (set_ring (ctx (core s)) r1)) as ->.
    { unfold waited, drain, notified. cbn [ring_ set_ring]. rewrite Hq1. by case_match. }
    eexists. split; [done|]. split; [simpl; by rewrite Hq|exact Hr1].
  - exists (ctx (core s)). split; [|done]. by destruct s as [w [] n].
Qed.

(** C34. A client that leaves can stop its core.  With the in-tree ring, while a request
    whose descriptor is closed is in the ring of a core that has no completion at
    hand, [select] fails in every turn of the event loop: however many turns it
    makes, the core handles no completion, takes no message from its inbox, and the
    request stays. *)
Theorem core_starved c Ω turns s r :
  cqes (ring_ (ctx (core s))) = [] → r ∈ requests (ring_ (ctx (core s))) → fd r ∉ Ω →
  Forall (λ t, Forall (polls Ω (requests (ring_ (ctx (core s))))) t.1) turns →
  ∃ s', run_turns c turns s = (Ok tt, s') ∧ world s' = world s ∧
    next_conn_id s' = next_conn_id s ∧ local_connections (core s') = local_connections (core s) ∧
    cqes (ring_ (ctx (core s'))) = [] ∧
    requests (ring_ (ctx (core s'))) ≡ₚ requests (ring_ (ctx (core s))).
Proof.
  intros Hq Hr Hf Hp. unfold run_turns. set (l := requests (ring_ (ctx (core s)))) in *.
  assert (requests (ring_ (ctx (core s))) ≡ₚ l) as Hl by done. clearbody l. revert s Hq Hl.
  induction Hp as [|[rounds data] turns Ht _ IH]; intros s Hq Hl; [by exists s|]. cbn [fst] in Ht.
  assert (requests (ring_ (ctx (core s))) ≠ []) as Hne.
  { intros E. rewrite E in Hl. apply Permutation_nil_l in Hl as <-. by apply elem_of_nil in Hr. }
  destruct (turn_starves c rounds data s Hq Hne (polls_fails Ω l r rounds Hr Hf Ht)) as (io & E & Hq1 & Hr1).
  cbn [foldM]. erewrite bind_ok by exact E. destruct (IH (set_ctx s io) Hq1) as (s' & E' & Hs').
  { etrans; [exact Hr1|exact Hl]. }
  exists s'. split; [exact E'|]. exact Hs'.
Qed.

(** ** A client that ends its core *)

(** Whatever happens, an ended core stays ended and what it let go of stays open. *)
Lemma lost_for_good a b c fd :
  rtc tstep a b → sys_ok a.1 → s_cores a.1 !! c = Some Ended → fd ∈ a.2 → fd ∉ owned a.1 →
  s_cores b.1 !! c = Some Ended ∧ fd ∈ b.2 ∧ fd ∉ owned b.1.
Proof.
  induction 1 as [a|a1 a2 a3 Hs _ IH]; [done|]. intros Hst Hc Hin Hno.
  destruct (leaked_step a1 a2 fd Hst Hs Hin Hno). destruct Hs as (l & Hs & _).
  apply IH; [by eapply step_ok; [|eexists]|by eapply ended_step|done..].
Qed.

(** When a core ends, its connections have no owner any more, and are still open. *)
Lemma exit_leaks hw Ω0 st Ω c k h st' id x :
  0 < hw → serving hw Ω0 (st, Ω) → s_cores st !! c = Some (Running k h) →
  tstep (st, Ω) (st', Ω ∖ list_to_set (worker_exit k)) → s_cores st' !! c = Some Ended →
  local_connections k !! id = Some x →
  fd_ x ∈ Ω ∖ list_to_set (worker_exit k) ∧ fd_ x ∉ owned st'.
Proof.
  intros Hhw Hs Hk Ht Hc Hx. destruct (serving_table hw Ω0 _ Hhw Hs) as [Hd _ Ho _ _]. cbn [fst snd] in *.
  pose proof (conn_open hw Ω0 st Ω c k h id x Hhw Hs Hk Hx) as [_ HΩ].
  pose proof (serving_reachable _ _ _ Hs) as Hr. cbn [fst] in Hr.
  unfold owned in Hd. rewrite (owned_split _ c), Hk in Hd. cbn [from_option] in Hd.
  destruct (conn_owned k h id x Hx) as [l Hl]. rewrite Hl in Hd. apply NoDup_app in Hd as (Hp & Hdis & _).
  destruct Ht as (lb & Hls & _ & _ & _). cbn [fst snd] in *.
  destruct (step_fds st lb st' (reachable_ok hw st Hhw Hr) Hls) as (c1 & p' & Hcs & _ & _).
  assert (s_cores st' = <[c := Ended]> (s_cores st)) as Hcs'.
  { destruct (decide (c1 = c)) as [->|Hne].
    - rewrite Hcs, lookup_insert_eq in Hc. injection Hc as ->. done.
    - rewrite Hcs, lookup_insert_ne, Hk in Hc by done. done. }
  split.
  - rewrite elem_of_difference, elem_of_list_to_set. split; [done|]. intros Hin.
    assert (fd_ x ∈ wake_list (ctx k) ++ [server_fd_ k]) as Hin'.
    { unfold worker_exit in Hin. rewrite elem_of_app in Hin |- *. destruct Hin as [Hin|Hin].
      - right. unfold TcpServer_destructor in Hin. case_match; set_solver.
      - left. by apply destructor_wakes. }
    rewrite (cons_middle (server_fd_ k)), (assoc_L (++)) in Hp. apply NoDup_app in Hp as (_ & Hp & _).
    by apply (Hp _ Hin'), list_elem_of_here.
  - unfold owned. rewrite Hcs', owned_insert. cbn [phase_fds app]. apply Hdis. set_solver.
Qed.

(** C37. One client can end a core for all its clients: a read with a negative array
    size, on a connection between two commands, throws out of the handler and ends
    the worker.  From then on, whatever the other cores do, the core does not come
    back, and the sockets of all its connections stay open with nobody to serve or
    close them. *)
Theorem client_ends_core hw Ω0 st Ω c k id x n rest :
  0 < hw → serving hw Ω0 (st, Ω) → s_cores st !! c = Some (Running k None) →
  local_connections k !! id = Some x → parser_ x = reset → (int_min ≤ n < 0)%Z →
  (s_next st < 2 ^ 32 - 1)%Z →
  let data := "*"%char :: to_bytes n ++ cr :: lf :: rest in
  (∀ s, local_connections (core s) = local_connections k →
     (complete c (ReadOp id) (Z.of_nat (length data)) data s).1 = Throw (length_error "vector::reserve")) ∧
  ∃ st' Ω', rtc tstep (st, Ω) (st', Ω') ∧ s_cores st' !! c = Some Ended ∧
    ∀ id' x' st2 Ω2, local_connections k !! id' = Some x' → rtc tstep (st', Ω') (st2, Ω2) →
      s_cores st2 !! c = Some Ended ∧ fd_ x' ∈ Ω2 ∧ fd_ x' ∉ owned st2.
Proof.
  intros Hhw Hs Hk Hx Hp Hn Hnx data.
  pose proof (serving_reachable _ _ _ Hs) as Hr. cbn [fst] in Hr.
  pose proof (reachable_ok hw st Hhw Hr) as Hst. pose proof (reachable_idle hw st Hhw Hr) as Hi.
  destruct (sy_running _ Hst _ _ _ Hk) as [_ Hko]. rewrite pending_view_none in Hko.
  assert (∀ s, local_connections (core s) = local_connections k → ∃ s',
    complete c (ReadOp id) (Z.of_nat (length data)) data s = (Throw (length_error "vector::reserve"), s')) as Hthrow.
  { intros s Hl. rewrite <- Hl in Hx. completion. unfold handle_read.
    erewrite bind_ok by by apply this_ok. rewrite (proj2 (Z.leb_gt _ _)) by (unfold data; simpl; lia).
    eexists. unfold handle_data. apply bind_throw, bind_throw.
    unfold parser_consume. rewrite Hx, Hp. unfold data. by rewrite (negative_size_throws n rest Hn). }
  split; [intros s Hl; destruct (Hthrow s Hl) as [s' ->]; done|].
  destruct (crash_turn st Ω c k (ReadOp id) (Z.of_nat (length data)) data (length_error "vector::reserve") Hst Hi Hk)
    as (st1 & k1 & h & st2 & Ht1 & Hk1 & Hl1 & Ht2 & Hc2); [by apply (ko_conns _ _ _ Hko id x)|done|done|by auto|].
  pose proof (serving_steps _ _ _ _ Hs (rtc_once _ _ Ht1)) as Hs1.
  pose proof (serving_steps _ _ _ _ Hs1 (rtc_once _ _ Ht2)) as Hs2.
  eexists st2, _. split_and!; [by eapply rtc_l; [exact Ht1|apply rtc_once]|done|].
  intros id' x' st3 Ω3 Hx' Hrun. rewrite <- Hl1 in Hx'.
  destruct (exit_leaks hw Ω0 st1 Ω c k1 h st2 id' x' Hhw Hs1 Hk1 Ht2 Hc2 Hx') as [Hin Hno].
  apply (lost_for_good _ _ c (fd_ x') Hrun); [|done..].
  by eapply reachable_ok, (serving_reachable _ _ _ Hs2).
Qed.
End resources.

(** ** Examples: two cores, one client *)

Section examples.
#[local] Existing Instance demo_hash.
#[local] Existing Instance demo_files.

(** The client has sent a command, and the reply is being written. *)
Lemma demo_writing :
  ∃ w st Ω k0 k1 x, reachable 2 (mkSys w 1 ∅) ∧ rtc tstep (mkSys w 1 ∅, demo_table) (st, Ω) ∧
    serving 2 demo_table (st, Ω) ∧ (s_next st < 2 ^ 32 - 1)%Z ∧
    s_cores st !! 0 = Some (Running k0 None) ∧ s_cores st !! 1 = Some (Running k1 None) ∧
    local_connections k0 !! 1%Z = Some x ∧ write_queue_ x = ["+PONG" +:+ crlf] ∧ is_writing_ x = true ∧
    closes_once st.
Proof.
  destruct demo_client as (w & st & Ω & k0 & k1 & fd & Hw & Ht & Hs & Hn & Hc & Hk0 & Hk1 & Hx & _).
  pose proof (serving_reachable _ _ _ Hs) as Hr. cbn [fst] in Hr.
  pose proof (reachable_ok 2 st ltac:(lia) Hr) as Hst. pose proof (reachable_idle 2 st ltac:(lia) Hr) as Hi.
  destruct (sy_running _ Hst _ _ _ Hk0) as [_ Hko]. rewrite pending_view_none in Hko.
  set (data := RespParser.encode ["PING"] ++ []). set (x := mkConn fd 1 [] false reset) in *.
  destruct (turn st Ω 0 k0 (ReadOp 1) (Z.of_nat (length data)) data (λ s, next_conn_id s = 2%Z ∧
    local_connections (core s) !! 1%Z = Some (set_writes x ["+PONG" +:+ crlf] true)) Hst Hi Hk0)
    as (st' & k' & Ht' & Hcs & Hn' & Hx'); [by apply (ko_conns _ _ _ Hko 1 x)|lia|by intros fd' ?%elem_of_nil| |].
  { intros s Hso _ Hnx Hl _. rewrite <- Hl in Hx.
    pose proof (read_answered 0 s 1 x ["PING"] [] Hso Hx eq_refl ltac:(by apply (bool_decide_unpack _))) as Ha.
    cbv zeta in Ha. change (execute_command 0 1 ["PING"] (world s)) with
      (Ok (A := string) ("+PONG" +:+ crlf), world s) in Ha. cbv iota beta in Ha.
    destruct Ha as (s' & E & _ & _ & Hl'). exists s'. split; [exact E|].
    split; [|rewrite Hl', bool_decide_false by done; by rewrite lookup_insert_eq].
    assert (keeps next_conn_id (handle_read 0 1 (Z.of_nat (length data)) data)) as Hkeep.
    { assert (∀ {A} (m : prog A), keeps next_conn_id (on_world m)) as Hon.
      { intros A m s0. unfold on_world. by destruct (m (world s0)). }
      unfold handle_read, handle_data. keeps. }
    specialize (Hkeep s). completion. fold data in E. rewrite E in Hkeep. cbn [snd] in Hkeep. lia. }
  eexists w, st', _, k', k1, _. split_and!; [done|by etrans|by eapply serving_steps| | | |exact Hx'|done|done|].
  - cbn [next_conn_id server_of] in Hn'. lia.
  - by rewrite Hcs, lookup_insert_eq.
  - by rewrite Hcs, lookup_insert_ne.
  - left. intros c. rewrite Hcs. intros [[_ ?]|[_ E]]%lookup_insert_Some; [done|].
    revert E. apply none_ended; [done|]. rewrite Hc. intros [|[|]] ?; [eauto..|lia].
Qed.

(** The client of [demo_writing]: the reply being written is in the history. *)
Lemma linearizable_witness :
  ∃ w tr st, reachable 2 (mkSys w 1 ∅) ∧ lrun (mkSys w 1 ∅) tr st ∧
    effects w (history tr) (s_world st) ∧ "+PONG" +:+ crlf ∈ replies_of 0 1 (history tr).
Proof.
  destruct demo_writing as (w & st & Ω & k0 & k1 & x & Hw & Ht & _ & _ & Hk & _ & Hx & Hq & _).
  destruct (rtc_lrun _ _ (table_steps _ _ Ht)) as [tr Htr].
  destruct (linearizable 2 (mkSys w 1 ∅) tr st ltac:(lia) Hw eq_refl Htr) as (_ & He & Hb).
  destruct (Hb 0 1%Z) as [_ Hr]. specialize (Hr k0 None x Hk Hx).
  exists w, tr, st. refine (conj Hw (conj Htr (conj He _))). rewrite <- Hr, Hq. set_solver.
Defined.

(** Its one reply is accounted for by a command. *)
Lemma exactly_once_witness :
  ∃ w tr st k x, reachable 2 (mkSys w 1 ∅) ∧ lrun (mkSys w 1 ∅) tr st ∧
    s_cores st !! 0 = Some (Running k None) ∧ local_connections k !! 1%Z = Some x ∧
    length (write_queue_ x) = 1 ∧ 1 ≤ length (run_received 0 1 tr).
Proof.
  destruct demo_writing as (w & st & Ω & k0 & k1 & x & Hw & Ht & _ & _ & Hk & _ & Hx & Hq & _).
  destruct (rtc_lrun _ _ (table_steps _ _ Ht)) as [tr Htr].
  destruct (exactly_once 2 (mkSys w 1 ∅) tr st 0 k0 None 1 x ltac:(lia) Hw eq_refl Htr Hk Hx) as [Hle _].
  assert (length (write_queue_ x) = 1) as Hlen by by rewrite Hq.
  exists w, tr, st, k0, x. refine (conj Hw (conj Htr (conj Hk (conj Hx (conj Hlen _))))). lia.
Defined.

Lemma descriptors_exact_witness :
  ∃ st Ω k x, serving 2 demo_table (st, Ω) ∧ s_cores st !! 0 = Some (Running k None) ∧
    local_connections k !! 1%Z = Some x ∧ NoDup (owned st).
Proof.
  destruct demo_writing as (w & st & Ω & k0 & k1 & x & _ & _ & Hs & _ & Hk & _ & Hx & _ & _ & Ho).
  destruct (descriptors_exact 2 demo_table st Ω ltac:(lia) Hs Ho) as [Hnd _].
  exists st, Ω, k0, x. exact (conj Hs (conj Hk (conj Hx Hnd))).
Defined.

Lemma stale_request_witness :
  ∃ st Ω k2 id2 x2 k1 r, serving 2 demo_table (st, Ω) ∧ s_cores st !! 0 = Some (Running k1 None) ∧
    s_cores st !! 1 = Some (Running k2 None) ∧ r ∈ requests (ring_ (ctx k1)) ∧
    user_data r = Some (WriteOp 1) ∧ local_connections k2 !! id2 = Some x2 ∧ fd r = fd_ x2.
Proof.
  destruct demo_writing as (w & st & Ω & k0 & k1 & x & _ & _ & Hs & Hn & Hk0 & Hk1 & Hx & _ & Hw & _).
  destruct (stale_request 2 demo_table st Ω 0 1 k0 k1 1 x ltac:(lia) Hs Hk0 Hk1 ltac:(lia) Hx Hw Hn)
    as (st1 & k0' & r & Ht1 & _ & _ & Hin & Hd & _ & _ & _ & st2 & k2 & id2 & x2 & Ht2 & H1 & H2 & H3 & H4).
  exists st2, Ω, k2, id2, x2, k0', r.
  exact (conj (serving_steps _ _ _ _ (serving_steps _ _ _ _ Hs Ht1) Ht2)
    (conj H1 (conj H2 (conj Hin (conj Hd (conj H3 H4)))))).
Defined.

(** Descriptor 5 has been closed, and a write to it is posted. *)
Lemma core_starved_witness :
  let s := demo_server 1 [AcceptOp; NotificationOp; WriteOp 1] ["a"] in
  let rd := mkRound (Some EBADF) (λ _, true) (λ _, true) (λ _, SysOk 0) in
  ∃ s', run_turns 0 [([rd], λ _, [])] s = (Ok tt, s') ∧ cqes (ring_ (ctx (core s'))) = [].
Proof.
  intros s rd.
  destruct (core_starved 0 {[3; 7]}%Z [([rd], λ _, [])] s (demo_sqe ["a"] (WriteOp 1))) as (s' & E & _ & _ & _ & Hq & _).
  - reflexivity.
  - unfold s. cbn [demo_server core ctx]. rewrite demo_requests. set_solver.
  - simpl. set_solver.
  - repeat constructor.
  - exists s'. exact (conj E Hq).
Defined.

Lemma client_ends_core_witness :
  ∃ st Ω fd, serving 2 demo_table (st, Ω) ∧ s_cores st !! 0 = Some Ended ∧ fd ∈ Ω ∧ fd ∉ owned st.
Proof.
  destruct demo_client as (w & st & Ω & k0 & k1 & fd & _ & _ & Hs & Hn & _ & Hk0 & _ & Hx & _).
  destruct (client_ends_core 2 demo_table st Ω 0 k0 1 _ (-1) [] ltac:(lia) Hs Hk0 Hx eq_refl
    ltac:(split; by vm_compute) ltac:(lia)) as [_ (st' & Ω' & Ht & _ & Hl)].
  destruct (Hl 1%Z _ st' Ω' Hx (rtc_refl _ _)) as (Hc & Hin & Hno).
  exists st', Ω', fd. exact (conj (serving_steps _ _ _ _ Hs Ht) (conj Hc (conj Hin Hno))).
Defined.

End examples.
