(* ===== verification/Tests.v ===== *)
(** * The repository's tests, run on the model

    The unit tests of the storage (tests/unit/test_map.cpp) and the sessions of the
    integration tests (tests/integration), evaluated: the bytes a client sends go
    through [handle_read], a forwarded command through the inboxes of two cores, and
    the bytes of the replies are read back off the wire.  The definitions of the
    model are the ones that run. *)
From S2P Require Import Prelude CxxString Double Containers Value Store HashMap Shard Router Topology Command Exec StringCommands Wire Rdb Registry RespParser UringStub IoContext Connection Worker RequestTheorems.
From Stdlib Require Import ZArith Ascii.
From stdpp Require Import prelude gmap strings list_numbers.

#[local] Existing Instance demo_hash.
#[local] Existing Instance demo_files.

(** ** tests/unit/test_map.cpp *)

(** The string a pointer leads to. *)
Definition text (v : option Value) : option string :=
  match v with Some (VString s) => Some s | _ => None end.
Definition map_text (m : HashMap) (k : string) : option string :=
  text (HashMap.deref m <$> HashMap.get m k).

(** The puts that succeed, from an empty table, with what they returned. *)
Fixpoint puts (m : HashMap) (l : list (string * string)) : outcome (HashMap * list bool) :=
  match l with
  | [] => Ok (m, [])
  | (k, v) :: l =>
      match HashMap.put m k (VString v) with
      | Ok (m, b) => match puts m l with Ok (m, bs) => Ok (m, b :: bs) | o => o end
      | Throw e => Throw e
      | Undefined => Undefined
      end
  end.
Definition table (cap : nat) (l : list (string * string)) : HashMap :=
  match puts (new_map cap) l with Ok (m, _) => m | _ => new_map cap end.

Example HashMapTest_BasicPutGet :
  map_text (table 16 [("key1", "value1")]) "key1" = Some "value1" ∧
  map_text (table 16 [("key1", "value1"); ("key1", "value2")]) "key1" = Some "value2" ∧
  match puts (new_map 16) [("key1", "value1"); ("key1", "value2")] with
  | Ok (_, bs) => bs = [true; false]
  | _ => False
  end.
Proof. vm_compute. repeat split. Qed.

Example HashMapTest_Delete :
  let m := table 16 [("key1", "val")] in
  let '(m1, b1) := HashMap.del m "key1" in
  let '(m2, b2) := HashMap.del m1 "key1" in
  b1 = true ∧ HashMap.get m1 "key1" = None ∧ b2 = false.
Proof. vm_compute. repeat split. Qed.

(** All four keys have the same hash here. *)
Example HashMapTest_CollisionHandling :
  let m := table 4 [("k1", "v1"); ("k2", "v2"); ("k3", "v3"); ("k4", "v4")] in
  map_text m "k1" = Some "v1" ∧ map_text m "k4" = Some "v4" ∧
  HashMap.put m "k5" (VString "v5") = Throw (runtime_error "HashMap is full").
Proof. vm_compute. repeat split. Qed.

(** A shard with one string. *)
Definition shard_with (k v : string) : Shard HashMap :=
  match Shard.set new_shard k (VString v) with Ok sh => sh | _ => new_shard end.
Definition shard_text (now : Z) (sh : Shard HashMap) (k : string) : option string :=
  let '(sh, p) := Shard.get now sh k in text (Shard.deref sh <$> p).

Example ShardTest_SetGet : shard_text 0 (shard_with "foo" "bar") "foo" = Some "bar".
Proof. vm_compute. reflexivity. Qed.

Example ShardTest_Expiry :
  let sh := Shard.set_expiry (shard_with "temp" "val") "temp" (1000 + 100) in
  shard_text 1000 sh "temp" = Some "val" ∧ shard_text 1150 sh "temp" = None.
Proof. vm_compute. repeat split. Qed.

Example ShardTest_UpdateClearsExpiry :
  match Shard.set (Shard.set_expiry (shard_with "persistent" "val") "persistent" (1000 + 100))
    "persistent" (VString "newval") with
  | Ok sh => shard_text 1150 sh "persistent" = Some "newval"
  | _ => False
  end.
Proof. vm_compute. reflexivity. Qed.

Example ShardTest_SetCommands :
  match Shard.set new_shard "myset" (VSet []) with
  | Ok sh =>
      match Shard.get 0 sh "myset" with
      | (sh, Some p) =>
          match Shard.deref sh p with
          | VSet s =>
              let sh := Shard.assign sh p (VSet (set_insert "b" (set_insert "a" s).1).1) in
              Shard.deref sh p = VSet ["a"; "b"]
          | _ => False
          end
      | _ => False
      end
  | _ => False
  end.
Proof. vm_compute. reflexivity. Qed.

(** ** A client of a server with two cores *)

Record Machine := mkMachine { m_world : World; m_cores : list Core }.

(** The client is connection 1 of core [c]. *)
Definition new_machine (c : nat) (clk : nat → Z) : Machine :=
  let io := mkCtx (io_uring_queue_init 8) 7 7 in
  mkMachine (mkWorld (new_topology 2) clk 0 ∅ ∅ EventFd)
    (<[c := mkCore io 3 {[ 1%Z := mkConn 5 1 [] false reset ]}]> (replicate 2 (mkCore io 3 ∅))).

Definition on_core (c : nat) (h : handler unit) (m : Machine) : Machine :=
  match m_cores m !! c with
  | Some k => let s := (h (mkServer (m_world m) k 2)).2 in
      mkMachine (world s) (<[c := core s]> (m_cores m))
  | None => m
  end.

Definition replies_queued (c : nat) (m : Machine) : list string :=
  default [] (m_cores m !! c ≫= λ k, write_queue_ <$> local_connections k !! 1%Z).

(** The command is sent, the cores look into their inboxes, the client's last, and
    the reply is written and read. *)
Definition ask (c : nat) (args : list string) (m : Machine) : option resp * Machine :=
  let data := RespParser.encode args in
  let m := on_core c (handle_read c 1 (Z.of_nat (length data)) data) m in
  let m := on_core (1 - c) (notification_handler (1 - c)) m in
  let m := on_core c (notification_handler c) m in
  match replies_queued c m with
  | [reply] =>
      match read_reply (bytes_of_string reply) with
      | Some (v, []) => (Some v, on_core c (handle_write 1 (str_size reply)) m)
      | _ => (None, m)
      end
  | _ => (None, m)
  end.

(** Commands with the replies they must get. *)
Abbreviation script := (list (list string * resp)).

Fixpoint session (c : nat) (l : script) (m : Machine) : bool :=
  match l with
  | [] => true
  | (args, expected) :: l =>
      let '(r, m) := ask c args m in bool_decide (r = Some expected) && session c l m
  end.

(** ** tests/integration *)

Definition test_lists : script :=
  [(["DEL"; "mylist"], RInt 0); (["LPUSH"; "mylist"; "a"; "b"; "c"], RInt 3);
   (["LRANGE"; "mylist"; "0"; "-1"], RArray ["c"; "b"; "a"]); (["LPOP"; "mylist"], RBulk "c");
   (["LRANGE"; "mylist"; "0"; "-1"], RArray ["b"; "a"])].

Definition numbered (prefix : string) (n : nat) : list string :=
  (λ i, prefix +:+ to_string (Z.of_nat i)) <$> seq 0 n.
Definition test_lists_forwarding : script :=
  numbered "list-" 3 ≫= λ k,
    [(["DEL"; k], RInt 0); (["LPUSH"; k; "X"], RInt 1); (["LPOP"; k], RBulk "X")].

Definition test_structures_sets : script :=
  [(["DEL"; "myset"], RInt 0); (["SADD"; "myset"; "a"; "b"; "c"], RInt 3);
   (["SADD"; "myset"; "a"], RInt 0); (["SMEMBERS"; "myset"], RArray ["a"; "b"; "c"])].

Definition test_structures_hashes : script :=
  [(["DEL"; "myhash"], RInt 0); (["HSET"; "myhash"; "field1"; "val1"; "field2"; "val2"], RInt 2);
   (["HGET"; "myhash"; "field1"], RBulk "val1");
   (["HGETALL"; "myhash"], RArray ["field1"; "val1"; "field2"; "val2"]); (["HLEN"; "myhash"], RInt 2);
   (["HDEL"; "myhash"; "field1"], RInt 1); (["HLEN"; "myhash"], RInt 1)].

Definition test_structures_zsets : script :=
  [(["DEL"; "myzset"], RInt 0); (["ZADD"; "myzset"; "10"; "member1"; "20"; "member2"], RInt 2);
   (["ZADD"; "myzset"; "15"; "member1"], RInt 0);
   (["ZRANGE"; "myzset"; "0"; "-1"; "WITHSCORES"], RArray ["member1"; "15"; "member2"; "20"])].

Definition test_structures_lists : script :=
  [(["DEL"; "mylist"], RInt 1); (["RPUSH"; "mylist"; "a"; "b"; "c"], RInt 3);
   (["LLEN"; "mylist"], RInt 3); (["RPOP"; "mylist"], RBulk "c"); (["LLEN"; "mylist"], RInt 2);
   (["LPUSH"; "mylist"; "z"], RInt 3); (["LRANGE"; "mylist"; "0"; "-1"], RArray ["z"; "a"; "b"])].

(** EXPIRE and the first TTL read the clock twice each, then 1.2 seconds pass. *)
Definition test_structures_expiry : script :=
  [(["SET"; "expire_key"; "gone_soon"], RSimple "OK"); (["EXPIRE"; "expire_key"; "1"], RInt 1);
   (["TTL"; "expire_key"], RInt 1); (["GET"; "expire_key"], RNil); (["TTL"; "expire_key"], RInt (-2))].

Definition test_sharding : script :=
  numbered "key-" 5 ≫= λ k, [(["SET"; k; "val-" +:+ k], RSimple "OK"); (["GET"; k], RBulk ("val-" +:+ k))].

Definition tests : script :=
  test_structures_expiry ++ test_lists ++ test_lists_forwarding ++ test_structures_sets ++
  test_structures_hashes ++ test_structures_zsets ++ test_structures_lists ++ test_sharding.
Definition test_clock (n : nat) : Z := if n <? 4 then 5000 else 6200.

(** All commands get their replies, from either core: each is local on one and
    forwarded on the other. *)
Example integration_core0 : session 0 tests (new_machine 0 test_clock) = true.
Proof. vm_compute. reflexivity. Qed.
Example integration_core1 : session 1 tests (new_machine 1 test_clock) = true.
Proof. vm_compute. reflexivity. Qed.

(** The ring does not spread the keys of tests/integration/test_sharding.py: with
    two cores, two of the hundred belong to core 1. *)
Example sharding_skewed :
  length (filter (λ i, i = 1) (get_shard_id (new_router 2) <$> numbered "key-" 100)) = 2.
Proof. vm_compute. reflexivity. Qed.
